(* ===== verification/_CoqProject ===== *)
-Q . S2P
Prelude.v
Sums.v
Bytes.v
Text.v
Store.v
Device.v
DriveConfig.v
DriveHeader.v
RobinHood.v
DriveTable.v
Drive.v
DriveTokens.v
DriveFormat.v
DriveRuns.v
ConformanceData.v
Conformance.v
Evm.v
Ledger.v
Journal.v
DriveJournal.v
LedgerJournal.v
LedgerOps.v
LedgerSpec.v
LedgerInv.v
Boot.v
Handlers.v
Router.v
AbiDrive.v
AbiDriveSpec.v
Application.v
HandlersJournal.v
HandlersInv.v
RouterSpec.v
Effects.v
BridgeSpec.v
TokenBridge.v
Registration.v
Chain.v
Solvency.v
SolvencySpec.v
ApplicationSpec.v
Sync.v
Divergences.v
Fixture.v
DriveProperties.v
EvmProperties.v
AppProperties.v
GuestProperties.v
JsText.v
Regex.v
Numbers.v
Demo.v
Multicall3.v
Process.v
Signals.v
Requests.v
Env.v
EnvSpec.v
Devnet.v
DevnetSpec.v
Scripts.v
ScriptsSpec.v
GuestLog.v
GuestLogSpec.v
Json.v
Golden.v
Deploy.v
DeploySpec.v
DevnetFixture.v
Crossing.v
DevnetProperties.v
CrossingProperties.v
