(* ===== verification/Prelude.v ===== *)
(** * op-cartesi: the guest, its devnet and its scripts, modelled and verified

    op-cartesi runs an application inside a Cartesi machine as the execution
    layer of an OP Stack chain. This development models the repository's
    TypeScript: the guest, which runs inside the machine, receives the chain's
    inputs, keeps accounts and token balances in the bytes of a drive,
    dispatches transactions to handlers, and emits notices, vouchers and
    reports; and around it the devnet, which deploys the L1 contracts, anchors
    the rollup to them and starts the engine, and the scripts that deposit,
    withdraw and execute outputs.

    ** The parts and the files that model them

    The accounts drive (accounts-drive/js/src/drive.ts, store.ts, keccak.ts), a
    library that lays accounts, a token registry and token balances out in the
    bytes of a device, in Robin Hood hash tables:
    - [Bytes]: hexadecimal, endianness, addresses; [Store]: the store interface
      as a class with its laws, [MemStore], [FileStore] with short transfers,
      [MachineStore]; [Device]: a [FileStore] over a device behind a page cache,
      its [open], [sync] and [close];
    - [DriveConfig]: defaults and validation of a geometry; [DriveHeader]: the
      header page's codec;
    - [RobinHood]: the table algorithms on an array of slots, the abstract
      specification; [DriveTable]: the tables byte by byte, and that they refine
      it to a finite map;
    - [Drive], [DriveTokens]: accounts, registry and balances, and what each
      operation does on every outcome; [DriveFormat]: [format] and [open];
      [DriveRuns]: any run of writes against the plain record of them;
    - [Conformance], [ConformanceData]: the model replays scenarios of the
      cross-language suite (accounts-drive/testdata/golden.json) with Keccak-256
      for the hash, and gives the image the other implementations give.
    The wire formats (evm-compat/js/src), in [Evm]: addresses and aliasing,
    contexts and outcomes, transaction parsing, queries, events, withdrawals,
    cross-domain messages.
    The ledger (app/src/ledger.ts): the drive behind a store that journals the
    before-image of every write, with RAM state beside it:
    - [Ledger]: the journal, the journaled store and every operation;
    - [Journal], [DriveJournal], [LedgerJournal], [LedgerOps]: every operation
      can be undone, whatever it computes and however it ends;
    - [LedgerSpec]: what the operations do to accounts, balances and totals
      ([Sums]); [LedgerInv]: the invariant every one of them keeps; [Boot]:
      [Ledger.create].
    The handlers (app/src/handlers, app/src/contract.ts), in [Handlers]: the
    nine built-ins and the handler a contract specification becomes;
    [HandlersJournal], [HandlersInv]: they can be undone and keep the invariant;
    [BridgeSpec], [TokenBridge]: what relays, token transfers, deposits and
    withdrawals do.
    The router (app/src/router.ts), in [Router]: the manifest, resolution,
    admission, execution with its four outcomes, deposits, views, simulations;
    [RouterSpec]: what an input and a query do, and which inputs the router
    throws out of; [Effects]: transfers, charges,
    reverts and mints on the balances; [Registration]; [Chain]: runs of inputs
    and queries as a step relation; [Solvency], [SolvencySpec]: the ether each
    operation, handler and run may add to the ledger.
    The ABI drive (abi-drive/js/src/index.ts), in [AbiDrive] and [AbiDriveSpec],
    with the runtime's UTF-8 codec in [Text]: a list of entries over its bytes; in
    [Golden], abi-drive/js/golden.ts, whose bytes are those of golden-v1.bin.
    The application (app/src/application.ts, demo/src/index.ts), in
    [Application] and [ApplicationSpec]: boot, contracts, the work of the rollup
    loop's callbacks, the demo's counter; [Sync]: the boot from device files, the
    callbacks whole, each ending in a flush, and the loop's turns; [Demo]: the
    demo as a process.
    The runtime the devnet and the scripts use: [JsText], strings; [Regex], the
    backtracking matcher behind [match], [matchAll] and [replace], the patterns
    being written as the sources spell them; [Numbers], doubles and their
    conversions; [Json], [JSON.parse].
    Processes (devnet/lib/proc.ts), in [Process]: files, environment, output,
    exits, child processes, and the questions a process asks of an endpoint; in
    [Signals], the signals [run] forwards to its child; in [Requests]
    (lib/cartesi.ts), what a question of the cartesi_ namespace sends.
    The devnet (devnet):
    - [Env] (lib/env.ts): the variable files, their layering, the values at
      import and on every call; [EnvSpec]: a plain parser of the files the
      pattern is proved to agree with, and what reading a value returns;
    - [Devnet] (lib/genesis.ts, lib/opcartesi.ts, lib/wallet.ts, compose/live.ts,
      compose/genesis.ts, generate-config.ts, start-shim.ts): the anchor, the
      chain flags, the genesis step; [DevnetSpec]: what a genesis step builds,
      when it stands aside, and how compose/engine.sh splits the flags;
    - [Deploy], [Multicall3] (deploy-l1.ts, deploy-outputs.ts,
      compose/l1-contracts.ts, lib/multicall3.ts); [DeploySpec]: what is left of
      a deployment that fails, what one that succeeds records;
    - [GuestLog] (guest-log.ts); [GuestLogSpec]: the loop's turns and its
      pauses.
    The scripts (scripts), in [Scripts] and [ScriptsSpec]; [Crossing]: what a
    script encodes, followed to what the guest does with it.
    [Divergences] holds facts the documentation does not lead one to expect.
    [Fixture] holds concrete parameters and a small chain, [DevnetFixture] a
    small world outside. The properties, each with an instance, are in
    [AppProperties], [DriveProperties], [EvmProperties], [GuestProperties],
    [DevnetProperties] and [CrossingProperties].

    ** How the code is modelled

    A function that mutates objects or throws is a computation of the monad [M]
    below, from the state to an outcome and the state left behind; a throw keeps
    the writes made before it, and a [for (;;)] loop that does not end is an
    outcome, [Diverge], that every theorem about returning rules out. An object
    two others share (the journal, held by the store and by the ledger) lives in
    one place of the state. [await] adds nothing: the guest handles one request
    at a time and no operation runs concurrently with another.

    A device has its bytes as the guest's reads and writes see them, and as the
    machine holds them; the kernel may write any part of the one back into the
    other at every write, an arbitrary function of the model, and a flush makes
    them equal. What a reader of the machine finds at a yield is the second. A
    process's listeners are closures named by what they do, and a signal is
    delivered between two steps of the wait for the child.

    Byte arrays are lists of integers in [0, 256); BigInts are integers; numbers
    are integers too, with the conversions at 2^53 ([Number_of_bigint]), 2^32
    and 2^64 ([DataView]) written out where the code has them. A hex string is
    the bytes it spells, so addresses are compared as bytes, and error messages
    show them in lower case. A string that is text is its list of Unicode scalar
    values; a message is a [string].

    The loops of the tables run at most once per slot ([capacity] steps suffice:
    [lookup_loop] is bounded by the code, and the insertion and removal loops
    are proved to end below the load limit); [FileStore]'s loops take at most
    one step per byte, since a transfer moves at least one; a rollback pops one
    entry per step. These bounds are the fuel given, and the theorems show it is
    never exhausted on a drive at rest.

    A step of the devnet or a script is a computation of the monad [Proc]
    ([Process]), from the world to what became of the process (it returned, it
    threw, it exited with a code, it is still in a loop) and the world it left:
    files, environment, the lines it wrote and the history of what it asked. The
    files are a map from absolute paths; a write may fail at any point of the
    history, before the file is opened or with part of it written
    ([write_fault]). What is outside (RPC endpoints through
    viem, op-deployer, forge, op-cartesi) answers as functions of that history,
    so the chain may grow, reorganize or fail between two questions; a child may
    change the files in any way. Two loops poll: [find_game] runs for as many
    rounds as it is given and is otherwise still going, and the guest log, which
    never ends, is its turns; every other loop follows the data. The pattern
    matcher is structural but for [re_matchAll], whose matches are at most one
    more than the text's characters.

    Code outside the repository is a parameter: the hash ([Keccak], of
    @noble/hashes), viem's transaction parser, signature recovery and ABI codec
    ([Viem]), its calldata decoders ([Calldata]), the JSON texts of the built-in
    ABIs ([BuiltinAbis]). What the code relies on of them is stated in classes
    of laws (a digest has 32 bytes; a decoded address has 20; decoding inverts
    encoding on well-typed values: on others viem's encoder throws, and the
    model's, a total function, promises nothing), which [Fixture] shows can hold. The programs
    and endpoints of the devnet are the class [Host]; its laws are [GenesisTool]
    (op-cartesi's generator writes the file it is told to and no other) and
    [ScriptCalldata] (what the scripts encode, the guest's decoders read back),
    which [DevnetFixture] and [CrossingProperties] show can hold. An
    application's callbacks are arguments, constrained only by the interfaces
    gathered in [behaves]: they write through the ledger, keep its invariant,
    credit no more than they debit, and views only read. What viem's decoders
    promise of an amount is [CalldataAmounts].

    ** What the theorems show

    - Inputs (C1 to C7): whatever the bytes, an input ends and leaves the
      ledger at rest, and is answered but for two kinds of signature the router
      throws on ([escapes]), which leave no trace; a rejection leaves no trace, a
      revert keeps the charge or the mint alone, a transfer moves exactly its
      value and its fee.
    - Ether (C8): over any run of inputs and queries the ledger holds at most
      what it started with and what deposits minted, whatever contracts the
      application declared.
    - Messages and bridges (C3, C9, C11, C12, C13): a message is relayed at
      most once and only from the L1 messenger; a failed relay leaves its
      record; a token transfer moves its amount, or reverts or throws for a
      stated cause; a deposit mints its amount; a withdrawal of either form
      burns what it announces.
    - The journal and the ledger (C10), boot (C37), declared contracts (C38) and
      the demo (C40); a turn of the loop hands the device exactly what the router
      makes of the request (C39), and at every yield the machine's bytes are
      those of a ledger at rest, which a reader opens (C28).
    - The drive (C17 to C19, C21 to C26, C30): the tables are finite maps, every
      operation on every outcome, any run of writes read back (C26), the header
      and registry across a reopening, the stores' loops.
    - Wire formats (C31, C33) and the ABI drive (C36).
    - The devnet: an engine started on the recorded flags serves the chain the
      rollup configuration was generated for, anchored to the block L1 answered
      (C14), a chain that still stands is left alone (C15), a failed deployment
      leaves no record and one that succeeds the lines of what op-deployer
      reported and L1 answered (C20), how a file of configured values is read
      (C29), a turn of the guest log (C35).
    - The scripts: a voucher is executed against the newest of the games the
      factory counts that covers it (C32), a withdrawal is proved and finalized
      in order (C34).
    - Both sides together: the guest burns exactly what the withdrawal script
      asked it to, or reverts with nothing changed (C16), and trusts the
      messenger the deployment registered (C27).
    - Beside the numbered properties stand a boot from a formatted device, the
      demo's way to the loop, the admission of a relayed message, where a
      configured value comes from, the signals a child receives, the requests of
      the cartesi_ namespace, the registration of a contract and of a token, the
      bridge's withdrawal on every outcome, the account round trip, the layout of a
      validated geometry, the exactness of [putBE], the query round trip, the
      address alias and the comparison of addresses.

    ** What is not modelled

    In the guest, the console and @cartesi/rollup's own loop, which calls the two
    callbacks and finishes each request ([turn] is what it does to the guest);
    letter case of addresses inside error messages is not kept. The static types
    of the sources, which have no behaviour. In the devnet and the scripts, the
    pauses between two polls of a script, and permissions when a file is read or
    removed or a directory made; a viem action is one question, and a call names
    its function and its arguments rather than their encoding; what an error
    prints under DEVNET_DEBUG is its message. Of the shell scripts, only how
    engine.sh splits the flags is used. The node (Go), the L1 contracts
    (Solidity) and the drive libraries in other languages are other programs. *)

From Stdlib Require Import ZArith Lia.
From stdpp Require Export base numbers list gmap strings fin_maps pretty.
#[global] Open Scope Z_scope.

(** ** Exceptions

    What a [throw] of the TypeScript sources carries. [AccountsDriveError]
    is the drive library's own error class (its [kind] is what callers branch
    on), [AbiDriveError] the ABI drive's, [InsufficientFunds] the ledger's,
    [Revert] and [Fail_] what an application callback throws, with its data,
    [JsError] a plain [Error] or one of the runtime's own ([RangeError],
    [TypeError]) with its message. *)
Inductive ErrorKind : Type :=
  | tableFull | registryFull | overflow | nonceProtected | duplicateToken
  | unknownToken | badWidth | zeroAddress | profileError.

Inductive AbiDriveErrorKind : Type :=
  | badMagic | badVersion | badGeometry | abiRegistryFull | heapFull | abiDuplicate.

Inductive exn : Type :=
  | AccountsDriveError (kind : ErrorKind) (message : string)
  | AbiDriveError (kind : AbiDriveErrorKind) (message : string)
  | InsufficientFunds (message : string)
  | Revert (message : string) (data : list Z)
  | Fail_ (message : string) (data : list Z)
  | JsError (message : string).

(** [e.message] *)
Definition message (e : exn) : string :=
  match e with
  | AccountsDriveError _ m | AbiDriveError _ m | InsufficientFunds m
  | Revert m _ | Fail_ m _ | JsError m => m
  end.

#[export] Instance ErrorKind_eq_dec : EqDecision ErrorKind.
Proof. solve_decision. Defined.
#[export] Instance AbiDriveErrorKind_eq_dec : EqDecision AbiDriveErrorKind.
Proof. solve_decision. Defined.
#[export] Instance exn_eq_dec : EqDecision exn.
Proof. solve_decision. Defined.

(** ** Outcomes and the state-and-exception monad

    A TypeScript function that mutates shared state and may throw is a
    function from the state to an outcome and the state it leaves behind. A
    [throw] does not undo the writes made before it: [Exn] keeps the state.
    [Diverge] is a [for (;;)] loop that never returns. *)
Inductive outcome (A : Type) : Type :=
  | Val (a : A)
  | Exn (e : exn)
  | Diverge.
Arguments Val {A} a.
Arguments Exn {A} e.
Arguments Diverge {A}.

#[export] Instance outcome_ret : MRet outcome := fun A a => Val a.
#[export] Instance outcome_bind : MBind outcome := fun A B f m =>
  match m with Val a => f a | Exn e => Exn e | Diverge => Diverge end.

Definition M (S A : Type) : Type := S -> outcome A * S.

#[export] Instance M_ret S : MRet (M S) := fun A a s => (Val a, s).
#[export] Instance M_bind S : MBind (M S) := fun A B f m s =>
  match m s with
  | (Val a, s') => f a s'
  | (Exn e, s') => (Exn e, s')
  | (Diverge, s') => (Diverge, s')
  end.

Definition throw {S A} (e : exn) : M S A := fun s => (Exn e, s).
Definition diverge {S A} : M S A := fun s => (Diverge, s).
Definition liftO {S A} (o : outcome A) : M S A := fun s => (o, s).
Definition gets {S A} (f : S -> A) : M S A := fun s => (Val (f s), s).
Definition modify {S} (f : S -> S) : M S unit := fun s => (Val tt, f s).
(** [try { m } catch (e) { h(e) }]: the handler starts from the state the
    throwing code left. *)
Definition try_catch {S A} (m : M S A) (h : exn -> M S A) : M S A := fun s =>
  match m s with (Exn e, s') => h e s' | r => r end.
(** Running a computation on a component of a larger state. *)
Definition zoom {S T A} (g : T -> S) (p : S -> T -> T) (m : M S A) : M T A := fun t =>
  match m (g t) with (r, s) => (r, p s t) end.
Definition when {S} (b : bool) (m : M S unit) : M S unit := if b then m else mret tt.

(** Weakest precondition of a computation, on every outcome. *)
Definition wp {S A} (m : M S A) (s : S) (Q : outcome A -> S -> Prop) : Prop :=
  Q (m s).1 (m s).2.
(** [returns m s Q]: [m] terminates without throwing from [s], and its result
    and final state satisfy [Q]. *)
Definition returns {S A} (m : M S A) (s : S) (Q : A -> S -> Prop) : Prop :=
  wp m s (fun r s' => match r with Val a => Q a s' | _ => False end).
(** [raises m s e Q]: [m] throws [e] from [s], and the state it leaves satisfies
    [Q]. *)
Definition raises {S A} (m : M S A) (s : S) (e : exn) (Q : S -> Prop) : Prop :=
  wp m s (fun r s' => r = Exn e /\ Q s').

(** ** Reasoning about computations *)
Section Wp.
Context {S : Type}.

Lemma wp_bind {A B} (m : M S A) (f : A -> M S B) s Q :
  wp m s (fun r s' =>
    match r with Val a => wp (f a) s' Q | Exn e => Q (Exn e) s' | Diverge => Q Diverge s' end) ->
  wp (m ≫= f) s Q.
Proof. unfold wp, mbind, M_bind. by destruct (m s) as [[a|e|] s']. Qed.

Lemma wp_mono {A} (m : M S A) s (P Q : outcome A -> S -> Prop) :
  (forall r s', P r s' -> Q r s') -> wp m s P -> wp m s Q.
Proof. unfold wp. auto. Qed.

(** An outcome that is decided is the outcome. *)
Lemma wp_returns {A} (m : M S A) s (P : A -> S -> Prop) (Q : outcome A -> S -> Prop) :
  returns m s P -> (forall a s', P a s' -> Q (Val a) s') -> wp m s Q.
Proof. unfold returns, wp. destruct (m s) as [[a|e|] s']; naive_solver. Qed.
Lemma wp_raises {A} (m : M S A) s e (P : S -> Prop) (Q : outcome A -> S -> Prop) :
  raises m s e P -> (forall s', P s' -> Q (Exn e) s') -> wp m s Q.
Proof. unfold raises, wp. destruct (m s) as [[a|e'|] s']; naive_solver. Qed.

Lemma returns_intro {A} (m : M S A) s a s' (Q : A -> S -> Prop) :
  m s = (Val a, s') -> Q a s' -> returns m s Q.
Proof. unfold returns, wp. by intros ->. Qed.

Lemma returns_elim {A} (m : M S A) s (Q : A -> S -> Prop) :
  returns m s Q -> exists a s', m s = (Val a, s') /\ Q a s'.
Proof. unfold returns, wp. destruct (m s) as [[a|e|] s']; naive_solver. Qed.

Lemma returns_ret {A} (a : A) s (Q : A -> S -> Prop) : Q a s -> returns (mret a) s Q.
Proof. done. Qed.

Lemma returns_bind {A B} (m : M S A) (f : A -> M S B) s Q :
  returns m s (fun a s' => returns (f a) s' Q) -> returns (m ≫= f) s Q.
Proof. unfold returns, wp, mbind, M_bind. destruct (m s) as [[a|e|] s']; naive_solver. Qed.

Lemma returns_try {A} (m : M S A) (h : exn -> M S A) s Q :
  wp m s (fun r s' => match r with Val a => Q a s' | Exn e => returns (h e) s' Q | Diverge => False end) ->
  returns (try_catch m h) s Q.
Proof. unfold returns, wp, try_catch. by destruct (m s) as [[a|e|] s']. Qed.

Lemma returns_mono {A} (m : M S A) s (P Q : A -> S -> Prop) :
  returns m s P -> (forall a s', P a s' -> Q a s') -> returns m s Q.
Proof. unfold returns, wp. destruct (m s) as [[a|e|] s']; naive_solver. Qed.

Lemma returns_gets {A} (g : S -> A) s (Q : A -> S -> Prop) : Q (g s) s -> returns (gets g) s Q.
Proof. done. Qed.

Lemma returns_modify (g : S -> S) s (Q : unit -> S -> Prop) : Q tt (g s) -> returns (modify g) s Q.
Proof. done. Qed.

Lemma returns_lift {A} (o : outcome A) a s (Q : A -> S -> Prop) :
  o = Val a -> Q a s -> returns (liftO o) s Q.
Proof. by intros ->. Qed.

Lemma raises_bind {A B} (m : M S A) (f : A -> M S B) s e Q :
  returns m s (fun a s' => raises (f a) s' e Q) -> raises (m ≫= f) s e Q.
Proof. unfold raises, returns, wp, mbind, M_bind. destruct (m s) as [[a|e'|] s']; naive_solver. Qed.

Lemma raises_first {A B} (m : M S A) (f : A -> M S B) s e Q :
  raises m s e Q -> raises (m ≫= f) s e Q.
Proof. unfold raises, wp, mbind, M_bind. destruct (m s) as [[a|e'|] s']; naive_solver. Qed.

Lemma raises_mono {A} (m : M S A) s e (P Q : S -> Prop) :
  raises m s e P -> (forall s', P s' -> Q s') -> raises m s e Q.
Proof. unfold raises, wp. naive_solver. Qed.

Lemma raises_throw {A} e s (Q : S -> Prop) : Q s -> raises (throw e : M S A) s e Q.
Proof. done. Qed.

Lemma raises_lift {A} (o : outcome A) e s (Q : S -> Prop) : o = Exn e -> Q s -> raises (liftO o) s e Q.
Proof. by intros -> ?. Qed.

Lemma bind_val {A B} (m : M S A) (f : A -> M S B) s a s' :
  m s = (Val a, s') -> (m ≫= f) s = f a s'.
Proof. unfold mbind, M_bind. by intros ->. Qed.

Lemma bind_exn {A B} (m : M S A) (f : A -> M S B) s e s' :
  m s = (Exn e, s') -> (m ≫= f) s = (Exn e, s').
Proof. unfold mbind, M_bind. by intros ->. Qed.
End Wp.

Lemma wp_zoom {S T A} (g : T -> S) (p : S -> T -> T) (m : M S A) t (Q : outcome A -> T -> Prop) :
  wp m (g t) (fun r s' => Q r (p s' t)) -> wp (zoom g p m) t Q.
Proof. unfold wp, zoom. by destruct (m (g t)) as [[a|e|] s']. Qed.

Lemma returns_zoom {S T A} (g : T -> S) (p : S -> T -> T) (m : M S A) t (Q : A -> T -> Prop) :
  returns m (g t) (fun a s => Q a (p s t)) -> returns (zoom g p m) t Q.
Proof. unfold returns, wp, zoom. by destruct (m (g t)) as [[a|e|] s]. Qed.

(** ** JavaScript numbers

    Offsets, lengths and indices are [Number]s: integers are exact up to
    2^53, and [Number(b)] of a larger BigInt rounds to the nearest double,
    ties to even. *)
Definition MAX_SAFE_INTEGER : Z := 2 ^ 53 - 1.
Definition isSafeInteger (n : Z) : bool := Z.abs n <=? MAX_SAFE_INTEGER.

Definition Number_of_bigint (z : Z) : Z :=
  let a := Z.abs z in
  if a <? 2 ^ 53 then z
  else
    let e := Z.log2 a - 52 in
    let q := a / 2 ^ e in
    let r := a mod 2 ^ e in
    let half := 2 ^ (e - 1) in
    let q' := if (r <? half) || ((r =? half) && Z.even q) then q else q + 1 in
    Z.sgn z * (q' * 2 ^ e).

Lemma Number_of_bigint_small z : 0 <= z <= MAX_SAFE_INTEGER -> Number_of_bigint z = z.
Proof.
  unfold MAX_SAFE_INTEGER, Number_of_bigint. intros H.
  by rewrite (proj2 (Z.ltb_lt _ _)) by lia.
Qed.

(** ** Modular arithmetic on [0, 2n) *)
Lemma mod_wrap x n : 0 <= x < 2 * n -> x mod n = if decide (x < n) then x else x - n.
Proof.
  intros H. case_decide.
  - apply Z.mod_small. lia.
  - symmetry. apply (Z.mod_unique_pos _ _ 1); lia.
Qed.

(** Rewrites every [x mod n] whose argument stays below twice the modulus into
    a case split, and closes the goal with [lia]. *)
Ltac mod_step :=
  match goal with
  | |- context [?x mod ?n] =>
      lazymatch x with
      | context [_ mod _] => fail
      | _ => rewrite (mod_wrap x n) by lia; case_decide
      end
  | H : context [?x mod ?n] |- _ =>
      lazymatch x with
      | context [_ mod _] => fail
      | _ => rewrite (mod_wrap x n) in H by lia; case_decide
      end
  end.
Ltac mod_cases := intros; repeat mod_step; try lia.

(** ** Slices and patches of byte arrays

    [slice off len l] is [l.subarray(off, off + len)] (which clamps to the
    array), [patch off bs l] the array after [l.set(bs, off)] in range. *)
Definition slice {A} (off len : Z) (l : list A) : list A :=
  take (Z.to_nat len) (drop (Z.to_nat off) l).
Definition patch {A} (off : Z) (bs l : list A) : list A :=
  take (Z.to_nat off) l ++ bs ++ drop (Z.to_nat off + length bs)%nat l.
Definition zlen {A} (l : list A) : Z := Z.of_nat (length l).

(** [fits off len n]: the range lies inside an array of [n] cells. *)
Definition fits (off len n : Z) : Prop := 0 <= off /\ 0 <= len /\ off + len <= n.
(** Two ranges that share no cell. *)
Definition disjoint_ranges (o1 l1 o2 l2 : Z) : Prop := o1 + l1 <= o2 \/ o2 + l2 <= o1.

Section Slices.
Context {A : Type}.
Implicit Types l bs : list A.

Lemma zlen_slice off len l : fits off len (zlen l) -> zlen (slice off len l) = len.
Proof. unfold fits, zlen, slice. rewrite length_take, length_drop. lia. Qed.

Lemma zlen_patch off bs l : fits off (zlen bs) (zlen l) -> zlen (patch off bs l) = zlen l.
Proof. unfold fits, zlen, patch. rewrite !length_app, length_take, length_drop. lia. Qed.

Lemma zlen_app l1 l2 : zlen (l1 ++ l2) = zlen l1 + zlen l2.
Proof. unfold zlen. rewrite length_app. lia. Qed.

Lemma zlen_replicate n (x : A) : 0 <= n -> zlen (replicate (Z.to_nat n) x) = n.
Proof. unfold zlen. rewrite length_replicate. lia. Qed.

Lemma zlen_nonneg l : 0 <= zlen l.
Proof. unfold zlen. lia. Qed.

Lemma lookup_patch off bs l (i : nat) : fits off (zlen bs) (zlen l) ->
  patch off bs l !! i =
    if decide (off <= Z.of_nat i < off + zlen bs)
    then bs !! (i - Z.to_nat off)%nat else l !! i.
Proof.
  unfold fits, zlen, patch. intros H.
  assert (Hl : length (take (Z.to_nat off) l) = Z.to_nat off) by (rewrite length_take; lia).
  case_decide.
  - rewrite lookup_app_r by lia. rewrite lookup_app_l by lia. f_equal. lia.
  - destruct (decide (Z.of_nat i < off)).
    + rewrite lookup_app_l by lia. apply lookup_take_lt. lia.
    + rewrite lookup_app_r by lia. rewrite lookup_app_r by lia.
      rewrite lookup_drop. f_equal. lia.
Qed.

Lemma lookup_slice off len l (i : nat) : 0 <= off -> 0 <= len ->
  slice off len l !! i = if decide (Z.of_nat i < len) then l !! (Z.to_nat off + i)%nat else None.
Proof.
  unfold slice. intros ??. case_decide.
  - rewrite lookup_take_lt by lia. by rewrite lookup_drop.
  - apply lookup_take_ge. lia.
Qed.

Lemma slice_patch_same off bs l : fits off (zlen bs) (zlen l) ->
  slice off (zlen bs) (patch off bs l) = bs.
Proof.
  intros H. apply list_eq. intros i. pose proof H as [??].
  rewrite lookup_slice, lookup_patch by (done || lia). case_decide.
  - rewrite decide_True by lia. f_equal. lia.
  - symmetry. apply lookup_ge_None. unfold zlen in *. lia.
Qed.

Lemma slice_patch_ne off bs off' len' l : fits off (zlen bs) (zlen l) ->
  0 <= off' -> 0 <= len' -> disjoint_ranges off (zlen bs) off' len' ->
  slice off' len' (patch off bs l) = slice off' len' l.
Proof.
  unfold disjoint_ranges. intros H ???. apply list_eq. intros i. pose proof H as [??].
  rewrite !lookup_slice by lia. case_decide; [|done].
  rewrite lookup_patch by done. rewrite decide_False; [done|lia].
Qed.

(** A patch strictly inside a slice is a patch of the slice. *)
Lemma slice_patch_sub off bs off' len' l : fits off (zlen bs) (zlen l) ->
  fits off' len' (zlen l) -> off' <= off -> off + zlen bs <= off' + len' ->
  slice off' len' (patch off bs l) = patch (off - off') bs (slice off' len' l).
Proof.
  intros H H' ??. pose proof H as (?&?&?). pose proof H' as (?&?&?).
  apply list_eq. intros i.
  rewrite lookup_slice, lookup_patch by (done || lia).
  rewrite lookup_patch by (unfold fits; rewrite zlen_slice by done; lia).
  rewrite lookup_slice by lia.
  repeat case_decide; try lia; try done.
  - f_equal. lia.
Qed.

Lemma patch_slice_self off len l : fits off len (zlen l) -> patch off (slice off len l) l = l.
Proof.
  intros H. pose proof (zlen_slice _ _ _ H) as Hz. pose proof H as (?&?&?).
  apply list_eq. intros i. rewrite lookup_patch by (unfold fits; lia).
  case_decide; [|done]. rewrite lookup_slice by lia. rewrite decide_True by lia. f_equal. lia.
Qed.

(** Writing over a range and then writing the range's old bytes back. *)
Lemma patch_undo off bs l : fits off (zlen bs) (zlen l) ->
  patch off (slice off (zlen bs) l) (patch off bs l) = l.
Proof.
  intros H. pose proof (zlen_slice _ _ _ H) as Hz. pose proof H as (?&?&?).
  apply list_eq. intros i.
  rewrite lookup_patch by (unfold fits; rewrite zlen_patch by done; lia).
  case_decide.
  - rewrite lookup_slice by lia. rewrite decide_True by lia. f_equal. lia.
  - rewrite lookup_patch by done. rewrite decide_False by lia. done.
Qed.

Lemma patch_full bs l : length bs = length l -> patch 0 bs l = bs.
Proof.
  intros H. unfold patch. rewrite drop_ge by (simpl; lia). by rewrite app_nil_r.
Qed.

Lemma slice_slice (o1 l1 o2 l2 : Z) l : 0 <= o1 -> 0 <= o2 -> 0 <= l2 -> o2 + l2 <= l1 ->
  slice o2 l2 (slice o1 l1 l) = slice (o1 + o2) l2 l.
Proof.
  intros. apply list_eq. intros i. rewrite !lookup_slice by lia.
  case_decide; [|done]. rewrite decide_True by lia. f_equal. lia.
Qed.

Lemma zlen_patch_ge off bs l : zlen l <= zlen (patch off bs l).
Proof. unfold zlen, patch. rewrite !length_app, length_take, length_drop. lia. Qed.

Lemma slice_full l : slice 0 (zlen l) l = l.
Proof. unfold slice, zlen. apply take_ge. simpl. lia. Qed.

Lemma slice_app_l (l1 l2 : list A) o n : 0 <= o -> 0 <= n -> o + n <= zlen l1 -> slice o n (l1 ++ l2) = slice o n l1.
Proof.
  intros. apply list_eq. intros i. rewrite !lookup_slice by lia.
  case_decide; [|done]. apply lookup_app_l. unfold zlen in *. lia.
Qed.

Lemma slice_split o n k l : 0 <= o -> 0 <= n -> 0 <= k -> slice o (n + k) l = slice o n l ++ slice (o + n) k l.
Proof.
  intros. unfold slice. rewrite !Z2Nat.inj_add by lia. rewrite <- drop_drop, take_take_drop. done.
Qed.

Lemma slice_patch_in o n k bs l : 0 <= o -> fits o n (zlen l) -> fits k (zlen bs) n ->
  slice o n (patch (o + k) bs l) = patch k bs (slice o n l).
Proof.
  intros Ho Hn Hk. unfold fits in *. apply list_eq. intros i. rewrite lookup_slice by lia.
  rewrite (lookup_patch k) by (rewrite zlen_slice by (unfold fits; lia); unfold fits; lia).
  rewrite lookup_slice by lia. case_decide as Hi.
  - rewrite lookup_patch by (unfold fits; lia). repeat case_decide; try lia; try done. f_equal. lia.
  - rewrite decide_False by lia. done.
Qed.

Lemma slice_app_r (l1 l2 : list A) o n : zlen l1 <= o -> 0 <= n ->
  slice o n (l1 ++ l2) = slice (o - zlen l1) n l2.
Proof.
  unfold zlen. intros. apply list_eq. intros i. rewrite !lookup_slice by lia.
  case_decide; [|done]. rewrite lookup_app_r by lia. f_equal. lia.
Qed.
End Slices.

Lemma slice_replicate {A} (x : A) n off len : 0 <= off -> 0 <= len -> off + len <= n ->
  slice off len (replicate (Z.to_nat n) x) = replicate (Z.to_nat len) x.
Proof.
  intros. apply list_eq. intros i. rewrite lookup_slice by lia. case_decide.
  - rewrite !lookup_replicate_2 by lia. done.
  - symmetry. apply lookup_replicate_None. lia.
Qed.
