(* ===== verification/Sums.v ===== *)
(** * Sums over finitely supported balances

    Totals of a balance function over the addresses a drive image holds; what
    one update does to a total does not depend on which finite set of
    addresses carries it. *)

From Stdlib Require Import ZArith Lia.
From S2P Require Import Prelude.

Section Sums.
Context `{Countable K}.
Implicit Types f g : K -> Z.
Implicit Types X Y : gset K.

Definition sum_list f (l : list K) : Z := foldr (fun a acc => f a + acc) 0 l.
Definition sum_over f X : Z := sum_list f (elements X).
Definition supported f X : Prop := forall a, f a <> 0 -> a ∈ X.

Lemma sum_list_perm f l l' : l ≡ₚ l' -> sum_list f l = sum_list f l'.
Proof. induction 1; simpl; lia. Qed.

Lemma sum_over_insert f a X : a ∉ X -> sum_over f ({[a]} ∪ X) = f a + sum_over f X.
Proof. intros Ha. unfold sum_over. by rewrite (sum_list_perm f _ _ (elements_union_singleton X a Ha)). Qed.

Lemma sum_over_delete f a X : a ∈ X -> sum_over f X = f a + sum_over f (X ∖ {[a]}).
Proof.
  intros Ha. rewrite <- sum_over_insert by set_solver. f_equal. apply union_difference_L. set_solver.
Qed.

Lemma sum_over_ext f g X : (forall a, a ∈ X -> f a = g a) -> sum_over f X = sum_over g X.
Proof.
  induction X as [|b X Hb IH] using set_ind_L; intros Hfg; [done|].
  rewrite !sum_over_insert by done. rewrite Hfg, IH by set_solver. done.
Qed.

Lemma sum_over_zero X : sum_over (fun _ => 0) X = 0.
Proof. unfold sum_over. induction (elements X) as [|b l IH]; simpl; [done|lia]. Qed.

Lemma sum_over_extend f X Y : supported f X -> sum_over f (Y ∪ X) = sum_over f X.
Proof.
  intros HX. induction Y as [|b Y Hb IH] using set_ind_L; [by rewrite union_empty_l_L|].
  rewrite <- union_assoc_L. destruct (decide (b ∈ Y ∪ X)) as [Hin|Hout].
  - by replace ({[b]} ∪ (Y ∪ X)) with (Y ∪ X) by set_solver.
  - rewrite sum_over_insert by done. destruct (decide (f b = 0)) as [->|Hnz]; [done|].
    apply HX in Hnz. set_solver.
Qed.

Lemma sum_over_supported f X Y : supported f X -> supported f Y -> sum_over f X = sum_over f Y.
Proof.
  intros HX HY. rewrite <- (sum_over_extend f X Y HX), <- (sum_over_extend f Y X HY). f_equal. set_solver.
Qed.

(** One balance changes. *)
Lemma sum_over_update f g X Y a : supported f X -> supported g Y -> (forall b, b <> a -> g b = f b) ->
  sum_over g Y = sum_over f X - f a + g a.
Proof.
  intros HX HY Hne. set (U := {[a]} ∪ (X ∪ Y)).
  rewrite (sum_over_supported g Y U), (sum_over_supported f X U); try done.
  2,3: intros b Hb; unfold U; set_solver.
  rewrite (sum_over_delete f a U), (sum_over_delete g a U) by set_solver.
  rewrite (sum_over_ext g f (U ∖ {[a]})); [lia|]. intros b Hb. apply Hne. set_solver.
Qed.

Lemma sum_over_same f g X Y : supported f X -> supported g Y -> (forall b, g b = f b) ->
  sum_over g Y = sum_over f X.
Proof.
  intros HX HY Heq. rewrite (sum_over_ext g f Y) by auto. apply sum_over_supported; [|done].
  intros b Hb. apply HY. by rewrite Heq.
Qed.
End Sums.
