(* ===== verification/Bytes.v ===== *)
(** * Byte arrays: hexadecimal, endianness and addresses

    The helper functions of accounts-drive/js/src/drive.ts ([hexToBytes],
    [bytesToHex], [toAddress], [isZero], [bytesEqual], [isPow2], [readBE],
    [putBE], [getLE64], [getLE32]) over arrays of bytes. A [Uint8Array] is a
    [list Z] whose cells lie in [0, 256); a BigInt is a [Z]. A [DataView]
    access past the end of its buffer is the runtime's [RangeError]. *)

From Stdlib Require Import ZArith Lia Ascii.
From S2P Require Import Prelude.

Definition is_byte (b : Z) : Prop := 0 <= b < 256.
Abbreviation bytes := (list Z).

Definition zeros (n : Z) : bytes := replicate (Z.to_nat n) 0.

Definition RangeError : exn := JsError "RangeError".

(** ** Little-endian integers ([DataView] with [littleEndian] = true) *)
Fixpoint le_decode (l : bytes) : Z :=
  match l with [] => 0 | b :: l => b + 256 * le_decode l end.
Fixpoint le_encode (n : nat) (v : Z) : bytes :=
  match n with O => [] | S n => v mod 256 :: le_encode n (v / 256) end.

(** [getBigUint64(off, true)] and [getUint32(off, true)]. *)
Definition getLE64 (b : bytes) (off : Z) : outcome Z :=
  if (0 <=? off) && (off + 8 <=? zlen b) then Val (le_decode (slice off 8 b)) else Exn RangeError.
Definition getLE32 (b : bytes) (off : Z) : outcome Z :=
  if (0 <=? off) && (off + 4 <=? zlen b) then Val (le_decode (slice off 4 b)) else Exn RangeError.

(** [buf.set(src, off)]: a [RangeError] when [src] does not fit. *)
Definition setBytes (buf src : bytes) (off : Z) : outcome bytes :=
  if (0 <=? off) && (off + zlen src <=? zlen buf) then Val (patch off src buf) else Exn RangeError.
(** [setBigUint64(off, v, true)] and [setUint32(off, v, true)]: the value is
    taken modulo the field's width, negative values in two's complement. *)
Definition setLE64 (buf : bytes) (off v : Z) : outcome bytes := setBytes buf (le_encode 8 v) off.
Definition setLE32 (buf : bytes) (off v : Z) : outcome bytes := setBytes buf (le_encode 4 v) off.

(** ** Big-endian integers *)
Definition readBE (l : bytes) : Z := foldl (fun v b => Z.lor (Z.shiftl v 8) b) 0 l.

(** The loop of [putBE], from the last cell to the first. *)
Fixpoint putBE_loop (n : nat) (v : Z) (acc : bytes) : bytes :=
  match n with O => acc | S n => putBE_loop n (Z.shiftr v 8) (Z.land v 255 :: acc) end.
Definition overflow_error : exn := AccountsDriveError overflow "balance exceeds declared width".
(** The cells [putBE] leaves in a buffer of [n] bytes. *)
Definition putBE (n : Z) (v : Z) : outcome bytes :=
  if (v <? 0) || negb (Z.shiftr v (8 * n) =? 0) then Exn overflow_error
  else Val (putBE_loop (Z.to_nat n) v []).
(** [putBE(buf.subarray(lo, hi), v)]: the subarray is clamped to the buffer. *)
Definition putBE_at (buf : bytes) (lo hi v : Z) : outcome bytes :=
  let sub := slice lo (hi - lo) buf in
  enc ← putBE (zlen sub) v; Val (patch lo enc buf).

(** ** Predicates *)
Definition isZero (b : bytes) : bool := forallb (fun x => x =? 0) b.
Fixpoint bytesEqual (a b : bytes) : bool :=
  match a, b with
  | [], [] => true
  | x :: a, y :: b => (x =? y) && bytesEqual a b
  | _, _ => false
  end.
Definition isPow2 (n : Z) : bool := (0 <? n) && (Z.land n (n - 1) =? 0).

(** ** Hexadecimal *)
Definition hexval (c : Ascii.ascii) : option Z :=
  let n := Z.of_N (Ascii.N_of_ascii c) in
  if (48 <=? n) && (n <=? 57) then Some (n - 48)
  else if (97 <=? n) && (n <=? 102) then Some (n - 87)
  else if (65 <=? n) && (n <=? 70) then Some (n - 55)
  else None.
Definition hexdigit (v : Z) : Ascii.ascii :=
  Ascii.ascii_of_N (Z.to_N (if v <? 10 then v + 48 else v + 87)).

Definition strip0x (l : list Ascii.ascii) : list Ascii.ascii :=
  match l with
  | "0"%char :: ("x"%char | "X"%char) :: rest => rest
  | _ => l
  end.
(** The byte pairs of a digit string, or nothing when it is odd or holds a
    character that is not a hexadecimal digit. *)
Fixpoint hexpairs (l : list Ascii.ascii) : option bytes :=
  match l with
  | [] => Some []
  | a :: b :: rest =>
      x ← hexval a; y ← hexval b; r ← hexpairs rest; Some (16 * x + y :: r)
  | _ => None
  end.
Definition hexToBytes (hex : string) : outcome bytes :=
  match hexpairs (strip0x (String.list_ascii_of_string hex)) with
  | Some b => Val b
  | None => Exn (JsError "invalid hex string")
  end.
Definition bytesToHex (b : bytes) : string :=
  String.string_of_list_ascii
    (concat (map (fun x => [hexdigit (x / 16); hexdigit (x mod 16)]) b)).

(** ** Addresses *)
Inductive AddressLike : Type :=
  | AddrBytes (b : bytes)
  | AddrHex (s : string).

Definition toAddress (a : AddressLike) : outcome bytes :=
  b ← match a with AddrHex s => hexToBytes s | AddrBytes b => Val b end;
  if zlen b =? 20 then Val b else Exn (JsError "address must be 20 bytes (or 40 hex chars)").

(** * Lemmas *)

Create HintDb bytes.

Lemma length_le_encode n v : length (le_encode n v) = n.
Proof. revert v. induction n as [|n IH]; intros v; simpl; [done|by rewrite IH]. Qed.

Lemma zlen_le_encode n v : zlen (le_encode n v) = Z.of_nat n.
Proof. unfold zlen. by rewrite length_le_encode. Qed.

Lemma le_decode_encode n v : le_decode (le_encode n v) = v mod 256 ^ Z.of_nat n.
Proof.
  revert v. induction n as [|n IH]; intros v; simpl le_decode.
  - by rewrite Z.pow_0_r, Z.mod_1_r.
  - rewrite IH, Nat2Z.inj_succ, Z.pow_succ_r by lia.
    rewrite Z.rem_mul_r by lia. done.
Qed.

Lemma Forall_le_encode n v : Forall is_byte (le_encode n v).
Proof.
  revert v. induction n as [|n IH]; intros v; simpl; constructor; [|done].
  apply Z.mod_pos_bound. lia.
Qed.

Lemma le_decode_bound l : Forall is_byte l -> 0 <= le_decode l < 256 ^ zlen l.
Proof.
  unfold zlen. induction 1 as [|b l Hb _ IH]; simpl length; simpl le_decode; [done|].
  rewrite Nat2Z.inj_succ, Z.pow_succ_r by lia. unfold is_byte in Hb. lia.
Qed.

Lemma getLE64_val b off : 0 <= off -> off + 8 <= zlen b ->
  getLE64 b off = Val (le_decode (slice off 8 b)).
Proof. intros. unfold getLE64. by rewrite !(proj2 (Z.leb_le _ _)) by lia. Qed.

Lemma getLE32_val b off : 0 <= off -> off + 4 <= zlen b ->
  getLE32 b off = Val (le_decode (slice off 4 b)).
Proof. intros. unfold getLE32. by rewrite !(proj2 (Z.leb_le _ _)) by lia. Qed.

Lemma setBytes_val buf src off : fits off (zlen src) (zlen buf) ->
  setBytes buf src off = Val (patch off src buf).
Proof. intros (?&?&?). unfold setBytes. by rewrite !(proj2 (Z.leb_le _ _)) by lia. Qed.

Lemma length_putBE_loop n v acc : length (putBE_loop n v acc) = (n + length acc)%nat.
Proof. revert v acc. induction n as [|n IH]; intros v acc; simpl; [done|]. rewrite IH. simpl. lia. Qed.

Lemma foldl_readBE l a : 0 <= a -> Forall is_byte l ->
  foldl (fun v b => Z.lor (Z.shiftl v 8) b) a l = a * 256 ^ zlen l + readBE l.
Proof.
  unfold readBE, zlen. intros Ha Hl. revert a Ha.
  induction Hl as [|b l Hb _ IH]; intros a Ha; simpl; [lia|].
  change (Z.pos (Pos.of_succ_nat (length l))) with (Z.of_nat (S (length l))).
  assert (Hor : forall v, 0 <= v -> Z.lor (Z.shiftl v 8) b = v * 256 + b).
  { intros v Hv. unfold is_byte in Hb. rewrite <- Z.add_lor_land.
    rewrite Z.shiftl_mul_pow2 by lia. change (2 ^ 8) with 256.
    cut (Z.land (v * 256) b = 0); [lia|].
    apply Z.bits_inj'. intros n Hn. rewrite Z.land_spec, Z.bits_0.
    destruct (decide (n < 8)).
    - change 256 with (2 ^ 8). by rewrite Z.mul_pow2_bits_low.
    - rewrite andb_comm, Z.bits_above_log2; [done|lia|].
      destruct (decide (b = 0)) as [->|]; [simpl; lia|].
      assert (Z.log2 b < 8) by (apply Z.log2_lt_pow2; lia). lia. }
  unfold is_byte in Hb. rewrite !Hor by lia. rewrite IH by lia. rewrite (IH (0 * 256 + b)) by lia.
  rewrite Nat2Z.inj_succ, Z.pow_succ_r by lia. lia.
Qed.

Lemma readBE_cons b l : is_byte b -> Forall is_byte l -> readBE (b :: l) = b * 256 ^ zlen l + readBE l.
Proof.
  intros Hb Hl. unfold readBE at 1. simpl. rewrite Z.lor_0_l.
  apply foldl_readBE; [apply Hb|done].
Qed.

Lemma readBE_bound l : Forall is_byte l -> 0 <= readBE l < 256 ^ zlen l.
Proof.
  induction 1 as [|b l Hb Hl IH]; [done|]. rewrite readBE_cons by done.
  unfold is_byte, zlen in *. simpl length. rewrite Nat2Z.inj_succ, Z.pow_succ_r by lia. nia.
Qed.

Lemma land_255 v : Z.land v 255 = v mod 256.
Proof. change 255 with (Z.ones 8). by rewrite Z.land_ones by lia. Qed.

Lemma putBE_loop_spec n v acc : 0 <= v -> Forall is_byte acc ->
  Forall is_byte (putBE_loop n v acc) /\
  readBE (putBE_loop n v acc) = (v mod 256 ^ Z.of_nat n) * 256 ^ zlen acc + readBE acc.
Proof.
  revert v acc. induction n as [|n IH]; intros v acc Hv Hacc; simpl putBE_loop.
  - split; [done|]. rewrite Z.pow_0_r, Z.mod_1_r. lia.
  - assert (Hb : is_byte (Z.land v 255))
      by (rewrite land_255; apply Z.mod_pos_bound; lia).
    destruct (IH (Z.shiftr v 8) (Z.land v 255 :: acc)) as [IH1 IH2].
    { by apply Z.shiftr_nonneg. } { by constructor. }
    split; [done|]. rewrite IH2, readBE_cons, land_255 by done.
    rewrite Z.shiftr_div_pow2 by lia. change (2 ^ 8) with 256.
    rewrite Nat2Z.inj_succ, (Z.pow_succ_r 256 (Z.of_nat n)) by lia.
    rewrite Z.rem_mul_r by lia. unfold zlen. simpl length.
    rewrite Nat2Z.inj_succ, Z.pow_succ_r by lia. lia.
Qed.

(** A value fits [n] bytes: [putBE] accepts exactly these. *)
Definition fits_width (n v : Z) : Prop := 0 <= v < 256 ^ n.

Lemma pow256 n : 0 <= n -> 256 ^ n = 2 ^ (8 * n).
Proof. intros. change 256 with (2 ^ 8). by rewrite <- Z.pow_mul_r by lia. Qed.

Lemma width_check n v : 0 <= n ->
  (v <? 0) || negb (Z.shiftr v (8 * n) =? 0) = negb (bool_decide (fits_width n v)).
Proof.
  intros Hn. unfold fits_width. rewrite pow256 by done.
  destruct (Z.ltb_spec v 0) as [Hv|Hv]; simpl.
  - rewrite bool_decide_eq_false_2; [done|lia].
  - f_equal. rewrite Z.shiftr_div_pow2 by lia. apply eq_bool_prop_intro.
    rewrite Is_true_true, bool_decide_spec, Z.eqb_eq.
    split; intros H.
    + apply Z.div_small_iff in H; lia.
    + apply Z.div_small. lia.
Qed.

Lemma putBE_fits n v : 0 <= n -> fits_width n v ->
  exists b, putBE n v = Val b /\ zlen b = n /\ Forall is_byte b /\ readBE b = v.
Proof.
  intros Hn Hv. unfold putBE. rewrite width_check, bool_decide_eq_true_2 by done. simpl.
  eexists. split; [done|]. unfold fits_width in Hv.
  destruct (putBE_loop_spec (Z.to_nat n) v []) as [? Hr]; [lia|constructor|].
  split_and!; [|done|].
  - unfold zlen. rewrite length_putBE_loop. simpl. lia.
  - rewrite Hr, Z2Nat.id, Z.mod_small by lia. unfold readBE, zlen. simpl. lia.
Qed.

Lemma putBE_overflow n v : 0 <= n -> ~ fits_width n v -> putBE n v = Exn overflow_error.
Proof. intros Hn Hv. unfold putBE. by rewrite width_check, bool_decide_eq_false_2. Qed.

Lemma bytesEqual_eq a b : bytesEqual a b = true <-> a = b.
Proof.
  revert b. induction a as [|x a IH]; intros [|y b]; simpl; try (split; done).
  rewrite andb_true_iff, Z.eqb_eq, IH. split; [by intros [-> ->]|]. by intros [= -> ->].
Qed.

Lemma bytesEqual_refl a : bytesEqual a a = true.
Proof. by apply bytesEqual_eq. Qed.

Lemma bytesEqual_ne a b : a <> b -> bytesEqual a b = false.
Proof. intros H. apply not_true_is_false. by rewrite bytesEqual_eq. Qed.

Lemma isZero_zeros n : isZero (zeros n) = true.
Proof. unfold isZero, zeros. induction (Z.to_nat n); simpl; done. Qed.

Lemma isZero_true b : isZero b = true -> b = zeros (zlen b).
Proof.
  unfold isZero, zeros, zlen. rewrite Nat2Z.id. induction b as [|x b IH]; simpl; [done|].
  rewrite andb_true_iff, Z.eqb_eq. intros [-> H]. by rewrite <- IH.
Qed.

Lemma zlen_zeros n : 0 <= n -> zlen (zeros n) = n.
Proof. apply zlen_replicate. Qed.

Lemma Forall_zeros n : Forall is_byte (zeros n).
Proof. apply Forall_replicate. unfold is_byte. lia. Qed.

Lemma le_decode_zeros n : le_decode (zeros n) = 0.
Proof. unfold zeros. induction (Z.to_nat n); simpl; lia. Qed.

Lemma readBE_zeros n : readBE (zeros n) = 0.
Proof.
  unfold zeros. induction (Z.to_nat n) as [|k IH]; [done|]. simpl replicate.
  rewrite readBE_cons; [lia|unfold is_byte; lia|]. apply Forall_replicate. unfold is_byte. lia.
Qed.

Lemma Forall_patch {A} (P : A -> Prop) off bs l :
  Forall P bs -> Forall P l -> Forall P (patch off bs l).
Proof. intros. unfold patch. repeat apply Forall_app_2; auto using Forall_take, Forall_drop. Qed.

Lemma Forall_slice {A} (P : A -> Prop) off len l : Forall P l -> Forall P (slice off len l).
Proof. intros. unfold slice. auto using Forall_take, Forall_drop. Qed.

#[export] Hint Resolve Forall_patch Forall_slice Forall_le_encode Forall_zeros : bytes.

Lemma hexval_digit v : 0 <= v < 16 -> hexval (hexdigit v) = Some v.
Proof.
  intros H. assert (Hc : v ∈ (seqZ 0 16)) by (apply elem_of_seqZ; lia).
  revert Hc. vm_compute seqZ. rewrite !elem_of_cons.
  intros Hc. repeat destruct Hc as [->|Hc]; try done. by apply elem_of_nil in Hc.
Qed.

Lemma hexpairs_digits b : Forall is_byte b ->
  hexpairs (concat (map (fun x => [hexdigit (x / 16); hexdigit (x mod 16)]) b)) = Some b.
Proof.
  induction 1 as [|x b Hx _ IH]; [done|]. unfold is_byte in Hx.
  assert (0 <= x / 16 < 16) by (split; [apply Z.div_pos; lia|apply Z.div_lt_upper_bound; lia]).
  pose proof (Z.mod_pos_bound x 16 ltac:(lia)).
  simpl. rewrite !hexval_digit by lia. simpl. rewrite IH. simpl.
  f_equal. f_equal. symmetry. apply Z.div_mod. lia.
Qed.

Lemma strip0x_digits a v l : 0 <= v < 16 -> strip0x (a :: hexdigit v :: l) = a :: hexdigit v :: l.
Proof.
  intros Hv. pose proof (hexval_digit v Hv) as Hd. revert Hd.
  generalize (hexdigit v) as c. intros c Hc.
  destruct a as [[] [] [] [] [] [] [] []]; try done;
    destruct c as [[] [] [] [] [] [] [] []]; done.
Qed.

Lemma hexToBytes_of_bytes b : Forall is_byte b -> hexToBytes (bytesToHex b) = Val b.
Proof.
  intros Hb. unfold hexToBytes, bytesToHex. rewrite String.list_ascii_of_string_of_list_ascii.
  replace (strip0x _) with (concat (map (fun x => [hexdigit (x / 16); hexdigit (x mod 16)]) b)).
  - by rewrite hexpairs_digits.
  - destruct b as [|x b]; [done|]. cbn [concat map app]. rewrite strip0x_digits; [done|].
    apply Z.mod_pos_bound. lia.
Qed.

Lemma toAddress_bytes b : zlen b = 20 -> toAddress (AddrBytes b) = Val b.
Proof. intros H. unfold toAddress. simpl. by rewrite H. Qed.

Lemma toAddress_length a b : toAddress a = Val b -> zlen b = 20.
Proof.
  unfold toAddress. destruct a as [b'|s]; simpl; [|destruct (hexToBytes s) as [b'| |]; simpl; try done];
    destruct (Z.eqb_spec (zlen b') 20); intros [= <-]; done.
Qed.

(** ** Bit fields *)
Lemma lor_shift_add a b n : 0 <= n -> 0 <= b < 2 ^ n -> Z.lor (Z.shiftl a n) b = a * 2 ^ n + b.
Proof.
  intros Hn Hb. rewrite <- Z.add_lor_land, Z.shiftl_mul_pow2 by done.
  cut (Z.land (a * 2 ^ n) b = 0); [lia|]. apply Z.bits_inj'. intros k Hk.
  rewrite Z.land_spec, Z.bits_0. destruct (decide (k < n)).
  - by rewrite Z.mul_pow2_bits_low by done.
  - rewrite andb_comm. destruct (decide (b = 0)) as [->|]; [by rewrite Z.bits_0|].
    rewrite Z.bits_above_log2; [done|lia|]. assert (Z.log2 b < n) by (apply Z.log2_lt_pow2; lia). lia.
Qed.
