(* ===== verification/Text.v ===== *)
(** * Text

    The runtime's [TextEncoder] and [TextDecoder]: a string as its Unicode
    scalar values, UTF-8 encoded, and decoded the way the Encoding Standard
    does it (one leading byte order mark dropped, malformed sequences replaced
    by U+FFFD), as abi-drive and the ledger's boot check use them. *)

From Stdlib Require Import ZArith Lia.
From S2P Require Import Prelude Bytes.

Abbreviation text := (list Z).
Definition REPLACEMENT : Z := 0xfffd.
Definition BOM : Z := 0xfeff.

(** A scalar value: a code point that is not a surrogate. *)
Definition scalar (c : Z) : Prop := 0 <= c < 0xd800 \/ 0xe000 <= c <= 0x10ffff.

(** ** TextEncoder *)
Definition cont (c n : Z) : Z := Z.lor 0x80 (Z.land (Z.shiftr c n) 0x3f).
Definition encode_scalar (c : Z) : bytes :=
  if c <=? 0x7f then [c]
  else if c <=? 0x7ff then [Z.lor 0xc0 (Z.shiftr c 6); cont c 0]
  else if c <=? 0xffff then [Z.lor 0xe0 (Z.shiftr c 12); cont c 6; cont c 0]
  else [Z.lor 0xf0 (Z.shiftr c 18); cont c 12; cont c 6; cont c 0].
Definition TextEncoder_encode (t : text) : bytes := concat (map encode_scalar t).

(** ** TextDecoder

    The decoder's variables: the code point so far, the continuation bytes
    still needed, and the bounds of the next one. *)
Record Utf8 : Type := mkUtf8 { u_code : Z; u_needed : Z; u_lower : Z; u_upper : Z }.
Definition utf8_start : Utf8 := mkUtf8 0 0 0x80 0xbf.
Definition utf8_lead (b : Z) : text * Utf8 :=
  if b <=? 0x7f then ([b], utf8_start)
  else if (0xc2 <=? b) && (b <=? 0xdf) then ([], mkUtf8 (Z.land b 0x1f) 1 0x80 0xbf)
  else if (0xe0 <=? b) && (b <=? 0xef) then
    ([], mkUtf8 (Z.land b 0xf) 2 (if b =? 0xe0 then 0xa0 else 0x80) (if b =? 0xed then 0x9f else 0xbf))
  else if (0xf0 <=? b) && (b <=? 0xf4) then
    ([], mkUtf8 (Z.land b 7) 3 (if b =? 0xf0 then 0x90 else 0x80) (if b =? 0xf4 then 0x8f else 0xbf))
  else ([REPLACEMENT], utf8_start).
Definition utf8_step (u : Utf8) (b : Z) : text * Utf8 :=
  if u_needed u =? 0 then utf8_lead b
  else if (u_lower u <=? b) && (b <=? u_upper u) then
    let code := Z.lor (Z.shiftl (u_code u) 6) (Z.land b 0x3f) in
    if u_needed u =? 1 then ([code], utf8_start) else ([], mkUtf8 code (u_needed u - 1) 0x80 0xbf)
  else let (out, u') := utf8_lead b in (REPLACEMENT :: out, u').
Fixpoint utf8_run (u : Utf8) (bs : bytes) : text :=
  match bs with
  | [] => if u_needed u =? 0 then [] else [REPLACEMENT]
  | b :: bs => let (out, u') := utf8_step u b in out ++ utf8_run u' bs
  end.
Definition TextDecoder_decode (bs : bytes) : text :=
  utf8_run utf8_start (if bytesEqual (slice 0 3 bs) [0xef; 0xbb; 0xbf] then drop 3 bs else bs).

(** An ASCII literal as text. *)
Definition ascii_text (s : string) : text :=
  map (fun c => Z.of_N (Ascii.N_of_ascii c)) (String.list_ascii_of_string s).

(** ** The round trip *)
Lemma cont_value c n : 0 <= n -> cont c n = 128 + (c / 2 ^ n) mod 64.
Proof.
  intros Hn. unfold cont. change 0x3f with (Z.ones 6). rewrite Z.land_ones, Z.shiftr_div_pow2 by lia.
  change 0x80 with (Z.shiftl 2 6). pose proof (Z.mod_pos_bound (c / 2 ^ n) (2 ^ 6) ltac:(lia)).
  rewrite lor_shift_add by lia. done.
Qed.
Lemma lead2 x : 0 <= x < 32 -> Z.lor 0xc0 x = 192 + x.
Proof. intros. change (Z.lor 0xc0 x) with (Z.lor (Z.shiftl 6 5) x). rewrite lor_shift_add; lia. Qed.
Lemma lead3 x : 0 <= x < 16 -> Z.lor 0xe0 x = 224 + x.
Proof. intros. change (Z.lor 0xe0 x) with (Z.lor (Z.shiftl 14 4) x). rewrite lor_shift_add; lia. Qed.
Lemma lead4 x : 0 <= x < 8 -> Z.lor 0xf0 x = 240 + x.
Proof. intros. change (Z.lor 0xf0 x) with (Z.lor (Z.shiftl 30 3) x). rewrite lor_shift_add; lia. Qed.
Lemma land_sub x k n : 0 <= n -> k * 2 ^ n <= x < (k + 1) * 2 ^ n -> Z.land x (Z.ones n) = x - k * 2 ^ n.
Proof.
  intros Hn Hx. rewrite Z.land_ones by done. symmetry. apply Z.mod_unique_pos with k; lia.
Qed.
Lemma code_next k b : 128 <= b < 192 -> Z.lor (Z.shiftl k 6) (Z.land b 0x3f) = k * 64 + (b - 128).
Proof.
  intros Hb. change 0x3f with (Z.ones 6). rewrite (land_sub b 2 6) by lia. rewrite lor_shift_add by lia. lia.
Qed.

(** One continuation byte in its bounds: the last, and one before it. *)
Lemma step_cont code n lo hi b : 0 < n -> lo <= b <= hi -> 128 <= b < 192 ->
  utf8_step (mkUtf8 code n lo hi) b =
    if n =? 1 then ([code * 64 + (b - 128)], utf8_start) else ([], mkUtf8 (code * 64 + (b - 128)) (n - 1) 0x80 0xbf).
Proof.
  intros Hn Hb Hr. unfold utf8_step. cbn [u_needed u_lower u_upper u_code]. rewrite code_next by done.
  rewrite (proj2 (Z.eqb_neq n 0)) by lia. by rewrite (proj2 (Z.leb_le lo b)), (proj2 (Z.leb_le b hi)) by lia.
Qed.
Lemma step_last code lo hi b : lo <= b <= hi -> 128 <= b < 192 ->
  utf8_step (mkUtf8 code 1 lo hi) b = ([code * 64 + (b - 128)], utf8_start).
Proof. intros. by rewrite step_cont. Qed.
Lemma step_more code n lo hi b : 1 < n -> lo <= b <= hi -> 128 <= b < 192 ->
  utf8_step (mkUtf8 code n lo hi) b = ([], mkUtf8 (code * 64 + (b - 128)) (n - 1) 0x80 0xbf).
Proof. intros. rewrite step_cont by lia. by rewrite (proj2 (Z.eqb_neq n 1)) by lia. Qed.

(** The lead byte of a sequence of two, three and four. *)
Lemma lead_two x : 2 <= x < 32 -> utf8_step utf8_start (192 + x) = ([], mkUtf8 x 1 0x80 0xbf).
Proof.
  intros Hx. unfold utf8_step, utf8_lead. cbn [u_needed utf8_start Z.eqb].
  rewrite (proj2 (Z.leb_gt _ 0x7f)), (proj2 (Z.leb_le 0xc2 _)), (proj2 (Z.leb_le _ 0xdf)) by lia. cbn [andb].
  change 0x1f with (Z.ones 5). rewrite (land_sub _ 6) by lia. do 2 f_equal. lia.
Qed.
Lemma lead_three x : 0 <= x < 16 -> utf8_step utf8_start (224 + x)
  = ([], mkUtf8 x 2 (if x =? 0 then 0xa0 else 0x80) (if x =? 13 then 0x9f else 0xbf)).
Proof.
  intros Hx. unfold utf8_step, utf8_lead. cbn [u_needed utf8_start Z.eqb].
  rewrite (proj2 (Z.leb_gt _ 0x7f)), (proj2 (Z.leb_gt _ 0xdf)), andb_false_r, (proj2 (Z.leb_le 0xe0 _)), (proj2 (Z.leb_le _ 0xef)) by lia.
  cbn [andb]. change 0xf with (Z.ones 4). rewrite (land_sub _ 14) by lia. do 2 f_equal; [lia|..];
    repeat (case_match; try done); rewrite ?Z.eqb_eq, ?Z.eqb_neq in *; lia.
Qed.
Lemma lead_four x : 0 <= x <= 4 -> utf8_step utf8_start (240 + x)
  = ([], mkUtf8 x 3 (if x =? 0 then 0x90 else 0x80) (if x =? 4 then 0x8f else 0xbf)).
Proof.
  intros Hx. unfold utf8_step, utf8_lead. cbn [u_needed utf8_start Z.eqb].
  rewrite (proj2 (Z.leb_gt _ 0x7f)), (proj2 (Z.leb_gt _ 0xdf)), (proj2 (Z.leb_gt _ 0xef)), !andb_false_r,
    (proj2 (Z.leb_le 0xf0 _)), (proj2 (Z.leb_le _ 0xf4)) by lia.
  cbn [andb]. change 7 with (Z.ones 3). rewrite (land_sub _ 30) by lia. do 2 f_equal; [lia|..];
    repeat (case_match; try done); rewrite ?Z.eqb_eq, ?Z.eqb_neq in *; lia.
Qed.

Lemma run_step u b bs out u' : utf8_step u b = (out, u') -> utf8_run u (b :: bs) = out ++ utf8_run u' bs.
Proof. simpl. by intros ->. Qed.

Lemma run_two c bs : 0x80 <= c <= 0x7ff ->
  utf8_run utf8_start (Z.lor 0xc0 (Z.shiftr c 6) :: cont c 0 :: bs) = c :: utf8_run utf8_start bs.
Proof.
  intros Hc. rewrite Z.shiftr_div_pow2, cont_value by lia. change (2 ^ 6) with 64. rewrite Z.pow_0_r, Z.div_1_r.
  pose proof (Z.div_mod c 64 ltac:(lia)). pose proof (Z.mod_pos_bound c 64 ltac:(lia)).
  rewrite lead2 by lia. erewrite run_step by (apply lead_two; lia).
  erewrite run_step by (apply step_last; lia). simpl. f_equal. lia.
Qed.

Lemma run_three c bs : 0x800 <= c <= 0xffff -> scalar c ->
  utf8_run utf8_start (Z.lor 0xe0 (Z.shiftr c 12) :: cont c 6 :: cont c 0 :: bs) = c :: utf8_run utf8_start bs.
Proof.
  intros Hc Hs. unfold scalar in Hs. rewrite Z.shiftr_div_pow2, !cont_value by lia.
  change (2 ^ 12) with (64 * 64). rewrite <- Z.div_div by lia. change (2 ^ 6) with 64. rewrite Z.pow_0_r, Z.div_1_r.
  pose proof (Z.div_mod c 64 ltac:(lia)). pose proof (Z.mod_pos_bound c 64 ltac:(lia)).
  set (q := c / 64) in *. pose proof (Z.div_mod q 64 ltac:(lia)). pose proof (Z.mod_pos_bound q 64 ltac:(lia)).
  rewrite lead3 by lia. erewrite run_step by (apply lead_three; lia).
  erewrite run_step by (apply step_more; [lia| |lia]; destruct (Z.eqb_spec (q / 64) 0), (Z.eqb_spec (q / 64) 13); lia).
  change (2 - 1) with 1. erewrite run_step by (apply step_last; lia). simpl. f_equal. lia.
Qed.

Lemma run_four c bs : 0x10000 <= c <= 0x10ffff ->
  utf8_run utf8_start (Z.lor 0xf0 (Z.shiftr c 18) :: cont c 12 :: cont c 6 :: cont c 0 :: bs) = c :: utf8_run utf8_start bs.
Proof.
  intros Hc. rewrite Z.shiftr_div_pow2, !cont_value by lia.
  change (2 ^ 18) with (64 * 64 * 64). change (2 ^ 12) with (64 * 64). rewrite <- !Z.div_div by lia.
  change (2 ^ 6) with 64. rewrite Z.pow_0_r, Z.div_1_r.
  pose proof (Z.div_mod c 64 ltac:(lia)). pose proof (Z.mod_pos_bound c 64 ltac:(lia)).
  set (q := c / 64) in *. pose proof (Z.div_mod q 64 ltac:(lia)). pose proof (Z.mod_pos_bound q 64 ltac:(lia)).
  set (r := q / 64) in *. pose proof (Z.div_mod r 64 ltac:(lia)). pose proof (Z.mod_pos_bound r 64 ltac:(lia)).
  rewrite lead4 by lia. erewrite run_step by (apply lead_four; lia).
  erewrite run_step by (apply step_more; [lia| |lia]; destruct (Z.eqb_spec (r / 64) 0), (Z.eqb_spec (r / 64) 4); lia).
  change (3 - 1) with 2. erewrite run_step by (apply step_more; lia). change (2 - 1) with 1.
  erewrite run_step by (apply step_last; lia). simpl. f_equal. lia.
Qed.

Lemma run_scalar c bs : scalar c -> utf8_run utf8_start (encode_scalar c ++ bs) = c :: utf8_run utf8_start bs.
Proof.
  intros Hc. unfold encode_scalar.
  destruct (Z.leb_spec c 0x7f).
  { apply (run_step _ c bs [c] utf8_start). unfold utf8_step, utf8_lead. simpl. by rewrite (proj2 (Z.leb_le c 0x7f)). }
  destruct (Z.leb_spec c 0x7ff); [apply run_two; lia|].
  destruct (Z.leb_spec c 0xffff); [apply run_three; [lia|done]|apply run_four; unfold scalar in Hc; lia].
Qed.

Lemma run_encode t : Forall scalar t -> utf8_run utf8_start (TextEncoder_encode t) = t.
Proof.
  unfold TextEncoder_encode. induction 1 as [|c t Hc _ IH]; [done|]. simpl. rewrite run_scalar by done. by rewrite IH.
Qed.

(** A text that does not start with a byte order mark survives the round
    trip. *)
Lemma decode_encode t : Forall scalar t -> head t <> Some BOM -> TextDecoder_decode (TextEncoder_encode t) = t.
Proof.
  intros Ht Hb. unfold TextDecoder_decode. destruct (bytesEqual _ _) eqn:He; [|by apply run_encode].
  exfalso. apply bytesEqual_eq in He. apply Hb.
  assert (Hrun : exists bs, TextEncoder_encode t = encode_scalar BOM ++ bs).
  { exists (drop 3 (TextEncoder_encode t)). rewrite <- (take_drop 3 (TextEncoder_encode t)) at 1. f_equal. exact He. }
  destruct Hrun as [bs Hbs]. pose proof (run_encode t Ht) as Hr. rewrite Hbs, run_scalar in Hr by (unfold scalar, BOM; lia).
  by rewrite <- Hr.
Qed.

(** ** ASCII is read as itself, and nothing else reads as ASCII *)

(** A sequence under way ends in something that is not ASCII. *)
Definition wide (u : Utf8) : Prop :=
  0 <= u_code u /\ 128 <= u_lower u /\ u_upper u < 192
  /\ (u_needed u = 1 /\ 2 <= u_code u \/ u_needed u = 2 /\ 2 <= u_code u * 64 + (u_lower u - 128)
      \/ u_needed u = 3 /\ 1 <= u_code u * 64 + (u_lower u - 128)).
Lemma wide_run bs u : wide u -> ~ Forall (fun c => c < 0x80) (utf8_run u bs).
Proof.
  revert u. induction bs as [|b bs IH]; intros u Hw Ha; simpl in Ha.
  - rewrite (proj2 (Z.eqb_neq (u_needed u) 0)) in Ha by (unfold wide in Hw; lia).
    apply Forall_cons in Ha as [Ha _]. unfold REPLACEMENT in Ha. lia.
  - unfold utf8_step in Ha. rewrite (proj2 (Z.eqb_neq (u_needed u) 0)) in Ha by (unfold wide in Hw; lia).
    destruct ((u_lower u <=? b) && (b <=? u_upper u)) eqn:Hin.
    + apply andb_prop in Hin as [H1%Z.leb_le H2%Z.leb_le]. unfold wide in Hw. rewrite code_next in Ha by lia.
      destruct (Z.eqb_spec (u_needed u) 1) as [H|H]; [apply Forall_cons in Ha as [Ha _]; lia|].
      apply IH in Ha; [done|]. unfold wide. simpl. lia.
    + destruct (utf8_lead b) as [out u']. apply Forall_cons in Ha as [Ha _]. unfold REPLACEMENT in Ha. lia.
Qed.

Lemma lead_ascii b : is_byte b -> b < 0x80 /\ utf8_lead b = ([b], utf8_start)
  \/ 0x80 <= b /\ (utf8_lead b = ([REPLACEMENT], utf8_start) \/ exists u, utf8_lead b = ([], u) /\ wide u).
Proof.
  intros Hb. unfold is_byte in Hb. unfold utf8_lead. destruct (Z.leb_spec b 0x7f); [left; split; [lia|done]|right; split; [lia|]].
  destruct ((0xc2 <=? b) && (b <=? 0xdf)) eqn:H2.
  { apply andb_prop in H2 as [?%Z.leb_le ?%Z.leb_le]. right. eexists. split; [done|]. unfold wide. simpl.
    change 0x1f with (Z.ones 5). rewrite (land_sub b 6) by lia. lia. }
  destruct ((0xe0 <=? b) && (b <=? 0xef)) eqn:H3.
  { apply andb_prop in H3 as [?%Z.leb_le ?%Z.leb_le]. right. eexists. split; [done|]. unfold wide. simpl.
    change 0xf with (Z.ones 4). rewrite (land_sub b 14) by lia. destruct (Z.eqb_spec b 0xe0), (Z.eqb_spec b 0xed); lia. }
  destruct ((0xf0 <=? b) && (b <=? 0xf4)) eqn:H4; [|by left].
  apply andb_prop in H4 as [?%Z.leb_le ?%Z.leb_le]. right. eexists. split; [done|]. unfold wide. simpl.
  change 7 with (Z.ones 3). rewrite (land_sub b 30) by lia. destruct (Z.eqb_spec b 0xf0), (Z.eqb_spec b 0xf4); lia.
Qed.

Lemma run_ascii bs t : Forall is_byte bs -> Forall (fun c => c < 0x80) t -> utf8_run utf8_start bs = t -> bs = t.
Proof.
  intros Hbs. revert t. induction Hbs as [|b bs Hb _ IH]; intros t Ht Hr; [by simpl in Hr|].
  simpl in Hr. unfold utf8_step in Hr. simpl in Hr.
  destruct (lead_ascii b Hb) as [[_ Hl]|[_ [Hl|(u & Hl & Hw)]]]; rewrite Hl in Hr; simpl in Hr.
  - subst t. apply Forall_cons in Ht as [_ Ht]. f_equal. by apply IH.
  - subst t. apply Forall_cons in Ht as [Ht _]. unfold REPLACEMENT in Ht. lia.
  - subst t. by apply wide_run in Ht.
Qed.

(** Comparing the decoded bytes with an ASCII literal of the same length is
    comparing the bytes. *)
Lemma decode_ascii bs t : Forall is_byte bs -> length bs = length t -> Forall (fun c => 0 <= c < 0x80) t ->
  TextDecoder_decode bs = t <-> bs = t.
Proof.
  intros Hb Hl Ht. assert (Hlow : Forall (fun c => c < 0x80) t) by (eapply Forall_impl; [done|]; simpl; lia).
  unfold TextDecoder_decode. destruct (bytesEqual _ _) eqn:He.
  - apply bytesEqual_eq in He. assert (Hd : bs = [0xef; 0xbb; 0xbf] ++ drop 3 bs).
    { rewrite <- (take_drop 3 bs) at 1. by rewrite <- He. }
    split.
    + intros Hr. apply run_ascii in Hr; [|by apply Forall_drop|done]. apply (f_equal length) in Hd.
      rewrite length_app, Hr in Hd. simpl in Hd. lia.
    + intros ->. rewrite Hd in Hlow. apply Forall_cons in Hlow as [Hx _]. lia.
  - split; [intros Hr; by apply run_ascii|]. intros ->. clear -Ht.
    induction Ht as [|c t Hc _ IH]; [done|]. simpl. unfold utf8_step. simpl. unfold utf8_lead.
    rewrite (proj2 (Z.leb_le c 0x7f)) by lia. simpl. by rewrite IH.
Qed.
