(* ===== verification/Store.v ===== *)
(** * Stores: byte-level access to a drive

    accounts-drive/js/src/store.ts. [Store] is the TypeScript interface; its
    laws ([StoreReads], [StoreWrites]) say what the drive library relies on,
    stated against an abstract image of the drive's bytes. [MemStore] (the
    in-memory image), [FileStore] (a device file, whose reads and writes may
    be short) and [MachineStore] (the memory of a parked machine, read-only)
    implement it. *)

From Stdlib Require Import ZArith Lia.
From S2P Require Import Prelude Bytes.

(** ** The interface *)
Class Store (S : Type) : Type := {
  readAt : Z -> Z -> M S bytes;
  writeAt : Z -> bytes -> M S unit
}.

(** [holds s img]: the drive behind [s] contains exactly the bytes [img]. *)
Class StoreReads (S : Type) {HS : Store S} : Type := {
  holds : S -> bytes -> Prop;
  readAt_spec s img off len : holds s img -> fits off len (zlen img) ->
    returns (readAt off len) s (fun b s' => b = slice off len img /\ holds s' img)
}.

Class StoreWrites (S : Type) {HS : Store S} {HR : StoreReads S} : Prop := {
  writeAt_spec s img off bs : holds s img -> fits off (zlen bs) (zlen img) ->
    returns (writeAt off bs) s (fun _ s' => holds s' (patch off bs img))
}.

(** A read past the end of the drive throws, and leaves the drive alone. *)
Class StoreGuards (S : Type) {HS : Store S} {HR : StoreReads S} : Prop := {
  readAt_guard s img off len : holds s img -> 0 <= off -> 0 < len -> ~ fits off len (zlen img) ->
    exists e, raises (readAt off len) s e (fun s' => holds s' img)
}.

(** ** MemStore *)
Module MemStore.
Record t : Type := mk { image : bytes }.

(** The message of the error [#bounds] throws. *)
Definition bounds_error (off n len : Z) : exn :=
  JsError ("access [" +:+ pretty off +:+ "," +:+ pretty (off + n) +:+ ") outside drive of "
           +:+ pretty len +:+ " bytes").
Definition bounds (s : t) (off n : Z) : outcome unit :=
  if negb (isSafeInteger off) || (off <? 0) || negb (isSafeInteger n) || (n <? 0)
     || (zlen (image s) <? off + n)
  then Exn (bounds_error off n (zlen (image s)))
  else Val tt.

Definition readAt (off len : Z) : M t bytes := fun s =>
  (_ ← liftO (bounds s off len); mret (slice off len (image s))) s.
Definition writeAt (off : Z) (bs : bytes) : M t unit := fun s =>
  (_ ← liftO (bounds s off (zlen bs)); modify (fun s => mk (patch off bs (image s)))) s.
End MemStore.

#[export] Instance MemStore_Store : Store MemStore.t :=
  {| readAt := MemStore.readAt; writeAt := MemStore.writeAt |}.

(** ** FileStore

    A [FileHandle] on a device of fixed size. [read] and [write] may transfer
    fewer bytes than asked: [chunk] decides how many at each call (at least
    one while there is something to transfer, which is what a positional read
    or write of a regular file or block device does; zero bytes read means end
    of file). *)
Module FileStore.
Record handle : Type := mk { content : bytes; chunk : nat -> Z; calls : nat }.

Definition transfer (h : handle) (n avail : Z) : Z :=
  if (n <=? 0) || (avail <=? 0) then 0 else Z.max 1 (Z.min (chunk h (calls h)) (Z.min n avail)).
Definition tick (h : handle) (c : bytes) : handle := mk c (chunk h) (S (calls h)).

(** [handle.read(buf, got, n, pos)]: the bytes transferred. *)
Definition read (n pos : Z) : M handle bytes := fun h =>
  let k := transfer h n (zlen (content h) - pos) in
  (Val (slice pos k (content h)), tick h (content h)).
(** [handle.write(bytes, put, n, pos)]: how many bytes were written. *)
Definition write (src : bytes) (pos : Z) : M handle Z := fun h =>
  let k := transfer h (zlen src) (zlen (content h) - pos) in
  (Val k, tick h (patch pos (slice 0 k src) (content h))).

Fixpoint read_loop (fuel : nat) (off len got : Z) (buf : bytes) : M handle bytes :=
  if got <? len then
    match fuel with
    | O => diverge
    | S fuel =>
        data ← read (len - got) (off + got);
        if zlen data =? 0 then
          throw (JsError ("short read at " +:+ pretty off +:+ ": got " +:+ pretty got
                          +:+ " of " +:+ pretty len +:+ " bytes"))
        else read_loop fuel off len (got + zlen data) (patch got data buf)
    end
  else mret buf.
Definition readAt (off len : Z) : M handle bytes :=
  read_loop (Z.to_nat len) off len 0 (zeros len).

Fixpoint write_loop (fuel : nat) (off : Z) (bs : bytes) (put : Z) : M handle unit :=
  if put <? zlen bs then
    match fuel with
    | O => diverge
    | S fuel =>
        n ← write (slice put (zlen bs - put) bs) (off + put);
        if n =? 0 then throw (JsError ("short write at " +:+ pretty off))
        else write_loop fuel off bs (put + n)
    end
  else mret tt.
Definition writeAt (off : Z) (bs : bytes) : M handle unit :=
  write_loop (length bs) off bs 0.
End FileStore.

#[export] Instance FileStore_Store : Store FileStore.handle :=
  {| readAt := FileStore.readAt; writeAt := FileStore.writeAt |}.

(** ** MachineStore

    [readMemory] is the machine client's [read_memory], which the library is
    handed; nothing is assumed of it here. *)
Module MachineStore.
Record t : Type := mk { readMemory : Z -> Z -> outcome bytes; base : Z }.

Definition readAt (off len : Z) : M t bytes := fun s =>
  (data ← liftO (readMemory s (base s + off) len);
   if zlen data =? len then mret data
   else throw (JsError ("read_memory returned " +:+ pretty (zlen data) +:+ " bytes, want "
                        +:+ pretty len))) s.
Definition writeAt (off : Z) (bs : bytes) : M t unit :=
  throw (JsError "store is read-only").
End MachineStore.

#[export] Instance MachineStore_Store : Store MachineStore.t :=
  {| readAt := MachineStore.readAt; writeAt := MachineStore.writeAt |}.

(** * The stores satisfy the interface *)

Lemma MemStore_bounds_ok s off n : fits off n (zlen (MemStore.image s)) ->
  zlen (MemStore.image s) <= MAX_SAFE_INTEGER -> MemStore.bounds s off n = Val tt.
Proof.
  intros (?&?&?) ?. unfold MemStore.bounds, isSafeInteger.
  rewrite !(proj2 (Z.leb_le _ _)) by lia.
  rewrite !(proj2 (Z.ltb_ge _ _)) by lia. done.
Qed.

#[export] Instance MemStore_reads : StoreReads MemStore.t.
Proof.
  refine {| holds s img := MemStore.image s = img /\ zlen img <= MAX_SAFE_INTEGER |}.
  intros s img off len [<- Hs] Hf. simpl. unfold MemStore.readAt.
  unfold returns, wp, mbind, M_bind, liftO. by rewrite MemStore_bounds_ok.
Defined.

#[export] Instance MemStore_writes : StoreWrites MemStore.t.
Proof.
  constructor. intros s img off bs [<- Hs] Hf. simpl. unfold MemStore.writeAt.
  unfold returns, wp, mbind, M_bind, liftO. rewrite MemStore_bounds_ok by done. simpl.
  by rewrite zlen_patch.
Qed.

(** Out of bounds both operations throw and change nothing. *)
Lemma MemStore_out_of_bounds s off n : ~ fits off n (zlen (MemStore.image s)) ->
  MemStore.bounds s off n = Exn (MemStore.bounds_error off n (zlen (MemStore.image s))).
Proof.
  unfold fits, MemStore.bounds. intros H.
  destruct (Z.ltb_spec off 0); [by rewrite orb_true_r|].
  destruct (Z.ltb_spec n 0); [by rewrite orb_true_r|].
  destruct (Z.ltb_spec (zlen (MemStore.image s)) (off + n)); [by rewrite orb_true_r|]. lia.
Qed.

#[export] Instance MemStore_guards : StoreGuards MemStore.t.
Proof.
  constructor. intros s img off len [<- Hs] _ _ Hf. eexists. simpl. unfold MemStore.readAt.
  unfold raises, wp, mbind, M_bind, liftO. by rewrite MemStore_out_of_bounds.
Qed.

Section FileLoops.
Implicit Types h : FileStore.handle.

Lemma transfer_bounds h n avail : 0 < n -> 0 < avail ->
  0 < FileStore.transfer h n avail <= Z.min n avail.
Proof.
  intros. unfold FileStore.transfer.
  rewrite !(proj2 (Z.leb_gt _ _)) by lia. simpl. lia.
Qed.

Lemma patch_grow {A} (buf src : list A) got k off : 0 <= got -> 0 <= k -> 0 <= off ->
  got + k <= zlen buf -> off + zlen buf <= zlen src ->
  slice 0 got buf = slice off got src ->
  slice 0 (got + k) (patch got (slice (off + got) k src) buf) = slice off (got + k) src.
Proof.
  intros ????? Hpre. assert (Hk : zlen (slice (off + got) k src) = k)
    by (apply zlen_slice; unfold fits; lia).
  apply list_eq. intros i. rewrite !lookup_slice by lia. case_decide; [|done].
  rewrite lookup_patch by (unfold fits; lia). case_decide.
  - rewrite lookup_slice by lia. rewrite decide_True by lia. f_equal. lia.
  - apply (f_equal (fun l => l !! i)) in Hpre. rewrite !lookup_slice in Hpre by lia.
    rewrite !decide_True in Hpre by lia. done.
Qed.

Lemma read_loop_spec fuel off len got buf h : fits off len (zlen (FileStore.content h)) ->
  0 <= got <= len -> zlen buf = len -> len - got <= Z.of_nat fuel ->
  slice 0 got buf = slice off got (FileStore.content h) ->
  returns (FileStore.read_loop fuel off len got buf) h (fun b h' =>
    b = slice off len (FileStore.content h) /\ FileStore.content h' = FileStore.content h).
Proof.
  intros (?&?&Hf). revert got buf h Hf. induction fuel as [|fuel IH];
    intros got buf h Hf Hg Hb Hn Hpre; cbn [FileStore.read_loop];
    destruct (Z.ltb_spec got len); try lia;
    try (apply returns_ret; split; [|done]; replace len with got by lia;
         rewrite <- Hpre; rewrite <- (slice_full buf) at 1; f_equal; lia).
  apply returns_bind. unfold FileStore.read. unfold returns at 1, wp. cbn [fst snd].
  set (k := FileStore.transfer _ _ _).
  assert (Hk : 0 < k <= Z.min (len - got) (zlen (FileStore.content h) - (off + got)))
    by (apply transfer_bounds; lia).
  assert (Hz : zlen (slice (off + got) k (FileStore.content h)) = k)
    by (apply zlen_slice; unfold fits; lia).
  rewrite Hz. rewrite (proj2 (Z.eqb_neq _ _)) by lia.
  refine (IH _ _ (FileStore.tick h (FileStore.content h)) _ _ _ _ _); simpl; try lia.
  - rewrite zlen_patch; [done|]. unfold fits. lia.
  - apply patch_grow; (done || lia).
Qed.

Lemma read_loop_short fuel off len got buf h : 0 <= off -> 0 <= got < len ->
  zlen (FileStore.content h) < off + len -> len - got <= Z.of_nat fuel ->
  exists e, raises (FileStore.read_loop fuel off len got buf) h e (fun h' =>
    FileStore.content h' = FileStore.content h).
Proof.
  intros Ho. revert got buf h. induction fuel as [|fuel IH]; intros got buf h Hg Hs Hn; [lia|].
  cbn [FileStore.read_loop]. rewrite (proj2 (Z.ltb_lt _ _)) by lia.
  set (k := FileStore.transfer h (len - got) (zlen (FileStore.content h) - (off + got))).
  destruct (decide (off + got < zlen (FileStore.content h))) as [Hin|Hout].
  - assert (Hk : 0 < k <= Z.min (len - got) (zlen (FileStore.content h) - (off + got)))
      by (apply transfer_bounds; lia).
    assert (Hz : zlen (slice (off + got) k (FileStore.content h)) = k)
      by (apply zlen_slice; unfold fits; lia).
    destruct (IH (got + k) (patch got (slice (off + got) k (FileStore.content h)) buf)
                (FileStore.tick h (FileStore.content h))) as [e He]; simpl; [lia..|].
    exists e. apply raises_bind. unfold FileStore.read. unfold returns, wp. cbn [fst snd]. fold k.
    rewrite Hz. rewrite (proj2 (Z.eqb_neq _ _)) by lia. exact He.
  - assert (Hk : k = 0).
    { unfold k, FileStore.transfer. rewrite (proj2 (Z.leb_le (zlen _ - _) 0)) by lia.
      by rewrite orb_true_r. }
    eexists. apply raises_bind. unfold FileStore.read. unfold returns, wp. cbn [fst snd]. fold k.
    rewrite Hk. unfold slice, zlen at 1. simpl. by apply raises_throw.
Qed.

Lemma patch_extend {A} (bs img : list A) off put k : fits off (zlen bs) (zlen img) ->
  0 <= put -> 0 <= k -> put + k <= zlen bs ->
  patch (off + put) (slice 0 k (slice put (zlen bs - put) bs)) (patch off (slice 0 put bs) img)
  = patch off (slice 0 (put + k) bs) img.
Proof.
  intros (?&?&?) ???. rewrite slice_slice by lia. replace (put + 0) with put by lia.
  pose proof (zlen_slice put k bs ltac:(unfold fits; lia)) as Ha.
  pose proof (zlen_slice 0 put bs ltac:(unfold fits; lia)) as Hb.
  pose proof (zlen_slice 0 (put + k) bs ltac:(unfold fits; lia)) as Hc.
  assert (Hd : zlen (patch off (slice 0 put bs) img) = zlen img)
    by (apply zlen_patch; unfold fits; lia).
  apply list_eq. intros i. rewrite !lookup_patch by (unfold fits; lia).
  rewrite !lookup_slice by lia.
  repeat case_decide; try lia; try done; f_equal; lia.
Qed.

Lemma write_loop_spec fuel off bs put h img : fits off (zlen bs) (zlen img) ->
  0 <= put <= zlen bs -> zlen bs - put <= Z.of_nat fuel ->
  FileStore.content h = patch off (slice 0 put bs) img ->
  returns (FileStore.write_loop fuel off bs put) h (fun _ h' =>
    FileStore.content h' = patch off bs img).
Proof.
  intros (?&?&Hf). revert put h. induction fuel as [|fuel IH];
    intros put h Hp Hn Hc; cbn [FileStore.write_loop];
    destruct (Z.ltb_spec put (zlen bs)); try lia;
    try (apply returns_ret; rewrite Hc; replace put with (zlen bs) by lia; by rewrite slice_full).
  apply returns_bind. unfold FileStore.write. unfold returns at 1, wp. cbn [fst snd].
  set (k := FileStore.transfer _ _ _).
  pose proof (zlen_slice 0 put bs ltac:(unfold fits; lia)) as Hsl.
  assert (Hlen : zlen (FileStore.content h) = zlen img)
    by (rewrite Hc; apply zlen_patch; unfold fits; lia).
  assert (Hsrc : zlen (slice put (zlen bs - put) bs) = zlen bs - put)
    by (apply zlen_slice; unfold fits; lia).
  assert (Hk : 0 < k <= Z.min (zlen bs - put) (zlen img - (off + put))).
  { subst k. rewrite Hsrc, Hlen. apply transfer_bounds; lia. }
  rewrite (proj2 (Z.eqb_neq _ _)) by lia.
  apply (IH (put + k)); [lia|lia|]. simpl. rewrite Hc. apply patch_extend; unfold fits; lia.
Qed.
End FileLoops.

#[export] Instance FileStore_reads : StoreReads FileStore.handle.
Proof.
  refine {| holds h img := FileStore.content h = img |}.
  intros h img off len <- Hf. simpl. unfold FileStore.readAt. pose proof Hf as (?&?&?).
  eapply returns_mono.
  - apply read_loop_spec; [done|lia|by apply zlen_zeros|lia|done].
  - naive_solver.
Defined.

#[export] Instance FileStore_guards : StoreGuards FileStore.handle.
Proof.
  constructor. intros h img off len Hh Ho Hl Hf. simpl in *. subst img. unfold FileStore.readAt.
  apply read_loop_short; unfold fits in Hf; lia.
Qed.

#[export] Instance FileStore_writes : StoreWrites FileStore.handle.
Proof.
  constructor. intros h img off bs <- Hf. simpl. unfold FileStore.writeAt.
  pose proof Hf as (?&?&?).
  eapply returns_mono.
  - apply (write_loop_spec _ _ _ _ _ (FileStore.content h)); [done|lia|unfold zlen; lia|].
    symmetry. apply (patch_slice_self off 0). unfold fits. lia.
  - naive_solver.
Qed.

(** A parked machine whose memory at the drive's base address is [img]: what
    the machine client documents of [read_memory]. *)
Definition parked (s : MachineStore.t) (img : bytes) : Prop :=
  forall off len, fits off len (zlen img) ->
    MachineStore.readMemory s (MachineStore.base s + off) len = Val (slice off len img).

#[export] Instance MachineStore_reads : StoreReads MachineStore.t.
Proof.
  refine {| holds := parked |}.
  intros s img off len Hp Hf. simpl. unfold MachineStore.readAt, returns, wp, mbind, M_bind, liftO.
  rewrite (Hp off len Hf), zlen_slice by done. by rewrite Z.eqb_refl.
Defined.
