(* ===== verification/Device.v ===== *)
(** * Devices behind a page cache

    The rest of [FileStore] (accounts-drive/js/src/store.ts): [open], [sync] and
    [close]. A guest reads and writes its drive through the kernel's page cache;
    the machine, and whoever reads the machine's memory, has the bytes that were
    written back. [Backing] is the test the drives make of their store
    ([instanceof FileStore]), [Flushes] what a flush promises. *)

From Stdlib Require Import ZArith Lia.
From S2P Require Import Prelude Bytes Store.

(** ** A device file

    [cache] is the file as reads and writes see it, [machine] the device's bytes
    in the machine. The kernel may write any part of the cache back at any
    time: [writeback] is what the machine holds after a write. *)
Module Device.
Record t : Type := mk {
  cache : FileStore.handle; machine : bytes; writeback : nat -> bytes -> bytes -> bytes; live : bool
}.
Definition set_cache (h : FileStore.handle) (d : t) : t := mk h (machine d) (writeback d) (live d).
Definition set_machine (b : bytes) (d : t) : t := mk (cache d) b (writeback d) (live d).
Definition written_back (d : t) : t :=
  set_machine (writeback d (FileStore.calls (cache d)) (machine d) (FileStore.content (cache d))) d.

(** A call on a closed handle is refused by the runtime. *)
Definition file_closed : exn := JsError "file closed".
Definition guarded {A} (m : M t A) : M t A := ok ← gets live; if ok : bool then m else throw file_closed.

(** A transfer of no bytes makes no call. *)
Definition readAt (off len : Z) : M t bytes :=
  let m := zoom cache set_cache (FileStore.readAt off len) in if 0 <? len then guarded m else m.
Definition writeAt (off : Z) (bs : bytes) : M t unit := fun d =>
  let m := zoom cache set_cache (FileStore.writeAt off bs) in
  let '(o, d') := (if 0 <? zlen bs then guarded m else m) d in (o, written_back d').

(** [handle.datasync()] and [handle.close()] *)
Definition datasync : M t unit := modify (fun d => set_machine (FileStore.content (cache d)) d).
Definition sync : M t unit := guarded datasync.
Definition close : M t unit := guarded (modify (fun d => mk (cache d) (machine d) (writeback d) false)).
End Device.

#[export] Instance Device_Store : Store Device.t :=
  {| readAt := Device.readAt; writeAt := Device.writeAt |}.

(** The devices of a machine by path, and how its kernel transfers and writes
    back. [open(path, 'r+')] opens what is there and creates nothing. *)
Record Devices : Type := mkDevices {
  dev_files : gmap string bytes; dev_chunk : nat -> Z; dev_writeback : nat -> bytes -> bytes -> bytes
}.
Definition no_such_file (path : string) : exn :=
  JsError ("ENOENT: no such file or directory, open '" +:+ path +:+ "'").
Definition FileStore_open (ds : Devices) (path : string) : outcome Device.t :=
  match dev_files ds !! path with
  | Some img => Val (Device.mk (FileStore.mk img (dev_chunk ds) 0) img (dev_writeback ds) true)
  | None => Exn (no_such_file path)
  end.

(** ** Stores that may be flushed

    [backing_sync] is the [sync] of a store that is a [FileStore], [None] of one
    that is not. *)
Class Backing (S : Type) : Type := backing_sync : option (M S unit).
Definition sync_if_file {S} {HB : Backing S} : M S unit :=
  match backing_sync with Some sync => sync | None => mret tt end.
#[export] Instance MemStore_Backing : Backing MemStore.t := None.
#[export] Instance Device_Backing : Backing Device.t := Some Device.sync.

(** [in_machine s]: the drive's bytes as whoever reads the machine sees them
    (of a [MemStore], as the tests do: directly). After a flush they are the
    bytes the store holds. *)
Class Flushes (S : Type) {HS : Store S} {HR : StoreReads S} {HB : Backing S} : Type := {
  in_machine : S -> bytes;
  flush_spec s img : holds s img ->
    returns sync_if_file s (fun _ s' => holds s' img /\ in_machine s' = img)
}.

(** * The device satisfies the interfaces *)

#[export] Instance Device_reads : StoreReads Device.t.
Proof.
  refine {| holds d img := Device.live d = true /\ FileStore.content (Device.cache d) = img |}.
  intros d img off len [Hl Hc] Hf. simpl. unfold Device.readAt.
  assert (H : returns (zoom Device.cache Device.set_cache (FileStore.readAt off len)) d (fun b d' =>
    b = slice off len img /\ Device.live d' = true /\ FileStore.content (Device.cache d') = img)).
  { apply returns_zoom. eapply returns_mono; [exact (readAt_spec (Device.cache d) img off len Hc Hf)|].
    by intros b h [-> Hh]. }
  destruct (0 <? len); [|exact H]. apply returns_bind, returns_gets. by rewrite Hl.
Defined.

#[export] Instance Device_writes : StoreWrites Device.t.
Proof.
  constructor. intros d img off bs [Hl Hc] Hf. simpl. unfold Device.writeAt.
  assert (H : returns (zoom Device.cache Device.set_cache (FileStore.writeAt off bs)) d (fun _ d' =>
    Device.live d' = true /\ FileStore.content (Device.cache d') = patch off bs img)).
  { apply returns_zoom. eapply returns_mono; [exact (writeAt_spec (Device.cache d) img off bs Hc Hf)|].
    by intros [] h Hh. }
  assert (H' : returns (if 0 <? zlen bs then Device.guarded (zoom Device.cache Device.set_cache (FileStore.writeAt off bs))
      else zoom Device.cache Device.set_cache (FileStore.writeAt off bs)) d (fun _ d' =>
    Device.live d' = true /\ FileStore.content (Device.cache d') = patch off bs img)).
  { destruct (0 <? zlen bs); [|exact H]. apply returns_bind, returns_gets. by rewrite Hl. }
  apply returns_elim in H' as ([] & d' & Hrun & Hd). unfold returns, wp. rewrite Hrun. exact Hd.
Qed.

#[export] Instance Device_guards : StoreGuards Device.t.
Proof.
  constructor. intros d img off len [Hl Hc] Ho Hn Hf. simpl. unfold Device.readAt.
  rewrite (proj2 (Z.ltb_lt _ _)) by lia.
  assert (Hh : holds (Device.cache d) img) by exact Hc.
  destruct (readAt_guard (Device.cache d) img off len Hh Ho Hn Hf) as [e He]. exists e.
  unfold Device.guarded. apply raises_bind, returns_gets. rewrite Hl.
  unfold raises, wp, zoom in He |- *. simpl in He. destruct (FileStore.readAt off len (Device.cache d)) as [[b|x|] h]; simpl in He |- *; [by destruct He|by destruct He as [-> <-]|by destruct He].
Qed.

#[export] Instance Device_flushes : Flushes Device.t.
Proof.
  refine {| in_machine := Device.machine |}.
  intros d img [Hl Hc]. apply returns_bind, returns_gets. rewrite Hl. by apply returns_modify.
Defined.

#[export] Instance MemStore_flushes : Flushes MemStore.t.
Proof. refine {| in_machine := MemStore.image |}. by intros s img [<- Hs]. Defined.

(** What is opened is what is in the machine; what is not there is refused. *)
Lemma open_device ds path img : dev_files ds !! path = Some img ->
  exists d, FileStore_open ds path = Val d /\ holds d img /\ in_machine d = img.
Proof. intros Hf. unfold FileStore_open. rewrite Hf. by eexists. Qed.

(** After [close], a transfer of at least a byte throws. *)
Lemma closed_refuses d img off len : holds d img -> 0 < len ->
  returns Device.close d (fun _ d' => raises (readAt off len) d' Device.file_closed (fun d'' => d'' = d')).
Proof.
  intros [Hl _] Hn. apply returns_bind, returns_gets. rewrite Hl. apply returns_modify. simpl. unfold Device.readAt.
  rewrite (proj2 (Z.ltb_lt _ _)) by lia. by apply raises_bind, returns_gets.
Qed.

(** The test of store.test.ts: what one handle wrote, synced and closed, the
    next one opened on the device reads, however the kernel wrote back. *)
Lemma synced_reopens d img off bs ds path : holds d img -> fits off (zlen bs) (zlen img) ->
  returns (writeAt off bs;; sync_if_file;; Device.close) d (fun _ d' =>
    forall d2, FileStore_open (mkDevices {[path := in_machine d']} (dev_chunk ds) (dev_writeback ds)) path = Val d2 ->
    returns (readAt off (zlen bs)) d2 (fun b _ => b = bs)).
Proof.
  intros Hh Hf. apply returns_bind. eapply returns_mono; [by apply writeAt_spec|]. intros [] d1 H1.
  apply returns_bind. eapply returns_mono; [by apply flush_spec|]. intros [] d2 [[Hl Hc] Hm].
  apply returns_bind, returns_gets. rewrite Hl. apply returns_modify. intros d3 Ho.
  change (in_machine _) with (in_machine d2) in Ho. rewrite Hm in Ho. unfold FileStore_open in Ho. cbn [dev_files] in Ho.
  rewrite lookup_singleton_eq in Ho. injection Ho as <-.
  eapply returns_mono; [apply (readAt_spec _ (patch off bs img)); [done|by rewrite zlen_patch]|].
  intros b s' [-> _]. by apply slice_patch_same.
Qed.
