(* ===== verification/DriveConfig.v ===== *)
(** * Drive geometry: defaults and validation

    The constants, [Config], [normalizeConfig] and [validateConfig] of
    accounts-drive/js/src/drive.ts. [geometry] is what an accepted
    configuration guarantees: every region lies inside the drive and no two of
    them (header page included) share a byte. *)

From Stdlib Require Import ZArith Lia.
From S2P Require Import Prelude Bytes.

Definition ProfileSingleAsset : Z := 0.
Definition ProfileWide : Z := 1.
Definition ProfileSparse : Z := 2.
Definition Magic : bytes := [0x63; 0x74; 0x73; 0x69; 0x61; 0x63; 0x63; 0x74].
Definition Version : Z := 1.
Definition HEADER_SIZE : Z := 4096.
Definition OFF_MAGIC : Z := 0x00.
Definition OFF_VERSION : Z := 0x08.
Definition OFF_FLAGS : Z := 0x0c.
Definition OFF_CAPACITY : Z := 0x10.
Definition OFF_TABLE_OFFSET : Z := 0x18.
Definition OFF_LOAD_LIMIT : Z := 0x20.
Definition OFF_LIVE_COUNT : Z := 0x28.
Definition OFF_SEED : Z := 0x30.
Definition OFF_PROFILE : Z := 0x50.
Definition OFF_SLOT_SIZE : Z := 0x54.
Definition OFF_REGISTRY_OFFSET : Z := 0x58.
Definition OFF_REGISTRY_CAP : Z := 0x60.
Definition OFF_TOKEN_COUNT : Z := 0x68.
Definition OFF_SPARSE_OFFSET : Z := 0x70.
Definition OFF_SPARSE_CAPACITY : Z := 0x78.
Definition OFF_SPARSE_LOAD_LIMIT : Z := 0x80.
Definition OFF_SPARSE_LIVE_COUNT : Z := 0x88.
Definition OFF_SPARSE_SLOT_SIZE : Z := 0x90.
Definition MIN_REGISTRY_OFFSET : Z := 0x100.

(** The geometry a caller asks for: absent fields take defaults. *)
Inductive SeedLike : Type :=
  | SeedBytes (b : bytes)
  | SeedHex (s : string).

Record Config : Type := mkConfig {
  c_driveLength : option Z;
  c_capacity : option Z;
  c_loadLimit : option Z;
  c_seed : option SeedLike;
  c_profile : option Z;
  c_slotSize : option Z;
  c_tableOffset : option Z;
  c_registryOffset : option Z;
  c_registryCapacity : option Z;
  c_sparseOffset : option Z;
  c_sparseCapacity : option Z;
  c_sparseLoadLimit : option Z;
  c_sparseSlotSize : option Z
}.

Record NormalizedConfig : Type := mkNormalized {
  driveLength : Z;
  capacity : Z;
  loadLimit : Z;
  seed : bytes;
  profile : Z;
  slotSize : Z;
  tableOffset : Z;
  registryOffset : Z;
  registryCapacity : Z;
  sparseOffset : Z;
  sparseCapacity : Z;
  sparseLoadLimit : Z;
  sparseSlotSize : Z
}.

Definition normalizeSeed (s : option SeedLike) : outcome bytes :=
  match s with
  | None => Val (zeros 32)
  | Some sl =>
      b ← match sl with SeedHex h => hexToBytes h | SeedBytes b => Val b end;
      if zlen b =? 32 then Val b else Exn (JsError "seed must be 32 bytes")
  end.

Definition normalizeConfig (config : Config) : outcome NormalizedConfig :=
  let num (f : Config -> option Z) := default 0 (f config) in
  sd ← normalizeSeed (c_seed config);
  let cap := num c_capacity in
  let prof := num c_profile in
  let ss := num c_slotSize in
  let ll := num c_loadLimit in
  let sll := num c_sparseLoadLimit in
  let sss := num c_sparseSlotSize in
  let scap := num c_sparseCapacity in
  Val {|
    driveLength := num c_driveLength;
    capacity := cap;
    loadLimit := if (ll =? 0) && (0 <? cap) then cap - cap / 8 else ll;
    seed := sd;
    profile := prof;
    slotSize := if ss =? 0 then 64 else ss;
    tableOffset := if num c_tableOffset =? 0 then HEADER_SIZE else num c_tableOffset;
    registryOffset := num c_registryOffset;
    registryCapacity := num c_registryCapacity;
    sparseOffset := num c_sparseOffset;
    sparseCapacity := scap;
    sparseLoadLimit :=
      if prof =? ProfileSparse then
        if (sll =? 0) && (0 <? scap) then scap - scap / 8 else sll
      else sll;
    sparseSlotSize :=
      if prof =? ProfileSparse then (if sss =? 0 then 64 else sss) else sss
  |}.

(** [if (b) throw new Error(msg)] *)
Definition guard_err (b : bool) (msg : string) : outcome unit :=
  if b then Exn (JsError msg) else Val tt.

Record Region : Type := mkRegion { r_name : string; r_off : Z; r_len : Z }.

Definition in_drive (len : Z) (r : Region) : outcome unit :=
  guard_err (len <? r_off r + r_len r)
    (r_name r +:+ " [" +:+ pretty (r_off r) +:+ "," +:+ pretty (r_off r + r_len r)
     +:+ ") outside drive of " +:+ pretty len +:+ " bytes").
Definition no_overlap (a b : Region) : outcome unit :=
  guard_err ((r_off a <? r_off b + r_len b) && (r_off b <? r_off a + r_len a))
    (r_name a +:+ " overlaps " +:+ r_name b).
Fixpoint for_each {A} (f : A -> outcome unit) (l : list A) : outcome unit :=
  match l with [] => Val tt | x :: l => _ ← f x; for_each f l end.
Fixpoint pairwise_disjoint (l : list Region) : outcome unit :=
  match l with [] => Val tt | a :: l => _ ← for_each (no_overlap a) l; pairwise_disjoint l end.

(** The header page and the accounts table, then the registry unless it sits
    in the header page, then the sparse table. *)
Definition base_regions (c : NormalizedConfig) : list Region :=
  [mkRegion "header" 0 HEADER_SIZE;
   mkRegion "accounts table" (tableOffset c) (capacity c * slotSize c)].
Definition registry_regions (c : NormalizedConfig) : list Region :=
  if (registryOffset c =? 0) || (registryOffset c <? HEADER_SIZE) then []
  else [mkRegion "registry" (registryOffset c) (32 * registryCapacity c)].
Definition sparse_regions (c : NormalizedConfig) : list Region :=
  if profile c =? ProfileSparse
  then [mkRegion "sparse table" (sparseOffset c) (sparseCapacity c * sparseSlotSize c)] else [].
Definition regions (c : NormalizedConfig) : list Region :=
  base_regions c ++ registry_regions c ++ sparse_regions c.

Definition check_slot_size (c : NormalizedConfig) : outcome unit :=
  let ss := slotSize c in
  if profile c =? ProfileWide then
    guard_err ((ss <? 128) || negb (isPow2 ss))
      ("wide slot size " +:+ pretty ss +:+ ": want a power of two >= 128")
  else if profile c =? ProfileSingleAsset then
    guard_err (negb (ss =? 64) && negb (ss =? 32))
      ("slot size " +:+ pretty ss
       +:+ ": profile 0 takes 64 (standard record) or 32 (compact record)")
  else guard_err (negb (ss =? 64))
         ("slot size " +:+ pretty ss +:+ ": must be 64 in the sparse profile").

Definition check_registry (c : NormalizedConfig) : outcome unit :=
  _ ← guard_err (negb (profile c =? ProfileSingleAsset) && (registryOffset c =? 0))
        ("profile " +:+ pretty (profile c) +:+ " requires a token registry");
  if registryOffset c =? 0 then Val tt else
  _ ← guard_err ((registryCapacity c =? 0) || (65536 <? registryCapacity c))
        ("registry capacity " +:+ pretty (registryCapacity c) +:+ " outside [1, 65536]");
  _ ← guard_err (negb (registryOffset c mod 32 =? 0))
        ("registry offset " +:+ pretty (registryOffset c) +:+ " not a multiple of 32");
  let end_ := registryOffset c + 32 * registryCapacity c in
  if registryOffset c <? HEADER_SIZE then
    guard_err ((registryOffset c <? MIN_REGISTRY_OFFSET) || (HEADER_SIZE <? end_))
      ("in-header registry [" +:+ pretty (registryOffset c) +:+ "," +:+ pretty end_
       +:+ ") outside [" +:+ pretty MIN_REGISTRY_OFFSET +:+ "," +:+ pretty HEADER_SIZE +:+ ")")
  else Val tt.

Definition check_sparse (c : NormalizedConfig) : outcome unit :=
  if negb (profile c =? ProfileSparse) then Val tt else
  let sss := sparseSlotSize c in
  _ ← guard_err (negb (sss =? 64) && negb (sss =? 32))
        ("sparse slot size " +:+ pretty sss +:+ ": want 64 or 32");
  _ ← guard_err (sparseCapacity c <? 2)
        ("sparse capacity " +:+ pretty (sparseCapacity c) +:+ " < 2");
  _ ← guard_err ((sparseLoadLimit c <? 1) || (sparseCapacity c <=? sparseLoadLimit c))
        ("sparse load limit " +:+ pretty (sparseLoadLimit c) +:+ " outside [1, capacity-1]");
  guard_err ((sparseOffset c <? HEADER_SIZE) || negb (sparseOffset c mod sss =? 0))
    ("sparse offset " +:+ pretty (sparseOffset c) +:+ ": want >= " +:+ pretty HEADER_SIZE
     +:+ " and a multiple of the slot size").

Definition validateConfig (c : NormalizedConfig) : outcome unit :=
  _ ← guard_err ((driveLength c =? 0) || negb (isPow2 (driveLength c)))
        ("drive length " +:+ pretty (driveLength c) +:+ " is not a power of two");
  _ ← guard_err ((ProfileSparse <? profile c) || (profile c <? 0))
        ("unknown profile " +:+ pretty (profile c));
  _ ← check_slot_size c;
  _ ← guard_err (capacity c <? 2) ("capacity " +:+ pretty (capacity c) +:+ " < 2");
  _ ← guard_err ((loadLimit c <? 1) || (capacity c <=? loadLimit c))
        ("load limit " +:+ pretty (loadLimit c) +:+ " outside [1, capacity-1]");
  _ ← guard_err ((tableOffset c <? HEADER_SIZE) || negb (tableOffset c mod slotSize c =? 0))
        ("table offset " +:+ pretty (tableOffset c) +:+ ": want >= " +:+ pretty HEADER_SIZE
         +:+ " and a multiple of the slot size");
  _ ← check_registry c;
  _ ← check_sparse c;
  _ ← for_each (in_drive (driveLength c)) (regions c);
  pairwise_disjoint (regions c).

(** * What validation guarantees *)

(** The slot sizes a profile admits. *)
Definition slot_size_ok (c : NormalizedConfig) : Prop :=
  (profile c = ProfileWide /\ 128 <= slotSize c)
  \/ (profile c = ProfileSingleAsset /\ (slotSize c = 64 \/ slotSize c = 32))
  \/ (profile c = ProfileSparse /\ slotSize c = 64).

(** A registry inside the header page, or in a region of its own. *)
Definition registry_ok (len : Z) (c : NormalizedConfig) : Prop :=
  registryOffset c = 0 \/
  (1 <= registryCapacity c <= 65536 /\
   ((MIN_REGISTRY_OFFSET <= registryOffset c
     /\ registryOffset c + 32 * registryCapacity c <= HEADER_SIZE)
    \/ (HEADER_SIZE <= registryOffset c
        /\ registryOffset c + 32 * registryCapacity c <= len
        /\ disjoint_ranges (registryOffset c) (32 * registryCapacity c)
             (tableOffset c) (capacity c * slotSize c)
        /\ (profile c = ProfileSparse ->
            disjoint_ranges (registryOffset c) (32 * registryCapacity c)
              (sparseOffset c) (sparseCapacity c * sparseSlotSize c))))).

Definition sparse_ok (len : Z) (c : NormalizedConfig) : Prop :=
  profile c = ProfileSparse ->
  (sparseSlotSize c = 64 \/ sparseSlotSize c = 32)
  /\ 2 <= sparseCapacity c /\ 1 <= sparseLoadLimit c < sparseCapacity c
  /\ HEADER_SIZE <= sparseOffset c
  /\ sparseOffset c + sparseCapacity c * sparseSlotSize c <= len
  /\ disjoint_ranges (tableOffset c) (capacity c * slotSize c)
       (sparseOffset c) (sparseCapacity c * sparseSlotSize c).

Record geometry (len : Z) (c : NormalizedConfig) : Prop := mkGeometry {
  geo_slot : slot_size_ok c;
  geo_capacity : 2 <= capacity c;
  geo_limit : 1 <= loadLimit c < capacity c;
  geo_table : HEADER_SIZE <= tableOffset c;
  geo_table_end : tableOffset c + capacity c * slotSize c <= len;
  geo_needs_registry : profile c <> ProfileSingleAsset -> registryOffset c <> 0;
  geo_registry : registry_ok len c;
  geo_sparse : sparse_ok len c
}.

Lemma guard_err_val b msg x : guard_err b msg = Val x -> b = false.
Proof. by destruct b. Qed.

Lemma outcome_bind_val {A B} (m : outcome A) (f : A -> outcome B) b :
  m ≫= f = Val b -> exists a, m = Val a /\ f a = Val b.
Proof. destruct m; simpl; naive_solver. Qed.

(** Peels the guards of a validation that succeeded. *)
Ltac guards H :=
  repeat match type of H with
  | (_ ≫= _) = Val _ =>
      let x := fresh in let E := fresh "Hg" in
      apply outcome_bind_val in H as [x [E H]]
  end.
Ltac unguard :=
  repeat match goal with
  | E : guard_err _ _ = Val _ |- _ => apply guard_err_val in E
  | E : _ || _ = false |- _ => apply orb_false_iff in E as [? ?]
  | E : _ && _ = false |- _ => apply andb_false_iff in E
  | E : negb _ = false |- _ => apply negb_false_iff in E
  | E : negb _ = true |- _ => apply negb_true_iff in E
  | E : (_ =? _) = true |- _ => apply Z.eqb_eq in E
  | E : (_ =? _) = false |- _ => apply Z.eqb_neq in E
  | E : (_ <? _) = false |- _ => apply Z.ltb_ge in E
  | E : (_ <=? _) = false |- _ => apply Z.leb_gt in E
  | E : (_ <? _) = true |- _ => apply Z.ltb_lt in E
  end.

(** Membership of a region in a concrete list of them. *)
Ltac in_list := unfold regions, base_regions; rewrite ?elem_of_app, ?elem_of_cons; auto 10.

Lemma for_each_val {A} (f : A -> outcome unit) l :
  for_each f l = Val tt -> forall x, x ∈ l -> f x = Val tt.
Proof.
  induction l as [|y l IH]; simpl; intros H x Hx; [by apply elem_of_nil in Hx|].
  apply outcome_bind_val in H as [[] [H1 H2]].
  apply elem_of_cons in Hx as [->|Hx]; auto.
Qed.

Lemma in_drive_val len r : in_drive len r = Val tt -> r_off r + r_len r <= len.
Proof. unfold in_drive. intros H. unguard. lia. Qed.

Lemma no_overlap_val a b : no_overlap a b = Val tt ->
  disjoint_ranges (r_off a) (r_len a) (r_off b) (r_len b).
Proof. unfold no_overlap, disjoint_ranges. intros H. unguard. destruct H; unguard; lia. Qed.

Lemma pairwise_val l1 a l2 b l3 :
  pairwise_disjoint (l1 ++ a :: l2 ++ b :: l3) = Val tt -> no_overlap a b = Val tt.
Proof.
  induction l1 as [|x l1 IH]; simpl; intros H; apply outcome_bind_val in H as [[] [H1 H2]]; auto.
  apply (for_each_val _ _ H1). apply elem_of_app. right. apply elem_of_cons. by left.
Qed.

Lemma check_slot_size_val c : check_slot_size c = Val tt ->
  0 <= profile c <= ProfileSparse -> slot_size_ok c.
Proof.
  unfold check_slot_size, slot_size_ok, ProfileWide, ProfileSingleAsset, ProfileSparse.
  intros H ?. destruct (Z.eqb_spec (profile c) 1); [|destruct (Z.eqb_spec (profile c) 0)];
    unguard; [left; lia| |right; right; lia].
  right. left. split; [done|]. destruct H; unguard; lia.
Qed.

Lemma registry_regions_in c : registryOffset c <> 0 -> HEADER_SIZE <= registryOffset c ->
  registry_regions c = [mkRegion "registry" (registryOffset c) (32 * registryCapacity c)].
Proof.
  intros. unfold registry_regions. rewrite (proj2 (Z.eqb_neq _ _)), (proj2 (Z.ltb_ge _ _)) by lia.
  done.
Qed.

Lemma sparse_regions_in c : profile c = ProfileSparse ->
  sparse_regions c = [mkRegion "sparse table" (sparseOffset c) (sparseCapacity c * sparseSlotSize c)].
Proof. intros H. unfold sparse_regions. by rewrite H. Qed.

Lemma registry_geometry c : check_registry c = Val tt -> 0 <= registryCapacity c ->
  for_each (in_drive (driveLength c)) (regions c) = Val tt ->
  pairwise_disjoint (regions c) = Val tt ->
  (profile c <> ProfileSingleAsset -> registryOffset c <> 0) /\ registry_ok (driveLength c) c.
Proof.
  unfold check_registry. intros H Hneg Hin Hdis. guards H. unguard.
  split. { intros ??. destruct Hg; unguard; done. }
  unfold registry_ok. destruct (Z.eqb_spec (registryOffset c) 0) as [|Hz]; [by left|right].
  guards H. unguard. split; [lia|].
  destruct (Z.ltb_spec (registryOffset c) HEADER_SIZE); unguard; [left; lia|right].
  split; [done|]. unfold regions in *.
  rewrite registry_regions_in in Hin, Hdis by done.
  split; [|split].
  - apply (in_drive_val _ _ (for_each_val _ _ Hin
      (mkRegion "registry" (registryOffset c) (32 * registryCapacity c)) ltac:(in_list))).
  - pose proof (no_overlap_val _ _ (pairwise_val [_] _ [] _ _ Hdis)) as Hd.
    unfold disjoint_ranges in *. simpl in Hd. lia.
  - intros Hs. rewrite sparse_regions_in in Hdis by done.
    apply (no_overlap_val _ _ (pairwise_val [_; _] _ [] _ [] Hdis)).
Qed.

Lemma sparse_geometry c : check_sparse c = Val tt ->
  for_each (in_drive (driveLength c)) (regions c) = Val tt ->
  pairwise_disjoint (regions c) = Val tt -> sparse_ok (driveLength c) c.
Proof.
  intros H Hin Hdis Hp. unfold check_sparse in H. rewrite Hp in H. simpl in H. guards H. unguard.
  unfold regions in *. rewrite (sparse_regions_in _ Hp) in Hin, Hdis.
  split_and!; try lia.
  - apply (in_drive_val _ _ (for_each_val _ _ Hin
      (mkRegion "sparse table" (sparseOffset c) (sparseCapacity c * sparseSlotSize c))
      ltac:(in_list))).
  - apply (no_overlap_val _ _ (pairwise_val [_] _ (registry_regions c) _ [] Hdis)).
Qed.

(** Every configuration [validateConfig] accepts has a sound geometry. *)
Lemma validateConfig_geometry c : 0 <= registryCapacity c ->
  validateConfig c = Val tt -> geometry (driveLength c) c.
Proof.
  unfold validateConfig. intros Hr H. guards H.
  match goal with E : for_each _ _ = Val ?u |- _ => destruct u end.
  repeat match goal with E : _ = Val ?u |- _ => is_var u; destruct u end.
  assert (Hin := Hg7). unguard.
  assert (Hp : 0 <= profile c <= ProfileSparse) by lia.
  destruct (registry_geometry c) as [Hneed Hreg]; [done..|].
  constructor; try lia; try done.
  - by apply check_slot_size_val.
  - apply (in_drive_val _ _ (for_each_val _ _ Hin
      (mkRegion "accounts table" (tableOffset c) (capacity c * slotSize c)) ltac:(in_list))).
  - by apply sparse_geometry.
Qed.

(** ** The validation always answers *)
Lemma bind_settles {A B} (m : outcome A) (f : A -> outcome B) :
  m <> Diverge -> (forall a, f a <> Diverge) -> m ≫= f <> Diverge.
Proof. by destruct m; simpl; auto. Qed.
Lemma guard_settles b msg : guard_err b msg <> Diverge.
Proof. by destruct b. Qed.
Lemma for_each_settles {A} (f : A -> outcome unit) l : (forall x, f x <> Diverge) -> for_each f l <> Diverge.
Proof. intros Hf. induction l as [|x l IH]; simpl; [done|]. by apply bind_settles. Qed.
Lemma pairwise_settles l : pairwise_disjoint l <> Diverge.
Proof.
  induction l as [|a l IH]; simpl; [done|]. apply bind_settles; [|done].
  apply for_each_settles. intros b. apply guard_settles.
Qed.
Lemma validateConfig_settles c : validateConfig c <> Diverge.
Proof.
  unfold validateConfig, check_slot_size, check_registry, check_sparse, in_drive.
  repeat first [apply guard_settles | apply pairwise_settles | apply for_each_settles; intros ?
    | apply bind_settles; [|intros _] | discriminate | case_match].
Qed.
