(* ===== verification/DriveHeader.v ===== *)
(** * The drive header

    The 4096-byte header page [format] writes and [open] reads and validates
    (accounts-drive/js/src/drive.ts): its encoding, its decoding, that the two
    are inverse on every configuration a header can carry, and that the
    decoding only depends on the header's geometry fields, so that the
    counters and an in-header registry can change under it. *)

From Stdlib Require Import ZArith Lia.
From S2P Require Import Prelude Bytes DriveConfig.

(** ** Writing *)

(** The fields [format] sets, in its order; [setUint32] and [setBigUint64] are
    the little-endian encodings of 4 and 8 bytes. *)
Definition sparse_fields (c : NormalizedConfig) : list (Z * bytes) :=
  [(OFF_SPARSE_OFFSET, le_encode 8 (sparseOffset c));
   (OFF_SPARSE_CAPACITY, le_encode 8 (sparseCapacity c));
   (OFF_SPARSE_LOAD_LIMIT, le_encode 8 (sparseLoadLimit c));
   (OFF_SPARSE_SLOT_SIZE, le_encode 4 (sparseSlotSize c))].
Definition header_fields (c : NormalizedConfig) : list (Z * bytes) :=
  [(OFF_MAGIC, Magic);
   (OFF_VERSION, le_encode 4 Version);
   (OFF_CAPACITY, le_encode 8 (capacity c));
   (OFF_TABLE_OFFSET, le_encode 8 (tableOffset c));
   (OFF_LOAD_LIMIT, le_encode 8 (loadLimit c));
   (OFF_SEED, seed c);
   (OFF_PROFILE, le_encode 4 (profile c));
   (OFF_SLOT_SIZE, le_encode 4 (slotSize c));
   (OFF_REGISTRY_OFFSET, le_encode 8 (registryOffset c));
   (OFF_REGISTRY_CAP, le_encode 8 (registryCapacity c))]
  ++ (if profile c =? ProfileSparse then sparse_fields c else []).

Fixpoint put_fields (fs : list (Z * bytes)) (h : bytes) : outcome bytes :=
  match fs with
  | [] => Val h
  | (off, b) :: fs => h ← setBytes h b off; put_fields fs h
  end.
Definition encode_header (c : NormalizedConfig) : outcome bytes :=
  put_fields (header_fields c) (zeros HEADER_SIZE).

(** ** Reading *)

(** [n.toString(16)] of a [uint32]. *)
Fixpoint hex_digits (fuel : nat) (n : Z) (acc : list Ascii.ascii) : list Ascii.ascii :=
  let acc := hexdigit (n mod 16) :: acc in
  match fuel with
  | O => acc
  | S fuel => if n / 16 =? 0 then acc else hex_digits fuel (n / 16) acc
  end.
Definition toString16 (n : Z) : string := String.string_of_list_ascii (hex_digits 7 n []).

Definition u64_field (h : bytes) (off : Z) : outcome Z := v ← getLE64 h off; Val (Number_of_bigint v).

(** The header part of [open]: the checks, then the geometry. *)
Definition decode_header (h : bytes) : outcome NormalizedConfig :=
  if negb (bytesEqual (slice OFF_MAGIC 8 h) Magic) then
    Exn (JsError "not an accounts drive (bad magic)") else
  version ← getLE32 h OFF_VERSION;
  if negb (version =? Version) then
    Exn (JsError ("unsupported accounts drive version: " +:+ pretty version)) else
  flags ← getLE32 h OFF_FLAGS;
  if negb (flags =? 0) then
    Exn (JsError ("unsupported accounts drive version: nonzero flags 0x" +:+ toString16 flags)) else
  cap ← u64_field h OFF_CAPACITY;
  toff ← u64_field h OFF_TABLE_OFFSET;
  ll ← u64_field h OFF_LOAD_LIMIT;
  prof ← getLE32 h OFF_PROFILE;
  ss ← getLE32 h OFF_SLOT_SIZE;
  roff ← u64_field h OFF_REGISTRY_OFFSET;
  rcap ← u64_field h OFF_REGISTRY_CAP;
  soff ← u64_field h OFF_SPARSE_OFFSET;
  scap ← u64_field h OFF_SPARSE_CAPACITY;
  sll ← u64_field h OFF_SPARSE_LOAD_LIMIT;
  sss ← getLE32 h OFF_SPARSE_SLOT_SIZE;
  Val {| driveLength := 0; capacity := cap; loadLimit := ll; seed := slice OFF_SEED 32 h;
         profile := prof; slotSize := if ss =? 0 then 64 else ss; tableOffset := toff;
         registryOffset := roff; registryCapacity := rcap; sparseOffset := soff;
         sparseCapacity := scap; sparseLoadLimit := sll; sparseSlotSize := sss |}.

(** The geometry a header keeps of a configuration: not the drive's length,
    and the sparse fields only in the sparse profile. *)
Definition header_config (c : NormalizedConfig) : NormalizedConfig :=
  let sp (v : Z) := if profile c =? ProfileSparse then v else 0 in
  {| driveLength := 0; capacity := capacity c; loadLimit := loadLimit c; seed := seed c;
     profile := profile c; slotSize := slotSize c; tableOffset := tableOffset c;
     registryOffset := registryOffset c; registryCapacity := registryCapacity c;
     sparseOffset := sp (sparseOffset c); sparseCapacity := sp (sparseCapacity c);
     sparseLoadLimit := sp (sparseLoadLimit c); sparseSlotSize := sp (sparseSlotSize c) |}.

(** * Overlaying fields *)

Definition patches (fs : list (Z * bytes)) (l : bytes) : bytes :=
  foldl (fun l f => patch f.1 f.2 l) l fs.

(** The places of the fields, and that they lie in a buffer and apart. *)
Definition laid_out (fs : list (Z * bytes)) (lay : list (Z * Z)) : Prop :=
  Forall2 (fun f p => f.1 = p.1 /\ zlen f.2 = p.2) fs lay.
Definition apart (p q : Z * Z) : bool := (p.1 + p.2 <=? q.1) || (q.1 + q.2 <=? p.1).
Fixpoint layout_ok (n : Z) (lay : list (Z * Z)) : bool :=
  match lay with
  | [] => true
  | p :: lay => (0 <=? p.1) && (0 <=? p.2) && (p.1 + p.2 <=? n) && forallb (apart p) lay && layout_ok n lay
  end.

Lemma apart_disjoint p q : apart p q = true -> disjoint_ranges p.1 p.2 q.1 q.2.
Proof. unfold apart, disjoint_ranges. rewrite orb_true_iff, !Z.leb_le. lia. Qed.

Lemma layout_ok_cons n p lay : layout_ok n (p :: lay) = true ->
  fits p.1 p.2 n /\ Forall (fun q => disjoint_ranges p.1 p.2 q.1 q.2) lay /\ layout_ok n lay = true.
Proof.
  simpl. rewrite !andb_true_iff, !Z.leb_le. intros ((((? & ?) & ?) & Hall) & ?).
  split_and!; [unfold fits; lia| |done]. rewrite forallb_forall in Hall. apply Forall_forall.
  intros q Hq. apply apart_disjoint, Hall, list_elem_of_In, Hq.
Qed.

Lemma patches_zlen fs lay l : laid_out fs lay -> layout_ok (zlen l) lay = true ->
  zlen (patches fs l) = zlen l.
Proof.
  intros Hl. revert l. induction Hl as [|[o b] [o' n'] fs lay [Ho Hn] _ IH]; intros l Hok; [done|].
  apply layout_ok_cons in Hok as (Hf & _ & Hok). simpl in *. subst.
  rewrite IH; rewrite zlen_patch; done.
Qed.

Lemma put_fields_patches fs lay l : laid_out fs lay -> layout_ok (zlen l) lay = true ->
  put_fields fs l = Val (patches fs l).
Proof.
  intros Hl. revert l. induction Hl as [|[o b] [o' n'] fs lay [Ho Hn] _ IH]; intros l Hok; [done|].
  apply layout_ok_cons in Hok as (Hf & _ & Hok). simpl in *. subst.
  rewrite setBytes_val by done. cbn [mbind outcome_bind]. apply IH. by rewrite zlen_patch.
Qed.

Lemma patches_slice_ne fs lay l o n : laid_out fs lay -> layout_ok (zlen l) lay = true ->
  0 <= o -> 0 <= n -> forallb (fun p => apart p (o, n)) lay = true ->
  slice o n (patches fs l) = slice o n l.
Proof.
  intros Hl. revert l. induction Hl as [|[o1 b] [o' n'] fs lay [Ho Hn] _ IH]; intros l Hok ?? Hap; [done|].
  apply layout_ok_cons in Hok as (Hf & _ & Hok). simpl in *. subst.
  apply andb_true_iff in Hap as [Hap Haps]. apply apart_disjoint in Hap. simpl in Hap.
  rewrite IH by (rewrite ?zlen_patch; done). by apply slice_patch_ne.
Qed.

Lemma patches_slice_at fs lay l i o b : laid_out fs lay -> layout_ok (zlen l) lay = true ->
  fs !! i = Some (o, b) -> slice o (zlen b) (patches fs l) = b.
Proof.
  intros Hl. revert l i. induction Hl as [|[o1 b1] [o' n'] fs lay [Ho Hn] Hl IH]; intros l i Hok Hi; [done|].
  apply layout_ok_cons in Hok as (Hf & Hd & Hok). simpl in *. subst.
  destruct i as [|i]; simpl in Hi; [|by eapply IH; [rewrite zlen_patch|]].
  injection Hi as -> ->. pose proof Hf as (? & ? & _).
  rewrite (patches_slice_ne fs lay); [by apply slice_patch_same|done| |lia|lia|].
  - by rewrite zlen_patch.
  - apply forallb_forall. intros [o2 n2] Hq%list_elem_of_In. rewrite Forall_forall in Hd.
    specialize (Hd _ Hq). unfold disjoint_ranges, apart in *. simpl in *.
    rewrite orb_true_iff, !Z.leb_le. lia.
Qed.

(** ** Reading fields back *)
Lemma patches_u64 fs lay l i o v : laid_out fs lay -> layout_ok (zlen l) lay = true ->
  fs !! i = Some (o, le_encode 8 v) -> 0 <= o -> o + 8 <= zlen l -> 0 <= v <= MAX_SAFE_INTEGER ->
  u64_field (patches fs l) o = Val v.
Proof.
  intros Hl Hok Hi Ho Hz Hv. unfold u64_field.
  rewrite getLE64_val by (rewrite ?(patches_zlen fs lay); done). simpl.
  pose proof (patches_slice_at _ _ _ _ _ _ Hl Hok Hi) as Hs. rewrite zlen_le_encode in Hs.
  change (Z.of_nat 8) with 8 in Hs. rewrite Hs, le_decode_encode.
  rewrite Z.mod_small, Number_of_bigint_small; [done|done|].
  unfold MAX_SAFE_INTEGER in Hv. change (256 ^ Z.of_nat 8) with (2 ^ 64). lia.
Qed.

Lemma patches_u32 fs lay l i o v : laid_out fs lay -> layout_ok (zlen l) lay = true ->
  fs !! i = Some (o, le_encode 4 v) -> 0 <= o -> o + 4 <= zlen l -> 0 <= v < 2 ^ 32 ->
  getLE32 (patches fs l) o = Val v.
Proof.
  intros Hl Hok Hi Ho Hz Hv. rewrite getLE32_val by (rewrite ?(patches_zlen fs lay); done).
  pose proof (patches_slice_at _ _ _ _ _ _ Hl Hok Hi) as Hs. rewrite zlen_le_encode in Hs.
  change (Z.of_nat 4) with 4 in Hs. rewrite Hs, le_decode_encode, Z.mod_small; [done|].
  change (256 ^ Z.of_nat 4) with (2 ^ 32). lia.
Qed.

Lemma le_decode_slice_zeros o n m : le_decode (slice o n (zeros m)) = 0.
Proof.
  unfold slice, zeros. rewrite drop_replicate, take_replicate.
  induction (_ `min` _)%nat as [|k IH]; [done|]. simpl. by rewrite IH.
Qed.

Lemma patches_blank fs lay m o n : laid_out fs lay -> 0 <= m -> layout_ok m lay = true -> 0 <= o -> 0 <= n ->
  forallb (fun p => apart p (o, n)) lay = true -> le_decode (slice o n (patches fs (zeros m))) = 0.
Proof.
  intros. rewrite (patches_slice_ne fs lay) by (rewrite ?zlen_zeros by done; done).
  apply le_decode_slice_zeros.
Qed.

(** ** The header's layout *)
Definition base_layout : list (Z * Z) :=
  [(OFF_MAGIC, 8); (OFF_VERSION, 4); (OFF_CAPACITY, 8); (OFF_TABLE_OFFSET, 8); (OFF_LOAD_LIMIT, 8);
   (OFF_SEED, 32); (OFF_PROFILE, 4); (OFF_SLOT_SIZE, 4); (OFF_REGISTRY_OFFSET, 8); (OFF_REGISTRY_CAP, 8)].
Definition sparse_layout : list (Z * Z) :=
  [(OFF_SPARSE_OFFSET, 8); (OFF_SPARSE_CAPACITY, 8); (OFF_SPARSE_LOAD_LIMIT, 8); (OFF_SPARSE_SLOT_SIZE, 4)].
Definition header_layout (c : NormalizedConfig) : list (Z * Z) :=
  base_layout ++ (if profile c =? ProfileSparse then sparse_layout else []).

Lemma header_laid_out c : zlen (seed c) = 32 -> laid_out (header_fields c) (header_layout c).
Proof.
  intros Hs. unfold laid_out, header_fields, header_layout. apply Forall2_app.
  - repeat constructor; done.
  - destruct (_ =? _); repeat constructor.
Qed.

Lemma header_layout_ok c : layout_ok HEADER_SIZE (header_layout c) = true.
Proof. unfold header_layout. by destruct (_ =? _). Qed.

(** What a header can carry. *)
Definition u53 (v : Z) : Prop := 0 <= v <= MAX_SAFE_INTEGER.
Record storable (c : NormalizedConfig) : Prop := mkStorable {
  st_seed : zlen (seed c) = 32;
  st_capacity : u53 (capacity c);
  st_table : u53 (tableOffset c);
  st_limit : u53 (loadLimit c);
  st_profile : 0 <= profile c < 2 ^ 32;
  st_slot : 0 < slotSize c < 2 ^ 32;
  st_registry : u53 (registryOffset c);
  st_registry_cap : u53 (registryCapacity c);
  st_sparse : profile c = ProfileSparse ->
    u53 (sparseOffset c) /\ u53 (sparseCapacity c) /\ u53 (sparseLoadLimit c)
    /\ 0 <= sparseSlotSize c < 2 ^ 32
}.

Lemma encode_header_val c : zlen (seed c) = 32 ->
  encode_header c = Val (patches (header_fields c) (zeros HEADER_SIZE))
  /\ zlen (patches (header_fields c) (zeros HEADER_SIZE)) = HEADER_SIZE.
Proof.
  intros Hs. pose proof (header_laid_out c Hs) as Hl. pose proof (header_layout_ok c) as Hok.
  rewrite <- (zlen_zeros HEADER_SIZE) in Hok by done.
  split; [by eapply put_fields_patches|]. by erewrite patches_zlen.
Qed.

(** Outside the sparse profile the sparse fields stay zero. *)
Lemma header_sparse_blank c o n : zlen (seed c) = 32 -> profile c <> ProfileSparse -> 0x70 <= o -> 0 <= n ->
  le_decode (slice o n (patches (header_fields c) (zeros HEADER_SIZE))) = 0.
Proof.
  intros Hs Hp Ho Hn. pose proof (header_laid_out c Hs) as Hl. pose proof (header_layout_ok c) as Hok.
  apply (patches_blank _ (header_layout c)); try done; [lia|].
  unfold header_layout. rewrite (proj2 (Z.eqb_neq _ _)) by done.
  apply forallb_forall. intros p Hin. simpl in Hin.
  repeat destruct Hin as [<-|Hin]; [..|done]; unfold apart; apply orb_true_iff; left;
    apply Z.leb_le; simpl; unfold OFF_MAGIC, OFF_VERSION, OFF_CAPACITY, OFF_TABLE_OFFSET,
      OFF_LOAD_LIMIT, OFF_SEED, OFF_PROFILE, OFF_SLOT_SIZE, OFF_REGISTRY_OFFSET, OFF_REGISTRY_CAP; lia.
Qed.

Ltac next_field R := rewrite R by (assumption || lia || done); cbn [mbind outcome_bind].

(** [decode_header] reads back what [encode_header] wrote. *)
Lemma decode_encode_header c : storable c ->
  decode_header (patches (header_fields c) (zeros HEADER_SIZE)) = Val (header_config c).
Proof.
  intros [Hs Hcap Htab Hlim Hprof Hslot Hreg Hrc Hsp].
  pose proof (header_laid_out c Hs) as Hl. pose proof (header_layout_ok c) as Hok.
  assert (Hz : zlen (zeros HEADER_SIZE) = HEADER_SIZE) by done.
  assert (Hok' := Hok). rewrite <- Hz in Hok'. pose proof (fun o n => header_sparse_blank c o n Hs) as Hblank.
  set (h := patches _ _) in *. assert (Hh : zlen h = HEADER_SIZE) by (by unfold h; erewrite patches_zlen).
  pose proof (fun i o v => patches_u64 _ _ _ i o v Hl Hok') as R64.
  pose proof (fun i o v => patches_u32 _ _ _ i o v Hl Hok') as R32. rewrite Hz in R64, R32. fold h in R64, R32.
  unfold decode_header.
  assert (Hmagic : slice OFF_MAGIC 8 h = Magic)
    by (apply (patches_slice_at _ _ _ 0%nat OFF_MAGIC Magic Hl Hok'); done).
  assert (Hseed : slice OFF_SEED 32 h = seed c)
    by (rewrite <- Hs; apply (patches_slice_at _ _ _ 5%nat OFF_SEED (seed c) Hl Hok'); done).
  rewrite Hmagic, (proj2 (bytesEqual_eq _ _) eq_refl). cbn [negb].
  next_field (R32 1%nat OFF_VERSION Version). rewrite Z.eqb_refl. cbn [negb].
  rewrite (getLE32_val h OFF_FLAGS) by (rewrite ?Hh; done). cbn [mbind outcome_bind].
  replace (le_decode (slice OFF_FLAGS 4 h)) with 0.
  2: { symmetry. apply (patches_blank _ (header_layout c)); try done. unfold header_layout. by destruct (_ =? _). }
  cbn [Z.eqb negb].
  next_field (R64 2%nat OFF_CAPACITY (capacity c)). next_field (R64 3%nat OFF_TABLE_OFFSET (tableOffset c)).
  next_field (R64 4%nat OFF_LOAD_LIMIT (loadLimit c)). next_field (R32 6%nat OFF_PROFILE (profile c)).
  next_field (R32 7%nat OFF_SLOT_SIZE (slotSize c)). next_field (R64 8%nat OFF_REGISTRY_OFFSET (registryOffset c)).
  next_field (R64 9%nat OFF_REGISTRY_CAP (registryCapacity c)).
  rewrite Hseed, (proj2 (Z.eqb_neq (slotSize c) 0)) by lia. unfold header_config.
  destruct (Z.eqb_spec (profile c) ProfileSparse) as [Hp|Hp].
  - destruct (Hsp Hp) as (? & ? & ? & ?).
    assert (Hf : forall i, header_fields c !! (10 + i)%nat = sparse_fields c !! i)
      by (intros i; unfold header_fields; by rewrite Hp).
    pose proof (Hf 0%nat). pose proof (Hf 1%nat). pose proof (Hf 2%nat). pose proof (Hf 3%nat).
    next_field (R64 10%nat OFF_SPARSE_OFFSET (sparseOffset c)). next_field (R64 11%nat OFF_SPARSE_CAPACITY (sparseCapacity c)).
    next_field (R64 12%nat OFF_SPARSE_LOAD_LIMIT (sparseLoadLimit c)). by next_field (R32 13%nat OFF_SPARSE_SLOT_SIZE (sparseSlotSize c)).
  - unfold u64_field. rewrite !getLE64_val, !getLE32_val by (rewrite ?Hh; done).
    cbn [mbind outcome_bind]. by rewrite !Hblank by done.
Qed.

(** ** What the decoding depends on *)
Definition header_ranges : list (Z * Z) := [(0, 0x28); (0x30, 0x38); (0x70, 0x18); (0x90, 4)].

Lemma decode_header_ext h h' : zlen h = HEADER_SIZE -> zlen h' = HEADER_SIZE ->
  Forall (fun r => slice r.1 r.2 h' = slice r.1 r.2 h) header_ranges ->
  decode_header h' = decode_header h.
Proof.
  intros Hh Hh' Hr. unfold header_ranges in Hr.
  repeat match goal with H : Forall _ (_ :: _) |- _ => apply Forall_cons in H as [? ?] end. simpl in *.
  assert (Hsub : forall r o n, In r header_ranges -> r.1 <= o -> 0 <= n -> o + n <= r.1 + r.2 ->
    slice o n h' = slice o n h).
  { intros r o n Hin Ho Hn Hend.
    assert (Heq : slice r.1 r.2 h' = slice r.1 r.2 h)
      by (destruct Hin as [<-|[<-|[<-|[<-|[]]]]]; done).
    assert (0 <= r.1) by (destruct Hin as [<-|[<-|[<-|[<-|[]]]]]; simpl; lia).
    replace o with (r.1 + (o - r.1)) by lia.
    rewrite <- !(slice_slice r.1 r.2) by lia. by rewrite Heq. }
  unfold decode_header, u64_field. rewrite !getLE64_val, !getLE32_val by (rewrite ?Hh, ?Hh'; done).
  cbn [mbind outcome_bind].
  rewrite (Hsub (0, 0x28) OFF_MAGIC 8), (Hsub (0, 0x28) OFF_VERSION 4), (Hsub (0, 0x28) OFF_FLAGS 4),
    (Hsub (0, 0x28) OFF_CAPACITY 8), (Hsub (0, 0x28) OFF_TABLE_OFFSET 8), (Hsub (0, 0x28) OFF_LOAD_LIMIT 8)
    by (simpl; auto; done).
  rewrite (Hsub (0x30, 0x38) OFF_SEED 32), (Hsub (0x30, 0x38) OFF_PROFILE 4),
    (Hsub (0x30, 0x38) OFF_SLOT_SIZE 4), (Hsub (0x30, 0x38) OFF_REGISTRY_OFFSET 8),
    (Hsub (0x30, 0x38) OFF_REGISTRY_CAP 8) by (simpl; auto; done).
  by rewrite (Hsub (0x70, 0x18) OFF_SPARSE_OFFSET 8), (Hsub (0x70, 0x18) OFF_SPARSE_CAPACITY 8),
    (Hsub (0x70, 0x18) OFF_SPARSE_LOAD_LIMIT 8), (Hsub (0x90, 4) OFF_SPARSE_SLOT_SIZE 4)
    by (simpl; auto; done).
Qed.
