(* ===== verification/RobinHood.v ===== *)
(** * Robin-hood linear probing with backward-shift deletion

    The table algorithms of docs/ACCOUNTS-DRIVE-SPEC.md §6 (the comments of
    drive.ts cite them) on an array of slots, and their correctness: the
    abstract specification the byte-level [#lookup], [#insert] and [#remove]
    of drive.ts are shown to implement in [DriveTable].

    A table is a list of [C] slots. [live] says whether a slot holds a record,
    [keyOf] is the record's key, [home] the slot a key hashes to. The invariant
    [rh] is the robin-hood one: a record that sits past its home has a live
    predecessor displaced at least as far, less one. *)

From Stdlib Require Import ZArith Lia.
From S2P Require Import Prelude.

Section RobinHood.
Context {A K : Type} `{Countable K}.
Variable zero : A.
Variable live : A -> bool.
Variable keyOf : A -> K.
Variable home : K -> Z.
Variable C : Z.

Definition slot_at (T : list A) (i : Z) : A := default zero (T !! Z.to_nat i).
Definition slot_set (T : list A) (i : Z) (s : A) : list A := <[Z.to_nat i := s]> T.

(** [displacement(r@i) = (i - home(key(r))) mod C] *)
Definition displace (s : A) (i : Z) : Z := (i + C - home (keyOf s)) mod C.

(** §6.2, with [n] probes left and [d] the current distance. *)
Fixpoint rh_lookup (n : nat) (T : list A) (k : K) (d : Z) : option (Z * A) :=
  match n with
  | O => None
  | S n =>
      let i := (home k + d) mod C in
      let s := slot_at T i in
      if negb (live s) then None
      else if decide (keyOf s = k) then Some (i, s)
      else if displace s i <? d then None
      else rh_lookup n T k (d + 1)
  end.

(** §6.3: [None] when no empty slot is reached within [n] probes. *)
Fixpoint rh_insert (n : nat) (T : list A) (carry : A) (d : Z) : option (list A) :=
  match n with
  | O => None
  | S n =>
      let i := (home (keyOf carry) + d) mod C in
      let s := slot_at T i in
      if negb (live s) then Some (slot_set T i carry)
      else if displace s i <? d
      then rh_insert n (slot_set T i carry) s (displace s i + 1)
      else rh_insert n T carry (d + 1)
  end.

(** §6.4 from a known slot. *)
Fixpoint rh_remove (n : nat) (T : list A) (i : Z) : option (list A) :=
  match n with
  | O => None
  | S n =>
      let j := (i + 1) mod C in
      let s := slot_at T j in
      if negb (live s) || (displace s j =? 0) then Some (slot_set T i zero)
      else rh_remove n (slot_set T i s) j
  end.

(** The records of a table. *)
Definition records (T : list A) : list A := filter (fun s => live s = true) T.

(** The robin-hood invariant. *)
Definition rh (T : list A) : Prop := forall i, 0 <= i < C ->
  let j := (i + 1) mod C in
  live (slot_at T j) = true -> 0 < displace (slot_at T j) j ->
  live (slot_at T i) = true /\ displace (slot_at T j) j <= displace (slot_at T i) i + 1.

(** A well-formed table: [C] slots, robin-hood order, at most one record per
    key, empty slots all-zero. *)
Record table_wf (T : list A) : Prop := mkTableWf {
  wf_length : zlen T = C;
  wf_rh : rh T;
  wf_nodup : NoDup (keyOf <$> records T);
  wf_zero : forall s, s ∈ T -> live s = false -> s = zero
}.

(** A table as a finite map from keys to records. *)
Definition contents (T : list A) : gmap K A :=
  list_to_map ((fun s => (keyOf s, s)) <$> records T).

Context (Hzero : live zero = false).
Context (Hhome : forall k, 0 <= home k < C).
Context (HC : 2 <= C).

(** ** Slots *)
Lemma slot_at_set T i j s : 0 <= i < zlen T -> 0 <= j ->
  slot_at (slot_set T i s) j = if decide (i = j) then s else slot_at T j.
Proof.
  unfold slot_at, slot_set, zlen. intros Hi Hj. case_decide.
  - subst. by rewrite list_lookup_insert_eq by lia.
  - rewrite list_lookup_insert_ne by lia. done.
Qed.

Lemma zlen_slot_set T i s : zlen (slot_set T i s) = zlen T.
Proof. unfold slot_set, zlen. by rewrite length_insert. Qed.

Lemma slot_at_elem T i : 0 <= i < zlen T -> slot_at T i ∈ T.
Proof.
  unfold slot_at, zlen. intros Hi.
  destruct (lookup_lt_is_Some_2 T (Z.to_nat i)) as [s Hs]; [lia|].
  rewrite Hs. simpl. by eapply list_elem_of_lookup_2.
Qed.

Lemma slot_at_lookup T i : 0 <= i < zlen T -> T !! Z.to_nat i = Some (slot_at T i).
Proof.
  unfold slot_at, zlen. intros Hi.
  destruct (lookup_lt_is_Some_2 T (Z.to_nat i)) as [s Hs]; [lia|]. by rewrite Hs.
Qed.

Lemma displace_bound s i : 0 <= displace s i < C.
Proof. unfold displace. apply Z.mod_pos_bound. lia. Qed.

(** The displacement of the slot at distance [d] from its home. *)
Lemma displace_at s d : 0 <= d < C -> displace s ((home (keyOf s) + d) mod C) = d.
Proof. intros Hd. unfold displace. pose proof (Hhome (keyOf s)). mod_cases. Qed.

Lemma home_displace s i : 0 <= i < C -> (home (keyOf s) + displace s i) mod C = i.
Proof. intros Hi. unfold displace. pose proof (Hhome (keyOf s)). mod_cases. Qed.

Lemma displace_next s i : 0 <= i < C -> displace s i + 1 < C ->
  displace s ((i + 1) mod C) = displace s i + 1.
Proof. unfold displace. pose proof (Hhome (keyOf s)). intros Hi. mod_cases. Qed.

Lemma displace_prev s i : 0 <= i < C -> 0 < displace s ((i + 1) mod C) ->
  displace s i = displace s ((i + 1) mod C) - 1.
Proof. unfold displace. pose proof (Hhome (keyOf s)). intros Hi. mod_cases. Qed.

(** ** Probe chains *)
(** Every slot between a record and its home is live and displaced at least as
    far as its distance from that home. *)
Lemma rh_chain T j (n : nat) : rh T -> 0 <= j < C -> live (slot_at T j) = true ->
  Z.of_nat n <= displace (slot_at T j) j ->
  let e := displace (slot_at T j) j - Z.of_nat n in
  let i := (home (keyOf (slot_at T j)) + e) mod C in
  live (slot_at T i) = true /\ e <= displace (slot_at T i) i.
Proof.
  intros Hrh Hj Hl. set (s := slot_at T j) in *. pose proof (displace_bound s j) as Hd.
  induction n as [|n IH]; intros Hn.
  - rewrite Z.sub_0_r. simpl. rewrite home_displace by done. fold s. split; [done|lia].
  - destruct IH as [IH1 IH2]; [lia|].
    set (e := displace s j - Z.of_nat (S n)).
    set (i := (home (keyOf s) + e) mod C).
    pose proof (Hhome (keyOf s)).
    assert (Hi : 0 <= i < C) by (apply Z.mod_pos_bound; lia).
    assert (Hnext : (home (keyOf s) + (displace s j - Z.of_nat n)) mod C = (i + 1) mod C)
      by (unfold i, e; mod_cases).
    rewrite Hnext in IH1, IH2.
    change (live (slot_at T i) = true /\ e <= displace (slot_at T i) i).
    destruct (Hrh i Hi IH1) as [Hl' Hd']; [lia|]. split; [done|]. cbv zeta in Hd'.
    assert (He : e = displace s j - Z.of_nat n - 1) by (unfold e; lia). lia.
Qed.

Lemma rh_lookup_complete T j : rh T -> 0 <= j < C -> zlen T = C ->
  live (slot_at T j) = true ->
  (forall i, 0 <= i < C -> live (slot_at T i) = true ->
             keyOf (slot_at T i) = keyOf (slot_at T j) -> i = j) ->
  forall n d, 0 <= d <= displace (slot_at T j) j ->
    displace (slot_at T j) j - d < Z.of_nat n ->
    rh_lookup n T (keyOf (slot_at T j)) d = Some (j, slot_at T j).
Proof.
  intros Hrh Hj HT Hl Huniq n. pose proof (displace_bound (slot_at T j) j) as Hd.
  induction n as [|n IH]; intros d Hdd Hn; [lia|]. cbn [rh_lookup].
  set (i := (home (keyOf (slot_at T j)) + d) mod C).
  assert (Hi : 0 <= i < C) by (apply Z.mod_pos_bound; lia).
  destruct (rh_chain T j (Z.to_nat (displace (slot_at T j) j - d))) as [H1 H2]; try done; [lia|].
  rewrite Z2Nat.id in H1, H2 by lia.
  replace (displace (slot_at T j) j - (displace (slot_at T j) j - d)) with d in H1, H2 by lia.
  fold i in H1, H2. rewrite H1. simpl. case_decide as Hk.
  - f_equal. rewrite (Huniq i Hi H1 Hk). done.
  - rewrite (proj2 (Z.ltb_ge _ _)) by lia. apply IH; [|lia].
    destruct (decide (d = displace (slot_at T j) j)) as [->|]; [|lia].
    exfalso. apply Hk. unfold i. by rewrite home_displace.
Qed.

Lemma rh_lookup_sound T k n d i s : rh_lookup n T k d = Some (i, s) ->
  s = slot_at T i /\ live s = true /\ keyOf s = k /\ 0 <= i < C.
Proof.
  revert d. induction n as [|n IH]; intros d; cbn [rh_lookup]; [done|].
  destruct (live (slot_at T ((home k + d) mod C))) eqn:Hl; cbn [negb]; [|discriminate].
  case_decide as Hk.
  - intros [= <- <-]. split_and!; auto; apply Z.mod_pos_bound; lia.
  - destruct (_ <? _); [done|]. apply IH.
Qed.

(** ** Updating a slot keeps the invariant *)
Lemma prev_next i p : 0 <= i < C -> 0 <= p < C -> (i + 1) mod C = p -> i <> p.
Proof. intros ? ?. mod_cases. Qed.

Lemma rh_set T p c : rh T -> zlen T = C -> 0 <= p < C -> live c = true ->
  (forall q, 0 <= q < C -> (q + 1) mod C = p -> 0 < displace c p ->
     live (slot_at T q) = true /\ displace c p <= displace (slot_at T q) q + 1) ->
  (live (slot_at T ((p + 1) mod C)) = true ->
     displace (slot_at T ((p + 1) mod C)) ((p + 1) mod C) <= displace c p + 1) ->
  rh (slot_set T p c).
Proof.
  intros Hrh HT Hp Hc Hprev Hnext i Hi.
  assert (Hj : 0 <= (i + 1) mod C < C) by (apply Z.mod_pos_bound; lia).
  cbv zeta. rewrite !slot_at_set by lia.
  destruct (decide (p = (i + 1) mod C)) as [Hpj|Hpj].
  - rewrite decide_False by (pose proof (prev_next i p Hi Hp); lia).
    intros _ Hd. rewrite <- Hpj in *. by apply Hprev.
  - intros Hl Hd. case_decide as Hpi; [subst i|by apply Hrh]. auto.
Qed.

Lemma rh_zero T i : rh T -> zlen T = C -> 0 <= i < C ->
  (live (slot_at T ((i + 1) mod C)) = true ->
   displace (slot_at T ((i + 1) mod C)) ((i + 1) mod C) = 0) ->
  rh (slot_set T i zero).
Proof.
  intros Hrh HT Hi Hnext q Hq.
  assert (Hj : 0 <= (q + 1) mod C < C) by (apply Z.mod_pos_bound; lia).
  cbv zeta. rewrite !slot_at_set by lia.
  case_decide; [by rewrite Hzero|]. intros Hl Hd.
  case_decide as Hiq; [|by apply Hrh]. subst q. specialize (Hnext Hl). lia.
Qed.

(** ** Contents *)
Lemma records_cons s T : records (s :: T) = if live s then s :: records T else records T.
Proof. unfold records. rewrite filter_cons. destruct (live s); by case_decide. Qed.

Lemma slot_perm T i : 0 <= i < zlen T -> T ≡ₚ slot_at T i :: delete (Z.to_nat i) T.
Proof. intros Hi. apply delete_Permutation. by apply slot_at_lookup. Qed.

Lemma slot_set_perm T i s : 0 <= i < zlen T -> slot_set T i s ≡ₚ s :: delete (Z.to_nat i) T.
Proof.
  intros Hi. unfold slot_set, zlen in *.
  rewrite insert_take_drop by lia. rewrite delete_take_drop. by rewrite Permutation_middle.
Qed.

Lemma records_perm T T' : T ≡ₚ T' -> records T ≡ₚ records T'.
Proof. intros Hp. unfold records. by rewrite Hp. Qed.

Lemma elem_of_records s T : s ∈ records T <-> live s = true /\ s ∈ T.
Proof. unfold records. by rewrite list_elem_of_filter. Qed.

Lemma slot_set_elem T i s x : 0 <= i < zlen T -> x ∈ slot_set T i s -> x = s \/ x ∈ T.
Proof.
  intros Hi. rewrite slot_set_perm, elem_of_cons by done. intros [->|Hx]; [by left|].
  right. rewrite (slot_perm T i) by done. apply elem_of_cons. by right.
Qed.

(** In a table without duplicate keys a key is in one slot only. *)
Lemma nodup_unique T i j : NoDup (keyOf <$> records T) -> 0 <= i < zlen T -> 0 <= j < zlen T ->
  live (slot_at T i) = true -> live (slot_at T j) = true ->
  keyOf (slot_at T i) = keyOf (slot_at T j) -> i = j.
Proof.
  intros Hnd Hi Hj Hli Hlj Hk. destruct (decide (i = j)) as [|Hne]; [done|exfalso].
  revert Hnd. rewrite (records_perm _ _ (slot_perm T i Hi)), records_cons, Hli. simpl.
  rewrite NoDup_cons. intros [Hnot _]. apply Hnot. apply list_elem_of_fmap.
  exists (slot_at T j). split; [done|]. apply elem_of_records. split; [done|].
  apply list_elem_of_lookup.
  pose proof (slot_at_lookup T j Hj) as Hlook.
  destruct (decide (j < i)).
  - exists (Z.to_nat j). rewrite list_lookup_delete_lt by lia. done.
  - exists (Z.to_nat j - 1)%nat. rewrite list_lookup_delete_ge by lia.
    replace (S (Z.to_nat j - 1)) with (Z.to_nat j) by lia. done.
Qed.

(** The successor of a slot is never displaced more than one past it. *)
Lemma rh_next_le T p d : rh T -> 0 <= p < C -> 0 <= d ->
  (live (slot_at T p) = true -> displace (slot_at T p) p <= d) ->
  live (slot_at T ((p + 1) mod C)) = true ->
  displace (slot_at T ((p + 1) mod C)) ((p + 1) mod C) <= d + 1.
Proof.
  intros Hrh Hp Hd Hle Hl.
  destruct (decide (0 < displace (slot_at T ((p + 1) mod C)) ((p + 1) mod C))); [|lia].
  destruct (Hrh p Hp Hl) as [Hlp Hdp]; [done|]. specialize (Hle Hlp). cbv zeta in Hdp. lia.
Qed.

(** ** Insertion *)
Lemma records_set_live T p c : 0 <= p < zlen T -> live c = true ->
  records (slot_set T p c) ≡ₚ c :: records (delete (Z.to_nat p) T).
Proof.
  intros Hp Hc. rewrite (records_perm _ _ (slot_set_perm T p c Hp)), records_cons. by rewrite Hc.
Qed.

Lemma records_at T p : 0 <= p < zlen T ->
  records T ≡ₚ if live (slot_at T p) then slot_at T p :: records (delete (Z.to_nat p) T)
              else records (delete (Z.to_nat p) T).
Proof. intros Hp. by rewrite (records_perm _ _ (slot_perm T p Hp)), records_cons. Qed.

(** The condition under which a record may be placed at distance [d] from its
    home: its predecessor is live and displaced far enough. *)
Definition may_sit (T : list A) (c : A) (d : Z) : Prop :=
  forall q, 0 <= q < C -> (q + 1) mod C = (home (keyOf c) + d) mod C -> 0 < d ->
    live (slot_at T q) = true /\ d <= displace (slot_at T q) q + 1.

Lemma next_inj p q : 0 <= p < C -> 0 <= q < C -> (q + 1) mod C = (p + 1) mod C -> q = p.
Proof. mod_cases. Qed.

(** Probes left before the empty slot [e]. *)
Definition to_empty (e p : Z) : Z := (e + C - p) mod C.

Lemma to_empty_next e p : 0 <= e < C -> 0 <= p < C -> p <> e ->
  to_empty e ((p + 1) mod C) = to_empty e p - 1 /\ 0 < to_empty e p < C.
Proof. unfold to_empty. intros. split; mod_cases. Qed.

(** One step further along the probe. *)
Lemma probe_next k d p : (home k + d) mod C = p -> (home k + (d + 1)) mod C = (p + 1) mod C.
Proof. intros <-. by rewrite Zplus_mod_idemp_l, Z.add_assoc. Qed.

(** The carried record may take a slot that is free or holds a richer one. *)
Lemma rh_take_slot T carry d p : rh T -> zlen T = C -> live carry = true -> 0 <= d < C ->
  (home (keyOf carry) + d) mod C = p -> may_sit T carry d ->
  displace (slot_at T p) p < d \/ live (slot_at T p) = false -> rh (slot_set T p carry).
Proof.
  intros Hrh HT Hc Hd Hp Hsit Hlt. assert (Hpb : 0 <= p < C) by (subst p; apply Z.mod_pos_bound; lia).
  assert (Hdc : displace carry p = d) by (subst p; apply displace_at; lia).
  apply rh_set; [done..| |]; rewrite Hdc.
  - intros q Hq Hqp Hpos. rewrite <- Hp in Hqp. by apply Hsit.
  - apply rh_next_le; [done..|lia|]. intros Hl. destruct Hlt; [lia|congruence].
Qed.

Lemma rh_insert_spec n T carry d e :
  rh T -> zlen T = C -> live carry = true -> 0 <= e < C -> live (slot_at T e) = false ->
  0 <= d -> d + to_empty e ((home (keyOf carry) + d) mod C) < C ->
  to_empty e ((home (keyOf carry) + d) mod C) < Z.of_nat n -> may_sit T carry d ->
  exists T', rh_insert n T carry d = Some T' /\ zlen T' = C /\ rh T'
    /\ records T' ≡ₚ carry :: records T
    /\ (forall s, s ∈ T' -> live s = false -> s ∈ T).
Proof.
  revert T carry d. induction n as [|n IH];
    intros T carry d Hrh HT Hc He Hdead Hd Hsum Hn Hsit; cbn [rh_insert];
    set (p := (home (keyOf carry) + d) mod C) in *;
    assert (Hte : 0 <= to_empty e p) by (apply Z.mod_pos_bound; lia); [lia|].
  assert (Hp : 0 <= p < C) by (apply Z.mod_pos_bound; lia).
  assert (Hdc : displace carry p = d) by (apply displace_at; lia).
  pose proof (rh_take_slot T carry d p Hrh HT Hc ltac:(lia) eq_refl Hsit) as Hset.
  destruct (live (slot_at T p)) eqn:Hl; cbn [negb].
  - assert (Hpe : p <> e) by (intros ->; congruence).
    destruct (to_empty_next e p He Hp Hpe) as [Hte1 Hte2].
    destruct (Z.ltb_spec (displace (slot_at T p) p) d) as [Hlt|Hge].
    + pose proof (displace_bound (slot_at T p) p) as Hdb.
      pose proof (probe_next (keyOf (slot_at T p)) _ p (home_displace (slot_at T p) p Hp)) as Hpos.
      destruct (IH (slot_set T p carry) (slot_at T p) (displace (slot_at T p) p + 1))
        as (T' & Hr & HT' & Hrh' & Hperm & Hz).
      * apply Hset. by left.
      * by rewrite zlen_slot_set.
      * done.
      * done.
      * rewrite slot_at_set by lia. by rewrite decide_False.
      * lia.
      * rewrite Hpos. lia.
      * rewrite Hpos. lia.
      * intros q Hq Hqp _. rewrite Hpos in Hqp. apply next_inj in Hqp as ->; [|done..].
        rewrite slot_at_set by lia. rewrite decide_True by done. split; [done|lia].
      * exists T'. split_and!; try done.
        -- rewrite Hperm, (records_at T p) by lia. rewrite Hl, records_set_live by (done || lia).
           apply Permutation_swap.
        -- intros s Hs Hsd. destruct (slot_set_elem T p carry s) as [->|]; auto; [lia|congruence].
    + pose proof (probe_next (keyOf carry) d p eq_refl) as Hpos.
      apply IH; try done; try lia; rewrite ?Hpos; try lia.
      intros q Hq Hqp _. rewrite Hpos in Hqp. apply next_inj in Hqp as ->; [|done..].
      split; [done|lia].
  - exists (slot_set T p carry). split_and!.
    + done.
    + by rewrite zlen_slot_set.
    + apply Hset. by right.
    + rewrite records_set_live by (done || lia). by rewrite (records_at T p), Hl by lia.
    + intros s Hs Hsd. destruct (slot_set_elem T p carry s) as [->|]; auto; [lia|congruence].
Qed.

(** ** Removal *)
Lemma records_shift T i j : 0 <= i < zlen T -> 0 <= j < zlen T ->  i <> j ->
  delete (Z.to_nat j) (slot_set T i (slot_at T j)) ≡ₚ delete (Z.to_nat i) T.
Proof.
  intros Hi Hj Hij. apply (inj (cons (slot_at T j))).
  rewrite <- (slot_set_perm T i) by done. symmetry.
  rewrite (slot_perm (slot_set T i (slot_at T j)) j) at 1 by (rewrite zlen_slot_set; lia).
  rewrite slot_at_set by lia. by rewrite decide_False by congruence.
Qed.

Lemma rh_shift T i : rh T -> zlen T = C -> 0 <= i < C ->
  let j := (i + 1) mod C in
  live (slot_at T j) = true -> displace (slot_at T j) j <> 0 ->
  rh (slot_set T i (slot_at T j)).
Proof.
  intros Hrh HT Hi j Hl Hnz. assert (Hj : 0 <= j < C) by (apply Z.mod_pos_bound; lia).
  pose proof (displace_bound (slot_at T j) j).
  destruct (Hrh i Hi Hl) as [Hli Hdi]; [fold j; lia|]. fold j in Hdi.
  pose proof (displace_prev (slot_at T j) i Hi ltac:(fold j; lia)) as Hprev. fold j in Hprev.
  apply rh_set; [done..| |].
  - intros q Hq <- Hpos. destruct (Hrh q Hq Hli) as [Hlq Hdq]; [lia|]. cbv zeta in Hdq.
    split; [done|lia].
  - intros _. fold j. lia.
Qed.

Lemma rh_remove_spec n T i e :
  rh T -> zlen T = C -> 0 <= i < C -> 0 <= e < C -> e <> i -> live (slot_at T e) = false ->
  to_empty e i <= Z.of_nat n ->
  exists T', rh_remove n T i = Some T' /\ zlen T' = C /\ rh T'
    /\ records T' ≡ₚ records (delete (Z.to_nat i) T)
    /\ (forall s, s ∈ T' -> live s = false -> s = zero \/ s ∈ T).
Proof.
  revert T i. induction n as [|n IH]; intros T i Hrh HT Hi He Hne Hdead Hn; cbn [rh_remove];
    destruct (to_empty_next e i He Hi ltac:(congruence)) as [Hte1 Hte2]; [lia|].
  set (j := (i + 1) mod C) in *. assert (Hj : 0 <= j < C) by (apply Z.mod_pos_bound; lia).
  destruct (negb (live (slot_at T j)) || (displace (slot_at T j) j =? 0)) eqn:Hstop.
  - exists (slot_set T i zero). split_and!; [done|by rewrite zlen_slot_set| | |].
    + apply rh_zero; [done..|]. fold j. intros Hl. rewrite Hl in Hstop. by apply Z.eqb_eq.
    + rewrite (records_perm _ _ (slot_set_perm T i zero ltac:(lia))), records_cons. by rewrite Hzero.
    + intros s Hs _. apply (slot_set_elem T i); [lia|done].
  - apply orb_false_iff in Hstop as [Hl%negb_false_iff Hnz%Z.eqb_neq].
    assert (Hij : i <> j) by (by apply prev_next).
    destruct (IH (slot_set T i (slot_at T j)) j) as (T' & Hr & HT' & Hrh' & Hperm & Hz); try done.
    + by apply rh_shift.
    + by rewrite zlen_slot_set.
    + intros ->. congruence.
    + rewrite slot_at_set by lia. by rewrite decide_False by congruence.
    + lia.
    + exists T'. split_and!; try done.
      * rewrite Hperm. apply records_perm, records_shift; (done || lia).
      * intros s Hs Hsd. destruct (Hz s Hs Hsd) as [->|Hin]; [by left|].
        destruct (slot_set_elem T i (slot_at T j) s) as [->|]; auto; [lia|congruence].
Qed.

(** ** Well-formed tables *)
Lemma records_length T : (length (records T) <= length T)%nat.
Proof. apply length_filter. Qed.

(** A table that is not full has an empty slot. *)
Lemma empty_slot T : zlen T = C -> zlen (records T) < C ->
  exists e, 0 <= e < C /\ live (slot_at T e) = false.
Proof.
  intros HT Hlt.
  assert (Hex : exists s, s ∈ T /\ live s = false).
  { assert (Hl : (length (records T) < length T)%nat) by (unfold zlen in *; lia).
    revert Hl. clear HT Hlt. induction T as [|s T IH]; [simpl; lia|].
    rewrite records_cons. destruct (live s) eqn:Hs; simpl; intros Hl.
    - destruct IH as [x [??]]; [lia|]. exists x. split; [by right|done].
    - exists s. split; [by left|done]. }
  destruct Hex as (s & Hs & Hd). apply list_elem_of_lookup in Hs as [i Hi].
  exists (Z.of_nat i). pose proof (lookup_lt_Some _ _ _ Hi). unfold zlen in HT.
  split; [lia|]. unfold slot_at. by rewrite Nat2Z.id, Hi.
Qed.

Lemma insert_wf T r : table_wf T -> live r = true -> keyOf r ∉ keyOf <$> records T ->
  zlen (records T) < C ->
  exists T', rh_insert (Z.to_nat C) T r 0 = Some T' /\ table_wf T'
    /\ records T' ≡ₚ r :: records T.
Proof.
  intros [HT Hrh Hnd Hz] Hl Hnew Hroom. destruct (empty_slot T HT Hroom) as (e & He & Hdead).
  pose proof (Hhome (keyOf r)).
  assert (Hb : 0 <= to_empty e ((home (keyOf r) + 0) mod C) < C) by (apply Z.mod_pos_bound; lia).
  destruct (rh_insert_spec (Z.to_nat C) T r 0 e) as (T' & Hr & HT' & Hrh' & Hp & Hz');
    try done; try lia.
  exists T'. split_and!; try done. constructor; [done..| |].
  - rewrite Hp. simpl. by constructor.
  - eauto.
Qed.

Lemma remove_wf T i : table_wf T -> 0 <= i < C -> live (slot_at T i) = true ->
  zlen (records T) < C ->
  exists T', rh_remove (Z.to_nat C) T i = Some T' /\ table_wf T'
    /\ records T ≡ₚ slot_at T i :: records T'.
Proof.
  intros [HT Hrh Hnd Hz] Hi Hl Hroom. destruct (empty_slot T HT Hroom) as (e & He & Hdead).
  assert (Hei : e <> i) by (intros ->; congruence).
  destruct (to_empty_next e i He Hi ltac:(congruence)) as [_ Hb].
  destruct (rh_remove_spec (Z.to_nat C) T i e) as (T' & Hr & HT' & Hrh' & Hp & Hz');
    try done; try lia.
  assert (Hrec : records T ≡ₚ slot_at T i :: records T').
  { rewrite Hp, (records_at T i), Hl by lia. done. }
  exists T'. split_and!; try done. constructor; [done..| |].
  - rewrite Hrec in Hnd. simpl in Hnd. by apply NoDup_cons in Hnd as [_ ?].
  - intros s Hs Hsd. destruct (Hz' s Hs Hsd); eauto.
Qed.

(** Overwriting a record with one of the same key keeps the table well-formed. *)
Lemma update_wf T i s : table_wf T -> 0 <= i < C -> live (slot_at T i) = true ->
  live s = true -> keyOf s = keyOf (slot_at T i) ->
  table_wf (slot_set T i s) /\
  records (slot_set T i s) ≡ₚ s :: records (delete (Z.to_nat i) T) /\
  records T ≡ₚ slot_at T i :: records (delete (Z.to_nat i) T).
Proof.
  intros [HT Hrh Hnd Hz] Hi Hl Hls Hk.
  assert (Hd : forall p, displace s p = displace (slot_at T i) p)
    by (intros; unfold displace; by rewrite Hk).
  assert (Hold : records T ≡ₚ slot_at T i :: records (delete (Z.to_nat i) T))
    by (rewrite (records_at T i), Hl by lia; done).
  assert (Hnew : records (slot_set T i s) ≡ₚ s :: records (delete (Z.to_nat i) T))
    by (apply records_set_live; (done || lia)).
  split_and!; try done. constructor.
  - by rewrite zlen_slot_set.
  - pose proof (displace_bound (slot_at T i) i).
    apply rh_set; try done; rewrite Hd.
    + intros q Hq <- Hpos. by apply Hrh.
    + apply rh_next_le; (done || lia).
  - rewrite Hnew. rewrite Hold in Hnd. simpl in *. by rewrite Hk.
  - intros x Hx Hxd. destruct (slot_set_elem T i s x) as [->|]; auto; [lia|congruence].
Qed.

(** Lookup answers exactly what the map holds. *)
Lemma contents_Some T k s : NoDup (keyOf <$> records T) ->
  contents T !! k = Some s <-> s ∈ T /\ live s = true /\ keyOf s = k.
Proof.
  intros Hnd. unfold contents. rewrite <- elem_of_list_to_map.
  - rewrite list_elem_of_fmap. split.
    + intros (x & [= -> ->] & [Hl Hin]%elem_of_records). done.
    + intros (? & ? & <-). exists s. split; [done|]. by apply elem_of_records.
  - by rewrite <- list_fmap_compose.
Qed.

Lemma rh_lookup_contents T k : table_wf T ->
  contents T !! k = snd <$> rh_lookup (Z.to_nat C) T k 0.
Proof.
  intros [HT Hrh Hnd Hz].
  destruct (rh_lookup (Z.to_nat C) T k 0) as [[i s]|] eqn:Hr; simpl.
  - apply rh_lookup_sound in Hr as (-> & Hl & Hk & Hi).
    apply contents_Some; [done|]. split_and!; [apply slot_at_elem; lia|done..].
  - apply eq_None_not_Some. intros [s Hs]. apply contents_Some in Hs as (Hin & Hl & <-); [|done].
    apply list_elem_of_lookup in Hin as [n Hn]. pose proof (lookup_lt_Some _ _ _ Hn) as Hlt.
    unfold zlen in HT.
    assert (Hat : slot_at T (Z.of_nat n) = s) by (unfold slot_at; by rewrite Nat2Z.id, Hn).
    pose proof (displace_bound s (Z.of_nat n)).
    rewrite <- Hat, (rh_lookup_complete T (Z.of_nat n)) in Hr; rewrite ?Hat; try done; try lia.
    intros i Hi Hli Hki. apply (nodup_unique T); unfold zlen; rewrite ?Hat; (done || lia).
Qed.

Lemma contents_perm T l : NoDup (keyOf <$> records T) -> records T ≡ₚ l ->
  contents T = list_to_map ((fun s => (keyOf s, s)) <$> l).
Proof.
  intros Hnd Hp. apply list_to_map_proper.
  - by rewrite <- list_fmap_compose.
  - by rewrite Hp.
Qed.

Lemma contents_cons T r T' : NoDup (keyOf <$> records T') -> records T' ≡ₚ r :: records T ->
  contents T' = <[keyOf r := r]> (contents T).
Proof. intros Hnd Hp. by rewrite (contents_perm _ _ Hnd Hp). Qed.

Lemma contents_uncons T r T' : NoDup (keyOf <$> records T) -> records T ≡ₚ r :: records T' ->
  contents T' = delete (keyOf r) (contents T).
Proof.
  intros Hnd Hp. rewrite (contents_perm _ _ Hnd Hp). simpl. rewrite delete_insert_id; [done|].
  apply not_elem_of_list_to_map_1. rewrite <- list_fmap_compose.
  rewrite Hp in Hnd. simpl in Hnd. by apply NoDup_cons in Hnd as [? _].
Qed.

Lemma contents_update T i s : table_wf T -> 0 <= i < C -> live (slot_at T i) = true ->
  live s = true -> keyOf s = keyOf (slot_at T i) ->
  contents (slot_set T i s) = <[keyOf s := s]> (contents T).
Proof.
  intros Hwf Hi Hl Hls Hk.
  destruct (update_wf T i s Hwf Hi Hl Hls Hk) as (Hwf' & Hn & Ho).
  rewrite (contents_perm _ _ (wf_nodup _ Hwf') Hn), (contents_perm _ _ (wf_nodup _ Hwf) Ho).
  simpl. rewrite Hk. by rewrite insert_insert_eq.
Qed.

Lemma contents_size T : NoDup (keyOf <$> records T) -> Z.of_nat (size (contents T)) = zlen (records T).
Proof.
  unfold zlen, contents. induction (records T) as [|r l IH]; [done|].
  rewrite !fmap_cons, NoDup_cons. intros [Hn Hnd]. cbn [list_to_map fst snd foldr].
  rewrite map_size_insert_None.
  { change (Z.of_nat (length (r :: l))) with (Z.of_nat (S (length l))).
    rewrite !Nat2Z.inj_succ. f_equal. by apply IH. }
  apply not_elem_of_list_to_map_1. by rewrite <- list_fmap_compose.
Qed.

Lemma contents_fresh T k : table_wf T -> contents T !! k = None -> k ∉ keyOf <$> records T.
Proof.
  intros Hwf Hn. unfold contents in Hn. apply not_elem_of_list_to_map_2 in Hn.
  by rewrite <- list_fmap_compose in Hn.
Qed.

(** An all-empty table is well-formed and holds nothing. *)
Lemma empty_wf : table_wf (replicate (Z.to_nat C) zero) /\ records (replicate (Z.to_nat C) zero) = [].
Proof.
  assert (Hr : records (replicate (Z.to_nat C) zero) = []).
  { induction (Z.to_nat C) as [|n IH]; [done|]. simpl replicate. by rewrite records_cons, Hzero. }
  split; [|done]. constructor.
  - by apply zlen_replicate; lia.
  - intros i Hi j Hl. exfalso. revert Hl. unfold slot_at.
    assert (0 <= j < C) by (apply Z.mod_pos_bound; lia).
    rewrite lookup_replicate_2 by lia. simpl. by rewrite Hzero.
  - rewrite Hr. constructor.
  - intros s Hs _. by apply elem_of_replicate in Hs as [-> _].
Qed.
End RobinHood.
