(* ===== verification/DriveTable.v ===== *)
(** * The drive's hash tables, byte by byte

    The [Drive] class of accounts-drive/js/src/drive.ts up to its tables:
    [home], [sparseKey], the counters, the [Table] descriptors, [#readSlot],
    [#writeSlot], [#live], [#displacement], [#lookup], [#insert] and
    [#remove], over any [Store]. The second half shows that on a store holding
    an image they implement the algorithms of [RobinHood] on the table's
    slots, and hence a finite map. *)

From Stdlib Require Import ZArith Lia.
From S2P Require Import Prelude Bytes Store DriveConfig RobinHood.

(** [keccak_256] of @noble/hashes; [keccakHash] feeds it the concatenation of the
    chunks it is given (keccak.ts). *)
Class Keccak : Type := keccak_256 : bytes -> bytes.
Class KeccakLaws {HK : Keccak} : Prop := {
  keccak_length x : zlen (keccak_256 x) = 32;
  keccak_bytes x : Forall is_byte (keccak_256 x)
}.

Definition keccak256 {HK : Keccak} (data : list bytes) : bytes := keccak_256 (concat data).

(** [Number(getLE64(h, 0) % BigInt(capacity))] *)
Definition home {HK : Keccak} (seed key : bytes) (capacity : Z) : outcome Z :=
  h ← getLE64 (keccak256 [seed; key]) 0;
  if capacity =? 0 then Exn (JsError "Division by zero")
  else Val (Number_of_bigint (Z.rem h capacity)).

Definition sparseKey (id : Z) (addr : bytes) : outcome bytes :=
  setBytes (Z.land id 255 :: Z.land (Z.shiftr id 8) 255 :: zeros 20) addr 2.

Record Token : Type := mkToken { tok_address : bytes; tok_width : Z }.

(** ** State of an open drive *)
Record Drive (S : Type) : Type := mkDrive {
  store : S;
  cfg : NormalizedConfig;
  tokens_ : list Token;
  colOff : list Z
}.
Arguments mkDrive {S}.
Arguments store {S}.
Arguments cfg {S}.
Arguments tokens_ {S}.
Arguments colOff {S}.

Definition with_store {S} (s : S) (d : Drive S) : Drive S :=
  mkDrive s (cfg d) (tokens_ d) (colOff d).
Definition with_tokens {S} (ts : list Token) (cs : list Z) (d : Drive S) : Drive S :=
  mkDrive (store d) (cfg d) ts cs.
Definition on_store {S A} (m : M S A) : M (Drive S) A := zoom store with_store m.

(** A table descriptor. *)
Record Table : Type := mkTable {
  t_base : Z;
  t_capacity : Z;
  t_slotSize : Z;
  t_countOff : Z;
  t_limit : Z;
  t_keyOf : bytes -> bytes;
  t_liveOff : Z
}.

Definition accountsTable (c : NormalizedConfig) : Table := {|
  t_base := tableOffset c;
  t_capacity := capacity c;
  t_slotSize := slotSize c;
  t_countOff := OFF_LIVE_COUNT;
  t_limit := loadLimit c;
  t_keyOf := slice 0 20;
  t_liveOff := 0
|}.

Definition sparse_keyOf (s : bytes) : bytes :=
  patch 2 (slice 4 20 s) (patch 0 (slice 0 2 s) (zeros 22)).

Definition sparseTable (c : NormalizedConfig) : Table := {|
  t_base := sparseOffset c;
  t_capacity := sparseCapacity c;
  t_slotSize := sparseSlotSize c;
  t_countOff := OFF_SPARSE_LIVE_COUNT;
  t_limit := sparseLoadLimit c;
  t_keyOf := sparse_keyOf;
  t_liveOff := 4
|}.

Definition slot_live (t : Table) (slot : bytes) : bool := negb (isZero (slice (t_liveOff t) 20 slot)).

Section Operations.
Context {S : Type} {HS : Store S} {HK : Keccak}.

(** ** Counters *)
Definition counter (off : Z) : M (Drive S) Z :=
  b ← on_store (readAt off 8); liftO (getLE64 b 0).
Definition setCounter (off v : Z) : M (Drive S) unit :=
  b ← liftO (setLE64 (zeros 8) 0 v); on_store (writeAt off b).

(** ** Slots *)
Definition readSlot (t : Table) (i : Z) : M (Drive S) bytes :=
  on_store (readAt (t_base t + t_slotSize t * i) (t_slotSize t)).
Definition writeSlot (t : Table) (i : Z) (s : bytes) : M (Drive S) unit :=
  on_store (writeAt (t_base t + t_slotSize t * i) s).
Definition drive_home (key : bytes) (cap : Z) : M (Drive S) Z := fun d =>
  liftO (home (seed (cfg d)) key cap) d.
Definition displacement (t : Table) (slot : bytes) (at_ : Z) : M (Drive S) Z :=
  h ← drive_home (t_keyOf t slot) (t_capacity t);
  mret ((at_ + t_capacity t - h) mod t_capacity t).

(** ** Lookup (§6.2): [n] is how many probes the loop bound leaves. *)
Fixpoint lookup_loop (n : nat) (t : Table) (key : bytes) (h dist : Z)
    : M (Drive S) (option (Z * bytes)) :=
  match n with
  | O => mret None
  | Datatypes.S n =>
      let i := (h + dist) mod t_capacity t in
      slot ← readSlot t i;
      if negb (slot_live t slot) then mret None
      else if bytesEqual (t_keyOf t slot) key then mret (Some (i, slot))
      else
        disp ← displacement t slot i;
        if disp <? dist then mret None else lookup_loop n t key h (dist + 1)
  end.
Definition lookup (t : Table) (key : bytes) : M (Drive S) (option (Z * bytes)) :=
  h ← drive_home key (t_capacity t);
  lookup_loop (Z.to_nat (t_capacity t)) t key h 0.

(** ** Insertion (§6.3): the loop has no bound of its own. After [t_capacity]
    steps it has seen every slot live, swaps keep them live, and it would run
    forever. *)
Fixpoint insert_loop (n : nat) (t : Table) (carry : bytes) (h dist : Z) : M (Drive S) unit :=
  match n with
  | O => diverge
  | Datatypes.S n =>
      let i := (h + dist) mod t_capacity t in
      slot ← readSlot t i;
      if negb (slot_live t slot) then
        writeSlot t i carry;;
        c ← counter (t_countOff t);
        setCounter (t_countOff t) (c + 1)
      else
        disp ← displacement t slot i;
        if disp <? dist then
          writeSlot t i carry;;
          h' ← drive_home (t_keyOf t slot) (t_capacity t);
          insert_loop n t slot h' (disp + 1)
        else insert_loop n t carry h (dist + 1)
  end.
Definition insert (t : Table) (rec : bytes) : M (Drive S) unit :=
  h ← drive_home (t_keyOf t rec) (t_capacity t);
  insert_loop (Z.to_nat (t_capacity t)) t rec h 0.

(** ** Removal (§6.4, backward shift) *)
Fixpoint remove_loop (n : nat) (t : Table) (i : Z) : M (Drive S) unit :=
  match n with
  | O => diverge
  | Datatypes.S n =>
      let j := (i + 1) mod t_capacity t in
      next ← readSlot t j;
      stop ← (if negb (slot_live t next) then mret true
              else disp ← displacement t next j; mret (disp =? 0));
      if (stop : bool) then
        writeSlot t i (zeros (t_slotSize t));;
        c ← counter (t_countOff t);
        setCounter (t_countOff t) (c - 1)
      else
        writeSlot t i next;;
        remove_loop n t j
  end.
Definition remove (t : Table) (i : Z) : M (Drive S) unit :=
  remove_loop (Z.to_nat (t_capacity t)) t i.
End Operations.

(** * Tables of an image *)

(** The slots of table [t] in a drive image. *)
Definition slots (t : Table) (img : bytes) : list bytes :=
  (fun i => slice (t_base t + t_slotSize t * i) (t_slotSize t) img) <$> seqZ 0 (t_capacity t).
Definition count_at (off : Z) (img : bytes) : Z := le_decode (slice off 8 img).
(** The slot a key hashes to. *)
Definition home_of {HK : Keccak} (sd : bytes) (cap : Z) (key : bytes) : Z :=
  le_decode (slice 0 8 (keccak256 [sd; key])) mod cap.

Abbreviation t_at t T i := (slot_at (zeros (t_slotSize t)) T i).
Abbreviation t_lookup sd t := (rh_lookup (zeros (t_slotSize t)) (slot_live t) (t_keyOf t)
                                (home_of sd (t_capacity t)) (t_capacity t)).
Abbreviation t_insert sd t := (rh_insert (zeros (t_slotSize t)) (slot_live t) (t_keyOf t)
                                (home_of sd (t_capacity t)) (t_capacity t)).
Abbreviation t_remove sd t := (rh_remove (zeros (t_slotSize t)) (slot_live t) (t_keyOf t)
                                (home_of sd (t_capacity t)) (t_capacity t)).
Abbreviation t_wf sd t := (table_wf (zeros (t_slotSize t)) (slot_live t) (t_keyOf t)
                            (home_of sd (t_capacity t)) (t_capacity t)).
Abbreviation t_records t := (records (slot_live t)).
(** The finite map a table's bytes stand for: key to slot bytes. *)
Definition table_map (t : Table) (img : bytes) : gmap bytes bytes :=
  contents (slot_live t) (t_keyOf t) (slots t img).

(** The table's slots and counter lie inside a drive of [len] bytes, apart
    from each other. *)
Record table_geo (len : Z) (t : Table) : Prop := mkTableGeo {
  tg_capacity : 2 <= t_capacity t <= MAX_SAFE_INTEGER;
  tg_slot : 0 < t_slotSize t;
  tg_base : HEADER_SIZE <= t_base t;
  tg_end : t_base t + t_slotSize t * t_capacity t <= len;
  tg_count : 0 <= t_countOff t <= HEADER_SIZE - 8;
  tg_live : 0 <= t_liveOff t /\ t_liveOff t + 20 <= t_slotSize t;
  tg_limit : t_limit t < t_capacity t
}.

(** Everything outside the listed ranges is as before. *)
Definition unchanged_except (rs : list (Z * Z)) (img img' : bytes) : Prop :=
  zlen img' = zlen img /\
  forall off len, 0 <= off -> 0 <= len ->
    Forall (fun r => disjoint_ranges r.1 r.2 off len) rs ->
    slice off len img' = slice off len img.

Definition table_range (t : Table) : Z * Z := (t_base t, t_slotSize t * t_capacity t).
Definition count_range (t : Table) : Z * Z := (t_countOff t, 8).
Definition table_ranges (t : Table) : list (Z * Z) := [table_range t; count_range t].

(** A table at rest: well-formed, its counter exact, within its load limit. *)
Record table_inv {HK : Keccak} (sd : bytes) (t : Table) (img : bytes) : Prop := mkTableInv {
  ti_geo : table_geo (zlen img) t;
  ti_wf : t_wf sd t (slots t img);
  ti_count : count_at (t_countOff t) img = zlen (t_records t (slots t img));
  ti_limit : zlen (t_records t (slots t img)) <= t_limit t
}.

(** The state [d] with its store holding [img]. *)
Definition leaves {S} `{StoreReads S} (d : Drive S) (img : bytes) (d' : Drive S) : Prop :=
  exists s', d' = with_store s' d /\ holds s' img.

(** ** Frames *)
Lemma unchanged_refl rs img : unchanged_except rs img img.
Proof. done. Qed.

Lemma unchanged_trans rs img1 img2 img3 :
  unchanged_except rs img1 img2 -> unchanged_except rs img2 img3 -> unchanged_except rs img1 img3.
Proof. intros [Hl1 H1] [Hl2 H2]. split; [congruence|]. intros. rewrite H2 by done. auto. Qed.

Lemma unchanged_weaken rs rs' img img' :
  (forall r, r ∈ rs -> r ∈ rs') -> unchanged_except rs img img' -> unchanged_except rs' img img'.
Proof.
  intros Hsub [Hl H]. split; [done|]. intros off len ?? Hr. apply H; [done..|].
  rewrite Forall_forall in Hr |- *. auto.
Qed.

Lemma unchanged_patch rs r off bs img : r ∈ rs -> r.1 <= off -> off + zlen bs <= r.1 + r.2 ->
  fits off (zlen bs) (zlen img) -> unchanged_except rs img (patch off bs img).
Proof.
  intros Hr Hlo Hhi Hf. split; [by apply zlen_patch|]. intros o l ?? Hall.
  rewrite Forall_forall in Hall. specialize (Hall _ Hr). unfold disjoint_ranges in Hall.
  apply slice_patch_ne; [done..|]. unfold disjoint_ranges. lia.
Qed.

Lemma count_unchanged rs img img' off : unchanged_except rs img img' -> 0 <= off ->
  Forall (fun r => disjoint_ranges r.1 r.2 off 8) rs -> count_at off img' = count_at off img.
Proof. intros [_ H] ? Hr. unfold count_at. by rewrite H. Qed.

(** ** Slots of an image *)
Section Slots.
Context (t : Table) (img : bytes) (Hgeo : table_geo (zlen img) t).

Lemma slot_fits i : 0 <= i < t_capacity t ->
  fits (t_base t + t_slotSize t * i) (t_slotSize t) (zlen img).
Proof. destruct Hgeo. unfold fits, HEADER_SIZE in *. intros. nia. Qed.

Lemma zlen_slots : zlen (slots t img) = t_capacity t.
Proof. destruct Hgeo. unfold zlen, slots. rewrite length_fmap, length_seqZ. lia. Qed.

Lemma slots_at i : 0 <= i < t_capacity t ->
  t_at t (slots t img) i = slice (t_base t + t_slotSize t * i) (t_slotSize t) img.
Proof.
  intros Hi. unfold slot_at, slots. rewrite list_lookup_fmap, lookup_seqZ_lt by lia. simpl.
  by rewrite Z2Nat.id by lia.
Qed.

Lemma slots_patch i s : 0 <= i < t_capacity t -> zlen s = t_slotSize t ->
  slots t (patch (t_base t + t_slotSize t * i) s img) = slot_set (slots t img) i s.
Proof.
  intros Hi Hs. pose proof (slot_fits i Hi) as Hf. destruct Hgeo.
  apply list_eq. intros n. unfold slot_set.
  destruct (decide (Z.of_nat n < t_capacity t)) as [Hn|Hn].
  - unfold slots at 1. rewrite list_lookup_fmap, lookup_seqZ_lt by lia. simpl.
    destruct (decide (n = Z.to_nat i)) as [->|Hne].
    + rewrite list_lookup_insert_eq by (pose proof zlen_slots; unfold zlen in *; lia).
      rewrite <- Hs at 2. f_equal. rewrite Z2Nat.id by lia.
      apply slice_patch_same. by rewrite Hs.
    + rewrite list_lookup_insert_ne by done. unfold slots.
      rewrite list_lookup_fmap, lookup_seqZ_lt by lia. simpl. f_equal.
      apply slice_patch_ne; rewrite ?Hs; unfold fits, disjoint_ranges, HEADER_SIZE in *; try lia; nia.
  - rewrite lookup_ge_None_2. { symmetry. apply lookup_ge_None_2.
      rewrite length_insert. pose proof zlen_slots. unfold zlen in *. lia. }
    unfold slots. rewrite length_fmap, length_seqZ. lia.
Qed.

Lemma slots_unchanged img' rs : unchanged_except rs img img' ->
  Forall (fun r => disjoint_ranges r.1 r.2 (t_base t) (t_slotSize t * t_capacity t)) rs ->
  slots t img' = slots t img.
Proof.
  intros [_ H] Hr. destruct Hgeo. unfold slots. apply list_fmap_ext. intros n i Hi.
  apply lookup_seqZ in Hi as [-> Hlt]. unfold HEADER_SIZE in *.
  apply H; [nia|lia|]. eapply Forall_impl; [exact Hr|]. simpl. unfold disjoint_ranges. intros. nia.
Qed.

Lemma slots_sized s : s ∈ slots t img -> zlen s = t_slotSize t.
Proof.
  intros (i & -> & Hi)%list_elem_of_fmap. apply elem_of_seqZ in Hi.
  apply zlen_slice. apply slot_fits. lia.
Qed.
End Slots.

Lemma slot_live_zeros t n : slot_live t (zeros n) = false.
Proof.
  unfold slot_live. apply negb_false_iff. unfold isZero, zeros, slice.
  apply forallb_forall. intros x Hx. apply list_elem_of_In in Hx.
  apply Z.eqb_eq. assert (Hin : x ∈ replicate (Z.to_nat n) 0).
  { apply elem_of_take in Hx as (i & Hi & _). rewrite lookup_drop in Hi.
    by eapply list_elem_of_lookup_2. }
  by apply elem_of_replicate in Hin as [-> _].
Qed.

(** * The operations on a store that holds an image *)

(** Runs the first computation of a sequence with the given specification. *)
Tactic Notation "run" uconstr(lem) := eapply returns_bind; eapply returns_mono; [eapply lem; eauto; try lia|].
Tactic Notation "run_raise" uconstr(lem) :=
  eapply raises_bind; eapply returns_mono; [eapply lem; eauto; try lia|].

Section Specs.
Context {S : Type} {HS : Store S} {HR : StoreReads S} {HK : Keccak} {HKL : KeccakLaws}.
Implicit Types d : Drive S.
Implicit Types img : bytes.

Lemma leaves_refl d img : holds (store d) img -> leaves d img d.
Proof. intros H. exists (store d). split; [by destruct d|done]. Qed.

Lemma leaves_trans d1 d2 d3 i1 i2 : leaves d1 i1 d2 -> leaves d2 i2 d3 -> leaves d1 i2 d3.
Proof. intros (s & -> & _) (s' & -> & Hs'). by exists s'. Qed.

Lemma leaves_holds d d' img : leaves d img d' -> holds (store d') img.
Proof. by intros (s & -> & Hs). Qed.

Lemma leaves_cfg d d' img : leaves d img d' ->
  cfg d' = cfg d /\ tokens_ d' = tokens_ d /\ colOff d' = colOff d.
Proof. by intros (s & -> & _). Qed.

Lemma home_of_bound sd cap key : 0 < cap -> 0 <= home_of sd cap key < cap.
Proof. intros. apply Z.mod_pos_bound. done. Qed.

Lemma home_val sd key cap : 0 < cap <= MAX_SAFE_INTEGER -> home sd key cap = Val (home_of sd cap key).
Proof.
  intros Hc. unfold home, home_of, keccak256.
  rewrite getLE64_val by (rewrite ?keccak_length; lia). simpl.
  rewrite (proj2 (Z.eqb_neq _ _)) by lia.
  pose proof (le_decode_bound (slice 0 8 (keccak_256 (sd ++ key ++ [])))
                ltac:(apply Forall_slice, keccak_bytes)) as Hb.
  rewrite Z.rem_mod_nonneg by lia. rewrite Number_of_bigint_small; [done|].
  pose proof (Z.mod_pos_bound (le_decode (slice 0 8 (keccak_256 (sd ++ key ++ [])))) cap). lia.
Qed.

Lemma read_spec d img off len : holds (store d) img -> fits off len (zlen img) ->
  returns (on_store (readAt off len)) d (fun b d' => b = slice off len img /\ leaves d img d').
Proof.
  intros Hh Hf. apply returns_zoom. eapply returns_mono; [by apply readAt_spec|].
  intros b s' [-> Hs']. split; [done|]. by exists s'.
Qed.

Lemma counter_spec d img off : holds (store d) img -> fits off 8 (zlen img) ->
  returns (counter off) d (fun v d' => v = count_at off img /\ leaves d img d').
Proof.
  intros Hh Hf. unfold counter. run read_spec. intros b d' [-> Hd'].
  eapply returns_lift; [|done].
  rewrite getLE64_val by (rewrite ?zlen_slice by done; lia). unfold count_at.
  f_equal. f_equal. rewrite <- (zlen_slice off 8 img Hf) at 1. apply slice_full.
Qed.

Lemma readSlot_spec d img t i : holds (store d) img -> table_geo (zlen img) t ->
  0 <= i < t_capacity t ->
  returns (readSlot t i) d (fun b d' => b = t_at t (slots t img) i /\ leaves d img d').
Proof. intros Hh Hg Hi. rewrite slots_at by done. apply read_spec; [done|]. by apply slot_fits. Qed.

Lemma drive_home_val d key cap : 0 < cap <= MAX_SAFE_INTEGER ->
  returns (drive_home key cap) d (fun h d' => h = home_of (seed (cfg d)) cap key /\ d' = d).
Proof. intros Hc. unfold drive_home, returns, wp, liftO. by rewrite home_val. Qed.

Lemma displacement_spec d img t slot i : table_geo (zlen img) t ->
  returns (displacement t slot i) d (fun x d' =>
    x = displace (t_keyOf t) (home_of (seed (cfg d)) (t_capacity t)) (t_capacity t) slot i
    /\ d' = d).
Proof. intros []. unfold displacement. run drive_home_val. by intros h d' [-> ->]. Qed.

(** The byte-level lookup is the table-level one. *)
Lemma lookup_loop_spec n t key dist d img : holds (store d) img -> table_geo (zlen img) t ->
  returns (lookup_loop n t key (home_of (seed (cfg d)) (t_capacity t) key) dist) d (fun r d' =>
    r = t_lookup (seed (cfg d)) t n (slots t img) key dist /\ leaves d img d').
Proof.
  revert dist d. induction n as [|n IH]; intros dist d Hh Hg; cbn [lookup_loop rh_lookup].
  { apply returns_ret. split; [done|by apply leaves_refl]. }
  pose proof (tg_capacity _ _ Hg).
  set (i := (_ + dist) mod _).
  assert (Hi : 0 <= i < t_capacity t) by (apply Z.mod_pos_bound; lia).
  run readSlot_spec. intros b d' [-> Hd'].
  destruct (leaves_cfg _ _ _ Hd') as (Hc & _ & _).
  destruct (slot_live t _); cbn [negb]; [|by apply returns_ret].
  destruct (decide (t_keyOf t (t_at t (slots t img) i) = key)) as [Hk|Hk].
  { rewrite (proj2 (bytesEqual_eq _ _) Hk). by apply returns_ret. }
  rewrite bytesEqual_ne by done. run (displacement_spec d' img).
  intros x ? [-> ->]. rewrite Hc. destruct (_ <? dist); [by apply returns_ret|].
  rewrite <- Hc. eapply returns_mono; [apply IH; [by eapply leaves_holds|done]|].
  intros r d'' [-> Hd'']. split; [by rewrite Hc|]. by eapply leaves_trans.
Qed.

Lemma lookup_spec t key d img : holds (store d) img -> table_geo (zlen img) t ->
  returns (lookup t key) d (fun r d' =>
    r = t_lookup (seed (cfg d)) t (Z.to_nat (t_capacity t)) (slots t img) key 0 /\ leaves d img d').
Proof.
  intros Hh Hg. pose proof (tg_capacity _ _ Hg). unfold lookup. run drive_home_val.
  intros h ? [-> ->]. by apply lookup_loop_spec.
Qed.

Context {HW : StoreWrites S}.

Lemma write_spec d img off bs : holds (store d) img -> fits off (zlen bs) (zlen img) ->
  returns (on_store (writeAt off bs)) d (fun _ d' => leaves d (patch off bs img) d').
Proof.
  intros Hh Hf. apply returns_zoom. eapply returns_mono; [by apply writeAt_spec|].
  intros b s' Hs'. by exists s'.
Qed.

Lemma setCounter_spec d img off v : holds (store d) img -> fits off 8 (zlen img) ->
  returns (setCounter off v) d (fun _ d' => leaves d (patch off (le_encode 8 v) img) d').
Proof.
  intros Hh Hf. unfold setCounter, setLE64.
  eapply returns_bind, returns_lift.
  - rewrite setBytes_val; [|rewrite zlen_le_encode, zlen_zeros; unfold fits; lia].
    rewrite patch_full; [done|]. by rewrite length_le_encode.
  - apply write_spec; [done|]. by rewrite zlen_le_encode.
Qed.

Lemma count_at_patch off v img : fits off 8 (zlen img) ->
  count_at off (patch off (le_encode 8 v) img) = v mod 2 ^ 64.
Proof.
  intros Hf. unfold count_at.
  replace 8 with (zlen (le_encode 8 v)) at 1 by apply zlen_le_encode.
  rewrite slice_patch_same by (by rewrite zlen_le_encode).
  rewrite le_decode_encode. done.
Qed.

(** Adding to a counter: what remains of the table after the final step. *)
Lemma bump_spec t d img k : holds (store d) img -> table_geo (zlen img) t ->
  returns (c ← counter (t_countOff t); setCounter (t_countOff t) (c + k)) d (fun _ d' =>
    exists img', leaves d img' d' /\ slots t img' = slots t img
      /\ count_at (t_countOff t) img' = (count_at (t_countOff t) img + k) mod 2 ^ 64
      /\ unchanged_except (table_ranges t) img img').
Proof.
  intros Hh Hg. pose proof Hg as [? ? ? ? Hco ? ?]. unfold HEADER_SIZE in *.
  assert (Hf : fits (t_countOff t) 8 (zlen img)) by (unfold fits; nia).
  run counter_spec. intros c d1 [-> Hd1].
  eapply returns_mono; [apply (setCounter_spec d1 img); [by eapply leaves_holds|done]|].
  intros [] d2 Hd2.
  assert (Hu : unchanged_except [count_range t] img
                 (patch (t_countOff t) (le_encode 8 (count_at (t_countOff t) img + k)) img)).
  { apply (unchanged_patch _ (count_range t)); rewrite ?zlen_le_encode; simpl; try done; try lia.
    by apply list_elem_of_singleton. }
  eexists. split_and!.
  - by eapply leaves_trans.
  - eapply slots_unchanged; [done|exact Hu|]. apply Forall_singleton. left. simpl. lia.
  - by apply count_at_patch.
  - eapply unchanged_weaken; [|exact Hu]. intros r ->%list_elem_of_singleton. right. by left.
Qed.

Lemma writeSlot_spec t d img i s : holds (store d) img -> table_geo (zlen img) t ->
  0 <= i < t_capacity t -> zlen s = t_slotSize t ->
  returns (writeSlot t i s) d (fun _ d' =>
    exists img', leaves d img' d' /\ slots t img' = slot_set (slots t img) i s
      /\ count_at (t_countOff t) img' = count_at (t_countOff t) img
      /\ unchanged_except (table_ranges t) img img').
Proof.
  intros Hh Hg Hi Hs. pose proof (slot_fits t img Hg i Hi) as Hf. rewrite <- Hs in Hf at 2.
  pose proof Hg as [? ? ? ? Hco ? ?]. unfold HEADER_SIZE in *.
  eapply returns_mono; [by apply (write_spec d img)|].
  intros [] d' Hd'.
  assert (Hu : unchanged_except [table_range t] img (patch (t_base t + t_slotSize t * i) s img)).
  { apply (unchanged_patch _ (table_range t)); simpl; try done; try nia.
    by apply list_elem_of_singleton. }
  eexists. split_and!; [exact Hd'|by apply slots_patch| |].
  - eapply count_unchanged; [exact Hu|lia|]. apply Forall_singleton. right. simpl. lia.
  - eapply unchanged_weaken; [|exact Hu]. intros r ->%list_elem_of_singleton. by left.
Qed.

Lemma table_geo_same t img img' : zlen img' = zlen img -> table_geo (zlen img) t -> table_geo (zlen img') t.
Proof. by intros ->. Qed.

(** The byte-level insertion is the table-level one, plus the counter. *)
Lemma insert_loop_spec n t carry dist d img T' : holds (store d) img -> table_geo (zlen img) t ->
  zlen carry = t_slotSize t ->
  t_insert (seed (cfg d)) t n (slots t img) carry dist = Some T' ->
  returns (insert_loop n t carry (home_of (seed (cfg d)) (t_capacity t) (t_keyOf t carry)) dist) d
    (fun _ d' => exists img', leaves d img' d' /\ slots t img' = T'
      /\ count_at (t_countOff t) img' = (count_at (t_countOff t) img + 1) mod 2 ^ 64
      /\ unchanged_except (table_ranges t) img img').
Proof.
  revert carry dist d img. induction n as [|n IH]; intros carry dist d img Hh Hg Hz;
    cbn [insert_loop rh_insert]; [done|].
  pose proof (tg_capacity _ _ Hg).
  set (i := (_ + dist) mod _).
  assert (Hi : 0 <= i < t_capacity t) by (apply Z.mod_pos_bound; lia).
  intros Hins. run readSlot_spec. intros b d1 [-> Hd1].
  assert (Hsz : zlen (t_at t (slots t img) i) = t_slotSize t).
  { apply (slots_sized t img Hg). apply slot_at_elem. by rewrite zlen_slots. }
  destruct (leaves_cfg _ _ _ Hd1) as (Hc1 & _ & _).
  pose proof (leaves_holds _ _ _ Hd1) as Hh1.
  destruct (slot_live t _); cbn [negb] in *.
  - run (displacement_spec d1 img). intros x ? [-> ->]. rewrite Hc1.
    destruct (_ <? dist).
    + run writeSlot_spec. intros _ d2 (img2 & Hd2 & Hs2 & Hn2 & Hu2).
      destruct (leaves_cfg _ _ _ Hd2) as (Hc2 & _ & _).
      run drive_home_val. intros h ? [-> ->].
      eapply returns_mono.
      * apply (IH _ _ d2 img2); [by eapply leaves_holds| |done|].
        -- eapply table_geo_same; [apply Hu2|done].
        -- by rewrite Hc2, Hc1, Hs2.
      * intros _ d3 (img3 & Hd3 & Hs3 & Hn3 & Hu3). exists img3. split_and!.
        -- eapply leaves_trans; [by eapply leaves_trans|done].
        -- done.
        -- by rewrite Hn3, Hn2.
        -- by eapply unchanged_trans.
    + rewrite <- Hc1. eapply returns_mono.
      * apply (IH _ _ d1 img); try done. by rewrite Hc1.
      * intros _ d3 (img3 & Hd3 & Hrest). exists img3. split; [by eapply leaves_trans|done].
  - injection Hins as <-. run writeSlot_spec. intros _ d2 (img2 & Hd2 & Hs2 & Hn2 & Hu2).
    eapply returns_mono; [apply (bump_spec t d2 img2);
      [by eapply leaves_holds|eapply table_geo_same; [apply Hu2|done]]|].
    intros _ d3 (img3 & Hd3 & Hs3 & Hn3 & Hu3). exists img3. split_and!.
    + eapply leaves_trans; [by eapply leaves_trans|done].
    + by rewrite Hs3.
    + by rewrite Hn3, Hn2.
    + by eapply unchanged_trans.
Qed.

Lemma remove_loop_spec n t i d img T' : holds (store d) img -> table_geo (zlen img) t ->
  0 <= i < t_capacity t ->
  t_remove (seed (cfg d)) t n (slots t img) i = Some T' ->
  returns (remove_loop n t i) d (fun _ d' => exists img', leaves d img' d' /\ slots t img' = T'
      /\ count_at (t_countOff t) img' = (count_at (t_countOff t) img - 1) mod 2 ^ 64
      /\ unchanged_except (table_ranges t) img img').
Proof.
  revert i d img. induction n as [|n IH]; intros i d img Hh Hg Hi;
    cbn [remove_loop rh_remove]; [done|].
  pose proof (tg_capacity _ _ Hg) as Hcap. pose proof (tg_slot _ _ Hg).
  set (j := (i + 1) mod _).
  assert (Hj : 0 <= j < t_capacity t) by (apply Z.mod_pos_bound; lia).
  intros Hrem. run readSlot_spec. intros b d1 [-> Hd1].
  assert (Hsz : zlen (t_at t (slots t img) j) = t_slotSize t).
  { apply (slots_sized t img Hg). apply slot_at_elem. by rewrite zlen_slots. }
  destruct (leaves_cfg _ _ _ Hd1) as (Hc1 & _ & _).
  pose proof (leaves_holds _ _ _ Hd1) as Hh1.
  set (next := t_at t (slots t img) j) in *.
  set (stop := negb (slot_live t next) || _) in Hrem.
  eapply returns_bind, (returns_mono _ _ (fun b d2 => b = stop /\ d2 = d1)).
  { unfold stop. destruct (slot_live t next); simpl; [|by apply returns_ret].
    run (displacement_spec d1 img). intros x ? [-> ->]. apply returns_ret.
    by rewrite Hc1. }
  intros b ? [-> ->]. destruct stop.
  - injection Hrem as <-. run writeSlot_spec; [by apply zlen_zeros; lia|].
    intros _ d2 (img2 & Hd2 & Hs2 & Hn2 & Hu2).
    eapply returns_mono; [apply (bump_spec t d2 img2 (-1));
      [by eapply leaves_holds|eapply table_geo_same; [apply Hu2|done]]|].
    intros _ d3 (img3 & Hd3 & Hs3 & Hn3 & Hu3). exists img3. split_and!.
    + eapply leaves_trans; [by eapply leaves_trans|done].
    + by rewrite Hs3.
    + rewrite Hn3, Hn2. done.
    + by eapply unchanged_trans.
  - run writeSlot_spec. intros _ d2 (img2 & Hd2 & Hs2 & Hn2 & Hu2).
    destruct (leaves_cfg _ _ _ Hd2) as (Hc2 & _ & _).
    eapply returns_mono.
    + apply (IH _ d2 img2); [by eapply leaves_holds| |done|].
      * eapply table_geo_same; [apply Hu2|done].
      * by rewrite Hc2, Hc1, Hs2.
    + intros _ d3 (img3 & Hd3 & Hs3 & Hn3 & Hu3). exists img3. split_and!.
      * eapply leaves_trans; [by eapply leaves_trans|done].
      * done.
      * by rewrite Hn3, Hn2.
      * by eapply unchanged_trans.
Qed.
End Specs.

(** * A table at rest is a finite map *)

(** What [#lookup] reports of key [k]: the slot that holds it, or nothing. *)
Definition found_spec (t : Table) (img key : bytes) (r : option (Z * bytes)) : Prop :=
  match r with
  | Some (i, s) =>
      0 <= i < t_capacity t /\ t_at t (slots t img) i = s /\ slot_live t s = true
      /\ t_keyOf t s = key /\ table_map t img !! key = Some s
  | None => table_map t img !! key = None
  end.

(** The effect of an operation on a table: a new image whose table is again at
    rest, holds [m], and differs from the old one in that table only. *)
Definition table_becomes {S} `{StoreReads S} {HK : Keccak} (t : Table) (d : Drive S) (img : bytes)
    (m : gmap bytes bytes) (d' : Drive S) : Prop :=
  exists img', leaves d img' d' /\ table_inv (seed (cfg d)) t img'
    /\ table_map t img' = m /\ unchanged_except (table_ranges t) img img'.

Section TableMap.
Context {S : Type} {HS : Store S} {HR : StoreReads S} {HK : Keccak} {HKL : KeccakLaws}.
Context (t : Table) (d : Drive S) (img : bytes).
Context (Hh : holds (store d) img) (Hinv : table_inv (seed (cfg d)) t img).

Lemma inv_home k : 0 <= home_of (seed (cfg d)) (t_capacity t) k < t_capacity t.
Proof. apply home_of_bound. pose proof (tg_capacity _ _ (ti_geo _ _ _ Hinv)). lia. Qed.

Lemma inv_cap : 2 <= t_capacity t.
Proof. pose proof (tg_capacity _ _ (ti_geo _ _ _ Hinv)). lia. Qed.

Lemma inv_room : zlen (t_records t (slots t img)) < t_capacity t.
Proof. pose proof (tg_limit _ _ (ti_geo _ _ _ Hinv)). pose proof (ti_limit _ _ _ Hinv). lia. Qed.

Lemma lookup_inv key :
  returns (lookup t key) d (fun r d' => found_spec t img key r /\ leaves d img d').
Proof.
  eapply returns_mono; [apply lookup_spec; [done|apply Hinv]|].
  intros r d' [-> Hd']. split; [|done].
  pose proof (rh_lookup_contents _ _ _ _ _ inv_home inv_cap _ key (ti_wf _ _ _ Hinv)) as Hc.
  unfold found_spec, table_map.
  destruct (t_lookup _ _ _ _ _ _) as [[i s]|] eqn:Hl; [|done].
  apply rh_lookup_sound in Hl as (Hs & Hlive & Hk & Hi); [|apply inv_cap].
  split_and!; try done; lia.
Qed.

Context {HW : StoreWrites S}.

Lemma insert_inv rec : zlen rec = t_slotSize t -> slot_live t rec = true ->
  table_map t img !! t_keyOf t rec = None -> count_at (t_countOff t) img < t_limit t ->
  returns (insert t rec) d (fun _ d' =>
    table_becomes t d img (<[t_keyOf t rec := rec]> (table_map t img)) d').
Proof.
  intros Hz Hl Hnew Hroom. pose proof Hinv as [Hg Hwf Hcnt Hlim].
  pose proof (tg_capacity _ _ Hg). pose proof (tg_limit _ _ Hg).
  destruct (insert_wf (zeros (t_slotSize t)) (slot_live t) (t_keyOf t)
    (home_of (seed (cfg d)) (t_capacity t)) (t_capacity t) inv_home inv_cap
    (slots t img) rec) as (T' & Hr & Hwf' & Hp); try done.
  { apply (contents_fresh _ _ _ _ _ _ _ Hwf Hnew). }
  { apply inv_room. }
  unfold insert. run drive_home_val. intros h ? [-> ->].
  eapply returns_mono; [by apply (insert_loop_spec _ t rec 0 d img T')|].
  intros [] d' (img' & Hd' & Hs & Hc & Hu).
  assert (Hlen : zlen (t_records t T') = zlen (t_records t (slots t img)) + 1).
  { unfold zlen. rewrite (Permutation_length Hp). simpl. lia. }
  exists img'. split_and!; try done.
  - constructor; rewrite ?Hs; try done.
    + eapply table_geo_same; [apply Hu|done].
    + rewrite Hc, Hcnt, Hlen. apply Z.mod_small. unfold MAX_SAFE_INTEGER in *.
      pose proof (zlen_nonneg (t_records t (slots t img))). lia.
    + lia.
  - unfold table_map. rewrite Hs. apply contents_cons; [apply Hwf'|done].
Qed.

Lemma remove_inv i s : 0 <= i < t_capacity t -> t_at t (slots t img) i = s ->
  slot_live t s = true ->
  returns (remove t i) d (fun _ d' =>
    table_becomes t d img (delete (t_keyOf t s) (table_map t img)) d').
Proof.
  intros Hi Hs Hl. subst s. pose proof Hinv as [Hg Hwf Hcnt Hlim].
  pose proof (tg_capacity _ _ Hg). pose proof (tg_limit _ _ Hg).
  destruct (remove_wf (zeros (t_slotSize t)) (slot_live t) (t_keyOf t)
    (home_of (seed (cfg d)) (t_capacity t)) (t_capacity t) (slot_live_zeros t _) inv_home inv_cap
    (slots t img) i) as (T' & Hr & Hwf' & Hp); try done.
  { apply inv_room. }
  unfold remove. eapply returns_mono; [by apply (remove_loop_spec _ t i d img T')|].
  intros [] d' (img' & Hd' & Hs & Hc & Hu).
  assert (Hlen : zlen (t_records t (slots t img)) = zlen (t_records t T') + 1).
  { unfold zlen. rewrite (Permutation_length Hp). simpl. lia. }
  exists img'. split_and!; try done.
  - constructor; rewrite ?Hs; try done.
    + eapply table_geo_same; [apply Hu|done].
    + rewrite Hc, Hcnt, Hlen. rewrite Z.mod_small; [lia|]. unfold MAX_SAFE_INTEGER in *.
      pose proof (zlen_nonneg (t_records t T')). lia.
    + lia.
  - unfold table_map. rewrite Hs. apply contents_uncons; [apply Hwf|done].
Qed.

Lemma update_inv i s s' : 0 <= i < t_capacity t -> t_at t (slots t img) i = s ->
  slot_live t s = true -> slot_live t s' = true -> t_keyOf t s' = t_keyOf t s ->
  zlen s' = t_slotSize t ->
  returns (writeSlot t i s') d (fun _ d' =>
    table_becomes t d img (<[t_keyOf t s := s']> (table_map t img)) d').
Proof.
  intros Hi Hs Hl Hl' Hk Hz. subst s. pose proof Hinv as [Hg Hwf Hcnt Hlim].
  pose proof (update_wf _ _ _ _ _ inv_cap _ _ _ Hwf Hi Hl Hl' Hk) as (Hwf' & Hp' & Hp).
  eapply returns_mono; [by apply (writeSlot_spec t d img)|].
  intros [] d' (img' & Hd' & Hs & Hc & Hu).
  assert (Hlen : zlen (t_records t (slot_set (slots t img) i s')) = zlen (t_records t (slots t img))).
  { unfold zlen. rewrite (Permutation_length Hp), (Permutation_length Hp'). done. }
  exists img'. split_and!; try done.
  - constructor; rewrite ?Hs; try done; try lia.
    eapply table_geo_same; [apply Hu|done].
  - unfold table_map. rewrite Hs. rewrite <- Hk.
    exact (contents_update _ _ _ _ _ inv_cap _ _ _ Hwf Hi Hl Hl' Hk).
Qed.

Lemma inv_map_size : Z.of_nat (size (table_map t img)) = count_at (t_countOff t) img.
Proof. rewrite (ti_count _ _ _ Hinv). apply contents_size, Hinv. Qed.
End TableMap.

(** A table is untouched by writes that stay out of its slots and counter. *)
Lemma table_inv_unchanged {HK : Keccak} sd t rs img img' : table_inv sd t img ->
  unchanged_except rs img img' ->
  Forall (fun r => disjoint_ranges r.1 r.2 (t_base t) (t_slotSize t * t_capacity t)
                   /\ disjoint_ranges r.1 r.2 (t_countOff t) 8) rs ->
  table_inv sd t img' /\ table_map t img' = table_map t img.
Proof.
  intros [Hg Hwf Hcnt Hlim] Hu Hd.
  assert (Hs : slots t img' = slots t img).
  { eapply slots_unchanged; [done|exact Hu|]. eapply Forall_impl; [exact Hd|]. by intros ? [??]. }
  assert (Hc : count_at (t_countOff t) img' = count_at (t_countOff t) img).
  { eapply count_unchanged; [exact Hu|apply Hg|]. eapply Forall_impl; [exact Hd|]. by intros ? [??]. }
  split; [|unfold table_map; by rewrite Hs].
  constructor; rewrite ?Hs, ?Hc; try done. by eapply table_geo_same; [apply Hu|].
Qed.
