(* ===== verification/Drive.v ===== *)
(** * The accounts drive: accounts, token registry and token balances

    The public operations of the [Drive] class of
    accounts-drive/js/src/drive.ts over any [Store]: [reloadRegistry],
    [getAccount], [setAccount], [deleteAccount], [tokenByAddress],
    [registerToken], [getTokenBalance], [setTokenBalance]. *)

From Stdlib Require Import ZArith Lia.
From S2P Require Import Prelude Bytes Store DriveConfig DriveHeader RobinHood DriveTable.

(** The errors of [const err]. *)
Definition err_tableFull : exn := AccountsDriveError tableFull "table at load limit".
Definition err_registryFull : exn := AccountsDriveError registryFull "token registry full".
Definition err_zeroAddress : exn := AccountsDriveError zeroAddress "zero address is invalid".
Definition err_nonceProtected : exn := AccountsDriveError nonceProtected
  "record has nonzero nonce (replay protection); pass force to delete".
Definition err_profile : exn := AccountsDriveError profileError
  "operation not available in this profile".
Definition err_unknownToken : exn := AccountsDriveError unknownToken "token not registered".
Definition err_duplicateToken : exn := AccountsDriveError duplicateToken "token already registered".
Definition err_badWidth : exn := AccountsDriveError badWidth "balance width must be 8, 16 or 32".

Definition compact (c : NormalizedConfig) : bool :=
  (profile c =? ProfileSingleAsset) && (slotSize c =? 32).

(** ** Account records *)
Definition decodeAccount (c : NormalizedConfig) (slot : bytes) : outcome (Z * Z) :=
  if compact c then
    n ← getLE32 slot 20; Val (n, readBE (slice 24 8 slot))
  else
    n ← getLE64 slot 24; Val (n, readBE (slice 32 32 slot)).

Definition encodeAccount (c : NormalizedConfig) (addr : bytes) (nonce balance : Z) : outcome bytes :=
  if compact c then
    if 0xffffffff <? nonce then Exn overflow_error else
    rec ← setBytes (zeros 32) addr 0;
    rec ← setLE32 rec 20 nonce;
    putBE_at rec 24 32 balance
  else
    rec ← setBytes (zeros 64) addr 0;
    rec ← setLE64 rec 24 nonce;
    putBE_at rec 32 64 balance.

Record Account : Type := mkAccount { acc_address : bytes; acc_nonce : Z; acc_balance : Z }.
Record ResolvedToken : Type := mkResolved { res_id : Z; res_address : bytes; res_width : Z }.

Definition valid_width (w : Z) : bool := (w =? 8) || (w =? 16) || (w =? 32).

(** The linear scan of [tokenByAddress]. *)
Fixpoint find_token (ts : list Token) (i : Z) (address : bytes) : option ResolvedToken :=
  match ts with
  | [] => None
  | t :: ts =>
      if bytesEqual (tok_address t) address then Some (mkResolved i (tok_address t) (tok_width t))
      else find_token ts (i + 1) address
  end.

(** The bytes a wide slot's columns take: [64 + Σ width]. *)
Definition columns_sum (ts : list Token) : Z := foldl (fun sum t => sum + tok_width t) 64 ts.

Definition sparse_balance (c : NormalizedConfig) (slot : bytes) : Z :=
  if sparseSlotSize c =? 32 then readBE (slice 24 8 slot) else readBE (slice 32 32 slot).
Definition putSparseBalance (c : NormalizedConfig) (slot : bytes) (v : Z) : outcome bytes :=
  if sparseSlotSize c =? 32 then putBE_at slot 24 32 v else putBE_at slot 32 64 v.

Section Drive.
Context {S : Type} {HS : Store S} {HK : Keccak}.

Definition get_cfg : M (Drive S) NormalizedConfig := gets cfg.

(** ** Registry cache *)
Fixpoint reload_loop (n : nat) (i col : Z) : M (Drive S) unit :=
  match n with
  | O => mret tt
  | Datatypes.S n =>
      c ← get_cfg;
      e ← on_store (readAt (registryOffset c + 32 * i) 32);
      let width := default 0 (e !! 20%nat) in
      if negb (valid_width width) then
        throw (AccountsDriveError badWidth ("registry entry " +:+ pretty i
                 +:+ ": balance width must be 8, 16 or 32 (" +:+ pretty width +:+ ")"))
      else
        modify (fun d => with_tokens (tokens_ d ++ [mkToken (slice 0 20 e) width])
                                     (colOff d ++ [col]) d);;
        reload_loop n (i + 1) (col + width)
  end.
Definition reloadRegistry : M (Drive S) unit :=
  modify (with_tokens [] []);;
  c ← get_cfg;
  if registryOffset c =? 0 then mret tt else
  n ← counter OFF_TOKEN_COUNT;
  let n := Number_of_bigint n in
  if registryCapacity c <? n then
    throw (JsError ("token count " +:+ pretty n +:+ " exceeds registry capacity "
                    +:+ pretty (registryCapacity c)))
  else reload_loop (Z.to_nat n) 0 64.

Definition liveCount : M (Drive S) Z := counter OFF_LIVE_COUNT.
Definition sparseLiveCount : M (Drive S) Z := counter OFF_SPARSE_LIVE_COUNT.
Definition tokenCount : M (Drive S) Z := counter OFF_TOKEN_COUNT.

(** ** Accounts *)
Definition nonzero_address (addr : AddressLike) : M (Drive S) bytes :=
  address ← liftO (toAddress addr);
  if isZero address then throw err_zeroAddress else mret address.

Definition getAccount (addr : AddressLike) : M (Drive S) (option Account) :=
  address ← nonzero_address addr;
  c ← get_cfg;
  found ← lookup (accountsTable c) address;
  match found with
  | None => mret None
  | Some (_, slot) =>
      nb ← liftO (decodeAccount c slot);
      mret (Some (mkAccount address nb.1 nb.2))
  end.

Definition setAccount (addr : AddressLike) (nonce balance : Z) : M (Drive S) unit :=
  address ← nonzero_address addr;
  c ← get_cfg;
  rec ← liftO (encodeAccount c address nonce balance);
  let t := accountsTable c in
  found ← lookup t address;
  match found with
  | Some (index, slot) =>
      slot' ← liftO (setBytes slot rec 0);
      writeSlot t index slot'
  | None =>
      n ← counter (t_countOff t);
      if t_limit t <=? n then throw err_tableFull else
      full ← liftO (setBytes (zeros (t_slotSize t)) rec 0);
      insert t full
  end.

Definition deleteAccount (addr : AddressLike) (force : bool) : M (Drive S) bool :=
  address ← nonzero_address addr;
  c ← get_cfg;
  let t := accountsTable c in
  found ← lookup t address;
  match found with
  | None => mret false
  | Some (index, slot) =>
      nb ← liftO (decodeAccount c slot);
      if negb force && negb (nb.1 =? 0) then throw err_nonceProtected else
      remove t index;;
      mret true
  end.

(** ** Registry *)
Definition tokenByAddress (addr : AddressLike) : M (Drive S) (option ResolvedToken) :=
  address ← liftO (toAddress addr);
  gets (fun d => find_token (tokens_ d) 0 address).

(** The checks of [registerToken] that depend on the profile. *)
Definition check_token_width (c : NormalizedConfig) (ts : list Token) (width : Z) : outcome unit :=
  _ ← (if (profile c =? ProfileWide) && (slotSize c <? columns_sum ts + width) then
         Exn (AccountsDriveError tableFull
               ("columns would need " +:+ pretty (columns_sum ts + width) +:+ " bytes in a "
                +:+ pretty (slotSize c) +:+ "-byte slot"))
       else Val tt);
  _ ← (if (profile c =? ProfileSparse) && (sparseSlotSize c =? 32) && negb (width =? 8) then
         Exn (AccountsDriveError badWidth "32-byte sparse slots require width 8")
       else Val tt);
  if compact c && negb (width =? 8) then
    Exn (AccountsDriveError badWidth "the compact account record requires width 8")
  else Val tt.

(** The 32-byte registry entry [e]. *)
Definition registry_entry (address : bytes) (width : Z) : outcome bytes :=
  e ← setBytes (zeros 32) address 0;
  setBytes e [width mod 256] 20.

(** The column a new token takes: past the last one, or 64. *)
Definition next_column (ts : list Token) (cols : list Z) : Z :=
  match last cols, last ts with
  | Some col, Some t => col + tok_width t
  | _, _ => 64
  end.

Definition registerToken (addr : AddressLike) (width : Z) : M (Drive S) Z :=
  address ← liftO (toAddress addr);
  c ← get_cfg;
  if registryOffset c =? 0 then throw err_profile else
  if negb (valid_width width) then throw err_badWidth else
  dup ← tokenByAddress (AddrBytes address);
  if bool_decide (is_Some dup) then throw err_duplicateToken else
  ts ← gets tokens_;
  let n := zlen ts in
  if registryCapacity c <=? n then throw err_registryFull else
  liftO (check_token_width c ts width);;
  e ← liftO (registry_entry address width);
  on_store (writeAt (registryOffset c + 32 * n) e);;
  setCounter OFF_TOKEN_COUNT (n + 1);;
  modify (fun d => with_tokens (tokens_ d ++ [mkToken address width])
                               (colOff d ++ [next_column (tokens_ d) (colOff d)]) d);;
  mret n.

(** ** Token balances *)
(** The checks [getTokenBalance] and [setTokenBalance] share; the token's
    width and column. *)
Definition known_token (id : Z) : M (Drive S) (Z * Z) :=
  ts ← gets tokens_;
  cols ← gets colOff;
  if (0 <=? id) && (id <? zlen ts) then
    mret (default 0 (tok_width <$> ts !! Z.to_nat id), default 0 (cols !! Z.to_nat id))
  else throw err_unknownToken.

Definition getTokenBalance (addr : AddressLike) (id : Z) : M (Drive S) Z :=
  address ← nonzero_address addr;
  wo ← known_token id;
  let '(width, off) := wo in
  c ← get_cfg;
  if profile c =? ProfileWide then
    found ← lookup (accountsTable c) address;
    match found with
    | None => mret 0
    | Some (_, slot) => mret (readBE (slice off width slot))
    end
  else if profile c =? ProfileSparse then
    key ← liftO (sparseKey id address);
    found ← lookup (sparseTable c) key;
    match found with
    | None => mret 0
    | Some (_, slot) => mret (sparse_balance c slot)
    end
  else throw err_profile.

Definition setTokenBalance (addr : AddressLike) (id v : Z) : M (Drive S) unit :=
  address ← nonzero_address addr;
  wo ← known_token id;
  let '(width, off) := wo in
  if (v <? 0) || negb (Z.shiftr v (8 * width) =? 0) then throw overflow_error else
  c ← get_cfg;
  if profile c =? ProfileWide then
    let t := accountsTable c in
    found ← lookup t address;
    match found with
    | None =>
        if v =? 0 then mret tt else
        n ← counter (t_countOff t);
        if t_limit t <=? n then throw err_tableFull else
        full ← liftO (setBytes (zeros (t_slotSize t)) address 0);
        full ← liftO (putBE_at full off (off + width) v);
        insert t full
    | Some (index, slot) =>
        slot' ← liftO (putBE_at slot off (off + width) v);
        writeSlot t index slot'
    end
  else if profile c =? ProfileSparse then
    let t := sparseTable c in
    key ← liftO (sparseKey id address);
    found ← lookup t key;
    if v =? 0 then
      match found with
      | None => mret tt
      | Some (index, _) => remove t index
      end
    else
      match found with
      | Some (index, slot) =>
          slot' ← liftO (putSparseBalance c slot v);
          writeSlot t index slot'
      | None =>
          n ← counter (t_countOff t);
          if t_limit t <=? n then throw err_tableFull else
          rec ← liftO (setBytes (zeros (t_slotSize t))
                         [Z.land id 255; Z.land (Z.shiftr id 8) 255] 0);
          rec ← liftO (setBytes rec address 4);
          rec ← liftO (putSparseBalance c rec v);
          insert t rec
      end
  else throw err_profile.
End Drive.

(** * Abstract view of a drive image *)

Definition rec_size (c : NormalizedConfig) : Z := if compact c then 32 else 64.
Definition nonce_modulus (c : NormalizedConfig) : Z := if compact c then 2 ^ 32 else 2 ^ 64.
Definition balance_width (c : NormalizedConfig) : Z := if compact c then 8 else 32.

Definition account_data (c : NormalizedConfig) (slot : bytes) : Z * Z :=
  if compact c then (le_decode (slice 20 4 slot), readBE (slice 24 8 slot))
  else (le_decode (slice 24 8 slot), readBE (slice 32 32 slot)).

(** The account an image holds for an address: nonce and balance. *)
Definition account_of (c : NormalizedConfig) (img addr : bytes) : option (Z * Z) :=
  account_data c <$> table_map (accountsTable c) img !! addr.

(** Column offsets of a registry, in id order. *)
Fixpoint columns (col : Z) (ts : list Token) : list Z :=
  match ts with [] => [] | t :: ts => col :: columns (col + tok_width t) ts end.

(** The 22-byte key of a token holding. *)
Definition token_key (id : Z) (addr : bytes) : bytes :=
  [Z.land id 255; Z.land (Z.shiftr id 8) 255] ++ addr.

(** The balance an image holds of token [id] for an address; an absent record
    or column counts as zero. *)
Definition token_balance (c : NormalizedConfig) (ts : list Token) (img : bytes) (id : Z)
    (addr : bytes) : Z :=
  if profile c =? ProfileWide then
    match table_map (accountsTable c) img !! addr, columns 64 ts !! Z.to_nat id, ts !! Z.to_nat id with
    | Some slot, Some off, Some t => readBE (slice off (tok_width t) slot)
    | _, _, _ => 0
    end
  else if profile c =? ProfileSparse then
    match table_map (sparseTable c) img !! token_key id addr with
    | Some slot => sparse_balance c slot
    | None => 0
    end
  else 0.

(** Entry [i] of the registry as the image has it. *)
Definition entry_of (c : NormalizedConfig) (img : bytes) (i : Z) : Token :=
  mkToken (slice (registryOffset c + 32 * i) 20 img)
          (default 0 (slice (registryOffset c + 32 * i) 32 img !! 20%nat)).

(** The cached registry agrees with the image and respects the profile. *)
Record registry_wf (c : NormalizedConfig) (img : bytes) (ts : list Token) : Prop := mkRegistryWf {
  rw_absent : registryOffset c = 0 -> ts = [];
  rw_count : registryOffset c <> 0 -> count_at OFF_TOKEN_COUNT img = zlen ts;
  rw_capacity : registryOffset c <> 0 -> zlen ts <= registryCapacity c;
  rw_entries : forall i t, ts !! i = Some t -> t = entry_of c img (Z.of_nat i);
  rw_widths : Forall (fun t => valid_width (tok_width t) = true) ts;
  rw_nodup : NoDup (tok_address <$> ts);
  rw_columns : profile c = ProfileWide -> columns_sum ts <= slotSize c;
  rw_narrow : (profile c = ProfileSparse /\ sparseSlotSize c = 32) \/ compact c = true ->
              Forall (fun t => tok_width t = 8) ts
}.

(** The value of the column of [n] bytes at offset [o] of a slot. *)
Definition column (o n : Z) (slot : bytes) : Z := readBE (slice o n slot).

(** A wide slot is zero past the columns of the registered tokens. *)
Definition account_slot_ok (c : NormalizedConfig) (ts : list Token) (s : bytes) : Prop :=
  Forall is_byte s /\
  (profile c = ProfileWide -> forall o n, columns_sum ts <= o -> 0 <= n -> column o n s = 0).
(** A sparse record belongs to a registered token and holds a nonzero balance
    within the token's width. *)
Definition sparse_slot_ok (c : NormalizedConfig) (ts : list Token) (k s : bytes) : Prop :=
  Forall is_byte s /\ 0 < sparse_balance c s /\
  exists id a t, 0 <= id < zlen ts /\ zlen a = 20 /\ k = token_key id a
    /\ ts !! Z.to_nat id = Some t /\ fits_width (tok_width t) (sparse_balance c s).

(** A drive at rest. *)
Record drive_wf {S} `{StoreReads S} {HK : Keccak} (d : Drive S) (img : bytes) : Prop := mkDriveWf {
  dw_holds : holds (store d) img;
  dw_length : zlen img <= MAX_SAFE_INTEGER;
  dw_geometry : geometry (zlen img) (cfg d);
  dw_accounts : table_inv (seed (cfg d)) (accountsTable (cfg d)) img;
  dw_account_slots : map_Forall (fun _ s => account_slot_ok (cfg d) (tokens_ d) s)
    (table_map (accountsTable (cfg d)) img);
  dw_sparse : profile (cfg d) = ProfileSparse ->
    table_inv (seed (cfg d)) (sparseTable (cfg d)) img;
  dw_sparse_slots : profile (cfg d) = ProfileSparse ->
    map_Forall (sparse_slot_ok (cfg d) (tokens_ d)) (table_map (sparseTable (cfg d)) img);
  dw_registry : registry_wf (cfg d) img (tokens_ d);
  dw_columns : colOff d = columns 64 (tokens_ d);
  dw_header : decode_header (slice 0 HEADER_SIZE img) = Val (cfg d)
}.

(** ** Geometry of the two tables *)
Lemma accounts_geo len c : geometry len c -> len <= MAX_SAFE_INTEGER -> table_geo len (accountsTable c).
Proof.
  intros [Hss Hcap Hlim Hto Hend _ _ _] Hlen. unfold slot_size_ok, HEADER_SIZE, OFF_LIVE_COUNT in *.
  assert (Hs : 32 <= slotSize c) by lia.
  constructor; simpl; try (unfold OFF_LIVE_COUNT, HEADER_SIZE); try lia; nia.
Qed.

Lemma sparse_geo len c : geometry len c -> len <= MAX_SAFE_INTEGER -> profile c = ProfileSparse ->
  table_geo len (sparseTable c).
Proof.
  intros [_ _ _ _ _ _ _ Hsp] Hlen Hp. destruct (Hsp Hp) as (Hss & Hcap & Hlim & Hoff & Hend & _).
  assert (Hs : 32 <= sparseSlotSize c) by lia. unfold HEADER_SIZE in *.
  constructor; simpl; try (unfold OFF_SPARSE_LIVE_COUNT, HEADER_SIZE); try lia; nia.
Qed.

Lemma rec_size_fits c len : geometry len c -> rec_size c <= slotSize c.
Proof.
  intros [Hss _ _ _ _ _ _ _]. unfold rec_size, compact, slot_size_ok in *.
  unfold ProfileWide, ProfileSingleAsset, ProfileSparse in *.
  destruct (Z.eqb_spec (profile c) 0), (Z.eqb_spec (slotSize c) 32); simpl; lia.
Qed.

(** The ranges each table writes stay clear of the other table, of its
    counter and of the registry. *)
Definition clear_of (rs : list (Z * Z)) (t : Table) : Prop :=
  Forall (fun r => disjoint_ranges r.1 r.2 (t_base t) (t_slotSize t * t_capacity t)
                   /\ disjoint_ranges r.1 r.2 (t_countOff t) 8) rs.
Definition clear_of_registry (rs : list (Z * Z)) (c : NormalizedConfig) : Prop :=
  registryOffset c <> 0 ->
  Forall (fun r => disjoint_ranges r.1 r.2 (registryOffset c) (32 * registryCapacity c)
                   /\ disjoint_ranges r.1 r.2 OFF_TOKEN_COUNT 8) rs.

Ltac ranges := repeat apply Forall_cons_2; try apply Forall_nil_2; simpl;
  unfold disjoint_ranges, HEADER_SIZE, MIN_REGISTRY_OFFSET, OFF_LIVE_COUNT,
    OFF_SPARSE_LIVE_COUNT, OFF_TOKEN_COUNT in *; try lia.

Lemma accounts_clear len c : geometry len c -> profile c = ProfileSparse ->
  clear_of (table_ranges (accountsTable c)) (sparseTable c).
Proof.
  intros [Hss Hcap Hlim Hto Hend _ _ Hsp] Hp. destruct (Hsp Hp) as (? & ? & ? & ? & ? & Hd).
  ranges; unfold slot_size_ok in Hss; nia.
Qed.

Lemma sparse_clear len c : geometry len c -> profile c = ProfileSparse ->
  clear_of (table_ranges (sparseTable c)) (accountsTable c).
Proof.
  intros [Hss Hcap Hlim Hto Hend _ _ Hsp] Hp. destruct (Hsp Hp) as (? & ? & ? & ? & ? & Hd).
  ranges; unfold slot_size_ok in Hss; nia.
Qed.

Lemma accounts_clear_registry len c : geometry len c ->
  clear_of_registry (table_ranges (accountsTable c)) c.
Proof.
  intros [Hss Hcap Hlim Hto Hend _ Hreg _] Hr. unfold registry_ok in Hreg.
  destruct Hreg as [|(? & Hreg)]; [done|]. ranges; nia.
Qed.

Lemma sparse_clear_registry len c : geometry len c -> profile c = ProfileSparse ->
  clear_of_registry (table_ranges (sparseTable c)) c.
Proof.
  intros [Hss Hcap Hlim Hto Hend _ Hreg Hsp] Hp Hr. unfold registry_ok in Hreg.
  destruct (Hsp Hp) as (? & ? & ? & ? & ? & Hd).
  destruct Hreg as [|(? & [Hreg|(? & ? & Hrd & Hrs)])]; [done|ranges; nia|].
  specialize (Hrs Hp). ranges; nia.
Qed.

Definition clear_of_header (rs : list (Z * Z)) : Prop :=
  Forall (fun r => Forall (fun h => disjoint_ranges r.1 r.2 h.1 h.2) header_ranges) rs.

Lemma accounts_clear_header len c : geometry len c -> clear_of_header (table_ranges (accountsTable c)).
Proof. intros [Hss Hcap Hlim Hto Hend _ _ _]. ranges. Qed.

Lemma sparse_clear_header len c : geometry len c -> profile c = ProfileSparse ->
  clear_of_header (table_ranges (sparseTable c)).
Proof. intros [Hss Hcap Hlim Hto Hend _ _ Hsp] Hp. destruct (Hsp Hp) as (? & ? & ? & ? & ? & _). ranges. Qed.

Lemma header_fits len c : geometry len c -> HEADER_SIZE <= len.
Proof. intros [Hss Hcap Hlim Hto Hend _ _ _]. unfold slot_size_ok in Hss. nia. Qed.

Lemma header_unchanged rs img img' : unchanged_except rs img img' -> HEADER_SIZE <= zlen img ->
  clear_of_header rs ->
  decode_header (slice 0 HEADER_SIZE img') = decode_header (slice 0 HEADER_SIZE img).
Proof.
  intros [Hz Hu] Hlen Hclear. apply decode_header_ext.
  1,2: apply zlen_slice; unfold fits, HEADER_SIZE in *; lia.
  apply Forall_forall. intros h Hh.
  assert (Hb : 0 <= h.1 /\ 0 <= h.2 /\ h.1 + h.2 <= HEADER_SIZE).
  { unfold header_ranges in Hh. apply list_elem_of_In in Hh. simpl in Hh.
    destruct Hh as [<-|[<-|[<-|[<-|[]]]]]; simpl; unfold HEADER_SIZE; lia. }
  rewrite !slice_slice by lia. apply Hu; [lia|lia|].
  eapply Forall_impl; [exact Hclear|]. intros r Hr. rewrite Forall_forall in Hr. by apply Hr.
Qed.

Lemma registry_unchanged rs c img img' ts : unchanged_except rs img img' ->
  clear_of_registry rs c -> 0 <= registryOffset c -> registry_wf c img ts -> registry_wf c img' ts.
Proof.
  intros Hu Hclear Hro [Habs Hcnt Hcap Hent Hw Hnd Hcol Hnar].
  constructor; try done.
  - intros Hr. rewrite <- (Hcnt Hr). eapply count_unchanged; [exact Hu|unfold OFF_TOKEN_COUNT; lia|].
    eapply Forall_impl; [exact (Hclear Hr)|]. by intros ? [??].
  - intros i t Ht. rewrite (Hent i t Ht).
    destruct (decide (registryOffset c = 0)) as [Hz|Hr]; [by rewrite (Habs Hz) in Ht|].
    pose proof (lookup_lt_Some _ _ _ Ht) as Hi. specialize (Hcap Hr). unfold zlen in Hcap.
    destruct Hu as [_ Hu]. unfold entry_of.
    rewrite !Hu; [done|lia|lia| |lia|lia|]; (eapply Forall_impl; [exact (Hclear Hr)|]);
      intros [o l]; unfold disjoint_ranges; simpl; intros [??]; nia.
Qed.

(** ** Records *)

(** Solves the length and range side conditions of slice and patch rewriting. *)
Ltac fit := unfold fits, disjoint_ranges in *;
  repeat match goal with
  | |- context [zlen (le_encode ?n ?v)] => rewrite (zlen_le_encode n v)
  | |- context [zlen (zeros ?n)] => rewrite (zlen_zeros n) by lia
  | |- context [zlen [?x]] => change (zlen [x]) with 1
  | |- context [zlen [?x; ?y]] => change (zlen [x; y]) with 2
  | |- context [zlen (patch ?o ?b ?l)] => rewrite (zlen_patch o b l) by fit
  end; lia.

Lemma putBE_at_ok buf lo hi v : fits lo (hi - lo) (zlen buf) -> fits_width (hi - lo) v ->
  exists enc, putBE_at buf lo hi v = Val (patch lo enc buf) /\ zlen enc = hi - lo
    /\ Forall is_byte enc /\ readBE enc = v.
Proof.
  intros Hf Hv. unfold putBE_at. rewrite zlen_slice by done. pose proof Hf as (_ & ? & _).
  destruct (putBE_fits (hi - lo) v) as (enc & -> & ? & ? & ?); [lia|done|].
  exists enc. done.
Qed.

Lemma putBE_at_overflow buf lo hi v : fits lo (hi - lo) (zlen buf) -> ~ fits_width (hi - lo) v ->
  putBE_at buf lo hi v = Exn overflow_error.
Proof.
  intros Hf Hv. unfold putBE_at. rewrite zlen_slice by done. pose proof Hf as (_ & ? & _).
  by rewrite putBE_overflow by (done || lia).
Qed.

Lemma decodeAccount_val c slot : rec_size c <= zlen slot -> decodeAccount c slot = Val (account_data c slot).
Proof.
  unfold decodeAccount, account_data, rec_size. destruct (compact c); intros.
  - by rewrite getLE32_val by lia.
  - by rewrite getLE64_val by lia.
Qed.

Lemma account_data_prefix c slot rec : zlen rec = rec_size c -> rec_size c <= zlen slot ->
  account_data c (patch 0 rec slot) = account_data c rec.
Proof.
  intros Hr Hs. unfold account_data, rec_size in *.
  assert (Hsl : forall o n, 0 <= o -> 0 <= n -> o + n <= zlen rec ->
             slice o n (patch 0 rec slot) = slice o n rec).
  { intros. rewrite <- (slice_patch_same 0 rec slot) at 2 by fit.
    rewrite slice_slice by lia. done. }
  destruct (compact c); rewrite !Hsl by lia; done.
Qed.

Lemma encodeAccount_ok c a nonce balance : zlen a = 20 -> Forall is_byte a ->
  fits_width (balance_width c) balance -> (compact c = true -> nonce <= 0xffffffff) ->
  exists rec, encodeAccount c a nonce balance = Val rec /\ zlen rec = rec_size c
    /\ Forall is_byte rec /\ slice 0 20 rec = a
    /\ account_data c rec = (nonce mod nonce_modulus c, balance).
Proof.
  intros Ha Hb Hw Hn.
  unfold encodeAccount, rec_size, account_data, balance_width, nonce_modulus in *.
  destruct (compact c).
  - rewrite (proj2 (Z.ltb_ge _ _)) by auto.
    rewrite (setBytes_val (zeros 32)) by fit. cbn [mbind outcome_bind].
    unfold setLE32. rewrite setBytes_val by fit. cbn [mbind outcome_bind].
    destruct (putBE_at_ok (patch 20 (le_encode 4 nonce) (patch 0 a (zeros 32))) 24 32 balance)
      as (enc & -> & He & Heb & Hr); [fit|done|].
    eexists. split_and!; [done|fit|auto with bytes| |].
    + rewrite !slice_patch_ne by fit. rewrite <- Ha. apply slice_patch_same. fit.
    + f_equal.
      * rewrite slice_patch_ne by fit. rewrite <- (zlen_le_encode 4 nonce) at 1.
        rewrite slice_patch_same by fit. by rewrite le_decode_encode.
      * replace 8 with (zlen enc) by lia. by rewrite slice_patch_same by fit.
  - rewrite (setBytes_val (zeros 64)) by fit. cbn [mbind outcome_bind].
    unfold setLE64. rewrite setBytes_val by fit. cbn [mbind outcome_bind].
    destruct (putBE_at_ok (patch 24 (le_encode 8 nonce) (patch 0 a (zeros 64))) 32 64 balance)
      as (enc & -> & He & Heb & Hr); [fit|done|].
    eexists. split_and!; [done|fit|auto with bytes| |].
    + rewrite !slice_patch_ne by fit. rewrite <- Ha. apply slice_patch_same. fit.
    + f_equal.
      * rewrite slice_patch_ne by fit. rewrite <- (zlen_le_encode 8 nonce) at 1.
        rewrite slice_patch_same by fit. by rewrite le_decode_encode.
      * replace 32 with (zlen enc) at 2 by lia. by rewrite slice_patch_same by fit.
Qed.

Lemma encodeAccount_overflow c a nonce balance : zlen a = 20 ->
  ~ (fits_width (balance_width c) balance /\ (compact c = true -> nonce <= 0xffffffff)) ->
  encodeAccount c a nonce balance = Exn overflow_error.
Proof.
  intros Ha Hw. unfold encodeAccount, balance_width in *. destruct (compact c).
  - destruct (Z.ltb_spec 0xffffffff nonce); [done|].
    rewrite (setBytes_val (zeros 32)) by fit. cbn [mbind outcome_bind].
    unfold setLE32. rewrite setBytes_val by fit. cbn [mbind outcome_bind].
    apply putBE_at_overflow; [fit|]. intros ?. apply Hw. auto.
  - rewrite (setBytes_val (zeros 64)) by fit. cbn [mbind outcome_bind].
    unfold setLE64. rewrite setBytes_val by fit. cbn [mbind outcome_bind].
    apply putBE_at_overflow; [fit|]. intros ?. apply Hw. split; [done|discriminate].
Qed.

(** ** Steps between drives at rest *)

(** [d'] is a drive at rest over [img'] with the geometry and registry of [d]. *)
Definition rests {S} `{StoreReads S} {HK : Keccak} (d : Drive S) (d' : Drive S) (img' : bytes) : Prop :=
  drive_wf d' img' /\ cfg d' = cfg d /\ tokens_ d' = tokens_ d.

Section AccountSpecs.
Context {S : Type} {HS : Store S} {HR : StoreReads S} {HK : Keccak} {HKL : KeccakLaws}.
Implicit Types d : Drive S.
Implicit Types img : bytes.

Lemma table_map_slot sd t img k s : table_inv sd t img -> table_map t img !! k = Some s ->
  zlen s = t_slotSize t /\ slot_live t s = true /\ t_keyOf t s = k.
Proof.
  intros [Hg Hwf _ _] Hs. apply contents_Some in Hs as (Hin & Hl & Hk); [|apply Hwf].
  split; [|done]. by apply (slots_sized t img).
Qed.

Lemma registryOffset_nonneg len c : geometry len c -> 0 <= registryOffset c.
Proof. intros [_ _ _ _ _ _ [->|(_ & Hr)] _]; [done|]. unfold MIN_REGISTRY_OFFSET, HEADER_SIZE in Hr. lia. Qed.

(** A read leaves the drive as it was. *)
Lemma leaves_rests d img d' : drive_wf d img -> leaves d img d' -> rests d d' img.
Proof. intros [] (s & -> & Hs). split; [by constructor|done]. Qed.

Lemma accounts_becomes d img m d' : drive_wf d img ->
  table_becomes (accountsTable (cfg d)) d img m d' -> map_Forall (fun _ s => account_slot_ok (cfg d) (tokens_ d) s) m ->
  exists img', rests d d' img' /\ table_map (accountsTable (cfg d)) img' = m
    /\ (profile (cfg d) = ProfileSparse ->
        table_map (sparseTable (cfg d)) img' = table_map (sparseTable (cfg d)) img).
Proof.
  intros [Hh Hlen Hgeo Hacc Hab Hsp Hsb Hreg Hcol Hhd] (img' & (s & -> & Hs) & Hinv & Hm & Hu) Hmb.
  assert (Hz : zlen img' = zlen img) by apply Hu.
  assert (Hsparse : profile (cfg d) = ProfileSparse ->
    table_inv (seed (cfg d)) (sparseTable (cfg d)) img'
    /\ table_map (sparseTable (cfg d)) img' = table_map (sparseTable (cfg d)) img).
  { intros Hp. eapply table_inv_unchanged; [by apply Hsp|exact Hu|].
    by eapply accounts_clear. }
  exists img'. split_and!; [|done|intros Hp; by destruct (Hsparse Hp)]. split; [|done].
  constructor; simpl; rewrite ?Hz; try done.
  - by rewrite Hm.
  - intros Hp. by destruct (Hsparse Hp).
  - intros Hp. destruct (Hsparse Hp) as [_ ->]. auto.
  - eapply registry_unchanged; [exact Hu|by eapply accounts_clear_registry| |done].
    by eapply registryOffset_nonneg.
  - rewrite (header_unchanged _ _ _ Hu); [done|by eapply header_fits|by eapply accounts_clear_header].
Qed.

Lemma nonzero_address_ok d addr a : toAddress addr = Val a -> isZero a = false ->
  nonzero_address addr d = (Val a, d).
Proof. intros Ha Hz. unfold nonzero_address, mbind, M_bind, liftO. by rewrite Ha, Hz. Qed.

Lemma nonzero_address_zero d addr a : toAddress addr = Val a -> isZero a = true ->
  nonzero_address addr d = (Exn err_zeroAddress, d).
Proof. intros Ha Hz. unfold nonzero_address, mbind, M_bind, liftO. by rewrite Ha, Hz. Qed.

(** [returns] past the address checks and the configuration read. *)
Lemma returns_address {A} d addr a (f : bytes -> M (Drive S) A) Q :
  toAddress addr = Val a -> isZero a = false ->
  returns (f a) d Q -> returns (x ← nonzero_address addr; f x) d Q.
Proof.
  intros Ha Hz Hf. apply returns_bind. unfold returns at 1, wp.
  by rewrite (nonzero_address_ok d addr a).
Qed.

Lemma returns_cfg {A} d (f : NormalizedConfig -> M (Drive S) A) Q :
  returns (f (cfg d)) d Q -> returns (c ← get_cfg; f c) d Q.
Proof. intros Hf. by apply returns_bind, returns_gets. Qed.

(** [getAccount] answers what the image holds, and changes nothing. *)
Lemma getAccount_spec d img addr a : drive_wf d img -> toAddress addr = Val a -> isZero a = false ->
  returns (getAccount addr) d (fun r d' =>
    r = (fun nb => mkAccount a nb.1 nb.2) <$> account_of (cfg d) img a /\ leaves d img d').
Proof.
  intros Hwf Ha Hz. pose proof Hwf as [Hh Hlen Hgeo Hacc _ _ _ _ _ _].
  unfold getAccount. eapply returns_address; [done..|]. apply returns_cfg.
  run (lookup_inv (accountsTable (cfg d)) d img). intros r d' [Hf Hd'].
  unfold account_of. destruct r as [[i s]|].
  - destruct Hf as (_ & _ & _ & _ & Hm). rewrite Hm.
    destruct (table_map_slot _ _ _ _ _ Hacc Hm) as (Hs & _ & _).
    apply returns_bind. eapply returns_lift.
    + apply decodeAccount_val. rewrite Hs. by eapply rec_size_fits.
    + by apply returns_ret.
  - simpl in Hf. rewrite Hf. by apply returns_ret.
Qed.

Context {HW : StoreWrites S}.

Lemma accounts_live c s : slot_live (accountsTable c) s = negb (isZero (slice 0 20 s)).
Proof. done. Qed.

(** A record written over the start of a slot: the account's address is kept
    live, and the bytes past the record stay. *)
Lemma record_slot c len rec a slot : geometry len c -> zlen rec = rec_size c -> slice 0 20 rec = a ->
  zlen slot = slotSize c -> isZero a = false ->
  setBytes slot rec 0 = Val (patch 0 rec slot)
  /\ zlen (patch 0 rec slot) = slotSize c
  /\ slot_live (accountsTable c) (patch 0 rec slot) = true
  /\ t_keyOf (accountsTable c) (patch 0 rec slot) = a
  /\ account_data c (patch 0 rec slot) = account_data c rec
  /\ (forall o n, 64 <= o -> 0 <= n -> slice o n (patch 0 rec slot) = slice o n slot).
Proof.
  intros Hgeo Hr Ha Hs Hz. pose proof (rec_size_fits _ _ Hgeo) as Hfit.
  assert (Hrs : rec_size c = 32 \/ rec_size c = 64) by (unfold rec_size; destruct (compact c); auto).
  assert (Hk : slice 0 20 (patch 0 rec slot) = a).
  { rewrite <- Ha. rewrite <- (slice_patch_same 0 rec slot) at 2 by fit.
    rewrite slice_slice by lia. done. }
  split_and!.
  - apply setBytes_val. fit.
  - fit.
  - rewrite accounts_live, Hk, Hz. done.
  - done.
  - apply account_data_prefix; lia.
  - intros. apply slice_patch_ne; fit.
Qed.

(** Token balances only depend on the bytes past a wide slot's record. *)
Lemma columns_ge col ts i off : Forall (fun t => valid_width (tok_width t) = true) ts ->
  columns col ts !! i = Some off -> col <= off.
Proof.
  revert col i. induction ts as [|t ts IH]; intros col i Hw; [done|].
  apply Forall_cons in Hw as [Hv Hw]. destruct i as [|i]; simpl; [by intros [= ->]|].
  intros Hi. apply IH in Hi; [|done].
  unfold valid_width in Hv. destruct (Z.eqb_spec (tok_width t) 8), (Z.eqb_spec (tok_width t) 16),
    (Z.eqb_spec (tok_width t) 32); simpl in Hv; (done || lia).
Qed.

Lemma valid_width_cases w : valid_width w = true -> w = 8 \/ w = 16 \/ w = 32.
Proof. unfold valid_width. rewrite !orb_true_iff, !Z.eqb_eq. tauto. Qed.

Lemma column_zeros o n m : column o n (zeros m) = 0.
Proof.
  unfold column, slice, zeros. rewrite drop_replicate, take_replicate.
  rewrite <- (Nat2Z.id (_ `min` _)%nat). apply readBE_zeros.
Qed.

Lemma token_balance_frame d img img' a : drive_wf d img ->
  (profile (cfg d) = ProfileSparse ->
     table_map (sparseTable (cfg d)) img' = table_map (sparseTable (cfg d)) img) ->
  (forall a', a' <> a ->
     table_map (accountsTable (cfg d)) img' !! a' = table_map (accountsTable (cfg d)) img !! a') ->
  (forall o n, 64 <= o -> 0 <= n ->
     default 0 (column o n <$> table_map (accountsTable (cfg d)) img' !! a)
     = default 0 (column o n <$> table_map (accountsTable (cfg d)) img !! a)) ->
  forall id a', token_balance (cfg d) (tokens_ d) img' id a' = token_balance (cfg d) (tokens_ d) img id a'.
Proof.
  intros Hwf Hsp Hne Heq id a'. unfold token_balance.
  destruct (Z.eqb_spec (profile (cfg d)) ProfileWide) as [Hp|].
  - destruct (columns 64 (tokens_ d) !! Z.to_nat id) as [off|] eqn:Hoff;
      [|by repeat case_match].
    destruct (tokens_ d !! Z.to_nat id) as [tk|] eqn:Htk; [|by repeat case_match].
    destruct (decide (a' = a)) as [->|Hna]; [|by rewrite Hne].
    pose proof (rw_widths _ _ _ (dw_registry _ _ Hwf)) as Hw.
    pose proof (columns_ge _ _ _ _ Hw Hoff).
    assert (Hpos : 0 <= tok_width tk).
    { rewrite Forall_lookup in Hw. apply Hw, valid_width_cases in Htk. lia. }
    specialize (Heq off (tok_width tk) ltac:(lia) Hpos).
    by destruct (table_map _ img' !! a), (table_map _ img !! a).
  - destruct (Z.eqb_spec (profile (cfg d)) ProfileSparse); [|done]. by rewrite Hsp.
Qed.

Lemma foldl_columns_sum ts x : foldl (fun sum t => sum + tok_width t) x ts = x - 64 + columns_sum ts.
Proof.
  unfold columns_sum. revert x. induction ts as [|t ts IH]; intros x; simpl; [lia|].
  rewrite IH, (IH (64 + tok_width t)). lia.
Qed.

Lemma columns_sum_ge ts : Forall (fun t => valid_width (tok_width t) = true) ts -> 64 <= columns_sum ts.
Proof.
  induction 1 as [|t ts Ht _ IH]; [done|]. unfold columns_sum. simpl.
  rewrite foldl_columns_sum. apply valid_width_cases in Ht. lia.
Qed.

(** The drive after an account write: [a] has the given data, every other
    account and every token balance is as before. *)
Definition account_written d img a (data : option (Z * Z)) d' : Prop :=
  exists img', rests d d' img' /\ account_of (cfg d) img' a = data
    /\ (forall a', a' <> a -> account_of (cfg d) img' a' = account_of (cfg d) img a')
    /\ (forall id a', token_balance (cfg d) (tokens_ d) img' id a'
                     = token_balance (cfg d) (tokens_ d) img id a').

(** What an account table's new map says about accounts and balances. *)
Lemma account_written_intro d img a slot data d' : drive_wf d img ->
  table_becomes (accountsTable (cfg d)) d img
    (<[a := slot]> (table_map (accountsTable (cfg d)) img)) d' ->
  account_slot_ok (cfg d) (tokens_ d) slot -> account_data (cfg d) slot = data ->
  (forall o n, 64 <= o -> 0 <= n ->
     column o n slot = default 0 (column o n <$> table_map (accountsTable (cfg d)) img !! a)) ->
  account_written d img a (Some data) d'.
Proof.
  intros Hwf Hb Hsb Hd Hcols.
  destruct (accounts_becomes _ _ _ _ Hwf Hb) as (img' & Hr & Hm & Hsp).
  { apply map_Forall_insert_2; [done|apply Hwf]. }
  exists img'. split_and!; [done| | |].
  - unfold account_of. by rewrite Hm, lookup_insert_eq, <- Hd.
  - intros a' Hne. unfold account_of. by rewrite Hm, lookup_insert_ne.
  - apply (token_balance_frame d img img' a Hwf Hsp).
    + intros a' Hne. by rewrite Hm, lookup_insert_ne.
    + intros o n ??. rewrite Hm, lookup_insert_eq. simpl. by apply Hcols.
Qed.

Lemma counter_run d img t : drive_wf d img -> table_geo (zlen img) t ->
  returns (counter (t_countOff t)) d (fun v d' => v = count_at (t_countOff t) img /\ leaves d img d').
Proof.
  intros Hwf Hg. apply counter_spec; [apply Hwf|]. destruct Hg. unfold fits, HEADER_SIZE in *. nia.
Qed.

Lemma wf_leaves d img d' : drive_wf d img -> leaves d img d' -> drive_wf d' img /\ cfg d' = cfg d /\ tokens_ d' = tokens_ d.
Proof. intros Hwf Hl. by apply leaves_rests. Qed.

(** A record inserted after its count was checked, built by [k] on the way. *)
Lemma counted_insert t d img rec (k : M (Drive S) unit) : drive_wf d img -> table_inv (seed (cfg d)) t img ->
  zlen rec = t_slotSize t -> slot_live t rec = true -> table_map t img !! t_keyOf t rec = None ->
  count_at (t_countOff t) img < t_limit t -> (forall d', k d' = insert t rec d') ->
  returns (n ← counter (t_countOff t); if t_limit t <=? n then throw err_tableFull else k) d (fun _ d' =>
    table_becomes t d img (<[t_keyOf t rec := rec]> (table_map t img)) d').
Proof.
  intros Hwf Hinv Hz Hl Hnew Hroom Hk. run (counter_run d img t). { apply Hinv. }
  intros v d2 [-> (s2 & -> & Hs2)]. rewrite (proj2 (Z.leb_gt _ _)) by done. unfold returns, wp. rewrite Hk.
  apply (insert_inv t (with_store s2 d) img Hs2 Hinv rec); done.
Qed.

(** The postcondition transports back over a read. *)
Lemma account_written_trans d d1 img a data d' : leaves d img d1 ->
  account_written d1 img a data d' -> account_written d img a data d'.
Proof.
  intros (s & -> & _) (img' & Hr & Hrest). exists img'. split; [exact Hr|exact Hrest].
Qed.

Lemma setAccount_spec d img addr a nonce balance : drive_wf d img ->
  toAddress addr = Val a -> isZero a = false -> Forall is_byte a ->
  fits_width (balance_width (cfg d)) balance ->
  (compact (cfg d) = true -> nonce <= 0xffffffff) ->
  is_Some (account_of (cfg d) img a) \/ count_at OFF_LIVE_COUNT img < loadLimit (cfg d) ->
  returns (setAccount addr nonce balance) d (fun _ d' =>
    account_written d img a (Some (nonce mod nonce_modulus (cfg d), balance)) d').
Proof.
  intros Hwf Ha Hz Hab Hbal Hnon Hroom. pose proof Hwf as [Hh Hlen Hgeo Hacc Hbytes _ _ _ _ _].
  unfold setAccount. eapply returns_address; [done..|]. apply returns_cfg.
  destruct (encodeAccount_ok (cfg d) a nonce balance) as (rec & He & Hrz & Hrb & Hra & Hrd);
    [by eapply toAddress_length|done..|].
  apply returns_bind. eapply returns_lift; [exact He|].
  run (lookup_inv (accountsTable (cfg d)) d img). intros r d1 [Hf Hd1].
  destruct (wf_leaves _ _ _ Hwf Hd1) as (Hwf1 & Hc1 & Ht1).
  destruct r as [[i s]|]; cbn [found_spec] in Hf.
  - destruct Hf as (Hi & Hat & Hl & Hk & Hm).
    destruct (table_map_slot _ _ _ _ _ Hacc Hm) as (Hs & _ & _).
    destruct (record_slot (cfg d) (zlen img) rec a s) as (Hset & Hz' & Hl' & Hk' & Hd' & Hcol);
      [done..|].
    apply returns_bind. eapply returns_lift; [exact Hset|].
    eapply returns_mono.
    { eapply (update_inv (accountsTable (cfg d)) d1 img); rewrite ?Hc1; try done.
      - apply Hwf1. - by rewrite Hk. }
    intros [] d2 Hd2. eapply account_written_trans; [exact Hd1|].
    rewrite <- Hc1 in *. eapply (account_written_intro d1 img a (patch 0 rec s)); [done|..].
    + by rewrite <- Hk at 1.
    + destruct (dw_account_slots _ _ Hwf1 a s Hm) as [Hsb Htail]. split; [by apply Forall_patch|].
      intros Hp o n Ho Hn. pose proof (columns_sum_ge (tokens_ d1) ltac:(apply Hwf1)).
      unfold column. rewrite Hcol by lia. by apply Htail.
    + by rewrite Hd', Hrd.
    + intros o n ??. rewrite Hm. simpl. unfold column. by rewrite Hcol.
  - assert (Hcnt : count_at OFF_LIVE_COUNT img < loadLimit (cfg d)).
    { destruct Hroom as [[x Hx]|]; [|done]. unfold account_of in Hx. by rewrite Hf in Hx. }
    assert (Hss : 0 <= slotSize (cfg d)) by (pose proof (tg_slot _ _ (ti_geo _ _ _ Hacc)); simpl in *; lia).
    destruct (record_slot (cfg d) (zlen img) rec a (zeros (slotSize (cfg d))))
      as (Hset & Hz' & Hl' & Hk' & Hd' & Hcol); [done..|by apply zlen_zeros|done|].
    eapply returns_mono.
    { eapply (counted_insert (accountsTable (cfg d)) d1 img (patch 0 rec (zeros (slotSize (cfg d))))); rewrite ?Hc1; try done.
      - by rewrite Hk'.
      - intros d'. unfold mbind, M_bind, liftO. simpl t_slotSize. by rewrite Hset. }
    intros [] d3 Hd3. eapply account_written_trans; [exact Hd1|].
    rewrite Hk' in Hd3. rewrite <- Hc1 in *.
    eapply (account_written_intro d1 img a _); [done|exact Hd3|..].
    + split; [apply Forall_patch; [done|apply Forall_zeros]|].
      intros Hp o n Ho Hn. pose proof (columns_sum_ge (tokens_ d1) ltac:(apply Hwf1)).
      unfold column. rewrite Hcol by lia. apply column_zeros.
    + by rewrite Hd', Hrd.
    + intros o n ??. rewrite Hf. simpl. unfold column. rewrite Hcol by done. apply column_zeros.
Qed.

(** A value past the record's width, or a nonce past the compact record's, is
    refused before the store is touched. *)
Lemma setAccount_overflow d addr a nonce balance :
  toAddress addr = Val a -> isZero a = false ->
  ~ (fits_width (balance_width (cfg d)) balance /\ (compact (cfg d) = true -> nonce <= 0xffffffff)) ->
  raises (setAccount addr nonce balance) d overflow_error (fun d' => d' = d).
Proof.
  intros Ha Hz Hw. unfold setAccount.
  apply raises_bind. unfold returns, wp. rewrite (nonzero_address_ok d addr a) by done.
  apply raises_bind, returns_gets. apply raises_first, raises_lift; [|done].
  apply encodeAccount_overflow; [by eapply toAddress_length|done].
Qed.

(** A new account past the load limit is refused and the drive is as before. *)
Lemma setAccount_full d img addr a nonce balance : drive_wf d img ->
  toAddress addr = Val a -> isZero a = false -> Forall is_byte a ->
  fits_width (balance_width (cfg d)) balance ->
  (compact (cfg d) = true -> nonce <= 0xffffffff) ->
  account_of (cfg d) img a = None -> loadLimit (cfg d) <= count_at OFF_LIVE_COUNT img ->
  raises (setAccount addr nonce balance) d err_tableFull (fun d' => leaves d img d').
Proof.
  intros Hwf Ha Hz Hab Hbal Hnon Hnone Hfull. pose proof Hwf as [Hh Hlen Hgeo Hacc Hbytes _ _ _ _ _].
  unfold setAccount. apply raises_bind. unfold returns, wp.
  rewrite (nonzero_address_ok d addr a) by done. apply raises_bind, returns_gets.
  destruct (encodeAccount_ok (cfg d) a nonce balance) as (rec & He & _);
    [by eapply toAddress_length|done..|].
  apply raises_bind. eapply returns_lift; [exact He|].
  run_raise (lookup_inv (accountsTable (cfg d)) d img). intros r d1 [Hf Hd1].
  destruct r as [[i s]|]; cbn [found_spec] in Hf.
  { destruct Hf as (_ & _ & _ & _ & Hm). unfold account_of in Hnone. by rewrite Hm in Hnone. }
  destruct (wf_leaves _ _ _ Hwf Hd1) as (Hwf1 & Hc1 & Ht1).
  run_raise (counter_run d1 img (accountsTable (cfg d))). { apply Hacc. }
  intros v d2 [-> Hd2]. simpl t_countOff. simpl t_limit. rewrite (proj2 (Z.leb_le _ _)) by done.
  apply raises_throw. by eapply leaves_trans.
Qed.

(** The drive after an account was deleted. In the wide profile the record's
    token columns go with it; other profiles keep every token balance. *)
Definition account_removed d img a d' : Prop :=
  exists img', rests d d' img' /\ account_of (cfg d) img' a = None
    /\ (forall a', a' <> a -> account_of (cfg d) img' a' = account_of (cfg d) img a')
    /\ (forall id a', a' <> a \/ profile (cfg d) <> ProfileWide ->
           token_balance (cfg d) (tokens_ d) img' id a' = token_balance (cfg d) (tokens_ d) img id a')
    /\ (profile (cfg d) = ProfileWide -> forall id, token_balance (cfg d) (tokens_ d) img' id a = 0).

Lemma deleteAccount_spec d img addr a force nb : drive_wf d img ->
  toAddress addr = Val a -> isZero a = false -> account_of (cfg d) img a = Some nb ->
  force = true \/ nb.1 = 0 ->
  returns (deleteAccount addr force) d (fun r d' => r = true /\ account_removed d img a d').
Proof.
  intros Hwf Ha Hz Hacct Hok. pose proof Hwf as [Hh Hlen Hgeo Hacc Hbytes _ _ _ _ _].
  unfold deleteAccount. eapply returns_address; [done..|]. apply returns_cfg.
  run (lookup_inv (accountsTable (cfg d)) d img). intros r d1 [Hf Hd1].
  destruct (wf_leaves _ _ _ Hwf Hd1) as (Hwf1 & Hc1 & Ht1).
  unfold account_of in Hacct.
  destruct r as [[i s]|]; cbn [found_spec] in Hf; [|by rewrite Hf in Hacct].
  destruct Hf as (Hi & Hat & Hl & Hk & Hm). rewrite Hm in Hacct. injection Hacct as Hnb.
  destruct (table_map_slot _ _ _ _ _ Hacc Hm) as (Hs & _ & _).
  apply returns_bind. eapply returns_lift.
  { apply decodeAccount_val. rewrite Hs. by eapply rec_size_fits. }
  rewrite Hnb.
  replace (negb force && negb (nb.1 =? 0)) with false
    by (destruct Hok as [->| ->]; [done|by rewrite andb_false_r]).
  run (remove_inv (accountsTable (cfg d)) d1 img); rewrite ?Hc1; try done.
  { apply Hwf1. }
  intros [] d2 Hd2. apply returns_ret. split; [done|].
  rewrite <- Hc1 in Hd2. rewrite Hc1 in Hd2 at 2 3. rewrite Hk in Hd2.
  destruct (accounts_becomes d1 img _ d2 Hwf1 Hd2) as (img' & (Hr1 & Hr2 & Hr3) & Hm' & Hsp).
  { apply map_Forall_delete. rewrite Hc1, Ht1. apply Hwf. }
  rewrite Hc1 in Hm', Hsp.
  assert (Hne : forall a', a' <> a -> table_map (accountsTable (cfg d)) img' !! a'
                 = table_map (accountsTable (cfg d)) img !! a')
    by (intros; by rewrite Hm', lookup_delete_ne).
  exists img'. split_and!.
  - split_and!; [done|congruence|congruence].
  - unfold account_of. by rewrite Hm', lookup_delete_eq.
  - intros a' Hna. unfold account_of. by rewrite Hne.
  - intros id a' Hcase. unfold token_balance.
    destruct (Z.eqb_spec (profile (cfg d)) ProfileWide).
    + by rewrite Hne by tauto.
    + destruct (Z.eqb_spec (profile (cfg d)) ProfileSparse); [|done]. by rewrite Hsp.
  - intros Hp id. unfold token_balance. rewrite Hp. simpl. by rewrite Hm', lookup_delete_eq.
Qed.

(** Without [force] a record whose nonce has moved is kept: replay protection
    survives. *)
Lemma deleteAccount_protected d img addr a nb : drive_wf d img ->
  toAddress addr = Val a -> isZero a = false -> account_of (cfg d) img a = Some nb -> nb.1 <> 0 ->
  raises (deleteAccount addr false) d err_nonceProtected (fun d' => leaves d img d').
Proof.
  intros Hwf Ha Hz Hacct Hnz. pose proof Hwf as [Hh Hlen Hgeo Hacc Hbytes _ _ _ _ _].
  unfold deleteAccount. apply raises_bind. unfold returns, wp.
  rewrite (nonzero_address_ok d addr a) by done. apply raises_bind, returns_gets.
  run_raise (lookup_inv (accountsTable (cfg d)) d img). intros r d1 [Hf Hd1].
  unfold account_of in Hacct.
  destruct r as [[i s]|]; cbn [found_spec] in Hf; [|by rewrite Hf in Hacct].
  destruct Hf as (Hi & Hat & Hl & Hk & Hm). rewrite Hm in Hacct. injection Hacct as Hnb.
  destruct (table_map_slot _ _ _ _ _ Hacc Hm) as (Hs & _ & _).
  apply raises_bind. eapply returns_lift.
  { apply decodeAccount_val. rewrite Hs. by eapply rec_size_fits. }
  cbn [snd]. rewrite Hnb. rewrite (proj2 (Z.eqb_neq _ _)) by done. by apply raises_throw.
Qed.

Lemma deleteAccount_absent d img addr a force : drive_wf d img ->
  toAddress addr = Val a -> isZero a = false -> account_of (cfg d) img a = None ->
  returns (deleteAccount addr force) d (fun r d' => r = false /\ leaves d img d').
Proof.
  intros Hwf Ha Hz Hacct. pose proof Hwf as [Hh Hlen Hgeo Hacc Hbytes _ _ _ _ _].
  unfold deleteAccount. eapply returns_address; [done..|]. apply returns_cfg.
  run (lookup_inv (accountsTable (cfg d)) d img). intros r d1 [Hf Hd1].
  unfold account_of in Hacct.
  destruct r as [[i s]|]; cbn [found_spec] in Hf; [|by apply returns_ret].
  destruct Hf as (_ & _ & _ & _ & Hm). by rewrite Hm in Hacct.
Qed.

(** The zero address is refused by every account operation, before any access. *)
Lemma zero_address_refused {A} d addr a (f : bytes -> M (Drive S) A) :
  toAddress addr = Val a -> isZero a = true ->
  raises (x ← nonzero_address addr; f x) d err_zeroAddress (fun d' => d' = d).
Proof.
  intros Ha Hz. apply raises_first. unfold raises, wp. by rewrite (nonzero_address_zero d addr a).
Qed.

(** Balances read from a drive at rest fit their width; nonces fit theirs. *)
Lemma account_of_bounds d img a n b : drive_wf d img -> account_of (cfg d) img a = Some (n, b) ->
  0 <= n < nonce_modulus (cfg d) /\ fits_width (balance_width (cfg d)) b.
Proof.
  intros Hwf. pose proof Hwf as [_ _ Hgeo Hacc Hbytes _ _ _ _ _]. unfold account_of.
  destruct (table_map _ img !! a) as [s|] eqn:Hm; [|done]. intros [= Hd].
  destruct (table_map_slot _ _ _ _ _ Hacc Hm) as (Hs & _ & _). simpl in Hs.
  destruct (Hbytes _ _ Hm) as [Hsb _]. pose proof (rec_size_fits _ _ Hgeo) as Hr.
  unfold account_data, nonce_modulus, balance_width, rec_size, fits_width in *.
  assert (Hle : forall o k, 0 <= o -> 0 <= k -> o + k <= zlen s ->
                0 <= le_decode (slice o k s) < 256 ^ k /\ 0 <= readBE (slice o k s) < 256 ^ k).
  { intros o k ???. rewrite <- (zlen_slice o k s) at 3 6 by fit.
    split; [apply le_decode_bound|apply readBE_bound]; auto with bytes. }
  destruct (compact (cfg d)); injection Hd as <- <-.
  - split; [apply (Hle 20 4); lia|apply (Hle 24 8); lia].
  - split; [apply (Hle 24 8); lia|apply (Hle 32 32); lia].
Qed.
End AccountSpecs.
