(* ===== verification/DriveTokens.v ===== *)
(** * Token registry and token balances of the drive

    What [registerToken], [getTokenBalance] and [setTokenBalance] of [Drive]
    do to a drive at rest, in both token profiles: the wide one (a column per
    token in the account's slot) and the sparse one (a table keyed by token id
    and address). *)

From Stdlib Require Import ZArith Lia.
From S2P Require Import Prelude Bytes Store DriveConfig DriveHeader RobinHood DriveTable Drive.

(** ** Keys *)
Lemma token_key_inj id id' a a' : 0 <= id < 65536 -> 0 <= id' < 65536 ->
  token_key id a = token_key id' a' -> id = id' /\ a = a'.
Proof.
  intros Hi Hi' [= Hlo Hhi ->]. split; [|done].
  rewrite !land_255 in Hlo, Hhi. rewrite !Z.shiftr_div_pow2 in Hhi by lia.
  change (2 ^ 8) with 256 in Hhi.
  assert (Hq : forall x, 0 <= x < 65536 -> 0 <= x / 256 < 256)
    by (intros; split; [apply Z.div_pos; lia|apply Z.div_lt_upper_bound; lia]).
  rewrite !(Z.mod_small (_ / _)) in Hhi by auto.
  rewrite (Z.div_mod id 256), (Z.div_mod id' 256) by lia. lia.
Qed.

Lemma sparseKey_val id a : zlen a = 20 -> sparseKey id a = Val (token_key id a).
Proof.
  intros Ha. unfold sparseKey, token_key. rewrite setBytes_val.
  - f_equal. unfold patch. simpl. f_equal. f_equal.
    rewrite drop_ge; [apply app_nil_r|]. unfold zlen in Ha. simpl. lia.
  - change (_ :: _ :: zeros 20) with
      ([Z.land id 255; Z.land (Z.shiftr id 8) 255] ++ zeros 20).
    rewrite zlen_app, zlen_zeros by lia. unfold fits. change (zlen [_; _]) with 2. lia.
Qed.

Lemma sparse_keyOf_app s : 24 <= zlen s -> sparse_keyOf s = slice 0 2 s ++ slice 4 20 s.
Proof.
  intros Hs. unfold sparse_keyOf.
  pose proof (zlen_slice 0 2 s ltac:(fit)) as H2. pose proof (zlen_slice 4 20 s ltac:(fit)) as H20.
  assert (Hi : patch 0 (slice 0 2 s) (zeros 22) = slice 0 2 s ++ zeros 20).
  { unfold zlen in H2. destruct (slice 0 2 s) as [|x [|y [|]]]; simpl in H2; try lia; reflexivity. }
  rewrite Hi. unfold patch. rewrite take_app_length' by (unfold zlen in H2; lia). f_equal.
  rewrite drop_ge; [by rewrite app_nil_r|]. rewrite length_app.
  pose proof (zlen_zeros 20 ltac:(lia)). unfold zlen in *. lia.
Qed.

Lemma zlen_token_key id a : zlen (token_key id a) = 2 + zlen a.
Proof. unfold token_key. by rewrite zlen_app. Qed.

(** ** Columns of a wide slot *)
Lemma columns_sum_cons t ts : columns_sum (t :: ts) = tok_width t + columns_sum ts.
Proof. unfold columns_sum at 1. simpl. rewrite foldl_columns_sum. lia. Qed.

Lemma columns_sum_app ts t : columns_sum (ts ++ [t]) = columns_sum ts + tok_width t.
Proof. unfold columns_sum. by rewrite foldl_snoc. Qed.

Lemma columns_end col ts i off t : Forall (fun t => valid_width (tok_width t) = true) ts ->
  columns col ts !! i = Some off -> ts !! i = Some t -> off + tok_width t <= col - 64 + columns_sum ts.
Proof.
  revert col i. induction ts as [|x ts IH]; intros col i Hw; [done|].
  apply Forall_cons in Hw as [Hx Hw]. rewrite columns_sum_cons.
  pose proof (columns_sum_ge ts Hw). destruct i as [|i]; simpl.
  - intros [= ->] [= ->]. lia.
  - intros Hi Ht. specialize (IH _ _ Hw Hi Ht). lia.
Qed.

Lemma columns_order col ts i j off off' t : Forall (fun t => valid_width (tok_width t) = true) ts ->
  (i < j)%nat -> columns col ts !! i = Some off -> ts !! i = Some t ->
  columns col ts !! j = Some off' -> off + tok_width t <= off'.
Proof.
  revert col i j. induction ts as [|x ts IH]; intros col i j Hw Hij; [done|].
  apply Forall_cons in Hw as [Hx Hw]. destruct j as [|j]; [lia|].
  destruct i as [|i]; simpl; [|apply IH; [done|lia]].
  intros [= ->] [= ->] Hj. by apply columns_ge in Hj.
Qed.

Lemma columns_app col ts t : columns col (ts ++ [t]) = columns col ts ++ [col - 64 + columns_sum ts].
Proof.
  revert col. induction ts as [|x ts IH]; intros col; simpl.
  - unfold columns_sum. simpl. do 2 f_equal. lia.
  - rewrite IH, columns_sum_cons. do 3 f_equal. lia.
Qed.

Lemma length_columns col ts : length (columns col ts) = length ts.
Proof. revert col. induction ts as [|t ts IH]; intros col; simpl; [done|by rewrite IH]. Qed.

Lemma next_column_sum ts : next_column ts (columns 64 ts) = columns_sum ts.
Proof.
  unfold next_column. destruct ts as [|t ts _] using rev_ind; [done|].
  rewrite columns_app, !last_snoc, columns_sum_app. lia.
Qed.

(** ** The registry *)
Lemma find_token_None ts i a : find_token ts i a = None -> a ∉ tok_address <$> ts.
Proof.
  revert i. induction ts as [|t ts IH]; intros i; simpl; [set_solver|].
  destruct (bytesEqual (tok_address t) a) eqn:He; [done|]. intros Hf Hin.
  apply elem_of_cons in Hin as [->|Hin]; [by rewrite bytesEqual_refl in He|]. by apply (IH _ Hf).
Qed.

Lemma find_token_Some ts i a r : find_token ts i a = Some r ->
  exists n t, ts !! n = Some t /\ res_id r = i + Z.of_nat n /\ res_address r = a
    /\ tok_address t = a /\ res_width r = tok_width t.
Proof.
  revert i. induction ts as [|t ts IH]; intros i; simpl; [done|].
  destruct (bytesEqual (tok_address t) a) eqn:He.
  - intros [= <-]. apply bytesEqual_eq in He. exists 0%nat, t. simpl. split_and!; try done. lia.
  - intros (n & t' & Ht & Hid & Hrest)%IH. exists (S n), t'. split_and!; try apply Hrest; [done|lia].
Qed.

(** [tokenByAddress] is the inverse of the registry's order. *)
Lemma find_token_lookup ts n t : NoDup (tok_address <$> ts) -> ts !! n = Some t ->
  find_token ts 0 (tok_address t) = Some (mkResolved (Z.of_nat n) (tok_address t) (tok_width t)).
Proof.
  intros Hnd Ht. destruct (find_token ts 0 (tok_address t)) as [r|] eqn:Hf.
  - apply find_token_Some in Hf as (m & t' & Ht' & Hid & Ha & Ha' & Hw).
    assert (m = n) as ->.
    { eapply (NoDup_lookup (tok_address <$> ts)); [done|rewrite list_lookup_fmap, Ht'; done|].
      rewrite list_lookup_fmap, Ht. simpl. by rewrite Ha'. }
    simplify_eq. destruct r; simpl in *. by subst.
  - exfalso. apply (find_token_None _ _ _ Hf). apply list_elem_of_fmap.
    exists t. split; [done|]. by eapply list_elem_of_lookup_2.
Qed.

Definition registry_ranges (c : NormalizedConfig) (n : Z) : list (Z * Z) :=
  [(registryOffset c + 32 * n, 32); (OFF_TOKEN_COUNT, 8)].

Lemma registry_clear_accounts len c n : geometry len c -> registryOffset c <> 0 ->
  0 <= n < registryCapacity c -> clear_of (registry_ranges c n) (accountsTable c).
Proof.
  intros [Hss Hcap Hlim Hto Hend _ Hreg _] Hr Hn. unfold registry_ok in Hreg.
  destruct Hreg as [|(? & Hreg)]; [done|]. ranges; nia.
Qed.

Lemma registry_clear_sparse len c n : geometry len c -> registryOffset c <> 0 ->
  profile c = ProfileSparse ->
  0 <= n < registryCapacity c -> clear_of (registry_ranges c n) (sparseTable c).
Proof.
  intros [Hss Hcap Hlim Hto Hend _ Hreg Hsp] Hr Hp Hn. unfold registry_ok in Hreg.
  destruct (Hsp Hp) as (? & ? & ? & ? & ? & Hd).
  destruct Hreg as [|(? & [Hreg|(? & ? & Hrd & Hrs)])]; [done|ranges; nia|].
  specialize (Hrs Hp). ranges; nia.
Qed.

Lemma registry_clear_header len c n : geometry len c -> registryOffset c <> 0 ->
  0 <= n < registryCapacity c -> clear_of_header (registry_ranges c n).
Proof.
  intros [Hss Hcap Hlim Hto Hend _ Hreg _] Hr Hn. unfold registry_ok in Hreg.
  destruct Hreg as [|(? & Hreg)]; [done|]. ranges.
Qed.

Lemma registry_entry_val a w : zlen a = 20 ->
  exists e, registry_entry a w = Val e /\ zlen e = 32 /\ slice 0 20 e = a /\ e !! 20%nat = Some (w mod 256).
Proof.
  intros Ha. unfold registry_entry. rewrite (setBytes_val (zeros 32)) by fit.
  cbn [mbind outcome_bind]. rewrite setBytes_val by fit. eexists. split_and!; [done|fit| |].
  - rewrite slice_patch_ne by fit. rewrite <- Ha. apply slice_patch_same. fit.
  - rewrite lookup_patch by fit. rewrite decide_True by fit. done.
Qed.

Section TokenSpecs.
Context {S : Type} {HS : Store S} {HR : StoreReads S} {HK : Keccak} {HKL : KeccakLaws}.
Implicit Types d : Drive S.
Implicit Types img : bytes.

(** The image after a registration. *)
Definition registered_image (c : NormalizedConfig) (n : Z) (e img : bytes) : bytes :=
  patch OFF_TOKEN_COUNT (le_encode 8 (n + 1)) (patch (registryOffset c + 32 * n) e img).

Lemma registered_unchanged c n e img : geometry (zlen img) c -> registryOffset c <> 0 ->
  0 <= n < registryCapacity c -> zlen e = 32 ->
  unchanged_except (registry_ranges c n) img (registered_image c n e img)
  /\ fits (registryOffset c + 32 * n) 32 (zlen img)
  /\ slice (registryOffset c + 32 * n) 32 (registered_image c n e img) = e
  /\ count_at OFF_TOKEN_COUNT (registered_image c n e img) = (n + 1) mod 2 ^ 64.
Proof.
  intros Hgeo Hr Hn He. pose proof Hgeo as [Hss Hcap Hlim Hto Hend _ Hreg _].
  unfold registry_ok, HEADER_SIZE, MIN_REGISTRY_OFFSET in *.
  assert (Hlen : 4096 <= zlen img) by (unfold slot_size_ok in Hss; nia).
  assert (Hf : fits (registryOffset c + 32 * n) 32 (zlen img)) by (unfold fits; lia).
  assert (Hro : 256 <= registryOffset c) by lia.
  assert (Hz : zlen (patch (registryOffset c + 32 * n) e img) = zlen img)
    by (apply zlen_patch; by rewrite He).
  unfold registered_image, OFF_TOKEN_COUNT in *. split_and!.
  - apply (unchanged_trans _ _ (patch (registryOffset c + 32 * n) e img)).
    + apply (unchanged_patch _ (registryOffset c + 32 * n, 32)); simpl; rewrite ?He;
        (by left) || done || lia.
    + apply (unchanged_patch _ (OFF_TOKEN_COUNT, 8)); cbn [fst snd]; rewrite ?zlen_le_encode;
        [right; by left|unfold OFF_TOKEN_COUNT; lia..|]. rewrite Hz. unfold fits. lia.
  - done.
  - rewrite slice_patch_ne by fit. rewrite <- He. apply slice_patch_same. by rewrite He.
  - apply count_at_patch. rewrite Hz. unfold fits. lia.
Qed.

Lemma registered_entries c n e img i : geometry (zlen img) c -> registryOffset c <> 0 ->
  0 <= n < registryCapacity c -> zlen e = 32 -> 0 <= i < n ->
  entry_of c (registered_image c n e img) i = entry_of c img i.
Proof.
  intros Hgeo Hr Hn He Hi. pose proof (registryOffset_nonneg _ _ Hgeo).
  destruct (registered_unchanged c n e img Hgeo Hr Hn He) as ([_ Hu] & _).
  pose proof (geo_registry _ _ Hgeo) as Hreg. unfold registry_ok, MIN_REGISTRY_OFFSET, HEADER_SIZE in Hreg.
  unfold entry_of. rewrite !Hu; try lia; [done|..]; unfold registry_ranges, OFF_TOKEN_COUNT; ranges.
Qed.

Lemma registered_registry c img ts a w e : geometry (zlen img) c -> registryOffset c <> 0 ->
  zlen ts < registryCapacity c -> valid_width w = true -> a ∉ tok_address <$> ts ->
  check_token_width c ts w = Val tt -> zlen a = 20 ->
  zlen e = 32 -> slice 0 20 e = a -> e !! 20%nat = Some (w mod 256) ->
  registry_wf c img ts ->
  registry_wf c (registered_image c (zlen ts) e img) (ts ++ [mkToken a w]).
Proof.
  intros Hgeo Hr Hn Hw Hnew Hchk Ha He Hea Hew [Habs Hcnt Hcap Hent Hws Hnd Hcol Hnar].
  pose proof (zlen_nonneg ts) as Hpos.
  destruct (registered_unchanged c (zlen ts) e img Hgeo Hr ltac:(lia) He) as (_ & Hf & Hsl & Hc).
  pose proof (geo_registry _ _ Hgeo) as Hreg. unfold registry_ok in Hreg.
  unfold check_token_width in Hchk. guards Hchk.
  constructor.
  - done.
  - intros _. rewrite Hc, zlen_app. change (zlen [_]) with 1. apply Z.mod_small. lia.
  - intros _. rewrite zlen_app. change (zlen [_]) with 1. lia.
  - intros i t. rewrite lookup_app. destruct (ts !! i) as [t'|] eqn:Ht.
    + intros [= <-]. pose proof (lookup_lt_Some _ _ _ Ht). unfold zlen in *.
      rewrite registered_entries by (done || lia). by apply Hent.
    + intros Hi. apply list_lookup_singleton_Some in Hi as [Hi <-].
      apply lookup_ge_None in Ht. assert (Z.of_nat i = zlen ts) as -> by (unfold zlen; lia).
      unfold entry_of. rewrite Hsl, Hew. simpl. f_equal.
      * pose proof (slice_slice (registryOffset c + 32 * zlen ts) 32 0 20
                      (registered_image c (zlen ts) e img)) as Hss.
        rewrite Hsl, Z.add_0_r, Hea in Hss by (pose proof Hf as (? & _); lia).
        apply Hss; pose proof Hf as (? & _); lia.
      * apply valid_width_cases in Hw. rewrite Z.mod_small; lia.
  - apply Forall_app_2; [done|]. by apply Forall_singleton.
  - rewrite fmap_app. apply NoDup_app. split_and!; [done| |apply NoDup_singleton].
    intros x Hx ->%list_elem_of_singleton. done.
  - intros Hp. rewrite columns_sum_app. simpl. rewrite Hp in Hg. simpl in Hg.
    destruct (Z.ltb_spec (slotSize c) (columns_sum ts + w)); [done|lia].
  - intros Hcase. apply Forall_app_2; [auto|]. apply Forall_singleton. simpl.
    destruct (Z.eqb_spec w 8); [done|exfalso].
    destruct Hcase as [[Hp Hs]|Hc8].
    + rewrite Hp, Hs in Hg0. done.
    + rewrite Hc8 in Hchk. done.
Qed.

(** Any account or token balance of a drive only depends on its tables. *)
Lemma token_balance_tables c ts img img' id a :
  table_map (accountsTable c) img' = table_map (accountsTable c) img ->
  (profile c = ProfileSparse -> table_map (sparseTable c) img' = table_map (sparseTable c) img) ->
  token_balance c ts img' id a = token_balance c ts img id a.
Proof.
  intros Ha Hs. unfold token_balance. rewrite Ha.
  destruct (Z.eqb_spec (profile c) ProfileSparse) as [Hp|]; [by rewrite Hs|done].
Qed.

Lemma token_balance_app d img t id a : drive_wf d img -> 0 <= id < zlen (tokens_ d) ->
  token_balance (cfg d) (tokens_ d ++ [t]) img id a = token_balance (cfg d) (tokens_ d) img id a.
Proof.
  unfold zlen. intros Hwf Hid. unfold token_balance.
  rewrite columns_app, !lookup_app_l by (rewrite ?length_columns; lia). done.
Qed.

Lemma registry_capacity_bound d img : drive_wf d img -> zlen (tokens_ d) <= 65536.
Proof.
  intros Hwf. pose proof (dw_registry _ _ Hwf) as Hreg.
  destruct (decide (registryOffset (cfg d) = 0)) as [Hz|Hz].
  - by rewrite (rw_absent _ _ _ Hreg Hz).
  - pose proof (rw_capacity _ _ _ Hreg Hz).
    destruct (geo_registry _ _ (dw_geometry _ _ Hwf)) as [|[? _]]; lia.
Qed.

(** A token id that is not registered holds nothing anywhere. *)
Lemma token_balance_fresh d img t a : drive_wf d img -> zlen a = 20 ->
  zlen (tokens_ d) < 65536 -> valid_width (tok_width t) = true ->
  token_balance (cfg d) (tokens_ d ++ [t]) img (zlen (tokens_ d)) a = 0.
Proof.
  intros Hwf Ha Hlt Hw. unfold token_balance. unfold zlen at 1 2. rewrite Nat2Z.id.
  pose proof (zlen_nonneg (tokens_ d)).
  destruct (Z.eqb_spec (profile (cfg d)) ProfileWide) as [Hp|].
  - destruct (table_map _ img !! a) as [s|] eqn:Hm; [|done].
    rewrite columns_app, !lookup_app_r, length_columns by (rewrite ?length_columns; lia).
    rewrite Nat.sub_diag. simpl.
    destruct (dw_account_slots _ _ Hwf a s Hm) as [_ Htail].
    apply valid_width_cases in Hw. apply (Htail Hp); lia.
  - destruct (Z.eqb_spec (profile (cfg d)) ProfileSparse) as [Hp|]; [|done].
    destruct (table_map _ img !! _) as [s|] eqn:Hm; [|done].
    destruct (dw_sparse_slots _ _ Hwf Hp _ s Hm) as (_ & _ & id & a' & ? & Hid & Ha' & Hk & _).
    apply token_key_inj in Hk as [? _]; lia.
Qed.

Context {HW : StoreWrites S}.

(** A registration appends to the registry and touches nothing else: accounts
    and balances are as before, and the new token's balances are zero. *)
Definition token_registered d img a w d' : Prop :=
  exists img', drive_wf d' img' /\ cfg d' = cfg d /\ tokens_ d' = tokens_ d ++ [mkToken a w]
    /\ (forall a', account_of (cfg d) img' a' = account_of (cfg d) img a')
    /\ (forall id a', 0 <= id < zlen (tokens_ d) ->
          token_balance (cfg d) (tokens_ d') img' id a' = token_balance (cfg d) (tokens_ d) img id a')
    /\ (forall a', zlen a' = 20 -> token_balance (cfg d) (tokens_ d') img' (zlen (tokens_ d)) a' = 0).

Lemma registered_wf d img a w e s' : drive_wf d img -> registryOffset (cfg d) <> 0 ->
  zlen (tokens_ d) < registryCapacity (cfg d) -> valid_width w = true ->
  a ∉ tok_address <$> tokens_ d -> check_token_width (cfg d) (tokens_ d) w = Val tt -> zlen a = 20 ->
  zlen e = 32 -> slice 0 20 e = a -> e !! 20%nat = Some (w mod 256) ->
  holds s' (registered_image (cfg d) (zlen (tokens_ d)) e img) ->
  token_registered d img a w
    (mkDrive s' (cfg d) (tokens_ d ++ [mkToken a w]) (colOff d ++ [columns_sum (tokens_ d)])).
Proof.
  intros Hwf Hr Hn Hw Hnew Hchk Ha He Hea Hew Hs'.
  pose proof Hwf as [Hh Hlen Hgeo Hacc Hab Hsp Hsb Hreg Hcol _].
  pose proof (zlen_nonneg (tokens_ d)) as Hpos.
  destruct (registered_unchanged (cfg d) (zlen (tokens_ d)) e img Hgeo Hr ltac:(lia) He)
    as (Hu & _ & _ & _).
  set (img' := registered_image _ _ _ _) in *. assert (Hz : zlen img' = zlen img) by apply Hu.
  destruct (table_inv_unchanged _ _ _ _ _ Hacc Hu
    (registry_clear_accounts _ _ _ Hgeo Hr (conj Hpos Hn))) as [Hacc' Hm].
  assert (Hsparse : profile (cfg d) = ProfileSparse ->
    table_inv (seed (cfg d)) (sparseTable (cfg d)) img'
    /\ table_map (sparseTable (cfg d)) img' = table_map (sparseTable (cfg d)) img).
  { intros Hp. eapply table_inv_unchanged; [by apply Hsp|exact Hu|].
    by eapply registry_clear_sparse. }
  assert (Hcap : registryCapacity (cfg d) <= 65536)
    by (destruct (geo_registry _ _ Hgeo) as [|[? _]]; [done|lia]).
  assert (Hsm : profile (cfg d) = ProfileSparse ->
    table_map (sparseTable (cfg d)) img' = table_map (sparseTable (cfg d)) img)
    by (intros Hp; by destruct (Hsparse Hp)).
  exists img'. split_and!; try done; simpl.
  - constructor; simpl; rewrite ?Hz; try done.
    + rewrite Hm. eapply map_Forall_impl; [exact Hab|]. intros k s [Hb Ht]. split; [done|].
      intros Hp o n. rewrite columns_sum_app. simpl. apply valid_width_cases in Hw.
      intros. apply (Ht Hp); lia.
    + intros Hp. by destruct (Hsparse Hp).
    + intros Hp. rewrite Hsm by done. eapply map_Forall_impl; [exact (Hsb Hp)|].
      intros k s (Hb & Hv & id & a' & t & Hid & Ha' & Hk & Htk & Hfw). split_and!; try done.
      exists id, a', t. rewrite zlen_app. change (zlen [_]) with 1. split_and!; try done; [lia|lia|].
      by apply lookup_app_l_Some.
    + by apply registered_registry.
    + by rewrite columns_app, Hcol.
    + rewrite (header_unchanged _ _ _ Hu); [by apply Hwf|by eapply header_fits|].
      by eapply registry_clear_header.
  - intros a'. unfold account_of. by rewrite Hm.
  - intros id a' Hid. rewrite <- (token_balance_app d img (mkToken a w)) by done.
    by apply token_balance_tables.
  - intros a' Ha'. rewrite <- (token_balance_fresh d img (mkToken a w) a') by (done || lia).
    by apply token_balance_tables.
Qed.

Lemma registerToken_spec d img addr a w : drive_wf d img -> toAddress addr = Val a ->
  registryOffset (cfg d) <> 0 -> valid_width w = true -> a ∉ tok_address <$> tokens_ d ->
  zlen (tokens_ d) < registryCapacity (cfg d) ->
  check_token_width (cfg d) (tokens_ d) w = Val tt ->
  returns (registerToken addr w) d (fun id d' =>
    id = zlen (tokens_ d) /\ token_registered d img a w d').
Proof.
  intros Hwf Ha Hr Hw Hnew Hn Hchk. pose proof Hwf as [Hh Hlen Hgeo _ _ _ _ _ Hcol _].
  pose proof (toAddress_length _ _ Ha) as Hla. pose proof (zlen_nonneg (tokens_ d)).
  destruct (registry_entry_val a w Hla) as (e & He & Hez & Hea & Hew).
  destruct (registered_unchanged (cfg d) (zlen (tokens_ d)) e img Hgeo Hr ltac:(lia) Hez)
    as (_ & Hf & _ & _).
  unfold registerToken. apply returns_bind. eapply returns_lift; [exact Ha|]. apply returns_cfg.
  rewrite (proj2 (Z.eqb_neq _ _)) by done. rewrite Hw. cbn [negb].
  apply returns_bind. unfold tokenByAddress. apply returns_bind.
  eapply returns_lift; [by apply toAddress_bytes|]. apply returns_gets.
  destruct (find_token (tokens_ d) 0 a) as [r|] eqn:Hfind.
  { exfalso. apply find_token_Some in Hfind as (n & t & Ht & _ & _ & Hta & _). apply Hnew.
    apply list_elem_of_fmap. exists t. split; [done|]. by eapply list_elem_of_lookup_2. }
  rewrite bool_decide_eq_false_2 by (by intros [? [=]]).
  apply returns_bind, returns_gets. rewrite (proj2 (Z.leb_gt _ _)) by done.
  apply returns_bind. eapply returns_lift; [exact Hchk|].
  apply returns_bind. eapply returns_lift; [exact He|].
  run (write_spec d img); [by rewrite Hez|]. intros [] d1 (s1 & -> & Hs1).
  run (setCounter_spec (with_store s1 d) (patch (registryOffset (cfg d) + 32 * zlen (tokens_ d)) e img)).
  { rewrite zlen_patch by (by rewrite Hez). pose proof (dw_geometry _ _ Hwf) as [Hss ? ? ? ? ? ? ?].
    unfold fits, OFF_TOKEN_COUNT, slot_size_ok, HEADER_SIZE in *. nia. }
  intros [] d2 (s2 & -> & Hs2). apply returns_bind, returns_modify, returns_ret. split; [done|].
  assert (Hnc : next_column (tokens_ d) (colOff d) = columns_sum (tokens_ d))
    by (rewrite Hcol; apply next_column_sum).
  pose proof (registered_wf d img a w e s2 Hwf Hr Hn Hw Hnew Hchk Hla Hez Hea Hew Hs2) as Hreg.
  rewrite <- Hnc in Hreg. exact Hreg.
Qed.
End TokenSpecs.

(** ** Balances *)
Section BalanceSpecs.
Context {S : Type} {HS : Store S} {HR : StoreReads S} {HK : Keccak} {HKL : KeccakLaws}.
Implicit Types d : Drive S.
Implicit Types img : bytes.

Lemma known_token_ok d img id : drive_wf d img -> 0 <= id < zlen (tokens_ d) ->
  exists t off, tokens_ d !! Z.to_nat id = Some t /\ columns 64 (tokens_ d) !! Z.to_nat id = Some off
    /\ known_token id d = (Val (tok_width t, off), d).
Proof.
  intros Hwf Hid. unfold zlen in Hid.
  destruct (lookup_lt_is_Some_2 (tokens_ d) (Z.to_nat id)) as [t Ht]; [lia|].
  destruct (lookup_lt_is_Some_2 (columns 64 (tokens_ d)) (Z.to_nat id)) as [off Hoff];
    [rewrite length_columns; lia|].
  exists t, off. split_and!; [done..|].
  unfold known_token, mbind, M_bind, gets. unfold zlen.
  rewrite (proj2 (Z.leb_le _ _)), (proj2 (Z.ltb_lt _ _)) by lia. simpl.
  rewrite Ht, (dw_columns _ _ Hwf), Hoff. done.
Qed.

Lemma known_token_unknown d id : ~ (0 <= id < zlen (tokens_ d)) ->
  known_token id d = (Exn err_unknownToken, d).
Proof.
  intros Hid. unfold known_token, mbind, M_bind, gets.
  destruct (Z.leb_spec 0 id), (Z.ltb_spec id (zlen (tokens_ d))); simpl; (done || lia).
Qed.

(** [returns] past the token check. *)
Lemma returns_token {A} d img id t off (f : Z * Z -> M (Drive S) A) Q : drive_wf d img ->
  tokens_ d !! Z.to_nat id = Some t -> columns 64 (tokens_ d) !! Z.to_nat id = Some off -> 0 <= id ->
  returns (f (tok_width t, off)) d Q -> returns (x ← known_token id; f x) d Q.
Proof.
  intros Hwf Ht Hoff Hid Hf. pose proof (lookup_lt_Some _ _ _ Ht).
  destruct (known_token_ok d img id Hwf) as (t' & off' & Ht' & Hoff' & Hk); [unfold zlen; lia|].
  simplify_eq. apply returns_bind. unfold returns at 1, wp. by rewrite Hk.
Qed.

(** [getTokenBalance] answers what the image holds, and changes nothing. *)
Lemma getTokenBalance_spec d img addr a id : drive_wf d img -> toAddress addr = Val a ->
  isZero a = false -> 0 <= id < zlen (tokens_ d) -> profile (cfg d) <> ProfileSingleAsset ->
  returns (getTokenBalance addr id) d (fun v d' =>
    v = token_balance (cfg d) (tokens_ d) img id a /\ leaves d img d').
Proof.
  intros Hwf Ha Hz Hid Hp. pose proof Hwf as [Hh Hlen Hgeo Hacc Hab Hsp Hsb _ _ _].
  destruct (known_token_ok d img id Hwf Hid) as (t & off & Ht & Hoff & _).
  unfold getTokenBalance. eapply returns_address; [done..|].
  eapply returns_token; [done..|lia|]. apply returns_cfg. unfold token_balance.
  destruct (Z.eqb_spec (profile (cfg d)) ProfileWide) as [Hw|Hnw].
  - run (lookup_inv (accountsTable (cfg d)) d img). intros r d' [Hf Hd'].
    rewrite Ht, Hoff. destruct r as [[i s]|]; cbn [found_spec] in Hf.
    + destruct Hf as (_ & _ & _ & _ & Hm). rewrite Hm. by apply returns_ret.
    + rewrite Hf. by apply returns_ret.
  - destruct (Z.eqb_spec (profile (cfg d)) ProfileSparse) as [Hs|Hns].
    + apply returns_bind. eapply returns_lift; [apply sparseKey_val; by eapply toAddress_length|].
      run (lookup_inv (sparseTable (cfg d)) d img). intros r d' [Hf Hd'].
      destruct r as [[i s]|]; cbn [found_spec] in Hf.
      * destruct Hf as (_ & _ & _ & _ & Hm). rewrite Hm. by apply returns_ret.
      * rewrite Hf. by apply returns_ret.
    + destruct (geo_slot _ _ Hgeo) as [[? _]|[[? _]|[? _]]]; done.
Qed.

Lemma sparse_becomes d img m d' : drive_wf d img -> profile (cfg d) = ProfileSparse ->
  table_becomes (sparseTable (cfg d)) d img m d' ->
  map_Forall (sparse_slot_ok (cfg d) (tokens_ d)) m ->
  exists img', rests d d' img' /\ table_map (sparseTable (cfg d)) img' = m
    /\ table_map (accountsTable (cfg d)) img' = table_map (accountsTable (cfg d)) img.
Proof.
  intros [Hh Hlen Hgeo Hacc Hab Hsp Hsb Hreg Hcol Hhd] Hp (img' & (s & -> & Hs) & Hinv & Hm & Hu) Hmb.
  assert (Hz : zlen img' = zlen img) by apply Hu.
  destruct (table_inv_unchanged _ _ _ _ _ Hacc Hu (sparse_clear _ _ Hgeo Hp)) as [Hacc' Ha'].
  exists img'. split_and!; [|done..]. split; [|done].
  constructor; simpl; rewrite ?Hz; try done.
  - by rewrite Ha'.
  - by rewrite Hm.
  - eapply registry_unchanged; [exact Hu|by eapply sparse_clear_registry| |done].
    by eapply registryOffset_nonneg.
  - rewrite (header_unchanged _ _ _ Hu); [done|by eapply header_fits|by eapply sparse_clear_header].
Qed.

(** The drive after a token write: that holding has the new value, every other
    holding and every account is as before (a wide slot created for the holding
    counts as the zero account it is). *)
Definition token_written d img id a v d' : Prop :=
  exists img', rests d d' img'
    /\ token_balance (cfg d) (tokens_ d) img' id a = v
    /\ (forall id' a', 0 <= id' < zlen (tokens_ d) -> (id', a') <> (id, a) ->
          token_balance (cfg d) (tokens_ d) img' id' a' = token_balance (cfg d) (tokens_ d) img id' a')
    /\ (forall a', default (0, 0) (account_of (cfg d) img' a')
                   = default (0, 0) (account_of (cfg d) img a')).

Lemma token_written_trans d d1 img id a v d' : leaves d img d1 ->
  token_written d1 img id a v d' -> token_written d img id a v d'.
Proof. intros (s & -> & _) (img' & Hr & Hrest). exists img'. split; [exact Hr|exact Hrest]. Qed.

Lemma token_unwritten d img id a d' : drive_wf d img -> leaves d img d' ->
  token_written d img id a (token_balance (cfg d) (tokens_ d) img id a) d'.
Proof. intros Hwf Hl. exists img. split_and!; [by apply leaves_rests|done..]. Qed.

(** A sparse table's new map, as balances. *)
Lemma sparse_written_intro d img id a os v d' : drive_wf d img -> profile (cfg d) = ProfileSparse ->
  0 <= id < zlen (tokens_ d) -> zlen a = 20 ->
  table_becomes (sparseTable (cfg d)) d img
    (partial_alter (fun _ => os) (token_key id a) (table_map (sparseTable (cfg d)) img)) d' ->
  match os with
  | Some s => sparse_slot_ok (cfg d) (tokens_ d) (token_key id a) s /\ sparse_balance (cfg d) s = v
  | None => v = 0
  end ->
  token_written d img id a v d'.
Proof.
  intros Hwf Hp Hid Ha Hb Hos. pose proof (registry_capacity_bound d img Hwf).
  destruct (sparse_becomes _ _ _ _ Hwf Hp Hb) as (img' & Hr & Hm & Hma).
  { intros k s Hk. destruct (decide (k = token_key id a)) as [->|Hne].
    - rewrite lookup_partial_alter_eq in Hk. subst os. apply Hos.
    - rewrite lookup_partial_alter_ne in Hk by done. by apply (dw_sparse_slots _ _ Hwf Hp). }
  assert (Hpw : (profile (cfg d) =? ProfileWide) = false) by (by rewrite Hp).
  assert (Hps : (profile (cfg d) =? ProfileSparse) = true) by (by rewrite Hp).
  exists img'. split_and!; [done| | |].
  - unfold token_balance. rewrite Hpw, Hps, Hm, lookup_partial_alter_eq.
    destruct os; [by destruct Hos|done].
  - intros id' a' Hid' Hne. unfold token_balance. rewrite Hpw, Hps, Hm.
    rewrite lookup_partial_alter_ne; [done|]. intros Hk.
    apply token_key_inj in Hk as [-> ->]; [done|lia|lia].
  - intros a'. unfold account_of. by rewrite Hma.
Qed.

(** ** Sparse records *)
Definition sparse_width (c : NormalizedConfig) : Z := if sparseSlotSize c =? 32 then 8 else 32.

Lemma sparse_record c s v : sparseSlotSize c = 64 \/ sparseSlotSize c = 32 ->
  zlen s = sparseSlotSize c -> Forall is_byte s -> fits_width (sparse_width c) v ->
  exists s', putSparseBalance c s v = Val s' /\ zlen s' = sparseSlotSize c /\ Forall is_byte s'
    /\ sparse_keyOf s' = sparse_keyOf s /\ slice 4 20 s' = slice 4 20 s /\ sparse_balance c s' = v.
Proof.
  intros Hc Hs Hb Hv. unfold putSparseBalance, sparse_balance, sparse_width in *.
  set (lo := if sparseSlotSize c =? 32 then 24 else 32).
  set (hi := if sparseSlotSize c =? 32 then 32 else 64).
  assert (Hlo : 24 <= lo /\ hi <= zlen s /\ hi - lo = if sparseSlotSize c =? 32 then 8 else 32)
    by (unfold lo, hi; destruct (Z.eqb_spec (sparseSlotSize c) 32); lia).
  replace (if sparseSlotSize c =? 32 then putBE_at s 24 32 v else putBE_at s 32 64 v)
    with (putBE_at s lo hi v) by (unfold lo, hi; by destruct (_ =? _)).
  destruct Hlo as (Hlo & Hhi & Hw). rewrite <- Hw in Hv.
  assert (Hpos : 0 <= hi - lo) by (rewrite Hw; destruct (_ =? _); lia).
  destruct (putBE_at_ok s lo hi v) as (enc & Hput & Henc & Heb & Hr); [fit|done|].
  exists (patch lo enc s).
  assert (Hfit : fits lo (zlen enc) (zlen s)) by (rewrite Henc; fit).
  assert (Hlow : forall o n, 0 <= o -> 0 <= n -> o + n <= 24 ->
                 slice o n (patch lo enc s) = slice o n s)
    by (intros; apply slice_patch_ne; [done|lia|lia|unfold disjoint_ranges; lia]).
  assert (Hz : zlen (patch lo enc s) = zlen s) by (by apply zlen_patch).
  split_and!; [done|lia|auto with bytes| |by apply Hlow|].
  - rewrite !sparse_keyOf_app by lia. by rewrite !Hlow by lia.
  - pose proof (slice_patch_same lo enc s Hfit) as Hsame. rewrite Henc in Hsame. unfold lo, hi in *.
    destruct (sparseSlotSize c =? 32); [change (32 - 24) with 8 in Hsame|change (64 - 32) with 32 in Hsame];
      by rewrite Hsame.
Qed.

(** The record [setTokenBalance] builds for a new holding, before its balance. *)
Definition blank_sparse (c : NormalizedConfig) (id : Z) (a : bytes) : bytes :=
  patch 4 a (patch 0 [Z.land id 255; Z.land (Z.shiftr id 8) 255] (zeros (sparseSlotSize c))).

Lemma is_byte_land x : is_byte (Z.land x 255).
Proof. rewrite land_255. apply Z.mod_pos_bound. lia. Qed.

Lemma blank_sparse_ok c id a : sparseSlotSize c = 64 \/ sparseSlotSize c = 32 -> zlen a = 20 ->
  Forall is_byte a ->
  zlen (blank_sparse c id a) = sparseSlotSize c /\ Forall is_byte (blank_sparse c id a)
  /\ sparse_keyOf (blank_sparse c id a) = token_key id a /\ slice 4 20 (blank_sparse c id a) = a
  /\ setBytes (zeros (sparseSlotSize c)) [Z.land id 255; Z.land (Z.shiftr id 8) 255] 0
      = Val (patch 0 [Z.land id 255; Z.land (Z.shiftr id 8) 255] (zeros (sparseSlotSize c)))
  /\ setBytes (patch 0 [Z.land id 255; Z.land (Z.shiftr id 8) 255] (zeros (sparseSlotSize c))) a 4
      = Val (blank_sparse c id a).
Proof.
  intros Hc Ha Hb. unfold blank_sparse. set (p := [Z.land id 255; _]).
  assert (Hp : zlen p = 2) by done.
  assert (Hz : zlen (patch 0 p (zeros (sparseSlotSize c))) = sparseSlotSize c) by fit.
  assert (Hz' : zlen (patch 4 a (patch 0 p (zeros (sparseSlotSize c)))) = sparseSlotSize c) by fit.
  assert (Ha4 : slice 4 20 (patch 4 a (patch 0 p (zeros (sparseSlotSize c)))) = a)
    by (rewrite <- Ha at 1; apply slice_patch_same; fit).
  split_and!; try done.
  - repeat apply Forall_patch; auto using Forall_zeros.
    repeat constructor; apply is_byte_land.
  - rewrite sparse_keyOf_app, Ha4 by lia. unfold token_key. f_equal.
  - apply setBytes_val. fit.
  - apply setBytes_val. fit.
Qed.

Lemma sparse_width_fits d img id t v : drive_wf d img -> profile (cfg d) = ProfileSparse ->
  tokens_ d !! id = Some t -> fits_width (tok_width t) v -> fits_width (sparse_width (cfg d)) v.
Proof.
  intros Hwf Hp Ht Hv. unfold sparse_width. pose proof (dw_registry _ _ Hwf) as Hreg.
  destruct (Z.eqb_spec (sparseSlotSize (cfg d)) 32) as [He|].
  - pose proof (rw_narrow _ _ _ Hreg (or_introl (conj Hp He))) as Hn.
    rewrite Forall_lookup in Hn. by rewrite (Hn _ _ Ht) in Hv.
  - pose proof (rw_widths _ _ _ Hreg) as Hw. rewrite Forall_lookup in Hw.
    apply Hw, valid_width_cases in Ht. unfold fits_width in *.
    assert (256 ^ tok_width t <= 256 ^ 32) by (apply Z.pow_le_mono_r; lia). lia.
Qed.

Context {HW : StoreWrites S}.

(** The room a write needs: none to clear or update a holding, a free slot to
    create one. *)
Definition token_room d img id a v : Prop :=
  v = 0 \/
  if profile (cfg d) =? ProfileWide then
    is_Some (account_of (cfg d) img a) \/ count_at OFF_LIVE_COUNT img < loadLimit (cfg d)
  else
    token_balance (cfg d) (tokens_ d) img id a <> 0
    \/ count_at OFF_SPARSE_LIVE_COUNT img < sparseLoadLimit (cfg d).

(** What a token write needs of its arguments. *)
Record token_args d img (addr : AddressLike) (a : bytes) (id : Z) (t : Token) (off v : Z) : Prop := mkTokenArgs {
  ta_wf : drive_wf d img;
  ta_address : toAddress addr = Val a;
  ta_nonzero : isZero a = false;
  ta_bytes : Forall is_byte a;
  ta_id : 0 <= id;
  ta_token : tokens_ d !! Z.to_nat id = Some t;
  ta_off : columns 64 (tokens_ d) !! Z.to_nat id = Some off;
  ta_width : fits_width (tok_width t) v
}.
Lemma token_args_intro d img addr a id t v : drive_wf d img -> toAddress addr = Val a -> isZero a = false ->
  Forall is_byte a -> 0 <= id -> tokens_ d !! Z.to_nat id = Some t -> fits_width (tok_width t) v ->
  exists off, token_args d img addr a id t off v.
Proof.
  intros Hwf Ha Hz Hab Hid Ht Hv. pose proof (lookup_lt_Some _ _ _ Ht) as Hlt.
  destruct (known_token_ok d img id Hwf) as (t' & off & Ht' & Hoff & _); [unfold zlen; lia|]. simplify_eq.
  exists off. by constructor.
Qed.
Lemma token_args_leaves d d1 img addr a id t off v : leaves d img d1 -> token_args d img addr a id t off v ->
  token_args d1 img addr a id t off v.
Proof. intros Hl [Hwf ???????]. pose proof (wf_leaves _ _ _ Hwf Hl) as (? & _ & Ht). by constructor; rewrite ?Ht. Qed.
Lemma token_args_bounds d img addr a id t off v : token_args d img addr a id t off v ->
  zlen a = 20 /\ 0 <= id < zlen (tokens_ d) /\ 0 <= tok_width t.
Proof.
  intros [Hwf Ha _ _ Hid Ht _ _]. split_and!; [by eapply toAddress_length|done| |].
  - apply lookup_lt_Some in Ht. unfold zlen. lia.
  - pose proof (rw_widths _ _ _ (dw_registry _ _ Hwf)) as Hw. rewrite Forall_lookup in Hw.
    apply Hw, valid_width_cases in Ht. lia.
Qed.

(** The sparse branch of [setTokenBalance], from the lookup's result on. *)
Definition sparse_step (c : NormalizedConfig) (id : Z) (a : bytes) (v : Z) (found : option (Z * bytes)) : M (Drive S) unit :=
  let t := sparseTable c in
  if v =? 0 then match found with None => mret tt | Some (index, _) => remove t index end
  else match found with
       | Some (index, slot) => slot' ← liftO (putSparseBalance c slot v); writeSlot t index slot'
       | None =>
           n ← counter (t_countOff t);
           if t_limit t <=? n then throw err_tableFull else
           rec ← liftO (setBytes (zeros (t_slotSize t)) [Z.land id 255; Z.land (Z.shiftr id 8) 255] 0);
           rec ← liftO (setBytes rec a 4);
           rec ← liftO (putSparseBalance c rec v);
           insert t rec
       end.

Lemma sparse_reduces d img addr a id t off v Q : token_args d img addr a id t off v -> profile (cfg d) = ProfileSparse ->
  (forall r d1, found_spec (sparseTable (cfg d)) img (token_key id a) r -> leaves d img d1 ->
     returns (sparse_step (cfg d) id a v r) d1 Q) ->
  returns (setTokenBalance addr id v) d Q.
Proof.
  intros Hargs Hp Hk. destruct (token_args_bounds _ _ _ _ _ _ _ _ Hargs) as (Hla & Hidl & Hw).
  destruct Hargs as [Hwf Ha Hz Hab Hid Ht Hoff Hv]. pose proof Hwf as [Hh _ _ _ _ Hsp _ _ _ _]. specialize (Hsp Hp).
  unfold setTokenBalance. eapply returns_address; [done..|]. eapply returns_token; [done..|].
  rewrite width_check, bool_decide_eq_true_2 by done. cbn [negb]. apply returns_cfg. rewrite Hp. simpl.
  apply returns_bind. eapply returns_lift; [by apply sparseKey_val|].
  run (lookup_inv (sparseTable (cfg d)) d img). intros r d1 [Hf Hd1]. by apply Hk.
Qed.

(** Its three cases: a holding cleared, rewritten or created. *)
Section SparseCases.
Context d img addr a id t off v (Hargs : token_args d img addr a id t off v) (Hp : profile (cfg d) = ProfileSparse).
Abbreviation Sp := (sparseTable (cfg d)).

Lemma sparse_map_written os d' :
  table_becomes Sp d img (partial_alter (fun _ => os) (token_key id a) (table_map Sp img)) d' ->
  match os with
  | Some s => sparse_slot_ok (cfg d) (tokens_ d) (token_key id a) s /\ sparse_balance (cfg d) s = v
  | None => v = 0
  end -> token_written d img id a v d'.
Proof.
  destruct (token_args_bounds _ _ _ _ _ _ _ _ Hargs) as (? & ? & _). by apply sparse_written_intro; [apply Hargs|..].
Qed.

Lemma sparse_cleared r : v = 0 -> found_spec Sp img (token_key id a) r ->
  returns (match r with None => mret tt | Some (index, _) => remove Sp index end) d (fun _ => token_written d img id a v).
Proof.
  intros Hv Hf. pose proof (dw_sparse _ _ (ta_wf _ _ _ _ _ _ _ _ Hargs) Hp) as Hsp.
  pose proof (dw_holds _ _ (ta_wf _ _ _ _ _ _ _ _ Hargs)) as Hh. destruct r as [[i s]|]; cbn [found_spec] in Hf.
  - destruct Hf as (Hi & Hat & Hl & Hk & Hm).
    eapply returns_mono; [by eapply (remove_inv Sp d img Hh Hsp i s)|].
    intros [] d2 Hd2. rewrite Hk in Hd2. by apply (sparse_map_written None).
  - apply returns_ret. apply (sparse_map_written None); [|done].
    exists img. split_and!; [by apply leaves_refl|done| |apply unchanged_refl]. symmetry. exact (delete_id _ _ Hf).
Qed.

Lemma sparse_put s : 0 < v -> zlen s = sparseSlotSize (cfg d) -> Forall is_byte s -> exists s', putSparseBalance (cfg d) s v = Val s'
  /\ zlen s' = sparseSlotSize (cfg d) /\ sparse_keyOf s' = sparse_keyOf s /\ slice 4 20 s' = slice 4 20 s
  /\ sparse_slot_ok (cfg d) (tokens_ d) (token_key id a) s' /\ sparse_balance (cfg d) s' = v.
Proof.
  intros Hpos Hs Hb. destruct (token_args_bounds _ _ _ _ _ _ _ _ Hargs) as (_ & Hidl & _).
  destruct Hargs as [Hwf Ha Hz Hab Hid Ht Hoff Hv].
  pose proof (sparse_width_fits _ _ _ _ _ Hwf Hp Ht Hv) as Hsv. pose proof (toAddress_length _ _ Ha).
  destruct (geo_sparse _ _ (dw_geometry _ _ Hwf) Hp) as (Hss & _).
  destruct (sparse_record (cfg d) s v) as (s' & Hput & Hs' & Hsb' & Hk' & Hl' & Hbal); [done..|].
  exists s'. split_and!; try done. split_and!; [done|by rewrite Hbal|]. exists id, a, t. by rewrite Hbal.
Qed.

Lemma sparse_rewritten i s : 0 < v -> found_spec Sp img (token_key id a) (Some (i, s)) ->
  returns (slot' ← liftO (putSparseBalance (cfg d) s v); writeSlot Sp i slot') d (fun _ => token_written d img id a v).
Proof.
  intros Hpos (Hi & Hat & Hl & Hk & Hm). pose proof (ta_wf _ _ _ _ _ _ _ _ Hargs) as Hwf.
  pose proof (dw_sparse _ _ Hwf Hp) as Hsp. destruct (table_map_slot _ _ _ _ _ Hsp Hm) as (Hs & _ & _).
  destruct (dw_sparse_slots _ _ Hwf Hp _ _ Hm) as (Hsb & _ & _).
  destruct (sparse_put s) as (s' & Hput & Hs' & Hk' & Hl' & Hok); [done..|].
  apply returns_bind. eapply returns_lift; [exact Hput|]. eapply returns_mono.
  { apply (update_inv Sp d img (dw_holds _ _ Hwf) Hsp i s s'); try done.
    unfold slot_live in *. simpl t_liveOff in *. by rewrite Hl'. }
  intros [] d2 Hd2. rewrite Hk in Hd2. by apply (sparse_map_written (Some s')).
Qed.

Lemma sparse_created : 0 < v -> table_map Sp img !! token_key id a = None ->
  count_at OFF_SPARSE_LIVE_COUNT img < sparseLoadLimit (cfg d) ->
  returns (sparse_step (cfg d) id a v None) d (fun _ => token_written d img id a v).
Proof.
  intros Hpos Hf Hcnt. destruct (token_args_bounds _ _ _ _ _ _ _ _ Hargs) as (Hla & _ & _).
  pose proof (ta_wf _ _ _ _ _ _ _ _ Hargs) as Hwf. pose proof (dw_sparse _ _ Hwf Hp) as Hsp.
  destruct (geo_sparse _ _ (dw_geometry _ _ Hwf) Hp) as (Hss & _).
  destruct (blank_sparse_ok (cfg d) id a) as (Hbz & Hbb & Hbk & Hbl & Hset1 & Hset2); [done|done|apply Hargs|].
  destruct (sparse_put (blank_sparse (cfg d) id a)) as (s' & Hput & Hs' & Hk' & Hl' & Hok); [done..|].
  rewrite Hbk in Hk'. rewrite Hbl in Hl'. unfold sparse_step. rewrite (proj2 (Z.eqb_neq _ _)) by lia.
  eapply returns_mono.
  { apply (counted_insert Sp d img s'); try done.
    - unfold slot_live. simpl t_liveOff. rewrite Hl'. by rewrite (ta_nonzero _ _ _ _ _ _ _ _ Hargs).
    - simpl t_keyOf. by rewrite Hk'.
    - intros d'. unfold mbind, M_bind, liftO. simpl t_slotSize. by rewrite Hset1, Hset2, Hput. }
  intros [] d3 Hd3. simpl t_keyOf in Hd3. rewrite Hk' in Hd3. by apply (sparse_map_written (Some s')).
Qed.

Lemma sparse_step_spec r : found_spec Sp img (token_key id a) r -> token_room d img id a v ->
  returns (sparse_step (cfg d) id a v r) d (fun _ => token_written d img id a v).
Proof.
  intros Hf Hroom. unfold sparse_step. destruct (Z.eqb_spec v 0) as [Hv|Hnz]; [by apply sparse_cleared|].
  pose proof (ta_width _ _ _ _ _ _ _ _ Hargs) as Hw. assert (Hpos : 0 < v) by (unfold fits_width in Hw; lia).
  destruct r as [[i s]|]; [by apply sparse_rewritten|]. cbn [found_spec] in Hf.
  pose proof (sparse_created Hpos Hf) as Hc. unfold sparse_step in Hc. rewrite (proj2 (Z.eqb_neq _ _)) in Hc by done. apply Hc.
  unfold token_room in Hroom. rewrite Hp in Hroom. destruct Hroom as [?|[Htb|?]]; [done| |done]. exfalso. apply Htb.
  unfold token_balance. by rewrite Hp, Hf.
Qed.
End SparseCases.

Lemma setTokenBalance_sparse d img addr a id t v : drive_wf d img ->
  profile (cfg d) = ProfileSparse -> toAddress addr = Val a -> isZero a = false -> Forall is_byte a ->
  0 <= id -> tokens_ d !! Z.to_nat id = Some t -> fits_width (tok_width t) v ->
  token_room d img id a v ->
  returns (setTokenBalance addr id v) d (fun _ d' => token_written d img id a v d').
Proof.
  intros Hwf Hp Ha Hz Hab Hid Ht Hv Hroom.
  destruct (token_args_intro d img addr a id t v) as [off Hargs]; [done..|].
  eapply sparse_reduces; [done..|]. intros r d1 Hf Hd1. destruct (wf_leaves _ _ _ Hwf Hd1) as (_ & Hc1 & Ht1).
  rewrite <- Hc1 in Hp, Hf |- *.
  eapply returns_mono; [eapply sparse_step_spec; [by eapply token_args_leaves|done|done|]|].
  - unfold token_room in *. by rewrite Hc1, Ht1.
  - intros [] d2 Hd2. by eapply token_written_trans.
Qed.

(** ** Wide columns *)

(** Writing one column of a slot: the record, the other columns and the unused
    tail stay. *)
Definition column_put (ts : list Token) (i : nat) (off w v : Z) (slot slot' : bytes) : Prop :=
  zlen slot' = zlen slot /\ (Forall is_byte slot -> Forall is_byte slot')
  /\ column off w slot' = v
  /\ (forall o n, 0 <= o -> 0 <= n -> o + n <= 64 -> slice o n slot' = slice o n slot)
  /\ (forall o n, columns_sum ts <= o -> 0 <= n -> slice o n slot' = slice o n slot)
  /\ (forall j off' t', j <> i -> columns 64 ts !! j = Some off' -> ts !! j = Some t' ->
        column off' (tok_width t') slot' = column off' (tok_width t') slot).

Lemma column_put_key ts i off w v s s' : column_put ts i off w v s s' -> slice 0 20 s' = slice 0 20 s.
Proof. intros (_ & _ & _ & Hlow & _). apply Hlow; lia. Qed.

Lemma wide_column ts i off t slot v : Forall (fun t => valid_width (tok_width t) = true) ts ->
  columns_sum ts <= zlen slot -> columns 64 ts !! i = Some off -> ts !! i = Some t ->
  fits_width (tok_width t) v ->
  exists slot', putBE_at slot off (off + tok_width t) v = Val slot'
    /\ column_put ts i off (tok_width t) v slot slot'.
Proof.
  intros Hw Hsum Hoff Ht Hv. pose proof (columns_ge _ _ _ _ Hw Hoff) as Hge.
  pose proof (columns_end _ _ _ _ _ Hw Hoff Ht) as Hend.
  assert (Hpos : forall j t', ts !! j = Some t' -> 0 < tok_width t').
  { intros j t' Hj. rewrite Forall_lookup in Hw. apply Hw, valid_width_cases in Hj. lia. }
  pose proof (Hpos _ _ Ht). replace (tok_width t) with (off + tok_width t - off) in Hv by lia.
  destruct (putBE_at_ok slot off (off + tok_width t) v) as (enc & Hput & Henc & Heb & Hr); [fit|done|].
  assert (Hz : zlen enc = tok_width t) by lia.
  assert (Hfit : fits off (zlen enc) (zlen slot)) by fit.
  assert (Hne : forall o n, 0 <= o -> 0 <= n -> o + n <= off \/ off + tok_width t <= o ->
    slice o n (patch off enc slot) = slice o n slot).
  { intros. apply slice_patch_ne; [done|lia|lia|]. unfold disjoint_ranges. lia. }
  exists (patch off enc slot). split; [done|].
  split_and!; [by apply zlen_patch|auto with bytes| | | |].
  - unfold column. rewrite <- Hz. by rewrite slice_patch_same.
  - intros. apply Hne; lia.
  - intros. apply Hne; [lia|lia|]. lia.
  - intros j off' t' Hj Hoff' Ht'. unfold column. f_equal.
    pose proof (columns_ge _ _ _ _ Hw Hoff'). pose proof (Hpos _ _ Ht'). apply Hne; [lia|lia|].
    destruct (decide (j < i)%nat) as [Hlt|].
    + left. by eapply columns_order.
    + right. eapply columns_order; [done| |done..]. lia.
Qed.

(** The slot a wide holding's write starts from. *)
Definition wide_base (c : NormalizedConfig) (img a : bytes) : bytes :=
  default (patch 0 a (zeros (slotSize c))) (table_map (accountsTable c) img !! a).

Lemma wide_blank c len a : geometry len c -> profile c = ProfileWide -> zlen a = 20 ->
  Forall is_byte a ->
  let s := patch 0 a (zeros (slotSize c)) in
  setBytes (zeros (slotSize c)) a 0 = Val s /\ zlen s = slotSize c /\ Forall is_byte s
  /\ slice 0 20 s = a /\ (forall o n, 20 <= o -> 0 <= n -> column o n s = 0).
Proof.
  intros Hgeo Hp Ha Hb s. pose proof (rec_size_fits _ _ Hgeo) as Hr.
  assert (Hrs : 32 <= rec_size c) by (unfold rec_size; destruct (compact c); lia).
  assert (Hz : zlen s = slotSize c) by (unfold s; fit).
  split_and!; [apply setBytes_val; fit|done| | |].
  - unfold s. auto using Forall_patch, Forall_zeros.
  - rewrite <- Ha at 1. apply slice_patch_same. fit.
  - intros o n Ho Hn. unfold column, s. rewrite slice_patch_ne by fit. apply column_zeros.
Qed.

Lemma wide_compact c : profile c = ProfileWide -> compact c = false.
Proof. intros Hp. unfold compact. by rewrite Hp. Qed.

Lemma wide_account_data c s s' : profile c = ProfileWide ->
  (forall o n, 0 <= o -> 0 <= n -> o + n <= 64 -> slice o n s' = slice o n s) ->
  account_data c s' = account_data c s.
Proof.
  intros Hp Hs. unfold account_data. rewrite (wide_compact _ Hp). by rewrite !Hs by lia.
Qed.

Lemma wide_written_intro d img id a off t v slot' d' : drive_wf d img ->
  profile (cfg d) = ProfileWide -> zlen a = 20 -> Forall is_byte a -> 0 <= id ->
  columns 64 (tokens_ d) !! Z.to_nat id = Some off -> tokens_ d !! Z.to_nat id = Some t ->
  column_put (tokens_ d) (Z.to_nat id) off (tok_width t) v (wide_base (cfg d) img a) slot' ->
  table_becomes (accountsTable (cfg d)) d img
    (<[a := slot']> (table_map (accountsTable (cfg d)) img)) d' ->
  token_written d img id a v d'.
Proof.
  intros Hwf Hp Hza Hab Hid Hoff Ht (Hz & Hby & Hcol & Hlow & Htail & Hother) Hb.
  pose proof Hwf as [_ _ Hgeo _ Hslots _ _ Hreg _ _].
  pose proof (rw_widths _ _ _ Hreg) as Hw. pose proof (columns_sum_ge _ Hw) as H64.
  destruct (wide_blank _ _ a Hgeo Hp Hza Hab) as (_ & _ & Hbb & _ & Hbz).
  assert (Hbase : account_slot_ok (cfg d) (tokens_ d) (wide_base (cfg d) img a)).
  { unfold wide_base. destruct (_ !! a) eqn:Hm; simpl; [by eapply Hslots|].
    split; [done|]. intros _ o n Ho Hn. apply Hbz; lia. }
  destruct (accounts_becomes _ _ _ _ Hwf Hb) as (img' & Hr & Hm & _).
  { apply map_Forall_insert_2; [|done]. destruct Hbase as [Hbb' Htl]. split; [auto|].
    intros _ o n Ho Hn. unfold column. rewrite Htail by lia. by apply Htl. }
  assert (Hpw : (profile (cfg d) =? ProfileWide) = true) by (by rewrite Hp).
  exists img'. split_and!; [done| | |].
  - unfold token_balance. by rewrite Hpw, Hm, lookup_insert_eq, Hoff, Ht.
  - intros id' a' Hid' Hne. unfold token_balance. rewrite Hpw, Hm.
    destruct (decide (a' = a)) as [->|]; [|by rewrite lookup_insert_ne].
    rewrite lookup_insert_eq.
    destruct (known_token_ok d img id' Hwf Hid') as (t' & off' & Ht' & Hoff' & _).
    rewrite Ht', Hoff'. pose proof (columns_ge _ _ _ _ Hw Hoff').
    assert (Hj : Z.to_nat id' <> Z.to_nat id) by (intros ?; apply Hne; f_equal; lia).
    specialize (Hother _ _ _ Hj Hoff' Ht'). unfold column in Hother. rewrite Hother.
    unfold wide_base. destruct (_ !! a); simpl; [done|].
    apply Hbz; [lia|]. rewrite Forall_lookup in Hw. apply Hw, valid_width_cases in Ht'. lia.
  - intros a'. unfold account_of. rewrite Hm.
    destruct (decide (a' = a)) as [->|]; [|by rewrite lookup_insert_ne].
    rewrite lookup_insert_eq. simpl. rewrite (wide_account_data _ _ _ Hp Hlow).
    unfold wide_base. destruct (_ !! a); simpl; [done|]. unfold account_data.
    rewrite (wide_compact _ Hp). f_equal; [|apply Hbz; lia].
    rewrite slice_patch_ne by (fit || (pose proof (rec_size_fits _ _ Hgeo); unfold rec_size in *; rewrite (wide_compact _ Hp) in *; fit)).
    apply le_decode_slice_zeros.
Qed.

(** The wide branch of [setTokenBalance], from the lookup's result on. *)
Definition wide_step (c : NormalizedConfig) (a : bytes) (off w v : Z) (found : option (Z * bytes)) : M (Drive S) unit :=
  let t := accountsTable c in
  match found with
  | None =>
      if v =? 0 then mret tt else
      n ← counter (t_countOff t);
      if t_limit t <=? n then throw err_tableFull else
      full ← liftO (setBytes (zeros (t_slotSize t)) a 0);
      full ← liftO (putBE_at full off (off + w) v);
      insert t full
  | Some (index, slot) => slot' ← liftO (putBE_at slot off (off + w) v); writeSlot t index slot'
  end.

Lemma wide_reduces d img addr a id t off v Q : token_args d img addr a id t off v -> profile (cfg d) = ProfileWide ->
  (forall r d1, found_spec (accountsTable (cfg d)) img a r -> leaves d img d1 ->
     returns (wide_step (cfg d) a off (tok_width t) v r) d1 Q) ->
  returns (setTokenBalance addr id v) d Q.
Proof.
  intros Hargs Hp Hk. destruct (token_args_bounds _ _ _ _ _ _ _ _ Hargs) as (_ & _ & Hw).
  destruct Hargs as [Hwf Ha Hz Hab Hid Ht Hoff Hv]. pose proof Hwf as [Hh _ _ Hacc _ _ _ _ _ _].
  unfold setTokenBalance. eapply returns_address; [done..|]. eapply returns_token; [done..|].
  rewrite width_check, bool_decide_eq_true_2 by done. cbn [negb]. apply returns_cfg. rewrite Hp. simpl.
  run (lookup_inv (accountsTable (cfg d)) d img). intros r d1 [Hf Hd1]. by apply Hk.
Qed.

Section WideCases.
Context d img addr a id t off v (Hargs : token_args d img addr a id t off v) (Hp : profile (cfg d) = ProfileWide).
Abbreviation Acc := (accountsTable (cfg d)).

(** The column put into the account's slot, or into a blank one. *)
Lemma wide_put : exists slot', putBE_at (wide_base (cfg d) img a) off (off + tok_width t) v = Val slot'
  /\ zlen slot' = slotSize (cfg d) /\ slice 0 20 slot' = slice 0 20 (wide_base (cfg d) img a)
  /\ forall d', table_becomes Acc d img (<[a := slot']> (table_map Acc img)) d' -> token_written d img id a v d'.
Proof.
  destruct (token_args_bounds _ _ _ _ _ _ _ _ Hargs) as (Hla & _ & _). destruct Hargs as [Hwf Ha Hz Hab Hid Ht Hoff Hv].
  pose proof Hwf as [_ _ Hgeo Hacc _ _ _ Hreg _ _]. pose proof (rw_widths _ _ _ Hreg) as Hw.
  pose proof (rw_columns _ _ _ Hreg Hp) as Hsum. destruct (wide_blank _ _ a Hgeo Hp Hla Hab) as (_ & Hbz & _).
  assert (Hbase : zlen (wide_base (cfg d) img a) = slotSize (cfg d)).
  { unfold wide_base. destruct (_ !! a) eqn:Hm; simpl; [|done].
    by destruct (table_map_slot _ _ _ _ _ Hacc Hm) as (? & _). }
  destruct (wide_column (tokens_ d) (Z.to_nat id) off t (wide_base (cfg d) img a) v)
    as (slot' & Hput & Hcp); [done|lia|done..|].
  exists slot'. split_and!; [done|rewrite <- Hbase; apply Hcp|by eapply column_put_key|].
  intros d' Hb. by eapply wide_written_intro.
Qed.

Lemma wide_rewritten i s : found_spec Acc img a (Some (i, s)) ->
  returns (wide_step (cfg d) a off (tok_width t) v (Some (i, s))) d (fun _ => token_written d img id a v).
Proof.
  intros (Hi & Hat & Hl & Hk & Hm). pose proof (ta_wf _ _ _ _ _ _ _ _ Hargs) as Hwf.
  destruct wide_put as (slot' & Hput & Hz & Hkey & Hback). unfold wide_base in Hput, Hkey. rewrite Hm in Hput, Hkey.
  simpl in Hput, Hkey. unfold wide_step. apply returns_bind. eapply returns_lift; [exact Hput|]. eapply returns_mono.
  { apply (update_inv Acc d img (dw_holds _ _ Hwf) (dw_accounts _ _ Hwf) i s slot'); try done.
    by rewrite accounts_live, Hkey. }
  intros [] d2 Hd2. rewrite Hk in Hd2. by apply Hback.
Qed.

Lemma wide_created : v <> 0 -> table_map Acc img !! a = None -> count_at OFF_LIVE_COUNT img < loadLimit (cfg d) ->
  returns (wide_step (cfg d) a off (tok_width t) v None) d (fun _ => token_written d img id a v).
Proof.
  intros Hnz Hf Hcnt. pose proof (ta_wf _ _ _ _ _ _ _ _ Hargs) as Hwf.
  destruct (token_args_bounds _ _ _ _ _ _ _ _ Hargs) as (Hla & _ & _).
  destruct (wide_blank _ _ a (dw_geometry _ _ Hwf) Hp Hla (ta_bytes _ _ _ _ _ _ _ _ Hargs)) as (Hset & _ & _ & Hbk & _).
  destruct wide_put as (slot' & Hput & Hz & Hkey & Hback). unfold wide_base in Hput, Hkey. rewrite Hf in Hput, Hkey.
  simpl in Hput, Hkey. rewrite Hbk in Hkey. unfold wide_step. rewrite (proj2 (Z.eqb_neq _ _)) by done.
  eapply returns_mono.
  { apply (counted_insert Acc d img slot'); try done.
    - apply Hwf.
    - by rewrite accounts_live, Hkey, (ta_nonzero _ _ _ _ _ _ _ _ Hargs).
    - simpl t_keyOf. by rewrite Hkey.
    - intros d'. unfold mbind, M_bind, liftO. simpl t_slotSize. by rewrite Hset, Hput. }
  intros [] d3 Hd3. simpl t_keyOf in Hd3. rewrite Hkey in Hd3. by apply Hback.
Qed.

Lemma wide_step_spec r : found_spec Acc img a r -> token_room d img id a v ->
  returns (wide_step (cfg d) a off (tok_width t) v r) d (fun _ => token_written d img id a v).
Proof.
  intros Hf Hroom. destruct r as [[i s]|]; [by apply wide_rewritten|]. cbn [found_spec] in Hf.
  destruct (decide (v = 0)) as [Hv|Hnz].
  - unfold wide_step. rewrite (proj2 (Z.eqb_eq _ _)) by done. apply returns_ret.
    replace v with (token_balance (cfg d) (tokens_ d) img id a).
    { apply token_unwritten; [apply Hargs|]. apply leaves_refl, Hargs. }
    rewrite Hv. unfold token_balance. by rewrite Hp, Hf.
  - apply wide_created; [done..|]. unfold token_room, account_of in Hroom. rewrite Hp, Hf in Hroom.
    destruct Hroom as [|[[? ?]|]]; done.
Qed.
End WideCases.

Lemma setTokenBalance_wide d img addr a id t v : drive_wf d img ->
  profile (cfg d) = ProfileWide -> toAddress addr = Val a -> isZero a = false -> Forall is_byte a ->
  0 <= id -> tokens_ d !! Z.to_nat id = Some t -> fits_width (tok_width t) v ->
  token_room d img id a v ->
  returns (setTokenBalance addr id v) d (fun _ d' => token_written d img id a v d').
Proof.
  intros Hwf Hp Ha Hz Hab Hid Ht Hv Hroom.
  destruct (token_args_intro d img addr a id t v) as [off Hargs]; [done..|].
  eapply wide_reduces; [done..|]. intros r d1 Hf Hd1. destruct (wf_leaves _ _ _ Hwf Hd1) as (_ & Hc1 & Ht1).
  rewrite <- Hc1 in Hp, Hf |- *.
  eapply returns_mono; [eapply wide_step_spec; [by eapply token_args_leaves|done|done|]|].
  - unfold token_room in *. by rewrite Hc1, Ht1.
  - intros [] d2 Hd2. by eapply token_written_trans.
Qed.

(** Every write the width and the room allow, in both token profiles. *)
Lemma setTokenBalance_spec d img addr a id t v : drive_wf d img ->
  profile (cfg d) <> ProfileSingleAsset -> toAddress addr = Val a -> isZero a = false ->
  Forall is_byte a -> 0 <= id -> tokens_ d !! Z.to_nat id = Some t -> fits_width (tok_width t) v ->
  token_room d img id a v ->
  returns (setTokenBalance addr id v) d (fun _ d' => token_written d img id a v d').
Proof.
  intros Hwf Hp. destruct (geo_slot _ _ (dw_geometry _ _ Hwf)) as [[? _]|[[? _]|[? _]]]; try done;
    eauto using setTokenBalance_wide, setTokenBalance_sparse.
Qed.

(** A balance read from a drive at rest fits its token's width, and a positive
    one is stored, so rewriting it needs no new slot. *)
Lemma token_balance_bounds d img id a t : drive_wf d img -> 0 <= id -> zlen a = 20 ->
  tokens_ d !! Z.to_nat id = Some t -> profile (cfg d) <> ProfileSingleAsset ->
  fits_width (tok_width t) (token_balance (cfg d) (tokens_ d) img id a)
  /\ (0 < token_balance (cfg d) (tokens_ d) img id a -> forall v, token_room d img id a v).
Proof.
  intros Hwf Hid Hza Ht Hp. pose proof Hwf as [_ _ Hgeo _ Hab _ Hsb Hreg _ _].
  pose proof (registry_capacity_bound d img Hwf) as Hcap. pose proof (lookup_lt_Some _ _ _ Ht) as Hlt.
  assert (Hw : 8 <= tok_width t).
  { pose proof (rw_widths _ _ _ Hreg) as Hw. rewrite Forall_lookup in Hw. apply Hw, valid_width_cases in Ht. lia. }
  assert (H0 : fits_width (tok_width t) 0) by (unfold fits_width; pose proof (Z.pow_pos_nonneg 256 (tok_width t)); lia).
  unfold token_room. unfold token_balance at 1 2.
  destruct (Z.eqb_spec (profile (cfg d)) ProfileWide) as [Hpw|Hnw].
  - destruct (table_map _ img !! a) as [s|] eqn:Hm; [|split; [done|simpl; lia]].
    destruct (Hab _ _ Hm) as [Hb _]. split.
    + destruct (columns _ _ !! _) as [off|]; [|done]. rewrite Ht.
      pose proof (readBE_bound (slice off (tok_width t) s) ltac:(by apply Forall_slice)) as Hbound.
      assert (zlen (slice off (tok_width t) s) <= tok_width t)
        by (unfold zlen, slice; rewrite length_take; lia).
      pose proof (Z.pow_le_mono_r 256 (zlen (slice off (tok_width t) s)) (tok_width t)).
      unfold fits_width. lia.
    + intros _ v. right. left. unfold account_of. by rewrite Hm.
  - destruct (Z.eqb_spec (profile (cfg d)) ProfileSparse) as [Hs|Hns].
    2: { destruct (geo_slot _ _ Hgeo) as [[? _]|[[? _]|[? _]]]; done. }
    destruct (table_map _ img !! token_key id a) as [s|] eqn:Hm; [|split; [done|simpl; lia]].
    destruct (Hsb Hs _ _ Hm) as (_ & Hpos & id' & a' & t' & Hid' & Ha' & Hk & Ht' & Hf').
    unfold zlen in Hid', Hcap.
    apply token_key_inj in Hk as [-> _]; [|lia|lia]. simplify_eq. split; [done|]. intros _ v. right. left.
    unfold token_balance. rewrite (proj2 (Z.eqb_neq _ _)) by done. rewrite Hs. simpl. rewrite Hm. lia.
Qed.

(** ** Refused writes *)
Lemma raises_address {A} d addr a (f : bytes -> M (Drive S) A) e Q :
  toAddress addr = Val a -> isZero a = false -> raises (f a) d e Q ->
  raises (x ← nonzero_address addr; f x) d e Q.
Proof.
  intros Ha Hz Hf. apply raises_bind. unfold returns, wp. by rewrite (nonzero_address_ok d addr a).
Qed.

Lemma raises_token {A} d img id t off (f : Z * Z -> M (Drive S) A) e Q : drive_wf d img ->
  tokens_ d !! Z.to_nat id = Some t -> columns 64 (tokens_ d) !! Z.to_nat id = Some off -> 0 <= id ->
  raises (f (tok_width t, off)) d e Q -> raises (x ← known_token id; f x) d e Q.
Proof.
  intros Hwf Ht Hoff Hid Hf. pose proof (lookup_lt_Some _ _ _ Ht).
  destruct (known_token_ok d img id Hwf) as (t' & off' & Ht' & Hoff' & Hk); [unfold zlen; lia|].
  simplify_eq. apply raises_bind. unfold returns, wp. by rewrite Hk.
Qed.

Lemma setTokenBalance_unknown d addr a id v : toAddress addr = Val a -> isZero a = false ->
  ~ (0 <= id < zlen (tokens_ d)) ->
  raises (setTokenBalance addr id v) d err_unknownToken (fun d' => d' = d).
Proof.
  intros Ha Hz Hid. unfold setTokenBalance. eapply raises_address; [done..|].
  apply raises_first. unfold raises, wp. by rewrite known_token_unknown.
Qed.

Lemma setTokenBalance_overflow d img addr a id t v : drive_wf d img -> toAddress addr = Val a ->
  isZero a = false -> 0 <= id -> tokens_ d !! Z.to_nat id = Some t -> ~ fits_width (tok_width t) v ->
  raises (setTokenBalance addr id v) d overflow_error (fun d' => d' = d).
Proof.
  intros Hwf Ha Hz Hid Ht Hv. pose proof (lookup_lt_Some _ _ _ Ht).
  destruct (known_token_ok d img id Hwf) as (t' & off & Ht' & Hoff & _); [unfold zlen; lia|]. simplify_eq.
  unfold setTokenBalance. eapply raises_address; [done..|]. eapply raises_token; [done..|].
  rewrite width_check, bool_decide_eq_false_2; [by apply raises_throw|done|].
  pose proof (rw_widths _ _ _ (dw_registry _ _ Hwf)) as Hw. rewrite Forall_lookup in Hw.
  apply Hw, valid_width_cases in Ht. lia.
Qed.

(** A new holding past the load limit is refused and the drive is as before. *)
Lemma setTokenBalance_full d img addr a id t v : drive_wf d img ->
  profile (cfg d) <> ProfileSingleAsset -> toAddress addr = Val a -> isZero a = false ->
  0 <= id -> tokens_ d !! Z.to_nat id = Some t -> fits_width (tok_width t) v ->
  v <> 0 ->
  (if profile (cfg d) =? ProfileWide then
     account_of (cfg d) img a = None /\ loadLimit (cfg d) <= count_at OFF_LIVE_COUNT img
   else table_map (sparseTable (cfg d)) img !! token_key id a = None
     /\ sparseLoadLimit (cfg d) <= count_at OFF_SPARSE_LIVE_COUNT img) ->
  raises (setTokenBalance addr id v) d err_tableFull (fun d' => leaves d img d').
Proof.
  intros Hwf Hp Ha Hz Hid Ht Hv Hnz Hfull. pose proof Hwf as [Hh Hlen Hgeo Hacc _ Hsp _ Hreg _ _].
  pose proof (lookup_lt_Some _ _ _ Ht).
  destruct (known_token_ok d img id Hwf) as (t' & off & Ht' & Hoff & _); [unfold zlen; lia|]. simplify_eq.
  unfold setTokenBalance. eapply raises_address; [done..|]. eapply raises_token; [done..|].
  rewrite width_check, bool_decide_eq_true_2; [|done|].
  2: { pose proof (rw_widths _ _ _ Hreg) as Hw. rewrite Forall_lookup in Hw.
       apply Hw, valid_width_cases in Ht. lia. }
  cbn [negb]. apply raises_bind, returns_gets.
  destruct (Z.eqb_spec (profile (cfg d)) ProfileWide) as [Hpw|Hnw].
  - run_raise (lookup_inv (accountsTable (cfg d)) d img). intros r d1 [Hf Hd1].
    destruct Hfull as [Hnone Hcnt]. unfold account_of in Hnone.
    destruct r as [[i s]|]; cbn [found_spec] in Hf.
    { destruct Hf as (_ & _ & _ & _ & Hm). by rewrite Hm in Hnone. }
    rewrite (proj2 (Z.eqb_neq _ _)) by done.
    destruct (wf_leaves _ _ _ Hwf Hd1) as (Hwf1 & Hc1 & Ht1).
    run_raise (counter_run d1 img (accountsTable (cfg d))). { apply Hacc. }
    intros n d2 [-> Hd2]. simpl t_countOff. simpl t_limit. rewrite (proj2 (Z.leb_le _ _)) by done.
    apply raises_throw. by eapply leaves_trans.
  - assert (Hps : profile (cfg d) = ProfileSparse)
      by (destruct (geo_slot _ _ Hgeo) as [[? _]|[[? _]|[? _]]]; done).
    rewrite Hps. simpl. specialize (Hsp Hps).
    apply raises_bind. eapply returns_lift; [apply sparseKey_val; by eapply toAddress_length|].
    run_raise (lookup_inv (sparseTable (cfg d)) d img). intros r d1 [Hf Hd1].
    destruct Hfull as [Hnone Hcnt]. rewrite (proj2 (Z.eqb_neq _ _)) by done.
    destruct r as [[i s]|]; cbn [found_spec] in Hf.
    { destruct Hf as (_ & _ & _ & _ & Hm). by rewrite Hm in Hnone. }
    destruct (wf_leaves _ _ _ Hwf Hd1) as (Hwf1 & Hc1 & Ht1).
    run_raise (counter_run d1 img (sparseTable (cfg d))). { apply Hsp. }
    intros n d2 [-> Hd2]. simpl t_countOff. simpl t_limit. rewrite (proj2 (Z.leb_le _ _)) by done.
    apply raises_throw. by eapply leaves_trans.
Qed.

(** The error a registration meets first, in the order of the checks. *)
Definition registration_error (c : NormalizedConfig) (ts : list Token) (a : bytes) (w : Z) : option exn :=
  if registryOffset c =? 0 then Some err_profile else
  if negb (valid_width w) then Some err_badWidth else
  if bool_decide (a ∈ tok_address <$> ts) then Some err_duplicateToken else
  if registryCapacity c <=? zlen ts then Some err_registryFull else
  match check_token_width c ts w with Exn e => Some e | _ => None end.

Lemma find_token_elem ts i a : is_Some (find_token ts i a) <-> a ∈ tok_address <$> ts.
Proof.
  split.
  - intros [r Hr]. apply find_token_Some in Hr as (n & t & Ht & _ & _ & Hta & _).
    apply list_elem_of_fmap. exists t. split; [done|]. by eapply list_elem_of_lookup_2.
  - intros Hin. destruct (find_token ts i a) eqn:Hf; [done|]. by apply find_token_None in Hf.
Qed.

Lemma registerToken_refused d addr a w e : toAddress addr = Val a ->
  registration_error (cfg d) (tokens_ d) a w = Some e ->
  raises (registerToken addr w) d e (fun d' => d' = d).
Proof.
  intros Ha. unfold registration_error, registerToken. intros Herr.
  apply raises_bind. eapply returns_lift; [exact Ha|]. apply raises_bind, returns_gets.
  destruct (_ =? 0); [simplify_eq; by apply raises_throw|].
  destruct (negb _); [simplify_eq; by apply raises_throw|].
  apply raises_bind. unfold tokenByAddress. apply returns_bind.
  eapply returns_lift; [apply toAddress_bytes; by eapply toAddress_length|]. apply returns_gets.
  rewrite (bool_decide_ext _ _ (find_token_elem (tokens_ d) 0 a)).
  case_bool_decide; [simplify_eq; by apply raises_throw|].
  apply raises_bind, returns_gets.
  destruct (_ <=? _); [simplify_eq; by apply raises_throw|].
  apply raises_first, raises_lift; [|done]. by destruct (check_token_width _ _ _); simplify_eq.
Qed.

(** The two cases of a registration, by its first error. *)
Lemma registerToken_ok d img addr a w : drive_wf d img -> toAddress addr = Val a ->
  registration_error (cfg d) (tokens_ d) a w = None ->
  returns (registerToken addr w) d (fun id d' => id = zlen (tokens_ d) /\ token_registered d img a w d').
Proof.
  intros Hwf Ha. unfold registration_error.
  destruct (Z.eqb_spec (registryOffset (cfg d)) 0); [done|].
  destruct (valid_width w) eqn:Hw; [|done]. simpl. case_bool_decide; [done|].
  destruct (Z.leb_spec (registryCapacity (cfg d)) (zlen (tokens_ d))); [done|].
  intros Hchk. apply registerToken_spec; try done.
  revert Hchk. by destruct (check_token_width _ _ _) as [[]|e|] eqn:Hc; [|done|unfold check_token_width in Hc; repeat case_match].
Qed.
Lemma room_or_full d img id a v : drive_wf d img -> 0 <= id < zlen (tokens_ d) -> profile (cfg d) <> ProfileSingleAsset ->
  zlen a = 20 ->
  token_room d img id a v \/ v <> 0 /\
  (if profile (cfg d) =? ProfileWide then
     account_of (cfg d) img a = None /\ loadLimit (cfg d) <= count_at OFF_LIVE_COUNT img
   else table_map (sparseTable (cfg d)) img !! token_key id a = None
     /\ sparseLoadLimit (cfg d) <= count_at OFF_SPARSE_LIVE_COUNT img).
Proof.
  intros Hwf Hid Hp Ha. unfold token_room. destruct (decide (v = 0)) as [|Hv]; [by left; left|].
  destruct (Z.eqb_spec (profile (cfg d)) ProfileWide) as [Hw|Hw].
  - destruct (account_of (cfg d) img a) as [x|]; [by left; right; left|].
    destruct (decide (count_at OFF_LIVE_COUNT img < loadLimit (cfg d))); [by left; right; right|].
    right. split_and!; (done || lia).
  - destruct (decide (count_at OFF_SPARSE_LIVE_COUNT img < sparseLoadLimit (cfg d))); [by left; right; right|].
    destruct (table_map (sparseTable (cfg d)) img !! token_key id a) as [s|] eqn:Hs; [|right; split_and!; (done || lia)].
    left. right. left. assert (Hps : profile (cfg d) = ProfileSparse)
      by (destruct (geo_slot _ _ (dw_geometry _ _ Hwf)) as [[? _]|[[? _]|[? _]]]; done).
    destruct (dw_sparse_slots _ _ Hwf Hps _ _ Hs) as (_ & Hpos & _).
    unfold token_balance. rewrite (proj2 (Z.eqb_neq _ _) Hw), (proj2 (Z.eqb_eq _ _) Hps), Hs. lia.
Qed.

Lemma full_no_room d img id a v : profile (cfg d) <> ProfileSingleAsset -> v <> 0 ->
  (if profile (cfg d) =? ProfileWide then
     account_of (cfg d) img a = None /\ loadLimit (cfg d) <= count_at OFF_LIVE_COUNT img
   else table_map (sparseTable (cfg d)) img !! token_key id a = None
     /\ sparseLoadLimit (cfg d) <= count_at OFF_SPARSE_LIVE_COUNT img) -> ~ token_room d img id a v.
Proof.
  intros Hp Hv Hfull [?|Hroom]; [done|]. destruct (Z.eqb_spec (profile (cfg d)) ProfileWide) as [Hw|Hw].
  - destruct Hfull as [Hnone ?], Hroom as [Hs|?]; [|lia]. rewrite Hnone in Hs. by destruct Hs.
  - destruct Hfull as [Hnone ?], Hroom as [Hb|?]; [|lia]. apply Hb. unfold token_balance.
    rewrite (proj2 (Z.eqb_neq _ _) Hw), Hnone. by destruct (_ =? _).
Qed.
End BalanceSpecs.
