(* ===== verification/DriveFormat.v ===== *)
(** * Formatting and opening a drive

    [format] and [open] of accounts-drive/js/src/drive.ts. [open] rebuilds the
    whole in-memory state of a drive from its bytes; [format] of a validated
    configuration on a zeroed store gives an empty drive at rest. *)

From Stdlib Require Import ZArith Lia.
From S2P Require Import Prelude Bytes Store DriveConfig DriveHeader RobinHood DriveTable Drive DriveTokens.

Section Open.
Context {S : Type} {HS : Store S} {HK : Keccak}.

(** Runs a method of a fresh drive over the current store. *)
Definition on_drive (c : NormalizedConfig) (m : M (Drive S) unit) : M S (Drive S) := fun s =>
  match m (mkDrive s c [] []) with
  | (Val tt, d) => (Val d, store d)
  | (Exn e, d) => (Exn e, store d)
  | (Diverge, d) => (Diverge, store d)
  end.

Definition open : M S (Drive S) :=
  h ← readAt 0 HEADER_SIZE;
  c ← liftO (decode_header h);
  on_drive c reloadRegistry.

Definition format (config : Config) : M S (Drive S) :=
  c ← liftO (normalizeConfig config);
  liftO (validateConfig c);;
  h ← liftO (encode_header c);
  writeAt 0 h;;
  open.
End Open.

Section OpenSpecs.
Context {S : Type} {HS : Store S} {HR : StoreReads S} {HK : Keccak} {HKL : KeccakLaws}.
Implicit Types d : Drive S.
Implicit Types img : bytes.

(** The registry entries an image holds from index [i] on. *)
Definition entries_from (c : NormalizedConfig) img (i : Z) (ts : list Token) : Prop :=
  forall k t, ts !! k = Some t -> t = entry_of c img (i + Z.of_nat k).

Lemma reload_loop_spec img ts d i col : holds (store d) img ->
  0 <= registryOffset (cfg d) -> 0 <= i -> registryOffset (cfg d) + 32 * (i + zlen ts) <= zlen img ->
  entries_from (cfg d) img i ts -> Forall (fun t => valid_width (tok_width t) = true) ts ->
  returns (reload_loop (length ts) i col) d (fun _ d' => holds (store d') img /\ cfg d' = cfg d
    /\ tokens_ d' = tokens_ d ++ ts /\ colOff d' = colOff d ++ columns col ts).
Proof.
  revert d i col. induction ts as [|t ts IH]; intros d i col Hh Hro Hi Hend Hent Hw; cbn [length reload_loop].
  { apply returns_ret. by rewrite !app_nil_r. }
  apply Forall_cons in Hw as [Hwt Hw]. pose proof (zlen_nonneg ts).
  assert (Hz : zlen (t :: ts) = 1 + zlen ts) by (unfold zlen; simpl length; lia). rewrite Hz in Hend.
  pose proof (Hent 0%nat t eq_refl) as Ht. rewrite Z.add_0_r in Ht. unfold entry_of in Ht.
  apply returns_cfg. run (read_spec d img). { unfold fits. lia. }
  intros e d1 [-> (s1 & -> & Hs1)].
  rewrite slice_slice, Z.add_0_r by lia. rewrite Ht in Hwt. simpl in Hwt. rewrite Hwt. cbn [negb].
  rewrite <- Ht. apply returns_bind, returns_modify.
  replace (default 0 _) with (tok_width t) by (by rewrite Ht).
  eapply returns_mono; [apply (IH (with_tokens _ _ _))|]; simpl; try done; try lia.
  { intros k t' Hk. rewrite (Hent (Datatypes.S k) t' Hk). f_equal. lia. }
  intros [] d' (Hs' & Hc' & Ht' & Ho'). split_and!; [done..| |].
  - rewrite Ht'. by rewrite <- app_assoc.
  - rewrite Ho'. by rewrite <- app_assoc.
Qed.

(** The registry cache is what the image's registry says. *)
Lemma reloadRegistry_spec d img ts : holds (store d) img -> zlen img <= MAX_SAFE_INTEGER ->
  geometry (zlen img) (cfg d) -> registry_wf (cfg d) img ts ->
  returns reloadRegistry d (fun _ d' => holds (store d') img /\ cfg d' = cfg d
    /\ tokens_ d' = ts /\ colOff d' = columns 64 ts).
Proof.
  intros Hh Hlen Hgeo Hreg. unfold reloadRegistry. apply returns_bind, returns_modify, returns_cfg.
  destruct (Z.eqb_spec (registryOffset (cfg d)) 0) as [Hz|Hr].
  { simpl. rewrite Hz. apply returns_ret. rewrite (rw_absent _ _ _ Hreg Hz). done. }
  simpl cfg. rewrite (proj2 (Z.eqb_neq _ _)) by done.
  pose proof (rw_count _ _ _ Hreg Hr) as Hcnt. pose proof (rw_capacity _ _ _ Hreg Hr) as Hcap.
  pose proof (zlen_nonneg ts). pose proof (header_fits _ _ Hgeo) as Hhd.
  run (counter_spec (with_tokens [] [] d) img).
  { unfold fits, OFF_TOKEN_COUNT, HEADER_SIZE in *. lia. }
  intros n d1 [-> (s1 & -> & Hs1)]. rewrite Hcnt.
  destruct (geo_registry _ _ Hgeo) as [|[Hrc Hro]]; [done|].
  assert (Hb : 0 <= registryOffset (cfg d)
    /\ registryOffset (cfg d) + 32 * registryCapacity (cfg d) <= zlen img)
    by (unfold MIN_REGISTRY_OFFSET, HEADER_SIZE in *; lia).
  rewrite Number_of_bigint_small by (unfold MAX_SAFE_INTEGER; lia).
  rewrite (proj2 (Z.ltb_ge _ _)) by done. unfold zlen. rewrite Nat2Z.id.
  eapply returns_mono; [apply (reload_loop_spec img ts)|]; simpl; try done; try lia.
  - intros k t Hk. by apply (rw_entries _ _ _ Hreg).
  - apply Hreg.
Qed.

(** Opening a drive's bytes gives that drive back: its geometry, its registry
    and its column offsets are all recovered from the store. *)
Lemma open_spec d img : drive_wf d img ->
  returns open (store d) (fun d' s' => s' = store d' /\ cfg d' = cfg d
    /\ tokens_ d' = tokens_ d /\ colOff d' = colOff d /\ drive_wf d' img).
Proof.
  intros Hwf. pose proof Hwf as [Hh Hlen Hgeo Hacc Hab Hsp Hsb Hreg Hcol Hhd].
  unfold open. run (readAt_spec (store d) img).
  { pose proof (header_fits _ _ Hgeo). unfold fits, HEADER_SIZE in *. lia. }
  intros h s1 [-> Hs1]. apply returns_bind. eapply returns_lift; [exact Hhd|].
  pose proof (reloadRegistry_spec (mkDrive s1 (cfg d) [] []) img (tokens_ d) Hs1 Hlen Hgeo Hreg) as Hr.
  unfold returns, wp, on_drive in *. destruct (reloadRegistry _) as [[[]|?|] d']; [|done..].
  destruct Hr as (Hs' & Hc' & Ht' & Ho'). simpl in Hc'. rewrite <- Hcol in Ho'.
  split_and!; try done. destruct d'; simpl in *; subst. by constructor.
Qed.

Context {HW : StoreWrites S}.

Lemma seed_length config c : normalizeConfig config = Val c -> zlen (seed c) = 32.
Proof.
  unfold normalizeConfig, normalizeSeed. intros H.
  apply outcome_bind_val in H as (sd & Hsd & [= <-]). simpl. destruct (c_seed config) as [sl|].
  - apply outcome_bind_val in Hsd as (b & _ & Hb).
    destruct (Z.eqb_spec (zlen b) 32); [by injection Hb as <-|done].
  - by injection Hsd as <-.
Qed.

(** A validated configuration fits its header, the slot size and the capacity
    of an unused registry apart, which validation leaves open. *)
Lemma geometry_storable len c : geometry len c -> len <= MAX_SAFE_INTEGER -> zlen (seed c) = 32 ->
  u53 (registryCapacity c) -> slotSize c < 2 ^ 32 -> storable c.
Proof.
  intros [Hss Hcap Hlim Hto Hend Hnr Hreg Hsp] Hlen Hseed Hrc Hslot.
  unfold slot_size_ok in Hss.
  constructor; unfold u53, HEADER_SIZE, ProfileWide, ProfileSingleAsset, ProfileSparse in *; try done;
    try (nia || lia).
  - destruct Hreg as [->|[? Hr]]; [unfold MAX_SAFE_INTEGER; lia|]. unfold MIN_REGISTRY_OFFSET, HEADER_SIZE in Hr. lia.
  - intros Hp. destruct (Hsp Hp) as (? & ? & ? & ? & ? & _). unfold HEADER_SIZE in *. split_and!; nia.
Qed.

Lemma geometry_header len c : geometry len c -> geometry len (header_config c).
Proof.
  intros [Hss Hcap Hlim Hto Hend Hnr Hreg Hsp]. constructor; try done.
  - unfold registry_ok, header_config in *. simpl.
    destruct Hreg as [|(? & [|(? & ? & ? & Hs)])]; [by left|right; split; [done|by left]|].
    right. split; [done|]. right. split_and!; try done. intros Hp. rewrite Hp. by apply Hs.
  - intros Hp. unfold header_config in *. simpl in *. rewrite Hp. simpl. by apply Hsp.
Qed.

(** The image [format] leaves. *)
Definition formatted_image (c : NormalizedConfig) : bytes :=
  patch 0 (patches (header_fields c) (zeros HEADER_SIZE)) (zeros (driveLength c)).

Lemma formatted_header c : zlen (seed c) = 32 -> HEADER_SIZE <= driveLength c ->
  zlen (formatted_image c) = driveLength c
  /\ slice 0 HEADER_SIZE (formatted_image c) = patches (header_fields c) (zeros HEADER_SIZE)
  /\ (forall o n, HEADER_SIZE <= o -> 0 <= n -> slice o n (formatted_image c) = slice o n (zeros (driveLength c)))
  /\ (forall o, o ∈ [OFF_LIVE_COUNT; OFF_TOKEN_COUNT; OFF_SPARSE_LIVE_COUNT] -> count_at o (formatted_image c) = 0).
Proof.
  intros Hs Hd. destruct (encode_header_val c Hs) as [_ Hz]. unfold formatted_image.
  set (h := patches _ _) in *.
  assert (Hfit : fits 0 (zlen h) (zlen (zeros (driveLength c))))
    by (rewrite Hz, zlen_zeros; unfold fits, HEADER_SIZE in *; lia).
  assert (Hsl : slice 0 HEADER_SIZE (patch 0 h (zeros (driveLength c))) = h)
    by (rewrite <- Hz; by apply slice_patch_same).
  split_and!.
  - rewrite zlen_patch by done. apply zlen_zeros. unfold HEADER_SIZE in *. lia.
  - done.
  - intros o n Ho Hn. apply slice_patch_ne; unfold HEADER_SIZE in *; try done; [lia|].
    unfold disjoint_ranges. lia.
  - intros o Ho. unfold count_at. assert (Hb : 0 <= o /\ o + 8 <= HEADER_SIZE).
    { apply list_elem_of_In in Ho. simpl in Ho. destruct Ho as [<-|[<-|[<-|[]]]]; done. }
    replace (slice o 8 _) with (slice o 8 h).
    2: { rewrite <- Hsl at 1. rewrite slice_slice by lia. done. }
    apply (patches_blank _ (header_layout c)); try done; [by apply header_laid_out|apply header_layout_ok|lia|].
    apply list_elem_of_In in Ho. simpl in Ho. unfold header_layout.
    destruct Ho as [<-|[<-|[<-|[]]]]; by destruct (_ =? _).
Qed.

Lemma blank_table_inv sd t img : table_geo (zlen img) t -> count_at (t_countOff t) img = 0 ->
  0 <= t_limit t ->
  (forall i, 0 <= i < t_capacity t ->
     slice (t_base t + t_slotSize t * i) (t_slotSize t) img = zeros (t_slotSize t)) ->
  table_inv sd t img /\ table_map t img = ∅.
Proof.
  intros Hg Hcnt Hlim Hblank. pose proof (tg_capacity _ _ Hg).
  assert (Hslots : slots t img = replicate (Z.to_nat (t_capacity t)) (zeros (t_slotSize t))).
  { apply list_eq. intros n. unfold slots. rewrite list_lookup_fmap.
    destruct (decide (Z.of_nat n < t_capacity t)).
    - rewrite lookup_seqZ_lt, lookup_replicate_2 by lia. simpl. f_equal. apply Hblank. lia.
    - rewrite lookup_seqZ_ge by lia. symmetry. apply lookup_replicate_None. lia. }
  destruct (empty_wf (zeros (t_slotSize t)) (slot_live t) (t_keyOf t) (home_of sd (t_capacity t))
              (t_capacity t)) as [Hwf Hrec]; try (lia || done).
  { apply slot_live_zeros. }
  split; [constructor; rewrite ?Hslots, ?Hrec; done|].
  unfold table_map, contents. by rewrite Hslots, Hrec.
Qed.

Lemma formatted_table c t : zlen (seed c) = 32 -> HEADER_SIZE <= driveLength c ->
  table_geo (driveLength c) t -> 0 <= t_limit t ->
  t_countOff t ∈ [OFF_LIVE_COUNT; OFF_TOKEN_COUNT; OFF_SPARSE_LIVE_COUNT] ->
  table_inv (seed c) t (formatted_image c) /\ table_map t (formatted_image c) = ∅.
Proof.
  intros Hs Hd Hg Hlim Hoff. destruct (formatted_header c Hs Hd) as (Hz & _ & Hz0 & Hcnt).
  apply blank_table_inv; [by rewrite Hz|by apply Hcnt|done|].
  intros i Hi. destruct Hg. rewrite Hz0 by nia. apply slice_replicate; unfold HEADER_SIZE in *; nia.
Qed.

(** An image of the right shape and nothing in it. *)
Lemma formatted_wf c s : holds s (formatted_image c) -> zlen (seed c) = 32 ->
  driveLength c <= MAX_SAFE_INTEGER -> geometry (driveLength c) c -> storable c ->
  drive_wf (mkDrive s (header_config c) [] []) (formatted_image c)
  /\ table_map (accountsTable (header_config c)) (formatted_image c) = ∅
  /\ (profile c = ProfileSparse ->
      table_map (sparseTable (header_config c)) (formatted_image c) = ∅).
Proof.
  intros Hh Hs Hlen Hgeo Hst. pose proof (header_fits _ _ Hgeo) as Hd.
  destruct (formatted_header c Hs Hd) as (Hz & Hhd & _ & Hcnt).
  pose proof (geometry_header _ _ Hgeo) as Hgeo'.
  pose proof (geo_limit _ _ Hgeo) as Hl.
  destruct (formatted_table c (accountsTable (header_config c))) as [Hacc Ha]; simpl; try done.
  { by apply accounts_geo. } { lia. } { set_solver. }
  assert (Hsp : profile c = ProfileSparse ->
    table_inv (seed c) (sparseTable (header_config c)) (formatted_image c)
    /\ table_map (sparseTable (header_config c)) (formatted_image c) = ∅).
  { intros Hp. destruct (geo_sparse _ _ Hgeo' Hp) as (_ & ? & ? & _).
    apply formatted_table; simpl; try done; [by apply sparse_geo| |set_solver].
    simpl in *. lia. }
  split_and!; [|done|intros Hp; by destruct (Hsp Hp)].
  constructor; simpl; rewrite ?Hz; try done.
  - by rewrite Ha.
  - intros Hp. by destruct (Hsp Hp).
  - intros Hp. destruct (Hsp Hp) as [_ ->]. done.
  - constructor; try done.
    + intros _. apply Hcnt. set_solver.
    + intros Hr. destruct (geo_registry _ _ Hgeo') as [|[? _]]; [done|]. simpl in *. unfold zlen. simpl. lia.
    + constructor.
    + intros Hp. simpl in *. unfold columns_sum. simpl.
      pose proof (geo_slot _ _ Hgeo) as Hss. unfold slot_size_ok, ProfileWide, ProfileSingleAsset, ProfileSparse in *. lia.
  - rewrite Hhd. by apply decode_encode_header.
Qed.

(** The drive [format] returns: the asked-for geometry, no account, no token,
    no holding. *)
Definition empty_drive (c : NormalizedConfig) (d : Drive S) (img : bytes) : Prop :=
  drive_wf d img /\ cfg d = header_config c /\ tokens_ d = []
  /\ (forall a, account_of (cfg d) img a = None)
  /\ (forall id a, token_balance (cfg d) (tokens_ d) img id a = 0).

Lemma format_spec config c s : normalizeConfig config = Val c -> validateConfig c = Val tt ->
  u53 (registryCapacity c) -> slotSize c < 2 ^ 32 -> driveLength c <= MAX_SAFE_INTEGER ->
  holds s (zeros (driveLength c)) ->
  returns (format config) s (fun d s' => s' = store d /\ empty_drive c d (formatted_image c)).
Proof.
  intros Hn Hv Hrc Hss Hlen Hh. unfold u53 in Hrc.
  pose proof (validateConfig_geometry c ltac:(lia) Hv) as Hgeo.
  pose proof (seed_length _ _ Hn) as Hs. pose proof (header_fits _ _ Hgeo) as Hd.
  destruct (encode_header_val c Hs) as [Henc Hz].
  pose proof (geometry_storable _ _ Hgeo Hlen Hs Hrc Hss) as Hst.
  unfold format. apply returns_bind. eapply returns_lift; [exact Hn|].
  apply returns_bind. eapply returns_lift; [exact Hv|].
  apply returns_bind. eapply returns_lift; [exact Henc|].
  run (writeAt_spec s (zeros (driveLength c))).
  { rewrite Hz, zlen_zeros; unfold fits, HEADER_SIZE in *; lia. }
  intros [] s1 Hs1. fold (formatted_image c) in Hs1.
  destruct (formatted_wf c s1 Hs1 Hs Hlen Hgeo Hst) as (Hwf & Ha & Hsp).
  eapply returns_mono; [exact (open_spec _ _ Hwf)|].
  intros d s' (-> & Hc & Ht & _ & Hwf'). simpl in Hc, Ht. split; [done|].
  split_and!; try done; rewrite Hc.
  - intros a. unfold account_of. by rewrite Ha.
  - intros id a. unfold token_balance. rewrite Ha. simpl profile.
    destruct (_ =? _); [done|]. destruct (Z.eqb_spec (profile c) ProfileSparse); [|done]. by rewrite Hsp.
Qed.

(** A configuration that does not validate is refused before any write. *)
Lemma format_invalid config c s e : normalizeConfig config = Val c -> validateConfig c = Exn e ->
  raises (format config) s e (fun s' => s' = s).
Proof.
  intros Hn Hv. unfold format. apply raises_bind. eapply returns_lift; [exact Hn|].
  by apply raises_first, raises_lift.
Qed.
End OpenSpecs.
