(* ===== verification/DriveRuns.v ===== *)
(** * Runs of drive operations

    The writes of accounts-drive/js/src/drive.ts one after another, whatever
    each returns or throws: every operation on every outcome, and what a run of
    them leaves, against the plain record of the writes that went through. *)

From Stdlib Require Import ZArith Lia.
From S2P Require Import Prelude Bytes Store DriveConfig DriveHeader RobinHood DriveTable Drive DriveTokens.

Section Outcomes.
Context {S : Type} {HS : Store S} {HR : StoreReads S} {HW : StoreWrites S} {HK : Keccak} {HKL : KeccakLaws}.
Implicit Types d : Drive S.
Implicit Types img : bytes.

(** What an account record can hold. *)
Definition record_holds (c : NormalizedConfig) (nonce balance : Z) : Prop :=
  fits_width (balance_width c) balance /\ (compact c = true -> nonce <= 0xffffffff).
Definition account_room (c : NormalizedConfig) img a : Prop :=
  is_Some (account_of c img a) \/ count_at OFF_LIVE_COUNT img < loadLimit c.

Lemma setAccount_outcomes d img addr a nonce balance : drive_wf d img -> toAddress addr = Val a ->
  isZero a = false -> Forall is_byte a ->
  wp (setAccount addr nonce balance) d (fun o d' => match o with
    | Val _ => record_holds (cfg d) nonce balance /\ account_room (cfg d) img a
        /\ account_written d img a (Some (nonce mod nonce_modulus (cfg d), balance)) d'
    | Exn e => leaves d img d' /\ (e = overflow_error /\ ~ record_holds (cfg d) nonce balance
        \/ e = err_tableFull /\ record_holds (cfg d) nonce balance /\ ~ account_room (cfg d) img a)
    | Diverge => False end).
Proof.
  intros Hwf Ha Hz Hb. destruct (decide (fits_width (balance_width (cfg d)) balance
    /\ (compact (cfg d) = true -> nonce <= 0xffffffff))) as [Hfit|Hover].
  - destruct (decide (account_room (cfg d) img a)) as [Hroom|Hfull]; destruct Hfit as [Hf Hn].
    + eapply wp_returns; [by eapply setAccount_spec|]. intros [] d' Hw. by split_and!.
    + assert (Hnone : account_of (cfg d) img a = None /\ loadLimit (cfg d) <= count_at OFF_LIVE_COUNT img).
      { unfold account_room in Hfull. destruct (account_of _ _ _) eqn:He; [destruct Hfull; left; by eexists|].
        split; [done|]. destruct (Z.le_gt_cases (loadLimit (cfg d)) (count_at OFF_LIVE_COUNT img)); [done|].
        destruct Hfull. by right. }
      eapply wp_raises; [eapply setAccount_full; naive_solver|]. intros d' Hd'. split; [done|]. by right.
  - eapply wp_raises; [by eapply setAccount_overflow|]. intros d' ->. split; [apply leaves_refl, Hwf|]. by left.
Qed.

Lemma deleteAccount_outcomes d img addr a force : drive_wf d img -> toAddress addr = Val a -> isZero a = false ->
  wp (deleteAccount addr force) d (fun o d' => match o with
    | Val b => (b = true /\ (exists nb, account_of (cfg d) img a = Some nb /\ (force = true \/ nb.1 = 0)) /\ account_removed d img a d')
        \/ (b = false /\ account_of (cfg d) img a = None /\ leaves d img d')
    | Exn e => e = err_nonceProtected /\ force = false
        /\ (exists nb, account_of (cfg d) img a = Some nb /\ nb.1 <> 0) /\ leaves d img d'
    | Diverge => False end).
Proof.
  intros Hwf Ha Hz. destruct (account_of (cfg d) img a) as [nb|] eqn:He.
  - destruct (decide (force = true \/ nb.1 = 0)) as [Hok|Hno].
    + eapply wp_returns; [by eapply deleteAccount_spec|]. intros b d' [-> Hr]. left. naive_solver.
    + assert (force = false) as -> by (destruct force; naive_solver).
      eapply wp_raises; [eapply deleteAccount_protected; naive_solver|]. naive_solver.
  - eapply wp_returns; [by eapply deleteAccount_absent|]. naive_solver.
Qed.

Lemma setTokenBalance_outcomes d img addr a id t v : drive_wf d img -> profile (cfg d) <> ProfileSingleAsset ->
  toAddress addr = Val a -> isZero a = false -> Forall is_byte a -> 0 <= id -> tokens_ d !! Z.to_nat id = Some t ->
  wp (setTokenBalance addr id v) d (fun o d' => match o with
    | Val _ => fits_width (tok_width t) v /\ token_room d img id a v /\ token_written d img id a v d'
    | Exn e => leaves d img d' /\ (e = overflow_error /\ ~ fits_width (tok_width t) v
        \/ e = err_tableFull /\ fits_width (tok_width t) v /\ ~ token_room d img id a v)
    | Diverge => False end).
Proof.
  intros Hwf Hp Ha Hz Hb Hid Ht. destruct (decide (fits_width (tok_width t) v)) as [Hf|Hf].
  - pose proof (lookup_lt_Some _ _ _ Ht) as Hlt.
    destruct (room_or_full d img id a v Hwf ltac:(unfold zlen; lia) Hp (toAddress_length _ _ Ha)) as [Hroom|[Hv Hfull]].
    + eapply wp_returns; [by eapply setTokenBalance_spec|]. intros [] d' Hw. by split_and!.
    + eapply wp_raises; [by eapply setTokenBalance_full|]. intros d' Hd'. split; [done|]. right. split_and!; try done.
      by apply full_no_room.
  - eapply wp_raises; [by eapply setTokenBalance_overflow|]. intros d' ->. split; [apply leaves_refl, Hwf|]. by left.
Qed.

Lemma registerToken_outcomes d img addr a w : drive_wf d img -> toAddress addr = Val a ->
  wp (registerToken addr w) d (fun o d' => match o with
    | Val id => registration_error (cfg d) (tokens_ d) a w = None /\ id = zlen (tokens_ d) /\ token_registered d img a w d'
    | Exn e => registration_error (cfg d) (tokens_ d) a w = Some e /\ d' = d
    | Diverge => False end).
Proof.
  intros Hwf Ha. destruct (registration_error (cfg d) (tokens_ d) a w) as [e|] eqn:He.
  - eapply wp_raises; [by eapply registerToken_refused|]. by intros d' ->.
  - eapply wp_returns; [by eapply registerToken_ok|]. by intros id d' [-> Hr].
Qed.

(** An address the first check refuses: nothing is touched. *)
Lemma toAddress_ends addr : toAddress addr <> Diverge.
Proof.
  unfold toAddress, hexToBytes, mbind, outcome_bind. destruct addr as [b|t]; [by case_match|]. by repeat case_match.
Qed.
Lemma address_refused {A} d addr (f : bytes -> M (Drive S) A) :
  (forall a, toAddress addr = Val a -> isZero a = true) ->
  exists e, raises (x ← nonzero_address addr; f x) d e (fun d' => d' = d).
Proof.
  intros Hno. destruct (toAddress addr) as [a|e|] eqn:Ha; [|exists e|by destruct (toAddress_ends addr)].
  - exists err_zeroAddress. by apply (zero_address_refused d addr a f Ha), Hno.
  - apply raises_first, raises_first. by apply raises_lift.
Qed.
Lemma setTokenBalance_refused d img addr a id v : drive_wf d img -> toAddress addr = Val a -> isZero a = false ->
  ~ (0 <= id < zlen (tokens_ d)) \/ profile (cfg d) = ProfileSingleAsset ->
  exists e, raises (setTokenBalance addr id v) d e (fun d' => d' = d).
Proof.
  intros Hwf Ha Hz Hor. destruct (decide (0 <= id < zlen (tokens_ d))) as [Hid|Hid].
  2: { exists err_unknownToken. by eapply setTokenBalance_unknown. }
  destruct Hor as [?|Hp]; [done|]. destruct (known_token_ok d img id Hwf Hid) as (t & off & _ & _ & Hk).
  unfold setTokenBalance. destruct ((v <? 0) || negb (Z.shiftr v (8 * tok_width t) =? 0)) eqn:Hover.
  - exists overflow_error. eapply raises_address; [done..|]. apply raises_bind. unfold returns, wp. rewrite Hk. simpl.
    rewrite Hover. by apply raises_throw.
  - exists err_profile. eapply raises_address; [done..|]. apply raises_bind. unfold returns, wp. rewrite Hk. simpl.
    rewrite Hover. apply raises_bind, returns_gets. rewrite Hp. by apply raises_throw.
Qed.

(** ** Runs *)
Inductive DriveOp : Type :=
  | OpSetAccount (addr : AddressLike) (nonce balance : Z)
  | OpDeleteAccount (addr : AddressLike) (force : bool)
  | OpRegister (addr : AddressLike) (width : Z)
  | OpSetBalance (addr : AddressLike) (id v : Z).
Definition op_address (op : DriveOp) : AddressLike :=
  match op with OpSetAccount a _ _ | OpDeleteAccount a _ | OpRegister a _ | OpSetBalance a _ _ => a end.
(** [true] where the operation has nothing to say of itself. *)
Definition drive_op (op : DriveOp) : M (Drive S) bool :=
  match op with
  | OpSetAccount addr nonce balance => setAccount addr nonce balance;; mret true
  | OpDeleteAccount addr force => deleteAccount addr force
  | OpRegister addr width => registerToken addr width;; mret true
  | OpSetBalance addr id v => setTokenBalance addr id v;; mret true
  end.
Fixpoint run_drive (ops : list DriveOp) (d : Drive S) : list (DriveOp * outcome bool) * Drive S :=
  match ops with
  | [] => ([], d)
  | op :: ops => let p := drive_op op d in let q := run_drive ops p.2 in ((op, p.1) :: q.1, q.2)
  end.

(** The record of a drive's writes: what each account, token and holding was
    last given. *)
Record DriveRecord : Type := mkRecord {
  r_account : bytes -> Z * Z; r_tokens : list Token; r_balance : Z -> bytes -> Z
}.
(** An operation that threw is not on the record; one that went through is, as
    its arguments are, the nonce modulo its field. Deleting an account of the
    wide profile takes its holdings with it. *)
Definition record_op (c : NormalizedConfig) (r : DriveRecord) (p : DriveOp * outcome bool) : DriveRecord :=
  match toAddress (op_address p.1), p.2 with
  | Val a, Val done =>
      match p.1 with
      | OpSetAccount _ n b =>
          mkRecord (fun x => if decide (x = a) then (n mod nonce_modulus c, b) else r_account r x) (r_tokens r) (r_balance r)
      | OpDeleteAccount _ _ =>
          if done then mkRecord (fun x => if decide (x = a) then (0, 0) else r_account r x) (r_tokens r)
            (fun id x => if decide (x = a /\ profile c = ProfileWide) then 0 else r_balance r id x)
          else r
      | OpRegister _ w => mkRecord (r_account r) (r_tokens r ++ [mkToken a w])
          (fun id x => if decide (id = zlen (r_tokens r)) then 0 else r_balance r id x)
      | OpSetBalance _ id v =>
          mkRecord (r_account r) (r_tokens r) (fun id' x => if decide ((id', x) = (id, a)) then v else r_balance r id' x)
      end
  | _, _ => r
  end.
(** What the drive holds, as a record. *)
Definition recorded d img : DriveRecord :=
  mkRecord (fun a => default (0, 0) (account_of (cfg d) img a)) (tokens_ d) (token_balance (cfg d) (tokens_ d) img).
Definition on_record d img (r : DriveRecord) : Prop :=
  (forall a, default (0, 0) (account_of (cfg d) img a) = r_account r a) /\ tokens_ d = r_tokens r
  /\ (forall id a, 0 <= id < zlen (tokens_ d) -> zlen a = 20 -> token_balance (cfg d) (tokens_ d) img id a = r_balance r id a).
Definition stands d img c (r : DriveRecord) : Prop := drive_wf d img /\ cfg d = c /\ on_record d img r.

Lemma stands_leaves d img c r d' : stands d img c r -> leaves d img d' -> stands d' img c r.
Proof.
  intros (Hwf & Hc & Ha & Ht & Hb) Hl. destruct (wf_leaves _ _ _ Hwf Hl) as (Hwf' & Hc' & Ht').
  split_and!; [done|congruence|..]; unfold on_record in *; rewrite Hc', Ht'; by split_and!.
Qed.

(** One operation, on its way to the record. *)
Definition step_recorded d img c (r : DriveRecord) (op : DriveOp) : Prop :=
  wp (drive_op op) d (fun o d' => o <> Diverge /\ exists img', stands d' img' c (record_op c r (op, o))).

Lemma thrown_recorded d img c r op e d' : stands d' img c r -> exists img', stands d' img' c (record_op c r (op, Exn e)).
Proof. intros Hs. exists img. unfold record_op. cbn [fst snd]. by destruct (toAddress _). Qed.

Lemma refused_recorded d img c r op : stands d img c r -> (exists e, raises (drive_op op) d e (fun d' => d' = d)) ->
  step_recorded d img c r op.
Proof. intros Hs [e He]. eapply wp_raises; [exact He|]. intros d' ->. split; [done|by eapply thrown_recorded]. Qed.

(** An operation checks its address first. *)
Lemma checked_recorded {A} (f : bytes -> M (Drive S) A) d img c r op : stands d img c r ->
  (forall e, raises (x ← nonzero_address (op_address op); f x) d e (fun d' => d' = d) ->
     raises (drive_op op) d e (fun d' => d' = d)) ->
  (forall a, toAddress (op_address op) = Val a -> isZero a = false -> step_recorded d img c r op) ->
  step_recorded d img c r op.
Proof.
  intros Hs Hop Hok.
  assert (Hno : (forall a, toAddress (op_address op) = Val a -> isZero a = true) -> step_recorded d img c r op).
  { intros Hz. apply refused_recorded; [done|]. destruct (address_refused d (op_address op) f Hz) as [e He].
    exists e. by apply Hop. }
  destruct (toAddress (op_address op)) as [a|e|] eqn:Ha; [|by apply Hno..].
  destruct (isZero a) eqn:Hz; [apply Hno; congruence|by apply (Hok a)].
Qed.

Lemma set_account_recorded d img c r addr n b : stands d img c r -> (forall a, toAddress addr = Val a -> Forall is_byte a) ->
  step_recorded d img c r (OpSetAccount addr n b).
Proof.
  intros Hs Hb. eapply checked_recorded; [done|intros e; apply raises_first|]. intros a Ha Hz.
  pose proof Hs as (Hwf & Hc & Hacc & Ht & Hbal). apply wp_bind.
  eapply wp_mono; [|by apply (setAccount_outcomes d img addr a n b Hwf Ha Hz), Hb].
  intros [[]|e|] d'; [| |done].
  - intros (_ & _ & img' & (Hwf' & Hc' & Ht') & Hat & Hoth & Htok). unfold wp, mret, M_ret. cbn [fst snd]. split; [done|]. exists img'.
    unfold record_op. cbn [fst snd op_address] in *. rewrite Ha. split; [done|]. split; [congruence|].
    unfold on_record. rewrite Hc', Ht'. split_and!; cbn; [|done|].
    + intros x. case_decide as Hx; [subst x; by rewrite Hat, Hc|by rewrite Hoth].
    + intros id x Hid Hx. rewrite Htok. by apply Hbal.
  - intros [Hl _]. split; [done|]. eapply thrown_recorded; [exact d|]. by eapply stands_leaves.
Qed.

Lemma delete_account_recorded d img c r addr force : stands d img c r -> step_recorded d img c r (OpDeleteAccount addr force).
Proof.
  intros Hs. eapply checked_recorded; [done|intros e He; exact He|]. intros a Ha Hz. pose proof Hs as (Hwf & Hc & Hacc & Ht & Hbal).
  eapply wp_mono; [|by apply (deleteAccount_outcomes d img addr a force Hwf Ha Hz)].
  intros [x|e|] d'; [| |done].
  - intros [(-> & _ & img' & (Hwf' & Hc' & Ht') & Hat & Hoth & Hkeep & Hwide)|(-> & _ & Hl)]; (split; [done|]).
    + exists img'. cbn [op_address] in Ha. unfold record_op. cbn [fst snd op_address]. rewrite Ha. split; [done|]. split; [congruence|].
      unfold on_record. rewrite Hc', Ht'. split_and!; cbn; [|done|].
      * intros x. case_decide as Hx; [subst x; by rewrite Hat|by rewrite Hoth].
      * intros id x Hid Hx. case_decide as Hd; [destruct Hd as [-> Hp]; apply Hwide; congruence|].
        rewrite Hkeep; [by apply Hbal|]. destruct (decide (x = a)); [right; intros ?; apply Hd; split; congruence|by left].
    + exists img. cbn [op_address] in Ha. unfold record_op. cbn [fst snd op_address]. rewrite Ha. by eapply stands_leaves.
  - intros (_ & _ & _ & Hl). split; [done|]. eapply thrown_recorded; [exact d|]. by eapply stands_leaves.
Qed.

Lemma register_recorded d img c r addr w : stands d img c r -> step_recorded d img c r (OpRegister addr w).
Proof.
  intros Hs. pose proof Hs as (Hwf & Hc & Hacc & Ht & Hbal). destruct (toAddress addr) as [a|e|] eqn:Ha.
  2: { apply refused_recorded; [done|]. exists e. apply raises_first, raises_first. by apply raises_lift. }
  2: by destruct (toAddress_ends addr).
  apply wp_bind. eapply wp_mono; [|by apply (registerToken_outcomes d img addr a w Hwf Ha)]. intros [id|e|] d'; [| |done].
  - intros (_ & -> & img' & Hwf' & Hc' & Ht' & Hacc' & Hold & Hnew). unfold wp, mret, M_ret. cbn [fst snd]. split; [done|]. exists img'.
    unfold record_op. cbn [fst snd op_address]. rewrite Ha. split; [done|]. split; [congruence|].
    unfold on_record. rewrite Hc'. split_and!; cbn; [intros x; by rewrite Hacc'|by rewrite Ht', Ht|].
    rewrite <- Ht. intros id x Hid Hx. case_decide as Hd; [subst id; by apply Hnew|].
    rewrite Ht', zlen_app in Hid. change (zlen [_]) with 1 in Hid. rewrite Hold by lia. apply Hbal; [lia|done].
  - intros [_ ->]. split; [done|]. by eapply (thrown_recorded d).
Qed.

Lemma set_balance_recorded d img c r addr id v : stands d img c r -> (forall a, toAddress addr = Val a -> Forall is_byte a) ->
  step_recorded d img c r (OpSetBalance addr id v).
Proof.
  intros Hs Hb. eapply checked_recorded; [done|intros e; apply raises_first|]. intros a Ha Hz.
  pose proof Hs as (Hwf & Hc & Hacc & Ht & Hbal).
  destruct (decide (0 <= id < zlen (tokens_ d) /\ profile (cfg d) <> ProfileSingleAsset)) as [[Hid Hp]|Hno].
  2: { apply refused_recorded; [done|]. destruct (setTokenBalance_refused d img addr a id v Hwf Ha Hz) as [e He].
       - destruct (decide (0 <= id < zlen (tokens_ d))); [right|by left].
         destruct (decide (profile (cfg d) = ProfileSingleAsset)); [done|by destruct Hno].
       - exists e. by apply raises_first. }
  destruct (known_token_ok d img id Hwf Hid) as (t & _ & Htk & _).
  apply wp_bind. eapply wp_mono; [|apply (setTokenBalance_outcomes d img addr a id t v); try done; [by apply Hb|lia]].
  intros [[]|e|] d'; [| |done].
  - intros (_ & _ & img' & (Hwf' & Hc' & Ht') & Hat & Hoth & Hkeep). unfold wp, mret, M_ret. cbn [fst snd]. split; [done|]. exists img'.
    unfold record_op. cbn [fst snd op_address] in *. rewrite Ha. split; [done|]. split; [congruence|].
    unfold on_record. rewrite Hc', Ht'. split_and!; cbn; [intros x; by rewrite Hkeep|done|].
    intros id' x Hid' Hx. case_decide as Hd; [injection Hd as -> ->; exact Hat|]. rewrite Hoth by done. by apply Hbal.
  - intros [Hl _]. split; [done|]. eapply thrown_recorded; [exact d|]. by eapply stands_leaves.
Qed.

Lemma drive_op_recorded d img c r op : stands d img c r -> (forall a, toAddress (op_address op) = Val a -> Forall is_byte a) ->
  step_recorded d img c r op.
Proof.
  destruct op; cbn [op_address]; intros; [by apply set_account_recorded|by apply delete_account_recorded|
    by apply register_recorded|by apply set_balance_recorded].
Qed.

(** A run, whatever its operations return or throw: each ends, and the drive
    holds what the record of them says. *)
Lemma run_recorded ops d img c r : stands d img c r ->
  Forall (fun op => forall a, toAddress (op_address op) = Val a -> Forall is_byte a) ops ->
  Forall (fun p => p.2 <> Diverge) (run_drive ops d).1
  /\ exists img', stands (run_drive ops d).2 img' c (foldl (record_op c) r (run_drive ops d).1).
Proof.
  intros Hs Hb. revert d img r Hs. induction Hb as [|op ops Hop _ IH]; intros d img r Hs; [by split; [|exists img]|].
  pose proof (drive_op_recorded d img c r op Hs Hop) as [Hend (img1 & Hs1)]. cbn [run_drive fst snd foldl].
  destruct (IH _ _ _ Hs1) as [Hends Hlast]. split; [by constructor|exact Hlast].
Qed.

Lemma stands_recorded d img : drive_wf d img -> stands d img (cfg d) (recorded d img).
Proof. done. Qed.

(** What the reads of a drive answer, as the record has it and in range. *)
Lemma stands_reads d img c r : stands d img c r ->
  (forall addr a, toAddress addr = Val a -> isZero a = false -> returns (getAccount addr) d (fun b _ =>
     default (0, 0) ((fun x => (acc_nonce x, acc_balance x)) <$> b) = r_account r a
     /\ 0 <= (r_account r a).1 < nonce_modulus c /\ fits_width (balance_width c) (r_account r a).2))
  /\ (forall addr a id t, toAddress addr = Val a -> isZero a = false -> 0 <= id -> r_tokens r !! Z.to_nat id = Some t ->
     profile c <> ProfileSingleAsset ->
     returns (getTokenBalance addr id) d (fun v _ => v = r_balance r id a /\ fits_width (tok_width t) v)).
Proof.
  intros (Hwf & Hc & Hacc & Ht & Hbal). split.
  - intros addr a Ha Hz. eapply returns_mono; [by apply (getAccount_spec d img addr a)|]. intros b d' [-> _].
    rewrite <- Hacc, <- Hc. destruct (account_of (cfg d) img a) as [[n x]|] eqn:He; cbn.
    + split; [done|]. by eapply account_of_bounds.
    + split; [done|]. unfold nonce_modulus, fits_width, balance_width. by destruct (compact (cfg d)).
  - intros addr a id t Ha Hz Hid Htk Hp. rewrite <- Ht in Htk. rewrite <- Hc in Hp. pose proof (lookup_lt_Some _ _ _ Htk).
    assert (Hin : 0 <= id < zlen (tokens_ d)) by (unfold zlen; lia). pose proof (toAddress_length _ _ Ha) as Hl.
    eapply returns_mono; [by apply (getTokenBalance_spec d img addr a id)|]. intros v d' [-> _].
    split; [by apply Hbal|]. by apply (token_balance_bounds d img id a t).
Qed.
End Outcomes.
