(* ===== verification/ConformanceData.v ===== *)
(** * Scenarios of the conformance suite

    Two of the six of accounts-drive/testdata/golden.json: the drive's
    configuration, the operations with their expected outcomes ([None] is "ok"),
    what is read at the end, and the SHA-256 of the whole image. *)

From Stdlib Require Import ZArith.
From S2P Require Import Prelude Bytes Store DriveConfig DriveTable Drive.

Inductive GoldenOp : Type :=
  | SetAccount (addr : string) (nonce value : Z)
  | DeleteAccount (addr : string) (force : bool)
  | RegisterToken (token : string) (width : Z)
  | SetTokenBalance (addr : string) (id value : Z).
Inductive GoldenCheck : Type :=
  | CheckAccount (addr : string) (found : option (Z * Z))
  | CheckTokenBalance (addr : string) (id value : Z)
  | CheckLiveCount (sparse : bool) (count : Z)
  | CheckSlot (sparse : bool) (index : Z) (hex : string).
Record Scenario : Type := mkScenario {
  sc_config : Config; sc_ops : list (GoldenOp * option ErrorKind); sc_checks : list GoldenCheck; sc_sha256 : string }.
(** A configuration as the file writes it: every field. *)
Definition golden_config (length capacity loadLimit : Z) (seed : string) (profile slotSize tableOffset registryOffset
    registryCapacity sparseOffset sparseCapacity sparseLoadLimit sparseSlotSize : Z) : Config := {|
  c_driveLength := Some length; c_capacity := Some capacity; c_loadLimit := Some loadLimit; c_seed := Some (SeedHex seed);
  c_profile := Some profile; c_slotSize := Some slotSize; c_tableOffset := Some tableOffset;
  c_registryOffset := Some registryOffset; c_registryCapacity := Some registryCapacity;
  c_sparseOffset := Some sparseOffset; c_sparseCapacity := Some sparseCapacity;
  c_sparseLoadLimit := Some sparseLoadLimit; c_sparseSlotSize := Some sparseSlotSize |}.

Definition golden_walkthrough : Scenario := mkScenario
  (golden_config 65536 8 4 "0000000000000000000000000000000000000000000000000000000000000000" 0 64 4096 0 0 0 0 0 0)
  [(SetAccount "bbbbbbbbbbbbbbbbbbbbbbbbbbbbbbbbbbbbbbbb" 0 1, None);
   (SetAccount "dddddddddddddddddddddddddddddddddddddddd" 0 2, None);
   (SetAccount "eeeeeeeeeeeeeeeeeeeeeeeeeeeeeeeeeeeeeeee" 0 3, None);
   (SetAccount "aaaaaaaaaaaaaaaaaaaaaaaaaaaaaaaaaaaaaaaa" 0 4, None);
   (SetAccount "cccccccccccccccccccccccccccccccccccccccc" 0 5, Some tableFull);
   (DeleteAccount "dddddddddddddddddddddddddddddddddddddddd" false, None);
   (SetAccount "cccccccccccccccccccccccccccccccccccccccc" 0 5, None);
   (SetAccount "aaaaaaaaaaaaaaaaaaaaaaaaaaaaaaaaaaaaaaaa" 5 4083388403051261561560495289181218537472, None);
   (DeleteAccount "aaaaaaaaaaaaaaaaaaaaaaaaaaaaaaaaaaaaaaaa" false, Some nonceProtected);
   (DeleteAccount "aaaaaaaaaaaaaaaaaaaaaaaaaaaaaaaaaaaaaaaa" true, None)]
  [CheckSlot false 1 "bbbbbbbbbbbbbbbbbbbbbbbbbbbbbbbbbbbbbbbb0000000000000000000000000000000000000000000000000000000000000000000000000000000000000001";
   CheckSlot false 2 "eeeeeeeeeeeeeeeeeeeeeeeeeeeeeeeeeeeeeeee0000000000000000000000000000000000000000000000000000000000000000000000000000000000000003";
   CheckSlot false 3 "00000000000000000000000000000000000000000000000000000000000000000000000000000000000000000000000000000000000000000000000000000000";
   CheckSlot false 7 "cccccccccccccccccccccccccccccccccccccccc0000000000000000000000000000000000000000000000000000000000000000000000000000000000000005";
   CheckAccount "bbbbbbbbbbbbbbbbbbbbbbbbbbbbbbbbbbbbbbbb" (Some (0, 1));
   CheckAccount "dddddddddddddddddddddddddddddddddddddddd" None;
   CheckAccount "9999999999999999999999999999999999999999" None;
   CheckLiveCount false 3]
  "e816697e316b70d4ebb73227a2c26a1704b4757c34dd73a9ce46c8484e808b94".

Definition golden_sparse32 : Scenario := mkScenario
  (golden_config 65536 16 14 "4444444444444444444444444444444444444444444444444444444444444444" 2 64 4096 256 4 32768 64 56 32)
  [(RegisterToken "5d6365d611bcce762f869086ef53899589faaf88" 8, None);
   (RegisterToken "aae76d66a4329699ae8a0dc712e885e7511279c6" 8, None);
   (RegisterToken "1cb7a2df411bde01e699dba3fcf78ed1f60a81e9" 16, Some badWidth);
   (SetAccount "0eeed78417d26edaeaabad605d0fea2f62dbe6ac" 1 5, None);
   (SetAccount "d142cdde9882901a8c7dead6b99936585db6f981" 2 10, None);
   (SetAccount "5e45ed9555bdc5f080a02f441642138a96d37a6a" 3 15, None);
   (SetAccount "cff5374f52928942c2242120e08b3784713cab61" 4 20, None);
   (SetAccount "91a8fd7f6e6021780bdbce53f046b08eea8bf5ae" 5 25, None);
   (SetAccount "07e222303ccc017214ee732c31582381d85c96f8" 6 30, None);
   (SetAccount "5c5e8b525c46adf523546edbc64c3c2189322075" 7 35, None);
   (SetAccount "ec74c88b8b3dc85d9faeefec0b6df697cc3c6caa" 8 40, None);
   (SetAccount "681528f2a994816484dbe91ab3a00c398d368a63" 9 45, None);
   (SetAccount "7ed7edb6951c982d8bf7b929955a56a8a9c9fa2a" 10 50, None);
   (SetTokenBalance "0eeed78417d26edaeaabad605d0fea2f62dbe6ac" 0 424243, None);
   (SetTokenBalance "d142cdde9882901a8c7dead6b99936585db6f981" 1 848486, None);
   (SetTokenBalance "5e45ed9555bdc5f080a02f441642138a96d37a6a" 0 1272729, None);
   (SetTokenBalance "cff5374f52928942c2242120e08b3784713cab61" 1 1696972, None);
   (SetTokenBalance "91a8fd7f6e6021780bdbce53f046b08eea8bf5ae" 0 2121215, None);
   (SetTokenBalance "07e222303ccc017214ee732c31582381d85c96f8" 1 2545458, None);
   (SetTokenBalance "5c5e8b525c46adf523546edbc64c3c2189322075" 0 2969701, None);
   (SetTokenBalance "ec74c88b8b3dc85d9faeefec0b6df697cc3c6caa" 1 3393944, None);
   (SetTokenBalance "681528f2a994816484dbe91ab3a00c398d368a63" 0 3818187, None);
   (SetTokenBalance "7ed7edb6951c982d8bf7b929955a56a8a9c9fa2a" 1 4242430, None);
   (SetTokenBalance "0eeed78417d26edaeaabad605d0fea2f62dbe6ac" 0 4666673, None);
   (SetTokenBalance "d142cdde9882901a8c7dead6b99936585db6f981" 1 5090916, None);
   (SetTokenBalance "5e45ed9555bdc5f080a02f441642138a96d37a6a" 0 5515159, None);
   (SetTokenBalance "cff5374f52928942c2242120e08b3784713cab61" 1 5939402, None);
   (SetTokenBalance "91a8fd7f6e6021780bdbce53f046b08eea8bf5ae" 0 6363645, None);
   (SetTokenBalance "07e222303ccc017214ee732c31582381d85c96f8" 1 6787888, None);
   (SetTokenBalance "5c5e8b525c46adf523546edbc64c3c2189322075" 0 7212131, None);
   (SetTokenBalance "ec74c88b8b3dc85d9faeefec0b6df697cc3c6caa" 1 7636374, None);
   (SetTokenBalance "681528f2a994816484dbe91ab3a00c398d368a63" 0 8060617, None);
   (SetTokenBalance "7ed7edb6951c982d8bf7b929955a56a8a9c9fa2a" 1 8484860, None);
   (SetTokenBalance "0eeed78417d26edaeaabad605d0fea2f62dbe6ac" 0 18446744073709551616, Some overflow);
   (SetTokenBalance "cff5374f52928942c2242120e08b3784713cab61" 1 0, None)]
  [CheckTokenBalance "0eeed78417d26edaeaabad605d0fea2f62dbe6ac" 0 4666673;
   CheckTokenBalance "cff5374f52928942c2242120e08b3784713cab61" 1 0;
   CheckTokenBalance "91a8fd7f6e6021780bdbce53f046b08eea8bf5ae" 0 6363645;
   CheckLiveCount true 9]
  "8bff977bf33e694e343b877e641c078243daf29714b9ce34830f53ba08ebaadd".
