(* ===== verification/Conformance.v ===== *)
(** * The cross-language conformance suite

    accounts-drive/testdata/golden.json, generated by the Go reference, is what
    every implementation of the drive is tested against
    (accounts-drive/js/test/golden.test.ts replays it). Here the model replays
    two scenarios, with Keccak-256 itself for the hash: the walkthrough of the
    specification, and the one that exercises every table (accounts, registry,
    sparse balances), down to the bytes of the whole image. The other four, on
    larger drives, would keep a checker without a virtual machine busy for long. *)

From Stdlib Require Import ZArith NArith Lia.
From S2P Require Import Prelude Bytes Store DriveConfig DriveHeader RobinHood DriveTable Drive DriveTokens DriveFormat ConformanceData.

(** ** Keccak-256

    The permutation on 25 lanes of 64 bits, lane [x + 5 y], and the sponge with
    a rate of 136 bytes. *)
Definition rotl (x r : N) : N := N.lor (N.land (N.shiftl x r) 0xffffffffffffffff%N) (N.shiftr x (64 - r)%N).
Definition keccak_round (rc : N) (s : list N) : list N :=
  match s with
  | [a0; a1; a2; a3; a4; a5; a6; a7; a8; a9; a10; a11; a12; a13; a14; a15; a16; a17; a18; a19; a20; a21; a22; a23; a24] =>
      let c0 := N.lxor a0 (N.lxor a5 (N.lxor a10 (N.lxor a15 a20))) in
      let c1 := N.lxor a1 (N.lxor a6 (N.lxor a11 (N.lxor a16 a21))) in
      let c2 := N.lxor a2 (N.lxor a7 (N.lxor a12 (N.lxor a17 a22))) in
      let c3 := N.lxor a3 (N.lxor a8 (N.lxor a13 (N.lxor a18 a23))) in
      let c4 := N.lxor a4 (N.lxor a9 (N.lxor a14 (N.lxor a19 a24))) in
      let d0 := N.lxor c4 (rotl c1 1%N) in
      let d1 := N.lxor c0 (rotl c2 1%N) in
      let d2 := N.lxor c1 (rotl c3 1%N) in
      let d3 := N.lxor c2 (rotl c4 1%N) in
      let d4 := N.lxor c3 (rotl c0 1%N) in
      let b0 := rotl (N.lxor a0 d0) 0%N in
      let b10 := rotl (N.lxor a1 d1) 1%N in
      let b20 := rotl (N.lxor a2 d2) 62%N in
      let b5 := rotl (N.lxor a3 d3) 28%N in
      let b15 := rotl (N.lxor a4 d4) 27%N in
      let b16 := rotl (N.lxor a5 d0) 36%N in
      let b1 := rotl (N.lxor a6 d1) 44%N in
      let b11 := rotl (N.lxor a7 d2) 6%N in
      let b21 := rotl (N.lxor a8 d3) 55%N in
      let b6 := rotl (N.lxor a9 d4) 20%N in
      let b7 := rotl (N.lxor a10 d0) 3%N in
      let b17 := rotl (N.lxor a11 d1) 10%N in
      let b2 := rotl (N.lxor a12 d2) 43%N in
      let b12 := rotl (N.lxor a13 d3) 25%N in
      let b22 := rotl (N.lxor a14 d4) 39%N in
      let b23 := rotl (N.lxor a15 d0) 41%N in
      let b8 := rotl (N.lxor a16 d1) 45%N in
      let b18 := rotl (N.lxor a17 d2) 15%N in
      let b3 := rotl (N.lxor a18 d3) 21%N in
      let b13 := rotl (N.lxor a19 d4) 8%N in
      let b14 := rotl (N.lxor a20 d0) 18%N in
      let b24 := rotl (N.lxor a21 d1) 2%N in
      let b9 := rotl (N.lxor a22 d2) 61%N in
      let b19 := rotl (N.lxor a23 d3) 56%N in
      let b4 := rotl (N.lxor a24 d4) 14%N in
      [N.lxor rc (N.lxor b0 (N.ldiff b2 b1));
       N.lxor b1 (N.ldiff b3 b2);
       N.lxor b2 (N.ldiff b4 b3);
       N.lxor b3 (N.ldiff b0 b4);
       N.lxor b4 (N.ldiff b1 b0);
       N.lxor b5 (N.ldiff b7 b6);
       N.lxor b6 (N.ldiff b8 b7);
       N.lxor b7 (N.ldiff b9 b8);
       N.lxor b8 (N.ldiff b5 b9);
       N.lxor b9 (N.ldiff b6 b5);
       N.lxor b10 (N.ldiff b12 b11);
       N.lxor b11 (N.ldiff b13 b12);
       N.lxor b12 (N.ldiff b14 b13);
       N.lxor b13 (N.ldiff b10 b14);
       N.lxor b14 (N.ldiff b11 b10);
       N.lxor b15 (N.ldiff b17 b16);
       N.lxor b16 (N.ldiff b18 b17);
       N.lxor b17 (N.ldiff b19 b18);
       N.lxor b18 (N.ldiff b15 b19);
       N.lxor b19 (N.ldiff b16 b15);
       N.lxor b20 (N.ldiff b22 b21);
       N.lxor b21 (N.ldiff b23 b22);
       N.lxor b22 (N.ldiff b24 b23);
       N.lxor b23 (N.ldiff b20 b24);
       N.lxor b24 (N.ldiff b21 b20)]
  | _ => s
  end.
Definition round_constants : list N :=
  [0x1; 0x8082; 0x800000000000808a; 0x8000000080008000; 0x808b; 0x80000001; 0x8000000080008081; 0x8000000000008009; 0x8a; 0x88; 0x80008009; 0x8000000a; 0x8000808b; 0x800000000000008b; 0x8000000000008089; 0x8000000000008003; 0x8000000000008002; 0x8000000000000080; 0x800a; 0x800000008000000a; 0x8000000080008081; 0x8000000000008080; 0x80000001; 0x8000000080008008]%N.
Definition keccak_f (s : list N) : list N := foldl (fun s rc => keccak_round rc s) s round_constants.

Definition lane (b : bytes) : N := Z.to_N (le_decode b).
Fixpoint lanes (n : nat) (b : bytes) : list N :=
  match n with O => [] | Datatypes.S n => lane (take 8 b) :: lanes n (drop 8 b) end.
Fixpoint xor_into (s b : list N) : list N :=
  match s, b with x :: s, y :: b => N.lxor x y :: xor_into s b | _, _ => s end.
(** The padding: a byte 1, zeros, and the last byte's high bit. *)
Definition pad (m : bytes) : bytes :=
  let n := (136 - length m mod 136)%nat in
  m ++ match n with 1%nat => [0x81] | _ => 1 :: replicate (n - 2) 0 ++ [0x80] end.
Fixpoint absorb (fuel : nat) (m : bytes) (s : list N) : list N :=
  match fuel, m with
  | Datatypes.S fuel, _ :: _ => absorb fuel (drop 136 m) (keccak_f (xor_into s (lanes 17 m)))
  | _, _ => s
  end.
Definition keccak_digest (m : bytes) : bytes :=
  let p := pad m in
  concat (map (fun l => le_encode 8 (Z.of_N l)) (take 4 (absorb (S (length p / 136)) p (replicate 25 0%N)))).
#[local] Instance keccak_real : Keccak := keccak_digest.

(** The digests accounts-drive/js/test/keccak.test.ts pins. *)
Example keccak_vectors : bytesToHex (keccak256 []) = "c5d2460186f7233c927e7db2dcc703c0e500b653ca82273b7bfad8045d85a470"
  /\ bytesToHex (keccak256 [zeros 32; replicate 20 0xbb]) = "693865af36f54054f08a9e83ec52e6df2001c39673abba1e01d450211dff1a92".
Proof. split; vm_compute; reflexivity. Qed.

(** ** SHA-256, which pins a whole image *)
Definition w32 (x : N) : N := N.land x 0xffffffff.
(** Both copies of a word, so that a shift is a rotation. *)
Definition twice (x : N) : N := N.lor (N.shiftl x 32) x.
Fixpoint words (n : nat) (b : bytes) : list N :=
  match n with O => [] | Datatypes.S n => Z.to_N (readBE (take 4 b)) :: words n (drop 4 b) end.
(** The 64 round constants and the initial state, 32-bit words one after the
    other. *)
Definition sha_constants : string :=
  "428a2f9871374491b5c0fbcfe9b5dba53956c25b59f111f1923f82a4ab1c5ed5d807aa9812835b01243185be550c7dc3" +:+
  "72be5d7480deb1fe9bdc06a7c19bf174e49b69c1efbe47860fc19dc6240ca1cc2de92c6f4a7484aa5cb0a9dc76f988da" +:+
  "983e5152a831c66db00327c8bf597fc7c6e00bf3d5a7914706ca63511429296727b70a852e1b21384d2c6dfc53380d13" +:+
  "650a7354766a0abb81c2c92e92722c85a2bfe8a1a81a664bc24b8b70c76c51a3d192e819d6990624f40e3585106aa070" +:+
  "19a4c1161e376c082748774c34b0bcb5391c0cb34ed8aa4a5b9cca4f682e6ff3748f82ee78a5636f84c878148cc70208" +:+
  "90befffaa4506cebbef9a3f7c67178f2".
Definition sha_initial : string :=
  "6a09e667bb67ae853c6ef372a54ff53a510e527f9b05688c1f83d9ab5be0cd19".
Definition hex_words (n : nat) (s : string) : list N := match hexToBytes s with Val b => words n b | _ => [] end.
Definition step_a (a b c t1 : N) : N :=
  let y := twice a in
  let s0 := w32 (N.lxor (N.shiftr y 2) (N.lxor (N.shiftr y 13) (N.shiftr y 22))) in
  w32 (t1 + s0 + N.lxor (N.land a b) (N.lxor (N.land a c) (N.land b c)))%N.
Definition temp1 (e f g h k w : N) : N :=
  let y := twice e in
  let s1 := w32 (N.lxor (N.shiftr y 6) (N.lxor (N.shiftr y 11) (N.shiftr y 25))) in
  (h + s1 + N.lxor (N.land e f) (N.ldiff g e) + k + w)%N.
Definition expand (w0 w1 w9 w14 : N) : N :=
  let y := twice w1 in let z := twice w14 in
  w32 (w0 + N.lxor (w32 (N.lxor (N.shiftr y 7) (N.shiftr y 18))) (N.shiftr w1 3) + w9
       + N.lxor (w32 (N.lxor (N.shiftr z 17) (N.shiftr z 19))) (N.shiftr w14 10))%N.
(** A round per constant, over the window of the next sixteen words. *)
Fixpoint sha_rounds (ks ws : list N) (a b c d e f g h : N) : list N :=
  match ks, ws with
  | k :: ks, w0 :: ((w1 :: _ :: _ :: _ :: _ :: _ :: _ :: _ :: w9 :: _ :: _ :: _ :: _ :: w14 :: _) as rest) =>
      let t1 := temp1 e f g h k w0 in
      sha_rounds ks (rest ++ [expand w0 w1 w9 w14]) (step_a a b c t1) a b c (w32 (d + t1)%N) e f g
  | _, _ => [a; b; c; d; e; f; g; h]
  end.
Definition sha_block (ks hs : list N) (b : bytes) : list N :=
  match hs with
  | [a; b'; c; d; e; f; g; h] =>
      zip_with (fun x y => w32 (x + y)%N) hs (sha_rounds ks (words 16 b) a b' c d e f g h)
  | _ => hs
  end.
Fixpoint sha_blocks (fuel : nat) (ks hs : list N) (m : bytes) : list N :=
  match fuel, m with
  | Datatypes.S fuel, _ :: _ => sha_blocks fuel ks (sha_block ks hs (take 64 m)) (drop 64 m)
  | _, _ => hs
  end.
(** Of a message whose length is a multiple of 64. *)
Definition sha256 (m : bytes) : bytes :=
  let tail := 0x80 :: replicate 55 0 ++ reverse (le_encode 8 (8 * zlen m)) in
  concat (map (fun w => reverse (le_encode 4 (Z.of_N w))) (sha_blocks (S (length m / 64)) (hex_words 64 sha_constants) (hex_words 8 sha_initial) (m ++ tail))).
Example sha_vector : bytesToHex (sha256 []) = "e3b0c44298fc1c149afbf4c8996fb92427ae41e4649b934ca495991b7852b855".
Proof. vm_compute. reflexivity. Qed.

(** ** Replaying a scenario *)
Abbreviation D := (Drive MemStore.t).
Definition run_op (op : GoldenOp) : M D unit :=
  match op with
  | SetAccount a n v => setAccount (AddrHex a) n v
  | DeleteAccount a force => _ ← deleteAccount (AddrHex a) force; mret tt
  | RegisterToken t w => _ ← registerToken (AddrHex t) w; mret tt
  | SetTokenBalance a id v => setTokenBalance (AddrHex a) id v
  end.
(** [kindOf]: [None] when it ended otherwise than the suite can expect. *)
Definition kind_of (r : outcome unit) : option (option ErrorKind) :=
  match r with Val _ => Some None | Exn (AccountsDriveError k _) => Some (Some k) | _ => None end.
(** The drive after the operations, if each ended as expected. *)
Fixpoint run_ops (ops : list (GoldenOp * option ErrorKind)) (d : D) : option D :=
  match ops with
  | [] => Some d
  | (op, expect) :: ops =>
      let (r, d') := run_op op d in
      if bool_decide (kind_of r = Some expect) then run_ops ops d' else None
  end.
Definition slot_of (c : NormalizedConfig) (sparse : bool) (index : Z) : Z * Z :=
  if sparse then (sparseOffset c + sparseSlotSize c * index, sparseSlotSize c) else (tableOffset c + slotSize c * index, slotSize c).
Definition run_check (d : D) (c : GoldenCheck) : bool :=
  match c with
  | CheckAccount a found =>
      match (getAccount (AddrHex a) d).1 with
      | Val r => bool_decide ((fun x => (acc_nonce x, acc_balance x)) <$> r = found) | _ => false end
  | CheckTokenBalance a id v => match (getTokenBalance (AddrHex a) id d).1 with Val b => b =? v | _ => false end
  | CheckLiveCount sparse n => match ((if sparse then sparseLiveCount else liveCount) d).1 with Val m => m =? n | _ => false end
  | CheckSlot sparse i hex =>
      let (off, len) := slot_of (cfg d) sparse i in
      match (readAt off len (store d)).1 with Val b => String.eqb (bytesToHex b) hex | _ => false end
  end.
Definition final (s : Scenario) : option D :=
  match format (sc_config s) (MemStore.mk (zeros (default 0 (c_driveLength (sc_config s))))) with
  | (Val d, _) => run_ops (sc_ops s) d | _ => None end.
Definition replays (image : bool) (s : Scenario) : bool :=
  match final s with
  | Some d => forallb (run_check d) (sc_checks s)
      && (negb image || String.eqb (bytesToHex (sha256 (MemStore.image (store d)))) (sc_sha256 s))
  | None => false
  end.

(** Every operation of the walkthrough ends as the suite expects, and what is
    read at the end, slot by slot, is what it expects. *)
Theorem walkthrough_replays : replays false golden_walkthrough = true.
Proof. vm_compute. reflexivity. Qed.
(** So do those of the sparse scenario, and the drive's image has the digest the
    six implementations agree on. *)
Theorem sparse32_replays : replays true golden_sparse32 = true.
Proof. vm_compute. reflexivity. Qed.
