(* ===== verification/Evm.v ===== *)
(** * The EVM-compatibility vocabulary

    evm-compat/js/src: addresses and aliasing (addresses.ts), the shared
    context, outcome and emission types (types.ts), transaction parsing
    (tx.ts), the inspect envelope (evmcall.ts), events (events.ts), withdrawals
    (withdrawal.ts) and cross-domain messages (crossdomain.ts). viem, the
    third-party library that owns RLP, ABI and signature encodings, is the
    parameter [Viem]. Hex strings are the bytes they spell; that case never
    matters is [sameAddress_spells]. *)

From Stdlib Require Import ZArith Lia Ascii.
From S2P Require Import Prelude Bytes DriveTable.

(** ** viem *)
Abbreviation Address := (list Z).
Abbreviation Hex := (list Z).

Inductive AbiType : Type :=
  | TUint (bits : Z) | TAddress | TBytes | TBytes32 | TString | TBool | TArray (t : AbiType).
Inductive AbiValue : Type :=
  | VUint (n : Z) | VAddress (a : Address) | VBytes (b : bytes) | VString (s : string)
  | VBool (b : bool) | VArray (l : list AbiValue).

(** The fields the router reads of a parsed transaction ([AnyParsedTx]). *)
Record AnyParsedTx : Type := mkParsedTx {
  ptx_type : option string;
  ptx_from : option Address;
  ptx_to : option Address;
  ptx_mint : option Z;
  ptx_value : option Z;
  ptx_data : option Hex;
  ptx_chainId : option Z;
  ptx_nonce : option Z;
  ptx_r : option Hex;
  ptx_s : option Hex
}.

(** viem's encoder throws on values its types do not admit; here it is total,
    and [ViemLaws] promises nothing of such values. *)
Class Viem : Type := {
  parseTransaction : bytes -> outcome AnyParsedTx;
  recoverTransactionAddress : bytes -> outcome Address;
  toFunctionSelector : string -> bytes;
  encodeAbiParameters : list AbiType -> list AbiValue -> Hex;
  decodeAbiParameters : list AbiType -> Hex -> outcome (list AbiValue);
  encodeErrorResult : string -> Hex
}.

(** The values an ABI type admits. *)
Fixpoint has_type (v : AbiValue) (t : AbiType) : Prop :=
  match v, t with
  | VUint n, TUint bits => 0 <= n < 2 ^ bits
  | VAddress a, TAddress => zlen a = 20 /\ Forall is_byte a
  | VBytes b, TBytes => Forall is_byte b
  | VBytes b, TBytes32 => zlen b = 32 /\ Forall is_byte b
  | VString _, TString => True
  | VBool _, TBool => True
  | VArray l, TArray t =>
      (fix all (l : list AbiValue) : Prop := match l with [] => True | v :: l => has_type v t /\ all l end) l
  | _, _ => False
  end.

(** What the sources rely on of viem: ABI decoding inverts encoding on typed
    values, and a function selector is four bytes. *)
Class ViemLaws {HV : Viem} : Prop := {
  abi_roundtrip ts vs : Forall2 has_type vs ts ->
    decodeAbiParameters ts (encodeAbiParameters ts vs) = Val vs;
  selector_length sig : zlen (toFunctionSelector sig) = 4
}.

Definition is_address (a : Address) : Prop := zlen a = 20 /\ Forall is_byte a.
(** What they rely on of its transaction parser and of signature recovery:
    addresses are twenty bytes, data is bytes, amounts are unsigned, recovery
    ends, and a decoded value has its ABI type. *)
Record parsed_ok (tx : AnyParsedTx) : Prop := mkParsedOk {
  po_from : forall a, ptx_from tx = Some a -> is_address a;
  po_to : forall a, ptx_to tx = Some a -> is_address a;
  po_data : forall d, ptx_data tx = Some d -> Forall is_byte d;
  po_value : forall v, ptx_value tx = Some v -> 0 <= v;
  po_mint : forall v, ptx_mint tx = Some v -> 0 <= v
}.
Class InputLaws {HV : Viem} : Prop := {
  parsed_transaction raw tx : parseTransaction raw = Val tx -> parsed_ok tx;
  recovered_address raw a : recoverTransactionAddress raw = Val a -> is_address a;
  recovery_ends raw : recoverTransactionAddress raw <> Diverge;
  abi_typed ts h vs : decodeAbiParameters ts h = Val vs -> Forall2 has_type vs ts
}.

Definition string_bytes (s : string) : bytes :=
  map (fun c => Z.of_N (Ascii.N_of_ascii c)) (String.list_ascii_of_string s).

(** ** addresses.ts *)

(** 20-byte constants, from their value. *)
Definition address_of (v : Z) : Address := putBE_loop 20 v [].

Definition REGISTRY_ADDRESS : Address := address_of 0xc751000000000000000000000000000000000000.
Definition BRIDGE_ADDRESS : Address := address_of 0xc751000000000000000000000000000000000001.
Definition CONFIG_ADDRESS : Address := address_of 0xc751000000000000000000000000000000000002.
Definition L1BLOCK_ADDRESS : Address := address_of 0x4200000000000000000000000000000000000015.
Definition L2_MESSENGER_ADDRESS : Address := address_of 0x4200000000000000000000000000000000000007.
Definition L2_BRIDGE_ADDRESS : Address := address_of 0x4200000000000000000000000000000000000010.
Definition MESSAGE_PASSER_ADDRESS : Address := address_of 0x4200000000000000000000000000000000000016.
Definition ZERO_ADDRESS : Address := zeros 20.
Definition TOKEN_DOMAIN : string := "ctsi.erc20.v1".

(** The last twenty bytes of [keccak256(TOKEN_DOMAIN ‖ l1Token)]. *)
Definition l2TokenAddress {HK : Keccak} (l1Token : Address) : Address :=
  let hash := keccak_256 (string_bytes TOKEN_DOMAIN ++ l1Token) in
  drop (length hash - 20) hash.

Definition ALIAS_OFFSET : Z := 0x1111000000000000000000000000000000001111.
Definition TWO_160 : Z := Z.shiftl 1 160.
Definition applyL1ToL2Alias (l1 : Address) : Address :=
  let aliased := Z.rem (readBE l1 + ALIAS_OFFSET) TWO_160 in
  address_of aliased.

(** On the strings themselves: [toLowerCase] of ASCII letters. *)
Definition lower (c : Ascii.ascii) : Ascii.ascii :=
  let n := Ascii.N_of_ascii c in
  if ((65 <=? n) && (n <=? 90))%N then Ascii.ascii_of_N (n + 32)%N else c.
Definition toLowerCase (s : string) : string :=
  String.string_of_list_ascii (map lower (String.list_ascii_of_string s)).
Definition sameAddress (a b : string) : bool := String.eqb (toLowerCase a) (toLowerCase b).
Definition addrKey (a : string) : string :=
  "0x" +:+ toLowerCase (String.string_of_list_ascii (drop 2 (String.list_ascii_of_string a))).

(** ** types.ts *)
Record BlockContext : Type := mkBlock {
  chainId : Z; appContract : Address; blockNumber : Z; timestamp : Z; prevRandao : Z; inputIndex : Z
}.
Record TxContext : Type := mkTx {
  tx_block : BlockContext; tx_sender : Address; tx_to : Address; tx_value : Z; tx_data : bytes;
  tx_isDeposit : bool; tx_mint : Z
}.
Record CallContext : Type := mkCall {
  call_sender : Address; call_to : Address; call_value : Z; call_data : bytes
}.
Inductive AdvanceOutcome : Type :=
  | OAccept | ORevert (data : Hex) | OFail (data : Hex) | OReject (reason : string).
Inductive ViewOutcome : Type := VReturn (data : Hex) | VRevert (data : Hex).
Inductive Emission : Type :=
  | Notice (payload : Hex)
  | Voucher (destination : Address) (value : Z) (payload : Hex)
  | Report (payload : Hex).
Definition TAG_APP : Z := 0x00.
Definition TAG_RETURN : Z := 0x01.
Definition TAG_REVERT : Z := 0x02.
Definition TAG_FAIL : Z := 0x03.
Definition PORTAL_ETHER : Z := 0.
Definition PORTAL_ERC20 : Z := 1.

(** ** Nonces and gas *)
Definition versionedWithdrawalNonce (inputIndex ordinal : Z) : outcome Z :=
  if Z.shiftl 1 32 <=? ordinal then Exn (JsError "too many withdrawals in one input")
  else Val (Z.lor (Z.lor (Z.shiftl 1 240) (Z.shiftl inputIndex 32)) ordinal).

Definition encodeVersionedNonce (nonce version : Z) : Z := Z.lor (Z.shiftl version 240) nonce.
(** The counter and the version. *)
Definition decodeVersionedNonce (nonce : Z) : Z * Z :=
  (Z.land nonce (Z.shiftl 1 240 - 1), Z.shiftr nonce 240).

Definition RELAY_CONSTANT_OVERHEAD : Z := 200000.
Definition MIN_GAS_DYNAMIC_OVERHEAD_NUMERATOR : Z := 64.
Definition MIN_GAS_DYNAMIC_OVERHEAD_DENOMINATOR : Z := 63.
Definition MIN_GAS_CALLDATA_OVERHEAD : Z := 16.
Definition RELAY_CALL_OVERHEAD : Z := 40000.
Definition RELAY_RESERVED_GAS : Z := 40000.
Definition RELAY_GAS_CHECK_BUFFER : Z := 5000.
Definition FLOOR_CALLDATA_OVERHEAD : Z := 40.
Definition ENCODING_OVERHEAD : Z := 260.
Definition TX_BASE_GAS : Z := 21000.

(** BigInt division truncates. *)
Definition baseGas (messageLength minGasLimit : Z) : Z :=
  let executionGas :=
    RELAY_CONSTANT_OVERHEAD + RELAY_CALL_OVERHEAD + RELAY_RESERVED_GAS + RELAY_GAS_CHECK_BUFFER
    + Z.quot (minGasLimit * MIN_GAS_DYNAMIC_OVERHEAD_NUMERATOR) MIN_GAS_DYNAMIC_OVERHEAD_DENOMINATOR in
  let totalMessageSize := messageLength + ENCODING_OVERHEAD in
  let withCalldata := executionGas + totalMessageSize * MIN_GAS_CALLDATA_OVERHEAD in
  let floor := totalMessageSize * FLOOR_CALLDATA_OVERHEAD in
  TX_BASE_GAS + (if floor <? withCalldata then withCalldata else floor).

(** [padHex(x, { size: 32 })] and [toHex(n, { size: 32 })]. *)
Definition padHex32 (b : Hex) : Hex := zeros (32 - zlen b) ++ b.
Definition toHex32 (n : Z) : Hex := putBE_loop 32 n [].

Section Codecs.
Context {HV : Viem} {HK : Keccak}.

Definition errorRevert (msg : string) : Hex := encodeErrorResult msg.

(** ** events.ts *)
Record Log : Type := mkLog { topics : list Hex; log_data : Hex }.

Definition EVM_LOG_SELECTOR : Hex := toFunctionSelector "EvmLog(address,bytes32[],bytes)".
Definition EVM_LOG_PARAMS : list AbiType := [TAddress; TArray TBytes32; TBytes].
Definition encodeEvmLog (emitter : Address) (ts : list Hex) (data : Hex) : Hex :=
  EVM_LOG_SELECTOR
  ++ encodeAbiParameters EVM_LOG_PARAMS [VAddress emitter; VArray (VBytes <$> ts); VBytes data].

Definition topic (sig : string) : Hex := keccak_256 (string_bytes sig).
Definition TRANSFER_TOPIC : Hex := topic "Transfer(address,address,uint256)".
Definition transferLog (from to : Address) (value : Z) : Log :=
  mkLog [TRANSFER_TOPIC; padHex32 from; padHex32 to] (toHex32 value).

(** ** withdrawal.ts *)
Record WithdrawalMessage : Type := mkWithdrawal {
  wd_nonce : Z; wd_sender : Address; wd_target : Address; wd_value : Z; wd_gasLimit : Z; wd_data : Hex
}.
Definition WITHDRAWAL_DEFAULT_GAS_LIMIT : Z := 100000.
Definition WITHDRAWAL_SELECTOR : Hex :=
  toFunctionSelector "Withdrawal(uint256,address,address,uint256,uint256,bytes)".
(** The parameters of a withdrawal and of [relayMessage] alike. *)
Definition MESSAGE_PARAMS : list AbiType :=
  [TUint 256; TAddress; TAddress; TUint 256; TUint 256; TBytes].
Definition withdrawal_values (w : WithdrawalMessage) : list AbiValue :=
  [VUint (wd_nonce w); VAddress (wd_sender w); VAddress (wd_target w); VUint (wd_value w);
   VUint (wd_gasLimit w); VBytes (wd_data w)].
Definition encodeWithdrawal (w : WithdrawalMessage) : Hex :=
  WITHDRAWAL_SELECTOR ++ encodeAbiParameters MESSAGE_PARAMS (withdrawal_values w).
Definition withdrawalHash (w : WithdrawalMessage) : Hex :=
  keccak_256 (encodeAbiParameters MESSAGE_PARAMS (withdrawal_values w)).
Definition withdrawalSlot (hash : Hex) : Hex :=
  keccak_256 (encodeAbiParameters [TBytes32; TUint 256] [VBytes hash; VUint 0]).

(** [startsWith], on the bytes. *)
Definition has_prefix (p b : bytes) : bool := bytesEqual (slice 0 (zlen p) b) p.
Definition decodeWithdrawal (payload : Hex) : option WithdrawalMessage :=
  if has_prefix WITHDRAWAL_SELECTOR payload then
    match decodeAbiParameters MESSAGE_PARAMS (drop (length WITHDRAWAL_SELECTOR) payload) with
    | Val [VUint n; VAddress s; VAddress t; VUint v; VUint g; VBytes d] =>
        Some (mkWithdrawal n s t v g d)
    | _ => None
    end
  else None.
Definition NOTICE_SELECTOR : Hex := toFunctionSelector "Notice(bytes)".
Definition decodeWithdrawalOutput (output : Hex) : option WithdrawalMessage :=
  if has_prefix NOTICE_SELECTOR output then
    match decodeAbiParameters [TBytes] (drop (length NOTICE_SELECTOR) output) with
    | Val [VBytes payload] => decodeWithdrawal payload
    | _ => None
    end
  else None.

(** ** crossdomain.ts *)
Record CrossDomainMessage : Type := mkMessage {
  m_nonce : Z; m_sender : Address; m_target : Address; m_value : Z; m_minGasLimit : Z; m_message : Hex
}.
Definition RELAY_MESSAGE_SELECTOR : Hex :=
  toFunctionSelector "relayMessage(uint256,address,address,uint256,uint256,bytes)".
Definition message_values (m : CrossDomainMessage) : list AbiValue :=
  [VUint (m_nonce m); VAddress (m_sender m); VAddress (m_target m); VUint (m_value m);
   VUint (m_minGasLimit m); VBytes (m_message m)].
Definition encodeRelayMessage (m : CrossDomainMessage) : Hex :=
  RELAY_MESSAGE_SELECTOR ++ encodeAbiParameters MESSAGE_PARAMS (message_values m).
Definition decodeRelayMessage (data : bytes) : option CrossDomainMessage :=
  if has_prefix RELAY_MESSAGE_SELECTOR data then
    match decodeAbiParameters MESSAGE_PARAMS (drop (length RELAY_MESSAGE_SELECTOR) data) with
    | Val [VUint n; VAddress s; VAddress t; VUint v; VUint g; VBytes d] => Some (mkMessage n s t v g d)
    | _ => None
    end
  else None.
Definition hashCrossDomainMessageV1 (m : CrossDomainMessage) : Hex := keccak_256 (encodeRelayMessage m).

Definition MESSAGE_PASSED_TOPIC : Hex :=
  topic "MessagePassed(uint256,address,address,uint256,uint256,bytes,bytes32)".
Definition messagePassedLog (w : WithdrawalMessage) (hash : Hex) : Log :=
  mkLog [MESSAGE_PASSED_TOPIC; toHex32 (wd_nonce w); padHex32 (wd_sender w); padHex32 (wd_target w)]
    (encodeAbiParameters [TUint 256; TUint 256; TBytes; TBytes32]
       [VUint (wd_value w); VUint (wd_gasLimit w); VBytes (wd_data w); VBytes hash]).
Definition SENT_MESSAGE_TOPIC : Hex := topic "SentMessage(address,address,bytes,uint256,uint256)".
Definition SENT_MESSAGE_EXTENSION_1_TOPIC : Hex := topic "SentMessageExtension1(address,uint256)".
Definition sentMessageLog (target sender : Address) (msg : Hex) (messageNonce gasLimit : Z) : Log :=
  mkLog [SENT_MESSAGE_TOPIC; padHex32 target]
    (encodeAbiParameters [TAddress; TBytes; TUint 256; TUint 256]
       [VAddress sender; VBytes msg; VUint messageNonce; VUint gasLimit]).
Definition sentMessageExtension1Log (sender : Address) (value : Z) : Log :=
  mkLog [SENT_MESSAGE_EXTENSION_1_TOPIC; padHex32 sender] (toHex32 value).
Definition RELAYED_MESSAGE_TOPIC : Hex := topic "RelayedMessage(bytes32)".
Definition FAILED_RELAYED_MESSAGE_TOPIC : Hex := topic "FailedRelayedMessage(bytes32)".
Definition relayedMessageLog (msgHash : Hex) (failed : bool) : Log :=
  mkLog [if failed then FAILED_RELAYED_MESSAGE_TOPIC else RELAYED_MESSAGE_TOPIC; msgHash] [].
Definition ERC20_BRIDGE_INITIATED_TOPIC : Hex :=
  topic "ERC20BridgeInitiated(address,address,address,uint256,bytes)".
Definition ERC20_BRIDGE_FINALIZED_TOPIC : Hex :=
  topic "ERC20BridgeFinalized(address,address,address,uint256,bytes)".
Definition erc20BridgeLog (tp : Hex) (localToken remoteToken from to : Address) (amount : Z)
    (extraData : Hex) : Log :=
  mkLog [tp; padHex32 localToken; padHex32 remoteToken; padHex32 from]
    (encodeAbiParameters [TAddress; TUint 256; TBytes] [VAddress to; VUint amount; VBytes extraData]).

(** ** evmcall.ts *)
Definition EVM_CALL_SELECTOR : Hex := toFunctionSelector "EvmCall(uint256,address,address,uint256,bytes)".
Definition EVM_SIMULATE_SELECTOR : Hex :=
  toFunctionSelector "EvmSimulate(uint256,address,address,uint256,bytes)".
Definition CALL_PARAMS : list AbiType := [TUint 256; TAddress; TAddress; TUint 256; TBytes].
Record DecodedCall : Type := mkDecoded {
  dc_simulate : bool; dc_chainId : Z; dc_from : Address; dc_to : Address; dc_value : Z; dc_data : bytes
}.
Definition decodeEvmCall (payload : bytes) : option DecodedCall :=
  if zlen payload <? 4 then None else
  let selector := slice 0 4 payload in
  let simulate := bytesEqual selector EVM_SIMULATE_SELECTOR in
  if negb simulate && negb (bytesEqual selector EVM_CALL_SELECTOR) then None else
  match decodeAbiParameters CALL_PARAMS (drop 4 payload) with
  | Val [VUint cid; VAddress from; VAddress to; VUint value; VBytes data] =>
      Some (mkDecoded simulate cid from to value data)
  | _ => None
  end.
Definition encodeEvmCall (c : DecodedCall) : Hex :=
  (if dc_simulate c then EVM_SIMULATE_SELECTOR else EVM_CALL_SELECTOR)
  ++ encodeAbiParameters CALL_PARAMS
       [VUint (dc_chainId c); VAddress (dc_from c); VAddress (dc_to c); VUint (dc_value c);
        VBytes (dc_data c)].

(** ** tx.ts *)
Inductive ParsedInput : Type :=
  | PDeposit (from : Address) (to : option Address) (mint value : Z) (data : bytes)
  | PSigned (type : string) (chain : option Z) (nonce : Z) (to : option Address) (value : Z)
      (data : bytes) (s : Hex) (raw : bytes)
  | POpaque
  | PRefused (reason : string).

Definition HALF_N : Z := 0x7fffffffffffffffffffffffffffffff5d576e7357a4501ddfe92f46681b20a0.
Definition dataBytes (d : option Hex) : bytes := default [] d.
Definition isSerializedTransaction (value : bytes) : bool :=
  match value with
  | first :: _ => (0xc0 <=? first) || ((0x01 <=? first) && (first <=? 0x04))
  | [] => false
  end.

Definition admitted_type (t : option string) : option string :=
  match t with
  | Some s => if bool_decide (s = "legacy" \/ s = "eip2930" \/ s = "eip1559") then Some s else None
  | None => None
  end.

Definition parseInput (raw : bytes) : ParsedInput :=
  match parseTransaction raw with
  | Val tx =>
      if bool_decide (ptx_type tx = Some "deposit") then
        match ptx_from tx with
        | None => POpaque
        | Some from => PDeposit from (ptx_to tx) (default 0 (ptx_mint tx)) (default 0 (ptx_value tx))
                         (dataBytes (ptx_data tx))
        end
      else
        match admitted_type (ptx_type tx) with
        | None => PRefused ("transaction type " +:+ default "undefined" (ptx_type tx) +:+ " not admitted")
        | Some t =>
            match ptx_r tx, ptx_s tx with
            | Some _, Some s =>
                if negb (isSerializedTransaction raw) then POpaque
                else PSigned t (ptx_chainId tx) (default 0 (ptx_nonce tx)) (ptx_to tx)
                       (default 0 (ptx_value tx)) (dataBytes (ptx_data tx)) s raw
            | _, _ => POpaque
            end
        end
  | _ => POpaque
  end.

(** [BigInt(hex)]: the empty string ["0x"] is a [SyntaxError]. *)
Definition BigInt_of_hex (h : Hex) : outcome Z :=
  match h with [] => Exn (JsError "Cannot convert 0x to a BigInt") | _ => Val (readBE h) end.
(** The low-s rule, then recovery from the signature. *)
Definition recoverSender (s : Hex) (raw : bytes) : outcome (option Address) :=
  sv ← BigInt_of_hex s;
  if HALF_N <? sv then Val None
  else match recoverTransactionAddress raw with
       | Val a => Val (Some a) | Exn _ => Val None | Diverge => Diverge
       end.
End Codecs.

(** * Addresses *)

Lemma address_of_spec v : 0 <= v -> zlen (address_of v) = 20 /\ Forall is_byte (address_of v)
  /\ readBE (address_of v) = v mod 2 ^ 160.
Proof.
  intros Hv. unfold address_of. destruct (putBE_loop_spec 20 v []) as [Hb Hr]; [done|constructor|].
  split_and!; [unfold zlen; by rewrite length_putBE_loop|done|].
  rewrite Hr. unfold zlen. simpl length. change (readBE []) with 0. change (256 ^ Z.of_nat 20) with (2 ^ 160).
  change (256 ^ Z.of_nat 0) with 1. lia.
Qed.
Lemma address_of_ok v : 0 <= v -> is_address (address_of v).
Proof. intros Hv. destruct (address_of_spec v Hv) as (? & ? & _). by split. Qed.

(** A 20-byte address is its value. *)
Lemma readBE_inj a b : Forall is_byte a -> Forall is_byte b -> length a = length b ->
  readBE a = readBE b -> a = b.
Proof.
  intros Ha. revert b. induction Ha as [|x a Hx Ha IH]; intros [|y b] Hb Hl; [done..|].
  apply Forall_cons in Hb as [Hy Hb]. rewrite !readBE_cons by done. intros Heq.
  injection Hl as Hl. pose proof (readBE_bound a Ha). pose proof (readBE_bound b Hb).
  unfold zlen, is_byte in *. rewrite Hl in Heq, H. assert (x = y) as -> by nia.
  f_equal. apply IH; [done..|]. lia.
Qed.

Lemma applyL1ToL2Alias_value a : Forall is_byte a -> zlen a = 20 ->
  readBE (applyL1ToL2Alias a) = (readBE a + ALIAS_OFFSET) mod 2 ^ 160
  /\ zlen (applyL1ToL2Alias a) = 20 /\ Forall is_byte (applyL1ToL2Alias a).
Proof.
  intros Hb Hz. unfold applyL1ToL2Alias. pose proof (readBE_bound a Hb) as Hr.
  assert (Hpos : 0 <= readBE a + ALIAS_OFFSET) by (unfold ALIAS_OFFSET; lia).
  change TWO_160 with (2 ^ 160). rewrite Z.rem_mod_nonneg by lia.
  destruct (address_of_spec ((readBE a + ALIAS_OFFSET) mod 2 ^ 160)) as (H1 & H2 & H3).
  { apply Z.mod_pos_bound. lia. }
  rewrite H3, Z.mod_mod by lia. done.
Qed.

Lemma applyL1ToL2Alias_inj a b : Forall is_byte a -> Forall is_byte b -> zlen a = 20 -> zlen b = 20 ->
  applyL1ToL2Alias a = applyL1ToL2Alias b -> a = b.
Proof.
  intros Ha Hb Hza Hzb Heq. apply readBE_inj; [done..|unfold zlen in *; lia|].
  pose proof (proj1 (applyL1ToL2Alias_value a Ha Hza)) as Hva.
  pose proof (proj1 (applyL1ToL2Alias_value b Hb Hzb)) as Hvb. rewrite Heq, Hvb in Hva.
  pose proof (readBE_bound a Ha) as Hra. pose proof (readBE_bound b Hb) as Hrb.
  rewrite Hza in Hra. rewrite Hzb in Hrb. change (256 ^ 20) with (2 ^ 160) in *.
  set (x := readBE a) in *. set (y := readBE b) in *.
  assert (Hm : (x - y) mod 2 ^ 160 = 0).
  { replace (x - y) with ((x + ALIAS_OFFSET) - (y + ALIAS_OFFSET)) by lia.
    by rewrite Zminus_mod, Hva, Z.sub_diag. }
  apply Z.mod_divide in Hm as [k Hk]; [|lia]. nia.
Qed.

(** ** Case never matters *)
Lemma hexval_lower c : hexval (lower c) = hexval c.
Proof. destruct c as [[] [] [] [] [] [] [] []]; done. Qed.

Lemma hexval_inj c d v : hexval c = Some v -> hexval d = Some v -> lower c = lower d.
Proof.
  intros Hc Hd. assert (Hl : forall x, hexval x = Some v -> lower x = hexdigit v).
  { intros x. destruct x as [[] [] [] [] [] [] [] []]; intros [= <-]; done. }
  by rewrite (Hl c Hc), (Hl d Hd).
Qed.

Lemma hexpairs_lower l : hexpairs (map lower l) = hexpairs l.
Proof.
  remember (length l) as n eqn:Hn. assert (Hle : (length l <= n)%nat) by lia. clear Hn. revert l Hle.
  induction n as [|n IH]; intros [|a [|b l]] Hle; simpl in *; try done; try lia.
  rewrite !hexval_lower, IH by lia. done.
Qed.

Lemma hexval_bound c v : hexval c = Some v -> 0 <= v < 16.
Proof. destruct c as [[] [] [] [] [] [] [] []]; intros [= <-]; lia. Qed.

Lemma hexpairs_cons l x b : hexpairs l = Some (x :: b) ->
  exists c d r u v, l = c :: d :: r /\ hexval c = Some u /\ hexval d = Some v /\ x = 16 * u + v
    /\ hexpairs r = Some b.
Proof.
  destruct l as [|c [|d r]]; simpl; try done.
  destruct (hexval c) as [u|] eqn:Hu; [|done]. destruct (hexval d) as [v|] eqn:Hv; [|done]. simpl.
  destruct (hexpairs r) as [b'|] eqn:Hr; [|done]. simpl. intros [= <- <-]. by exists c, d, r, u, v.
Qed.

Lemma hexpairs_same b : forall l l', hexpairs l = Some b -> hexpairs l' = Some b -> map lower l = map lower l'.
Proof.
  induction b as [|x b IH]; intros l l' Hl Hl'.
  - assert (Hnil : forall k, hexpairs k = Some [] -> k = []).
    { intros [|c [|d r]]; simpl; try done. destruct (hexval c), (hexval d), (hexpairs r); done. }
    by rewrite (Hnil _ Hl), (Hnil _ Hl').
  - apply hexpairs_cons in Hl as (c & d & r & u & v & -> & Hc & Hd & Hx & Hr).
    apply hexpairs_cons in Hl' as (c' & d' & r' & u' & v' & -> & Hc' & Hd' & Hx' & Hr').
    pose proof (hexval_bound _ _ Hd). pose proof (hexval_bound _ _ Hd').
    assert (u' = u) as -> by lia. assert (v' = v) as -> by lia. simpl.
    by rewrite (hexval_inj _ _ _ Hc Hc'), (hexval_inj _ _ _ Hd Hd'), (IH _ _ Hr Hr').
Qed.

(** A hexadecimal literal: [0x] and digits that spell [b]. *)
Definition spells (s : string) (b : bytes) : Prop :=
  exists digits, String.list_ascii_of_string s = "0"%char :: "x"%char :: digits /\ hexpairs digits = Some b.

Lemma toLowerCase_inj_list s t : toLowerCase s = toLowerCase t <->
  map lower (String.list_ascii_of_string s) = map lower (String.list_ascii_of_string t).
Proof.
  unfold toLowerCase. split; [|by intros ->]. intros H.
  rewrite <- (String.list_ascii_of_string_of_list_ascii (map lower (String.list_ascii_of_string s))).
  by rewrite H, String.list_ascii_of_string_of_list_ascii.
Qed.

(** Two literals are the same address exactly when they spell the same bytes:
    the checksum casing viem gives an address is never observable. *)
Lemma sameAddress_spells s t a b : spells s a -> spells t b -> sameAddress s t = bool_decide (a = b).
Proof.
  intros (l & Hs & Ha) (r & Ht & Hb). unfold sameAddress. apply eq_bool_prop_intro.
  rewrite Is_true_true, bool_decide_spec, String.eqb_eq, toLowerCase_inj_list, Hs, Ht. simpl. split.
  - intros [= Hlr]. rewrite <- hexpairs_lower in Ha, Hb. rewrite Hlr in Ha. congruence.
  - intros ->. by rewrite (hexpairs_same _ _ _ Ha Hb).
Qed.

Lemma addrKey_spells s t a b : spells s a -> spells t b -> addrKey s = addrKey t <-> a = b.
Proof.
  intros (l & Hs & Ha) (r & Ht & Hb). unfold addrKey. rewrite Hs, Ht. cbn [drop]. rewrite !drop_0. split.
  - intros [= H]. apply toLowerCase_inj_list in H. rewrite !String.list_ascii_of_string_of_list_ascii in H.
    rewrite <- hexpairs_lower in Ha, Hb. rewrite H in Ha. congruence.
  - intros ->. f_equal. apply toLowerCase_inj_list.
    rewrite !String.list_ascii_of_string_of_list_ascii. by apply (hexpairs_same b).
Qed.

(** * Nonces *)
Lemma versioned_roundtrip nonce version : 0 <= nonce < 2 ^ 240 -> 0 <= version ->
  decodeVersionedNonce (encodeVersionedNonce nonce version) = (nonce, version).
Proof.
  intros Hn Hv. unfold decodeVersionedNonce, encodeVersionedNonce.
  rewrite (lor_shift_add version nonce 240) by lia. f_equal.
  - change (Z.shiftl 1 240 - 1) with (Z.ones 240). rewrite Z.land_ones by lia.
    rewrite Z.add_comm, Z.mod_add by lia. apply Z.mod_small. lia.
  - rewrite Z.shiftr_div_pow2 by lia. rewrite Z.div_add_l by lia. rewrite Z.div_small by lia. lia.
Qed.

Lemma withdrawal_nonce_value i o : 0 <= i < 2 ^ 208 -> 0 <= o < 2 ^ 32 ->
  versionedWithdrawalNonce i o = Val (2 ^ 240 + i * 2 ^ 32 + o).
Proof.
  intros Hi Ho. unfold versionedWithdrawalNonce. rewrite (proj2 (Z.leb_gt _ _)) by (change (Z.shiftl 1 32) with (2 ^ 32); lia).
  f_equal. rewrite <- Z.lor_assoc. rewrite (lor_shift_add i o 32) by lia.
  rewrite (lor_shift_add 1) by lia. lia.
Qed.

(** No two withdrawals of a chain share a nonce. *)
Lemma withdrawal_nonce_inj i o i' o' n : 0 <= i < 2 ^ 208 -> 0 <= i' < 2 ^ 208 -> 0 <= o -> 0 <= o' ->
  versionedWithdrawalNonce i o = Val n -> versionedWithdrawalNonce i' o' = Val n -> i = i' /\ o = o'.
Proof.
  intros Hi Hi' Ho Ho' Hn Hn'.
  assert (Hlt : forall i o, 0 <= o -> versionedWithdrawalNonce i o = Val n -> o < 2 ^ 32).
  { intros j k Hk. unfold versionedWithdrawalNonce. change (Z.shiftl 1 32) with (2 ^ 32).
    destruct (Z.leb_spec (2 ^ 32) k); [done|lia]. }
  pose proof (Hlt _ _ Ho Hn). pose proof (Hlt _ _ Ho' Hn').
  rewrite withdrawal_nonce_value in Hn, Hn' by lia. injection Hn as <-. injection Hn' as Heq. lia.
Qed.

(** * Gas *)
Lemma baseGas_covers len g : 0 <= len -> 0 <= g ->
  g + 310160 <= baseGas len g /\ 16 * len <= baseGas len g.
Proof.
  intros Hl Hg. unfold baseGas. rewrite Z.quot_div_nonneg 
    by (unfold MIN_GAS_DYNAMIC_OVERHEAD_NUMERATOR, MIN_GAS_DYNAMIC_OVERHEAD_DENOMINATOR; lia).
  unfold RELAY_CONSTANT_OVERHEAD, RELAY_CALL_OVERHEAD, RELAY_RESERVED_GAS, RELAY_GAS_CHECK_BUFFER,
    MIN_GAS_DYNAMIC_OVERHEAD_NUMERATOR, MIN_GAS_DYNAMIC_OVERHEAD_DENOMINATOR, ENCODING_OVERHEAD,
    MIN_GAS_CALLDATA_OVERHEAD, FLOOR_CALLDATA_OVERHEAD, TX_BASE_GAS.
  pose proof (Z.div_mod (g * 64) 63 ltac:(lia)). pose proof (Z.mod_pos_bound (g * 64) 63 ltac:(lia)).
  destruct (Z.ltb_spec ((len + 260) * 40) (200000 + 40000 + 40000 + 5000 + g * 64 / 63 + (len + 260) * 16)); lia.
Qed.

(** * Codecs *)
Section CodecFacts.
Context {HV : Viem} {HK : Keccak} {HVL : ViemLaws}.

Lemma has_prefix_app p b : has_prefix p (p ++ b) = true.
Proof.
  unfold has_prefix. rewrite slice_app_l by (pose proof (zlen_nonneg p); lia).
  rewrite slice_full. apply bytesEqual_refl.
Qed.

Definition message_typed (n : Z) (s t : Address) (v g : Z) (d : Hex) : Prop :=
  0 <= n < 2 ^ 256 /\ (zlen s = 20 /\ Forall is_byte s) /\ (zlen t = 20 /\ Forall is_byte t)
  /\ 0 <= v < 2 ^ 256 /\ 0 <= g < 2 ^ 256 /\ Forall is_byte d.

Lemma message_has_type n s t v g d : message_typed n s t v g d ->
  Forall2 has_type [VUint n; VAddress s; VAddress t; VUint v; VUint g; VBytes d] MESSAGE_PARAMS.
Proof. intros (? & ? & ? & ? & ? & ?). repeat constructor; simpl; tauto. Qed.

Lemma decodeWithdrawal_encode w :
  message_typed (wd_nonce w) (wd_sender w) (wd_target w) (wd_value w) (wd_gasLimit w) (wd_data w) ->
  decodeWithdrawal (encodeWithdrawal w) = Some w.
Proof.
  intros Ht. unfold decodeWithdrawal, encodeWithdrawal. rewrite has_prefix_app, drop_app_length.
  rewrite abi_roundtrip by (by apply message_has_type). by destruct w.
Qed.

Lemma decodeRelayMessage_encode m :
  message_typed (m_nonce m) (m_sender m) (m_target m) (m_value m) (m_minGasLimit m) (m_message m) ->
  decodeRelayMessage (encodeRelayMessage m) = Some m.
Proof.
  intros Ht. unfold decodeRelayMessage, encodeRelayMessage. rewrite has_prefix_app, drop_app_length.
  rewrite abi_roundtrip by (by apply message_has_type). by destruct m.
Qed.

Lemma decodeEvmCall_encode c : EVM_CALL_SELECTOR <> EVM_SIMULATE_SELECTOR ->
  Forall2 has_type [VUint (dc_chainId c); VAddress (dc_from c); VAddress (dc_to c); VUint (dc_value c);
                    VBytes (dc_data c)] CALL_PARAMS ->
  decodeEvmCall (encodeEvmCall c) = Some c.
Proof.
  intros Hne Ht. unfold decodeEvmCall, encodeEvmCall.
  set (sel := if dc_simulate c then _ else _).
  assert (Hsel : zlen sel = 4) by (unfold sel; destruct (dc_simulate c); apply selector_length).
  rewrite zlen_app. rewrite (proj2 (Z.ltb_ge _ _)) by (rewrite Hsel; pose proof (zlen_nonneg (encodeAbiParameters CALL_PARAMS [VUint (dc_chainId c); VAddress (dc_from c); VAddress (dc_to c); VUint (dc_value c); VBytes (dc_data c)])); lia).
  rewrite slice_app_l by lia. rewrite <- Hsel, slice_full.
  replace 4%nat with (length sel) by (unfold zlen in Hsel; lia). rewrite drop_app_length.
  rewrite abi_roundtrip by done. unfold sel. destruct c as [[] cid f t v d]; simpl.
  - by rewrite bytesEqual_refl.
  - rewrite bytesEqual_ne by done. by rewrite bytesEqual_refl.
Qed.
End CodecFacts.
