(* ===== verification/Ledger.v ===== *)
(** * The journaled ledger

    app/src/ledger.ts: the accounts drive behind a store that records a
    before-image of every write, and the in-RAM state that rides with it. The
    journal is one object shared by the store and the ledger: here it lives in
    the store's state, as the list of its restore closures, newest first, each
    closure an [Entry] that [restore] runs. *)

From Stdlib Require Import ZArith Lia.
From S2P Require Import Prelude Bytes Text Store DriveConfig DriveTable Drive DriveFormat Evm.

Record CrossDomainConfig : Type := mkCrossDomain {
  l1Messenger : Address; l1MessengerAliased : Address; l1Bridge : Address
}.
Record TokenMetadata : Type := mkMetadata { md_name : string; md_symbol : string; md_decimals : Z }.
Record ResolvedFacade : Type := mkFacade { rf_id : Z; rf_l1Token : Address; rf_width : Z }.
Inductive MessageStatus : Type := successful | failed.
#[export] Instance MessageStatus_eq_dec : EqDecision MessageStatus.
Proof. solve_decision. Defined.

Definition DEVNET_DRIVE_CONFIG : Config := {|
  c_driveLength := Some 1048576; c_capacity := Some 4096; c_loadLimit := None; c_seed := None;
  c_profile := Some ProfileSparse; c_slotSize := None; c_tableOffset := None;
  c_registryOffset := Some 0x100; c_registryCapacity := Some 8;
  c_sparseOffset := Some 266240; c_sparseCapacity := Some 4096;
  c_sparseLoadLimit := None; c_sparseSlotSize := None |}.

(** ** State *)

(** The ledger's RAM state that no drive byte shadows. *)
Record Ram : Type := mkRam {
  totals : gmap Z Z;
  metadata : gmap Z TokenMetadata;
  portals : gmap Address Z;
  fee : Z;
  crossDomainConfig : option CrossDomainConfig;
  msgNonce : Z;
  messages : gmap Hex MessageStatus
}.
Definition empty_ram : Ram := mkRam ∅ ∅ ∅ 0 None 0 ∅.

(** Assignments to one field; [None] deletes the key. *)
Definition put_total (id v : Z) (r : Ram) : Ram :=
  mkRam (<[id := v]> (totals r)) (metadata r) (portals r) (fee r) (crossDomainConfig r) (msgNonce r) (messages r).
Definition put_metadata (id : Z) (v : option TokenMetadata) (r : Ram) : Ram :=
  mkRam (totals r) (partial_alter (fun _ => v) id (metadata r)) (portals r) (fee r) (crossDomainConfig r)
    (msgNonce r) (messages r).
Definition put_portal (key : Address) (v : option Z) (r : Ram) : Ram :=
  mkRam (totals r) (metadata r) (partial_alter (fun _ => v) key (portals r)) (fee r) (crossDomainConfig r)
    (msgNonce r) (messages r).
Definition put_fee (v : Z) (r : Ram) : Ram :=
  mkRam (totals r) (metadata r) (portals r) v (crossDomainConfig r) (msgNonce r) (messages r).
Definition put_crossDomain (v : option CrossDomainConfig) (r : Ram) : Ram :=
  mkRam (totals r) (metadata r) (portals r) (fee r) v (msgNonce r) (messages r).
Definition put_msgNonce (v : Z) (r : Ram) : Ram :=
  mkRam (totals r) (metadata r) (portals r) (fee r) (crossDomainConfig r) v (messages r).
Definition put_message (key : Hex) (v : option MessageStatus) (r : Ram) : Ram :=
  mkRam (totals r) (metadata r) (portals r) (fee r) (crossDomainConfig r) (msgNonce r)
    (partial_alter (fun _ => v) key (messages r)).

(** A restore closure, by what it captured. *)
Inductive Entry : Type :=
  | EStore (off : Z) (before : bytes)
  | EFacade (key : Address)
  | ETotal (id before : Z)
  | EMetadata (id : Z) (before : option TokenMetadata)
  | EPortal (key : Address) (before : option Z)
  | EFee (before : Z)
  | ECrossDomain (before : option CrossDomainConfig)
  | EMsgNonce (nonce : Z)
  | EMessage (key : Hex) (before : option MessageStatus).

(** [JournaledStore]: the inner store and the journal it notes into. *)
Record JStore (S : Type) : Type := mkJStore { inner : S; entries : list Entry }.
Arguments mkJStore {S} inner entries.
Arguments inner {S} _.
Arguments entries {S} _.

Record Ledger (S : Type) : Type := mkLedger {
  drive : Drive (JStore S);
  facades : gmap Address Z;
  ram : Ram
}.
Arguments mkLedger {S} drive facades ram.
Arguments drive {S} _.
Arguments facades {S} _.
Arguments ram {S} _.

Section Ledger.
Context {S : Type} {HS : Store S} {HK : Keccak}.

Definition set_inner (s : S) (js : JStore S) : JStore S := mkJStore s (entries js).
Definition on_inner {A} (m : M S A) : M (JStore S) A := zoom inner set_inner m.
(** [journal.note(r)]: [entries.push(r)] *)
Definition push (e : Entry) (js : JStore S) : JStore S := mkJStore (inner js) (e :: entries js).

Definition jreadAt (off len : Z) : M (JStore S) bytes := on_inner (readAt off len).
Definition jwriteAt (off : Z) (bs : bytes) : M (JStore S) unit :=
  before ← on_inner (readAt off (zlen bs));
  modify (push (EStore off before));;
  on_inner (writeAt off bs).
#[export] Instance JStore_Store : Store (JStore S) := {| readAt := jreadAt; writeAt := jwriteAt |}.

Definition set_drive (d : Drive (JStore S)) (l : Ledger S) : Ledger S := mkLedger d (facades l) (ram l).
Definition set_facades (f : gmap Address Z) (l : Ledger S) : Ledger S := mkLedger (drive l) f (ram l).
Definition set_ram (r : Ram) (l : Ledger S) : Ledger S := mkLedger (drive l) (facades l) r.
Definition with_drive {A} (m : M (Drive (JStore S)) A) : M (Ledger S) A := zoom drive set_drive m.
Definition journal (l : Ledger S) : list Entry := entries (store (drive l)).
Definition set_journal (es : list Entry) (l : Ledger S) : Ledger S :=
  set_drive (with_store (mkJStore (inner (store (drive l))) es) (drive l)) l.

(** ** Journal *)
Definition note (e : Entry) : M (Ledger S) unit := modify (fun l => set_journal (e :: journal l) l).
Definition mark : M (Ledger S) Z := gets (fun l => zlen (journal l)).

(** What each closure does to the RAM state. *)
Definition restore_ram (e : Entry) (r : Ram) : Ram :=
  match e with
  | EStore _ _ | EFacade _ => r
  | ETotal id before => put_total id before r
  | EMetadata id before => put_metadata id before r
  | EPortal key before => put_portal key before r
  | EFee before => put_fee before r
  | ECrossDomain before => put_crossDomain before r
  | EMsgNonce nonce => put_msgNonce nonce r
  | EMessage key before => put_message key before r
  end.
Definition restore (e : Entry) : M (Ledger S) unit :=
  match e with
  | EStore off before => with_drive (on_store (on_inner (writeAt off before)))
  | EFacade key => modify (fun l => set_facades (delete key (facades l)) l)
  | _ => modify (fun l => set_ram (restore_ram e (ram l)) l)
  end.

Fixpoint rollback_loop (n : nat) (mk : Z) : M (Ledger S) unit :=
  es ← gets journal;
  if mk <? zlen es then
    match n, es with
    | Datatypes.S n, e :: rest =>
        modify (set_journal rest);; restore e;; rollback_loop n mk
    | _, _ => diverge
    end
  else mret tt.
Definition rollbackTo (mk : Z) : M (Ledger S) unit :=
  es ← gets journal; rollback_loop (length es) mk.
Definition rollbackAll_journal : M (Ledger S) unit := rollbackTo 0.
Definition commit : M (Ledger S) unit := modify (set_journal []).

(** ** Caches *)
Fixpoint facades_from (ts : list Token) (id : Z) (m : gmap Address Z) : gmap Address Z :=
  match ts with
  | [] => m
  | t :: ts => facades_from ts (id + 1) (<[l2TokenAddress (tok_address t) := id]> m)
  end.
Definition rebuildFacades : M (Ledger S) unit :=
  modify (fun l => set_facades (facades_from (tokens_ (drive l)) 0 ∅) l).
Definition afterRollback : M (Ledger S) unit := with_drive reloadRegistry;; rebuildFacades.

(** ** Creation *)
Definition boot_drive (formatted : bool) : M (JStore S) (Drive (JStore S)) :=
  if formatted then open else format DEVNET_DRIVE_CONFIG.
(** The ledger over a booted drive: the format is committed, the façades are
    derived. *)
Definition boot_ledger (js : JStore S) (d : Drive (JStore S)) : Ledger S :=
  let l := set_journal [] (mkLedger (with_store js d) ∅ empty_ram) in
  set_facades (facades_from (tokens_ d) 0 ∅) l.
Definition create_with (formatted : bool) : M S (Ledger S) := fun s =>
  match boot_drive formatted (mkJStore s []) with
  | (Val d, js) => (Val (boot_ledger js d), inner js)
  | (Exn e, js) => (Exn e, inner js)
  | (Diverge, js) => (Diverge, inner js)
  end.
Definition create : M S (Ledger S) :=
  magic ← readAt 0 8;
  create_with (bool_decide (TextDecoder_decode magic = ascii_text "ctsiacct")).

(** ** Accounts *)
Definition account (addr : Address) : M (Ledger S) (Z * Z) :=
  a ← with_drive (getAccount (AddrBytes addr));
  mret (match a with Some a => (acc_nonce a, acc_balance a) | None => (0, 0) end).
Definition creditEther (addr : Address) (amount : Z) : M (Ledger S) unit :=
  if amount =? 0 then mret tt else
  a ← account addr;
  with_drive (setAccount (AddrBytes addr) a.1 (a.2 + amount)).
Definition debitEther (addr : Address) (amount : Z) : M (Ledger S) unit :=
  if amount =? 0 then mret tt else
  a ← account addr;
  if a.2 <? amount then throw (InsufficientFunds "insufficient ether balance") else
  with_drive (setAccount (AddrBytes addr) a.1 (a.2 - amount)).
Definition bumpNonceAndCharge (addr : Address) (f : Z) : M (Ledger S) unit :=
  a ← account addr;
  if a.2 <? f then throw (InsufficientFunds "insufficient fee") else
  with_drive (setAccount (AddrBytes addr) (a.1 + 1) (a.2 - f)).

(** ** Tokens *)
Definition setMetadata (id : Z) (m : TokenMetadata) : M (Ledger S) unit :=
  before ← gets (fun l => metadata (ram l) !! id);
  note (EMetadata id before);;
  modify (fun l => set_ram (put_metadata id (Some m) (ram l)) l).
Definition ledger_registerToken (l1Token : Address) (md : option TokenMetadata) : M (Ledger S) (Z * Address) :=
  id ← with_drive (registerToken (AddrBytes l1Token) 32);
  let l2Token := l2TokenAddress l1Token in
  modify (fun l => set_facades (<[l2Token := id]> (facades l)) l);;
  note (EFacade l2Token);;
  match md with Some m => setMetadata id m | None => mret tt end;;
  mret (id, l2Token).
Definition tokenByL2Address (addr : Address) (l : Ledger S) : option ResolvedFacade :=
  id ← facades l !! addr;
  t ← (if id <? 0 then None else tokens_ (drive l) !! Z.to_nat id);
  Some (mkFacade id (tok_address t) (tok_width t)).
Definition tokenByL1Address (l1Token : Address) : M (Ledger S) (option ResolvedFacade) :=
  r ← with_drive (tokenByAddress (AddrBytes l1Token));
  mret ((fun r => mkFacade (res_id r) l1Token (res_width r)) <$> r).
Definition tokenBalance (addr : Address) (id : Z) : M (Ledger S) Z :=
  with_drive (getTokenBalance (AddrBytes addr) id).
Definition addTotal (id delta : Z) : M (Ledger S) unit :=
  before ← gets (fun l => default 0 (totals (ram l) !! id));
  note (ETotal id before);;
  modify (fun l => set_ram (put_total id (before + delta) (ram l)) l).
Definition creditToken (addr : Address) (id amount : Z) : M (Ledger S) unit :=
  if amount =? 0 then mret tt else
  b ← tokenBalance addr id;
  with_drive (setTokenBalance (AddrBytes addr) id (b + amount));;
  addTotal id amount.
Definition debitToken (addr : Address) (id amount : Z) : M (Ledger S) unit :=
  if amount =? 0 then mret tt else
  b ← tokenBalance addr id;
  if b <? amount then throw (InsufficientFunds "insufficient token balance") else
  with_drive (setTokenBalance (AddrBytes addr) id (b - amount));;
  addTotal id (- amount).
Definition totalSupply (id : Z) (l : Ledger S) : Z := default 0 (totals (ram l) !! id).
Definition metadataOf (id : Z) (l : Ledger S) : TokenMetadata :=
  default (mkMetadata ("UNREGISTERED-" +:+ pretty id) ("UNREG-" +:+ pretty id) 0) (metadata (ram l) !! id).

(** ** Configuration *)
Definition registerPortal (aliasedPortal : Address) (kind : Z) : M (Ledger S) unit :=
  before ← gets (fun l => portals (ram l) !! aliasedPortal);
  note (EPortal aliasedPortal before);;
  modify (fun l => set_ram (put_portal aliasedPortal (Some kind) (ram l)) l).
Definition portalKind (aliasedSender : Address) (l : Ledger S) : option Z :=
  portals (ram l) !! aliasedSender.
Definition setFee (f : Z) : M (Ledger S) unit :=
  before ← gets (fun l => fee (ram l));
  note (EFee before);;
  modify (fun l => set_ram (put_fee f (ram l)) l).
Definition crossDomain (l : Ledger S) : option CrossDomainConfig := crossDomainConfig (ram l).
Definition registerCrossDomain (c : CrossDomainConfig) : M (Ledger S) unit :=
  before ← gets crossDomain;
  note (ECrossDomain before);;
  modify (fun l => set_ram (put_crossDomain (Some c) (ram l)) l).
Definition hasErc20Portal (l : Ledger S) : bool :=
  existsb (fun p => p.2 =? PORTAL_ERC20) (map_to_list (portals (ram l))).

(** ** Messages *)
Definition nextMessageNonce : M (Ledger S) Z :=
  nonce ← gets (fun l => msgNonce (ram l));
  note (EMsgNonce nonce);;
  modify (fun l => set_ram (put_msgNonce (nonce + 1) (ram l)) l);;
  mret nonce.
Definition peekMessageNonce (l : Ledger S) : Z := msgNonce (ram l).
Definition messageStatus (hash : Hex) (l : Ledger S) : option MessageStatus := messages (ram l) !! hash.
Definition setMessageStatus (hash : Hex) (status : MessageStatus) : M (Ledger S) unit :=
  before ← gets (messageStatus hash);
  note (EMessage hash before);;
  modify (fun l => set_ram (put_message hash (Some status) (ram l)) l).
End Ledger.
