(* ===== verification/Journal.v ===== *)
(** * Undoing through the journal

    The journal's contract (app/src/ledger.ts): a computation only changes the
    drive's bytes and the ledger's RAM state through writes whose
    before-images it notes. [tracks] states it for one computation, whatever
    its outcome; it is closed under the monad's operations, so it holds of
    every drive and ledger operation without knowing what they compute. The
    rollback theorems follow from it alone. *)

From Stdlib Require Import ZArith Lia.
From S2P Require Import Prelude Bytes Store DriveConfig DriveHeader RobinHood DriveTable Drive DriveTokens.
From S2P Require Import DriveFormat Evm Ledger.

(** ** RAM states that no reader can tell apart

    A rolled-back total is written back as zero where there was no entry:
    [totalSupply] reads both as zero. *)
Record ram_equiv (r r' : Ram) : Prop := mkRamEquiv {
  re_totals : forall id, default 0 (totals r !! id) = default 0 (totals r' !! id);
  re_metadata : metadata r = metadata r';
  re_portals : portals r = portals r';
  re_fee : fee r = fee r';
  re_crossDomain : crossDomainConfig r = crossDomainConfig r';
  re_msgNonce : msgNonce r = msgNonce r';
  re_messages : messages r = messages r'
}.
#[export] Instance Ram_equiv : Equiv Ram := ram_equiv.
#[export] Instance Ram_equivalence : Equivalence (≡@{Ram}).
Proof.
  split.
  - intros r. by constructor.
  - intros r r' []. constructor; done || (intros; symmetry; done).
  - intros r1 r2 r3 [] []. constructor; congruence.
Qed.

#[export] Instance restore_ram_proper e : Proper ((≡) ==> (≡@{Ram})) (restore_ram e).
Proof.
  intros r r' [Ht Hm Hp Hf Hc Hn Hs]. destruct e as [| |id b| | | | | |]; simpl; constructor; simpl;
    try done; try (by f_equal).
  intros id'. destruct (decide (id' = id)) as [->|]; [by rewrite !lookup_insert_eq|].
  by rewrite !lookup_insert_ne.
Qed.

(** ** Undo, on bytes and RAM *)
Definition undo1 (e : Entry) (st : bytes * Ram) : bytes * Ram :=
  (match e with EStore off before => patch off before st.1 | _ => st.1 end, restore_ram e st.2).
(** Newest first. *)
Definition undo (es : list Entry) (st : bytes * Ram) : bytes * Ram := foldl (fun st e => undo1 e st) st es.

Definition same_state (st st' : bytes * Ram) : Prop := st.1 = st'.1 /\ st.2 ≡ st'.2.
#[export] Instance same_state_equivalence : Equivalence same_state.
Proof.
  split.
  - intros st. by split.
  - intros st st' [??]. split; by symmetry.
  - intros a b c [??] [??]. split; etrans; done.
Qed.

#[export] Instance undo_proper es : Proper (same_state ==> same_state) (undo es).
Proof.
  induction es as [|e es IH]; intros st st' Hst; [done|]. simpl. apply IH.
  destruct Hst as [H1 H2]. split; simpl; [by rewrite H1|by rewrite H2].
Qed.

Lemma undo_app es1 es2 st : undo (es1 ++ es2) st = undo es2 (undo es1 st).
Proof. apply foldl_app. Qed.

Definition entry_fits (len : Z) (e : Entry) : Prop :=
  match e with EStore off before => fits off (zlen before) len | _ => True end.
Definition is_store (e : Entry) : Prop := match e with EStore _ _ => True | _ => False end.

Lemma undo_stores es st : Forall is_store es -> (undo es st).2 = st.2.
Proof.
  intros H. revert st. induction H as [|e es He _ IH]; intros st; [done|]. simpl.
  rewrite IH. by destruct e.
Qed.

Lemma undo_stores_img es img r r' : (undo es (img, r)).1 = (undo es (img, r')).1.
Proof.
  revert img r r'. induction es as [|e es IH]; intros img r r'; [done|]. simpl. apply IH.
Qed.

(** ** States with a journal inside *)
Class Journaled (S X : Type) : Type := {
  j_cfg : X -> NormalizedConfig;
  j_store : X -> JStore S;
  j_ram : X -> Ram
}.

#[export] Instance Drive_journaled S : Journaled S (Drive (JStore S)) :=
  {| j_cfg := cfg; j_store := store; j_ram := fun _ => empty_ram |}.
#[export] Instance Ledger_journaled S : Journaled S (Ledger S) :=
  {| j_cfg := fun l => cfg (drive l); j_store := fun l => store (drive l); j_ram := ram |}.

Section Tracks.
Context {S : Type} {HS : Store S} {HR : StoreReads S}.

(** [x'] came from [x] by journaled writes: its new entries lead back. *)
Definition extends {X} `{Journaled S X} (P : Entry -> Prop) (x : X) img (x' : X) img' : Prop :=
  exists es, entries (j_store x') = es ++ entries (j_store x) /\ Forall P es
    /\ Forall (entry_fits (zlen img)) es /\ same_state (undo es (img', j_ram x')) (img, j_ram x).

Definition tracks {X A} `{Journaled S X} (P : Entry -> Prop) (c : NormalizedConfig) (len : Z)
    (m : M X A) (Q : A -> Prop) : Prop :=
  forall x img, j_cfg x = c -> holds (inner (j_store x)) img -> zlen img = len ->
  exists img', j_cfg (m x).2 = c /\ holds (inner (j_store (m x).2)) img' /\ zlen img' = len
    /\ extends P x img (m x).2 img' /\ forall a, (m x).1 = Val a -> Q a.

Section Rules.
Context {X : Type} `{HJ : Journaled S X} (P : Entry -> Prop) (c : NormalizedConfig) (len : Z).

Lemma extends_refl (x x' : X) img : j_store x' = j_store x -> j_ram x' = j_ram x -> extends P x img x' img.
Proof. intros Hs Hr. exists []. rewrite Hs, Hr. split_and!; constructor; done. Qed.

Lemma extends_trans (x1 x2 x3 : X) i1 i2 i3 : zlen i2 = zlen i1 ->
  extends P x1 i1 x2 i2 -> extends P x2 i2 x3 i3 -> extends P x1 i1 x3 i3.
Proof.
  intros Hz (es1 & He1 & Hp1 & Hf1 & Hu1) (es2 & He2 & Hp2 & Hf2 & Hu2). exists (es2 ++ es1).
  rewrite Hz in Hf2. split_and!.
  - by rewrite He2, He1, app_assoc.
  - by apply Forall_app.
  - by apply Forall_app.
  - rewrite undo_app. etrans; [|exact Hu1]. by apply undo_proper.
Qed.

Lemma tracks_mono {A} (m : M X A) (Q Q' : A -> Prop) : (forall a, Q a -> Q' a) ->
  tracks P c len m Q -> tracks P c len m Q'.
Proof.
  intros HQ Hm x img Hc Hh Hl. destruct (Hm x img Hc Hh Hl) as (img' & ? & ? & ? & ? & ?).
  exists img'. split_and!; auto.
Qed.

(** A computation that leaves the journaled state alone. *)
Lemma tracks_pure {A} (m : M X A) (Q : A -> Prop) :
  (forall x, j_cfg x = c -> j_cfg (m x).2 = c /\ j_store (m x).2 = j_store x /\ j_ram (m x).2 = j_ram x
    /\ forall a, (m x).1 = Val a -> Q a) -> tracks P c len m Q.
Proof.
  intros Hm x img Hc Hh Hl. destruct (Hm x Hc) as (Hc' & Hs & Hr & HQ). exists img.
  split_and!; try done; [by rewrite Hs|by apply extends_refl].
Qed.

Lemma tracks_ret {A} (a : A) (Q : A -> Prop) : Q a -> tracks P c len (mret a) Q.
Proof. intros HQ. apply tracks_pure. intros x Hx. split_and!; try done. by intros ? [= <-]. Qed.

Lemma tracks_throw {A} e (Q : A -> Prop) : tracks P c len (throw e) Q.
Proof. apply tracks_pure. done. Qed.

Lemma tracks_diverge {A} (Q : A -> Prop) : tracks P c len diverge Q.
Proof. apply tracks_pure. done. Qed.

Lemma tracks_lift {A} (o : outcome A) (Q : A -> Prop) :
  (forall a, o = Val a -> Q a) -> tracks P c len (liftO o) Q.
Proof. intros HQ. apply tracks_pure. intros x Hx. split_and!; done. Qed.

Lemma tracks_gets {A} (f : X -> A) (Q : A -> Prop) :
  (forall x, j_cfg x = c -> Q (f x)) -> tracks P c len (gets f) Q.
Proof. intros HQ. apply tracks_pure. intros x Hx. split_and!; try done. intros a [= <-]. auto. Qed.

Lemma tracks_modify (f : X -> X) (Q : unit -> Prop) : Q tt ->
  (forall x, j_cfg (f x) = j_cfg x /\ j_store (f x) = j_store x /\ j_ram (f x) = j_ram x) ->
  tracks P c len (modify f) Q.
Proof.
  intros HQ Hf. apply tracks_pure. intros x Hx. destruct (Hf x) as (? & ? & ?).
  split_and!; simpl; congruence.
Qed.

Lemma tracks_bind {A B} (m : M X A) (f : A -> M X B) (Q : A -> Prop) (R : B -> Prop) :
  tracks P c len m Q -> (forall a, Q a -> tracks P c len (f a) R) -> tracks P c len (m ≫= f) R.
Proof.
  intros Hm Hf x img Hc Hh Hl. destruct (Hm x img Hc Hh Hl) as (img1 & Hc1 & Hh1 & Hl1 & He1 & HQ).
  unfold mbind, M_bind. destruct (m x) as [[a|e|] x1]; simpl in *.
  - destruct (Hf a (HQ a eq_refl) x1 img1 Hc1 Hh1 Hl1) as (img2 & ? & ? & ? & He2 & ?).
    exists img2. split_and!; try done. eapply extends_trans; [|exact He1|exact He2]. congruence.
  - by exists img1.
  - by exists img1.
Qed.

Lemma tracks_try {A} (m : M X A) (h : exn -> M X A) (Q : A -> Prop) :
  tracks P c len m Q -> (forall e, tracks P c len (h e) Q) -> tracks P c len (try_catch m h) Q.
Proof.
  intros Hm Hf x img Hc Hh Hl. destruct (Hm x img Hc Hh Hl) as (img1 & Hc1 & Hh1 & Hl1 & He1 & HQ).
  unfold try_catch. destruct (m x) as [[a|e|] x1]; simpl in *.
  - by exists img1.
  - destruct (Hf e x1 img1 Hc1 Hh1 Hl1) as (img2 & ? & ? & ? & He2 & ?).
    exists img2. split_and!; try done. eapply extends_trans; [|exact He1|exact He2]. congruence.
  - by exists img1.
Qed.
End Rules.

(** A drive's operations, run by the ledger. *)
Lemma tracks_drive {A} P c len (m : M (Drive (JStore S)) A) (Q : A -> Prop) :
  (forall e, is_store e -> P e) ->
  tracks is_store c len m Q -> tracks P c len (with_drive m) Q.
Proof.
  intros HP Hm l img Hc Hh Hl.
  destruct (Hm (drive l) img Hc Hh Hl) as (img' & Hc' & Hh' & Hl' & (es & He & Hs & Hf & Hu) & HQ).
  exists img'. unfold with_drive, zoom. destruct (m (drive l)) as [o d]. simpl in *.
  split_and!; try done. exists es. split_and!; try done.
  - eapply Forall_impl; [exact Hs|done].
  - destruct Hu as [Hu1 _]. split; simpl.
    + by rewrite (undo_stores_img _ _ _ empty_ram).
    + by rewrite undo_stores.
Qed.
End Tracks.
