(* ===== verification/DriveJournal.v ===== *)
(** * Every drive operation is undoable

    Over a journaled store, each operation of the accounts drive
    (accounts-drive/js/src/drive.ts) [tracks]: whatever it computes and
    however it ends, the journal entries it adds restore every byte it wrote.
    Only the geometry is used, none of the table invariants. *)

From Stdlib Require Import ZArith Lia.
From S2P Require Import Prelude Bytes Store DriveConfig DriveHeader RobinHood DriveTable Drive DriveTokens.
From S2P Require Import DriveFormat Evm Ledger Journal.

Section DriveJournal.
Context {S : Type} {HS : Store S} {HR : StoreReads S} {HW : StoreWrites S} {HG : StoreGuards S} {HK : Keccak}.
Context (c : NormalizedConfig) (len : Z) (Hgeo : geometry len c).
Abbreviation T m Q := (tracks is_store c len m Q).

(** ** The store *)
Lemma read_tracks off n : 0 <= off -> 0 < n ->
  T (on_store (readAt off n) : M (Drive (JStore S)) bytes) (fun b => zlen b = n).
Proof.
  intros Ho Hn d img Hc Hh Hl. exists img.
  unfold on_store, zoom. simpl. unfold jreadAt, on_inner, zoom.
  destruct (decide (fits off n (zlen img))) as [Hf|Hf].
  - pose proof (readAt_spec _ _ _ _ Hh Hf) as Hr. unfold returns, wp in Hr. simpl in Hr.
    destruct (readAt off n (inner (store d))) as [[b|?|] s']; [|done..]. simpl in *.
    destruct Hr as [-> Hs']. split_and!; try done; [by exists []|].
    intros a [= <-]. by apply zlen_slice.
  - destruct (readAt_guard _ _ _ _ Hh Ho Hn Hf) as [e Hr]. unfold raises, wp in Hr. simpl in Hr.
    destruct (readAt off n (inner (store d))) as [[b|e'|] s']; simpl in *; [naive_solver| |naive_solver].
    destruct Hr as [? Hs']. split_and!; try done. by exists [].
Qed.

Lemma write_tracks off bs : 0 <= off -> 0 < zlen bs ->
  T (on_store (writeAt off bs) : M (Drive (JStore S)) unit) (fun _ => True).
Proof.
  intros Ho Hn d img Hc Hh Hl.
  unfold on_store, zoom. simpl. unfold jwriteAt, on_inner, zoom, mbind, M_bind, modify.
  destruct (decide (fits off (zlen bs) (zlen img))) as [Hf|Hf].
  - pose proof (readAt_spec _ _ _ _ Hh Hf) as Hr. unfold returns, wp in Hr. simpl in Hr.
    destruct (readAt off (zlen bs) (inner (store d))) as [[b|?|] s']; [|done..]. simpl in *.
    destruct Hr as [-> Hs'].
    pose proof (writeAt_spec _ _ _ _ Hs' Hf) as Hw. unfold returns, wp in Hw. simpl in Hw.
    destruct (writeAt off bs s') as [[[]|?|] s'']; [|done..]. simpl in *.
    assert (Hz : zlen (slice off (zlen bs) img) = zlen bs) by (by apply zlen_slice).
    exists (patch off bs img). split_and!; try done; [by rewrite zlen_patch|].
    exists [EStore off (slice off (zlen bs) img)].
    split_and!; [done|by repeat constructor| |].
    + apply Forall_singleton. simpl. by rewrite Hz.
    + split; [|done]. simpl. by apply patch_undo.
  - exists img. destruct (readAt_guard _ _ _ _ Hh Ho Hn Hf) as [e Hr]. unfold raises, wp in Hr. simpl in Hr.
    destruct (readAt off (zlen bs) (inner (store d))) as [[b|e'|] s']; simpl in *; [naive_solver| |naive_solver].
    destruct Hr as [? Hs']. split_and!; try done. by exists [].
Qed.

Lemma cfg_tracks : T (get_cfg : M (Drive (JStore S)) _) (fun c' => c' = c).
Proof. by apply tracks_gets. Qed.

Lemma gets_tracks {A} (f : Drive (JStore S) -> A) : T (gets f) (fun _ => True).
Proof. by apply tracks_gets. Qed.

Lemma lift_tracks {A} (o : outcome A) : T (liftO o : M (Drive (JStore S)) A) (fun _ => True).
Proof. by apply tracks_lift. Qed.

Lemma home_tracks key cap : T (drive_home key cap : M (Drive (JStore S)) Z) (fun _ => True).
Proof. by apply tracks_pure. Qed.

(** One step: a bind, a branch or an end. *)
Ltac track1 :=
  match goal with
  | |- tracks _ _ _ (mret _) _ => apply tracks_ret
  | |- tracks _ _ _ (throw _) _ => apply tracks_throw
  | |- tracks _ _ _ diverge _ => apply tracks_diverge
  | |- tracks _ _ _ (if ?b then _ else _) _ => destruct b eqn:?
  | |- tracks _ _ _ (match ?x with _ => _ end) _ => destruct x eqn:?
  | |- tracks _ _ _ (let '(_, _) := ?x in _) _ => destruct x eqn:?
  end.
Ltac tbind lem := eapply tracks_bind; [eapply lem; eauto; try lia|cbv beta].

Lemma counter_tracks off : 0 <= off -> T (counter off : M (Drive (JStore S)) Z) (fun _ => True).
Proof. intros. unfold counter. tbind read_tracks. intros. apply lift_tracks. Qed.

Lemma setBytes_zlen buf src off b : setBytes buf src off = Val b -> zlen b = zlen buf.
Proof.
  unfold setBytes. destruct (Z.leb_spec 0 off); [|done].
  destruct (Z.leb_spec (off + zlen src) (zlen buf)); [|done]. simpl. intros [= <-].
  apply zlen_patch. pose proof (zlen_nonneg src). unfold fits. lia.
Qed.

Lemma setCounter_tracks off v : 0 <= off -> T (setCounter off v : M (Drive (JStore S)) unit) (fun _ => True).
Proof.
  intros. unfold setCounter. eapply tracks_bind; [apply (tracks_lift _ _ _ _ (fun b => zlen b = 8))|].
  - intros b Hb. by apply setBytes_zlen in Hb.
  - cbv beta. intros b Hb. apply write_tracks; lia.
Qed.

(** ** Tables *)
Record table_at (t : Table) : Prop := mkTableAt {
  ta_base : 0 <= t_base t; ta_slot : 0 < t_slotSize t; ta_cap : 0 < t_capacity t; ta_count : 0 <= t_countOff t
}.

Section Tables.
Context (t : Table) (Ht : table_at t).

Lemma readSlot_tracks i : 0 <= i -> T (readSlot t i : M (Drive (JStore S)) _) (fun b => zlen b = t_slotSize t).
Proof. intros. destruct Ht. apply read_tracks; nia. Qed.

Lemma writeSlot_tracks i s : 0 <= i -> 0 < zlen s -> T (writeSlot t i s : M (Drive (JStore S)) _) (fun _ => True).
Proof. intros. destruct Ht. apply write_tracks; nia. Qed.

Lemma displacement_tracks s i : T (displacement t s i : M (Drive (JStore S)) _) (fun _ => True).
Proof. unfold displacement. tbind home_tracks. intros. by apply tracks_ret. Qed.

Lemma bump_tracks k : T (c ← counter (t_countOff t); setCounter (t_countOff t) (c + k) : M (Drive (JStore S)) _) (fun _ => True).
Proof. destruct Ht. tbind counter_tracks. intros. by apply setCounter_tracks. Qed.

Lemma slot_index_nonneg h : 0 <= h mod t_capacity t.
Proof. destruct Ht. by apply Z.mod_pos_bound. Qed.

Definition found_at (r : option (Z * bytes)) : Prop :=
  match r with Some (i, s) => 0 <= i /\ 0 < zlen s | None => True end.

Lemma lookup_loop_tracks n key h dist : T (lookup_loop n t key h dist : M (Drive (JStore S)) _) found_at.
Proof.
  revert dist. induction n as [|n IH]; intros dist; cbn [lookup_loop]; [by apply tracks_ret|].
  pose proof (slot_index_nonneg (h + dist)) as Hi. destruct Ht.
  tbind readSlot_tracks. intros s Hs. track1; [by apply tracks_ret|].
  track1; [apply tracks_ret; simpl; lia|]. tbind displacement_tracks. intros.
  track1; [by apply tracks_ret|]. apply IH.
Qed.

Lemma lookup_tracks key : T (lookup t key : M (Drive (JStore S)) _) found_at.
Proof. unfold lookup. tbind home_tracks. intros. apply lookup_loop_tracks. Qed.

Lemma insert_loop_tracks n s h dist : 0 < zlen s -> T (insert_loop n t s h dist : M (Drive (JStore S)) _) (fun _ => True).
Proof.
  revert s h dist. induction n as [|n IH]; intros s h dist Hs; cbn [insert_loop]; [apply tracks_diverge|].
  pose proof (slot_index_nonneg (h + dist)) as Hi. pose proof (ta_slot _ Ht).
  tbind readSlot_tracks. intros s' Hs'. track1.
  { tbind writeSlot_tracks. intros. apply bump_tracks. }
  tbind displacement_tracks. intros disp _. track1; [|by apply IH].
  tbind writeSlot_tracks. intros. tbind home_tracks. intros. apply IH. lia.
Qed.

Lemma insert_tracks s : 0 < zlen s -> T (insert t s : M (Drive (JStore S)) _) (fun _ => True).
Proof. intros. unfold insert. tbind home_tracks. intros. by apply insert_loop_tracks. Qed.

Lemma remove_loop_tracks n i : 0 <= i -> T (remove_loop n t i : M (Drive (JStore S)) _) (fun _ => True).
Proof.
  revert i. induction n as [|n IH]; intros i Hi; cbn [remove_loop]; [apply tracks_diverge|].
  pose proof (slot_index_nonneg (i + 1)) as Hj. pose proof (ta_slot _ Ht).
  tbind readSlot_tracks. intros s' Hs'.
  eapply (tracks_bind _ _ _ _ _ (fun _ => True)).
  { track1; [by apply tracks_ret|]. tbind displacement_tracks. intros. by apply tracks_ret. }
  intros stop _. track1.
  - tbind writeSlot_tracks; [rewrite zlen_zeros; lia|]. intros. apply (bump_tracks (-1)).
  - tbind writeSlot_tracks. intros. by apply IH.
Qed.

Lemma remove_tracks i : 0 <= i -> T (remove t i : M (Drive (JStore S)) _) (fun _ => True).
Proof. intros. by apply remove_loop_tracks. Qed.
End Tables.

Lemma accounts_at : table_at (accountsTable c).
Proof.
  destruct Hgeo as [Hss ? ? ? ? _ _ _]. unfold slot_size_ok, HEADER_SIZE, OFF_LIVE_COUNT in *.
  constructor; simpl; unfold OFF_LIVE_COUNT; lia.
Qed.

Lemma sparse_at : profile c = ProfileSparse -> table_at (sparseTable c).
Proof.
  intros Hp. destruct (geo_sparse _ _ Hgeo Hp) as (? & ? & ? & ? & _). unfold HEADER_SIZE in *.
  constructor; simpl; unfold OFF_SPARSE_LIVE_COUNT; lia.
Qed.

Lemma registry_at : 0 <= registryOffset c.
Proof. by eapply registryOffset_nonneg. Qed.

(** ** Operations *)
Lemma address_tracks addr : T (nonzero_address addr : M (Drive (JStore S)) _) (fun a => zlen a = 20).
Proof.
  unfold nonzero_address. eapply tracks_bind; [apply (tracks_lift _ _ _ _ (fun a => zlen a = 20))|].
  - intros a Ha. by eapply toAddress_length.
  - intros a Ha. track1; [apply tracks_throw|by apply tracks_ret].
Qed.

Lemma getAccount_tracks addr : T (getAccount addr : M (Drive (JStore S)) _) (fun _ => True).
Proof.
  unfold getAccount. tbind address_tracks. intros a Ha. tbind cfg_tracks. intros ? ->.
  tbind (lookup_tracks _ accounts_at). intros r Hr. track1; [|by apply tracks_ret]. track1.
  tbind @lift_tracks. intros. by apply tracks_ret.
Qed.

Lemma encodeAccount_zlen addr n b rec : encodeAccount c addr n b = Val rec -> 0 < zlen rec.
Proof.
  assert (Hput : forall buf lo hi v r, putBE_at buf lo hi v = Val r -> zlen buf <= zlen r).
  { intros buf lo hi v r. unfold putBE_at. destruct (putBE _ _); simpl; intros [= <-]. apply zlen_patch_ge. }
  unfold encodeAccount, setLE32, setLE64. intros H. destruct (compact c).
  - destruct (_ <? _); [done|]. apply outcome_bind_val in H as (r1 & H1%setBytes_zlen & H).
    apply outcome_bind_val in H as (r2 & H2%setBytes_zlen & H). apply Hput in H.
    change (zlen (zeros 32)) with 32 in H1. lia.
  - apply outcome_bind_val in H as (r1 & H1%setBytes_zlen & H).
    apply outcome_bind_val in H as (r2 & H2%setBytes_zlen & H). apply Hput in H.
    change (zlen (zeros 64)) with 64 in H1. lia.
Qed.

Lemma setBytes_tracks buf src off : 0 < zlen buf ->
  T (liftO (setBytes buf src off) : M (Drive (JStore S)) _) (fun b => 0 < zlen b).
Proof. intros Hb. apply tracks_lift. intros b ->%setBytes_zlen. done. Qed.

Lemma putBE_tracks buf lo hi v : 0 < zlen buf ->
  T (liftO (putBE_at buf lo hi v) : M (Drive (JStore S)) _) (fun b => 0 < zlen b).
Proof.
  intros Hb. apply tracks_lift. intros b. unfold putBE_at. destruct (putBE _ _); simpl; intros [= <-].
  pose proof (zlen_patch_ge lo a buf). lia.
Qed.

Lemma setAccount_tracks addr n b : T (setAccount addr n b : M (Drive (JStore S)) _) (fun _ => True).
Proof.
  pose proof accounts_at as Hat. pose proof (ta_slot _ Hat) as Hsl. pose proof (ta_count _ Hat).
  unfold setAccount. tbind address_tracks. intros a Ha. tbind cfg_tracks. intros ? ->.
  tbind @lift_tracks. intros rec _. tbind (lookup_tracks _ Hat). intros [[i s]|] Hr.
  - destruct Hr. tbind setBytes_tracks. intros s' Hs'. by apply writeSlot_tracks.
  - tbind counter_tracks. intros k _. track1; [apply tracks_throw|].
    tbind setBytes_tracks. { rewrite zlen_zeros; lia. } intros full Hfull. by apply insert_tracks.
Qed.

Lemma deleteAccount_tracks addr force : T (deleteAccount addr force : M (Drive (JStore S)) _) (fun _ => True).
Proof.
  unfold deleteAccount. tbind address_tracks. intros a Ha. tbind cfg_tracks. intros ? ->.
  tbind (lookup_tracks _ accounts_at). intros [[i s]|] Hr; [|by apply tracks_ret]. destruct Hr.
  tbind @lift_tracks. intros nb _. track1; [apply tracks_throw|].
  tbind (remove_tracks _ accounts_at). intros. by apply tracks_ret.
Qed.

Lemma tokenByAddress_tracks addr : T (tokenByAddress addr : M (Drive (JStore S)) _) (fun _ => True).
Proof. unfold tokenByAddress. tbind @lift_tracks. intros. apply gets_tracks. Qed.

Lemma registry_entry_zlen a w e : registry_entry a w = Val e -> zlen e = 32.
Proof.
  unfold registry_entry. intros H. apply outcome_bind_val in H as (r1 & H1%setBytes_zlen & H2%setBytes_zlen).
  by rewrite H2, H1.
Qed.

Lemma registerToken_tracks addr w : T (registerToken addr w : M (Drive (JStore S)) _) (fun _ => True).
Proof.
  pose proof registry_at. unfold registerToken. tbind @lift_tracks. intros a _. tbind cfg_tracks. intros ? ->.
  track1; [apply tracks_throw|]. track1; [apply tracks_throw|].
  tbind tokenByAddress_tracks. intros dup _. track1; [apply tracks_throw|].
  tbind @gets_tracks. intros ts _. track1; [apply tracks_throw|]. pose proof (zlen_nonneg ts).
  tbind @lift_tracks. intros _ _.
  eapply tracks_bind; [apply (tracks_lift _ _ _ _ (fun e => zlen e = 32)); apply registry_entry_zlen|].
  cbv beta. intros e He. tbind write_tracks. intros _ _. tbind setCounter_tracks; [unfold OFF_TOKEN_COUNT; lia|].
  intros _ _. eapply (tracks_bind _ _ _ _ _ (fun _ => True)); [by apply tracks_modify|].
  intros _ _. by apply tracks_ret.
Qed.

Lemma known_token_tracks id : T (known_token id : M (Drive (JStore S)) _) (fun _ => True).
Proof.
  unfold known_token. tbind @gets_tracks. intros ts _. tbind @gets_tracks. intros cols _.
  track1; [by apply tracks_ret|apply tracks_throw].
Qed.

Lemma getTokenBalance_tracks addr id : T (getTokenBalance addr id : M (Drive (JStore S)) _) (fun _ => True).
Proof.
  unfold getTokenBalance. tbind address_tracks. intros a Ha. tbind known_token_tracks. intros [w off] _.
  tbind cfg_tracks. intros ? ->. track1.
  - tbind (lookup_tracks _ accounts_at). intros [[i s]|] _; by apply tracks_ret.
  - track1; [|apply tracks_throw]. tbind @lift_tracks. intros key _.
    tbind (lookup_tracks _ (sparse_at ltac:(lia))). intros [[i s]|] _; by apply tracks_ret.
Qed.

Lemma putSparse_tracks slot v : 0 < zlen slot ->
  T (liftO (putSparseBalance c slot v) : M (Drive (JStore S)) _) (fun b => 0 < zlen b).
Proof. intros. unfold putSparseBalance. destruct (_ =? _); by apply putBE_tracks. Qed.

Lemma setTokenBalance_tracks addr id v : T (setTokenBalance addr id v : M (Drive (JStore S)) _) (fun _ => True).
Proof.
  pose proof accounts_at as Hat. pose proof (ta_slot _ Hat). pose proof (ta_count _ Hat).
  unfold setTokenBalance. tbind address_tracks. intros a Ha. tbind known_token_tracks. intros [w off] _.
  track1; [apply tracks_throw|]. tbind cfg_tracks. intros ? ->. track1.
  - tbind (lookup_tracks _ Hat). intros [[i s]|] Hr.
    + destruct Hr. tbind putBE_tracks. intros s' Hs'. by apply writeSlot_tracks.
    + track1; [by apply tracks_ret|]. tbind counter_tracks. intros k _. track1; [apply tracks_throw|].
      tbind setBytes_tracks; [rewrite zlen_zeros; lia|]. intros f Hf. tbind putBE_tracks.
      intros f' Hf'. by apply insert_tracks.
  - track1; [|apply tracks_throw]. pose proof (sparse_at ltac:(lia)) as Hst.
    pose proof (ta_slot _ Hst). pose proof (ta_count _ Hst).
    tbind @lift_tracks. intros key _. tbind (lookup_tracks _ Hst). intros r Hr. track1.
    + destruct r as [[i s]|]; [destruct Hr; by apply remove_tracks|by apply tracks_ret].
    + destruct r as [[i s]|].
      * destruct Hr. tbind putSparse_tracks. intros s' Hs'. by apply writeSlot_tracks.
      * tbind counter_tracks. intros k _. track1; [apply tracks_throw|].
        tbind setBytes_tracks; [rewrite zlen_zeros; lia|]. intros f Hf. tbind setBytes_tracks.
        intros f' Hf'. tbind putSparse_tracks. intros f'' Hf''. by apply insert_tracks.
Qed.

Lemma reload_loop_tracks n i col : 0 <= i -> T (reload_loop n i col : M (Drive (JStore S)) _) (fun _ => True).
Proof.
  pose proof registry_at. revert i col. induction n as [|n IH]; intros i col Hi; cbn [reload_loop]; [by apply tracks_ret|].
  tbind cfg_tracks. intros ? ->. tbind read_tracks. intros e He. track1; [apply tracks_throw|].
  eapply (tracks_bind _ _ _ _ _ (fun _ => True)); [by apply tracks_modify|]. intros _ _. apply IH. lia.
Qed.

Lemma reloadRegistry_tracks : T (reloadRegistry : M (Drive (JStore S)) _) (fun _ => True).
Proof.
  unfold reloadRegistry. eapply (tracks_bind _ _ _ _ _ (fun _ => True)); [by apply tracks_modify|]. intros _ _.
  tbind cfg_tracks. intros ? ->. track1; [by apply tracks_ret|].
  tbind counter_tracks; [unfold OFF_TOKEN_COUNT; lia|]. intros n _.
  track1; [apply tracks_throw|]. by apply reload_loop_tracks.
Qed.
End DriveJournal.
