(* ===== verification/LedgerJournal.v ===== *)
(** * Rolling a ledger back

    Every ledger operation of app/src/ledger.ts [tracks], so a rollback to a
    mark taken before any sequence of them, followed by [afterRollback],
    restores the drive bit-exactly, the caches that shadow it, and the RAM
    state. *)

From Stdlib Require Import ZArith Lia.
From S2P Require Import Prelude Bytes Store DriveConfig DriveHeader RobinHood DriveTable Drive DriveTokens.
From S2P Require Import DriveFormat Evm Ledger Journal DriveJournal.

(** ** The journaled store satisfies the store's interface *)
Section JStoreLaws.
Context {S : Type} {HS : Store S} {HR : StoreReads S}.

#[export] Instance JStore_reads : StoreReads (JStore S).
Proof.
  refine {| holds js img := holds (inner js) img |}.
  intros js img off len Hh Hf. simpl. unfold jreadAt, on_inner. apply returns_zoom. simpl.
  by apply readAt_spec.
Defined.

(** The same reads, seen to leave the journal alone. *)
Definition JStore_quiet (J : list Entry) : StoreReads (JStore S).
Proof.
  refine {| holds js img := holds (inner js) img /\ entries js = J |}.
  intros js img off len [Hh Hj] Hf. simpl. unfold jreadAt, on_inner. apply returns_zoom. simpl.
  eapply returns_mono; [by apply readAt_spec|]. intros b s' [-> Hs']. done.
Defined.

#[export] Instance JStore_writes {HW : StoreWrites S} : StoreWrites (JStore S).
Proof.
  constructor. intros js img off bs Hh Hf. simpl in *. unfold jwriteAt.
  apply returns_bind, returns_zoom. simpl. eapply returns_mono; [by apply readAt_spec|].
  intros b s' [-> Hs']. apply returns_bind, returns_modify, returns_zoom. simpl.
  by apply writeAt_spec.
Qed.
End JStoreLaws.

Section Rollback.
Context {S : Type} {HS : Store S} {HR : StoreReads S} {HW : StoreWrites S} {HK : Keccak} {HKL : KeccakLaws}.
Implicit Types l : Ledger S.
Implicit Types img : bytes.

(** A ledger at rest: its drive is, and its façades are the registry's. *)
Definition ledger_wf l img : Prop :=
  drive_wf (drive l) img /\ facades l = facades_from (tokens_ (drive l)) 0 ∅.

(** The drive's RAM side is as in [l]. *)
Definition same_cache l l' : Prop :=
  cfg (drive l') = cfg (drive l) /\ tokens_ (drive l') = tokens_ (drive l)
  /\ colOff (drive l') = colOff (drive l).

(** [l'] is [l] again: same bytes, same caches, same journal, and RAM state no
    reader can tell apart. *)
Definition restored l img l' : Prop :=
  ledger_wf l' img /\ same_cache l l' /\ facades l' = facades l /\ ram l' ≡ ram l /\ journal l' = journal l.

Lemma restore_spec e l img : holds (inner (store (drive l))) img -> entry_fits (zlen img) e ->
  returns (restore e) l (fun _ l' =>
    holds (inner (store (drive l'))) (undo1 e (img, ram l)).1 /\ ram l' = restore_ram e (ram l)
    /\ journal l' = journal l /\ same_cache l l').
Proof.
  intros Hh Hf. destruct e as [off b|k|id b|id b|k b|b|b|n|k b];
    try (unfold restore; apply returns_modify; done).
  simpl in Hf. unfold restore, with_drive, on_store, on_inner. apply returns_zoom, returns_zoom, returns_zoom.
  eapply returns_mono; [by apply writeAt_spec|]. simpl. intros [] s' Hs'. done.
Qed.

Lemma rollback_loop_spec es J : forall n l img, (length es <= n)%nat -> journal l = es ++ J ->
  Forall (entry_fits (zlen img)) es -> holds (inner (store (drive l))) img ->
  returns (rollback_loop n (zlen J)) l (fun _ l' =>
    holds (inner (store (drive l'))) (undo es (img, ram l)).1 /\ ram l' = (undo es (img, ram l)).2
    /\ journal l' = J /\ same_cache l l').
Proof.
  induction es as [|e es IH]; intros n l img Hn Hj Hf Hh.
  - destruct n; cbn [rollback_loop]; apply returns_bind, returns_gets; rewrite Hj; simpl;
      rewrite (proj2 (Z.ltb_ge _ _)) by lia; by apply returns_ret.
  - destruct n as [|n]; [simpl in Hn; lia|]. cbn [rollback_loop]. apply returns_bind, returns_gets.
    rewrite Hj. cbn [app]. rewrite (proj2 (Z.ltb_lt _ _)) by (unfold zlen; simpl; rewrite length_app; lia).
    apply returns_bind, returns_modify. apply Forall_cons in Hf as [He Hf].
    apply returns_bind. eapply returns_mono; [apply (restore_spec e (set_journal (es ++ J) l) img); done|].
    intros [] l1 (Hh1 & Hr1 & Hj1 & Hc1 & Ht1 & Ho1).
    assert (Hz : zlen (undo1 e (img, ram l)).1 = zlen img)
      by (destruct e; simpl in *; try done; by apply zlen_patch).
    eapply returns_mono; [apply (IH n l1 (undo1 e (img, ram l)).1)|].
    + simpl in Hn. lia.
    + done.
    + by rewrite Hz.
    + exact Hh1.
    + intros [] l' (Hh' & Hr' & Hj' & Hc' & Ht' & Ho').
      rewrite Hr1 in Hh', Hr'. simpl in Hc1, Ht1, Ho1. simpl. unfold undo1 in *. simpl in *.
      split_and!; [exact Hh'|exact Hr'|done|congruence..|]. split_and!; congruence.
Qed.

Lemma rollbackTo_spec es J l img : journal l = es ++ J -> Forall (entry_fits (zlen img)) es ->
  holds (inner (store (drive l))) img ->
  returns (rollbackTo (zlen J)) l (fun _ l' =>
    holds (inner (store (drive l'))) (undo es (img, ram l)).1 /\ ram l' = (undo es (img, ram l)).2
    /\ journal l' = J /\ same_cache l l').
Proof.
  intros Hj Hf Hh. unfold rollbackTo. apply returns_bind, returns_gets.
  apply (rollback_loop_spec es J); [|done..]. rewrite Hj, length_app. lia.
Qed.

(** The caches are re-derived from the bytes. *)
Lemma afterRollback_spec l0 img l : ledger_wf l0 img -> holds (inner (store (drive l))) img ->
  cfg (drive l) = cfg (drive l0) ->
  returns afterRollback l (fun _ l' => ledger_wf l' img /\ same_cache l0 l' /\ facades l' = facades l0
    /\ ram l' = ram l /\ journal l' = journal l).
Proof.
  intros [Hwf Hfac] Hh Hc. pose proof Hwf as [_ Hlen Hgeo Hacc Hab Hsp Hsb Hreg Hcol Hhd].
  unfold afterRollback. apply returns_bind. unfold with_drive. apply returns_zoom.
  pose proof (@reloadRegistry_spec (JStore S) _ (JStore_quiet (journal l)) (drive l) img
    (tokens_ (drive l0))) as Hr. rewrite Hc in Hr.
  eapply returns_mono; [apply Hr; done|].
  intros [] d ([Hh' Hj'] & Hc' & Ht' & Ho'). rewrite <- Hcol in Ho'.
  apply returns_modify. simpl. split_and!; [|done..|by rewrite Ht', Hfac|done|done].
  split; simpl; [|by rewrite Ht']. destruct d as [sd cd td od]. simpl in *. subst cd td od. by constructor.
Qed.

(** What [extends] promises, delivered. *)
Lemma rollback_extends P l0 img l img' : ledger_wf l0 img -> cfg (drive l) = cfg (drive l0) ->
  holds (inner (store (drive l))) img' -> zlen img' = zlen img -> extends P l0 img l img' ->
  returns (rollbackTo (zlen (journal l0));; afterRollback) l (fun _ l' => restored l0 img l').
Proof.
  intros Hwf Hc Hh Hz (es & Hj & _ & Hf & Hu). simpl in Hj, Hu. rewrite <- Hz in Hf.
  apply returns_bind. eapply returns_mono; [by apply (rollbackTo_spec es (journal l0) l img')|].
  intros [] l1 (Hh1 & Hr1 & Hj1 & Hc1 & _). destruct Hu as [Hu1 Hu2]. simpl in Hu1, Hu2. rewrite Hu1 in Hh1.
  eapply returns_mono; [apply (afterRollback_spec l0 img l1); [done|done|congruence]|].
  intros [] l' (Hwf' & Hsc & Hfac & Hram & Hj'). split_and!; try done; [|congruence].
  rewrite Hram, Hr1. exact Hu2.
Qed.

(** Any tracked computation, whatever its outcome, is undone by a rollback to
    a mark taken before it. *)
Lemma undone {A} (m : M (Ledger S) A) P Q l img : ledger_wf l img ->
  tracks P (cfg (drive l)) (zlen img) m Q ->
  returns (rollbackTo (zlen (journal l));; afterRollback) (m l).2 (fun _ l' => restored l img l').
Proof.
  intros Hwf Hm. destruct (Hm l img) as (img' & Hc & Hh & Hz & He & _); [done|apply Hwf|done|].
  by eapply rollback_extends.
Qed.
End Rollback.

(** ** Every ledger operation tracks *)
Create HintDb track.

Section LedgerTracks.
Context {S : Type} {HS : Store S} {HR : StoreReads S} {HW : StoreWrites S} {HG : StoreGuards S} {HK : Keccak}.
Context (c : NormalizedConfig) (len : Z) (Hgeo : geometry len c).
Definition any_entry (e : Entry) : Prop := True.
Abbreviation TL m Q := (tracks any_entry c len m Q).

Lemma drive_tracks {A} (m : M (Drive (JStore S)) A) Q : tracks is_store c len m Q -> TL (with_drive m) Q.
Proof. by apply tracks_drive. Qed.

Lemma partial_alter_undo `{Countable K} {V} (m : gmap K V) k v :
  partial_alter (fun _ => m !! k) k (partial_alter (fun _ => v) k m) = m.
Proof.
  apply map_eq. intros j. destruct (decide (k = j)) as [->|].
  - by rewrite lookup_partial_alter_eq.
  - by rewrite !lookup_partial_alter_ne.
Qed.

(** An assignment to the RAM state, noted first. *)
Lemma noted_tracks {A} (m : M (Ledger S) A) (Q : A -> Prop) :
  (forall l, exists e r a, m l = (Val a, set_ram r (set_journal (e :: journal l) l))
    /\ ~ is_store e /\ restore_ram e r ≡ ram l /\ Q a) -> TL m Q.
Proof.
  intros Hm l img Hc Hh Hz. destruct (Hm l) as (e & r & a & Heq & Hs & Hr & HQ). exists img. rewrite Heq. simpl.
  split_and!; try done; [|by intros ? [= <-]]. exists [e]. simpl. split_and!; [done|by repeat constructor| |].
  - apply Forall_singleton. by destruct e.
  - split; simpl; [by destruct e|exact Hr].
Qed.

(** Solves the undo equation of one assignment. *)
Ltac noted := intros; apply noted_tracks; intros l; do 3 eexists; split_and!; [reflexivity|by intros []| |done];
  constructor; simpl; try done;
  try apply partial_alter_undo.

Lemma setMetadata_tracks id m : TL (setMetadata id m : M (Ledger S) unit) (fun _ => True).
Proof. noted. Qed.
Lemma registerPortal_tracks a k : TL (registerPortal a k : M (Ledger S) unit) (fun _ => True).
Proof. noted. Qed.
Lemma setFee_tracks f : TL (setFee f : M (Ledger S) unit) (fun _ => True).
Proof. noted. Qed.
Lemma registerCrossDomain_tracks cd : TL (registerCrossDomain cd : M (Ledger S) unit) (fun _ => True).
Proof. noted. Qed.
Lemma nextMessageNonce_tracks : TL (nextMessageNonce : M (Ledger S) Z) (fun _ => True).
Proof. noted. Qed.
Lemma setMessageStatus_tracks h s : TL (setMessageStatus h s : M (Ledger S) unit) (fun _ => True).
Proof. noted. Qed.
Lemma addTotal_tracks id d : TL (addTotal id d : M (Ledger S) unit) (fun _ => True).
Proof.
  noted. intros id'. destruct (decide (id' = id)) as [->|].
  - by rewrite !lookup_insert_eq.
  - by rewrite !lookup_insert_ne.
Qed.

Ltac lbind lem := eapply tracks_bind; [eapply lem; eauto; try lia|cbv beta].
Ltac ldone := first [apply tracks_throw | by apply tracks_ret].

Lemma lgets_tracks {A} (f : Ledger S -> A) : TL (gets f) (fun _ => True).
Proof. by apply tracks_gets. Qed.

Lemma account_tracks a : TL (account a : M (Ledger S) _) (fun _ => True).
Proof. unfold account. lbind @drive_tracks; [by apply getAccount_tracks|]. intros. ldone. Qed.

Lemma put_account_tracks a n b : TL (with_drive (setAccount a n b) : M (Ledger S) unit) (fun _ => True).
Proof. by apply drive_tracks, setAccount_tracks. Qed.

Lemma creditEther_tracks a v : TL (creditEther a v : M (Ledger S) unit) (fun _ => True).
Proof.
  unfold creditEther. destruct (_ =? _); [ldone|]. lbind account_tracks. intros. apply put_account_tracks.
Qed.

Lemma debitEther_tracks a v : TL (debitEther a v : M (Ledger S) unit) (fun _ => True).
Proof.
  unfold debitEther. destruct (_ =? _); [ldone|]. lbind account_tracks. intros.
  destruct (_ <? _); [ldone|]. apply put_account_tracks.
Qed.

Lemma bumpNonceAndCharge_tracks a f : TL (bumpNonceAndCharge a f : M (Ledger S) unit) (fun _ => True).
Proof.
  unfold bumpNonceAndCharge. lbind account_tracks. intros. destruct (_ <? _); [ldone|]. apply put_account_tracks.
Qed.

Lemma ledger_registerToken_tracks a md : TL (ledger_registerToken a md : M (Ledger S) _) (fun _ => True).
Proof.
  unfold ledger_registerToken. lbind @drive_tracks; [by apply registerToken_tracks|]. intros id _.
  eapply tracks_bind; [by apply (tracks_modify _ _ _ _ (fun _ => True))|]. intros _ _.
  eapply (tracks_bind _ _ _ _ _ (fun _ => True)).
  { apply noted_tracks. intros l. exists (EFacade (l2TokenAddress a)), (ram l), tt.
    split_and!; try done. by intros []. }
  intros _ _. eapply (tracks_bind _ _ _ _ _ (fun _ => True)); [|intros; ldone].
  destruct md; [apply setMetadata_tracks|ldone].
Qed.

Lemma tokenByL1Address_tracks a : TL (tokenByL1Address a : M (Ledger S) _) (fun _ => True).
Proof. unfold tokenByL1Address. lbind @drive_tracks; [apply tokenByAddress_tracks|]. intros. ldone. Qed.

Lemma tokenBalance_tracks a id : TL (tokenBalance a id : M (Ledger S) _) (fun _ => True).
Proof. by apply drive_tracks, getTokenBalance_tracks. Qed.

Lemma put_token_tracks a id v : TL (with_drive (setTokenBalance a id v) : M (Ledger S) unit) (fun _ => True).
Proof. by apply drive_tracks, setTokenBalance_tracks. Qed.

Lemma creditToken_tracks a id v : TL (creditToken a id v : M (Ledger S) unit) (fun _ => True).
Proof.
  unfold creditToken. destruct (_ =? _); [ldone|]. lbind tokenBalance_tracks. intros b _.
  lbind put_token_tracks. intros _ _. apply addTotal_tracks.
Qed.

Lemma debitToken_tracks a id v : TL (debitToken a id v : M (Ledger S) unit) (fun _ => True).
Proof.
  unfold debitToken. destruct (_ =? _); [ldone|]. lbind tokenBalance_tracks. intros b _.
  destruct (_ <? _); [ldone|]. lbind put_token_tracks. intros _ _. apply addTotal_tracks.
Qed.

Lemma afterRollback_tracks : TL (afterRollback : M (Ledger S) unit) (fun _ => True).
Proof.
  unfold afterRollback. lbind @drive_tracks; [by apply reloadRegistry_tracks|]. intros _ _.
  by apply tracks_modify.
Qed.
End LedgerTracks.

#[export] Hint Resolve creditEther_tracks debitEther_tracks bumpNonceAndCharge_tracks creditToken_tracks
  debitToken_tracks ledger_registerToken_tracks tokenByL1Address_tracks tokenBalance_tracks setMetadata_tracks
  registerPortal_tracks setFee_tracks registerCrossDomain_tracks nextMessageNonce_tracks
  setMessageStatus_tracks afterRollback_tracks account_tracks : track.
