(* ===== verification/LedgerOps.v ===== *)
(** * Sequences of ledger operations

    Any sequence of the operations of app/src/ledger.ts, in any order and on
    any arguments, each one returning or throwing, is undone by one rollback. *)

From Stdlib Require Import ZArith Lia.
From S2P Require Import Prelude Bytes Store DriveConfig DriveHeader RobinHood DriveTable Drive DriveTokens.
From S2P Require Import DriveFormat Evm Ledger Journal DriveJournal LedgerJournal.

(** Every operation that changes the ledger's state. *)
Inductive LedgerOp : Type :=
  | OpCreditEther (a : Address) (v : Z)
  | OpDebitEther (a : Address) (v : Z)
  | OpBumpNonceAndCharge (a : Address) (f : Z)
  | OpRegisterToken (a : Address) (md : option TokenMetadata)
  | OpCreditToken (a : Address) (id v : Z)
  | OpDebitToken (a : Address) (id v : Z)
  | OpSetMetadata (id : Z) (md : TokenMetadata)
  | OpRegisterPortal (a : Address) (kind : Z)
  | OpSetFee (f : Z)
  | OpRegisterCrossDomain (cd : CrossDomainConfig)
  | OpNextMessageNonce
  | OpSetMessageStatus (hash : Hex) (s : MessageStatus).

Section LedgerOps.
Context {S : Type} {HS : Store S} {HK : Keccak}.

Definition run_op (op : LedgerOp) : M (Ledger S) unit :=
  match op with
  | OpCreditEther a v => creditEther a v
  | OpDebitEther a v => debitEther a v
  | OpBumpNonceAndCharge a f => bumpNonceAndCharge a f
  | OpRegisterToken a md => ledger_registerToken a md;; mret tt
  | OpCreditToken a id v => creditToken a id v
  | OpDebitToken a id v => debitToken a id v
  | OpSetMetadata id md => setMetadata id md
  | OpRegisterPortal a k => registerPortal a k
  | OpSetFee f => setFee f
  | OpRegisterCrossDomain cd => registerCrossDomain cd
  | OpNextMessageNonce => nextMessageNonce;; mret tt
  | OpSetMessageStatus h s => setMessageStatus h s
  end.
(** One after the other, going on after a throw. *)
Fixpoint run_ops (ops : list LedgerOp) : M (Ledger S) unit :=
  match ops with
  | [] => mret tt
  | op :: ops => try_catch (run_op op) (fun _ => mret tt);; run_ops ops
  end.

Context {HR : StoreReads S} {HW : StoreWrites S} {HG : StoreGuards S} {HKL : KeccakLaws}.

Lemma run_op_tracks c len op : geometry len c -> tracks any_entry c len (run_op op) (fun _ => True).
Proof.
  intros Hg. destruct op; simpl; eauto with track.
  - eapply tracks_bind; [by apply ledger_registerToken_tracks|]. intros. by apply tracks_ret.
  - eapply tracks_bind; [by apply nextMessageNonce_tracks|]. intros. by apply tracks_ret.
Qed.

Lemma run_ops_tracks c len ops : geometry len c -> tracks any_entry c len (run_ops ops) (fun _ => True).
Proof.
  intros Hg. induction ops as [|op ops IH]; simpl; [by apply tracks_ret|].
  eapply (tracks_bind _ _ _ _ _ (fun _ => True)); [|done].
  apply tracks_try; [by apply run_op_tracks|]. intros _. by apply tracks_ret.
Qed.
End LedgerOps.
