(* ===== verification/LedgerSpec.v ===== *)
(** * What the ledger's operations do

    The functional behaviour of app/src/ledger.ts on the abstract state of its
    drive: accounts, token balances, circulating totals. [ether_total] and
    [token_supply] are the sums the operations conserve or move. *)

From Stdlib Require Import ZArith Lia.
From S2P Require Import Prelude Sums Bytes Store DriveConfig DriveHeader RobinHood DriveTable Drive DriveTokens.
From S2P Require Import DriveFormat Evm Ledger Journal DriveJournal LedgerJournal.

Section LedgerSpec.
Context {S : Type} {HS : Store S} {HR : StoreReads S} {HW : StoreWrites S} {HK : Keccak} {HKL : KeccakLaws}.
Implicit Types l : Ledger S.
Implicit Types img : bytes.

Definition valid_address (a : Address) : Prop := zlen a = 20 /\ Forall is_byte a /\ isZero a = false.
Abbreviation lcfg l := (cfg (drive l)).
Abbreviation ltokens l := (tokens_ (drive l)).

(** An account as the ledger sees it: absent is zero. *)
Definition account_view l img (a : Address) : Z * Z := default (0, 0) (account_of (lcfg l) img a).
Definition has_room l img (a : Address) : Prop :=
  is_Some (account_of (lcfg l) img a) \/ count_at OFF_LIVE_COUNT img < loadLimit (lcfg l).

(** [l'] differs from [l] by its drive's bytes only. *)
Definition only_drive l l' : Prop := same_cache l l' /\ facades l' = facades l /\ ram l' = ram l.

Lemma only_drive_refl l : only_drive l l.
Proof. done. Qed.

Lemma only_drive_trans l1 l2 l3 : only_drive l1 l2 -> only_drive l2 l3 -> only_drive l1 l3.
Proof.
  intros ((? & ? & ?) & ? & ?) ((? & ? & ?) & ? & ?). unfold only_drive, same_cache. split_and!; congruence.
Qed.

(** One account changed. *)
Definition account_set l img (a : Address) (data : Z * Z) l' img' : Prop :=
  ledger_wf l' img' /\ only_drive l l' /\ account_of (lcfg l) img' a = Some data
  /\ (forall a', a' <> a -> account_of (lcfg l) img' a' = account_of (lcfg l) img a')
  /\ (forall id a', token_balance (lcfg l) (ltokens l) img' id a' = token_balance (lcfg l) (ltokens l) img id a').

Lemma only_drive_leaves l img d' : leaves (drive l) img d' -> only_drive l (set_drive d' l).
Proof. by intros (s & -> & _). Qed.

Lemma wf_set_drive l img d' img' : ledger_wf l img -> rests (drive l) d' img' ->
  ledger_wf (set_drive d' l) img' /\ only_drive l (set_drive d' l).
Proof.
  intros [Hwf Hf] (Hwf' & Hc & Ht). split; [split; [done|]; simpl; by rewrite Ht|].
  split_and!; [split_and!; simpl; [done|done|]|done..].
  rewrite (dw_columns _ _ Hwf'), (dw_columns _ _ Hwf). by rewrite Ht.
Qed.

Lemma toAddress_valid a : valid_address a -> toAddress (AddrBytes a) = Val a.
Proof. intros (? & _). by apply toAddress_bytes. Qed.

Lemma account_spec l img a : ledger_wf l img -> valid_address a ->
  returns (account a) l (fun r l' => r = account_view l img a /\ ledger_wf l' img /\ only_drive l l').
Proof.
  intros Hwf Ha. pose proof Ha as (_ & _ & Hz). unfold account. apply returns_bind, returns_zoom.
  eapply returns_mono; [apply getAccount_spec; [apply Hwf|by apply toAddress_valid|done]|].
  intros r d' [-> Hd']. apply returns_ret.
  destruct (wf_set_drive l img d' img Hwf) as [? ?]; [by apply leaves_rests; [apply Hwf|]|].
  split_and!; [|done..]. unfold account_view. by destruct (account_of _ _ _) as [[]|].
Qed.

Lemma account_view_bounds l img a : ledger_wf l img ->
  0 <= (account_view l img a).1 < nonce_modulus (lcfg l)
  /\ fits_width (balance_width (lcfg l)) (account_view l img a).2.
Proof.
  intros [Hwf _]. unfold account_view. destruct (account_of _ _ _) as [[n b]|] eqn:Ha; simpl.
  - by eapply account_of_bounds.
  - unfold nonce_modulus, balance_width, fits_width. destruct (compact _); lia.
Qed.

Lemma only_drive_view l l' img a : only_drive l l' -> account_view l' img a = account_view l img a.
Proof. intros ((Hc & _) & _). unfold account_view. by rewrite Hc. Qed.

(** The write all account operations end with. *)
Lemma put_account_spec l img a n b : ledger_wf l img -> valid_address a ->
  fits_width (balance_width (lcfg l)) b -> 0 <= n < nonce_modulus (lcfg l) -> has_room l img a ->
  returns (with_drive (setAccount (AddrBytes a) n b)) l (fun _ l' =>
    exists img', account_set l img a (n, b) l' img').
Proof.
  intros Hwf Ha Hb Hn Hroom. pose proof Ha as (Hl & Hby & Hz). unfold with_drive. apply returns_zoom.
  eapply returns_mono.
  - apply (setAccount_spec (drive l) img _ a n b); try done; [apply Hwf|by apply toAddress_valid|].
    intros Hcomp. unfold nonce_modulus in Hn. rewrite Hcomp in Hn. lia.
  - intros [] d' (img' & Hr & Hacc & Hoth & Htok). exists img'.
    destruct (wf_set_drive l img d' img' Hwf Hr) as [? ?]. rewrite Z.mod_small in Hacc by done.
    by split_and!.
Qed.

(** ** Ether *)
Lemma credit_spec l img a v : ledger_wf l img -> valid_address a -> v <> 0 ->
  fits_width (balance_width (lcfg l)) ((account_view l img a).2 + v) -> has_room l img a ->
  returns (creditEther a v) l (fun _ l' => exists img',
    account_set l img a ((account_view l img a).1, (account_view l img a).2 + v) l' img').
Proof.
  intros Hwf Ha Hv Hfit Hroom. unfold creditEther. rewrite (proj2 (Z.eqb_neq _ _)) by done.
  apply returns_bind. eapply returns_mono; [by apply account_spec|]. intros r l1 (-> & Hwf1 & Hod).
  pose proof Hod as ((Hc & Ht & _) & _). destruct (account_view_bounds l img a Hwf) as [Hn _].
  eapply returns_mono; [apply put_account_spec; unfold has_room in *; rewrite ?Hc; done|].
  intros [] l' (img' & Hwf' & Hod' & Hset). rewrite Hc, Ht in Hset. exists img'.
  split_and!; try apply Hset; [done|by eapply only_drive_trans].
Qed.

Lemma debit_spec l img a v : ledger_wf l img -> valid_address a -> 0 < v <= (account_view l img a).2 ->
  returns (debitEther a v) l (fun _ l' => exists img',
    account_set l img a ((account_view l img a).1, (account_view l img a).2 - v) l' img').
Proof.
  intros Hwf Ha Hv. unfold debitEther. rewrite (proj2 (Z.eqb_neq _ _)) by lia.
  apply returns_bind. eapply returns_mono; [by apply account_spec|]. intros r l1 (-> & Hwf1 & Hod).
  pose proof Hod as ((Hc & Ht & _) & _). destruct (account_view_bounds l img a Hwf) as [Hn Hb].
  rewrite (proj2 (Z.ltb_ge _ _)) by lia.
  assert (Hsome : is_Some (account_of (lcfg l) img a)).
  { unfold account_view in Hv. destruct (account_of _ _ _); [done|simpl in Hv; lia]. }
  unfold fits_width in Hb.
  eapply returns_mono; [apply put_account_spec; unfold has_room, fits_width; rewrite ?Hc; first [done|by left|lia]|].
  intros [] l' (img' & Hwf' & Hod' & Hset). rewrite Hc, Ht in Hset. exists img'.
  split_and!; try apply Hset; [done|by eapply only_drive_trans].
Qed.

(** A debit past the balance is refused and the drive is as before. *)
Lemma debit_insufficient l img a v : ledger_wf l img -> valid_address a -> (account_view l img a).2 < v ->
  raises (debitEther a v) l (InsufficientFunds "insufficient ether balance")
    (fun l' => ledger_wf l' img /\ only_drive l l').
Proof.
  intros Hwf Ha Hv. destruct (account_view_bounds l img a Hwf) as [_ Hb]. unfold fits_width in Hb.
  unfold debitEther. rewrite (proj2 (Z.eqb_neq _ _)) by lia.
  apply raises_bind. eapply returns_mono; [by apply account_spec|]. intros r l1 (-> & Hwf1 & Hod).
  rewrite (proj2 (Z.ltb_lt _ _)) by lia. by apply raises_throw.
Qed.

(** The charge: one nonce step and the fee. *)
Lemma charge_spec l img a f : ledger_wf l img -> valid_address a -> 0 <= f <= (account_view l img a).2 ->
  (account_view l img a).1 + 1 < nonce_modulus (lcfg l) -> has_room l img a ->
  returns (bumpNonceAndCharge a f) l (fun _ l' => exists img',
    account_set l img a ((account_view l img a).1 + 1, (account_view l img a).2 - f) l' img').
Proof.
  intros Hwf Ha Hf Hnonce Hroom. unfold bumpNonceAndCharge.
  apply returns_bind. eapply returns_mono; [by apply account_spec|]. intros r l1 (-> & Hwf1 & Hod).
  pose proof Hod as ((Hc & Ht & _) & _). destruct (account_view_bounds l img a Hwf) as [Hn Hb].
  rewrite (proj2 (Z.ltb_ge _ _)) by lia. unfold fits_width in *.
  unfold fits_width in Hb.
  eapply returns_mono; [apply put_account_spec; unfold has_room, fits_width; rewrite ?Hc; first [done|by left|lia]|].
  intros [] l' (img' & Hwf' & Hod' & Hset). rewrite Hc, Ht in Hset. exists img'.
  split_and!; try apply Hset; [done|by eapply only_drive_trans].
Qed.

(** ** Ether totals *)
Definition holders (c : NormalizedConfig) img : gset Address :=
  dom (table_map (accountsTable c) img).
Definition ether_of (c : NormalizedConfig) img (a : Address) : Z := (default (0, 0) (account_of c img a)).2.
Definition ether_total (c : NormalizedConfig) img : Z := sum_over (ether_of c img) (holders c img).

Lemma ether_supported c img : supported (ether_of c img) (holders c img).
Proof.
  intros a Ha. unfold ether_of, account_of in Ha. apply elem_of_dom.
  destruct (table_map _ img !! a) as [s|]; [by exists s|done].
Qed.

Lemma ether_total_set l img a data l' img' : account_set l img a data l' img' ->
  ether_total (lcfg l) img' = ether_total (lcfg l) img - (account_view l img a).2 + data.2.
Proof.
  intros (_ & _ & Hacc & Hoth & _). unfold ether_total.
  rewrite (sum_over_update (ether_of (lcfg l) img) (ether_of (lcfg l) img') _ _ a
             (ether_supported _ _) (ether_supported _ _)).
  - unfold ether_of at 3. rewrite Hacc. done.
  - intros b Hb. unfold ether_of. by rewrite Hoth.
Qed.

(** ** Tokens *)
Abbreviation lbalance l img id a := (token_balance (lcfg l) (ltokens l) img id a).

(** One holding and one total changed. *)
Definition token_set l img (id : Z) (a : Address) (v : Z) (r : Ram) l' img' : Prop :=
  ledger_wf l' img' /\ same_cache l l' /\ facades l' = facades l /\ ram l' = r
  /\ lbalance l img' id a = v
  /\ (forall id' a', 0 <= id' < zlen (ltokens l) -> (id', a') <> (id, a) ->
        lbalance l img' id' a' = lbalance l img id' a')
  /\ (forall a', account_view l img' a' = account_view l img a').

Lemma tokenBalance_spec l img a id : ledger_wf l img -> valid_address a ->
  0 <= id < zlen (ltokens l) -> profile (lcfg l) <> ProfileSingleAsset ->
  returns (tokenBalance a id) l (fun v l' => v = lbalance l img id a /\ ledger_wf l' img /\ only_drive l l').
Proof.
  intros Hwf Ha Hid Hp. pose proof Ha as (_ & _ & Hz). unfold tokenBalance, with_drive. apply returns_zoom.
  eapply returns_mono; [apply getTokenBalance_spec; [apply Hwf|by apply toAddress_valid|done..]|].
  intros v d' [-> Hd'].
  destruct (wf_set_drive l img d' img Hwf) as [? ?]; [by apply leaves_rests; [apply Hwf|]|]. done.
Qed.

(** A balance write followed by its total. *)
Lemma put_token_spec l img a id t v delta : ledger_wf l img -> valid_address a ->
  profile (lcfg l) <> ProfileSingleAsset -> 0 <= id -> ltokens l !! Z.to_nat id = Some t ->
  fits_width (tok_width t) v -> token_room (drive l) img id a v ->
  returns (with_drive (setTokenBalance (AddrBytes a) id v);; addTotal id delta) l (fun _ l' =>
    exists img', token_set l img id a v (put_total id (totalSupply id l + delta) (ram l)) l' img').
Proof.
  intros Hwf Ha Hp Hid Ht Hv Hroom. pose proof Ha as (Hl & Hby & Hz).
  apply returns_bind. unfold with_drive. apply returns_zoom. eapply returns_mono.
  - apply (setTokenBalance_spec (drive l) img _ a id t v); try done; [apply Hwf|by apply toAddress_valid].
  - intros [] d' (img' & Hr & Hbal & Hoth & Hacc).
    destruct (wf_set_drive l img d' img' Hwf Hr) as ((Hwf' & Hfac') & (Hsc & Hf & _)).
    unfold returns, wp. simpl. exists img'. split_and!; try done.
    split; [|done]. destruct Hwf' as [Hh ? ? ? ? ? ? ? ? ?]. by constructor.
Qed.

Lemma token_known l id : 0 <= id < zlen (ltokens l) -> exists t, ltokens l !! Z.to_nat id = Some t.
Proof. intros Hid. apply lookup_lt_is_Some_2. unfold zlen in Hid. lia. Qed.

Lemma only_drive_token_set l l1 img id a v r l' img' : only_drive l l1 -> token_set l1 img id a v r l' img' ->
  token_set l img id a v r l' img'.
Proof.
  intros ((Hc & Ht & Ho) & Hf & _) (Hwf & (Hc' & Ht' & Ho') & Hf' & Hr & Hb & Hoth & Hacc).
  unfold account_view in *. rewrite Hc, Ht in *. split_and!; try done; [unfold same_cache; split_and!; congruence|congruence].
Qed.

Lemma creditToken_spec l img a id t v : ledger_wf l img -> valid_address a ->
  profile (lcfg l) <> ProfileSingleAsset -> 0 <= id -> ltokens l !! Z.to_nat id = Some t -> v <> 0 ->
  fits_width (tok_width t) (lbalance l img id a + v) ->
  token_room (drive l) img id a (lbalance l img id a + v) ->
  returns (creditToken a id v) l (fun _ l' => exists img',
    token_set l img id a (lbalance l img id a + v) (put_total id (totalSupply id l + v) (ram l)) l' img').
Proof.
  intros Hwf Ha Hp Hid Ht Hv Hfit Hroom. pose proof (lookup_lt_Some _ _ _ Ht) as Hlt.
  unfold creditToken. rewrite (proj2 (Z.eqb_neq _ _)) by done.
  apply returns_bind. eapply returns_mono; [apply tokenBalance_spec; try done; unfold zlen; lia|].
  intros b l1 (-> & Hwf1 & Hod). pose proof Hod as ((Hc & Ht1 & Ho) & Hf & Hr).
  eapply returns_mono; [apply (put_token_spec l1 img a id t)|].
  all: unfold token_room, totalSupply in *; rewrite ?Hc, ?Ht1, ?Hr; try done.
  intros [] l' (img' & Hset). exists img'. eapply only_drive_token_set; [exact Hod|]. exact Hset.
Qed.

Lemma debitToken_spec l img a id t v : ledger_wf l img -> valid_address a ->
  profile (lcfg l) <> ProfileSingleAsset -> 0 <= id -> ltokens l !! Z.to_nat id = Some t ->
  0 < v <= lbalance l img id a ->
  returns (debitToken a id v) l (fun _ l' => exists img',
    token_set l img id a (lbalance l img id a - v) (put_total id (totalSupply id l - v) (ram l)) l' img').
Proof.
  intros Hwf Ha Hp Hid Ht Hv. pose proof (lookup_lt_Some _ _ _ Ht) as Hlt.
  destruct (token_balance_bounds (drive l) img id a t (proj1 Hwf) Hid (proj1 Ha) Ht Hp) as [Hfit Hroom].
  unfold debitToken. rewrite (proj2 (Z.eqb_neq _ _)) by lia.
  apply returns_bind. eapply returns_mono; [apply tokenBalance_spec; try done; unfold zlen; lia|].
  intros b l1 (-> & Hwf1 & Hod). pose proof Hod as ((Hc & Ht1 & Ho) & Hf & Hr).
  rewrite (proj2 (Z.ltb_ge _ _)) by lia.
  eapply returns_mono; [apply (put_token_spec l1 img a id t)|].
  all: unfold totalSupply, fits_width in *; rewrite ?Hc, ?Ht1, ?Hr; try done; try lia.
  { specialize (Hroom ltac:(lia) (lbalance l img id a - v)). unfold token_room in *. by rewrite Hc, Ht1. }
  intros [] l' (img' & Hset). exists img'. eapply only_drive_token_set; [exact Hod|].
  by rewrite Z.add_opp_r in Hset.
Qed.

(** ** Supplies *)
Definition token_holders (c : NormalizedConfig) img : gset Address :=
  dom (table_map (accountsTable c) img) ∪ set_map (drop 2) (dom (table_map (sparseTable c) img)).
Definition token_supply (c : NormalizedConfig) (ts : list Token) img (id : Z) : Z :=
  sum_over (token_balance c ts img id) (token_holders c img).

Lemma token_supported c ts img id : supported (token_balance c ts img id) (token_holders c img).
Proof.
  intros a. unfold token_balance, token_holders. destruct (_ =? _).
  - destruct (table_map _ img !! a) as [s|] eqn:Hm; [|done]. intros _. apply elem_of_union_l, elem_of_dom. by exists s.
  - destruct (_ =? _); [|done].
    destruct (table_map _ img !! token_key id a) as [s|] eqn:Hm; [|done]. intros _.
    apply elem_of_union_r, elem_of_map. exists (token_key id a). split; [done|]. apply elem_of_dom. by exists s.
Qed.

(** The circulating totals are the sums of the balances. *)
Definition supply_exact l img : Prop := forall id,
  totalSupply id l = if decide (0 <= id < zlen (ltokens l)) then token_supply (lcfg l) (ltokens l) img id else 0.

Lemma supply_set l img id a v l' img' : 0 <= id < zlen (ltokens l) ->
  token_set l img id a (lbalance l img id a + v) (put_total id (totalSupply id l + v) (ram l)) l' img' ->
  supply_exact l img -> supply_exact l' img'.
Proof.
  intros Hid (_ & (Hc & Ht & _) & _ & Hr & Hb & Hoth & _) Hex id'. unfold totalSupply at 1.
  rewrite Hc, Ht, Hr. simpl. pose proof (Hex id') as Hex'. unfold totalSupply in Hex'.
  destruct (decide (id' = id)) as [->|Hne].
  - rewrite lookup_insert_eq. simpl. rewrite (Hex id), !decide_True by done. unfold token_supply.
    rewrite (sum_over_update (token_balance (lcfg l) (ltokens l) img id) (token_balance (lcfg l) (ltokens l) img' id)
      _ _ a (token_supported _ _ _ _) (token_supported _ _ _ _)); [rewrite Hb; lia|].
    intros b Hne. apply Hoth; [done|congruence].
  - rewrite lookup_insert_ne by done. rewrite Hex'. case_decide; [|done]. symmetry.
    apply sum_over_same; [apply token_supported..|]. intros b. apply Hoth; [done|congruence].
Qed.

Lemma supply_restored l img l' : restored l img l' -> supply_exact l img -> supply_exact l' img.
Proof.
  intros (_ & (Hc & Ht & _) & _ & [Htot _ _ _ _ _ _] & _) Hex id. unfold totalSupply. rewrite Htot.
  specialize (Hex id). unfold totalSupply in Hex. by rewrite Hc, Ht.
Qed.

Lemma supply_only_drive l img l' img' : only_drive l l' -> supply_exact l img ->
  (forall id a, token_balance (lcfg l) (ltokens l) img' id a = token_balance (lcfg l) (ltokens l) img id a) ->
  supply_exact l' img'.
Proof.
  intros ((Hc & Ht & _) & _ & Hr) Hex Hsame id. specialize (Hex id). unfold totalSupply in *.
  rewrite Hr, Hc, Ht, Hex. case_decide; [|done]. symmetry.
  apply sum_over_same; [apply token_supported..|]. auto.
Qed.

(** ** Façades *)
Lemma facades_from_app (ts : list Token) (t : Token) (k : Z) (m : gmap Address Z) :
  facades_from (ts ++ [t]) k m = <[l2TokenAddress (tok_address t) := k + zlen ts]> (facades_from ts k m).
Proof.
  revert k m. induction ts as [|x ts IH]; intros k m; simpl.
  - f_equal. unfold zlen. simpl. lia.
  - rewrite IH. f_equal. unfold zlen. simpl length. lia.
Qed.

(** Every façade entry names a registered token that derives it. *)
Lemma facades_sound ts a id : facades_from ts 0 ∅ !! a = Some id ->
  exists t, 0 <= id /\ ts !! Z.to_nat id = Some t /\ l2TokenAddress (tok_address t) = a.
Proof.
  revert a id. induction ts as [|t ts IH] using rev_ind; intros a id; [done|].
  rewrite facades_from_app. destruct (decide (l2TokenAddress (tok_address t) = a)) as [Heq|Hne].
  - rewrite Heq, lookup_insert_eq. intros [= <-]. exists t. unfold zlen. split_and!; [lia| |done].
    rewrite Z.add_0_l, Nat2Z.id. by apply list_lookup_middle.
  - rewrite lookup_insert_ne by done. intros (t' & Hid & Ht' & Heq)%IH. exists t'. split_and!; [done| |done].
    by apply lookup_app_l_Some.
Qed.

(** Every registered token has its façade routed. *)
Lemma facades_complete ts t : t ∈ ts -> is_Some (facades_from ts 0 ∅ !! l2TokenAddress (tok_address t)).
Proof.
  induction ts as [|x ts IH] using rev_ind; [by intros ?%elem_of_nil|].
  rewrite facades_from_app. destruct (decide (l2TokenAddress (tok_address x) = l2TokenAddress (tok_address t))) as [Heq|Hne].
  - intros _. rewrite Heq, lookup_insert_eq. done.
  - intros [Hin|Hx]%elem_of_app; [rewrite lookup_insert_ne by done; auto|].
    by apply list_elem_of_singleton in Hx as ->.
Qed.

Lemma tokenByL2Address_sound l img a f : ledger_wf l img -> tokenByL2Address a l = Some f ->
  exists t, 0 <= rf_id f < zlen (ltokens l) /\ ltokens l !! Z.to_nat (rf_id f) = Some t
    /\ f = mkFacade (rf_id f) (tok_address t) (tok_width t) /\ l2TokenAddress (tok_address t) = a.
Proof.
  intros [_ Hf]. unfold tokenByL2Address. rewrite Hf.
  destruct (facades_from _ _ _ !! a) as [id|] eqn:Hm; [|done]. simpl.
  apply facades_sound in Hm as (t & Hid & Ht & Heq). rewrite (proj2 (Z.ltb_ge _ _)) by lia. rewrite Ht.
  simpl. intros [= <-]. exists t. pose proof (lookup_lt_Some _ _ _ Ht). unfold zlen. split_and!; simpl; (done || lia).
Qed.

(** ** Registration *)
Definition ledger_registered l img (a : Address) (md : option TokenMetadata) l' img' : Prop :=
  ledger_wf l' img' /\ lcfg l' = lcfg l /\ ltokens l' = ltokens l ++ [mkToken a 32]
  /\ is_Some (facades l' !! l2TokenAddress a)
  /\ ram l' = match md with Some m => put_metadata (zlen (ltokens l)) (Some m) (ram l) | None => ram l end
  /\ (forall a', account_of (lcfg l) img' a' = account_of (lcfg l) img a')
  /\ (forall id a', 0 <= id < zlen (ltokens l) -> lbalance l' img' id a' = lbalance l img id a')
  /\ (forall a', zlen a' = 20 -> lbalance l' img' (zlen (ltokens l)) a' = 0).

Lemma ledger_registerToken_spec l img a md : ledger_wf l img -> zlen a = 20 ->
  registration_error (lcfg l) (ltokens l) a 32 = None ->
  returns (ledger_registerToken a md) l (fun r l' => r = (zlen (ltokens l), l2TokenAddress a)
    /\ exists img', ledger_registered l img a md l' img').
Proof.
  intros [Hwf Hfac] Ha Herr. unfold ledger_registerToken. apply returns_bind. unfold with_drive. apply returns_zoom.
  eapply returns_mono; [apply (registerToken_ok (drive l) img _ a); [done|by apply toAddress_bytes|done]|].
  intros id d' (-> & img' & Hwf' & Hc' & Ht' & Hacc & Hold & Hnew).
  assert (Hres : forall l', drive l' = drive (set_journal (journal l') (set_drive d' l)) ->
    facades l' = <[l2TokenAddress a := zlen (ltokens l)]> (facades l) ->
    ram l' = match md with Some m => put_metadata (zlen (ltokens l)) (Some m) (ram l) | None => ram l end ->
    ledger_registered l img a md l' img').
  { intros l' Hd Hf Hr. unfold ledger_registered, ledger_wf. rewrite Hd, Hf. simpl.
    rewrite Hc', Ht', Hfac. split_and!; try done.
    - destruct Hwf' as [? ? ? ? ? ? ? ? ? ?]. by constructor.
    - by rewrite facades_from_app.
    - by rewrite lookup_insert_eq.
    - rewrite <- Ht'. exact Hold.
    - rewrite <- Ht'. exact Hnew. }
  destruct md as [m|]; unfold returns, wp; simpl; (split; [done|]; exists img'; by apply Hres).
Qed.
End LedgerSpec.
