(* ===== verification/LedgerInv.v ===== *)
(** * The ledger's invariant, on every outcome

    [ledger_inv]: the drive is well formed, the façades are the registry's,
    every circulating total is the sum of the balances, and the two ERC-20
    escrows (the portal's and the standard bridge's) are never both live.
    [ram_le]: a message relayed stays relayed, and message nonces only grow.
    [keeps] states of a computation that it terminates, leaves the invariant
    true and the RAM state grown, whether it returns or throws. Every operation
    of app/src/ledger.ts keeps them, on any arguments whose addresses are
    bytes, refusals included; the three whose callers must check first
    ([registerPortal], [registerCrossDomain], [setMessageStatus]) under that
    check. *)

From Stdlib Require Import ZArith Lia.
From S2P Require Import Prelude Sums Bytes Store DriveConfig DriveHeader RobinHood DriveTable Drive DriveTokens.
From S2P Require Import DriveFormat Evm Ledger Journal DriveJournal LedgerJournal LedgerSpec.

(** States with a ledger inside. *)
Class HasLedger (S X : Type) : Type := the_ledger : X -> Ledger S.
#[export] Instance Ledger_has S : HasLedger S (Ledger S) := fun l => l.

#[export] Instance fits_width_dec n v : Decision (fits_width n v).
Proof. unfold fits_width. apply _. Defined.

Create HintDb keep.

Section LedgerInv.
Context {S : Type} {HS : Store S} {HR : StoreReads S} {HW : StoreWrites S} {HK : Keccak} {HKL : KeccakLaws}.
Implicit Types l : Ledger S.
Implicit Types img : bytes.

(** Only one of the two ERC-20 escrows is ever live. *)
Definition exclusive l : Prop := crossDomain l = None \/ hasErc20Portal l = false.

Definition ledger_inv l img : Prop := ledger_wf l img /\ supply_exact l img /\ exclusive l.

(** Relayed messages stay relayed; message nonces are never reused. *)
Definition ram_le (r r' : Ram) : Prop :=
  (forall h, messages r !! h = Some successful -> messages r' !! h = Some successful)
  /\ msgNonce r <= msgNonce r'.
#[export] Instance ram_le_preorder : PreOrder ram_le.
Proof.
  split.
  - intros r. by split.
  - intros r1 r2 r3 [H1 ?] [H2 ?]. split; [auto|lia].
Qed.

Lemma ram_le_same (r r' : Ram) : messages r' = messages r -> msgNonce r' = msgNonce r -> ram_le r r'.
Proof. intros Hm Hn. split; [by rewrite Hm|lia]. Qed.

Lemma ram_le_equiv (r r' : Ram) : r' ≡ r -> ram_le r r'.
Proof. intros [_ _ _ _ _ Hn Hm]. by apply ram_le_same. Qed.

(** It ended, the invariant holds where it did, and the RAM state grew. *)
Definition kept {X A} {HX : HasLedger S X} (x : X) (r : outcome A * X) : Prop :=
  r.1 <> Diverge /\ (exists img', ledger_inv (the_ledger r.2) img')
  /\ ram_le (ram (the_ledger x)) (ram (the_ledger r.2)).
Definition keeps {X A} {HX : HasLedger S X} (m : M X A) : Prop :=
  forall x img, ledger_inv (the_ledger x) img -> kept x (m x).

Section Rules.
Context {X : Type} {HX : HasLedger S X}.

(** The ledger is untouched. *)
Lemma kept_same {A} (x : X) img (r : outcome A * X) : ledger_inv (the_ledger x) img -> r.1 <> Diverge ->
  the_ledger r.2 = the_ledger x -> kept x r.
Proof. intros Hi Hd Hl. split_and!; [done|exists img; by rewrite Hl|by rewrite Hl]. Qed.

Lemma keeps_ret {A} (a : A) : keeps (mret a : M X A).
Proof. intros x img Hi. by eapply kept_same. Qed.

Lemma keeps_throw {A} e : keeps (throw e : M X A).
Proof. intros x img Hi. by eapply kept_same. Qed.

Lemma keeps_gets {A} (f : X -> A) : keeps (gets f).
Proof. intros x img Hi. by eapply kept_same. Qed.

Lemma keeps_lift {A} (o : outcome A) : o <> Diverge -> keeps (liftO o : M X A).
Proof. intros Ho x img Hi. by eapply kept_same. Qed.

Lemma keeps_modify (f : X -> X) : (forall x, the_ledger (f x) = the_ledger x) -> keeps (modify f).
Proof. intros Hf x img Hi. eapply kept_same; [done..|]. apply Hf. Qed.

Lemma kept_trans {A} (x x1 : X) (r : outcome A * X) : ram_le (ram (the_ledger x)) (ram (the_ledger x1)) ->
  kept x1 r -> kept x r.
Proof. intros Hle (Hd & Hi & Hle'). split_and!; [done..|by etrans]. Qed.

Lemma keeps_bind {A B} (m : M X A) (f : A -> M X B) : keeps m -> (forall a, keeps (f a)) -> keeps (m ≫= f).
Proof.
  intros Hm Hf x img Hi. destruct (Hm x img Hi) as (Hd & [img1 Hi1] & Hle). unfold mbind, M_bind.
  destruct (m x) as [[a|e|] x1]; simpl in *; [|by split_and!; [|exists img1|]|done].
  eapply kept_trans; [exact Hle|]. by eapply Hf.
Qed.

Lemma keeps_try {A} (m : M X A) (h : exn -> M X A) : keeps m -> (forall e, keeps (h e)) -> keeps (try_catch m h).
Proof.
  intros Hm Hf x img Hi. destruct (Hm x img Hi) as (Hd & [img1 Hi1] & Hle). unfold try_catch.
  destruct (m x) as [[a|e|] x1]; simpl in *; [by split_and!; [|exists img1|]| |done].
  eapply kept_trans; [exact Hle|]. by eapply Hf.
Qed.

(** A case on what was read, knowing what it was. *)
Lemma keeps_gets_eq {A B} (f : X -> A) (k : A -> M X B) :
  (forall x img, ledger_inv (the_ledger x) img -> kept x (k (f x) x)) -> keeps (x ← gets f; k x).
Proof. intros Hk x img. exact (Hk x img). Qed.
End Rules.

(** ** Drive reads and writes *)

(** The bytes, the caches, the totals and the escrows are what the invariant
    reads. *)
Lemma inv_transport l img l' : ledger_inv l img -> holds (inner (store (drive l'))) img -> same_cache l l' ->
  facades l' = facades l -> (forall id, totalSupply id l' = totalSupply id l) -> exclusive l' -> ledger_inv l' img.
Proof.
  intros ([[Hh H1 H2 H3 H4 H5 H6 H7 H8 H9] Hf] & Hs & _) Hh' (Hc & Ht & Ho) Hf' Htot Hx. split_and!; [| |done].
  - split; [|by rewrite Hf', Ht]. constructor; rewrite ?Hc, ?Ht, ?Ho; done.
  - intros id. rewrite Htot, Hc, Ht. apply Hs.
Qed.

Lemma exclusive_same l l' : portals (ram l') = portals (ram l) ->
  crossDomainConfig (ram l') = crossDomainConfig (ram l) -> exclusive l -> exclusive l'.
Proof. unfold exclusive, hasErc20Portal, crossDomain. by intros -> ->. Qed.

Lemma inv_only_drive l img l' : ledger_inv l img -> ledger_wf l' img -> only_drive l l' -> ledger_inv l' img.
Proof.
  intros (_ & Hs & Hx) Hwf Hod. split_and!; [done|by eapply supply_only_drive|].
  destruct Hod as (_ & _ & Hr). apply (exclusive_same l); unfold the_ledger, Ledger_has; simpl; [by rewrite Hr..|done].
Qed.

Lemma inv_leaves l img d' : ledger_inv l img -> leaves (drive l) img d' -> ledger_inv (set_drive d' l) img.
Proof.
  intros Hi Hd. destruct (wf_set_drive l img d' img (proj1 Hi)) as [? ?]; [|by eapply inv_only_drive].
  apply leaves_rests; [apply Hi|done].
Qed.

(** A drive computation that throws without writing. *)
Lemma raise_keeps {A} (m : M (Drive (JStore S)) A) l img e : ledger_inv l img ->
  raises m (drive l) e (fun d' => d' = drive l \/ leaves (drive l) img d') ->
  kept l (with_drive m l).
Proof.
  intros Hi. unfold raises, wp, with_drive, zoom. destruct (m (drive l)) as [o d']. simpl.
  intros [-> [->|Hd]]; (split_and!; [done| |done]); exists img; [by destruct l|by apply inv_leaves].
Qed.

Lemma address_cases a : (exists e, toAddress (AddrBytes a) = Exn e) \/ toAddress (AddrBytes a) = Val a /\ zlen a = 20.
Proof.
  destruct (decide (zlen a = 20)) as [Hl|Hl].
  - right. split; [by apply toAddress_bytes|done].
  - left. unfold toAddress. simpl. rewrite (proj2 (Z.eqb_neq _ _)) by done. by eexists.
Qed.

Lemma nonzero_refused {A} (f : bytes -> M (Drive (JStore S)) A) d a : ~ (zlen a = 20 /\ isZero a = false) ->
  exists e, raises (x ← nonzero_address (AddrBytes a); f x) d e (fun d' => d' = d).
Proof.
  intros Ha. unfold nonzero_address. destruct (address_cases a) as [[e He]|[He Hl]].
  - exists e. apply raises_first, raises_first. by apply raises_lift.
  - exists err_zeroAddress. apply raises_first, raises_bind. eapply returns_lift; [exact He|].
    destruct (isZero a); [by apply raises_throw|naive_solver].
Qed.

(** What remains after the address check an operation [m] starts with. *)
Lemma keeps_checked {A} (m : M (Drive (JStore S)) A) f a : m = (x ← nonzero_address (AddrBytes a); f x) ->
  (zlen a = 20 -> isZero a = false -> keeps (with_drive m)) -> keeps (with_drive m).
Proof.
  intros Hm Hok l img Hi. destruct (decide (zlen a = 20 /\ isZero a = false)) as [[H1 H2]|Hn]; [exact (Hok H1 H2 l img Hi)|].
  destruct (nonzero_refused f (drive l) a Hn) as [e He]. rewrite <- Hm in He. eapply raise_keeps; [done|].
  unfold raises, wp in *. naive_solver.
Qed.

(** A drive computation that returns. *)
Lemma return_keeps {A} (m : M (Drive (JStore S)) A) l :
  returns m (drive l) (fun _ d' => exists img', ledger_inv (set_drive d' l) img') ->
  kept l (with_drive m l).
Proof. unfold returns, wp, with_drive, zoom. by destruct (m (drive l)) as [[a|e|] d']. Qed.

Lemma account_keeps a : keeps (account a).
Proof.
  apply keeps_bind; [|intros; apply keeps_ret]. eapply keeps_checked; [reflexivity|]. intros Hl Hz l img Hi.
  apply return_keeps. eapply returns_mono; [apply getAccount_spec; [apply Hi|by apply toAddress_bytes|done]|].
  intros r d' [_ Hd]. exists img. by apply inv_leaves.
Qed.

Lemma put_account_keeps a n b : Forall is_byte a -> keeps (with_drive (setAccount (AddrBytes a) n b)).
Proof.
  intros Hb. eapply keeps_checked; [reflexivity|]. intros Hl Hz l img Hi.
  pose proof (toAddress_bytes a Hl) as Ha. pose proof (proj1 (proj1 Hi)) as Hwf.
  destruct (decide (fits_width (balance_width (cfg (drive l))) b /\ (compact (cfg (drive l)) = true -> n <= 0xffffffff))) as [[Hw Hn]|Hno].
  2: { eapply raise_keeps; [done|]. eapply raises_mono; [by apply (setAccount_overflow _ _ a)|]. auto. }
  destruct (decide (is_Some (account_of (cfg (drive l)) img a) \/ count_at OFF_LIVE_COUNT img < loadLimit (cfg (drive l)))) as [Hr|Hr].
  - apply return_keeps. eapply returns_mono; [by apply (setAccount_spec _ img _ a)|].
    intros [] d' (img' & Hrest & _ & _ & Htok). exists img'.
    destruct (wf_set_drive l img d' img' (proj1 Hi) Hrest) as [? ?]. destruct Hi as (_ & Hs & Hx).
    split_and!; [done| |done]. by eapply supply_only_drive.
  - apply Decidable.not_or in Hr as [Hnone Hfull]. eapply raise_keeps; [done|].
    eapply raises_mono; [apply (setAccount_full _ img _ a); try done; [|lia]|auto].
    by apply eq_None_not_Some.
Qed.

Lemma creditEther_keeps a v : Forall is_byte a -> keeps (creditEther a v).
Proof.
  intros Ha. unfold creditEther. destruct (_ =? _); [apply keeps_ret|].
  apply keeps_bind; [apply account_keeps|]. intros. by apply put_account_keeps.
Qed.

Lemma debitEther_keeps a v : Forall is_byte a -> keeps (debitEther a v).
Proof.
  intros Ha. unfold debitEther. destruct (_ =? _); [apply keeps_ret|].
  apply keeps_bind; [apply account_keeps|]. intros. destruct (_ <? _); [apply keeps_throw|].
  by apply put_account_keeps.
Qed.

Lemma bumpNonceAndCharge_keeps a f : Forall is_byte a -> keeps (bumpNonceAndCharge a f).
Proof.
  intros Ha. unfold bumpNonceAndCharge. apply keeps_bind; [apply account_keeps|]. intros.
  destruct (_ <? _); [apply keeps_throw|]. by apply put_account_keeps.
Qed.

(** ** Tokens *)
Definition token_access (d : Drive (JStore S)) (a : Address) (id : Z) : Prop :=
  zlen a = 20 /\ isZero a = false /\ 0 <= id < zlen (tokens_ d) /\ profile (cfg d) <> ProfileSingleAsset.

Lemma balance_refused d a id : ~ token_access d a id ->
  exists e, raises (getTokenBalance (S := JStore S) (AddrBytes a) id) d e (fun d' => d' = d).
Proof.
  intros Hno. destruct (decide (zlen a = 20 /\ isZero a = false)) as [[Hl Hz]|Hn]; [|exact (nonzero_refused _ d a Hn)].
  pose proof (toAddress_bytes a Hl) as Ha. unfold getTokenBalance.
  destruct (decide (0 <= id < zlen (tokens_ d))) as [Hid|Hid].
  - exists err_profile. eapply raises_address; [done..|]. unfold known_token, raises, wp, mbind, M_bind. simpl.
    rewrite (proj2 (Z.leb_le _ _)), (proj2 (Z.ltb_lt _ _)) by lia. simpl.
    destruct (decide (profile (cfg d) = ProfileSingleAsset)) as [->|Hp]; [done|by destruct Hno].
  - exists err_unknownToken. eapply raises_address; [done..|].
    apply raises_first. unfold raises, wp. by rewrite known_token_unknown.
Qed.

#[export] Instance token_access_dec d a id : Decision (token_access d a id).
Proof. unfold token_access. apply _. Defined.

(** Only an access that can succeed gets past the first read. *)
Lemma keeps_tokenBalance {A} a id (f : Z -> M (Ledger S) A) :
  (forall l img, ledger_inv l img -> token_access (drive l) a id ->
   kept l (f (token_balance (cfg (drive l)) (tokens_ (drive l)) img id a) l)) ->
  keeps (b ← tokenBalance a id; f b).
Proof.
  intros Hf l img Hi. pose proof Hi as (Hwf & Hs & _). unfold tokenBalance.
  destruct (decide (token_access (drive l) a id)) as [Hacc|Hno].
  - pose proof Hacc as (Hl & Hz & Hid & Hp).
    pose proof (getTokenBalance_spec (drive l) img _ a id (proj1 Hwf) (toAddress_bytes a Hl) Hz Hid Hp) as Hg.
    apply returns_elim in Hg as (v & d' & Hg & -> & Hd). unfold mbind, M_bind, with_drive, zoom. rewrite Hg.
    pose proof (inv_leaves l img d' Hi Hd) as Hi'. destruct (wf_leaves _ _ _ (proj1 Hwf) Hd) as (_ & Hc & Ht).
    pose proof (Hf (set_drive d' l) img Hi') as Hk. simpl in Hk. rewrite Hc, Ht in Hk. apply Hk.
    unfold token_access. by rewrite Hc, Ht.
  - destruct (balance_refused _ _ _ Hno) as [e He]. unfold raises, wp in He.
    unfold mbind, M_bind, with_drive, zoom. destruct (getTokenBalance _ _ (drive l)) as [o d']. simpl in He.
    destruct He as [-> ->]. eapply kept_same; [done..|by destruct l].
Qed.

Lemma tokenBalance_keeps a id : keeps (tokenBalance a id).
Proof.
  intros l img Hi. pose proof (keeps_tokenBalance a id mret) as Hk. specialize (Hk ltac:(intros; by apply (keeps_ret _ l0 img0)) l img Hi).
  revert Hk. unfold mbind, M_bind, mret, M_ret. by destruct (tokenBalance a id l) as [[]].
Qed.

(** A balance write and its total, when the balance is read before it. *)
Lemma put_token_keeps l img a id delta : ledger_inv l img -> token_access (drive l) a id -> Forall is_byte a ->
  kept l ((with_drive (setTokenBalance (AddrBytes a) id
          (token_balance (cfg (drive l)) (tokens_ (drive l)) img id a + delta));; addTotal id delta) l).
Proof.
  intros Hi (Hl & Hz & Hid & Hp) Hb. pose proof Hi as (Hwf & Hs & Hx). pose proof (toAddress_bytes a Hl) as Ha.
  destruct (token_known l id Hid) as [t Ht]. set (v := _ + delta).
  assert (Hrefuse : forall e, raises (setTokenBalance (AddrBytes a) id v) (drive l) e
      (fun d' => d' = drive l \/ leaves (drive l) img d') ->
    kept l ((with_drive (setTokenBalance (AddrBytes a) id v);; addTotal id delta) l)).
  { intros e He. destruct (raise_keeps _ l img e Hi He) as [Hnd Hinv]. unfold raises, wp in He. revert Hnd Hinv.
    unfold mbind, M_bind, with_drive, zoom. destruct (setTokenBalance _ _ _ (drive l)) as [o d']. simpl in He.
    by destruct He as [-> _]. }
  destruct (decide (fits_width (tok_width t) v)) as [Hv|Hv].
  2: { eapply Hrefuse, raises_mono; [apply (setTokenBalance_overflow _ img _ a id t); try done; [apply Hwf|lia]|auto]. }
  destruct (room_or_full (drive l) img id a v (proj1 Hwf) Hid Hp Hl) as [Hroom|[Hnz Hfull]].
  2: { eapply Hrefuse, raises_mono; [apply (setTokenBalance_full _ img _ a id t); try done; [apply Hwf|lia]|auto]. }
  pose proof (put_token_spec l img a id t v delta Hwf) as Hput.
  apply returns_elim in Hput as ([] & l' & Hrun & img' & Hset); try done; [|lia].
  rewrite Hrun. pose proof Hset as (Hwf' & _ & _ & Hr & _). split_and!; [done| |].
  - exists img'. split_and!; [done|by eapply supply_set|]. apply (exclusive_same l); unfold the_ledger, Ledger_has; simpl; [by rewrite Hr..|done].
  - apply ram_le_same; unfold the_ledger, Ledger_has; simpl; by rewrite Hr.
Qed.

Lemma creditToken_keeps a id v : Forall is_byte a -> keeps (creditToken a id v).
Proof.
  intros Hb. unfold creditToken. destruct (_ =? _); [apply keeps_ret|]. apply keeps_tokenBalance.
  intros l img Hi Hacc. by apply put_token_keeps.
Qed.

Lemma debitToken_keeps a id v : Forall is_byte a -> keeps (debitToken a id v).
Proof.
  intros Hb. unfold debitToken. destruct (_ =? _); [apply keeps_ret|]. apply keeps_tokenBalance.
  intros l img Hi Hacc. destruct (_ <? _); [by apply (keeps_throw _ l img)|]. rewrite <- Z.add_opp_r.
  by apply put_token_keeps.
Qed.

(** ** Registration *)
Lemma balance_length (d : Drive (JStore S)) img id a : drive_wf d img ->
  token_balance (cfg d) (tokens_ d) img id a <> 0 -> zlen a = 20.
Proof.
  intros Hwf. pose proof Hwf as [_ _ Hgeo Hacc _ _ Hsb _ _ _]. unfold token_balance.
  destruct (Z.eqb_spec (profile (cfg d)) ProfileWide) as [Hp|_].
  - destruct (table_map _ img !! a) as [s|] eqn:Hm; [|done]. intros _.
    destruct (table_map_slot _ _ _ _ _ Hacc Hm) as (Hs & _ & <-). simpl. apply zlen_slice.
    pose proof (rec_size_fits _ _ Hgeo). unfold rec_size in *. simpl in Hs.
    destruct (compact _); unfold fits; lia.
  - destruct (Z.eqb_spec (profile (cfg d)) ProfileSparse) as [Hp|_]; [|done].
    destruct (table_map _ img !! token_key id a) as [s|] eqn:Hm; [|done]. intros _.
    destruct (Hsb Hp _ _ Hm) as (_ & _ & id' & a' & t & _ & Hl & Hk & _).
    apply (f_equal zlen) in Hk. unfold token_key in Hk. rewrite !zlen_app, Hl in Hk. unfold zlen in *. simpl in Hk. lia.
Qed.

Lemma supply_registered l img a md l' img' : ledger_registered l img a md l' img' -> supply_exact l img ->
  supply_exact l' img'.
Proof.
  intros (Hwf & Hc & Ht & _ & Hr & _ & Hold & Hnew) Hs id.
  assert (Htot : totalSupply id l' = totalSupply id l) by (unfold totalSupply; rewrite Hr; by destruct md).
  rewrite Htot, (Hs id), Hc. rewrite Ht, zlen_app. change (zlen [_]) with 1. rewrite Hc, Ht in Hold, Hnew.
  pose proof (zlen_nonneg (tokens_ (drive l))).
  destruct (decide (0 <= id < zlen (tokens_ (drive l)))) as [Hid|Hid].
  - rewrite decide_True by lia. symmetry. apply sum_over_same; [apply token_supported..|]. auto.
  - case_decide as Hid'; [|done]. assert (id = zlen (tokens_ (drive l))) as -> by lia. symmetry.
    unfold token_supply. rewrite (sum_over_ext _ (fun _ => 0)); [by apply sum_over_zero|]. intros b _.
    destruct (decide (zlen b = 20)) as [Hb|Hb]; [auto|]. pose proof (balance_length (drive l') img' (zlen (tokens_ (drive l))) b (proj1 Hwf)) as Hlen.
    rewrite Hc, Ht in Hlen. destruct (decide (token_balance (cfg (drive l)) (tokens_ (drive l) ++ [mkToken a 32]) img'
      (zlen (tokens_ (drive l))) b = 0)); [done|]. naive_solver.
Qed.

Lemma ledger_registerToken_keeps a md : keeps (ledger_registerToken a md).
Proof.
  intros l img Hi. pose proof Hi as (Hwf & Hs & Hx).
  assert (Hrefuse : forall e, raises (registerToken (AddrBytes a) 32) (drive l) e (fun d' => d' = drive l) ->
    kept l (ledger_registerToken a md l)).
  { intros e He. unfold raises, wp in He. unfold ledger_registerToken, mbind, M_bind, with_drive, zoom.
    destruct (registerToken _ _ (drive l)) as [o d']. simpl in He. destruct He as [-> ->].
    eapply kept_same; [done..|by destruct l]. }
  destruct (address_cases a) as [[e He]|[Ha Hl]].
  { apply (Hrefuse e). unfold registerToken. by apply raises_first, raises_lift. }
  destruct (registration_error (cfg (drive l)) (tokens_ (drive l)) a 32) as [e|] eqn:Herr.
  - apply (Hrefuse e). by apply (registerToken_refused _ _ a).
  - pose proof (ledger_registerToken_spec l img a md Hwf Hl Herr) as Hreg.
    apply returns_elim in Hreg as (r & l' & Hrun & _ & img' & Hreg). rewrite Hrun.
    pose proof Hreg as (Hwf' & _ & _ & _ & Hr & _). split_and!; [done| |].
    + exists img'. split_and!; [done|by eapply supply_registered|].
      apply (exclusive_same l); unfold the_ledger, Ledger_has; simpl; [by rewrite Hr; destruct md..|done].
    + apply ram_le_same; unfold the_ledger, Ledger_has; simpl; rewrite Hr; by destruct md.
Qed.

Lemma tokenByL1Address_keeps a : keeps (tokenByL1Address a).
Proof.
  intros l img Hi. unfold tokenByL1Address, tokenByAddress, mbind, M_bind, with_drive, zoom, liftO.
  destruct (toAddress _) as [b|e|] eqn:Hb; (eapply kept_same; [done| |by destruct l]); try done.
  unfold toAddress in Hb. simpl in Hb. by destruct (zlen a =? 20).
Qed.

(** ** RAM state *)
Lemma ram_kept {A} (m : M (Ledger S) A) l img a es r : ledger_inv l img ->
  m l = (Val a, set_ram r (set_journal es l)) -> totals r = totals (ram l) -> exclusive (set_ram r l) ->
  ram_le (ram l) r -> kept l (m l).
Proof.
  intros Hi -> Hr Hx Hle. split_and!; [done| |done]. exists img.
  apply (inv_transport l); try done; [apply Hi|]. intros id. unfold totalSupply. simpl. by rewrite Hr.
Qed.
Ltac ram_op := intros l img Hi; eapply ram_kept; [done|reflexivity|done|apply Hi|by apply ram_le_same].

Lemma setMetadata_keeps id m : keeps (setMetadata id m).
Proof. ram_op. Qed.
Lemma setFee_keeps f : keeps (setFee f).
Proof. ram_op. Qed.
Lemma nextMessageNonce_keeps : keeps nextMessageNonce.
Proof.
  intros l img Hi. eapply ram_kept; [done|reflexivity|done|apply Hi|]. split; [done|]. simpl. lia.
Qed.
Lemma commit_keeps : keeps commit.
Proof. intros l img Hi. eapply (ram_kept _ _ _ _ _ (ram l)); [done|reflexivity|done|apply Hi|done]. Qed.

(** A message that was not relayed may take any status; any may be relayed. *)
Lemma setMessageStatus_kept h s l img : ledger_inv l img -> s = successful \/ messageStatus h l <> Some successful ->
  kept l (setMessageStatus h s l).
Proof.
  intros Hi Hs. eapply ram_kept; [done|reflexivity|done|apply Hi|]. split; [|done]. simpl. intros h' Hh'.
  destruct (decide (h' = h)) as [->|Hne]; [|by rewrite lookup_partial_alter_ne].
  rewrite lookup_partial_alter_eq. destruct Hs as [->|Hs]; [done|]. by destruct Hs.
Qed.

Lemma hasErc20Portal_false l : hasErc20Portal l = false <-> forall a, portals (ram l) !! a <> Some PORTAL_ERC20.
Proof.
  unfold hasErc20Portal. rewrite <- not_true_iff_false, existsb_exists. split.
  - intros Hno a Ha. apply Hno. exists (a, PORTAL_ERC20). split; [|done].
    by apply list_elem_of_In, elem_of_map_to_list.
  - intros Hno ([a k] & Hin%list_elem_of_In%elem_of_map_to_list & Hk%Z.eqb_eq). simpl in *. subst. by destruct (Hno a).
Qed.

(** A portal may be registered unless it is an ERC-20 one and the bridge is. *)
Lemma registerPortal_kept a k l img : ledger_inv l img -> k <> PORTAL_ERC20 \/ crossDomain l = None ->
  kept l (registerPortal a k l).
Proof.
  intros Hi Hk. pose proof Hi as (_ & _ & Hx). eapply ram_kept; [done|reflexivity|done| |by apply ram_le_same].
  destruct Hk as [Hk|Hc]; [|by left]. destruct Hx as [Hc|Hno]; [by left|right].
  rewrite hasErc20Portal_false in *. intros b. simpl. destruct (decide (b = a)) as [->|Hne].
  - rewrite lookup_partial_alter_eq. congruence.
  - by rewrite lookup_partial_alter_ne.
Qed.

Lemma registerCrossDomain_kept cd l img : ledger_inv l img -> hasErc20Portal l = false ->
  kept l (registerCrossDomain cd l).
Proof.
  intros Hi Hno. eapply ram_kept; [done|reflexivity|done|by right|by apply ram_le_same].
Qed.

(** A rolled-back ledger has the invariant back. *)
Lemma inv_restored l img l' : ledger_inv l img -> restored l img l' -> ledger_inv l' img.
Proof.
  intros (_ & Hs & Hx) Hr. pose proof Hr as (Hwf & _ & _ & [_ _ Hp _ Hc _ _] & _).
  split_and!; [done|by eapply supply_restored|by eapply exclusive_same].
Qed.
End LedgerInv.

#[export] Hint Resolve creditEther_keeps debitEther_keeps bumpNonceAndCharge_keeps creditToken_keeps
  debitToken_keeps ledger_registerToken_keeps tokenByL1Address_keeps tokenBalance_keeps setMetadata_keeps
  setFee_keeps nextMessageNonce_keeps account_keeps commit_keeps : keep.
