(* ===== verification/Boot.v ===== *)
(** * Booting

    [Ledger.create] of app/src/ledger.ts: a blank device is formatted to the
    devnet geometry, a formatted one is opened; either way the ledger starts
    at rest. *)

From Stdlib Require Import ZArith Lia.
From S2P Require Import Prelude Sums Bytes Text Store DriveConfig DriveHeader RobinHood DriveTable Drive DriveTokens.
From S2P Require Import DriveFormat Evm Ledger Journal DriveJournal LedgerJournal LedgerSpec LedgerInv.

Section Boot.
Context {S : Type} {HS : Store S} {HR : StoreReads S} {HW : StoreWrites S} {HK : Keccak} {HKL : KeccakLaws}.
Implicit Types l : Ledger S.
Implicit Types img : bytes.

(** The ledger over a drive just formatted or opened. *)
Lemma boot_wf js d img : drive_wf (with_store js d) img ->
  ledger_wf (boot_ledger js d) img /\ journal (boot_ledger js d) = [] /\ ram (boot_ledger js d) = empty_ram
  /\ tokens_ (drive (boot_ledger js d)) = tokens_ d /\ cfg (drive (boot_ledger js d)) = cfg d.
Proof.
  intros [Hh H1 H2 H3 H4 H5 H6 H7 H8 H9]. by split_and!.
Qed.

Definition devnet_config : NormalizedConfig :=
  mkNormalized 1048576 4096 3584 (zeros 32) ProfileSparse 64 4096 0x100 8 266240 4096 3584 64.

Lemma devnet_normalized : normalizeConfig DEVNET_DRIVE_CONFIG = Val devnet_config.
Proof. vm_compute. reflexivity. Qed.

Lemma devnet_valid : validateConfig devnet_config = Val tt.
Proof. vm_compute. reflexivity. Qed.

Lemma devnet_storable : u53 (registryCapacity devnet_config) /\ slotSize devnet_config < 2 ^ 32
  /\ driveLength devnet_config <= MAX_SAFE_INTEGER.
Proof. unfold u53, MAX_SAFE_INTEGER. cbn [registryCapacity slotSize driveLength devnet_config]. lia. Qed.

Lemma blank_magic : bool_decide (TextDecoder_decode (slice 0 8 (zeros (driveLength devnet_config))) = ascii_text "ctsiacct") = false.
Proof.
  unfold zeros. rewrite slice_replicate by (cbn [driveLength devnet_config]; lia). reflexivity.
Qed.

(** A blank device boots to an empty ledger at rest. *)
Lemma create_blank s : holds s (zeros (driveLength devnet_config)) ->
  returns create s (fun l s' => s' = inner (store (drive l)) /\ journal l = [] /\ ram l = empty_ram
    /\ tokens_ (drive l) = []
    /\ exists img, ledger_inv l img
      /\ (forall a, account_of (cfg (drive l)) img a = None)
      /\ (forall id a, token_balance (cfg (drive l)) (tokens_ (drive l)) img id a = 0)).
Proof.
  intros Hh. unfold create. apply returns_bind.
  eapply returns_mono; [apply (readAt_spec s _ 0 8 Hh); rewrite zlen_zeros; unfold fits; cbn [driveLength devnet_config]; lia|].
  intros magic s1 [-> Hs1]. rewrite blank_magic. unfold create_with, boot_drive, returns, wp.
  pose proof (@format_spec (JStore S) _ _ _ _ _ DEVNET_DRIVE_CONFIG devnet_config (mkJStore s1 [])
    devnet_normalized devnet_valid) as Hf.
  destruct devnet_storable as (Hu & Hss & Hlen). specialize (Hf Hu Hss Hlen Hs1).
  apply returns_elim in Hf as (d & js & Hrun & -> & Hwf & Hc & Ht & Hacc & Htok). rewrite Hrun. clear Hrun Hh Hs1 Hc.
  cbn [fst snd]. revert Hwf Hacc Htok. generalize (formatted_image devnet_config). intros img Hwf Hacc Htok.
  pose proof (boot_wf (store d) d img ltac:(by destruct d)) as (Hwf' & Hj & Hr & Ht' & Hc').
  split_and!; [done|done|done|congruence|]. exists img.
  split; [|split; [by rewrite Hc'|by rewrite Hc', Ht']]. split; [exact Hwf'|]. split; [|by left].
  intros id. unfold totalSupply. rewrite Hr, Ht', Ht. case_decide; [|done]. unfold zlen in *. simpl in *. lia.
Qed.

(** A formatted device boots to the drive it holds; the RAM state starts over. *)
Lemma create_formatted s d img : drive_wf d img -> holds s img ->
  returns create s (fun l s' => s' = inner (store (drive l)) /\ journal l = [] /\ ram l = empty_ram
    /\ cfg (drive l) = cfg d /\ tokens_ (drive l) = tokens_ d /\ ledger_wf l img).
Proof.
  intros Hwf Hh. pose proof Hwf as [_ H1 H2 H3 H4 H5 H6 H7 H8 H9]. pose proof (header_fits _ _ H2) as Hhd.
  unfold create. apply returns_bind.
  eapply returns_mono; [apply (readAt_spec s _ 0 8 Hh); unfold fits, HEADER_SIZE in *; lia|].
  intros magic s1 [-> Hs1].
  assert (Hm : bytesEqual (slice 0 8 img) Magic = true).
  { revert H9. unfold decode_header, OFF_MAGIC. rewrite slice_slice by (unfold HEADER_SIZE; lia). simpl (0 + 0).
    by destruct (bytesEqual _ Magic). }
  apply bytesEqual_eq in Hm. rewrite Hm.
  replace (bool_decide (TextDecoder_decode Magic = ascii_text "ctsiacct")) with true by reflexivity. unfold create_with, boot_drive, returns, wp.
  pose proof (@open_spec (JStore S) _ _ _ (mkDrive (mkJStore s1 []) (cfg d) (tokens_ d) (colOff d)) img
    ltac:(by constructor)) as Ho.
  apply returns_elim in Ho as (d' & js & Hrun & -> & Hc & Ht & Hcol & Hwf'). simpl in Hrun. rewrite Hrun. simpl.
  pose proof (boot_wf (store d') d' img ltac:(by destruct d')) as (Hwf2 & Hj & Hr & Ht' & Hc').
  split_and!; try done; congruence.
Qed.
End Boot.
