(* ===== verification/Handlers.v ===== *)
(** * The built-in handlers

    app/src/handlers: the message passer, the portal receiver, the bridge, the
    ERC-20 façade, the router registry, the owner's config contract, the
    cross-domain messenger, the standard bridge and the L1 block predeploy;
    app/src/contract.ts: the handler an application contract becomes; and the
    buffer they emit into ([BufferSink] of app/src/router.ts). *)

From Stdlib Require Import ZArith Lia.
From S2P Require Import Prelude Bytes Text Store DriveConfig DriveTable Drive DriveFormat Evm Ledger.

(** ** Calldata

    What [tryDecodeCalldata] yields for each built-in ABI (abis.ts,
    crossdomain.ts): the function, with its arguments. *)
Inductive PasserCall : Type := initiateWithdrawal (target : Address) (gasLimit : Z) (data : Hex).
Inductive BridgeCall : Type :=
  | withdrawEther (to : Address)
  | withdrawERC20 (token to : Address) (amount : Z).
Inductive Erc20Call : Type :=
  | balanceOf (owner : Address) | totalSupply_call | decimals_call | name_call | symbol_call
  | transfer (to : Address) (value : Z).
Inductive RegistryCall : Type :=
  | handlerAt (target : Address) | handlers_call | l2TokenOf (l1Token : Address).
Inductive ConfigCall : Type :=
  | setFee_call (fee : Z)
  | registerPortal_call (kind : Z) (portal : Address)
  | registerMessenger_call (l1Messenger l1Bridge : Address)
  | registerToken_call (l1Token : Address) (width : Z) (name symbol : string) (decimals : Z)
  | setTokenMetadata_call (l1Token : Address) (name symbol : string) (decimals : Z)
  | fee_call | owner_call.
Inductive MessengerCall : Type :=
  | relayMessage (m : CrossDomainMessage)
  | messageNonce_call | successfulMessages_call (hash : Hex) | failedMessages_call (hash : Hex).
Inductive L2BridgeCall : Type :=
  | bridgeERC20 (localToken remoteToken : Address) (amount minGasLimit : Z) (extraData : Hex)
  | bridgeERC20To (localToken remoteToken to : Address) (amount minGasLimit : Z) (extraData : Hex)
  | finalizeBridgeERC20 (localToken remoteToken from to : Address) (amount : Z) (extraData : Hex)
  | finalizeBridgeETH (from to : Address) (amount : Z) (extraData : Hex).
Inductive L1BlockCall : Type :=
  | b_number | b_timestamp | b_basefee | b_blobBaseFee | b_hash | b_sequenceNumber | b_batcherHash
  | b_baseFeeScalar | b_blobBaseFeeScalar.

(** viem's decoder, at each ABI, and its encoders of calls and results. *)
Class Calldata : Type := {
  decodePasser : bytes -> outcome PasserCall;
  decodeBridge : bytes -> outcome BridgeCall;
  decodeErc20 : bytes -> outcome Erc20Call;
  decodeRegistry : bytes -> outcome RegistryCall;
  decodeConfig : bytes -> outcome ConfigCall;
  decodeMessenger : bytes -> outcome MessengerCall;
  decodeL2Bridge : bytes -> outcome L2BridgeCall;
  decodeL1Block : bytes -> outcome L1BlockCall;
  encodeFunctionData : string -> list AbiValue -> Hex;
  encodeFunctionResult : string -> list AbiValue -> Hex
}.

(** What its decoder promises: an address it yields is twenty bytes. *)
Class CalldataLaws {HC : Calldata} : Prop := {
  transfer_address : forall d to v, decodeErc20 d = Val (transfer to v) -> is_address to;
  relayMessage_address : forall d m, decodeMessenger d = Val (relayMessage m) ->
    is_address (m_sender m) /\ is_address (m_target m);
  finalizeBridgeERC20_address : forall d lt rt from to v x,
    decodeL2Bridge d = Val (finalizeBridgeERC20 lt rt from to v x) -> is_address rt /\ is_address to;
  finalizeBridgeETH_address : forall d from to v x,
    decodeL2Bridge d = Val (finalizeBridgeETH from to v x) -> is_address to
}.

Definition tryDecodeCalldata {A} (decode : bytes -> outcome A) (data : bytes) : option A :=
  match decode data with Val c => Some c | _ => None end.

(** ** State a handler runs in *)
Record Sink : Type := mkSink { emissions : list Emission; withdrawals : Z; sink_input : Z }.

Record L1Attributes : Type := mkAttributes {
  at_baseFeeScalar : Z; at_blobBaseFeeScalar : Z; at_sequenceNumber : Z; at_timestamp : Z; at_number : Z;
  at_basefee : Z; at_blobBaseFee : Z; at_hash : Hex; at_batcherHash : Hex
}.

(** The ledger, the outputs buffered so far, and the RAM the journal does not
    cover: the L1 block handler's attributes and the application's own. *)
Record World (S App : Type) : Type := mkWorld {
  ledger : Ledger S; sink : Sink; attributes : option L1Attributes; app : App
}.
Arguments mkWorld {S App} ledger sink attributes app.
Arguments ledger {S App} _.
Arguments sink {S App} _.
Arguments attributes {S App} _.
Arguments app {S App} _.

Section Handlers.
Context {S App : Type} {HS : Store S} {HK : Keccak} {HV : Viem} {HC : Calldata}.
Abbreviation W := (World S App).

Definition set_ledger (l : Ledger S) (w : W) : W := mkWorld l (sink w) (attributes w) (app w).
Definition set_sink (s : Sink) (w : W) : W := mkWorld (ledger w) s (attributes w) (app w).
Definition set_attributes (a : option L1Attributes) (w : W) : W := mkWorld (ledger w) (sink w) a (app w).
Definition on_ledger {A} (m : M (Ledger S) A) : M W A := zoom ledger set_ledger m.
Definition asks {A} (f : Ledger S -> A) : M W A := gets (fun w => f (ledger w)).

(** A handler: native guest code at an address; either entry is optional. *)
Record Handler : Type := mkHandler {
  payable : bool;
  advance : option (TxContext -> M W AdvanceOutcome);
  view : option (CallContext -> M W ViewOutcome)
}.

Definition revert (msg : string) : M W AdvanceOutcome := mret (ORevert (errorRevert msg)).
Definition accept : M W AdvanceOutcome := mret OAccept.
Definition vreturn (fn : string) (vs : list AbiValue) : M W ViewOutcome := mret (VReturn (encodeFunctionResult fn vs)).
Definition vrevert (msg : string) : M W ViewOutcome := mret (VRevert (errorRevert msg)).

(** ** BufferSink *)
Definition emit (e : Emission) : M W unit :=
  modify (fun w => set_sink (mkSink (emissions (sink w) ++ [e]) (withdrawals (sink w)) (sink_input (sink w))) w).
Definition out_notice (payload : Hex) : M W unit := emit (Notice payload).
Definition out_voucher (destination : Address) (value : Z) (payload : Hex) : M W unit :=
  emit (Voucher destination value payload).
Definition tagged (tag : Z) (data : Hex) : Hex := tag :: data.
Definition out_report (payload : Hex) : M W unit := emit (Report (tagged TAG_APP payload)).
Definition out_log (emitter : Address) (lg : Log) : M W unit :=
  out_notice (encodeEvmLog emitter (topics lg) (log_data lg)).
Definition out_withdrawal (sender target : Address) (value gasLimit : Z) (data : Hex) : M W unit :=
  idx ← gets (fun w => sink_input (sink w));
  ord ← gets (fun w => withdrawals (sink w));
  modify (fun w => set_sink (mkSink (emissions (sink w)) (ord + 1) (sink_input (sink w))) w);;
  nonce ← liftO (versionedWithdrawalNonce idx ord);
  let message := mkWithdrawal nonce sender target value gasLimit data in
  out_notice (encodeWithdrawal message);;
  out_log MESSAGE_PASSER_ADDRESS (messagePassedLog message (withdrawalHash message)).
Definition is_report (e : Emission) : bool := match e with Report _ => true | _ => false end.
Definition reportsOnly (s : Sink) : list Emission := List.filter is_report (emissions s).

(** ** MessagePasser *)
Definition passer_advance (ctx : TxContext) : M W AdvanceOutcome :=
  if zlen (tx_data ctx) =? 0 then
    on_ledger (debitEther (tx_to ctx) (tx_value ctx));;
    out_withdrawal (tx_sender ctx) (tx_sender ctx) (tx_value ctx) WITHDRAWAL_DEFAULT_GAS_LIMIT [];;
    accept
  else
    match tryDecodeCalldata decodePasser (tx_data ctx) with
    | None => revert "unknown function"
    | Some (initiateWithdrawal target gasLimit data) =>
        on_ledger (debitEther (tx_to ctx) (tx_value ctx));;
        out_withdrawal (tx_sender ctx) target (tx_value ctx) gasLimit data;;
        accept
    end.

(** [catch (e) { if (e instanceof InsufficientFunds) return revert(msg); throw e; }] *)
Definition catch_insufficient (msg : string) (m : M W AdvanceOutcome) : M W AdvanceOutcome :=
  try_catch m (fun e => match e with InsufficientFunds _ => revert msg | _ => throw e end).

(** ** PortalReceiver *)
Definition addressAt (data : bytes) (off : Z) : Address := slice off 20 data.
Definition uint256At (data : bytes) (off : Z) : Z := readBE (slice off 32 data).

(** The token of an L1 address, registered on first sight. *)
Definition token_or_register (l1Token : Address) : M (Ledger S) Z :=
  token ← tokenByL1Address l1Token;
  match token with
  | Some t => mret (rf_id t)
  | None => r ← ledger_registerToken l1Token None; mret r.1
  end.

Definition portal_advance (ctx : TxContext) : M W AdvanceOutcome :=
  if negb (tx_isDeposit ctx) then revert "not a portal deposit" else
  kind ← asks (portalKind (tx_sender ctx));
  match kind with
  | None => revert "unregistered portal"
  | Some kind =>
      if kind =? PORTAL_ETHER then
        if zlen (tx_data ctx) <? 52 then revert "short ether deposit" else
        let beneficiary := addressAt (tx_data ctx) 0 in
        let amount := uint256At (tx_data ctx) 20 in
        catch_insufficient "deposit value does not cover the credit" (
          on_ledger (debitEther (tx_to ctx) amount);;
          on_ledger (creditEther beneficiary amount);;
          accept)
      else
        if zlen (tx_data ctx) <? 72 then revert "short erc20 deposit" else
        let l1Token := addressAt (tx_data ctx) 0 in
        let beneficiary := addressAt (tx_data ctx) 20 in
        let amount := uint256At (tx_data ctx) 40 in
        id ← on_ledger (token_or_register l1Token);
        on_ledger (creditToken beneficiary id amount);;
        out_log (l2TokenAddress l1Token) (transferLog ZERO_ADDRESS beneficiary amount);;
        accept
  end.

(** ** Bridge *)
Definition bridge_advance (ctx : TxContext) : M W AdvanceOutcome :=
  match tryDecodeCalldata decodeBridge (tx_data ctx) with
  | None => revert "unknown function"
  | Some (withdrawEther to) =>
      if tx_value ctx =? 0 then revert "withdrawEther: no value" else
      on_ledger (debitEther (tx_to ctx) (tx_value ctx));;
      out_withdrawal (tx_sender ctx) to (tx_value ctx) WITHDRAWAL_DEFAULT_GAS_LIMIT [];;
      accept
  | Some (withdrawERC20 l2Token to amount) =>
      cd ← asks crossDomain;
      if bool_decide (is_Some cd) then
        revert "ERC-20 leaves through the standard bridge (0x4200…0010) on this chain" else
      token ← asks (tokenByL2Address l2Token);
      match token with
      | None => revert "unknown token"
      | Some token =>
          r ← try_catch (on_ledger (debitToken (tx_sender ctx) (rf_id token) amount);; mret true)
                (fun e => match e with InsufficientFunds _ => mret false | _ => throw e end);
          if negb r then revert "withdrawERC20: amount exceeds balance" else
          out_voucher (rf_l1Token token) 0 (encodeFunctionData "transfer" [VAddress to; VUint amount]);;
          out_log l2Token (transferLog (tx_sender ctx) ZERO_ADDRESS amount);;
          accept
      end
  end.

(** ** Erc20Facade *)
Definition erc20_name (call : Erc20Call) : string :=
  match call with
  | balanceOf _ => "balanceOf" | totalSupply_call => "totalSupply" | decimals_call => "decimals"
  | name_call => "name" | symbol_call => "symbol" | transfer _ _ => "transfer"
  end.
Definition erc20_advance (ctx : TxContext) : M W AdvanceOutcome :=
  token ← asks (tokenByL2Address (tx_to ctx));
  match token with
  | None => revert "unknown token"
  | Some token =>
      match tryDecodeCalldata decodeErc20 (tx_data ctx) with
      | None => revert "unknown function"
      | Some (transfer to value) =>
          r ← try_catch
                (on_ledger (debitToken (tx_sender ctx) (rf_id token) value);;
                 on_ledger (creditToken to (rf_id token) value);; mret true)
                (fun e => match e with InsufficientFunds _ => mret false | _ => throw e end);
          if negb r then revert "ERC20: transfer amount exceeds balance" else
          out_log (tx_to ctx) (transferLog (tx_sender ctx) to value);;
          accept
      | Some call => revert (erc20_name call +:+ " is not a transaction")
      end
  end.
Definition erc20_view (call : CallContext) : M W ViewOutcome :=
  token ← asks (tokenByL2Address (call_to call));
  match token with
  | None => vrevert "unknown token"
  | Some token =>
      match tryDecodeCalldata decodeErc20 (call_data call) with
      | None => vrevert "unknown function"
      | Some (balanceOf owner) =>
          b ← on_ledger (tokenBalance owner (rf_id token)); vreturn "balanceOf" [VUint b]
      | Some totalSupply_call => t ← asks (totalSupply (rf_id token)); vreturn "totalSupply" [VUint t]
      | Some decimals_call => m ← asks (metadataOf (rf_id token)); vreturn "decimals" [VUint (md_decimals m)]
      | Some name_call => m ← asks (metadataOf (rf_id token)); vreturn "name" [VString (md_name m)]
      | Some symbol_call => m ← asks (metadataOf (rf_id token)); vreturn "symbol" [VString (md_symbol m)]
      | Some (transfer _ _) => vrevert "transfer is not a view"
      end
  end.

(** ** Registry: [lookup] and [list] are wired to the router's manifest. *)
Definition registry_view (lookup : Address -> Ledger S -> option bool) (list_ : list Address)
    (call : CallContext) : M W ViewOutcome :=
  match tryDecodeCalldata decodeRegistry (call_data call) with
  | None => vrevert "unknown function"
  | Some (handlerAt target) =>
      h ← asks (fun l => match lookup target l with
                         | Some p => Some p
                         | None => if bool_decide (is_Some (tokenByL2Address target l)) then Some false else None
                         end);
      vreturn "handlerAt" [VBool (bool_decide (is_Some h)); VBool (default false h)]
  | Some handlers_call =>
      all ← asks (fun l => list_ ++ (l2TokenAddress ∘ tok_address <$> tokens_ (drive l)));
      vreturn "handlers" [VArray (VAddress <$> all)]
  | Some (l2TokenOf l1Token) => vreturn "l2TokenOf" [VAddress (l2TokenAddress l1Token)]
  end.

(** ** Config *)
Definition FEE_SET_TOPIC : Hex := topic "FeeSet(uint256)".
Definition PORTAL_REGISTERED_TOPIC : Hex := topic "PortalRegistered(uint8,address,address)".
Definition MESSENGER_REGISTERED_TOPIC : Hex := topic "MessengerRegistered(address,address)".
Definition TOKEN_REGISTERED_TOPIC : Hex := topic "TokenRegistered(address,address,uint16)".

Definition config_advance (owner configAddress : Address) (ctx : TxContext) : M W AdvanceOutcome :=
  if negb (bytesEqual (tx_sender ctx) owner) then revert "not the owner" else
  match tryDecodeCalldata decodeConfig (tx_data ctx) with
  | None => revert "unknown function"
  | Some (setFee_call f) =>
      on_ledger (setFee f);;
      out_log configAddress (mkLog [FEE_SET_TOPIC] (toHex32 f));;
      accept
  | Some (registerPortal_call kind portal) =>
      if negb (kind =? PORTAL_ETHER) && negb (kind =? PORTAL_ERC20) then revert "unknown portal kind" else
      cd ← asks crossDomain;
      if (kind =? PORTAL_ERC20) && bool_decide (is_Some cd) then
        revert "the standard bridge is registered; escrows are exclusive" else
      let aliased := applyL1ToL2Alias portal in
      on_ledger (registerPortal aliased kind);;
      out_log configAddress (mkLog [PORTAL_REGISTERED_TOPIC]
        (encodeAbiParameters [TUint 8; TAddress; TAddress] [VUint kind; VAddress portal; VAddress aliased]));;
      accept
  | Some (registerMessenger_call l1Messenger l1Bridge) =>
      has ← asks hasErc20Portal;
      if (has : bool) then revert "an ERC-20 portal is registered; escrows are exclusive" else
      on_ledger (registerCrossDomain (mkCrossDomain l1Messenger (applyL1ToL2Alias l1Messenger) l1Bridge));;
      out_log configAddress (mkLog [MESSENGER_REGISTERED_TOPIC]
        (encodeAbiParameters [TAddress; TAddress] [VAddress l1Messenger; VAddress l1Bridge]));;
      accept
  | Some (registerToken_call l1Token _ name symbol decimals) =>
      try_catch
        (r ← on_ledger (ledger_registerToken l1Token (Some (mkMetadata name symbol decimals)));
         out_log configAddress (mkLog [TOKEN_REGISTERED_TOPIC; padHex32 l1Token; padHex32 r.2] (toHex32 r.1));;
         accept)
        (fun e => match e with
                  | AccountsDriveError duplicateToken _ => revert "token already registered"
                  | _ => throw e
                  end)
  | Some (setTokenMetadata_call l1Token name symbol decimals) =>
      token ← on_ledger (tokenByL1Address l1Token);
      match token with
      | None => revert "unknown token"
      | Some t => on_ledger (setMetadata (rf_id t) (mkMetadata name symbol decimals));; accept
      end
  | Some fee_call => revert "fee is not a transaction"
  | Some owner_call => revert "owner is not a transaction"
  end.
Definition config_name (call : ConfigCall) : string :=
  match call with
  | setFee_call _ => "setFee" | registerPortal_call _ _ => "registerPortal"
  | registerMessenger_call _ _ => "registerMessenger" | registerToken_call _ _ _ _ _ => "registerToken"
  | setTokenMetadata_call _ _ _ _ => "setTokenMetadata" | fee_call => "fee" | owner_call => "owner"
  end.
Definition config_view (owner : Address) (call : CallContext) : M W ViewOutcome :=
  match tryDecodeCalldata decodeConfig (call_data call) with
  | None => vrevert "unknown function"
  | Some fee_call => f ← asks (fun l => fee (ram l)); vreturn "fee" [VUint f]
  | Some owner_call => vreturn "owner" [VAddress owner]
  | Some c => vrevert (config_name c +:+ " is not a view")
  end.

(** ** Messenger and standard bridge *)
Definition MESSAGE_VERSION : Z := 1.
Definition ETH_BRIDGE_FINALIZED_TOPIC : Hex := topic "ETHBridgeFinalized(address,address,uint256,bytes)".

Definition sendCrossDomainMessage (cd : CrossDomainConfig) (sender target : Address) (message : Hex)
    (minGasLimit value : Z) : M W unit :=
  n ← on_ledger nextMessageNonce;
  let nonce := encodeVersionedNonce n MESSAGE_VERSION in
  let relay := encodeRelayMessage (mkMessage nonce sender target value minGasLimit message) in
  let gas := baseGas (zlen message) minGasLimit in
  out_withdrawal L2_MESSENGER_ADDRESS (l1Messenger cd) value gas relay;;
  out_log L2_MESSENGER_ADDRESS (sentMessageLog target sender message nonce gas);;
  out_log L2_MESSENGER_ADDRESS (sentMessageExtension1Log sender value).

Definition l2bridge_initiate (ctx : TxContext) (cd : CrossDomainConfig) (localToken remoteToken to : Address)
    (amount minGasLimit : Z) (extraData : Hex) : M W AdvanceOutcome :=
  token ← asks (tokenByL2Address localToken);
  match token with
  | Some token =>
      if negb (bytesEqual (rf_l1Token token) remoteToken) then revert "wrong token pair" else
      r ← try_catch (on_ledger (debitToken (tx_sender ctx) (rf_id token) amount);; mret true)
            (fun e => match e with InsufficientFunds _ => mret false | _ => throw e end);
      if negb r then revert "amount exceeds balance" else
      out_log localToken (transferLog (tx_sender ctx) ZERO_ADDRESS amount);;
      out_log L2_BRIDGE_ADDRESS
        (erc20BridgeLog ERC20_BRIDGE_INITIATED_TOPIC localToken remoteToken (tx_sender ctx) to amount extraData);;
      sendCrossDomainMessage cd L2_BRIDGE_ADDRESS (l1Bridge cd)
        (encodeFunctionData "finalizeBridgeERC20"
           [VAddress remoteToken; VAddress localToken; VAddress (tx_sender ctx); VAddress to; VUint amount;
            VBytes extraData])
        minGasLimit 0;;
      accept
  | None => revert "wrong token pair"
  end.
Definition l2bridge_advance (ctx : TxContext) : M W AdvanceOutcome :=
  cd ← asks crossDomain;
  match cd with
  | None => revert "no standard bridge registered"
  | Some cd =>
      match tryDecodeCalldata decodeL2Bridge (tx_data ctx) with
      | None => revert "unknown function"
      | Some (bridgeERC20 localToken remoteToken amount minGasLimit extraData) =>
          l2bridge_initiate ctx cd localToken remoteToken (tx_sender ctx) amount minGasLimit extraData
      | Some (bridgeERC20To localToken remoteToken to amount minGasLimit extraData) =>
          l2bridge_initiate ctx cd localToken remoteToken to amount minGasLimit extraData
      | Some _ => revert "finalize is only callable by the messenger"
      end
  end.
Definition finalizeFromMessenger (m : CrossDomainMessage) (cd : CrossDomainConfig) : M W unit :=
  if negb (bytesEqual (m_sender m) (l1Bridge cd)) then
    throw (JsError "xDomainMessageSender is not the L1 bridge") else
  match tryDecodeCalldata decodeL2Bridge (m_message m) with
  | None => throw (JsError "not a bridge message")
  | Some (finalizeBridgeERC20 localToken remoteToken from to amount extraData) =>
      if negb (m_value m =? 0) then throw (JsError "ERC-20 message carries value") else
      if negb (bytesEqual localToken (l2TokenAddress remoteToken)) then throw (JsError "wrong token pair") else
      id ← on_ledger (token_or_register remoteToken);
      on_ledger (creditToken to id amount);;
      out_log localToken (transferLog ZERO_ADDRESS to amount);;
      out_log L2_BRIDGE_ADDRESS
        (erc20BridgeLog ERC20_BRIDGE_FINALIZED_TOPIC localToken remoteToken from to amount extraData)
  | Some (finalizeBridgeETH from to amount extraData) =>
      if negb (m_value m =? amount) then throw (JsError "value does not match amount") else
      on_ledger (debitEther L2_MESSENGER_ADDRESS amount);;
      on_ledger (creditEther to amount);;
      out_log L2_BRIDGE_ADDRESS
        (mkLog [ETH_BRIDGE_FINALIZED_TOPIC; padHex32 from; padHex32 to]
           (encodeAbiParameters [TUint 256; TBytes] [VUint amount; VBytes extraData]))
  | Some (bridgeERC20 _ _ _ _ _) => throw (JsError "unsupported bridge message bridgeERC20")
  | Some (bridgeERC20To _ _ _ _ _ _) => throw (JsError "unsupported bridge message bridgeERC20To")
  end.

Definition dispatch (m : CrossDomainMessage) (cd : CrossDomainConfig) : M W unit :=
  if bytesEqual (m_target m) L2_BRIDGE_ADDRESS then finalizeFromMessenger m cd else
  if 0 <? zlen (m_message m) then throw (JsError "unsupported relay target") else
  on_ledger (debitEther L2_MESSENGER_ADDRESS (m_value m));;
  on_ledger (creditEther (m_target m) (m_value m)).

(** The admission checks of a relayed message; the revert reason, if any. *)
Definition relay_refused (ctx : TxContext) (cd : CrossDomainConfig) (m : CrossDomainMessage)
    (status : option MessageStatus) : option string :=
  if negb ((decodeVersionedNonce (m_nonce m)).2 =? MESSAGE_VERSION) then
    Some "only version 1 messages are supported" else
  if bool_decide (status = Some successful) then Some "message has already been relayed" else
  if tx_isDeposit ctx && bytesEqual (tx_sender ctx) (l1MessengerAliased cd) then
    if negb (tx_value ctx =? m_value m) then Some "value does not match the message" else
    if bool_decide (status = Some failed) then Some "message already received" else None
  else
    if negb (tx_value ctx =? 0) then Some "value must be zero on replay" else
    if negb (bool_decide (status = Some failed)) then Some "message cannot be replayed" else None.

Definition relay_attempt (cd : CrossDomainConfig) (m : CrossDomainMessage) (hash : Hex) : M W unit :=
  dispatch m cd;;
  on_ledger (setMessageStatus hash successful);;
  out_log L2_MESSENGER_ADDRESS (relayedMessageLog hash false).
Definition relay_failed (hash : Hex) : M W unit :=
  on_ledger (setMessageStatus hash failed);;
  out_log L2_MESSENGER_ADDRESS (relayedMessageLog hash true).
Definition relay (cd : CrossDomainConfig) (m : CrossDomainMessage) (hash : Hex) : M W AdvanceOutcome :=
  mk ← on_ledger mark;
  try_catch (relay_attempt cd m hash)
    (fun _ => on_ledger (rollbackTo mk);; on_ledger afterRollback;; relay_failed hash);;
  accept.
Definition messenger_advance (ctx : TxContext) : M W AdvanceOutcome :=
  cd ← asks crossDomain;
  match cd with
  | None => revert "no messenger registered"
  | Some cd =>
      match tryDecodeCalldata decodeMessenger (tx_data ctx) with
      | Some (relayMessage m) =>
          let hash := hashCrossDomainMessageV1 m in
          status ← asks (messageStatus hash);
          match relay_refused ctx cd m status with
          | Some reason => revert reason
          | None => relay cd m hash
          end
      | _ => revert "unknown function"
      end
  end.
Definition messenger_view (call : CallContext) : M W ViewOutcome :=
  match tryDecodeCalldata decodeMessenger (call_data call) with
  | None => vrevert "unknown function"
  | Some messageNonce_call =>
      n ← asks peekMessageNonce; vreturn "messageNonce" [VUint (encodeVersionedNonce n MESSAGE_VERSION)]
  | Some (successfulMessages_call hash) =>
      s ← asks (messageStatus hash); vreturn "successfulMessages" [VBool (bool_decide (s = Some successful))]
  | Some (failedMessages_call hash) =>
      s ← asks (messageStatus hash); vreturn "failedMessages" [VBool (bool_decide (s = Some failed))]
  | Some (relayMessage _) => vrevert "relayMessage is not a view"
  end.

(** ** L1Block *)
Definition SET_ECOTONE : Hex := toFunctionSelector "setL1BlockValuesEcotone()".
Definition SET_ISTHMUS : Hex := toFunctionSelector "setL1BlockValuesIsthmus()".
Definition u_be (body : bytes) (off n : Z) : Z := readBE (slice off n body).
Definition decode_attributes (body : bytes) : L1Attributes := {|
  at_baseFeeScalar := u_be body 0 4; at_blobBaseFeeScalar := u_be body 4 4;
  at_sequenceNumber := u_be body 8 8; at_timestamp := u_be body 16 8; at_number := u_be body 24 8;
  at_basefee := u_be body 32 32; at_blobBaseFee := u_be body 64 32;
  at_hash := slice 96 32 body; at_batcherHash := slice 128 32 body |}.
Definition l1block_advance (ctx : TxContext) : M W AdvanceOutcome :=
  if zlen (tx_data ctx) <? 4 then revert "unknown function" else
  let selector := slice 0 4 (tx_data ctx) in
  if negb (bytesEqual selector SET_ECOTONE) && negb (bytesEqual selector SET_ISTHMUS) then
    revert "unknown function" else
  let body := drop 4 (tx_data ctx) in
  if zlen body <? 160 then revert "short attributes" else
  modify (set_attributes (Some (decode_attributes body)));;
  accept.
Definition l1block_result (a : L1Attributes) (call : L1BlockCall) : string * AbiValue :=
  match call with
  | b_number => ("number", VUint (at_number a))
  | b_timestamp => ("timestamp", VUint (at_timestamp a))
  | b_basefee => ("basefee", VUint (at_basefee a))
  | b_blobBaseFee => ("blobBaseFee", VUint (at_blobBaseFee a))
  | b_hash => ("hash", VBytes (at_hash a))
  | b_sequenceNumber => ("sequenceNumber", VUint (at_sequenceNumber a))
  | b_batcherHash => ("batcherHash", VBytes (at_batcherHash a))
  | b_baseFeeScalar => ("baseFeeScalar", VUint (at_baseFeeScalar a))
  | b_blobBaseFeeScalar => ("blobBaseFeeScalar", VUint (at_blobBaseFeeScalar a))
  end.
Definition l1block_view (call : CallContext) : M W ViewOutcome :=
  match tryDecodeCalldata decodeL1Block (call_data call) with
  | None => vrevert "unknown function"
  | Some c =>
      a ← gets attributes;
      match a with
      | None => vrevert "no L1 attributes yet"
      | Some a => let r := l1block_result a c in vreturn r.1 [r.2]
      end
  end.

(** ** Application contracts (contract.ts) *)
Inductive Mutability : Type := Pure | View | Nonpayable | Payable.
#[export] Instance Mutability_eq_dec : EqDecision Mutability.
Proof. solve_decision. Defined.
Record ContractSpec : Type := mkSpec {
  spec_address : Address;
  (** [JSON.stringify(spec.abi)] *)
  spec_abi : text;
  spec_payable : bool;
  (** viem's decoder at the contract's ABI: the function's name and arguments. *)
  spec_decode : bytes -> outcome (string * list AbiValue);
  spec_mutability : string -> option Mutability;
  spec_transactions : string -> option (list AbiValue -> TxContext -> M W unit);
  spec_views : string -> option (list AbiValue -> CallContext -> M W (list AbiValue))
}.
(** [new Revert(reason)] and [new Fail(reason)] of a string. *)
Definition Revert_reason (reason : string) : exn := Revert reason (errorRevert reason).
Definition Fail_reason (reason : string) : exn := Fail_ reason (errorRevert reason).

Definition failureOutcome (e : exn) : AdvanceOutcome :=
  match e with
  | Fail_ _ data => OFail data
  | Revert _ data => ORevert data
  | _ => ORevert (errorRevert (message e))
  end.
Definition outcome_data (o : AdvanceOutcome) : Hex :=
  match o with ORevert d | OFail d => d | _ => [] end.
Definition is_readonly (m : option Mutability) : bool := bool_decide (m = Some View \/ m = Some Pure).

Definition contract_advance (spec : ContractSpec) (ctx : TxContext) : M W AdvanceOutcome :=
  match tryDecodeCalldata (spec_decode spec) (tx_data ctx) with
  | None => revert "unknown function"
  | Some (name, args) =>
      if is_readonly (spec_mutability spec name) then revert (name +:+ " is not a transaction") else
      match spec_transactions spec name with
      | None => revert (name +:+ " is not implemented")
      | Some callback =>
          try_catch (callback args ctx;; accept) (fun e => mret (failureOutcome e))
      end
  end.
Definition contract_view (spec : ContractSpec) (call : CallContext) : M W ViewOutcome :=
  match tryDecodeCalldata (spec_decode spec) (call_data call) with
  | None => vrevert "unknown function"
  | Some (name, args) =>
      if negb (is_readonly (spec_mutability spec name)) then vrevert (name +:+ " is not a view") else
      match spec_views spec name with
      | None => vrevert (name +:+ " is not implemented")
      | Some callback =>
          try_catch (r ← callback args call; vreturn name r)
            (fun e => mret (VRevert (outcome_data (failureOutcome e))))
      end
  end.
Definition contractHandler (spec : ContractSpec) : Handler :=
  mkHandler (spec_payable spec) (Some (contract_advance spec)) (Some (contract_view spec)).
End Handlers.
Arguments Handler S App : clear implicits.
Arguments ContractSpec S App : clear implicits.
