(* ===== verification/Router.v ===== *)
(** * The router

    app/src/router.ts: the manifest, resolution of a handler, and the two
    entry points. [advance] parses an input, enforces admission, moves value,
    dispatches and commits one of the outcomes; [inspect] answers a view or
    simulates a transaction and rolls it back. app/src/application.ts adds the
    addresses an application may not claim and the boot registration. *)

From Stdlib Require Import ZArith Lia.
From S2P Require Import Prelude Bytes Store DriveConfig DriveTable Drive DriveFormat Evm Ledger Handlers.

Record RouterConfig : Type := mkRouterConfig { rc_chainId : Z; rc_owner : Address }.
Inductive OutcomeKind : Type := Kaccept | Krevert | Kfail | Kreject | Kopaque.
Record AdvanceResult : Type := mkResult {
  res_accept : bool; res_emissions : list Emission; res_outcome : OutcomeKind; res_reason : option string
}.
Record InspectResult : Type := mkInspect { ins_accept : bool; ins_reports : list Hex }.

Definition kind_name (k : ErrorKind) : string :=
  match k with
  | tableFull => "tableFull" | registryFull => "registryFull" | overflow => "overflow"
  | nonceProtected => "nonceProtected" | duplicateToken => "duplicateToken" | unknownToken => "unknownToken"
  | badWidth => "badWidth" | zeroAddress => "zeroAddress" | profileError => "profile"
  end.
Definition describe (e : exn) : string :=
  match e with AccountsDriveError k _ => "drive: " +:+ kind_name k | _ => message e end.

Definition reject (reason : string) : AdvanceResult := mkResult false [] Kreject (Some reason).
Definition emptyBlock (cid : Z) : BlockContext := mkBlock cid ZERO_ADDRESS 0 0 0 0.

Section Router.
Context {S App : Type} {HS : Store S} {HK : Keccak} {HV : Viem} {HC : Calldata}.
Abbreviation W := (World S App).

(** The handler objects the router holds, and the application's own. *)
Inductive Routed : Type :=
  | RRegistry | RBridge | RConfig | RL1Block | RMessenger | RL2Bridge | RPasser | RPortal | RErc20
  | RApp (h : Handler S App).

Record Router : Type := mkRouter { manifest : list (Address * Routed); rcfg : RouterConfig }.

(** The constructor's manifest, in insertion order. *)
Definition builtin_manifest : list (Address * Routed) :=
  [(REGISTRY_ADDRESS, RRegistry); (BRIDGE_ADDRESS, RBridge); (CONFIG_ADDRESS, RConfig);
   (L1BLOCK_ADDRESS, RL1Block); (L2_MESSENGER_ADDRESS, RMessenger); (L2_BRIDGE_ADDRESS, RL2Bridge);
   (MESSAGE_PASSER_ADDRESS, RPasser)].
Definition newRouter (c : RouterConfig) : Router := mkRouter builtin_manifest c.

Fixpoint manifest_get (m : list (Address * Routed)) (a : Address) : option Routed :=
  match m with
  | [] => None
  | (k, h) :: m => if bytesEqual k a then Some h else manifest_get m a
  end.

Definition register (address : Address) (h : Handler S App) (r : Router) : outcome Router :=
  match manifest_get (manifest r) address with
  | Some _ => Exn (JsError ("address 0x" +:+ bytesToHex address +:+ " is already routed"))
  | None => Val (mkRouter (manifest r ++ [(address, RApp h)]) (rcfg r))
  end.

Definition resolve (r : Router) (to : Address) (block : option BlockContext) (deposit : option Address)
    (l : Ledger S) : option Routed :=
  match manifest_get (manifest r) to with
  | Some h => Some h
  | None =>
      if match block with Some b => bytesEqual to (appContract b) | None => false end then Some RPortal
      else if match deposit with Some s => bool_decide (is_Some (portalKind s l)) | None => false end
      then Some RPortal
      else if bool_decide (is_Some (tokenByL2Address to l)) then Some RErc20
      else None
  end.

Definition routed_payable (h : Routed) : bool :=
  match h with
  | RBridge | RMessenger | RPasser | RPortal => true
  | RRegistry | RConfig | RL1Block | RL2Bridge | RErc20 => false
  | RApp h => payable h
  end.
Definition routed_advance (r : Router) (h : Routed) : option (TxContext -> M W AdvanceOutcome) :=
  match h with
  | RRegistry => None
  | RBridge => Some bridge_advance
  | RConfig => Some (config_advance (rc_owner (rcfg r)) CONFIG_ADDRESS)
  | RL1Block => Some l1block_advance
  | RMessenger => Some messenger_advance
  | RL2Bridge => Some l2bridge_advance
  | RPasser => Some passer_advance
  | RPortal => Some portal_advance
  | RErc20 => Some erc20_advance
  | RApp h => advance h
  end.
(** [registry.lookup] and [registry.list], as the constructor wires them. *)
Definition registry_lookup (r : Router) (a : Address) (l : Ledger S) : option bool :=
  routed_payable <$> resolve r a None None l.
Definition routed_view (r : Router) (h : Routed) : option (CallContext -> M W ViewOutcome) :=
  match h with
  | RRegistry => Some (registry_view (registry_lookup r) (manifest r).*1)
  | RConfig => Some (config_view (rc_owner (rcfg r)))
  | RL1Block => Some l1block_view
  | RMessenger => Some messenger_view
  | RErc20 => Some erc20_view
  | RBridge | RL2Bridge | RPasser | RPortal => None
  | RApp h => view h
  end.

(** ** Advance *)
Definition newSink (idx : Z) : M W unit := modify (set_sink (mkSink [] 0 idx)).
Definition rollbackAll : M W unit := on_ledger rollbackAll_journal;; on_ledger afterRollback.

(** Value transfer and dispatch: the [try] block of [execute]. *)
Definition run_handler (r : Router) (ctx : TxContext) (deposit : option Address) : M W AdvanceOutcome :=
  on_ledger (debitEther (tx_sender ctx) (tx_value ctx));;
  on_ledger (creditEther (tx_to ctx) (tx_value ctx));;
  handler ← asks (resolve r (tx_to ctx) (Some (tx_block ctx)) deposit);
  match handler with
  | None => accept
  | Some h =>
      if (0 <? tx_value ctx) && negb (routed_payable h) then revert "not payable" else
      match routed_advance r h with
      | None => revert "not a transaction target"
      | Some adv => adv ctx
      end
  end.

(** The nonce bump and the fee; [Some] is the rejection when they refuse. *)
Definition charge (chargeable : option (Address * Z)) : M W (option AdvanceResult) :=
  match chargeable with
  | None => mret None
  | Some (addr, f) =>
      try_catch (on_ledger (bumpNonceAndCharge addr f);; mret None)
        (fun e => rollbackAll;; mret (Some (reject (describe e))))
  end.
(** Charge, commit, and report [ok] — or the refusal. *)
Definition settle (chargeable : option (Address * Z)) (ok : Sink -> AdvanceResult) : M W AdvanceResult :=
  refused ← charge chargeable;
  match refused with
  | Some res => mret res
  | None => on_ledger commit;; s ← gets sink; mret (ok s)
  end.

Definition finish (mk : Z) (chargeable : option (Address * Z)) (o : AdvanceOutcome) : M W AdvanceResult :=
  match o with
  | OAccept => settle chargeable (fun s => mkResult true (emissions s) Kaccept None)
  | OFail data =>
      settle chargeable (fun s => mkResult true (emissions s ++ [Report (tagged TAG_FAIL data)]) Kfail None)
  | ORevert data =>
      on_ledger (rollbackTo mk);;
      on_ledger afterRollback;;
      settle chargeable (fun s => mkResult true (reportsOnly s ++ [Report (tagged TAG_REVERT data)]) Krevert None)
  | OReject reason => rollbackAll;; mret (reject reason)
  end.

Definition execute (r : Router) (ctx : TxContext) (mk : Z) (chargeable : option (Address * Z))
    : M W AdvanceResult :=
  newSink (inputIndex (tx_block ctx));;
  o ← try_catch (run_handler r ctx (if tx_isDeposit ctx then Some (tx_sender ctx) else None))
        (fun e => mret (match chargeable with
                        | Some _ => ORevert (errorRevert (describe e))
                        | None => OReject (describe e)
                        end));
  finish mk chargeable o.

Definition advanceDeposit (r : Router) (block : BlockContext) (from : Address) (to : option Address)
    (mint value : Z) (data : bytes) : M W AdvanceResult :=
  match to with
  | None =>
      try_catch (on_ledger (creditEther from mint);; on_ledger commit;; mret (mkResult true [] Kaccept None))
        (fun _ => rollbackAll;; mret (reject "mint refused"))
  | Some to =>
      refused ← try_catch (on_ledger (creditEther from mint);; mret None)
        (fun _ => rollbackAll;; mret (Some (reject "mint refused (drive full)")));
      match refused with
      | Some res => mret res
      | None =>
          afterMint ← on_ledger mark;
          execute r (mkTx block from to value data true mint) afterMint None
      end
  end.

Definition advanceSigned (r : Router) (block : BlockContext) (chain : option Z) (nonce : Z)
    (to : option Address) (value : Z) (data : bytes) (s : Hex) (raw : bytes) : M W AdvanceResult :=
  match to with
  | None => mret (reject "contract creation is not supported")
  | Some to =>
      if match chain with Some c => negb (c =? rc_chainId (rcfg r)) | None => false end then
        mret (reject ("transaction signed for chain " +:+ pretty (default 0 chain))) else
      sender ← liftO (recoverSender s raw);
      match sender with
      | None => mret (reject "signature does not verify")
      | Some sender =>
          acc ← on_ledger (account sender);
          if negb (nonce =? acc.1) then
            mret (reject ("nonce " +:+ pretty nonce +:+ ", account nonce " +:+ pretty acc.1)) else
          f ← asks (fun l => fee (ram l));
          if acc.2 <? f + value then mret (reject "balance does not cover fee and value") else
          mk ← on_ledger mark;
          execute r (mkTx block sender to value data false 0) mk (Some (sender, f))
      end
  end.

Definition advance_input (r : Router) (block : BlockContext) (raw : bytes) : M W AdvanceResult :=
  match parseInput raw with
  | POpaque => mret (mkResult true [Report (tagged TAG_APP raw)] Kopaque None)
  | PRefused reason => mret (reject reason)
  | PDeposit from to mint value data => advanceDeposit r block from to mint value data
  | PSigned _ chain nonce to value data s raw => advanceSigned r block chain nonce to value data s raw
  end.

(** ** Inspect *)
Definition inspect_view (r : Router) (c : DecodedCall) : M W InspectResult :=
  handler ← asks (resolve r (dc_to c) None None);
  match handler with
  | None => mret (mkInspect true [tagged TAG_RETURN []])
  | Some h =>
      match routed_view r h with
      | None => mret (mkInspect false [tagged TAG_REVERT (errorRevert "not a view target")])
      | Some v =>
          try_catch
            (o ← v (mkCall (dc_from c) (dc_to c) (dc_value c) (dc_data c));
             mret (match o with
                   | VReturn data => mkInspect true [tagged TAG_RETURN data]
                   | VRevert data => mkInspect false [tagged TAG_REVERT data]
                   end))
            (fun e => mret (mkInspect false [tagged TAG_REVERT (errorRevert (describe e))]))
      end
  end.
Definition inspect_simulate (r : Router) (lastBlock : option BlockContext) (c : DecodedCall)
    : M W InspectResult :=
  mk ← on_ledger mark;
  let block := default (emptyBlock (rc_chainId (rcfg r))) lastBlock in
  let ctx := mkTx block (dc_from c) (dc_to c) (dc_value c) (dc_data c) false 0 in
  newSink (inputIndex block);;
  o ← try_catch (run_handler r ctx None) (fun e => mret (ORevert (errorRevert (describe e))));
  on_ledger (rollbackTo mk);;
  on_ledger afterRollback;;
  mret (match o with
        | ORevert data => mkInspect false [tagged TAG_REVERT data]
        | OFail data => mkInspect false [tagged TAG_FAIL data]
        | _ => mkInspect true [tagged TAG_RETURN []]
        end).
Definition inspect (r : Router) (lastBlock : option BlockContext) (payload : bytes) : M W InspectResult :=
  match decodeEvmCall payload with
  | None => mret (mkInspect false [tagged TAG_REVERT (errorRevert "not an EvmCall query")])
  | Some c => if dc_simulate c then inspect_simulate r lastBlock c else inspect_view r c
  end.

(** ** Application (application.ts) *)
Definition RESERVED_PREDEPLOYS : list Address :=
  [L1BLOCK_ADDRESS; L2_MESSENGER_ADDRESS; L2_BRIDGE_ADDRESS; MESSAGE_PASSER_ADDRESS].
(** [/^0xc751(00){16}[0-9a-f]{4}$/], on the twenty bytes. *)
Definition inSystemNamespace (address : Address) : bool :=
  (zlen address =? 20) && bytesEqual (slice 0 18 address) ([0xc7; 0x51] ++ zeros 16).
Definition contract (spec : ContractSpec S App) (r : Router) : outcome Router :=
  let address := spec_address spec in
  if inSystemNamespace address || existsb (bytesEqual address) RESERVED_PREDEPLOYS then
    Exn (JsError ("0x" +:+ bytesToHex address +:+ " is reserved by the standard"))
  else register address (contractHandler spec) r.
End Router.
Arguments Routed S App : clear implicits.
Arguments Router S App : clear implicits.
