(* ===== verification/AbiDrive.v ===== *)
(** * The ABI drive

    abi-drive/js/src/index.ts: the drive that records which addresses a guest
    serves and the ABI of each, as a header, a dense index and a heap of UTF-8
    blobs. Its abstraction is the list of its entries, in registration order. *)

From Stdlib Require Import ZArith Lia.
From S2P Require Import Prelude Bytes Text Store Evm.

Definition ABI_DRIVE_MAGIC : string := "ctsiabis".
Definition ABI_DRIVE_VERSION : Z := 1.
Definition KIND_SYSTEM : Z := 0.
Definition KIND_APP : Z := 1.
Definition HEADER_LENGTH : Z := 64.
Definition ENTRY_LENGTH : Z := 32.

Definition abi_kind_name (k : AbiDriveErrorKind) : string :=
  match k with
  | badMagic => "badMagic" | badVersion => "badVersion" | badGeometry => "badGeometry"
  | abiRegistryFull => "registryFull" | heapFull => "heapFull" | abiDuplicate => "duplicate"
  end.
(** [new AbiDriveError(kind, detail)] *)
Definition abi_error (k : AbiDriveErrorKind) (detail : option string) : exn :=
  AbiDriveError k (match detail with Some d => abi_kind_name k +:+ ": " +:+ d | None => abi_kind_name k end).

Record AbiDriveConfig : Type := mkAbiConfig { ac_driveLength : Z; ac_capacity : Z; ac_heapOffset : Z }.
Definition DEVNET_ABI_DRIVE_CONFIG : AbiDriveConfig := mkAbiConfig 262144 64 4096.
Record AbiEntry : Type := mkEntry { e_address : Address; e_kind : Z; e_abi : text }.
#[export] Instance AbiEntry_eq_dec : EqDecision AbiEntry.
Proof. solve_decision. Defined.

Definition u16 (b : bytes) (off : Z) : outcome Z :=
  if (0 <=? off) && (off + 2 <=? zlen b) then Val (le_decode (slice off 2 b)) else Exn RangeError.
Definition u32 (b : bytes) (off : Z) : outcome Z := getLE32 b off.
Definition putU16 (b : bytes) (off v : Z) : outcome bytes := setBytes b (le_encode 2 v) off.
Definition putU32 (b : bytes) (off v : Z) : outcome bytes := setLE32 b off v.

Record AbiDrive (S : Type) : Type := mkAbiDrive {
  ab_store : S; ab_capacity : Z; ab_count : Z; ab_indexOffset : Z; ab_heapOffset : Z; ab_heapLength : Z; ab_heapUsed : Z
}.
Arguments mkAbiDrive {S} ab_store ab_capacity ab_count ab_indexOffset ab_heapOffset ab_heapLength ab_heapUsed.
Arguments ab_store {S} _.
Arguments ab_capacity {S} _.
Arguments ab_count {S} _.
Arguments ab_indexOffset {S} _.
Arguments ab_heapOffset {S} _.
Arguments ab_heapLength {S} _.
Arguments ab_heapUsed {S} _.

Section Operations.
Context {S : Type} {HS : Store S}.
Abbreviation D := (AbiDrive S).

Definition set_store (s : S) (d : D) : D :=
  mkAbiDrive s (ab_capacity d) (ab_count d) (ab_indexOffset d) (ab_heapOffset d) (ab_heapLength d) (ab_heapUsed d).
Definition set_used (count used : Z) (d : D) : D :=
  mkAbiDrive (ab_store d) (ab_capacity d) count (ab_indexOffset d) (ab_heapOffset d) (ab_heapLength d) used.
Definition on_disk {A} (m : M S A) : M D A := zoom ab_store set_store m.

(** ** Format and open *)
Definition abi_encode_header (cfg : AbiDriveConfig) : outcome bytes :=
  h ← setBytes (zeros HEADER_LENGTH) (TextEncoder_encode (ascii_text ABI_DRIVE_MAGIC)) 0;
  h ← putU16 h 8 ABI_DRIVE_VERSION;
  h ← putU32 h 12 (ac_capacity cfg);
  h ← putU32 h 16 0;
  h ← putU32 h 20 HEADER_LENGTH;
  h ← putU32 h 24 (ac_heapOffset cfg);
  h ← putU32 h 28 (ac_driveLength cfg - ac_heapOffset cfg);
  putU32 h 32 0.
Definition abi_format (cfg : AbiDriveConfig) : M S D :=
  let indexEnd := HEADER_LENGTH + ac_capacity cfg * ENTRY_LENGTH in
  if (ac_heapOffset cfg <? indexEnd) || (ac_driveLength cfg <=? ac_heapOffset cfg) then
    throw (abi_error badGeometry (Some ("heap at " +:+ pretty (ac_heapOffset cfg) +:+ ", index ends at " +:+ pretty indexEnd)))
  else
    header ← liftO (abi_encode_header cfg);
    writeAt 0 header;;
    gets (fun s => mkAbiDrive s (ac_capacity cfg) 0 HEADER_LENGTH (ac_heapOffset cfg)
                     (ac_driveLength cfg - ac_heapOffset cfg) 0).

Definition is_magic (b : bytes) : bool := bool_decide (TextDecoder_decode b = ascii_text ABI_DRIVE_MAGIC).
Definition decode_fields (header : bytes) : outcome (S -> D) :=
  if negb (is_magic (slice 0 8 header)) then Exn (abi_error badMagic None) else
  version ← u16 header 8;
  if negb (version =? ABI_DRIVE_VERSION) then Exn (abi_error badVersion (Some ("version " +:+ pretty version))) else
  capacity ← u32 header 12;
  count ← u32 header 16;
  indexOffset ← u32 header 20;
  heapOffset ← u32 header 24;
  heapLength ← u32 header 28;
  heapUsed ← u32 header 32;
  Val (fun s => mkAbiDrive s capacity count indexOffset heapOffset heapLength heapUsed).
Definition abi_open : M S D :=
  header ← readAt 0 HEADER_LENGTH;
  mk ← liftO (decode_fields header);
  gets mk.
Definition openOrFormat (cfg : AbiDriveConfig) : M S D :=
  magic ← readAt 0 8;
  if is_magic magic then abi_open else abi_format cfg.

(** ** Entries *)
Definition entryAt (i : Z) : M D AbiEntry :=
  d ← gets (fun d => d);
  raw ← on_disk (readAt (ab_indexOffset d + i * ENTRY_LENGTH) ENTRY_LENGTH);
  abiOffset ← liftO (u32 raw 22);
  abiLength ← liftO (u32 raw 26);
  blob ← on_disk (readAt abiOffset abiLength);
  mret (mkEntry (slice 0 20 raw) (default 0 (raw !! 20%nat)) (TextDecoder_decode blob)).
(** The loops of [entries] and [entryOf], with [n] iterations left. *)
Fixpoint entries_loop (n : nat) (i : Z) (out : list AbiEntry) : M D (list AbiEntry) :=
  match n with
  | O => mret out
  | Datatypes.S n => e ← entryAt i; entries_loop n (i + 1) (out ++ [e])
  end.
Definition abi_entries : M D (list AbiEntry) :=
  n ← gets ab_count; entries_loop (Z.to_nat n) 0 [].
Fixpoint entryOf_loop (n : nat) (i : Z) (wanted : Address) : M D (option AbiEntry) :=
  match n with
  | O => mret None
  | Datatypes.S n => e ← entryAt i; if bytesEqual (e_address e) wanted then mret (Some e) else entryOf_loop n (i + 1) wanted
  end.
Definition entryOf (address : Address) : M D (option AbiEntry) :=
  n ← gets ab_count; entryOf_loop (Z.to_nat n) 0 address.
Definition abiOf (address : Address) : M D (option text) :=
  e ← entryOf address; mret (e_abi <$> e).

(** ** Registration *)
Definition encode_entry (address : Address) (kind abiOffset abiLength : Z) : outcome bytes :=
  e ← setBytes (zeros ENTRY_LENGTH) address 0;
  let e := patch 20 [kind mod 256] e in
  e ← putU32 e 22 abiOffset;
  putU32 e 26 abiLength.
Definition put_counter (off v : Z) : M D unit :=
  c ← liftO (putU32 (zeros 4) 0 v); on_disk (writeAt off c).
Definition abi_append (address : Address) (kind : Z) (blob : bytes) : M D unit :=
  d ← gets (fun d => d);
  let abiOffset := ab_heapOffset d + ab_heapUsed d in
  on_disk (writeAt abiOffset blob);;
  entry ← liftO (encode_entry address kind abiOffset (zlen blob));
  on_disk (writeAt (ab_indexOffset d + ab_count d * ENTRY_LENGTH) entry);;
  modify (fun d => set_used (ab_count d + 1) (ab_heapUsed d + zlen blob) d);;
  put_counter 16 (ab_count d + 1);;
  put_counter 32 (ab_heapUsed d + zlen blob).
Definition abi_register (address : Address) (kind : Z) (abiJson : text) : M D unit :=
  let blob := TextEncoder_encode abiJson in
  existing ← entryOf address;
  match existing with
  | Some e =>
      if (e_kind e =? kind) && bool_decide (e_abi e = abiJson) then mret tt
      else throw (abi_error abiDuplicate (Some ("0x" +:+ bytesToHex address)))
  | None =>
      d ← gets (fun d => d);
      if ab_capacity d <=? ab_count d then throw (abi_error abiRegistryFull None) else
      if ab_heapLength d <? ab_heapUsed d + zlen blob then throw (abi_error heapFull None) else
      abi_append address kind blob
  end.
End Operations.

(** ** The drive as a list of entries *)
Definition blob (e : AbiEntry) : bytes := TextEncoder_encode (e_abi e).
Definition heap (es : list AbiEntry) : bytes := concat (map blob es).
Definition entry_bytes (e : AbiEntry) (off : Z) : bytes :=
  e_address e ++ [e_kind e; 0] ++ le_encode 4 off ++ le_encode 4 (zlen (blob e)) ++ [0; 0].
(** The index of [es] whose first blob is at [off]. *)
Fixpoint index_of (off : Z) (es : list AbiEntry) : bytes :=
  match es with [] => [] | e :: es => entry_bytes e off ++ index_of (off + zlen (blob e)) es end.
Definition header_of (capacity count heapOffset heapLength heapUsed : Z) : bytes :=
  [0x63; 0x74; 0x73; 0x69; 0x61; 0x62; 0x69; 0x73; 1; 0; 0; 0]
  ++ le_encode 4 capacity ++ le_encode 4 count ++ [64; 0; 0; 0] ++ le_encode 4 heapOffset
  ++ le_encode 4 heapLength ++ le_encode 4 heapUsed ++ zeros 28.

(** An entry the drive gives back as it was: an address, a kind that is a byte,
    and a text the runtime's codec preserves. *)
Record entry_ok (e : AbiEntry) : Prop := mkEntryOk {
  ok_address : is_address (e_address e);
  ok_kind : is_byte (e_kind e);
  ok_text : Forall scalar (e_abi e);
  ok_bom : head (e_abi e) <> Some BOM
}.

Record abi_wf {S} `{StoreReads S} (d : AbiDrive S) (img : bytes) (es : list AbiEntry) : Prop := mkAbiWf {
  aw_holds : holds (ab_store d) img;
  aw_length : ab_heapOffset d + ab_heapLength d <= zlen img;
  aw_u32 : ab_heapOffset d + ab_heapLength d < 2 ^ 32;
  aw_index : ab_indexOffset d = HEADER_LENGTH;
  aw_capacity : 0 <= ab_capacity d /\ HEADER_LENGTH + ab_capacity d * ENTRY_LENGTH <= ab_heapOffset d;
  aw_count : ab_count d = zlen es /\ zlen es <= ab_capacity d;
  aw_used : ab_heapUsed d = zlen (heap es) /\ zlen (heap es) <= ab_heapLength d;
  aw_header : slice 0 HEADER_LENGTH img
    = header_of (ab_capacity d) (zlen es) (ab_heapOffset d) (ab_heapLength d) (zlen (heap es));
  aw_entries : slice HEADER_LENGTH (ENTRY_LENGTH * zlen es) img = index_of (ab_heapOffset d) es;
  aw_heap : slice (ab_heapOffset d) (zlen (heap es)) img = heap es;
  aw_ok : Forall entry_ok es;
  aw_nodup : NoDup (e_address <$> es)
}.

(** [d] with its store still holding [img]. *)
Definition still {S} `{StoreReads S} (d : AbiDrive S) (img : bytes) (d' : AbiDrive S) : Prop :=
  exists s', d' = set_store s' d /\ holds s' img.

(** ** Layout *)
Lemma heap_app es es' : heap (es ++ es') = heap es ++ heap es'.
Proof. unfold heap. by rewrite map_app, concat_app. Qed.
Lemma heap_single e : heap [e] = blob e.
Proof. unfold heap. simpl. apply app_nil_r. Qed.
Lemma index_app off es e : index_of off (es ++ [e]) = index_of off es ++ entry_bytes e (off + zlen (heap es)).
Proof.
  revert off. induction es as [|x es IH]; intros off; simpl.
  - rewrite app_nil_r. f_equal. unfold zlen. simpl. lia.
  - rewrite IH, app_assoc. do 2 f_equal. unfold heap. simpl. rewrite zlen_app. lia.
Qed.
Lemma zlen_entry e off : is_address (e_address e) -> zlen (entry_bytes e off) = 32.
Proof. intros [Ha _]. unfold entry_bytes. rewrite !zlen_app, Ha. reflexivity. Qed.

Lemma index_at off es i e : Forall entry_ok es -> es !! i = Some e ->
  slice (32 * Z.of_nat i) 32 (index_of off es) = entry_bytes e (off + zlen (heap (take i es))).
Proof.
  intros Hok. revert off i. induction Hok as [|x es Hx _ IH]; intros off i; [done|].
  pose proof (zlen_entry x off (ok_address _ Hx)) as Hz. destruct i as [|i]; simpl.
  - intros [= <-]. rewrite slice_app_l by lia. pose proof (slice_full (entry_bytes x off)) as Hf. rewrite Hz in Hf.
    change (32 * Z.of_nat 0) with 0. rewrite Hf. f_equal. unfold zlen. simpl. lia.
  - intros Hi. rewrite slice_app_r by lia. rewrite Hz.
    replace (32 * Z.of_nat (Datatypes.S i) - 32) with (32 * Z.of_nat i) by lia.
    rewrite (IH _ _ Hi). f_equal. unfold heap. simpl. rewrite zlen_app. lia.
Qed.
Lemma heap_at es i e : es !! i = Some e -> slice (zlen (heap (take i es))) (zlen (blob e)) (heap es) = blob e
  /\ zlen (heap (take i es)) + zlen (blob e) <= zlen (heap es).
Proof.
  intros Hi. rewrite <- (take_drop_middle es i e Hi) at 2 4. change (e :: drop (Datatypes.S i) es) with ([e] ++ drop (Datatypes.S i) es).
  rewrite !heap_app, heap_single. split.
  - rewrite slice_app_r by (pose proof (zlen_nonneg (blob e)); lia). rewrite Z.sub_diag.
    rewrite slice_app_l by (pose proof (zlen_nonneg (blob e)); lia). apply slice_full.
  - rewrite !zlen_app. pose proof (zlen_nonneg (heap (drop (Datatypes.S i) es))). lia.
Qed.

(** What [entryAt] reads out of an index entry. *)
Lemma entry_fields e off : is_address (e_address e) -> 0 <= off < 2 ^ 32 -> zlen (blob e) < 2 ^ 32 ->
  slice 0 20 (entry_bytes e off) = e_address e /\ entry_bytes e off !! 20%nat = Some (e_kind e)
  /\ u32 (entry_bytes e off) 22 = Val off /\ u32 (entry_bytes e off) 26 = Val (zlen (blob e)).
Proof.
  intros Haddr Hoff Hb. pose proof (zlen_nonneg (blob e)). unfold u32.
  rewrite !getLE32_val by (rewrite ?zlen_entry by done; lia). unfold entry_bytes. destruct Haddr as [Ha _].
  rewrite (slice_app_l (e_address e) _ 0 20) by lia. rewrite !(slice_app_r (e_address e)) by lia. rewrite Ha.
  split_and!.
  - pose proof (slice_full (e_address e)) as Hf. by rewrite Ha in Hf.
  - unfold zlen in Ha. rewrite lookup_app_r by lia. by replace (20 - length (e_address e))%nat with 0%nat by lia.
  - f_equal. change (slice (22 - 20) 4 _) with (le_encode 4 off). rewrite le_decode_encode. apply Z.mod_small. lia.
  - f_equal. change (slice (26 - 20) 4 _) with (le_encode 4 (zlen (blob e))). rewrite le_decode_encode. apply Z.mod_small. lia.
Qed.

Lemma encode_entry_val e off : is_address (e_address e) -> is_byte (e_kind e) ->
  encode_entry (e_address e) (e_kind e) off (zlen (blob e)) = Val (entry_bytes e off).
Proof.
  intros [Ha _] Hk. unfold encode_entry, entry_bytes, is_byte in *. rewrite Z.mod_small by lia.
  generalize (zlen (blob e)). intros n. destruct e as [a k t]. simpl e_address in *. simpl e_kind in *.
  unfold zlen in Ha. do 20 (destruct a as [|? a]; [simpl in Ha; lia|]). destruct a; [|simpl in Ha; lia]. reflexivity.
Qed.
