(* ===== verification/AbiDriveSpec.v ===== *)
(** * The ABI drive keeps a list of entries

    Every operation of [AbiDrive], over a store that reads and writes exactly,
    against the list of entries the drive's bytes stand for. *)

From Stdlib Require Import ZArith Lia.
From S2P Require Import Prelude Bytes Text Store Evm AbiDrive.

Section AbiDriveSpec.
Context {S : Type} {HS : Store S} {HR : StoreReads S}.
Implicit Types d : AbiDrive S.
Implicit Types es : list AbiEntry.

Lemma still_refl d img : holds (ab_store d) img -> still d img d.
Proof. intros Hh. exists (ab_store d). split; [by destruct d|done]. Qed.
Lemma still_trans d1 d2 d3 img img' : still d1 img d2 -> still d2 img' d3 -> still d1 img' d3.
Proof. intros (s1 & -> & _) (s2 & -> & Hh). by exists s2. Qed.
Lemma still_wf d img es d' : abi_wf d img es -> still d img d' -> abi_wf d' img es.
Proof. intros [] (s' & -> & Hh). by constructor. Qed.

Lemma disk_read d img off len : holds (ab_store d) img -> fits off len (zlen img) ->
  returns (on_disk (readAt off len)) d (fun b d' => b = slice off len img /\ still d img d').
Proof.
  intros Hh Hf. apply returns_zoom. eapply returns_mono; [by apply readAt_spec|]. intros b s' [-> Hs]. split; [done|by exists s'].
Qed.

Lemma entryAt_spec d img es i e : abi_wf d img es -> es !! i = Some e ->
  returns (entryAt (Z.of_nat i)) d (fun r d' => r = e /\ still d img d').
Proof.
  intros Hwf Hi. pose proof Hwf as [Hh Hlen Hu Hix [Hcap Hend] [Hcnt Hle] [Hused Hheap] Hhd Hes Hhp Hok _].
  pose proof (lookup_lt_Some _ _ _ Hi) as Hlt. pose proof (Forall_lookup_1 _ _ _ _ Hok Hi) as [Ha Hk Ht Hb].
  destruct (heap_at es i e Hi) as [Hblob Hin]. pose proof (zlen_nonneg (heap (take i es))).
  pose proof (zlen_nonneg (blob e)). unfold HEADER_LENGTH, ENTRY_LENGTH in *.
  destruct (entry_fields e (ab_heapOffset d + zlen (heap (take i es))) Ha) as (Hf1 & Hf2 & Hf3 & Hf4); [lia..|].
  assert (Hraw : slice (64 + 32 * Z.of_nat i) 32 img = entry_bytes e (ab_heapOffset d + zlen (heap (take i es)))).
  { rewrite <- (index_at (ab_heapOffset d) es i e Hok Hi), <- Hes, slice_slice by (unfold zlen in *; lia). done. }
  unfold entryAt. apply returns_bind, returns_gets. rewrite Hix.
  apply returns_bind. eapply returns_mono; [apply disk_read; [done|unfold fits, HEADER_LENGTH, ENTRY_LENGTH, zlen in *; lia]|].
  intros raw d1 [-> Hd1]. unfold HEADER_LENGTH, ENTRY_LENGTH. rewrite (Z.mul_comm (Z.of_nat i)), Hraw.
  apply returns_bind. eapply returns_lift; [done|]. apply returns_bind. eapply returns_lift; [done|].
  apply returns_bind. eapply returns_mono; [apply disk_read; [apply (still_wf _ _ _ _ Hwf Hd1)|unfold fits; lia]|].
  intros bl d2 [-> Hd2]. apply returns_ret. split; [|by eapply still_trans]. rewrite Hf1, Hf2.
  replace (slice _ (zlen (blob e)) img) with (blob e).
  - unfold blob. rewrite decode_encode by done. by destruct e.
  - rewrite <- Hblob at 1. rewrite <- Hhp, slice_slice by lia. done.
Qed.

Lemma entries_loop_spec d img es n i out : abi_wf d img es -> (i + n)%nat = length es ->
  returns (entries_loop n (Z.of_nat i) out) d (fun r d' => r = out ++ drop i es /\ still d img d').
Proof.
  revert d i out. induction n as [|n IH]; intros d i out Hwf Hn; simpl.
  - apply returns_ret. rewrite drop_ge, app_nil_r by lia. split; [done|apply still_refl, Hwf].
  - destruct (lookup_lt_is_Some_2 es i) as [e He]; [lia|]. apply returns_bind.
    eapply returns_mono; [by eapply entryAt_spec|]. intros r d1 [-> Hd1].
    replace (Z.of_nat i + 1) with (Z.of_nat (Datatypes.S i)) by lia.
    eapply returns_mono; [apply IH; [by eapply still_wf|lia]|]. intros r d2 [-> Hd2]. split; [|by eapply still_trans].
    rewrite (drop_S es e i He). by rewrite <- app_assoc.
Qed.

(** [entries] lists the entries. *)
Lemma entries_spec d img es : abi_wf d img es -> returns abi_entries d (fun r d' => r = es /\ still d img d').
Proof.
  intros Hwf. unfold abi_entries. apply returns_bind, returns_gets. destruct (aw_count _ _ _ Hwf) as [-> _].
  unfold zlen. rewrite Nat2Z.id. apply (entries_loop_spec d img es _ 0 [] Hwf). lia.
Qed.

Lemma entryOf_loop_spec d img es a n i : abi_wf d img es -> (i + n)%nat = length es ->
  returns (entryOf_loop n (Z.of_nat i) a) d (fun r d' =>
    r = snd <$> list_find (fun e => e_address e = a) (drop i es) /\ still d img d').
Proof.
  revert d i. induction n as [|n IH]; intros d i Hwf Hn; simpl.
  - apply returns_ret. rewrite drop_ge by lia. split; [done|apply still_refl, Hwf].
  - destruct (lookup_lt_is_Some_2 es i) as [e He]; [lia|]. apply returns_bind.
    eapply returns_mono; [by eapply entryAt_spec|]. intros r d1 [-> Hd1]. rewrite (drop_S es e i He). simpl.
    destruct (bytesEqual (e_address e) a) eqn:Hb.
    + apply bytesEqual_eq in Hb. apply returns_ret. by rewrite decide_True.
    + assert (e_address e <> a) by (intros Hx; apply bytesEqual_eq in Hx; congruence).
      replace (Z.of_nat i + 1) with (Z.of_nat (Datatypes.S i)) by lia. rewrite decide_False by done.
      eapply returns_mono; [apply IH; [by eapply still_wf|lia]|]. intros r d2 [-> Hd2]. split; [|by eapply still_trans].
      by destruct (list_find _ _) as [[]|].
Qed.

(** The entry of an address, among [es]. *)
Definition entry_for es a : option AbiEntry := snd <$> list_find (fun e => e_address e = a) es.

Lemma entryOf_spec d img es a : abi_wf d img es ->
  returns (entryOf a) d (fun r d' => r = entry_for es a /\ still d img d').
Proof.
  intros Hwf. unfold entryOf. apply returns_bind, returns_gets. destruct (aw_count _ _ _ Hwf) as [-> _].
  unfold zlen. rewrite Nat2Z.id. apply (entryOf_loop_spec d img es a _ 0 Hwf). lia.
Qed.

Lemma entry_for_Some es a e : entry_for es a = Some e -> e ∈ es /\ e_address e = a.
Proof.
  unfold entry_for. destruct (list_find _ _) as [[i x]|] eqn:Hf; [|done]. intros [= <-].
  apply list_find_Some in Hf as (Hi & Ha & _). split; [by eapply list_elem_of_lookup_2|done].
Qed.
Lemma entry_for_None es a : entry_for es a = None <-> a ∉ e_address <$> es.
Proof.
  unfold entry_for. rewrite fmap_None, list_find_None, Forall_forall. split.
  - intros H Hin. apply list_elem_of_fmap in Hin as (e & -> & He). by apply (H e He).
  - intros H e He Ha. apply H. subst a. by apply list_elem_of_fmap_2.
Qed.

(** ** Writes *)
Context {HW : StoreWrites S}.

Lemma disk_write d img off bs : holds (ab_store d) img -> fits off (zlen bs) (zlen img) ->
  returns (on_disk (writeAt off bs)) d (fun _ d' => still d (patch off bs img) d').
Proof. intros Hh Hf. apply returns_zoom. eapply returns_mono; [by apply writeAt_spec|]. intros [] s' Hs. by exists s'. Qed.

Lemma put_counter_spec d img off v : holds (ab_store d) img -> fits off 4 (zlen img) ->
  returns (put_counter off v) d (fun _ d' => still d (patch off (le_encode 4 v) img) d').
Proof.
  intros Hh Hf. unfold put_counter. apply returns_bind. eapply returns_lift; [reflexivity|]. by apply disk_write.
Qed.

(** The image after [append]: the blob, the index entry, the two counters. *)
Definition appended d img (n : Z) (e : AbiEntry) : bytes :=
  let used := ab_heapUsed d in
  patch 32 (le_encode 4 (used + zlen (blob e))) (patch 16 (le_encode 4 (n + 1))
    (patch (HEADER_LENGTH + n * ENTRY_LENGTH) (entry_bytes e (ab_heapOffset d + used))
      (patch (ab_heapOffset d + used) (blob e) img))).

(** What the append leaves where. *)
Lemma appended_slices d img es e : abi_wf d img es -> entry_ok e -> zlen es < ab_capacity d ->
  zlen (heap es) + zlen (blob e) <= ab_heapLength d ->
  let img' := appended d img (zlen es) e in
  zlen img' = zlen img
  /\ slice 0 HEADER_LENGTH img' = patch 32 (le_encode 4 (zlen (heap es) + zlen (blob e)))
       (patch 16 (le_encode 4 (zlen es + 1)) (slice 0 HEADER_LENGTH img))
  /\ slice HEADER_LENGTH (ENTRY_LENGTH * zlen es) img' = slice HEADER_LENGTH (ENTRY_LENGTH * zlen es) img
  /\ slice (HEADER_LENGTH + ENTRY_LENGTH * zlen es) ENTRY_LENGTH img' = entry_bytes e (ab_heapOffset d + zlen (heap es))
  /\ slice (ab_heapOffset d) (zlen (heap es)) img' = slice (ab_heapOffset d) (zlen (heap es)) img
  /\ slice (ab_heapOffset d + zlen (heap es)) (zlen (blob e)) img' = blob e.
Proof.
  intros [Hh Hlen Hu Hix [Hcap Hend] [Hcnt Hle] [Hused Hheap] Hhd Hes Hhp Hok _] [Ha _ _ _] Hroom Hfit.
  pose proof (zlen_entry e (ab_heapOffset d + zlen (heap es)) Ha) as Hz.
  pose proof (zlen_nonneg (blob e)). pose proof (zlen_nonneg (heap es)). pose proof (zlen_nonneg es).
  unfold appended. rewrite Hused. unfold HEADER_LENGTH, ENTRY_LENGTH in *.
  set (i1 := patch (ab_heapOffset d + zlen (heap es)) (blob e) img).
  assert (Hl1 : zlen i1 = zlen img) by (apply zlen_patch; unfold fits; lia).
  set (i2 := patch (64 + zlen es * 32) _ i1).
  assert (Hl2 : zlen i2 = zlen img) by (unfold i2; rewrite zlen_patch; [done|unfold fits; lia]).
  set (i3 := patch 16 _ i2). assert (Hl3 : zlen i3 = zlen img) by (unfold i3; rewrite zlen_patch; [done|unfold fits; rewrite zlen_le_encode; lia]).
  assert (Hl4 : zlen (patch 32 (le_encode 4 (zlen (heap es) + zlen (blob e))) i3) = zlen img)
    by (rewrite zlen_patch; [done|unfold fits; rewrite zlen_le_encode; lia]).
  assert (Hfar : forall o n, 64 <= o -> 0 <= n -> slice o n (patch 32 (le_encode 4 (zlen (heap es) + zlen (blob e))) i3) = slice o n i2).
  { intros o n Ho Hn. rewrite slice_patch_ne by (unfold fits, disjoint_ranges; rewrite ?zlen_le_encode; lia).
    unfold i3. by rewrite slice_patch_ne by (unfold fits, disjoint_ranges; rewrite ?zlen_le_encode; lia). }
  split_and!; [done|..].
  - rewrite (slice_patch_in 0 64 32) by (unfold fits; rewrite ?zlen_le_encode; lia). f_equal. unfold i3.
    rewrite (slice_patch_in 0 64 16) by (unfold fits; rewrite ?zlen_le_encode; lia). f_equal. unfold i2.
    rewrite slice_patch_ne by (unfold fits, disjoint_ranges; lia). unfold i1. by rewrite slice_patch_ne by (unfold fits, disjoint_ranges; lia).
  - rewrite Hfar by lia. unfold i2. rewrite slice_patch_ne by (unfold fits, disjoint_ranges; lia).
    unfold i1. by rewrite slice_patch_ne by (unfold fits, disjoint_ranges; lia).
  - rewrite Hfar by lia. unfold i2. rewrite (Z.mul_comm 32).
    pose proof (slice_patch_same (64 + zlen es * 32) (entry_bytes e (ab_heapOffset d + zlen (heap es))) i1) as Hs.
    rewrite Hz in Hs. apply Hs. unfold fits. lia.
  - rewrite Hfar by lia. unfold i2. rewrite slice_patch_ne by (unfold fits, disjoint_ranges; lia).
    unfold i1. by rewrite slice_patch_ne by (unfold fits, disjoint_ranges; lia).
  - rewrite Hfar by lia. unfold i2. rewrite slice_patch_ne by (unfold fits, disjoint_ranges; lia).
    apply slice_patch_same. unfold fits. lia.
Qed.

Lemma appended_wf d img es e s' : abi_wf d img es -> entry_ok e -> zlen es < ab_capacity d ->
  zlen (heap es) + zlen (blob e) <= ab_heapLength d -> e_address e ∉ e_address <$> es ->
  holds s' (appended d img (zlen es) e) ->
  abi_wf (set_store s' (set_used (ab_count d + 1) (ab_heapUsed d + zlen (blob e)) d)) (appended d img (zlen es) e) (es ++ [e]).
Proof.
  intros Hwf He Hroom Hfit Hnew Hs. destruct (appended_slices d img es e Hwf He Hroom Hfit) as (Hl & H1 & H2 & H3 & H4 & H5).
  destruct Hwf as [Hh Hlen Hu Hix [Hcap Hend] [Hcnt Hle] [Hused Hheap] Hhd Hes Hhp Hok Hnd].
  assert (Hz : zlen (es ++ [e]) = zlen es + 1) by (by rewrite zlen_app).
  assert (Hhz : zlen (heap (es ++ [e])) = zlen (heap es) + zlen (blob e)) by (by rewrite heap_app, heap_single, zlen_app).
  pose proof (zlen_nonneg es). pose proof (zlen_nonneg (heap es)). pose proof (zlen_nonneg (blob e)).
  constructor; cbn [ab_store ab_capacity ab_count ab_indexOffset ab_heapOffset ab_heapLength ab_heapUsed set_store set_used];
    rewrite ?Hz, ?Hhz, ?Hl; try done; try lia.
  - rewrite H1, Hhd. reflexivity.
  - rewrite Z.mul_add_distr_l, slice_split by (unfold HEADER_LENGTH, ENTRY_LENGTH; lia).
    rewrite H2, Hes, index_app. f_equal. exact H3.
  - rewrite slice_split by (unfold HEADER_LENGTH in *; unfold ENTRY_LENGTH in *; lia).
    rewrite H4, H5, Hhp, heap_app, heap_single. done.
  - apply Forall_app. split; [done|]. by constructor.
  - rewrite fmap_app. apply NoDup_app. split_and!; [done| |apply NoDup_singleton].
    intros x Hx Hx'. apply list_elem_of_singleton in Hx'. by subst x.
Qed.

Lemma append_spec d img es e : abi_wf d img es -> entry_ok e -> zlen es < ab_capacity d ->
  zlen (heap es) + zlen (blob e) <= ab_heapLength d -> e_address e ∉ e_address <$> es ->
  returns (abi_append (e_address e) (e_kind e) (blob e)) d (fun _ d' => exists img', abi_wf d' img' (es ++ [e])
    /\ ab_capacity d' = ab_capacity d /\ ab_heapOffset d' = ab_heapOffset d /\ ab_heapLength d' = ab_heapLength d).
Proof.
  intros Hwf He Hroom Hfit Hnew. pose proof Hwf as [Hh Hlen Hu Hix [Hcap Hend] [Hcnt Hle] [Hused Hheap] _ _ _ _ _].
  pose proof (zlen_nonneg (blob e)). pose proof (zlen_nonneg (heap es)). pose proof (zlen_nonneg es).
  pose proof (zlen_entry e (ab_heapOffset d + ab_heapUsed d) (ok_address _ He)) as Hz.
  unfold HEADER_LENGTH, ENTRY_LENGTH in *.
  unfold abi_append. apply returns_bind, returns_gets. apply returns_bind.
  eapply returns_mono; [apply disk_write; [done|unfold fits; lia]|]. intros [] d1 (s1 & -> & Hs1).
  apply returns_bind. eapply returns_lift; [apply encode_entry_val; apply He|].
  apply returns_bind. eapply returns_mono; [apply disk_write; [exact Hs1|rewrite zlen_patch; unfold fits, ENTRY_LENGTH; lia]|].
  intros [] d2 (s2 & -> & Hs2). apply returns_bind, returns_modify. apply returns_bind.
  eapply returns_mono; [apply put_counter_spec; [exact Hs2|rewrite !zlen_patch; unfold fits; rewrite ?zlen_patch; unfold fits, ENTRY_LENGTH; lia]|].
  intros [] d3 (s3 & -> & Hs3).
  eapply returns_mono; [apply put_counter_spec; [exact Hs3|]|].
  { rewrite !zlen_patch; unfold fits; rewrite ?zlen_patch, ?zlen_le_encode; unfold fits, ENTRY_LENGTH; rewrite ?zlen_patch; unfold fits; lia. }
  intros [] d4 (s4 & -> & Hs4). exists (appended d img (zlen es) e). split; [|done].
  pose proof (appended_wf d img es e s4 Hwf He Hroom Hfit Hnew) as Hw. apply Hw. unfold appended.
  cbn [ab_heapUsed ab_heapOffset ab_indexOffset ab_count] in Hs4. by rewrite Hix, Hcnt in Hs4.
Qed.

(** ** Registration *)
Definition same_geometry d d' : Prop :=
  ab_capacity d' = ab_capacity d /\ ab_heapOffset d' = ab_heapOffset d /\ ab_heapLength d' = ab_heapLength d.

(** Why a registration is refused. *)
Definition abi_refused d es e (x : exn) : Prop :=
  x = abi_error abiDuplicate (Some ("0x" +:+ bytesToHex (e_address e)))
    /\ (exists e', e' ∈ es /\ e_address e' = e_address e /\ e' <> e)
  \/ e_address e ∉ e_address <$> es /\
     (x = abi_error abiRegistryFull None /\ zlen es = ab_capacity d
      \/ x = abi_error heapFull None /\ zlen es < ab_capacity d /\ ab_heapLength d < zlen (heap es) + zlen (blob e)).

Lemma register_spec d img es e : abi_wf d img es -> entry_ok e ->
  wp (abi_register (e_address e) (e_kind e) (e_abi e)) d (fun o d' => match o with
    | Val _ => e ∈ es /\ still d img d'
        \/ e_address e ∉ e_address <$> es /\ (exists img', abi_wf d' img' (es ++ [e])) /\ same_geometry d d'
    | Exn x => abi_refused d es e x /\ still d img d'
    | Diverge => False end).
Proof.
  intros Hwf He. unfold abi_register. apply wp_bind. eapply wp_returns; [by apply entryOf_spec|].
  intros r d1 [-> Hd1]. pose proof (still_wf _ _ _ _ Hwf Hd1) as Hwf1.
  destruct Hd1 as (s1 & -> & Hs1). destruct (entry_for es (e_address e)) as [e'|] eqn:Hfor.
  - apply entry_for_Some in Hfor as [Hin Ha]. destruct ((e_kind e' =? e_kind e) && _) eqn:Heq.
    + apply andb_prop in Heq as [Hk%Z.eqb_eq Ht%bool_decide_eq_true]. left. split; [|by exists s1].
      replace e with e'; [done|]. destruct e, e'. simpl in *. by subst.
    + split; [|by exists s1]. left. split; [done|]. exists e'. split_and!; [done..|]. intros ->.
      rewrite Z.eqb_refl, bool_decide_eq_true_2 in Heq by done. done.
  - apply entry_for_None in Hfor. apply wp_bind. cbn [wp gets]. unfold wp at 1. simpl.
    destruct (aw_count _ _ _ Hwf1) as [Hc1 Hc2], (aw_used _ _ _ Hwf1) as [Hu1 Hu2]. simpl in Hc1, Hc2, Hu1, Hu2.
    rewrite Hc1, Hu1. destruct (Z.leb_spec (ab_capacity d) (zlen es)).
    { split; [right; split; [done|]; left; split; [done|lia]|by exists s1]. }
    destruct (Z.ltb_spec (ab_heapLength d) (zlen (heap es) + zlen (TextEncoder_encode (e_abi e)))).
    { split; [right; split; [done|]; right; by split_and!|by exists s1]. }
    eapply wp_returns; [by apply (append_spec (set_store s1 d) img es e Hwf1)|].
    intros [] d' (img' & Hw & ? & ? & ?). right. split; [done|]. split; [by exists img'|by split_and!].
Qed.

(** ** Format and open *)
Definition abi_geometry (cfg : AbiDriveConfig) : Prop :=
  HEADER_LENGTH + ac_capacity cfg * ENTRY_LENGTH <= ac_heapOffset cfg < ac_driveLength cfg.

Lemma abi_header_val cfg : abi_encode_header cfg
  = Val (header_of (ac_capacity cfg) 0 (ac_heapOffset cfg) (ac_driveLength cfg - ac_heapOffset cfg) 0).
Proof. reflexivity. Qed.

Lemma abi_format_spec (s : S) img cfg : holds s img -> abi_geometry cfg -> 0 <= ac_capacity cfg ->
  ac_driveLength cfg <= zlen img -> ac_driveLength cfg < 2 ^ 32 ->
  returns (abi_format cfg) s (fun d s' => s' = ab_store d /\ (exists img', abi_wf d img' [])
    /\ ab_capacity d = ac_capacity cfg /\ ab_heapLength d = ac_driveLength cfg - ac_heapOffset cfg).
Proof.
  intros Hh [Hg1 Hg2] Hcap Hlen Hu. unfold abi_format. rewrite (proj2 (Z.ltb_ge _ _)), (proj2 (Z.leb_gt _ _)) by lia. cbn [orb].
  apply returns_bind. eapply returns_lift; [apply abi_header_val|]. set (h := header_of _ _ _ _ _).
  assert (Hz : zlen h = 64) by reflexivity. unfold HEADER_LENGTH, ENTRY_LENGTH in *.
  apply returns_bind. eapply returns_mono; [apply writeAt_spec; [done|unfold fits; lia]|]. intros [] s1 Hs1.
  apply returns_gets. split_and!; try done. exists (patch 0 h img).
  assert (Hp : slice 0 64 (patch 0 h img) = h) by (rewrite <- Hz; apply slice_patch_same; unfold fits; lia).
  constructor; cbn [ab_store ab_capacity ab_count ab_indexOffset ab_heapOffset ab_heapLength ab_heapUsed];
    unfold HEADER_LENGTH, ENTRY_LENGTH; rewrite ?zlen_patch by (unfold fits; lia);
    change (zlen (heap [])) with 0; change (zlen (@nil AbiEntry)) with 0; try done; try lia; constructor.
Qed.

Lemma header_fields_val cap cnt hoff hlen used :
  0 <= cap < 2 ^ 32 -> 0 <= cnt < 2 ^ 32 -> 0 <= hoff < 2 ^ 32 -> 0 <= hlen < 2 ^ 32 -> 0 <= used < 2 ^ 32 ->
  exists mk, decode_fields (header_of cap cnt hoff hlen used) = Val mk /\ forall s : S, mk s = mkAbiDrive s cap cnt 64 hoff hlen used.
Proof.
  intros. assert (Hf : forall v, 0 <= v < 2 ^ 32 -> le_decode (le_encode 4 v) = v)
    by (intros v Hv; rewrite le_decode_encode; apply Z.mod_small; lia).
  eexists. split; [reflexivity|]. intros s'. cbv beta. f_equal; by apply Hf.
Qed.

Lemma abi_open_spec d img es : abi_wf d img es ->
  returns abi_open (ab_store d) (fun d' s' => s' = ab_store d' /\ still d img d').
Proof.
  intros [Hh Hlen Hu Hix [Hcap Hend] [Hcnt Hle] [Hused Hheap] Hhd _ _ _ _].
  pose proof (zlen_nonneg es). pose proof (zlen_nonneg (heap es)). unfold HEADER_LENGTH, ENTRY_LENGTH in *.
  unfold abi_open. apply returns_bind. eapply returns_mono; [apply readAt_spec; [done|unfold fits, HEADER_LENGTH; lia]|].
  intros h s1 [-> Hs1]. unfold HEADER_LENGTH. rewrite Hhd.
  destruct (header_fields_val (ab_capacity d) (zlen es) (ab_heapOffset d) (ab_heapLength d) (zlen (heap es)))
    as (mk & Hmk & Hd); [lia..|].
  apply returns_bind. eapply returns_lift; [exact Hmk|]. apply returns_gets. rewrite Hd. split; [done|].
  exists s1. split; [|done]. destruct d. simpl in *. by subst.
Qed.

Lemma header_magic cap cnt hoff hlen used : is_magic (slice 0 8 (header_of cap cnt hoff hlen used)) = true.
Proof. reflexivity. Qed.

(** A device that holds an ABI drive is opened, another is formatted. *)
Lemma openOrFormat_open d img es cfg : abi_wf d img es ->
  returns (openOrFormat cfg) (ab_store d) (fun d' s' => s' = ab_store d' /\ still d img d').
Proof.
  intros Hwf. pose proof Hwf as [Hh Hlen Hu Hix [Hcap Hend] [Hcnt Hle] [Hused Hheap] Hhd _ _ _ _].
  pose proof (zlen_nonneg (heap es)). unfold HEADER_LENGTH, ENTRY_LENGTH in *.
  unfold openOrFormat. apply returns_bind. eapply returns_mono; [apply readAt_spec; [done|unfold fits; lia]|].
  intros m s1 [-> Hs1]. replace (slice 0 8 img) with (slice 0 8 (slice 0 64 img)) by (by rewrite slice_slice by lia).
  rewrite Hhd, header_magic.
  eapply returns_mono; [apply (abi_open_spec (set_store s1 d) img es); eapply still_wf; [done|by exists s1]|].
  intros d' s' [-> (s2 & -> & Hs2)]. split; [done|by exists s2].
Qed.
Lemma openOrFormat_format (s : S) img cfg : holds s img -> is_magic (slice 0 8 img) = false -> abi_geometry cfg ->
  0 <= ac_capacity cfg -> ac_driveLength cfg <= zlen img -> ac_driveLength cfg < 2 ^ 32 ->
  returns (openOrFormat cfg) s (fun d s' => s' = ab_store d /\ (exists img', abi_wf d img' [])
    /\ ab_capacity d = ac_capacity cfg /\ ab_heapLength d = ac_driveLength cfg - ac_heapOffset cfg).
Proof.
  intros Hh Hm Hg Hcap Hlen Hu. pose proof Hg as [Hg1 Hg2]. unfold HEADER_LENGTH, ENTRY_LENGTH in *.
  unfold openOrFormat. apply returns_bind. eapply returns_mono; [apply readAt_spec; [done|unfold fits; lia]|].
  intros m s1 [-> Hs1]. rewrite Hm. by eapply abi_format_spec.
Qed.
End AbiDriveSpec.
