(* ===== verification/Application.v ===== *)
(** * The application

    app/src/application.ts: the drives and the router assembled at boot, the
    built-in contracts recorded in the ABI drive, the application's contracts
    routed and recorded, and the two callbacks of the rollup loop; and the
    counter contract of demo/src/index.ts. *)

From Stdlib Require Import ZArith Lia.
From S2P Require Import Prelude Bytes Text Store DriveConfig DriveTable Drive DriveFormat Evm Ledger Handlers Router AbiDrive.

(** [JSON.stringify] of each built-in ABI that viem's [parseAbi] yields. *)
Class BuiltinAbis : Type := {
  registryAbi : text; bridgeAbi : text; configAbi : text; l1BlockAbi : text;
  l2CrossDomainMessengerAbi : text; l2StandardBridgeAbi : text; messagePasserAbi : text
}.
Definition BUILTINS {HB : BuiltinAbis} : list (Address * text) :=
  [(REGISTRY_ADDRESS, registryAbi); (BRIDGE_ADDRESS, bridgeAbi); (CONFIG_ADDRESS, configAbi); (L1BLOCK_ADDRESS, l1BlockAbi);
   (L2_MESSENGER_ADDRESS, l2CrossDomainMessengerAbi); (L2_BRIDGE_ADDRESS, l2StandardBridgeAbi);
   (MESSAGE_PASSER_ADDRESS, messagePasserAbi)].

(** The accounts drive's store is [S], the ABI drive's [T]. *)
Record Application (S T App : Type) : Type := mkApplication {
  ap_ledger : Ledger S; ap_router : Router S App; ap_abiDrive : AbiDrive T
}.
Arguments mkApplication {S T App} ap_ledger ap_router ap_abiDrive.
Arguments ap_ledger {S T App} _.
Arguments ap_router {S T App} _.
Arguments ap_abiDrive {S T App} _.

Section Application.
Context {S T App : Type} {HS : Store S} {HT : Store T} {HK : Keccak} {HV : Viem} {HC : Calldata} {HB : BuiltinAbis}.
Abbreviation A := (Application S T App).

(** ** Boot *)
Fixpoint record_all (l : list (Address * text)) : M (AbiDrive T) unit :=
  match l with
  | [] => mret tt
  | (address, abi) :: l => abi_register address KIND_SYSTEM abi;; record_all l
  end.
(** [m] run on the drive [d] over the current store. *)
Definition with_abi (d : AbiDrive T) (m : M (AbiDrive T) unit) : M T (AbiDrive T) := fun s =>
  match m (set_store s d) with
  | (Val _, d') => (Val d', ab_store d')
  | (Exn e, d') => (Exn e, ab_store d')
  | (Diverge, d') => (Diverge, ab_store d')
  end.
Definition assemble (l : Ledger S) (rc : RouterConfig) (cfg : AbiDriveConfig) : M T A :=
  abiDrive ← openOrFormat cfg;
  abiDrive ← with_abi abiDrive (record_all BUILTINS);
  mret (mkApplication l (newRouter rc) abiDrive).

(** [boot], over the two devices it opens. *)
Definition boot (rc : RouterConfig) (cfg : AbiDriveConfig) : M (S * T) A :=
  l ← zoom fst (fun s p => (s, p.2)) create;
  zoom snd (fun t p => (p.1, t)) (assemble l rc cfg).

(** ** Contracts *)
Definition set_router (r : Router S App) (a : A) : A := mkApplication (ap_ledger a) r (ap_abiDrive a).
Definition set_abiDrive (d : AbiDrive T) (a : A) : A := mkApplication (ap_ledger a) (ap_router a) d.
Definition on_abiDrive {B} (m : M (AbiDrive T) B) : M A B := zoom ap_abiDrive set_abiDrive m.
Definition Application_contract (spec : ContractSpec S App) : M A unit :=
  router ← gets ap_router;
  router ← liftO (contract spec router);
  modify (set_router router);;
  on_abiDrive (abi_register (spec_address spec) KIND_APP (spec_abi spec)).

(** ** The rollup loop

    What the loop reads of a request of the rollup device, the context made of
    it, and what was handed to the device. *)
Record AdvanceRequest : Type := mkRequest {
  req_chainId : Z; req_appContract : Address; req_blockNumber : Z; req_blockTimestamp : Z; req_prevRandao : Z;
  req_index : Z; req_payload : bytes
}.
Definition blockContext (req : AdvanceRequest) : BlockContext :=
  mkBlock (req_chainId req) (req_appContract req) (req_blockNumber req) (req_blockTimestamp req) (req_prevRandao req)
    (req_index req).
Record Guest : Type := mkGuest { g_world : World S App; g_lastBlock : option BlockContext; g_device : list Emission }.
Definition set_world (w : World S App) (g : Guest) : Guest := mkGuest w (g_lastBlock g) (g_device g).
Definition on_world {B} (m : M (World S App) B) : M Guest B := zoom g_world set_world m.
Definition device_emit (es : list Emission) : M Guest unit :=
  modify (fun g => mkGuest (g_world g) (g_lastBlock g) (g_device g ++ es)).
Definition run_advance (r : Router S App) (req : AdvanceRequest) : M Guest bool :=
  let block := blockContext req in
  modify (fun g => mkGuest (g_world g) (Some block) (g_device g));;
  res ← on_world (advance_input r block (req_payload req));
  (if res_accept res then device_emit (res_emissions res)
   else match res_reason res with
        | Some reason => if bool_decide (reason = "") then mret tt else device_emit [Report [0x02]]
        | None => mret tt
        end);;
  mret (res_accept res).
Definition run_inspect (r : Router S App) (payload : bytes) : M Guest bool :=
  lastBlock ← gets g_lastBlock;
  res ← on_world (inspect r lastBlock payload);
  device_emit (Report <$> ins_reports res);;
  mret (ins_accept res).
End Application.
Arguments Guest S App : clear implicits.

(** [inMemory]: [boot] over two zeroed stores. *)
Definition inMemory {App} {HK : Keccak} {HB : BuiltinAbis} (rc : RouterConfig) (cfg : AbiDriveConfig) (abiDriveLength : Z)
    : outcome (Application MemStore.t MemStore.t App) :=
  (boot rc cfg (MemStore.mk (zeros (default 0 (c_driveLength DEVNET_DRIVE_CONFIG))), MemStore.mk (zeros abiDriveLength))).1.

(** ** The demo application: a counter whose state is a variable of the guest *)
Section Demo.
Context {S : Type} {HS : Store S} {HK : Keccak} {HV : Viem} {HC : Calldata}.
Definition COUNTER_ADDRESS : Address := address_of 0xc0de000000000000000000000000000000000001.
Definition set_app (n : Z) (w : World S Z) : World S Z := mkWorld (ledger w) (sink w) (attributes w) n.
(** [decode] and [abi] are what viem makes of the human-readable ABI. *)
Definition counter_mutability (name : string) : option Mutability :=
  if bool_decide (name = "increment") then Some Nonpayable else
  if bool_decide (name = "count") then Some View else None.
Definition increment : M (World S Z) unit := modify (fun w => set_app (app w + 1) w).
Definition count : M (World S Z) (list AbiValue) := gets (fun w => [VUint (app w)]).
Definition counter (decode : bytes -> outcome (string * list AbiValue)) (abi : text) : ContractSpec S Z := {|
  spec_address := COUNTER_ADDRESS;
  spec_abi := abi;
  spec_payable := false;
  spec_decode := decode;
  spec_mutability := counter_mutability;
  spec_transactions := fun name => if bool_decide (name = "increment") then Some (fun _ _ => increment) else None;
  spec_views := fun name => if bool_decide (name = "count") then Some (fun _ _ => count) else None |}.
End Demo.
