(* ===== verification/HandlersJournal.v ===== *)
(** * Every built-in handler is undoable

    Each handler of app/src/handlers, and every application contract whose
    callbacks are, [tracks]: its effects on the ledger, whatever its outcome,
    are undone by the journal. The messenger's own partial rollback is covered
    by [tracks_guarded]. *)

From Stdlib Require Import ZArith Lia.
From S2P Require Import Prelude Bytes Store DriveConfig DriveHeader RobinHood DriveTable Drive DriveTokens.
From S2P Require Import DriveFormat Evm Ledger Journal DriveJournal LedgerJournal Handlers Router.

#[export] Instance World_journaled S App : Journaled S (World S App) :=
  {| j_cfg := fun w => cfg (drive (ledger w)); j_store := fun w => store (drive (ledger w));
     j_ram := fun w => ram (ledger w) |}.

Section HandlersJournal.
Context {S App : Type} {HS : Store S} {HR : StoreReads S} {HW : StoreWrites S} {HG : StoreGuards S}
  {HK : Keccak} {HV : Viem} {HC : Calldata}.
Context (c : NormalizedConfig) (len : Z) (Hgeo : geometry len c).
Abbreviation W := (World S App).
Abbreviation TW m := (tracks any_entry c len m (fun _ => True)).

Lemma on_ledger_tracks {A} (m : M (Ledger S) A) (Q : A -> Prop) : tracks any_entry c len m Q ->
  tracks any_entry c len (on_ledger m : M W A) Q.
Proof.
  intros Hm w img Hc Hh Hl. destruct (Hm (ledger w) img Hc Hh Hl) as (img' & Hc' & Hh' & Hl' & He & HQ).
  exists img'. unfold on_ledger, zoom. destruct (m (ledger w)) as [o l']. simpl in *. split_and!; done.
Qed.

Lemma asks_tracks {A} (f : Ledger S -> A) : TW (asks f : M W A).
Proof. by apply tracks_gets. Qed.

Lemma emit_tracks e : TW (emit e : M W unit).
Proof. by apply tracks_modify. Qed.

Lemma log_tracks a lg : TW (out_log a lg : M W unit).
Proof. apply emit_tracks. Qed.

Lemma withdrawal_tracks s t v g d : TW (out_withdrawal s t v g d : M W unit).
Proof.
  unfold out_withdrawal. eapply tracks_bind; [by apply (tracks_gets _ _ _ _ (fun _ => True))|]. intros idx _.
  eapply tracks_bind; [by apply (tracks_gets _ _ _ _ (fun _ => True))|]. intros ord _.
  eapply tracks_bind; [by apply (tracks_modify _ _ _ _ (fun _ => True))|]. intros _ _.
  eapply tracks_bind; [by apply (tracks_lift _ _ _ _ (fun _ => True))|]. intros nonce _.
  eapply (tracks_bind _ _ _ _ _ (fun _ => True)); [apply emit_tracks|]. intros _ _. apply log_tracks.
Qed.

Lemma revert_tracks msg : TW (revert msg : M W _).
Proof. by apply tracks_ret. Qed.
Lemma accept_tracks : TW (accept : M W _).
Proof. by apply tracks_ret. Qed.

Lemma mark_run {A} (f : Z -> M W A) w : (mk ← on_ledger mark; f mk) w = f (zlen (journal (ledger w))) w.
Proof. by destruct w. Qed.

(** Back at the mark, with the caches not yet re-derived. *)
Lemma rollback_run (w w1 : W) img img1 : extends any_entry w img w1 img1 ->
  holds (inner (store (drive (ledger w1)))) img1 -> zlen img1 = zlen img ->
  exists l2, rollbackTo (zlen (journal (ledger w))) (ledger w1) = (Val tt, l2)
    /\ holds (inner (store (drive l2))) img /\ cfg (drive l2) = cfg (drive (ledger w1))
    /\ extends any_entry w img (set_ledger l2 w1) img.
Proof.
  intros (es & Hj & _ & Hf & Hu1 & Hu2) Hh1 Hz. simpl in Hj, Hu1, Hu2. rewrite <- Hz in Hf.
  pose proof (rollbackTo_spec es (journal (ledger w)) (ledger w1) img1 Hj Hf Hh1) as Hr.
  unfold returns, wp in Hr. destruct (rollbackTo _ (ledger w1)) as [[[]|?|] l2]; [|done..]. simpl in Hr.
  destruct Hr as (Hh2 & Hr2 & Hj2 & Hc2 & _). rewrite Hu1 in Hh2. exists l2. split_and!; try done.
  exists []. split_and!; try done. split; [done|]. simpl. by rewrite Hr2.
Qed.

(** A computation undone to a mark when it throws, then followed by [k]. *)
Lemma tracks_guarded {A} (m k : M W A) : TW m -> TW k ->
  TW (mk ← on_ledger mark; try_catch m (fun _ => on_ledger (rollbackTo mk);; k)).
Proof.
  intros Hm Hk w img Hc Hh Hl. rewrite mark_run.
  destruct (Hm w img Hc Hh Hl) as (img1 & Hc1 & Hh1 & Hl1 & He1 & _).
  unfold try_catch. destruct (m w) as [[a|e|] w1]; simpl in *; [by exists img1| |by exists img1].
  destruct (rollback_run w w1 img img1 He1 Hh1 ltac:(lia)) as (l2 & Hrun & Hh2 & Hc2 & He2).
  unfold on_ledger, zoom, mbind, M_bind. rewrite Hrun.
  destruct (Hk (set_ledger l2 w1) img) as (img3 & Hc3 & Hh3 & Hl3 & He3 & _); simpl; [congruence|done|done|].
  exists img3. split_and!; try done. by eapply extends_trans.
Qed.

(** ** Handlers *)
Ltac wbind := eapply (tracks_bind _ _ _ _ _ (fun _ => True)); [|intros ? _].
Ltac wstep :=
  match goal with
  | |- tracks _ _ _ (revert _) _ => apply revert_tracks
  | |- tracks _ _ _ accept _ => apply accept_tracks
  | |- tracks _ _ _ (mret _) _ => by apply tracks_ret
  | |- tracks _ _ _ (throw _) _ => apply tracks_throw
  | |- tracks _ _ _ (asks _) _ => apply asks_tracks
  | |- tracks _ _ _ (gets _) _ => by apply tracks_gets
  | |- tracks _ _ _ (out_log _ _) _ => apply log_tracks
  | |- tracks _ _ _ (emit _) _ => apply emit_tracks
  | |- tracks _ _ _ (out_voucher _ _ _) _ => apply emit_tracks
  | |- tracks _ _ _ (out_withdrawal _ _ _ _ _) _ => apply withdrawal_tracks
  | |- tracks _ _ _ (modify _) _ => by apply tracks_modify
  | |- tracks _ _ _ (on_ledger _) _ => apply on_ledger_tracks; eauto with track
  | |- tracks _ _ _ (try_catch _ _) _ => apply tracks_try; [|intros ?]
  | |- tracks _ _ _ (_ ≫= _) _ => wbind
  | |- tracks _ _ _ (if ?b then _ else _) _ => destruct b
  | |- tracks _ _ _ (match ?x with _ => _ end) _ => destruct x
  | |- tracks _ _ _ (let '(_, _) := ?x in _) _ => destruct x
  end.
Ltac wtrack := repeat wstep.

Lemma passer_tracks ctx : TW (passer_advance ctx : M W _).
Proof. unfold passer_advance. wtrack. Qed.

Lemma token_or_register_tracks a : tracks any_entry c len (token_or_register a : M (Ledger S) Z) (fun _ => True).
Proof.
  unfold token_or_register. wbind; [by apply tokenByL1Address_tracks|].
  destruct a0; [by apply tracks_ret|]. wbind; [by apply ledger_registerToken_tracks|]. by apply tracks_ret.
Qed.
#[local] Hint Resolve token_or_register_tracks : track.

Lemma portal_tracks ctx : TW (portal_advance ctx : M W _).
Proof. unfold portal_advance, catch_insufficient. wtrack. Qed.

Lemma bridge_tracks ctx : TW (bridge_advance ctx : M W _).
Proof. unfold bridge_advance. wtrack. Qed.

Lemma erc20_tracks ctx : TW (erc20_advance ctx : M W _).
Proof. unfold erc20_advance. wtrack. Qed.

Lemma config_tracks o a ctx : TW (config_advance o a ctx : M W _).
Proof. unfold config_advance. wtrack. Qed.

Lemma sendCrossDomainMessage_tracks cd s t m g v : TW (sendCrossDomainMessage cd s t m g v : M W _).
Proof. unfold sendCrossDomainMessage. wtrack. Qed.

Lemma l2bridge_tracks ctx : TW (l2bridge_advance ctx : M W _).
Proof. unfold l2bridge_advance, l2bridge_initiate. wtrack; apply sendCrossDomainMessage_tracks. Qed.

Lemma finalize_tracks m cd : TW (finalizeFromMessenger m cd : M W _).
Proof. unfold finalizeFromMessenger. wtrack. Qed.

Lemma dispatch_tracks m cd : TW (dispatch m cd : M W _).
Proof. unfold dispatch. wtrack. apply finalize_tracks. Qed.

(** Accepting at the end changes nothing. *)
Lemma accept_after (m : M W unit) w : ((m;; accept) w).2 = (m w).2.
Proof. unfold mbind, M_bind. by destruct (m w) as [[[]|?|] ?]. Qed.

Lemma relay_attempt_tracks cd m hash : TW (relay_attempt cd m hash : M W _).
Proof. unfold relay_attempt. wtrack. apply dispatch_tracks. Qed.

Lemma relay_tracks cd m hash : TW (relay cd m hash : M W _).
Proof.
  assert (Hg : TW (mk ← on_ledger mark; try_catch (relay_attempt cd m hash)
    (fun _ => on_ledger (rollbackTo mk);; (on_ledger afterRollback;; relay_failed hash)) : M W unit)).
  { apply tracks_guarded; [apply relay_attempt_tracks|]. unfold relay_failed. wtrack. }
  intros w img Hc Hh Hl. unfold relay. rewrite mark_run, accept_after.
  destruct (Hg w img Hc Hh Hl) as (img1 & Hc1 & Hh1 & Hl1 & He1 & _).
  rewrite mark_run in Hc1, Hh1, He1. by exists img1.
Qed.

Lemma messenger_tracks ctx : TW (messenger_advance ctx : M W _).
Proof. unfold messenger_advance. wtrack. apply relay_tracks. Qed.

Lemma l1block_tracks ctx : TW (l1block_advance ctx : M W _).
Proof. unfold l1block_advance. wtrack. Qed.

(** ** Application contracts *)
Definition callbacks_track (spec : ContractSpec S App) : Prop :=
  forall name cb, spec_transactions spec name = Some cb -> forall args ctx, TW (cb args ctx).

Lemma contract_tracks spec ctx : callbacks_track spec -> TW (contract_advance spec ctx : M W _).
Proof.
  intros Hcb. unfold contract_advance. destruct (tryDecodeCalldata _ _) as [[name args]|]; [|wtrack].
  destruct (is_readonly _); [wtrack|]. destruct (spec_transactions spec name) as [cb|] eqn:Hs; wtrack.
  by eapply Hcb.
Qed.

(** ** The router *)
Definition handler_tracks (h : Handler S App) : Prop :=
  forall adv, advance h = Some adv -> forall ctx, TW (adv ctx).
Definition router_tracks (r : Router S App) : Prop :=
  forall a h, (a, RApp h) ∈ manifest r -> handler_tracks h.

Lemma newRouter_tracks rc : router_tracks (newRouter rc).
Proof.
  intros a h Hin. exfalso. unfold newRouter, builtin_manifest in Hin. simpl in Hin.
  apply list_elem_of_In in Hin. simpl in Hin. naive_solver.
Qed.

Lemma register_tracks a h r r' : router_tracks r -> handler_tracks h -> register a h r = Val r' -> router_tracks r'.
Proof.
  intros Hr Hh. unfold register. destruct (manifest_get _ _); [done|]. intros [= <-] b h' Hin. simpl in Hin.
  apply elem_of_app in Hin as [Hin|Hin]; [by eapply Hr|]. apply list_elem_of_singleton in Hin. by injection Hin as -> ->.
Qed.

Lemma contractHandler_tracks spec : callbacks_track spec -> handler_tracks (contractHandler spec).
Proof. intros Hcb adv [= <-] ctx. by apply contract_tracks. Qed.

Lemma manifest_get_In (m : list (Address * Routed S App)) a h : manifest_get m a = Some h -> (a, h) ∈ m.
Proof.
  induction m as [|[k h'] m IH]; simpl; [done|]. destruct (bytesEqual k a) eqn:Hk.
  - intros [= ->]. apply bytesEqual_eq in Hk as ->. apply list_elem_of_here.
  - intros Hm. apply list_elem_of_further. auto.
Qed.

Lemma routed_tracks r to block dep l h adv ctx : router_tracks r -> resolve r to block dep l = Some h ->
  routed_advance r h = Some adv -> TW (adv ctx).
Proof.
  intros Hr Hres Hadv. destruct h; simpl in Hadv; try (injection Hadv as <-); try done;
    eauto using bridge_tracks, config_tracks, l1block_tracks, messenger_tracks, l2bridge_tracks, passer_tracks,
      portal_tracks, erc20_tracks.
  unfold resolve in Hres. destruct (manifest_get _ _) as [h'|] eqn:Hm.
  - injection Hres as ->. by eapply (Hr to h); [apply manifest_get_In|].
  - by repeat case_match.
Qed.

(** Reading the ledger, knowing what was read. *)
Lemma asks_tracks_eq {A B} (f : Ledger S -> A) (k : A -> M W B) :
  (forall l, TW (k (f l))) -> TW (x ← asks f; k x).
Proof. intros Hk w img. exact (Hk (ledger w) w img). Qed.

Lemma run_handler_tracks r ctx dep : router_tracks r -> TW (run_handler r ctx dep).
Proof.
  intros Hr. unfold run_handler. wbind; [wtrack|]. wbind; [wtrack|]. apply asks_tracks_eq. intros l.
  destruct (resolve r _ _ _ l) as [h|] eqn:Hres; [|wtrack]. destruct (_ && _); [wtrack|].
  destruct (routed_advance r h) as [adv|] eqn:Hadv; [|wtrack]. by eapply routed_tracks.
Qed.

End HandlersJournal.
