(* ===== verification/HandlersInv.v ===== *)
(** * Every built-in handler keeps the ledger's invariant

    Whatever calldata a handler of app/src/handlers is run on, it terminates
    and leaves [ledger_inv] true, whether it accepts, reverts or throws. The
    messenger's partial rollback restores it from the mark. *)

From Stdlib Require Import ZArith Lia.
From S2P Require Import Prelude Bytes Store DriveConfig DriveHeader RobinHood DriveTable Drive DriveTokens.
From S2P Require Import DriveFormat Evm Ledger Journal DriveJournal LedgerJournal LedgerSpec LedgerInv Handlers Router HandlersJournal.

#[export] Instance World_has S App : HasLedger S (World S App) := ledger.

(** The bytes of a transaction are bytes. *)
Record tx_ok (ctx : TxContext) : Prop := mkTxOk {
  ok_sender : Forall is_byte (tx_sender ctx);
  ok_to : Forall is_byte (tx_to ctx);
  ok_data : Forall is_byte (tx_data ctx)
}.

Section HandlersInv.
Context {S App : Type} {HS : Store S} {HR : StoreReads S} {HW : StoreWrites S} {HG : StoreGuards S}
  {HK : Keccak} {HKL : KeccakLaws} {HV : Viem} {HC : Calldata} {HCL : CalldataLaws}.
Abbreviation W := (World S App).
Abbreviation KW m := (keeps (S := S) (m : M W _)).

Lemma on_ledger_kept {A} (m : M (Ledger S) A) w : kept (ledger w) (m (ledger w)) -> kept w (on_ledger m w : _ * W).
Proof. intros Hk. unfold on_ledger, zoom. by destruct (m (ledger w)) as [o l']. Qed.

Lemma on_ledger_keeps {A} (m : M (Ledger S) A) : keeps m -> KW (on_ledger m).
Proof. intros Hm w img Hi. by apply on_ledger_kept, (Hm (ledger w) img). Qed.

Lemma emit_keeps e : KW (emit e).
Proof. by apply keeps_modify. Qed.

Lemma out_withdrawal_keeps s t v g d : KW (out_withdrawal s t v g d).
Proof.
  unfold out_withdrawal. apply keeps_bind; [apply keeps_gets|]. intros idx.
  apply keeps_bind; [apply keeps_gets|]. intros ord. apply keeps_bind; [by apply keeps_modify|]. intros _.
  apply keeps_bind; [|intros; apply keeps_bind; intros; apply emit_keeps].
  apply keeps_lift. unfold versionedWithdrawalNonce. by repeat case_match.
Qed.

Lemma is_address_bytes a : is_address a -> Forall is_byte a.
Proof. by intros [_ ?]. Qed.

(** A guarded computation: undone to the mark when it throws. *)
Lemma kept_guarded {A} (m k : M W A) w img : ledger_inv (ledger w) img -> KW m ->
  (forall c len, geometry len c -> tracks any_entry c len m (fun _ => True)) ->
  (forall w2, restored (ledger w) img (ledger w2) -> kept w2 (k w2)) ->
  kept w ((mk ← on_ledger mark; try_catch m (fun _ => on_ledger (rollbackTo mk);; on_ledger afterRollback;; k)) w).
Proof.
  intros Hi Hm Ht Hk. rewrite mark_run. destruct (Hm w img Hi) as (Hd & Hi1 & Hle).
  pose proof Hi as [[Hwf ?] ?]. destruct (Ht (cfg (drive (ledger w))) (zlen img) (dw_geometry _ _ Hwf) w img)
    as (img1 & Hc & Hh & Hl & He & _); [done|apply Hwf|done|].
  unfold try_catch. destruct (m w) as [[a|e|] w1]; simpl in *; [by split_and!| |done].
  pose proof (rollback_extends any_entry (ledger w) img (ledger w1) img1) as Hr.
  specialize (Hr ltac:(by split) Hc Hh Hl He).
  apply returns_elim in Hr as ([] & l2 & Hrun & Hrest). revert Hrun.
  unfold on_ledger, zoom, mbind, M_bind. destruct (rollbackTo _ (ledger w1)) as [[[]|?|] l']; [|done..].
  intros Hrun. simpl. rewrite Hrun. eapply kept_trans; [|by apply Hk].
  apply ram_le_equiv. simpl. apply Hrest.
Qed.

Lemma keeps_asks_eq {A B} (f : Ledger S -> A) (k : A -> M W B) :
  (forall w img, ledger_inv (ledger w) img -> kept w (k (f (ledger w)) w)) -> KW (x ← asks f; k x).
Proof. intros Hk. by apply keeps_gets_eq. Qed.

Ltac kstep :=
  match goal with
  | |- keeps (revert _) => apply keeps_ret
  | |- keeps accept => apply keeps_ret
  | |- keeps (mret _) => apply keeps_ret
  | |- keeps (throw _) => apply keeps_throw
  | |- keeps (asks _) => apply keeps_gets
  | |- keeps (gets _) => apply keeps_gets
  | |- keeps (out_log _ _) => apply emit_keeps
  | |- keeps (emit _) => apply emit_keeps
  | |- keeps (out_voucher _ _ _) => apply emit_keeps
  | |- keeps (out_withdrawal _ _ _ _ _) => apply out_withdrawal_keeps
  | |- keeps (modify _) => by apply keeps_modify
  | |- keeps (on_ledger _) => apply on_ledger_keeps; eauto 6 with keep
  | |- keeps (try_catch _ _) => apply keeps_try; [|intros ?]
  | |- keeps (_ ≫= _) => apply keeps_bind; [|intros ?]
  | |- keeps (if ?b then _ else _) => destruct b
  | |- keeps (match ?x with _ => _ end) => destruct x eqn:?
  | |- keeps (let '(_, _) := ?x in _) => destruct x eqn:?
  end.
Ltac ktrack := repeat kstep.
#[local] Hint Resolve ok_sender ok_to ok_data is_address_bytes : keep.

Lemma decoded {A} (decode : bytes -> outcome A) d x : tryDecodeCalldata decode d = Some x -> decode d = Val x.
Proof. unfold tryDecodeCalldata. destruct (decode d); congruence. Qed.

Lemma passer_keeps ctx : tx_ok ctx -> KW (passer_advance ctx).
Proof. intros Hctx. unfold passer_advance. ktrack. Qed.

Lemma token_or_register_keeps a : keeps (token_or_register a : M (Ledger S) Z).
Proof. unfold token_or_register. ktrack; eauto with keep. Qed.
#[local] Hint Resolve token_or_register_keeps : keep.

Lemma addressAt_bytes data off : Forall is_byte data -> Forall is_byte (addressAt data off).
Proof. intros Hd. unfold addressAt, slice. by apply Forall_take, Forall_drop. Qed.
#[local] Hint Resolve addressAt_bytes : keep.

Lemma portal_keeps ctx : tx_ok ctx -> KW (portal_advance ctx).
Proof. intros Hctx. unfold portal_advance, catch_insufficient. ktrack. Qed.

Lemma bridge_keeps ctx : tx_ok ctx -> KW (bridge_advance ctx).
Proof. intros Hctx. unfold bridge_advance. ktrack. Qed.

Lemma erc20_keeps ctx : tx_ok ctx -> KW (erc20_advance ctx).
Proof.
  intros Hctx. unfold erc20_advance. ktrack.
  eapply creditToken_keeps, is_address_bytes, transfer_address, decoded. eassumption.
Qed.

(** After an operation whose check was done. *)
Lemma kept_bind {A B} (m : M W A) (f : A -> M W B) w : kept w (m w) -> (forall a, KW (f a)) -> kept w ((m ≫= f) w).
Proof.
  intros (Hd & [img1 Hi1] & Hle) Hf. unfold mbind, M_bind.
  destruct (m w) as [[a|e|] w1]; simpl in *; [|by split_and!; [|exists img1|]|done].
  eapply kept_trans; [exact Hle|]. by eapply Hf.
Qed.

Lemma config_keeps o a ctx : KW (config_advance o a ctx).
Proof.
  unfold config_advance. destruct (negb _); [ktrack|].
  destruct (tryDecodeCalldata _ _) as [[f|kind portal|lm lb|t wd n sy d|t n sy d| |]|]. 1, 4-8: ktrack.
  - destruct (_ && _); [ktrack|]. apply keeps_asks_eq. intros w img Hi.
    destruct (_ && _) eqn:Hb; [by eapply kept_same|]. apply kept_bind; [|intros; ktrack].
    eapply on_ledger_kept, registerPortal_kept; [done|]. apply andb_false_iff in Hb as [Hb|Hb].
    + left. by apply Z.eqb_neq.
    + right. apply bool_decide_eq_false in Hb. by apply eq_None_not_Some.
  - apply keeps_asks_eq. intros w img Hi.
    destruct (hasErc20Portal (ledger w)) eqn:Hb; [by eapply kept_same|]. apply kept_bind; [|intros; ktrack].
    by eapply on_ledger_kept, registerCrossDomain_kept.
Qed.

Lemma sendCrossDomainMessage_keeps cd s t m g v : KW (sendCrossDomainMessage cd s t m g v).
Proof. unfold sendCrossDomainMessage. ktrack. Qed.

Lemma l2bridge_keeps ctx : tx_ok ctx -> KW (l2bridge_advance ctx).
Proof. intros Hctx. unfold l2bridge_advance, l2bridge_initiate. ktrack; apply sendCrossDomainMessage_keeps. Qed.

Lemma finalize_keeps m cd : KW (finalizeFromMessenger m cd).
Proof.
  unfold finalizeFromMessenger. ktrack.
  - eapply creditToken_keeps, is_address_bytes, finalizeBridgeERC20_address, decoded. eassumption.
  - apply debitEther_keeps. unfold L2_MESSENGER_ADDRESS. by repeat constructor.
  - eapply creditEther_keeps, is_address_bytes, finalizeBridgeETH_address, decoded. eassumption.
Qed.

Lemma dispatch_keeps m cd : is_address (m_target m) -> KW (dispatch m cd).
Proof.
  intros Hm. unfold dispatch. ktrack; [apply finalize_keeps|].
  apply debitEther_keeps. unfold L2_MESSENGER_ADDRESS. by repeat constructor.
Qed.

Lemma relay_attempt_keeps cd m hash : is_address (m_target m) -> KW (relay_attempt cd m hash).
Proof.
  intros Hm. unfold relay_attempt. kstep; [by apply dispatch_keeps|]. kstep; [|kstep].
  apply on_ledger_keeps. intros l img Hi. eapply setMessageStatus_kept; [done|by left].
Qed.

Lemma relay_failed_kept hash w img : ledger_inv (ledger w) img -> messageStatus hash (ledger w) <> Some successful ->
  kept w (relay_failed hash w : _ * W).
Proof.
  intros Hi Hs. unfold relay_failed. apply kept_bind; [|intros; ktrack].
  eapply on_ledger_kept, setMessageStatus_kept; [done|by right].
Qed.

Lemma kept_accept (m : M W unit) w : kept w (m w) -> kept w ((m;; accept) w).
Proof. intros (Hd & Hi & Hle). unfold mbind, M_bind. by destruct (m w) as [[[]|e|] w1]. Qed.

(** A message may be relayed unless it already was. *)
Lemma relay_kept cd m hash w img : is_address (m_target m) -> ledger_inv (ledger w) img ->
  messageStatus hash (ledger w) <> Some successful -> kept w (relay cd m hash w : _ * W).
Proof.
  intros Hm Hi Hs. unfold relay. rewrite mark_run. apply kept_accept.
  pose proof (kept_guarded (relay_attempt cd m hash) (relay_failed hash) w img Hi (relay_attempt_keeps cd m hash Hm)
    ltac:(intros; by apply relay_attempt_tracks)) as Hk.
  rewrite mark_run in Hk. apply Hk. intros w2 Hres. apply (relay_failed_kept hash w2 img); [by eapply inv_restored|].
  destruct Hres as (_ & _ & _ & [_ _ _ _ _ _ Hms] & _). unfold messageStatus in *. by rewrite Hms.
Qed.

Lemma refused_successful ctx cd m : relay_refused ctx cd m (Some successful) <> None.
Proof. unfold relay_refused. rewrite bool_decide_eq_true_2 by done. by destruct (negb _). Qed.

Lemma messenger_keeps ctx : KW (messenger_advance ctx).
Proof.
  unfold messenger_advance. kstep; [kstep|]. kstep; [|kstep].
  destruct (tryDecodeCalldata _ _) as [[m| | |]|] eqn:Hdec. 2-5: kstep.
  apply keeps_asks_eq. intros w img Hi.
  destruct (relay_refused _ _ _ _) eqn:Href; [by eapply kept_same|].
  eapply relay_kept; [by eapply relayMessage_address, decoded|done|].
  intros Hs. rewrite Hs in Href. by apply refused_successful in Href.
Qed.

Lemma l1block_keeps ctx : KW (l1block_advance ctx).
Proof. unfold l1block_advance. ktrack. Qed.

(** ** Application contracts and the router *)
Definition callbacks_keep (spec : ContractSpec S App) : Prop :=
  forall name cb, spec_transactions spec name = Some cb -> forall args ctx, tx_ok ctx -> KW (cb args ctx).

Lemma contract_keeps spec ctx : callbacks_keep spec -> tx_ok ctx -> KW (contract_advance spec ctx).
Proof.
  intros Hcb Hctx. unfold contract_advance. destruct (tryDecodeCalldata _ _) as [[name args]|]; [|ktrack].
  destruct (is_readonly _); [ktrack|]. destruct (spec_transactions spec name) as [cb|] eqn:Hs; ktrack.
  by eapply Hcb.
Qed.

Definition handler_keeps (h : Handler S App) : Prop :=
  forall adv, advance h = Some adv -> forall ctx, tx_ok ctx -> KW (adv ctx).
Definition router_keeps (r : Router S App) : Prop :=
  forall a h, (a, RApp h) ∈ manifest r -> handler_keeps h.

Lemma newRouter_keeps rc : router_keeps (newRouter rc).
Proof.
  intros a h Hin. exfalso. unfold newRouter, builtin_manifest in Hin. simpl in Hin.
  apply list_elem_of_In in Hin. simpl in Hin. naive_solver.
Qed.

Lemma register_keeps a h r r' : router_keeps r -> handler_keeps h -> register a h r = Val r' -> router_keeps r'.
Proof.
  intros Hr Hh. unfold register. destruct (manifest_get _ _); [done|]. intros [= <-] b h' Hin. simpl in Hin.
  apply elem_of_app in Hin as [Hin|Hin]; [by eapply Hr|]. apply list_elem_of_singleton in Hin. by injection Hin as -> ->.
Qed.

Lemma routed_keeps r to block dep l h adv ctx : router_keeps r -> tx_ok ctx -> resolve r to block dep l = Some h ->
  routed_advance r h = Some adv -> KW (adv ctx).
Proof.
  intros Hr Hctx Hres Hadv. destruct h; simpl in Hadv; try (injection Hadv as <-); try done;
    eauto using bridge_keeps, config_keeps, l1block_keeps, messenger_keeps, l2bridge_keeps, passer_keeps,
      portal_keeps, erc20_keeps.
  unfold resolve in Hres. destruct (manifest_get _ _) as [h'|] eqn:Hm.
  - injection Hres as ->. by eapply (Hr to h); [apply manifest_get_In| |].
  - by repeat case_match.
Qed.

Lemma run_handler_keeps r ctx dep : router_keeps r -> tx_ok ctx -> KW (run_handler r ctx dep).
Proof.
  intros Hr Hctx. unfold run_handler. kstep; [kstep|]. kstep; [kstep|]. apply keeps_gets_eq. intros w img Hi.
  destruct (resolve r _ _ _ (ledger w)) as [h|] eqn:Hres; [|by eapply kept_same].
  destruct (_ && _); [by eapply kept_same|].
  destruct (routed_advance r h) as [adv|] eqn:Hadv; [|by eapply kept_same]. by eapply routed_keeps.
Qed.
End HandlersInv.
