(* ===== verification/RouterSpec.v ===== *)
(** * What an input does

    The router's promise (app/src/router.ts, EVM-COMPAT §5) for every input,
    on a ledger at rest: it is answered, unless its signature is one of the two
    kinds the router throws on, the ledger is at rest again, and
    - rejected, the ledger is as it was before it, and nothing is emitted;
    - reverted, everything after the mark is undone, the sender is charged, and
      only reports are emitted;
    - accepted or failed, its effects and outputs are kept.
    A simulation leaves no trace. The application's own handlers enter through
    the two interfaces [router_tracks] and [router_keeps]. *)

From Stdlib Require Import ZArith Lia.
From S2P Require Import Prelude Bytes Store DriveConfig DriveHeader RobinHood DriveTable Drive DriveTokens.
From S2P Require Import DriveFormat Evm Ledger Journal DriveJournal LedgerJournal LedgerSpec LedgerInv Handlers Router HandlersJournal.
From S2P Require Import HandlersInv.

Section RouterSpec.
Context {S App : Type} {HS : Store S} {HR : StoreReads S} {HW : StoreWrites S} {HG : StoreGuards S}
  {HK : Keccak} {HKL : KeccakLaws} {HV : Viem} {HI : InputLaws} {HC : Calldata} {HCL : CalldataLaws}.
Abbreviation W := (World S App).
Implicit Types w : W.
Implicit Types img : bytes.

(** Between two inputs: the invariant, and nothing to undo. *)
Definition at_rest w img : Prop := ledger_inv (ledger w) img /\ journal (ledger w) = [].

(** The handlers of an application behave: they can be undone, and they keep
    the invariant. *)
Definition router_sound (r : Router S App) : Prop :=
  (forall c len, geometry len c -> router_tracks c len r) /\ router_keeps r.

(** [w] is on the way from [w0]: it keeps the invariant and can be undone. *)
Definition reach w0 img0 w : Prop :=
  (exists img, ledger_inv (ledger w) img)
  /\ ram_le (ram (ledger w0)) (ram (ledger w))
  /\ cfg (drive (ledger w)) = cfg (drive (ledger w0))
  /\ exists img, holds (inner (store (drive (ledger w)))) img /\ zlen img = zlen img0
       /\ extends any_entry w0 img0 w img.

Lemma reach_refl w0 img0 w : ledger_inv (ledger w0) img0 -> ledger w = ledger w0 -> reach w0 img0 w.
Proof.
  intros Hi Hw. split_and!; [exists img0; by rewrite Hw|by rewrite Hw|by rewrite Hw|]. exists img0. rewrite Hw.
  split_and!; [apply Hi|done|]. apply extends_refl; simpl; by rewrite Hw.
Qed.

Lemma reach_run {A} (m : M W A) w0 img0 w : ledger_inv (ledger w0) img0 -> reach w0 img0 w -> keeps m ->
  (forall c len, geometry len c -> tracks any_entry c len m (fun _ => True)) ->
  (m w).1 <> Diverge /\ reach w0 img0 (m w).2.
Proof.
  intros [[Hwf _] _] ([imgi Hi] & Hle & Hc & img & Hh & Hz & He) Hk Ht. destruct (Hk w imgi Hi) as (Hd & Hi' & Hle').
  split; [done|]. destruct (Ht (cfg (drive (ledger w0))) (zlen img0) (dw_geometry _ _ Hwf) w img)
    as (img' & Hc' & Hh' & Hz' & He' & _); [done..|].
  split_and!; [done|by etrans|done|]. exists img'. split_and!; [done|done|]. eapply extends_trans; [|exact He|exact He']. done.
Qed.

(** [restored] is all an undone world differs by. *)
Lemma reach_rollback w0 img0 w : ledger_inv (ledger w0) img0 -> reach w0 img0 w ->
  returns (on_ledger (rollbackTo (zlen (journal (ledger w0))));; on_ledger afterRollback) w
    (fun _ w' => restored (ledger w0) img0 (ledger w') /\ sink w' = sink w).
Proof.
  intros [Hwf _] (_ & _ & Hc & img & Hh & Hz & He).
  pose proof (rollback_extends any_entry (ledger w0) img0 (ledger w) img Hwf Hc Hh Hz He) as Hr.
  revert Hr. unfold returns, wp, on_ledger, zoom, mbind, M_bind.
  destruct (rollbackTo _ (ledger w)) as [[[]|?|] l1]; [|done..]. simpl.
  by destruct (afterRollback l1) as [[[]|?|] l2].
Qed.

Lemma rest_restored w0 img0 w : at_rest w0 img0 -> restored (ledger w0) img0 (ledger w) -> at_rest w img0.
Proof.
  intros [Hi Hj] Hr. split; [by eapply inv_restored|]. destruct Hr as (_ & _ & _ & _ & ->). done.
Qed.

Lemma reach_restored w0 img0 w : ledger_inv (ledger w0) img0 -> restored (ledger w0) img0 (ledger w) ->
  reach w0 img0 w.
Proof.
  intros Hi Hr. pose proof (inv_restored _ _ _ Hi Hr) as Hi'. destruct Hr as (Hwf & (Hc & _) & _ & Hram & Hj).
  split_and!; [by exists img0|by apply ram_le_equiv|done|]. exists img0. split_and!; [apply Hwf|done|].
  exists []. split_and!; done.
Qed.

(** A refusal: nothing happened, nothing is emitted. *)
Definition refused w0 img0 (res : AdvanceResult) w' : Prop :=
  restored (ledger w0) img0 (ledger w') /\ exists reason, res = reject reason.

Lemma rollbackAll_spec w0 img0 w : at_rest w0 img0 -> reach w0 img0 w ->
  returns rollbackAll w (fun _ w' => restored (ledger w0) img0 (ledger w')).
Proof.
  intros [Hi Hj] Hr. pose proof (reach_rollback w0 img0 w Hi Hr) as Hb. rewrite Hj in Hb.
  eapply returns_mono; [exact Hb|]. by intros _ w' [? _].
Qed.

Lemma returns_mark {A} (f : Z -> M W A) w Q :
  returns (f (zlen (journal (ledger w)))) w Q -> returns (mk ← on_ledger mark; f mk) w Q.
Proof. unfold returns, wp. by rewrite mark_run. Qed.

Lemma committed_rest w img : ledger_inv (ledger w) img -> at_rest (set_ledger (set_journal [] (ledger w)) w) img.
Proof. intros Hi. split; [|done]. apply (inv_transport (ledger w)); try done; apply Hi. Qed.

(** ** Settling *)
Lemma on_ledger_sink {A} (m : M (Ledger S) A) w : sink (on_ledger m w).2 = sink w.
Proof. unfold on_ledger, zoom. by destruct (m (ledger w)). Qed.

Lemma settle_reach w0 img0 w ch ok : at_rest w0 img0 -> reach w0 img0 w ->
  (forall a f, ch = Some (a, f) -> Forall is_byte a) ->
  returns (settle ch ok) w (fun res w' =>
    (res = ok (sink w) /\ (exists img', at_rest w' img') /\ ram_le (ram (ledger w0)) (ram (ledger w')))
    \/ refused w0 img0 res w').
Proof.
  intros Hrest Hr Hch. unfold settle. apply returns_bind.
  assert (Hcommit : forall w1, reach w0 img0 w1 -> sink w1 = sink w ->
    returns (on_ledger commit;; s ← gets sink; mret (ok s)) w1 (fun res w' =>
      (res = ok (sink w) /\ (exists img', at_rest w' img') /\ ram_le (ram (ledger w0)) (ram (ledger w')))
      \/ refused w0 img0 res w')).
  { intros w1 ([img Hi] & Hle & _) Hs. left. simpl. rewrite Hs. split_and!; [done| |done]. exists img.
    by apply committed_rest. }
  destruct ch as [[a f]|]; [|by apply returns_ret, Hcommit]. unfold charge.
  destruct (reach_run (on_ledger (bumpNonceAndCharge a f) : M W unit) w0 img0 w (proj1 Hrest) Hr) as [Hd Hr1].
  { apply on_ledger_keeps, bumpNonceAndCharge_keeps. by eapply Hch. }
  { intros. by apply on_ledger_tracks, bumpNonceAndCharge_tracks. }
  apply returns_try, wp_bind. unfold wp. pose proof (on_ledger_sink (bumpNonceAndCharge a f) w) as Hs.
  destruct (on_ledger (bumpNonceAndCharge a f) w) as [[[]|e|] w1]; simpl in *; [by apply Hcommit| |done].
  apply returns_bind. eapply returns_mono; [by apply (rollbackAll_spec w0 img0)|].
  intros [] w' Hw'. apply returns_ret. right. split; [done|]. by exists (describe e).
Qed.

(** ** The outcomes of a dispatch *)

(** How an input ended, against where it started. *)
Definition answered w0 img0 (res : AdvanceResult) w' : Prop :=
  (exists img', at_rest w' img')
  /\ ram_le (ram (ledger w0)) (ram (ledger w'))
  /\ (res_accept res = false -> refused w0 img0 res w')
  /\ (res_outcome res = Krevert -> Forall (fun e => is_report e = true) (res_emissions res)).

Lemma refused_answered w0 img0 res w' : at_rest w0 img0 -> refused w0 img0 res w' -> answered w0 img0 res w'.
Proof.
  intros Hrest Href. split_and!; [| |done|].
  - destruct Href as [Hr _]. exists img0. by eapply rest_restored.
  - destruct Href as [(_ & _ & _ & Hr & _) _]. by apply ram_le_equiv.
  - destruct Href as [_ [reason ->]]. done.
Qed.

Lemma settled w0 img0 w ch ok : at_rest w0 img0 -> reach w0 img0 w ->
  (forall a f, ch = Some (a, f) -> Forall is_byte a) -> (forall s, res_accept (ok s) = true) ->
  (res_outcome (ok (sink w)) = Krevert -> Forall (fun e => is_report e = true) (res_emissions (ok (sink w)))) ->
  returns (settle ch ok) w (answered w0 img0).
Proof.
  intros Hrest Hr Hch Hacc Hrev. eapply returns_mono; [by apply settle_reach|]. intros res w' [(-> & Hw' & Hle)|Href].
  - split_and!; [done|done| |done]. intros Hf. by rewrite Hacc in Hf.
  - by apply refused_answered.
Qed.

Lemma reports_are_reports s data :
  Forall (fun e => is_report e = true) (reportsOnly s ++ [Report (tagged TAG_REVERT data)]).
Proof.
  apply Forall_app. split; [|by repeat constructor]. unfold reportsOnly.
  induction (emissions s) as [|e es IH]; simpl; [constructor|]. destruct (is_report e) eqn:He; [|done].
  by constructor.
Qed.

(** From the mark [w] on, after [w0]: the two differ only for a deposit, whose
    mint is outside the mark and which nobody is charged for. *)
Lemma finish_spec w0 img0 w imgw w1 ch o : at_rest w0 img0 -> ledger_inv (ledger w) imgw -> reach w0 img0 w1 ->
  reach w imgw w1 -> ram_le (ram (ledger w0)) (ram (ledger w)) -> ch = None \/ ledger w = ledger w0 /\ imgw = img0 ->
  (forall a f, ch = Some (a, f) -> Forall is_byte a) ->
  returns (finish (zlen (journal (ledger w))) ch o) w1 (answered w0 img0).
Proof.
  intros Hrest Hiw Hr0 Hrw Hle0 Hcase Hch. destruct o as [|data|data|reason]; cbn [finish].
  - by apply settled.
  - assert (Hundo : returns (on_ledger (rollbackTo (zlen (journal (ledger w))));; on_ledger afterRollback) w1
      (fun _ w2 => returns (settle ch (fun s => mkResult true
         (reportsOnly s ++ [Report (tagged TAG_REVERT data)]) Krevert None)) w2 (answered w0 img0))).
    { eapply returns_mono; [by apply (reach_rollback w imgw)|]. intros [] w2 [Hres Hs].
      destruct Hcase as [->|[Heq ->]].
      - unfold settle, charge. apply returns_bind, returns_ret. simpl. split_and!; [| |done|].
        + exists imgw. apply committed_rest. by eapply inv_restored.
        + etrans; [exact Hle0|]. apply ram_le_equiv, Hres.
        + intros _. apply reports_are_reports.
      - rewrite Heq in Hres. apply settled; try done; [apply reach_restored; [apply Hrest|done]|].
        intros _. apply reports_are_reports. }
    revert Hundo. unfold returns, wp, mbind, M_bind.
    destruct (on_ledger (rollbackTo _) w1) as [[[]|?|] ?]; [|done..].
    by destruct (on_ledger afterRollback _) as [[[]|?|] ?].
  - by apply settled.
  - apply returns_bind. eapply returns_mono; [by apply (rollbackAll_spec w0 img0)|]. intros [] w' Hw'.
    apply returns_ret, refused_answered; [done|]. split; [done|]. by exists reason.
Qed.

(** ** Executing *)
Lemma run_handler_sound r ctx dep w0 img0 w : router_sound r -> tx_ok ctx -> ledger_inv (ledger w0) img0 ->
  reach w0 img0 w -> (run_handler r ctx dep w).1 <> Diverge /\ reach w0 img0 (run_handler r ctx dep w).2.
Proof.
  intros [Ht Hk] Hctx Hi Hr. apply reach_run; [done..|by apply run_handler_keeps|].
  intros. apply run_handler_tracks; [done|]. by apply Ht.
Qed.

Lemma reach_sink w0 img0 w s : reach w0 img0 w -> reach w0 img0 (set_sink s w).
Proof. done. Qed.

Lemma execute_spec r ctx w0 img0 w imgw ch : router_sound r -> tx_ok ctx -> at_rest w0 img0 ->
  ledger_inv (ledger w) imgw -> reach w0 img0 w -> ch = None \/ ledger w = ledger w0 /\ imgw = img0 ->
  (forall a f, ch = Some (a, f) -> Forall is_byte a) ->
  returns (execute r ctx (zlen (journal (ledger w))) ch) w (answered w0 img0).
Proof.
  intros Hr Hctx Hrest Hiw Hreach Hcase Hch. unfold execute. apply returns_bind, returns_modify.
  set (w' := set_sink _ w). set (dep := if tx_isDeposit ctx then _ else _).
  pose proof (reach_refl w imgw w' Hiw eq_refl) as Hw'.
  destruct (run_handler_sound r ctx dep w0 img0 w' Hr Hctx (proj1 Hrest) (reach_sink _ _ _ _ Hreach)) as [Hd Hr0].
  destruct (run_handler_sound r ctx dep w imgw w' Hr Hctx Hiw Hw') as [_ Hrw].
  apply returns_bind, returns_try. unfold wp. destruct (run_handler r ctx dep w') as [[o|e|] w1]; [..|done].
  - apply (finish_spec w0 img0 w imgw); try done. apply Hreach.
  - apply returns_ret. apply (finish_spec w0 img0 w imgw); try done. apply Hreach.
Qed.

(** ** Inputs *)
Lemma mint_reach from mint w img : ledger_inv (ledger w) img -> Forall is_byte from ->
  (on_ledger (creditEther from mint) w).1 <> Diverge /\ reach w img (on_ledger (creditEther from mint) w).2.
Proof.
  intros Hi Hb. apply reach_run; [done|by apply reach_refl|by apply on_ledger_keeps, creditEther_keeps|].
  intros. by apply on_ledger_tracks, creditEther_tracks.
Qed.

Lemma mint_refused_spec w0 img0 w reason : at_rest w0 img0 -> reach w0 img0 w ->
  returns (rollbackAll;; mret (reject reason)) w (answered w0 img0).
Proof.
  intros Hrest Hr. apply returns_bind. eapply returns_mono; [by apply (rollbackAll_spec w0 img0)|].
  intros [] w' Hw'. apply returns_ret, refused_answered; [done|]. split; [done|]. by exists reason.
Qed.

Lemma advanceDeposit_spec r block from to mint value data w img : router_sound r -> at_rest w img ->
  Forall is_byte from -> (forall a, to = Some a -> Forall is_byte a) -> Forall is_byte data ->
  returns (advanceDeposit r block from to mint value data) w (answered w img).
Proof.
  intros Hr Hrest Hf Ht Hd. pose proof (mint_reach from mint w img (proj1 Hrest) Hf) as [Hnd Hreach].
  destruct to as [to|]; cbn [advanceDeposit].
  - apply returns_bind, returns_try, wp_bind. unfold wp.
    destruct (on_ledger (creditEther from mint) w) as [[[]|e|] w1]; simpl in *; [| |done].
    + apply returns_bind. unfold on_ledger, mark. apply returns_zoom, returns_gets.
      pose proof Hreach as ([img1 Hi1] & _). replace (set_ledger (ledger w1) w1) with w1 by by destruct w1.
      eapply execute_spec; try done; [|by left]. constructor; simpl; auto.
    + apply returns_bind. eapply returns_mono; [by apply (rollbackAll_spec w img)|]. intros [] w' Hw'.
      apply returns_ret. simpl. apply returns_ret, refused_answered; [done|]. split; [done|]. by eexists.
  - apply returns_try, wp_bind. unfold wp.
    destruct (on_ledger (creditEther from mint) w) as [[[]|e|] w1]; simpl in *; [|by apply mint_refused_spec|done].
    pose proof Hreach as ([img1 Hi1] & Hle & _). split_and!; [|done..]. exists img1. by apply committed_rest.
Qed.

(** A read leaves the ledger as it was. *)
Lemma account_quiet l img a : ledger_wf l img -> zlen a = 20 -> isZero a = false ->
  returns (account a) l (fun r l' => r = account_view l img a /\ restored l img l' /\ only_drive l l').
Proof.
  intros Hwf Hl Hz. pose proof Hwf as [[Hh H1 H2 H3 H4 H5 H6 H7 H8 H9] Hf].
  unfold account. apply returns_bind, returns_zoom.
  eapply returns_mono; [apply (@getAccount_spec (JStore S) _ (JStore_quiet (journal l)) _ _ (drive l) img _ a);
    [by constructor|by apply toAddress_bytes|done]|].
  intros r d' [-> (s' & -> & [Hs Hj])]. apply returns_ret. split_and!; [|done..].
  unfold account_view. by destruct (account_of _ _ _) as [[]|].
Qed.

Lemma account_zero l a : zlen a = 20 -> isZero a = true -> raises (account a) l err_zeroAddress (fun l' => l' = l).
Proof.
  intros Hl Hz. unfold account, getAccount, nonzero_address. unfold raises, wp, with_drive, zoom, mbind, M_bind, liftO.
  rewrite (toAddress_bytes a Hl). simpl. rewrite Hz. by destruct l.
Qed.

Lemma restored_trans l1 img l2 l3 : restored l1 img l2 -> restored l2 img l3 -> restored l1 img l3.
Proof.
  intros (_ & (?&?&?) & ? & Hr & ?) (? & (?&?&?) & ? & Hr' & ?).
  split_and!; [done|split_and!; congruence|congruence|by rewrite Hr'|congruence].
Qed.

Lemma answered_after w0 w1 img res w' : restored (ledger w0) img (ledger w1) -> answered w1 img res w' ->
  answered w0 img res w'.
Proof.
  intros Hr (Hrest & Hle & Href & Hrev). split_and!; [done| | |done].
  { etrans; [|exact Hle]. apply ram_le_equiv, Hr. }
  intros Hf. destruct (Href Hf) as [Hr' Hreason].
  split; [|done]. by eapply restored_trans.
Qed.

Lemma restored_refl l img : ledger_wf l img -> restored l img l.
Proof. intros Hwf. by split_and!. Qed.

(** A signature the code throws over rather than rejects: its [s] is the empty
    string, or it recovers to the zero address. *)
Definition bad_signature (s : Hex) (raw : bytes) (e : exn) : Prop :=
  (s = [] /\ e = JsError "Cannot convert 0x to a BigInt")
  \/ (exists sender, recoverSender s raw = Val (Some sender) /\ isZero sender = true /\ e = err_zeroAddress).
(** The inputs an exception escapes from: signed transactions of this chain
    with such a signature. *)
Definition escapes (r : Router S App) (raw : bytes) (e : exn) : Prop :=
  exists t chain nonce to value data s, parseInput raw = PSigned t chain nonce (Some to) value data s raw
    /\ (forall c, chain = Some c -> c = rc_chainId (rcfg r)) /\ bad_signature s raw e.

(** Answered, or thrown out of for one of the causes [P], with the ledger as it
    was. *)
Definition survived (P : exn -> Prop) w img (o : outcome AdvanceResult) w' : Prop :=
  match o with
  | Val res => answered w img res w'
  | Exn e => restored (ledger w) img (ledger w') /\ P e
  | Diverge => False
  end.

Lemma returns_survived P (m : M W AdvanceResult) w img : returns m w (answered w img) -> wp m w (survived P w img).
Proof. unfold returns, wp. by destruct (m w) as [[]]. Qed.

Lemma rejected_survived P w img reason : at_rest w img -> wp (mret (reject reason) : M W _) w (survived P w img).
Proof.
  intros Hrest. apply returns_survived, returns_ret, refused_answered; [done|].
  split; [apply restored_refl, Hrest|by exists reason].
Qed.

Lemma advanceSigned_spec r block chain nonce to value data s raw w img : router_sound r -> at_rest w img ->
  (forall a, to = Some a -> Forall is_byte a) -> Forall is_byte data ->
  wp (advanceSigned r block chain nonce to value data s raw) w (survived (fun e => is_Some to
    /\ (forall c, chain = Some c -> c = rc_chainId (rcfg r)) /\ bad_signature s raw e) w img).
Proof.
  intros Hr Hrest Ht Hd. pose proof Hrest as [[Hwf _] _].
  destruct to as [to|]; cbn [advanceSigned]; [|by apply rejected_survived].
  destruct (match chain with Some _ => _ | None => _ end) eqn:Hchain; [by apply rejected_survived|].
  assert (Hch : forall c, chain = Some c -> c = rc_chainId (rcfg r)).
  { intros c ->. by apply negb_false_iff, Z.eqb_eq in Hchain. }
  apply wp_bind. unfold wp at 1, liftO. cbn [fst snd]. destruct (recoverSender s raw) as [[sender|]|e|] eqn:Hrs.
  2: by apply rejected_survived.
  2: { split; [by apply restored_refl|]. split_and!; [done..|]. revert Hrs. unfold recoverSender.
       destruct s as [|b s]; cbn [BigInt_of_hex mbind outcome_bind]; [intros [= <-]; by left|].
       destruct (HALF_N <? _); [done|]. by destruct (recoverTransactionAddress raw). }
  2: { revert Hrs. unfold recoverSender. destruct s as [|b s]; cbn [BigInt_of_hex mbind outcome_bind]; [done|].
       destruct (HALF_N <? _); [done|]. destruct (recoverTransactionAddress raw) eqn:Hrec; [done..|]. by destruct (recovery_ends raw). }
  assert (Hrec : is_address sender).
  { revert Hrs. unfold recoverSender. destruct s as [|b s]; cbn [BigInt_of_hex mbind outcome_bind]; [done|].
    destruct (HALF_N <? _); [done|]. destruct (recoverTransactionAddress raw) eqn:Hrec; [|done..]. intros [= <-]. by eapply recovered_address. }
  destruct Hrec as [Hl Hb]. apply wp_bind. unfold on_ledger at 1. unfold wp at 1, zoom.
  destruct (isZero sender) eqn:Hz.
  { destruct (account_zero (ledger w) sender Hl Hz) as [Hrun Hst]. destruct (account sender (ledger w)) as [o l'].
    simpl in *. subst. split; [by apply restored_refl|]. split_and!; [done..|right; by exists sender]. }
  pose proof (account_quiet (ledger w) img sender Hwf Hl Hz) as Hacc.
  apply returns_elim in Hacc as (acc & l1 & Hrun & _ & Hres & _). rewrite Hrun. simpl.
  set (w1 := set_ledger l1 w). assert (Hrest1 : at_rest w1 img) by (by apply (rest_restored w)).
  apply (wp_mono _ _ (survived (fun _ => False) w1 img)).
  { intros [res|e|] w'; simpl; [by apply answered_after|by intros [_ ?]|done]. }
  destruct (negb _); [by apply rejected_survived|].
  apply wp_bind. unfold wp at 1. simpl. destruct (_ <? _); [by apply rejected_survived|].
  apply returns_survived, returns_bind, returns_zoom, returns_gets. simpl.
  apply (execute_spec r _ w1 img w1 img); try done; [..|by right|by intros ? ? [= <- _]].
  - constructor; simpl; auto.
  - apply Hrest1.
  - apply reach_refl; [apply Hrest1|done].
Qed.

Lemma parsed_data raw tx : parseTransaction raw = Val tx -> Forall is_byte (dataBytes (ptx_data tx)).
Proof.
  intros Hp. apply parsed_transaction in Hp as [_ _ Hd _ _]. unfold dataBytes.
  destruct (ptx_data tx) as [d|]; [by apply Hd|constructor].
Qed.

(** What [parseInput] hands on is made of bytes. *)
Lemma parsed_deposit raw from to mint value data : parseInput raw = PDeposit from to mint value data ->
  Forall is_byte from /\ (forall a, to = Some a -> Forall is_byte a) /\ Forall is_byte data.
Proof.
  unfold parseInput. destruct (parseTransaction raw) as [tx|e|] eqn:Hp; [|done..].
  pose proof (parsed_data raw tx Hp) as Hd. apply parsed_transaction in Hp as [Hfrom Hto _ _ _].
  destruct (bool_decide _); [|by repeat case_match]. destruct (ptx_from tx) as [a|] eqn:Ha; [|done].
  intros [= -> <- _ _ <-]. split_and!; [by apply Hfrom|intros b Hb; by apply Hto|done].
Qed.
Lemma parsed_signed raw t chain nonce to value data s raw' : parseInput raw = PSigned t chain nonce to value data s raw' ->
  raw' = raw /\ (forall a, to = Some a -> Forall is_byte a) /\ Forall is_byte data.
Proof.
  unfold parseInput. destruct (parseTransaction raw) as [tx|e|] eqn:Hp; [|done..].
  pose proof (parsed_data raw tx Hp) as Hd. apply parsed_transaction in Hp as [_ Hto _ _ _].
  destruct (bool_decide _); [by repeat case_match|]. destruct (admitted_type _); [|done].
  destruct (ptx_r tx), (ptx_s tx); try done. destruct (negb _); [done|].
  intros [= _ _ _ <- _ <- _ <-]. split_and!; [done|intros b Hb; by apply Hto|done].
Qed.

Lemma advance_input_spec r block raw w img : router_sound r -> at_rest w img ->
  wp (advance_input r block raw) w (survived (escapes r raw) w img).
Proof.
  intros Hr Hrest. unfold advance_input.
  assert (Hopaque : wp (mret (mkResult true [Report (tagged TAG_APP raw)] Kopaque None) : M W _) w (survived (escapes r raw) w img)).
  { split_and!; [by exists img|done..]. }
  destruct (parseInput raw) as [from to mint value data|t chain nonce to value data s raw'| |reason] eqn:Hpi.
  - apply parsed_deposit in Hpi as (Hfrom & Hto & Hd). by apply returns_survived, advanceDeposit_spec.
  - pose proof (parsed_signed _ _ _ _ _ _ _ _ _ Hpi) as (-> & Hto & Hd).
    eapply wp_mono; [|by apply (advanceSigned_spec r block chain nonce to value data s raw w img)].
    intros [res|e|] w'; simpl; [done| |done]. intros (Hres & [a ->] & Hc & Hbad). split; [done|].
    by exists t, chain, nonce, a, value, data, s.
  - done.
  - by apply rejected_survived.
Qed.

(** The converse: such an input does throw, for that cause. *)
Lemma escapes_throw r block raw w img e : at_rest w img -> escapes r raw e ->
  raises (advance_input r block raw) w e (fun w' => restored (ledger w) img (ledger w')).
Proof.
  intros [[Hwf _] _] (t & chain & nonce & to & value & data & s & Hp & Hc & Hbad).
  pose proof (restored_refl _ _ Hwf) as Hrefl. unfold advance_input. rewrite Hp. cbn [advanceSigned].
  assert ((match chain with Some c => negb (c =? rc_chainId (rcfg r)) | None => false end) = false) as ->.
  { destruct chain as [c|]; [|done]. by rewrite (Hc c eq_refl), Z.eqb_refl. }
  destruct Hbad as [[-> ->]|(sender & Hs & Hz & ->)]; [by split|].
  unfold raises, wp, mbind, M_bind, liftO. rewrite Hs. unfold on_ledger, zoom.
  assert (Hl : zlen sender = 20).
  { revert Hs. unfold recoverSender. destruct s as [|b s]; cbn [BigInt_of_hex mbind outcome_bind]; [done|].
    destruct (HALF_N <? _); [done|]. destruct (recoverTransactionAddress raw) eqn:Hrec; [|done..]. intros [= <-].
    by eapply recovered_address. }
  destruct (account_zero (ledger w) sender Hl Hz) as [Hrun Hst]. destruct (account sender (ledger w)) as [o l'].
  simpl in *. subst. by split.
Qed.

(** ** Inspecting *)

(** Terminates and leaves the ledger as it was. *)
Definition harmless {A} (m : M W A) : Prop := forall w img, ledger_inv (ledger w) img ->
  (m w).1 <> Diverge /\ restored (ledger w) img (ledger (m w).2).

Lemma harmless_ret {A} (a : A) : harmless (mret a).
Proof. intros w img [Hwf _]. split; [done|by apply restored_refl]. Qed.

Lemma harmless_asks {A B} (f : Ledger S -> A) (k : A -> M W B) : (forall a, harmless (k a)) -> harmless (x ← asks f; k x).
Proof. intros Hk w img. apply (Hk (f (ledger w))). Qed.

Lemma harmless_bind {A B} (m : M W A) (k : A -> M W B) : harmless m -> (forall a, harmless (k a)) -> harmless (x ← m; k x).
Proof.
  intros Hm Hk w img Hi. destruct (Hm w img Hi) as [Hd Hr]. unfold mbind, M_bind.
  destruct (m w) as [[a|e|] w1]; simpl in *; [|done..]. pose proof (inv_restored _ _ _ Hi Hr) as Hi1.
  destruct (Hk a w1 img Hi1) as [Hd1 Hr1]. split; [done|by eapply restored_trans].
Qed.

Lemma harmless_try {A} (m : M W A) (h : exn -> M W A) : harmless m -> (forall e, harmless (h e)) -> harmless (try_catch m h).
Proof.
  intros Hm Hk w img Hi. destruct (Hm w img Hi) as [Hd Hr]. unfold try_catch.
  destruct (m w) as [[a|e|] w1]; simpl in *; [done| |done]. pose proof (inv_restored _ _ _ Hi Hr) as Hi1.
  destruct (Hk e w1 img Hi1) as [Hd1 Hr1]. split; [done|by eapply restored_trans].
Qed.

Lemma tokenBalance_harmless a id : harmless (on_ledger (tokenBalance a id)).
Proof.
  intros w img Hi. destruct (tokenBalance_keeps a id (ledger w) img Hi) as [Hd _].
  pose proof (proj1 Hi) as Hwf. pose proof Hwf as [[Hh H1 H2 H3 H4 H5 H6 H7 H8 H9] Hf].
  revert Hd. unfold on_ledger, tokenBalance, with_drive, zoom. set (l := ledger w) in *.
  destruct (decide (token_access (drive l) a id)) as [(Hl & Hz & Hid & Hp)|Hno].
  - pose proof (@getTokenBalance_spec (JStore S) _ (JStore_quiet (journal l)) _ _ (drive l) img (AddrBytes a) a id
      ltac:(by constructor) (toAddress_bytes a Hl) Hz Hid Hp) as Hg.
    apply returns_elim in Hg as (v & d' & -> & _ & (s' & -> & [Hs Hj])). intros _. split; [done|]. by split_and!.
  - destruct (balance_refused _ _ _ Hno) as [e He]. unfold raises, wp in He.
    destruct (getTokenBalance _ _ (drive l)) as [o d']. simpl in He. destruct He as [-> ->]. intros _.
    split; [done|]. by split_and!.
Qed.

Definition callbacks_harmless (spec : ContractSpec S App) : Prop :=
  forall name cb, spec_views spec name = Some cb -> forall args call, harmless (cb args call).
Definition views_harmless (r : Router S App) : Prop :=
  forall a h v, (a, RApp h) ∈ manifest r -> view h = Some v -> forall call, harmless (v call).

Ltac hstep :=
  match goal with
  | |- harmless (vrevert _) => apply harmless_ret
  | |- harmless (vreturn _ _) => apply harmless_ret
  | |- harmless (mret _) => apply harmless_ret
  | |- harmless (asks _ ≫= _) => apply harmless_asks; intros ?
  | |- harmless (_ ≫= _) => apply harmless_bind; [|intros ?]
  | |- harmless (on_ledger (tokenBalance _ _)) => apply tokenBalance_harmless
  | |- harmless (try_catch _ _) => apply harmless_try; [|intros ?]
  | |- harmless (gets _) => intros ? ? [??]; split; [done|by apply restored_refl]
  | |- harmless (if ?b then _ else _) => destruct b
  | |- harmless (match ?x with _ => _ end) => destruct x
  end.

Lemma contract_view_harmless spec call : callbacks_harmless spec -> harmless (contract_view spec call).
Proof.
  intros Hcb. unfold contract_view. destruct (tryDecodeCalldata _ _) as [[name args]|]; [|hstep].
  destruct (negb _); [hstep|]. destruct (spec_views spec name) as [cb|] eqn:Hs; repeat hstep. by eapply Hcb.
Qed.

Lemma routed_view_harmless r to l h v call : views_harmless r -> resolve r to None None l = Some h ->
  routed_view r h = Some v -> harmless (v call).
Proof.
  intros Hr Hres Hv. destruct h; simpl in Hv; try (injection Hv as <-); try done;
    try (unfold registry_view, config_view, l1block_view, messenger_view, erc20_view; repeat hstep; done).
  unfold resolve in Hres. destruct (manifest_get _ _) as [h'|] eqn:Hm; [|by repeat case_match].
  injection Hres as ->. by eapply Hr; [apply manifest_get_In|].
Qed.

Lemma harmless_returns {A} (m : M W A) w img : ledger_inv (ledger w) img -> harmless m ->
  (forall e w', m w <> (Exn e, w')) -> returns m w (fun _ w' => restored (ledger w) img (ledger w')).
Proof.
  intros Hi Hm Hno. destruct (Hm w img Hi) as [Hd Hr]. unfold returns, wp.
  destruct (m w) as [[a|e|] w']; simpl in *; [done|by destruct (Hno e w')|done].
Qed.

Lemma caught {A} (m : M W A) (k : exn -> A) w e w' : try_catch m (fun e => mret (k e)) w <> (Exn e, w').
Proof. unfold try_catch. by destruct (m w) as [[]]. Qed.

Lemma inspect_view_spec r c w img : views_harmless r -> ledger_inv (ledger w) img ->
  returns (inspect_view r c) w (fun _ w' => restored (ledger w) img (ledger w')).
Proof.
  intros Hr Hi. pose proof (restored_refl _ _ (proj1 Hi)) as Hrefl.
  unfold inspect_view. apply returns_bind, returns_gets.
  destruct (resolve r _ _ _ (ledger w)) as [h|] eqn:Hres; [|by apply returns_ret].
  destruct (routed_view r h) as [v|] eqn:Hv; [|by apply returns_ret].
  apply harmless_returns; [done|repeat hstep; by eapply routed_view_harmless|].
  intros e w'. apply caught.
Qed.

Lemma inspect_simulate_spec r lb c w img : router_sound r -> ledger_inv (ledger w) img ->
  is_address (dc_from c) -> is_address (dc_to c) -> Forall is_byte (dc_data c) ->
  returns (inspect_simulate r lb c) w (fun _ w' => restored (ledger w) img (ledger w')).
Proof.
  intros Hr Hi [_ Hf] [_ Ht] Hd. unfold inspect_simulate. apply returns_mark.
  apply returns_bind, returns_modify. set (w' := set_sink _ w). set (ctx := mkTx _ _ _ _ _ _ _).
  destruct (run_handler_sound r ctx None w img w' Hr ltac:(by constructor) Hi (reach_refl w img w' Hi eq_refl)) as [Hnd Hr1].
  assert (Hafter : forall w1 (res : InspectResult), reach w img w1 ->
    returns (on_ledger (rollbackTo (zlen (journal (ledger w))));; on_ledger afterRollback;; mret res) w1
      (fun _ w' => restored (ledger w) img (ledger w'))).
  { intros w1 res Hr2. pose proof (reach_rollback w img w1 Hi Hr2) as Hb. revert Hb.
    unfold returns, wp, mbind, M_bind. destruct (on_ledger (rollbackTo _) w1) as [[[]|?|] ?]; [|done..].
    destruct (on_ledger afterRollback _) as [[[]|?|] ?]; [|done..]. by intros [? _]. }
  apply returns_bind, returns_try. unfold wp. destruct (run_handler r ctx None w') as [[o|e|] w1]; [..|done].
  - by apply Hafter.
  - by apply returns_ret, Hafter.
Qed.

Lemma decoded_call payload c : decodeEvmCall payload = Some c ->
  is_address (dc_from c) /\ is_address (dc_to c) /\ Forall is_byte (dc_data c).
Proof.
  unfold decodeEvmCall. destruct (_ <? _); [done|]. destruct (_ && _); [done|].
  destruct (decodeAbiParameters _ _) as [vs|?|] eqn:Hd; [|done..]. apply abi_typed in Hd.
  unfold CALL_PARAMS in Hd. inversion_clear Hd as [|v1 ? ? ? H1 Hd1]. inversion_clear Hd1 as [|v2 ? ? ? H2 Hd2].
  inversion_clear Hd2 as [|v3 ? ? ? H3 Hd3]. inversion_clear Hd3 as [|v4 ? ? ? H4 Hd4].
  inversion_clear Hd4 as [|v5 ? ? ? H5 Hd5]. inversion_clear Hd5.
  destruct v1; try done. destruct v2; try done. destruct v3; try done. destruct v4; try done. destruct v5; try done.
  intros [= <-]. simpl in *. done.
Qed.

Lemma inspect_spec r lb payload w img : router_sound r -> views_harmless r -> ledger_inv (ledger w) img ->
  returns (inspect r lb payload) w (fun _ w' => restored (ledger w) img (ledger w')).
Proof.
  intros Hr Hv Hi. unfold inspect. destruct (decodeEvmCall payload) as [c|] eqn:Hc.
  - apply decoded_call in Hc as (? & ? & ?). destruct (dc_simulate c); [by apply inspect_simulate_spec|].
    by apply inspect_view_spec.
  - apply returns_ret. apply restored_refl, Hi.
Qed.
End RouterSpec.
