(* ===== verification/Effects.v ===== *)
(** * What transactions do to balances

    The functional behaviour of app/src/router.ts on the paths every input
    takes: a plain transfer moves its value and pays its fee, a revert keeps
    only the charge, a deposit's mint survives one. *)

From Stdlib Require Import ZArith Lia.
From S2P Require Import Prelude Sums Bytes Store DriveConfig DriveHeader RobinHood DriveTable Drive DriveTokens.
From S2P Require Import DriveFormat Evm Ledger Journal DriveJournal LedgerJournal LedgerSpec LedgerInv Handlers Router HandlersJournal.
From S2P Require Import HandlersInv RouterSpec.

Section Effects.
Context {S App : Type} {HS : Store S} {HR : StoreReads S} {HW : StoreWrites S} {HG : StoreGuards S}
  {HK : Keccak} {HKL : KeccakLaws} {HV : Viem} {HI : InputLaws} {HC : Calldata} {HCL : CalldataLaws}.
Abbreviation W := (World S App).
Implicit Types w : W.
Implicit Types l : Ledger S.
Implicit Types img : bytes.
Abbreviation lcfg l := (cfg (drive l)).

(** ** Rewriting one account of many *)

(** [l'] is [l] but for the accounts, which are what [f] says. *)
Definition accounts_become l img (f : Address -> Z * Z) l' img' : Prop :=
  ledger_wf l' img' /\ only_drive l l' /\ (forall a, account_view l img' a = f a)
  /\ (forall id a, token_balance (lcfg l) (tokens_ (drive l)) img' id a = token_balance (lcfg l) (tokens_ (drive l)) img id a).

Lemma live_count l img : ledger_wf l img ->
  count_at OFF_LIVE_COUNT img = Z.of_nat (size (table_map (accountsTable (lcfg l)) img)).
Proof. intros [[_ _ _ Hacc _ _ _ _ _ _] _]. by rewrite (inv_map_size _ _ _ Hacc). Qed.

Lemma account_dom c img a : is_Some (account_of c img a) <-> a ∈ dom (table_map (accountsTable c) img).
Proof. unfold account_of. by rewrite fmap_is_Some, elem_of_dom. Qed.

(** Rewriting an account leaves room for the same ones. *)
Lemma account_set_room l img a data l' img' : ledger_wf l img -> account_set l img a data l' img' ->
  is_Some (account_of (lcfg l) img a) -> forall b, has_room l img b -> has_room l img' b.
Proof.
  intros Hwf (Hwf' & Hod & Ha & Hoth & _) Hex b Hroom. pose proof Hod as ((Hc & _) & _).
  assert (Hdom : dom (table_map (accountsTable (lcfg l)) img') = dom (table_map (accountsTable (lcfg l)) img)).
  { apply set_eq. intros x. rewrite <- !account_dom. destruct (decide (x = a)) as [->|Hne]; [|by rewrite Hoth].
    by rewrite Ha. }
  destruct Hroom as [Hs|Hlt].
  - left. rewrite account_dom, Hdom, <- account_dom in *. done.
  - right. pose proof (live_count l' img' Hwf') as Hl'. rewrite Hc in Hl'. rewrite Hl', <- size_dom, Hdom, size_dom.
    by rewrite <- live_count.
Qed.

Lemma account_set_become l img a data l' img' : account_set l img a data l' img' ->
  accounts_become l img (fun b => if decide (b = a) then data else account_view l img b) l' img'.
Proof.
  intros (Hwf & Hod & Ha & Hoth & Htok). split_and!; try done. intros b. unfold account_view.
  case_decide as Hb; [subst; by rewrite Ha|by rewrite Hoth].
Qed.

Lemma become_trans l1 i1 f l2 i2 g l3 i3 : accounts_become l1 i1 f l2 i2 -> accounts_become l2 i2 g l3 i3 ->
  accounts_become l1 i1 g l3 i3.
Proof.
  intros (_ & Hod1 & _ & Ht1) (Hwf & Hod2 & Hv & Ht2). pose proof Hod1 as ((Hc & Ht & _) & _).
  split_and!; [done|by eapply only_drive_trans| |].
  - intros a. rewrite <- Hv. unfold account_view. by rewrite Hc.
  - intros id a. rewrite <- Ht1. rewrite Hc, Ht in Ht2. apply Ht2.
Qed.

Lemma become_ext l i f g l' i' : (forall a, f a = g a) -> accounts_become l i f l' i' -> accounts_become l i g l' i'.
Proof. intros Hfg (? & ? & Hv & ?). split_and!; try done. intros a. by rewrite Hv. Qed.

(** [v] taken from [s] and given to [t]. *)
Definition moved l img (s t : Address) (v : Z) (a : Address) : Z * Z :=
  ((account_view l img a).1,
   (account_view l img a).2 - (if decide (a = s) then v else 0) + (if decide (a = t) then v else 0)).

Lemma view_exists l img a : 0 < (account_view l img a).2 -> is_Some (account_of (lcfg l) img a).
Proof. unfold account_view. destruct (account_of _ _ _); [done|simpl; lia]. Qed.

Lemma transfer_spec l img s t v : ledger_wf l img -> valid_address s -> valid_address t ->
  0 <= v <= (account_view l img s).2 -> fits_width (balance_width (lcfg l)) ((account_view l img t).2 + v) ->
  has_room l img s -> has_room l img t ->
  returns (debitEther s v;; creditEther t v) l (fun _ l' => exists img',
    accounts_become l img (moved l img s t v) l' img' /\ has_room l img' s).
Proof.
  intros Hwf Hs Ht Hv Hfit Hrs Hrt. apply returns_bind. destruct (decide (v = 0)) as [->|Hnz].
  { apply returns_ret. exists img. split; [|done]. split_and!; try done. intros a. unfold moved.
    destruct (account_view l img a). repeat case_decide; simpl; f_equal; lia. }
  assert (Hex : is_Some (account_of (lcfg l) img s)) by (apply view_exists; lia).
  eapply returns_mono; [apply (debit_spec l img s v Hwf Hs); lia|]. intros [] l1 (img1 & Hset1).
  pose proof (account_set_room _ _ _ _ _ _ Hwf Hset1 Hex t Hrt) as Hrt1.
  pose proof (account_set_become _ _ _ _ _ _ Hset1) as Hb1.
  pose proof Hb1 as (Hwf1 & Hod1 & Hv1 & _). pose proof Hod1 as ((Hc & _) & _).
  assert (Hview : account_view l1 img1 t = ((account_view l img t).1, (account_view l img t).2 - if decide (t = s) then v else 0)).
  { rewrite (only_drive_view l l1) by done. rewrite Hv1. case_decide; subst; [done|].
    destruct (account_view l img t). simpl. f_equal. lia. }
  destruct (account_view_bounds l img t Hwf) as [_ Hbt].
  eapply returns_mono; [apply (credit_spec l1 img1 t v Hwf1 Ht Hnz)|].
  - rewrite Hview, Hc. unfold fits_width in *. simpl. case_decide; subst; lia.
  - unfold has_room in *. by rewrite Hc.
  - intros [] l2 (img2 & Hset2). exists img2. pose proof (account_set_become _ _ _ _ _ _ Hset2) as Hb2. split.
    + eapply become_ext; [|by eapply become_trans]. intros a. unfold moved. simpl. rewrite Hview, (only_drive_view l l1) by done.
      rewrite Hv1. repeat case_decide; subst; try done; simpl; try (destruct (account_view l img a); simpl); f_equal; lia.
    + left. destruct Hset2 as (_ & _ & Hat & Hoth & _). rewrite Hc in Hat, Hoth.
      destruct (decide (s = t)) as [->|Hne]; [by rewrite Hat|]. rewrite Hoth by done.
      destruct Hset1 as (_ & _ & Has & _). by rewrite Has.
Qed.

(** ** The fee *)
Definition charged l img (s : Address) (f : Z) (a : Address) : Z * Z :=
  if decide (a = s) then ((account_view l img s).1 + 1, (account_view l img s).2 - f) else account_view l img a.

Lemma charged_spec l img s f : ledger_wf l img -> valid_address s -> 0 <= f <= (account_view l img s).2 ->
  (account_view l img s).1 + 1 < nonce_modulus (lcfg l) -> has_room l img s ->
  returns (bumpNonceAndCharge s f) l (fun _ l' => exists img', accounts_become l img (charged l img s f) l' img').
Proof.
  intros Hwf Hs Hf Hn Hr. eapply returns_mono; [by apply charge_spec|]. intros [] l' (img' & Hset). exists img'.
  by apply account_set_become.
Qed.

Lemma on_ledger_returns {A} (m : M (Ledger S) A) w (Q : A -> W -> Prop) :
  returns m (ledger w) (fun a l' => Q a (set_ledger l' w)) -> returns (on_ledger m) w Q.
Proof. apply returns_zoom. Qed.

(** A settlement whose charge goes through. *)
Lemma settle_charged w img s f ok : ledger_wf (ledger w) img -> valid_address s ->
  0 <= f <= (account_view (ledger w) img s).2 ->
  (account_view (ledger w) img s).1 + 1 < nonce_modulus (lcfg (ledger w)) -> has_room (ledger w) img s ->
  returns (settle (Some (s, f)) ok) w (fun res w' => res = ok (sink w) /\ journal (ledger w') = []
    /\ exists img', accounts_become (ledger w) img (charged (ledger w) img s f) (ledger w') img').
Proof.
  intros Hwf Hs Hf Hn Hr. unfold settle, charge. apply returns_bind.
  pose proof (charged_spec (ledger w) img s f Hwf Hs Hf Hn Hr) as Hc.
  apply returns_elim in Hc as ([] & l' & Hrun & img' & Hb).
  apply returns_try, wp_bind. unfold wp, on_ledger, zoom. rewrite Hrun. simpl. split_and!; [done..|].
  exists img'. destruct Hb as (Hwf' & Hod & Hv & Htok). split_and!; [|done..].
  destruct Hwf' as [[Hh' H1 H2 H3 H4 H5 H6 H7 H8 H9] Hfac]. split; [by constructor|done].
Qed.

(** ** Totals *)
Lemma become_ether l img f l' img' : accounts_become l img f l' img' -> forall a, ether_of (lcfg l) img' a = (f a).2.
Proof. intros (_ & _ & Hv & _) a. rewrite <- Hv. done. Qed.

Lemma ether_charged l img s f l' img' : accounts_become l img (charged l img s f) l' img' ->
  ether_total (lcfg l) img' = ether_total (lcfg l) img - f.
Proof.
  intros Hb. unfold ether_total.
  rewrite (sum_over_update (ether_of (lcfg l) img) (ether_of (lcfg l) img') _ _ s
    (ether_supported _ _) (ether_supported _ _)).
  - rewrite (become_ether _ _ _ _ _ Hb s). unfold charged. rewrite decide_True by done. simpl.
    unfold ether_of, account_view. lia.
  - intros b Hne. rewrite (become_ether _ _ _ _ _ Hb b). unfold charged. by rewrite decide_False.
Qed.

Lemma ether_moved l img s t v l' img' : accounts_become l img (moved l img s t v) l' img' ->
  ether_total (lcfg l) img' = ether_total (lcfg l) img.
Proof.
  intros Hb. unfold ether_total. set (f := ether_of (lcfg l) img).
  set (h := fun a => f a - if decide (a = s) then v else 0).
  assert (Hh : supported h ({[s]} ∪ holders (lcfg l) img)).
  { intros a Ha. unfold h in Ha. destruct (decide (a = s)); [set_solver|].
    apply elem_of_union_r, ether_supported. fold f. lia. }
  rewrite (sum_over_update h (ether_of (lcfg l) img') _ _ t Hh (ether_supported _ _)).
  - rewrite (sum_over_update f h _ _ s (ether_supported _ _) Hh).
    + rewrite (become_ether _ _ _ _ _ Hb t). unfold moved, h. simpl.
      rewrite (decide_True (P := s = s)), (decide_True (P := t = t)) by done.
      change ((account_view l img t).2) with (f t). lia.
    + intros b Hne. unfold h. rewrite decide_False by done. lia.
  - intros b Hne. rewrite (become_ether _ _ _ _ _ Hb b). unfold moved, h. simpl. rewrite (decide_False (P := b = t)) by done.
    change ((account_view l img b).2) with (f b). lia.
Qed.

(** ** A plain transfer *)
Lemma on_ledger_two {B} (m1 m2 : M (Ledger S) unit) (k : M W B) w l1 : (m1;; m2) (ledger w) = (Val tt, l1) ->
  (on_ledger m1;; on_ledger m2;; k) w = k (set_ledger l1 w).
Proof.
  unfold mbind, M_bind, on_ledger, zoom. destruct (m1 (ledger w)) as [[[]|?|] l']; [|done..].
  intros Hrun. simpl. by rewrite Hrun.
Qed.

Lemma resolve_only_drive r to b d l l' : only_drive l l' -> resolve (App := App) r to b d l' = resolve r to b d l.
Proof.
  intros ((_ & Ht & _) & Hf & Hr). unfold resolve, portalKind, tokenByL2Address. by rewrite Hr, Hf, Ht.
Qed.

(** Value to the recipient, value and fee from the sender, one nonce. *)
Definition paid l img (s t : Address) (v f : Z) (a : Address) : Z * Z :=
  ((account_view l img a).1 + (if decide (a = s) then 1 else 0),
   (account_view l img a).2 - (if decide (a = s) then v + f else 0) + (if decide (a = t) then v else 0)).

Lemma transfer_execute r ctx mk f w img : ledger_wf (ledger w) img -> tx_isDeposit ctx = false ->
  let s := tx_sender ctx in let t := tx_to ctx in let v := tx_value ctx in let l := ledger w in
  valid_address s -> valid_address t -> resolve r t (Some (tx_block ctx)) None l = None ->
  0 <= v -> 0 <= f -> f + v <= (account_view l img s).2 ->
  fits_width (balance_width (lcfg l)) ((account_view l img t).2 + v) ->
  (account_view l img s).1 + 1 < nonce_modulus (lcfg l) -> has_room l img s -> has_room l img t ->
  returns (execute r ctx mk (Some (s, f))) w (fun res w' => res = mkResult true [] Kaccept None
    /\ journal (ledger w') = [] /\ exists img', accounts_become l img (paid l img s t v f) (ledger w') img'
    /\ ether_total (lcfg l) img' = ether_total (lcfg l) img - f).
Proof.
  intros Hwf Hdep s t v l Hs Ht Hres Hv Hf Hcover Hfit Hn Hrs Hrt. unfold execute. rewrite Hdep.
  apply returns_bind, returns_modify. apply returns_bind, returns_try. unfold run_handler.
  pose proof (transfer_spec l img s t v Hwf Hs Ht ltac:(lia) Hfit Hrs Hrt) as Htr.
  apply returns_elim in Htr as ([] & l1 & Hrun & img1 & Hb1 & Hrs1).
  pose proof Hb1 as (Hwf1 & Hod1 & Hv1 & _). pose proof Hod1 as ((Hc1 & _) & _).
  unfold wp. rewrite (on_ledger_two _ _ _ (set_sink (mkSink [] 0 (inputIndex (tx_block ctx))) w) l1 Hrun).
  set (w1 := set_ledger l1 _). unfold mbind, M_bind, asks, gets. change (ledger w1) with l1.
  rewrite (resolve_only_drive r _ _ _ l l1 Hod1). fold t. rewrite Hres. simpl.
  assert (Hvs : account_view l1 img1 s = ((account_view l img s).1,
    (account_view l img s).2 - v + (if decide (s = t) then v else 0))).
  { rewrite (only_drive_view l l1) by done. rewrite Hv1. unfold moved. by rewrite (decide_True (P := s = s)). }
  assert (0 <= if decide (s = t) then v else 0) by (case_decide; lia).
  eapply returns_mono; [apply (settle_charged w1 img1 s f)|].
  - done.
  - done.
  - change (ledger w1) with l1. rewrite Hvs. simpl. lia.
  - change (ledger w1) with l1. rewrite Hvs, Hc1. done.
  - change (ledger w1) with l1. unfold has_room in *. by rewrite Hc1.
  - change (ledger w1) with l1. intros res w' (-> & Hj & img' & Hb2). split_and!; [done..|]. exists img'.
    pose proof (ether_charged _ _ _ _ _ _ Hb2) as Hec. pose proof (ether_moved _ _ _ _ _ _ _ Hb1) as Hem.
    rewrite Hc1 in Hec. split; [|lia]. eapply become_ext; [|by eapply become_trans].
    intros a. unfold charged, paid. rewrite Hvs, (only_drive_view l l1), Hv1 by done. unfold moved.
    destruct (decide (a = s)) as [->|]; simpl; f_equal; lia.
Qed.

(** ** Admission *)
Definition chain_ok (r : Router S App) (chain : option Z) : Prop :=
  forall c, chain = Some c -> c = rc_chainId (rcfg r).

Lemma chain_test r chain : chain_ok r chain ->
  match chain with Some c => negb (c =? rc_chainId (rcfg r)) | None => false end = false.
Proof. intros Hc. destruct chain as [c|]; [|done]. rewrite (Hc c eq_refl). by rewrite Z.eqb_refl. Qed.

(** Up to the nonce check: the sender's account is read. *)
Lemma advanceSigned_reads r block chain nonce to value data s raw sender w img Q : ledger_wf (ledger w) img ->
  chain_ok r chain -> recoverSender s raw = Val (Some sender) -> valid_address sender ->
  (forall l1, restored (ledger w) img l1 -> only_drive (ledger w) l1 ->
   let acc := account_view (ledger w) img sender in let w1 := set_ledger l1 w in
   returns (if negb (nonce =? acc.1)
            then mret (reject ("nonce " +:+ pretty nonce +:+ ", account nonce " +:+ pretty acc.1)) else
            f ← asks (fun l => fee (ram l));
            if acc.2 <? f + value then mret (reject "balance does not cover fee and value") else
            mk ← on_ledger mark;
            execute r (mkTx block sender to value data false 0) mk (Some (sender, f))) w1 Q) ->
  returns (advanceSigned r block chain nonce (Some to) value data s raw) w Q.
Proof.
  intros Hwf Hchain Hrec (Hl & _ & Hz) Hk. unfold advanceSigned. rewrite chain_test by done.
  apply returns_bind. eapply returns_lift; [exact Hrec|]. cbv beta iota.
  apply returns_bind. apply on_ledger_returns. eapply returns_mono; [by apply account_quiet|].
  intros acc l1 (-> & Hres & Hod). by apply Hk.
Qed.

(** A replayed or out-of-order nonce is refused and changes nothing. *)
Lemma nonce_rejected r block chain nonce to value data s raw sender w img : ledger_wf (ledger w) img ->
  chain_ok r chain -> recoverSender s raw = Val (Some sender) -> valid_address sender ->
  nonce <> (account_view (ledger w) img sender).1 ->
  returns (advanceSigned r block chain nonce (Some to) value data s raw) w (refused w img).
Proof.
  intros Hwf Hc Hrec Hs Hn. eapply advanceSigned_reads; [done..|]. intros l1 Hres Hod. cbv zeta.
  rewrite (proj2 (Z.eqb_neq _ _)) by done. apply returns_ret. split; [done|by eexists].
Qed.

Lemma unaffordable_rejected r block chain to value data s raw sender w img : ledger_wf (ledger w) img ->
  chain_ok r chain -> recoverSender s raw = Val (Some sender) -> valid_address sender ->
  (account_view (ledger w) img sender).2 < fee (ram (ledger w)) + value ->
  returns (advanceSigned r block chain (account_view (ledger w) img sender).1 (Some to) value data s raw) w (refused w img).
Proof.
  intros Hwf Hc Hrec Hs Hb. eapply advanceSigned_reads; [done..|]. intros l1 Hres Hod. cbv zeta.
  rewrite Z.eqb_refl. apply returns_bind, returns_gets. destruct Hod as (_ & _ & Hr). simpl. rewrite Hr.
  rewrite (proj2 (Z.ltb_lt _ _)) by done. apply returns_ret. split; [done|by eexists].
Qed.

(** An admitted transaction is executed under the fee it was admitted with. *)
Lemma admitted_executes r block chain to value data s raw sender w img Q : ledger_wf (ledger w) img ->
  chain_ok r chain -> recoverSender s raw = Val (Some sender) -> valid_address sender ->
  fee (ram (ledger w)) + value <= (account_view (ledger w) img sender).2 ->
  (forall l1, restored (ledger w) img l1 -> only_drive (ledger w) l1 ->
   returns (execute r (mkTx block sender to value data false 0) (zlen (journal l1))
              (Some (sender, fee (ram (ledger w))))) (set_ledger l1 w) Q) ->
  returns (advanceSigned r block chain (account_view (ledger w) img sender).1 (Some to) value data s raw) w Q.
Proof.
  intros Hwf Hc Hrec Hs Hb Hk. eapply advanceSigned_reads; [done..|]. intros l1 Hres Hod. cbv zeta.
  rewrite Z.eqb_refl. apply returns_bind, returns_gets. pose proof Hod as (_ & _ & Hr). simpl. rewrite Hr.
  rewrite (proj2 (Z.ltb_ge _ _)) by done. apply returns_mark. by apply Hk.
Qed.

Lemma become_restored l img l1 f l' img' : only_drive l l1 -> accounts_become l1 img f l' img' ->
  accounts_become l img f l' img'.
Proof.
  intros Hod (Hwf & Hod' & Hv & Ht). pose proof Hod as ((Hc & Htk & _) & _). rewrite Hc, Htk in Ht.
  split_and!; [done|by eapply only_drive_trans| |done]. intros a. rewrite <- Hv. unfold account_view. by rewrite Hc.
Qed.

Lemma signed_transfer r block chain data s raw sender to value w img : ledger_wf (ledger w) img ->
  chain_ok r chain -> recoverSender s raw = Val (Some sender) ->
  let l := ledger w in let f := fee (ram l) in
  valid_address sender -> valid_address to -> resolve r to (Some block) None l = None ->
  0 <= value -> 0 <= f -> f + value <= (account_view l img sender).2 ->
  fits_width (balance_width (lcfg l)) ((account_view l img to).2 + value) ->
  (account_view l img sender).1 + 1 < nonce_modulus (lcfg l) -> has_room l img sender -> has_room l img to ->
  returns (advanceSigned r block chain (account_view l img sender).1 (Some to) value data s raw) w
    (fun res w' => res = mkResult true [] Kaccept None
    /\ journal (ledger w') = [] /\ exists img', accounts_become l img (paid l img sender to value f) (ledger w') img'
    /\ ether_total (lcfg l) img' = ether_total (lcfg l) img - f).
Proof.
  intros Hwf Hc Hrec l f Hs Ht Hres Hv Hf Hcover Hfit Hn Hrs Hrt. eapply admitted_executes; [done..|].
  intros l1 Hres1 Hod. pose proof Hod as ((Hc1 & _) & _).
  assert (Hview : forall a, account_view l1 img a = account_view l img a) by (intros; by apply only_drive_view).
  assert (Hroom : forall a, has_room l img a -> has_room l1 img a) by (unfold has_room; by rewrite Hc1).
  pose proof (transfer_execute r (mkTx block sender to value data false 0) (zlen (journal l1)) f (set_ledger l1 w) img
    (proj1 Hres1) eq_refl) as Htr. simpl in Htr.
  rewrite !Hview, Hc1, (resolve_only_drive r _ _ _ l l1 Hod) in Htr.
  eapply returns_mono; [apply Htr; auto|].
  intros res w' (-> & Hj & img' & Hb & He). split_and!; [done..|]. exists img'.
  split; [|done]. eapply become_ext; [|by eapply become_restored]. intros a. unfold paid. by rewrite Hview.
Qed.

(** ** Reverts *)

(** What is left of an attempt that was undone and charged for. *)
Definition only_charged w img (s : Address) (f : Z) w' : Prop :=
  journal (ledger w') = [] /\ ram (ledger w') ≡ ram (ledger w) /\ same_cache (ledger w) (ledger w')
  /\ facades (ledger w') = facades (ledger w)
  /\ exists img', ledger_wf (ledger w') img'
    /\ (forall a, account_view (ledger w) img' a = charged (ledger w) img s f a)
    /\ (forall id a, token_balance (lcfg (ledger w)) (tokens_ (drive (ledger w))) img' id a
                     = token_balance (lcfg (ledger w)) (tokens_ (drive (ledger w))) img id a)
    /\ ether_total (lcfg (ledger w)) img' = ether_total (lcfg (ledger w)) img - f.

(** The revert data of a handler's outcome: its own, or the error's. *)
Definition revert_data (o : outcome AdvanceOutcome) : option Hex :=
  match o with Val (ORevert data) => Some data | Exn e => Some (errorRevert (describe e)) | _ => None end.

Lemma charged_view l img l2 s f a : (forall a, account_view l2 img a = account_view l img a) ->
  charged l2 img s f a = charged l img s f a.
Proof. intros Hv. unfold charged. by rewrite !Hv. Qed.

Lemma returns_undo {A} mk (k : M W A) w Q :
  returns (on_ledger (rollbackTo mk);; on_ledger afterRollback) w (fun _ w' => returns k w' Q) ->
  returns (on_ledger (rollbackTo mk);; on_ledger afterRollback;; k) w Q.
Proof.
  unfold returns, wp, mbind, M_bind. destruct (on_ledger (rollbackTo _) w) as [[[]|?|] ?]; [|done..].
  by destruct (on_ledger afterRollback _) as [[[]|?|] ?].
Qed.

Lemma execute_reverts r ctx f w img data : router_sound r -> tx_ok ctx -> at_rest w img -> tx_isDeposit ctx = false ->
  let s := tx_sender ctx in let l := ledger w in let w0 := set_sink (mkSink [] 0 (inputIndex (tx_block ctx))) w in
  valid_address s -> 0 <= f <= (account_view l img s).2 ->
  (account_view l img s).1 + 1 < nonce_modulus (lcfg l) -> has_room l img s ->
  revert_data (run_handler r ctx None w0).1 = Some data ->
  returns (execute r ctx (zlen (journal l)) (Some (s, f))) w (fun res w' =>
    res = mkResult true (reportsOnly (sink (run_handler r ctx None w0).2) ++ [Report (tagged TAG_REVERT data)]) Krevert None
    /\ only_charged w img s f w').
Proof.
  intros Hr Hctx [Hi Hj] Hdep s l w0 Hs Hf Hn Hroom Hdata. unfold execute. rewrite Hdep.
  apply returns_bind, returns_modify. fold w0.
  destruct (run_handler_sound r ctx None w img w0 Hr Hctx Hi (reach_refl w img w0 Hi eq_refl)) as [_ Hreach].
  destruct (run_handler r ctx None w0) as [o w1] eqn:Hrun. simpl in Hdata, Hreach.
  assert (Hfin : returns (finish (zlen (journal l)) (Some (s, f)) (ORevert data)) w1 (fun res w' =>
    res = mkResult true (reportsOnly (sink w1) ++ [Report (tagged TAG_REVERT data)]) Krevert None
    /\ only_charged w img s f w')).
  { cbn [finish]. apply returns_undo. eapply returns_mono; [by apply (reach_rollback w img)|].
    intros [] w2 (Hres & Hsink). pose proof Hres as (Hwf2 & Hsc & Hfac & Hram & Hj2). pose proof Hsc as (Hc2 & Ht2 & _).
    assert (Hview : forall a, account_view (ledger w2) img a = account_view l img a) by (intros a; unfold account_view; by rewrite Hc2).
    eapply returns_mono; [apply (settle_charged w2 img s f); try done; rewrite ?Hview, ?Hc2; try done|].
    - unfold has_room in *. by rewrite Hc2.
    - intros res w' (-> & Hj' & img' & Hb). rewrite Hsink. split; [done|]. pose proof Hb as (Hwf' & ((Hc' & Ht' & Ho') & Hf' & Hr') & Hv' & Htok).
      pose proof (ether_charged _ _ _ _ _ _ Hb) as Het. rewrite Hc2, Ht2 in *.
      split_and!; [done|by rewrite Hr'| |congruence|].
      + destruct Hsc as (_ & _ & ?). split_and!; congruence.
      + exists img'. split_and!; try done. intros a. rewrite <- (charged_view _ _ _ _ _ _ Hview), <- Hv'.
        unfold account_view. by rewrite Hc2. }
  apply returns_bind, returns_try. unfold wp. rewrite Hrun.
  destruct o as [[|d|d|d]|e|]; try done; injection Hdata as <-; [exact Hfin|by apply returns_ret].
Qed.

(** ** Deposits *)
Definition minted l img (from : Address) (mint : Z) (a : Address) : Z * Z :=
  ((account_view l img a).1, (account_view l img a).2 + if decide (a = from) then mint else 0).

Lemma mint_spec l img from mint : ledger_wf l img -> valid_address from ->
  fits_width (balance_width (lcfg l)) ((account_view l img from).2 + mint) -> has_room l img from ->
  returns (creditEther from mint) l (fun _ l' => exists img', accounts_become l img (minted l img from mint) l' img').
Proof.
  intros Hwf Hf Hfit Hroom. destruct (decide (mint = 0)) as [->|Hnz].
  - apply returns_ret. exists img. split_and!; try done. intros a. unfold minted.
    destruct (account_view l img a). simpl. case_decide; f_equal; lia.
  - eapply returns_mono; [by apply credit_spec|]. intros [] l' (img' & Hset). exists img'.
    eapply become_ext; [|by apply account_set_become]. intros a. unfold minted. case_decide; subst; [done|].
    destruct (account_view l img a). simpl. f_equal. lia.
Qed.

Lemma become_inv l img f l' img' : ledger_inv l img -> accounts_become l img f l' img' -> ledger_inv l' img'.
Proof.
  intros (_ & Hs & Hx) (Hwf & Hod & _ & Htok). split_and!; [done|by eapply supply_only_drive|].
  destruct Hod as (_ & _ & Hr). apply (exclusive_same l); [by rewrite Hr..|done].
Qed.

(** A deposit whose handler reverts: the mint is all that is kept. *)
Lemma deposit_reverts r block from to mint value data d w img : router_sound r -> at_rest w img ->
  let l := ledger w in let ctx := mkTx block from to value data true mint in
  let w1 := set_sink (mkSink [] 0 (inputIndex block)) (on_ledger (creditEther from mint) w).2 in
  tx_ok ctx -> valid_address from -> fits_width (balance_width (lcfg l)) ((account_view l img from).2 + mint) ->
  has_room l img from -> (run_handler r ctx (Some from) w1).1 = Val (ORevert d) ->
  returns (advanceDeposit r block from (Some to) mint value data) w (fun res w' =>
    res = mkResult true (reportsOnly (sink (run_handler r ctx (Some from) w1).2) ++ [Report (tagged TAG_REVERT d)]) Krevert None
    /\ journal (ledger w') = [] /\ ram (ledger w') ≡ ram l
    /\ exists img', ledger_wf (ledger w') img' /\ (forall a, account_view l img' a = minted l img from mint a)
      /\ (forall id a, token_balance (lcfg l) (tokens_ (drive l)) img' id a = token_balance (lcfg l) (tokens_ (drive l)) img id a)).
Proof.
  intros Hr [Hi Hj] l ctx w1 Hctx Hf Hfit Hroom Hout. unfold advanceDeposit.
  pose proof (mint_spec l img from mint (proj1 Hi) Hf Hfit Hroom) as Hm.
  apply returns_elim in Hm as ([] & l1 & Hrun & img1 & Hb).
  assert (Hol : on_ledger (creditEther from mint) w = (Val tt, set_ledger l1 w))
    by (unfold on_ledger, zoom; fold l; by rewrite Hrun).
  assert (Hw1 : w1 = set_sink (mkSink [] 0 (inputIndex block)) (set_ledger l1 w)) by (unfold w1; by rewrite Hol).
  apply returns_bind, returns_try, wp_bind. unfold wp at 1. rewrite Hol. cbn [fst snd wp mret M_ret].
  apply returns_mark. unfold execute. apply returns_bind, returns_modify. cbn [tx_block tx_isDeposit tx_sender].
  rewrite <- Hw1. fold ctx.
  pose proof (become_inv _ _ _ _ _ Hi Hb) as Hi1.
  destruct (run_handler_sound r ctx (Some from) (set_ledger l1 w) img1 w1 Hr Hctx Hi1
    (reach_refl (set_ledger l1 w) img1 w1 Hi1 ltac:(by rewrite Hw1))) as [_ Hreach].
  destruct (run_handler r ctx (Some from) w1) as [o w2] eqn:Hh. simpl in Hout, Hreach. subst o.
  apply returns_bind, returns_try. unfold wp. rewrite Hh. cbn [finish].
  apply returns_undo. eapply returns_mono; [by apply (reach_rollback (set_ledger l1 w) img1)|].
  intros [] w3 (Hres & Hsink). pose proof Hres as (Hwf3 & Hsc & Hfac & Hram & Hj3). simpl in *.
  unfold settle, charge. apply returns_bind, returns_ret. unfold returns, wp. simpl. rewrite Hsink.
  destruct Hb as (_ & (_ & _ & Hr1) & Hv1 & Ht1). split_and!; [done..|by rewrite Hram, Hr1|]. exists img1.
  split_and!; [|done..]. destruct Hwf3 as [[Hh3 H1 H2 H3 H4 H5 H6 H7 H8 H9] Hfac3]. split; [by constructor|done].
Qed.
End Effects.
