(* ===== verification/BridgeSpec.v ===== *)
(** * What the bridging handlers do

    app/src/handlers/{messenger,erc20,passer}.ts on their state: a message is
    relayed at most once, only from the L1 messenger, and a failed relay leaves
    nothing but its record; a token transfer moves its amount, or reverts or
    throws for a stated cause; a withdrawal burns exactly what it announces. *)

From Stdlib Require Import ZArith Lia.
From S2P Require Import Prelude Sums Bytes Store DriveConfig DriveHeader RobinHood DriveTable Drive DriveTokens.
From S2P Require Import DriveFormat Evm Ledger Journal DriveJournal LedgerJournal LedgerSpec LedgerInv Handlers Router HandlersJournal.
From S2P Require Import HandlersInv RouterSpec Effects.

Section BridgeSpec.
Context {S App : Type} {HS : Store S} {HR : StoreReads S} {HW : StoreWrites S} {HG : StoreGuards S}
  {HK : Keccak} {HKL : KeccakLaws} {HV : Viem} {HI : InputLaws} {HC : Calldata} {HCL : CalldataLaws}.
Abbreviation W := (World S App).
Implicit Types w : W.
Implicit Types l : Ledger S.
Implicit Types img : bytes.

(** ** Relaying *)

(** Nothing is emitted by a computation that throws. *)
Definition silent_throw {A} (m : M W A) : Prop := forall w e w', m w = (Exn e, w') -> sink w' = sink w.
(** Nothing is emitted. *)
Definition silent {A} (m : M W A) : Prop := forall w, sink (m w).2 = sink w.
Definition never_throws {A} (m : M W A) : Prop := forall w e w', m w <> (Exn e, w').

Lemma on_ledger_silent {A} (m : M (Ledger S) A) : silent (on_ledger m).
Proof. intros w. apply on_ledger_sink. Qed.

Lemma silent_then {A B} (m : M W A) (f : A -> M W B) : silent m -> (forall a, silent_throw (f a)) -> silent_throw (m ≫= f).
Proof.
  intros Hm Hf w e w'. unfold mbind, M_bind. specialize (Hm w). destruct (m w) as [[a|e'|] w1]; simpl in Hm; [|naive_solver..].
  intros Heq. by rewrite (Hf a _ _ _ Heq).
Qed.

Lemma silent_throws {A} (m : M W A) : silent m -> silent_throw m.
Proof. intros Hm w e w' Heq. specialize (Hm w). by rewrite Heq in Hm. Qed.

Lemma safe_then {A B} (m : M W A) (f : A -> M W B) : silent_throw m -> (forall a, never_throws (f a)) -> silent_throw (m ≫= f).
Proof.
  intros Hm Hf w e w'. unfold mbind, M_bind. destruct (m w) as [[a|e'|] w1] eqn:Heq; [by intros ?%Hf| |done].
  intros [= <- <-]. by eapply Hm.
Qed.

Lemma throw_silent {A} e : silent_throw (throw e : M W A).
Proof. by intros w e' w' [= _ <-]. Qed.

Lemma emit_never_throws e : never_throws (emit e : M W unit).
Proof. by intros w e' w'. Qed.

Lemma emits_never_throw e (k : M W unit) : never_throws k -> never_throws (emit e;; k).
Proof. intros Hk w e' w'. apply Hk. Qed.

Lemma finalize_silent m cd : silent_throw (finalizeFromMessenger m cd : M W _).
Proof.
  unfold finalizeFromMessenger. destruct (negb _); [apply throw_silent|].
  destruct (tryDecodeCalldata _ _) as [[]|]; try apply throw_silent.
  - destruct (negb _); [apply throw_silent|]. destruct (negb _); [apply throw_silent|].
    apply silent_then; [apply on_ledger_silent|]. intros id. apply safe_then; [apply silent_throws, on_ledger_silent|].
    intros _. apply emits_never_throw, emit_never_throws.
  - destruct (negb _); [apply throw_silent|]. apply silent_then; [apply on_ledger_silent|]. intros _.
    apply safe_then; [apply silent_throws, on_ledger_silent|]. intros _. apply emit_never_throws.
Qed.

Lemma dispatch_silent m cd : silent_throw (dispatch m cd : M W _).
Proof.
  unfold dispatch. destruct (bytesEqual _ _); [apply finalize_silent|]. destruct (_ <? _); [apply throw_silent|].
  apply silent_then; [apply on_ledger_silent|]. intros _. apply silent_throws, on_ledger_silent.
Qed.

Lemma attempt_silent cd m hash : silent_throw (relay_attempt cd m hash : M W _).
Proof. unfold relay_attempt. apply safe_then; [apply dispatch_silent|]. by intros _ w e w'. Qed.

(** The one output a relay makes of its own. *)
Definition relayed (hash : Hex) (failed : bool) : Emission :=
  Notice (encodeEvmLog L2_MESSENGER_ADDRESS (topics (relayedMessageLog hash failed)) (log_data (relayedMessageLog hash failed))).

(** A relay whose dispatch throws: the ledger is back at the mark, the message
    is recorded as failed, and the one output says so. *)
Lemma relay_fails cd m hash w img e w1 : is_address (m_target m) -> ledger_inv (ledger w) img ->
  relay_attempt cd m hash w = (Exn e, w1) ->
  returns (relay cd m hash) w (fun o w' => o = OAccept /\ exists l', restored (ledger w) img l'
    /\ ledger w' = (setMessageStatus hash failed l').2
    /\ emissions (sink w') = emissions (sink w) ++ [relayed hash true]).
Proof.
  intros Hm Hi Hrun. pose proof (attempt_silent cd m hash w e w1 Hrun) as Hs.
  destruct (reach_run (relay_attempt cd m hash) w img w Hi (reach_refl w img w Hi eq_refl)) as [_ Hreach].
  { by apply relay_attempt_keeps. }
  { intros. by apply relay_attempt_tracks. }
  rewrite Hrun in Hreach. simpl in Hreach.
  unfold relay. apply returns_mark. apply returns_bind, returns_try. unfold wp at 1. rewrite Hrun. simpl.
  apply returns_undo. eapply returns_mono; [by apply (reach_rollback w img)|]. intros [] w2 [Hres Hs2].
  unfold returns, wp. simpl. rewrite Hs2, Hs. split; [done|]. by exists (ledger w2).
Qed.

Lemma status_recorded hash status l : messageStatus hash (setMessageStatus hash status l).2 = Some status.
Proof. apply lookup_partial_alter_eq. Qed.

(** A relay whose dispatch goes through is recorded as successful. *)
Lemma relay_succeeds cd m hash w w1 : relay_attempt cd m hash w = (Val tt, w1) ->
  relay cd m hash w = (Val OAccept, w1) /\ messageStatus hash (ledger w1) = Some successful.
Proof.
  intros Hrun. split.
  - unfold relay. rewrite mark_run. unfold try_catch, mbind at 1, M_bind at 1. by rewrite Hrun.
  - revert Hrun. unfold relay_attempt, mbind, M_bind. destruct (dispatch m cd w) as [[[]|?|] w2]; [|done..].
    intros [= <-]. unfold messageStatus. simpl. by rewrite lookup_partial_alter_eq.
Qed.

(** ** Who may relay what *)
Lemma relay_allowed ctx cd m status : relay_refused ctx cd m status = None <->
  (decodeVersionedNonce (m_nonce m)).2 = MESSAGE_VERSION /\ status <> Some successful
  /\ (if decide (tx_isDeposit ctx = true /\ tx_sender ctx = l1MessengerAliased cd)
      then tx_value ctx = m_value m /\ status = None
      else tx_value ctx = 0 /\ status = Some failed).
Proof.
  unfold relay_refused. destruct (Z.eqb_spec (decodeVersionedNonce (m_nonce m)).2 MESSAGE_VERSION); simpl; [|by split; [|intros (? & _)]].
  destruct (bool_decide_reflect (status = Some successful)); [by split; [|intros (_ & ? & _)]|].
  assert (Hcond : tx_isDeposit ctx && bytesEqual (tx_sender ctx) (l1MessengerAliased cd)
    = bool_decide (tx_isDeposit ctx = true /\ tx_sender ctx = l1MessengerAliased cd)).
  { apply eq_bool_prop_intro. rewrite bool_decide_spec. split.
    - intros H%Is_true_true%andb_true_iff. destruct H as [H1 H2]. split; [done|]. by apply bytesEqual_eq.
    - intros [H1 H2]. apply Is_true_true, andb_true_iff. split; [done|]. by apply bytesEqual_eq. }
  rewrite Hcond. clear Hcond. destruct (decide (tx_isDeposit ctx = true /\ tx_sender ctx = l1MessengerAliased cd)) as [Hc|Hc].
  - rewrite bool_decide_eq_true_2 by done.
    destruct (Z.eqb_spec (tx_value ctx) (m_value m)); simpl; [|split; [done|intros (_ & _ & ? & _); congruence]].
    destruct status as [[|]|]; [congruence| |]; simpl; (split; [intros ?|intros (_ & _ & _ & ?)]); try done.
  - rewrite bool_decide_eq_false_2 by done.
    destruct (Z.eqb_spec (tx_value ctx) 0); simpl; [|split; [done|intros (_ & _ & ? & _); congruence]].
    destruct status as [[|]|]; [congruence| |]; simpl; (split; [intros ?|intros (_ & _ & _ & ?)]); try done.
Qed.

(** A relayed message is refused ever after, and nothing changes. *)
Lemma relayed_once ctx w cd m : crossDomain (ledger w) = Some cd ->
  decodeMessenger (tx_data ctx) = Val (relayMessage m) ->
  messageStatus (hashCrossDomainMessageV1 m) (ledger w) = Some successful ->
  exists reason, messenger_advance ctx w = (Val (ORevert (errorRevert reason)), w).
Proof.
  intros Hcd Hd Hs. unfold messenger_advance, mbind, M_bind, asks, gets. rewrite Hcd.
  unfold tryDecodeCalldata. rewrite Hd, Hs. destruct (relay_refused _ _ _ _) as [reason|] eqn:Hr; [by exists reason|].
  by apply refused_successful in Hr.
Qed.

(** ** Tokens *)
Abbreviation lbalance l img id a := (token_balance (cfg (drive l)) (tokens_ (drive l)) img id a).

(** The drive was only read: the same bytes, caches, journal and RAM state. *)
Definition unmoved l img l' : Prop := restored l img l' /\ only_drive l l'.

Lemma unmoved_refl l img : ledger_wf l img -> unmoved l img l.
Proof. intros Hwf. split; [by apply restored_refl|done]. Qed.
Lemma unmoved_trans l1 img l2 l3 : unmoved l1 img l2 -> unmoved l2 img l3 -> unmoved l1 img l3.
Proof. intros [? ?] [? ?]. split; [by eapply restored_trans|by eapply only_drive_trans]. Qed.

Lemma quiet_wf l img : ledger_wf l img -> @drive_wf (JStore S) _ (JStore_quiet (journal l)) _ (drive l) img.
Proof. intros [[Hh H1 H2 H3 H4 H5 H6 H7 H8 H9] _]. by constructor. Qed.
Lemma quiet_leaves l img d' : ledger_wf l img -> @leaves (JStore S) _ (JStore_quiet (journal l)) (drive l) img d' ->
  unmoved l img (set_drive d' l).
Proof.
  intros [[Hh H1 H2 H3 H4 H5 H6 H7 H8 H9] Hf] (s' & -> & [Hs Hj]). split; [|done].
  split; [split; [by constructor|done]|by split_and!].
Qed.

Lemma tokenBalance_quiet l img a id : ledger_wf l img -> zlen a = 20 -> isZero a = false ->
  0 <= id < zlen (tokens_ (drive l)) -> profile (cfg (drive l)) <> ProfileSingleAsset ->
  returns (tokenBalance a id) l (fun v l' => v = lbalance l img id a /\ unmoved l img l').
Proof.
  intros Hwf Hl Hz Hid Hp. apply returns_zoom. eapply returns_mono.
  - by apply (@getTokenBalance_spec (JStore S) _ (JStore_quiet (journal l)) _ _ (drive l) img (AddrBytes a) a id
      (quiet_wf l img Hwf) (toAddress_bytes a Hl)).
  - intros v d' [-> Hd]. split; [done|by apply quiet_leaves].
Qed.

(** Why a credit of [v] of the token [id], of width [wd], to the address [a] is
    refused, and when it is not. *)
Definition can_receive l img (id wd : Z) (a : Address) (v : Z) : Prop :=
  isZero a = false /\ fits_width wd (lbalance l img id a + v) /\ token_room (drive l) img id a (lbalance l img id a + v).
Definition receipt_refused l img (id wd : Z) (a : Address) (v : Z) (e : exn) : Prop :=
  isZero a = true /\ e = err_zeroAddress
  \/ isZero a = false /\ ~ fits_width wd (lbalance l img id a + v) /\ e = overflow_error
  \/ isZero a = false /\ fits_width wd (lbalance l img id a + v)
     /\ ~ token_room (drive l) img id a (lbalance l img id a + v) /\ e = err_tableFull.

Lemma balance_of_zero l a id : zlen a = 20 -> isZero a = true ->
  raises (tokenBalance a id) l err_zeroAddress (fun l' => l' = l).
Proof.
  intros Hl Hz. unfold tokenBalance, with_drive, getTokenBalance, nonzero_address, raises, wp, zoom, mbind, M_bind, liftO.
  rewrite (toAddress_bytes a Hl). simpl. rewrite Hz. by destruct l.
Qed.

(** A credit, on every outcome: it goes through where the recipient can hold
    the sum, and otherwise it throws, over a ledger only read. *)
Lemma creditToken_outcomes l img a id t v : ledger_wf l img -> is_address a ->
  profile (cfg (drive l)) <> ProfileSingleAsset -> 0 <= id -> tokens_ (drive l) !! Z.to_nat id = Some t -> v <> 0 ->
  wp (creditToken a id v) l (fun o l' => match o with
    | Val _ => can_receive l img id (tok_width t) a v /\
        exists img', token_set l img id a (lbalance l img id a + v) (put_total id (totalSupply id l + v) (ram l)) l' img'
    | Exn e => receipt_refused l img id (tok_width t) a v e /\ unmoved l img l'
    | Diverge => False end).
Proof.
  intros Hwf [Hl Hb] Hp Hid Ht Hv. pose proof (lookup_lt_Some _ _ _ Ht) as Hlt.
  assert (Hr : 0 <= id < zlen (tokens_ (drive l))) by (unfold zlen; lia).
  destruct (isZero a) eqn:Hz.
  { unfold creditToken. rewrite (proj2 (Z.eqb_neq _ _)) by done. apply wp_bind.
    eapply wp_raises; [by apply balance_of_zero|]. intros l' ->. split; [by left|by apply unmoved_refl]. }
  destruct (decide (fits_width (tok_width t) (lbalance l img id a + v))) as [Hfit|Hno];
    [destruct (room_or_full (drive l) img id a (lbalance l img id a + v) (proj1 Hwf) Hr Hp Hl) as [Hroom|[Hnz Hfull]]|].
  { eapply wp_returns; [by apply (creditToken_spec l img a id t v)|]. by intros []. }
  all: unfold creditToken; rewrite (proj2 (Z.eqb_neq _ _)) by done; apply wp_bind.
  all: eapply wp_returns; [by apply (tokenBalance_quiet l img a id)|]; intros b l1 [-> Hu].
  all: pose proof Hu as [[Hwf1 _] ((Hc & Ht1 & _) & _)].
  all: apply wp_bind; unfold with_drive; apply wp_zoom.
  - pose proof (@setTokenBalance_full (JStore S) _ (JStore_quiet (journal l1)) _ _ (drive l1) img (AddrBytes a) a id t
      (lbalance l img id a + v) (quiet_wf l1 img Hwf1)) as Hf.
    rewrite Hc, Ht1 in Hf. specialize (Hf Hp (toAddress_bytes a Hl) Hz Hid Ht Hfit Hnz Hfull).
    eapply wp_raises; [exact Hf|]. intros d' Hd. split.
    + right. right. split_and!; [done..| |done]. by apply full_no_room.
    + eapply unmoved_trans; [exact Hu|by apply quiet_leaves].
  - pose proof (setTokenBalance_overflow (drive l1) img (AddrBytes a) a id t (lbalance l img id a + v) (proj1 Hwf1)) as Hf.
    rewrite Ht1 in Hf. eapply wp_raises; [exact (Hf (toAddress_bytes a Hl) Hz Hid Ht Hno)|]. intros d' ->. split; [by right; left|].
    eapply unmoved_trans; [exact Hu|]. replace (set_drive (drive l1) l1) with l1 by by destruct l1. by apply unmoved_refl.
Qed.

(** [v] of token [id] taken from [s] and given to [t]. *)
Definition token_moved l img (id : Z) (s t : Address) (v : Z) (id' : Z) (a : Address) : Z :=
  lbalance l img id' a - (if decide ((id', a) = (id, s)) then v else 0) + (if decide ((id', a) = (id, t)) then v else 0).

Definition tokens_become l img (f : Z -> Address -> Z) l' img' : Prop :=
  ledger_wf l' img' /\ same_cache l l' /\ facades l' = facades l /\ (forall id, totalSupply id l' = totalSupply id l)
  /\ (forall id a, 0 <= id < zlen (tokens_ (drive l)) -> lbalance l img' id a = f id a)
  /\ (forall a, account_view l img' a = account_view l img a).

(** [v] of token [id] taken from [s], and from the supply. *)
Definition debited l img (id : Z) (s : Address) (v : Z) l' img' : Prop :=
  token_set l img id s (lbalance l img id s - v) (put_total id (totalSupply id l - v) (ram l)) l' img'.

Lemma debited_credited l img id s to v l1 img1 l2 img2 : debited l img id s v l1 img1 ->
  token_set l1 img1 id to (lbalance l1 img1 id to + v) (put_total id (totalSupply id l1 + v) (ram l1)) l2 img2 ->
  tokens_become l img (token_moved l img id s to v) l2 img2.
Proof.
  intros (Hwf1 & (Hc1 & Ht1 & Ho1) & Hf1 & Hr1 & Hb1 & Hoth1 & Hacc1) (Hwf2 & (Hc2 & Ht2 & Ho2) & Hf2 & Hr2 & Hb2 & Hoth2 & Hacc2).
  rewrite Hc1, Ht1 in *. split_and!; [done|split_and!; congruence|congruence|..].
  - intros id'. unfold totalSupply in *. rewrite Hr2, Hr1. simpl. destruct (decide (id' = id)) as [->|Hne].
    + rewrite !lookup_insert_eq. simpl. lia.
    + by rewrite !lookup_insert_ne.
  - intros id' a Hid'. unfold token_moved. destruct (decide ((id', a) = (id, to))) as [[= -> ->]|Hne].
    + rewrite Hb2. destruct (decide ((id, to) = (id, s))) as [[= ->]|Hne]; [rewrite Hb1; lia|].
      rewrite Hoth1 by done. lia.
    + rewrite Hoth2 by done. destruct (decide ((id', a) = (id, s))) as [[= -> ->]|Hne']; [rewrite Hb1; lia|].
      rewrite Hoth1 by done. lia.
  - intros a. unfold account_view in *. rewrite Hc1 in *. by rewrite Hacc2, Hacc1.
Qed.

Lemma nothing_moved l img id s to : ledger_wf l img -> tokens_become l img (token_moved l img id s to 0) l img.
Proof. intros Hwf. split_and!; try done. intros id' a _. unfold token_moved. repeat case_decide; lia. Qed.

(** A debit, on every outcome. *)
Lemma debitToken_outcomes l img a id t v : ledger_wf l img -> valid_address a ->
  profile (cfg (drive l)) <> ProfileSingleAsset -> 0 <= id -> tokens_ (drive l) !! Z.to_nat id = Some t -> 0 < v ->
  wp (debitToken a id v) l (fun o l' => match o with
    | Val _ => v <= lbalance l img id a /\ exists img', debited l img id a v l' img'
    | Exn e => lbalance l img id a < v /\ e = InsufficientFunds "insufficient token balance" /\ unmoved l img l'
    | Diverge => False end).
Proof.
  intros Hwf Ha Hp Hid Ht Hv. pose proof Ha as (Hl & _ & Hz). pose proof (lookup_lt_Some _ _ _ Ht) as Hlt.
  destruct (Z.le_gt_cases v (lbalance l img id a)) as [Hle|Hgt].
  - eapply wp_returns; [by apply (debitToken_spec l img a id t v)|]. by intros [] l' Hset.
  - unfold debitToken. rewrite (proj2 (Z.eqb_neq _ _)) by lia. apply wp_bind.
    eapply wp_returns; [apply (tokenBalance_quiet l img a id); done || unfold zlen; lia|]. intros b l1 [-> Hu].
    rewrite (proj2 (Z.ltb_lt _ _)) by lia. split_and!; [lia|done..].
Qed.

(** What a transfer of [v] of token [id], of width [wd], from [s] to [to] comes
    to: nothing for nothing; the amount moved, where the recipient can hold it
    once the sender has paid; a ledger only read, the sender short; or a throw
    from the ledger the sender has paid from. *)
Definition transferred l img (id wd : Z) (s to : Address) (v : Z) (o : outcome unit) l' : Prop :=
  match o with
  | Val _ => v <= lbalance l img id s /\ (v = 0 -> l' = l)
      /\ (0 < v -> exists l1 img1, debited l img id s v l1 img1 /\ can_receive l1 img1 id wd to v)
      /\ exists img', tokens_become l img (token_moved l img id s to v) l' img'
  | Exn (InsufficientFunds _) => lbalance l img id s < v /\ unmoved l img l'
  | Exn e => 0 < v <= lbalance l img id s /\ exists l1 img1, debited l img id s v l1 img1
      /\ receipt_refused l1 img1 id wd to v e /\ unmoved l1 img1 l'
  | Diverge => False
  end.

Lemma transfer_tokens l img id t s to v : ledger_wf l img -> valid_address s -> is_address to ->
  profile (cfg (drive l)) <> ProfileSingleAsset -> 0 <= id -> tokens_ (drive l) !! Z.to_nat id = Some t -> 0 <= v ->
  wp (debitToken s id v;; creditToken to id v) l (transferred l img id (tok_width t) s to v).
Proof.
  intros Hwf Hs Hto Hp Hid Ht Hv. destruct (Z.eq_dec v 0) as [->|Hnz].
  { pose proof (token_balance_bounds (drive l) img id s t (proj1 Hwf) Hid (proj1 Hs) Ht Hp) as [[Hb _] _].
    split_and!; [done|done|lia|exists img; by apply nothing_moved]. }
  apply wp_bind. eapply wp_mono; [|apply (debitToken_outcomes l img s id t v); done || lia].
  intros [[]|e|] l1; [|by intros (? & -> & ?)|done]. intros [Hle (img1 & Hset)].
  pose proof Hset as (Hwf1 & (Hc1 & Ht1 & _) & _). pose proof (creditToken_outcomes l1 img1 to id t v Hwf1 Hto) as Hcr.
  rewrite Hc1, Ht1 in Hcr. specialize (Hcr Hp Hid Ht Hnz). rewrite <- Hc1, <- Ht1 in Hcr. eapply wp_mono; [|exact Hcr].
  intros [[]|e|] l2; [| |done].
  - intros [Hcan (img2 & Hset2)]. split_and!; [done|lia|by exists l1, img1|]. exists img2. by eapply debited_credited.
  - intros [Href Hu].
    assert (Hthrow : 0 < v <= lbalance l img id s /\ exists l1 img1, debited l img id s v l1 img1
      /\ receipt_refused l1 img1 id (tok_width t) to v e /\ unmoved l1 img1 l2) by (split; [lia|by exists l1, img1]).
    destruct e; try exact Hthrow. by destruct Href as [[_ ?]|[(_ & _ & ?)|(_ & _ & _ & ?)]].
Qed.

(** The façade's [transfer], on every outcome. *)
Definition erc20_transferred ctx w img f to v (o : outcome AdvanceOutcome) w' : Prop :=
  let l := ledger w in let s := tx_sender ctx in
  match o with
  | Val OAccept => v <= lbalance l img (rf_id f) s /\ (v = 0 -> ledger w' = l)
      /\ (0 < v -> exists l1 img1, debited l img (rf_id f) s v l1 img1 /\ can_receive l1 img1 (rf_id f) (rf_width f) to v)
      /\ (exists img', tokens_become l img (token_moved l img (rf_id f) s to v) (ledger w') img')
      /\ emissions (sink w') = emissions (sink w)
           ++ [Notice (encodeEvmLog (tx_to ctx) (topics (transferLog s to v)) (log_data (transferLog s to v)))]
  | Val (ORevert data) => lbalance l img (rf_id f) s < v /\ data = errorRevert "ERC20: transfer amount exceeds balance"
      /\ unmoved l img (ledger w') /\ sink w' = sink w
  | Exn e => 0 < v <= lbalance l img (rf_id f) s /\ sink w' = sink w
      /\ exists l1 img1, debited l img (rf_id f) s v l1 img1
           /\ receipt_refused l1 img1 (rf_id f) (rf_width f) to v e /\ unmoved l1 img1 (ledger w')
  | _ => False
  end.

Lemma erc20_transfer_spec ctx w img f to v : ledger_wf (ledger w) img -> profile (cfg (drive (ledger w))) <> ProfileSingleAsset ->
  tokenByL2Address (tx_to ctx) (ledger w) = Some f -> decodeErc20 (tx_data ctx) = Val (transfer to v) ->
  valid_address (tx_sender ctx) -> is_address to -> 0 <= v ->
  wp (erc20_advance ctx) w (erc20_transferred ctx w img f to v).
Proof.
  intros Hwf Hp Htok Hdec Hs Hto Hv. destruct (tokenByL2Address_sound _ _ _ _ Hwf Htok) as (t & Hid & Ht & Hfe & _).
  assert (Hw : tok_width t = rf_width f) by by rewrite Hfe.
  pose proof (transfer_tokens (ledger w) img (rf_id f) t (tx_sender ctx) to v Hwf Hs Hto Hp ltac:(lia) Ht Hv) as Hmv.
  rewrite Hw in Hmv. unfold erc20_advance, tryDecodeCalldata, erc20_transferred.
  unfold wp, asks, gets, mbind, M_bind, try_catch, on_ledger, zoom in *. cbn [fst snd] in *. rewrite Htok, Hdec.
  destruct (debitToken _ _ _ (ledger w)) as [[[]|e|] l1]; cbn [fst snd set_ledger ledger] in *; [|by destruct e; simpl in *; intuition|done].
  destruct (creditToken _ _ _ l1) as [[[]|e|] l2]; cbn [fst snd] in *; [|by destruct e; simpl in *; intuition|done].
  destruct Hmv as (? & ? & ? & ?). by split_and!.
Qed.

(** ** Withdrawals *)

(** What a withdrawal appends: its notice and its event. *)
Definition withdrawal_outputs (m : WithdrawalMessage) : list Emission :=
  let lg := messagePassedLog m (withdrawalHash m) in
  [Notice (encodeWithdrawal m); Notice (encodeEvmLog MESSAGE_PASSER_ADDRESS (topics lg) (log_data lg))].

Lemma out_withdrawal_spec w sender target v g d : 0 <= sink_input (sink w) < 2 ^ 208 -> 0 <= withdrawals (sink w) < 2 ^ 32 ->
  let n := 2 ^ 240 + sink_input (sink w) * 2 ^ 32 + withdrawals (sink w) in
  returns (out_withdrawal sender target v g d) w (fun _ w' => ledger w' = ledger w
    /\ withdrawals (sink w') = withdrawals (sink w) + 1
    /\ emissions (sink w') = emissions (sink w) ++ withdrawal_outputs (mkWithdrawal n sender target v g d)).
Proof.
  intros Hidx Hord n. unfold out_withdrawal.
  apply returns_bind, returns_gets. apply returns_bind, returns_gets. apply returns_bind, returns_modify.
  apply returns_bind. eapply returns_lift; [by apply withdrawal_nonce_value|].
  unfold returns, wp. simpl. rewrite <- app_assoc. done.
Qed.

(** What a transaction asks the passer for: the target, gas limit and data of
    its withdrawal. No calldata is [receive()]: back to the sender, at the
    default gas limit. *)
Definition asked_withdrawal (ctx : TxContext) : option (Address * Z * Hex) :=
  match tx_data ctx with
  | [] => Some (tx_sender ctx, WITHDRAWAL_DEFAULT_GAS_LIMIT, [])
  | _ => match decodePasser (tx_data ctx) with
         | Val (initiateWithdrawal target gasLimit data) => Some (target, gasLimit, data)
         | _ => None
         end
  end.

(** The accounts with [v] burned from [a]. *)
Definition burned l img (a : Address) (v : Z) (x : Address) : Z * Z :=
  if decide (x = a) then ((account_view l img a).1, (account_view l img a).2 - v) else account_view l img x.

Lemma debitEther_outcomes l img a v : ledger_wf l img -> valid_address a -> 0 <= v ->
  wp (debitEther a v) l (fun o l' => match o with
    | Val _ => v <= (account_view l img a).2 /\ exists img', accounts_become l img (burned l img a v) l' img'
        /\ ether_total (cfg (drive l)) img' = ether_total (cfg (drive l)) img - v
    | Exn e => (account_view l img a).2 < v /\ e = InsufficientFunds "insufficient ether balance" /\ unmoved l img l'
    | Diverge => False end).
Proof.
  intros Hwf Ha Hv. pose proof Ha as (Hl & _ & Hz). destruct (account_view_bounds l img a Hwf) as [_ [Hb _]].
  destruct (Z.eq_dec v 0) as [->|Hnz].
  { split; [done|]. exists img. split; [|lia]. split_and!; try done. intros x. unfold burned.
    case_decide as He; [|done]. rewrite He, Z.sub_0_r. by destruct (account_view l img a). }
  destruct (Z.le_gt_cases v (account_view l img a).2) as [Hle|Hgt].
  - eapply wp_returns; [apply (debit_spec l img a v); done || lia|]. intros [] l' (img' & Hset). split; [done|].
    exists img'. split; [by apply account_set_become|]. rewrite (ether_total_set _ _ _ _ _ _ Hset). simpl. lia.
  - unfold debitEther. rewrite (proj2 (Z.eqb_neq _ _)) by done. apply wp_bind.
    eapply wp_returns; [by apply (account_quiet l img a)|]. intros r l' (-> & Hr).
    rewrite (proj2 (Z.ltb_lt _ _)) by lia. split_and!; [lia|done|exact Hr].
Qed.

(** The passer, on every outcome: it burns what it announces, throws for want
    of funds, or does not know the call. *)
Definition withdrawn ctx w img (target : Address) (gasLimit : Z) (data : Hex) (o : outcome AdvanceOutcome) w' : Prop :=
  let n := 2 ^ 240 + sink_input (sink w) * 2 ^ 32 + withdrawals (sink w) in
  let l := ledger w in
  match o with
  | Val OAccept => tx_value ctx <= (account_view l img (tx_to ctx)).2
      /\ withdrawals (sink w') = withdrawals (sink w) + 1
      /\ emissions (sink w') = emissions (sink w)
           ++ withdrawal_outputs (mkWithdrawal n (tx_sender ctx) target (tx_value ctx) gasLimit data)
      /\ exists img', accounts_become l img (burned l img (tx_to ctx) (tx_value ctx)) (ledger w') img'
           /\ ether_total (cfg (drive l)) img' = ether_total (cfg (drive l)) img - tx_value ctx
  | Exn e => (account_view l img (tx_to ctx)).2 < tx_value ctx /\ e = InsufficientFunds "insufficient ether balance"
      /\ unmoved l img (ledger w') /\ sink w' = sink w
  | _ => False
  end.

Lemma burn_and_announce ctx w img target g d : ledger_wf (ledger w) img -> valid_address (tx_to ctx) -> 0 <= tx_value ctx ->
  0 <= sink_input (sink w) < 2 ^ 208 -> 0 <= withdrawals (sink w) < 2 ^ 32 ->
  wp (on_ledger (debitEther (tx_to ctx) (tx_value ctx));; out_withdrawal (tx_sender ctx) target (tx_value ctx) g d;; accept) w
    (withdrawn ctx w img target g d).
Proof.
  intros Hwf Hto Hv Hidx Hord. apply wp_bind, wp_zoom. eapply wp_mono; [|by apply (debitEther_outcomes (ledger w) img)].
  intros [[]|e|] l1; [|intros (? & ? & ?); by split_and!|done]. intros [Hle (img1 & Hb & He)].
  apply wp_bind. eapply wp_returns; [by apply (out_withdrawal_spec (set_ledger l1 w))|].
  intros [] w' (Hl & Hn & Hem). simpl in Hl, Hn, Hem. unfold wp, accept, withdrawn. simpl. rewrite Hl.
  split_and!; [done..|]. by exists img1.
Qed.

Lemma passer_withdraws ctx w img : ledger_wf (ledger w) img -> valid_address (tx_to ctx) -> 0 <= tx_value ctx ->
  0 <= sink_input (sink w) < 2 ^ 208 -> 0 <= withdrawals (sink w) < 2 ^ 32 ->
  match asked_withdrawal ctx with
  | Some (target, gasLimit, data) => wp (passer_advance ctx) w (withdrawn ctx w img target gasLimit data)
  | None => passer_advance ctx w = (Val (ORevert (errorRevert "unknown function")), w)
  end.
Proof.
  intros Hwf Hto Hv Hidx Hord. unfold asked_withdrawal, passer_advance, tryDecodeCalldata.
  destruct (tx_data ctx) as [|b d]; [by apply burn_and_announce|].
  rewrite (proj2 (Z.eqb_neq _ _)) by (unfold zlen; simpl; lia).
  destruct (decodePasser (b :: d)) as [[target g x]|e|]; [by apply burn_and_announce|done..].
Qed.
End BridgeSpec.
