(* ===== verification/TokenBridge.v ===== *)
(** * Tokens in and out

    The ERC-20 side of app/src/handlers/{portal,l2bridge}.ts on the ledger's
    tokens: a deposit, through the portal or relayed to the standard bridge,
    mints exactly its amount, registering the token on first sight; a
    withdrawal through the standard bridge burns exactly what its message to L1
    releases. *)

From Stdlib Require Import ZArith Lia.
From S2P Require Import Prelude Sums Bytes Store DriveConfig DriveHeader RobinHood DriveTable Drive DriveTokens.
From S2P Require Import DriveFormat Evm Ledger Journal DriveJournal LedgerJournal LedgerSpec LedgerInv Handlers Router HandlersJournal.
From S2P Require Import HandlersInv RouterSpec Effects BridgeSpec.

Section TokenBridge.
Context {S App : Type} {HS : Store S} {HR : StoreReads S} {HW : StoreWrites S} {HG : StoreGuards S}
  {HK : Keccak} {HKL : KeccakLaws} {HV : Viem} {HI : InputLaws} {HC : Calldata} {HCL : CalldataLaws}.
Abbreviation W := (World S App).
Implicit Types w : W.
Implicit Types l : Ledger S.
Implicit Types img : bytes.
Abbreviation lbalance l img id a := (token_balance (cfg (drive l)) (tokens_ (drive l)) img id a).

(** ** Minting *)

(** What an address holds of a token, nothing of one not registered. *)
Definition held l img (id : Z) (a : Address) : Z :=
  if decide (0 <= id < zlen (tokens_ (drive l))) then lbalance l img id a else 0.
(** [id] is the token of the L1 address [a]. *)
Definition token_is l (id : Z) (a : Address) : Prop :=
  0 <= id /\ exists t, tokens_ (drive l) !! Z.to_nat id = Some t /\ tok_address t = a.

(** The ledger with the token [a], id [id], registered if it was not, and [v]
    more of it held by [b]. *)
Definition token_minted l img (a : Address) (id : Z) (b : Address) (v : Z) l' img' : Prop :=
  ledger_wf l' img' /\ cfg (drive l') = cfg (drive l) /\ token_is l' id a
  /\ tokens_ (drive l) `prefix_of` tokens_ (drive l')
  /\ (forall id' a', 0 <= id' < zlen (tokens_ (drive l')) -> zlen a' = 20 ->
        lbalance l' img' id' a' = held l img id' a' + if decide ((id', a') = (id, b)) then v else 0)
  /\ (forall id', totalSupply id' l' = totalSupply id' l + if decide (id' = id) then v else 0)
  /\ (forall a', account_view l img' a' = account_view l img a').

(** Why a mint is refused. *)
Definition mint_refused l (a : Address) (e : exn) : Prop :=
  registration_error (cfg (drive l)) (tokens_ (drive l)) a 32 = Some e \/ e = overflow_error \/ e = err_tableFull.

Lemma registered_token l img a l' img' : ledger_registered l img a None l' img' ->
  token_minted l img a (zlen (tokens_ (drive l))) a 0 l' img' /\ ram l' = ram l.
Proof.
  intros (Hwf & Hc & Ht & _ & Hr & Hacc & Hold & Hnew). split; [|done]. pose proof (zlen_nonneg (tokens_ (drive l))).
  split_and!; [done|done| | | | |].
  - split; [done|]. exists (mkToken a 32). split; [|done]. rewrite Ht. unfold zlen. rewrite Nat2Z.id. by apply list_lookup_middle.
  - rewrite Ht. by apply prefix_app_r.
  - intros id' a' Hid Ha. rewrite Ht, zlen_app in Hid. change (zlen [_]) with 1 in Hid. unfold held.
    case_decide as Hlt; [rewrite Hold by done; case_decide; lia|].
    assert (id' = zlen (tokens_ (drive l))) as -> by lia. rewrite Hnew by done. case_decide; lia.
  - intros id'. unfold totalSupply. rewrite Hr. case_decide; lia.
  - intros a'. unfold account_view. by rewrite Hacc.
Qed.

Lemma known_token_minted l img a id : ledger_wf l img -> token_is l id a -> token_minted l img a id a 0 l img.
Proof.
  intros Hwf Hid. split_and!; try done.
  - intros id' a' Hid' _. unfold held. rewrite decide_True by done. case_decide; lia.
  - intros id'. case_decide; lia.
Qed.

Lemma token_or_register_outcomes l img a : ledger_wf l img -> zlen a = 20 ->
  wp (token_or_register a) l (fun o l' => match o with
    | Val id => exists img', token_minted l img a id a 0 l' img' /\ ram l' = ram l
    | Exn e => registration_error (cfg (drive l)) (tokens_ (drive l)) a 32 = Some e
    | Diverge => False end).
Proof.
  intros Hwf Ha. unfold token_or_register. apply wp_bind.
  assert (Hfind : tokenByL1Address a l
    = (Val ((fun r => mkFacade (res_id r) a (res_width r)) <$> find_token (tokens_ (drive l)) 0 a), l)).
  { unfold tokenByL1Address, tokenByAddress, mbind, M_bind, with_drive, zoom, liftO.
    rewrite (toAddress_bytes a Ha). by destruct l. }
  unfold wp at 1. rewrite Hfind. simpl. destruct (find_token (tokens_ (drive l)) 0 a) as [r|] eqn:Hf; simpl.
  - apply find_token_Some in Hf as (n & t & Ht & Hn & _ & Hta & _). exists img. split; [|done].
    apply known_token_minted; [done|]. split; [lia|]. exists t. split; [|done]. by replace (Z.to_nat (res_id r)) with n by lia.
  - destruct (registration_error (cfg (drive l)) (tokens_ (drive l)) a 32) as [e|] eqn:Herr.
    + pose proof (registerToken_refused (drive l) _ a 32 e (toAddress_bytes a Ha) Herr) as He.
      unfold raises, wp in He. unfold wp, ledger_registerToken, mbind, M_bind, with_drive, zoom.
      destruct (registerToken _ _ (drive l)) as [o d']. simpl in He. by destruct He as [-> _].
    + apply wp_bind. eapply wp_returns; [by apply ledger_registerToken_spec|].
      intros r l' (-> & img' & Hreg). simpl. exists img'. by apply registered_token.
Qed.

(** A credit on top of a lookup that changed no balance. *)
Lemma credited_minted l img a id b v l1 img1 l' img' : token_minted l img a id a 0 l1 img1 -> zlen b = 20 ->
  token_set l1 img1 id b (lbalance l1 img1 id b + v) (put_total id (totalSupply id l1 + v) (ram l1)) l' img' ->
  token_minted l img a id b v l' img'.
Proof.
  intros (Hwf1 & Hc1 & (Hid & t & Ht & Hta) & Hpre & Hbal & Htot & Hacc) Hb (Hwf' & (Hc & Htk & _) & _ & Hr & Hat & Hoth & Hacc').
  assert (Hzero : forall (P : Prop) (D : Decision P), (if decide P then 0 else 0) = 0) by (intros P D; by case_decide).
  split_and!; [done|congruence|split; [done|]; exists t; by rewrite Htk|by rewrite Htk| | |].
  - rewrite Hc, Htk. intros id' a' Hid' Ha'. destruct (decide ((id', a') = (id, b))) as [[= -> ->]|Hne].
    + rewrite Hat, Hbal, Hzero by done. lia.
    + rewrite Hoth, Hbal, Hzero by done. lia.
  - intros id'. specialize (Htot id'). rewrite Hzero in Htot. unfold totalSupply in *. rewrite Hr. simpl.
    destruct (decide (id' = id)) as [->|Hne].
    + rewrite lookup_insert_eq. simpl. lia.
    + rewrite lookup_insert_ne by congruence. lia.
  - intros a'. rewrite <- Hacc. unfold account_view in *. rewrite Hc1 in Hacc'. apply Hacc'.
Qed.

(** Registration on first sight, the credit, and what follows. *)
Lemma mint_then {B} a b v (k : M W B) w img Q : ledger_wf (ledger w) img -> zlen a = 20 ->
  profile (cfg (drive (ledger w))) <> ProfileSingleAsset -> valid_address b -> v <> 0 ->
  (forall id l' img', token_minted (ledger w) img a id b v l' img' -> wp k (set_ledger l' w) Q) ->
  (forall e w', mint_refused (ledger w) a e -> Q (Exn e) w') ->
  wp (id ← on_ledger (token_or_register a); on_ledger (creditToken b id v);; k) w Q.
Proof.
  intros Hwf Ha Hp Hb Hv Hk Hrefuse. apply wp_bind. pose proof (token_or_register_outcomes (ledger w) img a Hwf Ha) as Hid.
  unfold wp at 1, on_ledger, zoom. unfold wp in Hid.
  destruct (token_or_register a (ledger w)) as [[id|e|] l1]; simpl in Hid |- *; [|apply Hrefuse; by left|done].
  destruct Hid as (img1 & Hm & Hr). pose proof Hm as (Hwf1 & Hc1 & (Hid0 & t & Ht & _) & _).
  pose proof (creditToken_outcomes l1 img1 b id t v Hwf1 (conj (proj1 Hb) (proj1 (proj2 Hb)))) as Hcr.
  specialize (Hcr ltac:(by rewrite Hc1) Hid0 Ht Hv).
  apply wp_bind. unfold wp at 1. unfold wp in Hcr. simpl.
  destruct (creditToken b id v l1) as [[[]|e|] l2]; simpl in Hcr |- *; [|apply Hrefuse; right|done].
  2: { pose proof (proj2 (proj2 Hb)) as Hz. destruct Hcr as [[[Hz' _]|[(_ & _ & ->)|(_ & _ & _ & ->)]] _]; [congruence|by left|by right]. }
  destruct Hcr as [_ [img2 Hset]]. apply (Hk id l2 img2).
  eapply credited_minted; [exact Hm|apply Hb|exact Hset].
Qed.

(** ** Deposits *)
Definition log_notice (emitter : Address) (lg : Log) : Emission := Notice (encodeEvmLog emitter (topics lg) (log_data lg)).

Lemma out_log_then {B} emitter lg (k : M W B) w Q :
  wp k (set_sink (mkSink (emissions (sink w) ++ [log_notice emitter lg]) (withdrawals (sink w)) (sink_input (sink w))) w) Q ->
  wp (out_log emitter lg;; k) w Q.
Proof. done. Qed.

(** An ERC-20 deposit through the registered portal. *)
Lemma portal_deposit_spec ctx w img kind : ledger_wf (ledger w) img -> profile (cfg (drive (ledger w))) <> ProfileSingleAsset ->
  tx_isDeposit ctx = true -> portalKind (tx_sender ctx) (ledger w) = Some kind -> kind <> PORTAL_ETHER ->
  72 <= zlen (tx_data ctx) ->
  let a := addressAt (tx_data ctx) 0 in let b := addressAt (tx_data ctx) 20 in let v := uint256At (tx_data ctx) 40 in
  valid_address b -> v <> 0 ->
  wp (portal_advance ctx) w (fun o w' => match o with
    | Val OAccept => (exists id img', token_minted (ledger w) img a id b v (ledger w') img')
        /\ emissions (sink w') = emissions (sink w) ++ [log_notice (l2TokenAddress a) (transferLog ZERO_ADDRESS b v)]
    | Exn e => mint_refused (ledger w) a e
    | _ => False end).
Proof.
  intros Hwf Hp Hd Hk Hne Hz a b v Hb Hv. unfold portal_advance. rewrite Hd. cbn [negb]. apply wp_bind.
  unfold wp at 1, asks, gets. cbn [fst snd]. rewrite Hk. rewrite (proj2 (Z.eqb_neq _ _)) by done.
  rewrite (proj2 (Z.ltb_ge _ _)) by done. apply (mint_then a b v _ w img); try done.
  - unfold a, addressAt. apply zlen_slice. unfold fits. lia.
  - intros id l' img' Hm. apply out_log_then. split; [by exists id, img'|done].
Qed.

(** The same deposit relayed to the standard bridge. *)
Lemma finalize_deposit_spec m cd w img localToken remoteToken from to v extra : ledger_wf (ledger w) img ->
  profile (cfg (drive (ledger w))) <> ProfileSingleAsset ->
  decodeL2Bridge (m_message m) = Val (finalizeBridgeERC20 localToken remoteToken from to v extra) ->
  zlen remoteToken = 20 -> valid_address to -> v <> 0 ->
  wp (finalizeFromMessenger m cd) w (fun o w' => match o with
    | Val _ => m_sender m = l1Bridge cd /\ m_value m = 0 /\ localToken = l2TokenAddress remoteToken
        /\ (exists id img', token_minted (ledger w) img remoteToken id to v (ledger w') img')
        /\ emissions (sink w') = emissions (sink w) ++ [log_notice localToken (transferLog ZERO_ADDRESS to v);
             log_notice L2_BRIDGE_ADDRESS
               (erc20BridgeLog ERC20_BRIDGE_FINALIZED_TOPIC localToken remoteToken from to v extra)]
    | Exn e => (m_sender m <> l1Bridge cd \/ m_value m <> 0 \/ localToken <> l2TokenAddress remoteToken) /\ w' = w
        \/ mint_refused (ledger w) remoteToken e
    | Diverge => False end).
Proof.
  intros Hwf Hp Hd Hr Hto Hv. unfold finalizeFromMessenger.
  destruct (bytesEqual (m_sender m) (l1Bridge cd)) eqn:Hs; cbn [negb].
  2: { left. split; [left|done]. intros He. by rewrite He, bytesEqual_refl in Hs. }
  apply bytesEqual_eq in Hs. unfold tryDecodeCalldata. rewrite Hd.
  destruct (Z.eqb_spec (m_value m) 0) as [Hv0|Hv0]; cbn [negb]; [|left; split; [right; by left|done]].
  destruct (bytesEqual localToken (l2TokenAddress remoteToken)) eqn:Hl; cbn [negb].
  2: { left. split; [right; right|done]. intros He. by rewrite He, bytesEqual_refl in Hl. }
  apply bytesEqual_eq in Hl. apply (mint_then remoteToken to v _ w img); try done; [|by right].
  intros id l' img' Hm. apply out_log_then. split_and!; [done..|by exists id, img'|]. cbn. by rewrite <- app_assoc.
Qed.

(** ** Withdrawals *)

(** The message the bridge sends to L1, and everything it emits. *)
Definition release (cd : CrossDomainConfig) (remoteToken localToken from to : Address) (v gas : Z) (extra : Hex) (n : Z)
    : CrossDomainMessage :=
  mkMessage (encodeVersionedNonce n MESSAGE_VERSION) L2_BRIDGE_ADDRESS (l1Bridge cd) 0 gas
    (encodeFunctionData "finalizeBridgeERC20"
       [VAddress remoteToken; VAddress localToken; VAddress from; VAddress to; VUint v; VBytes extra]).
Definition sent_outputs (cd : CrossDomainConfig) (m : CrossDomainMessage) (nonce : Z) : list Emission :=
  let gas := baseGas (zlen (m_message m)) (m_minGasLimit m) in
  withdrawal_outputs (mkWithdrawal nonce L2_MESSENGER_ADDRESS (l1Messenger cd) (m_value m) gas (encodeRelayMessage m))
  ++ [log_notice L2_MESSENGER_ADDRESS (sentMessageLog (m_target m) (m_sender m) (m_message m) (m_nonce m) gas);
      log_notice L2_MESSENGER_ADDRESS (sentMessageExtension1Log (m_sender m) (m_value m))].

Lemma send_spec cd sender target message gas value w : 0 <= sink_input (sink w) < 2 ^ 208 -> 0 <= withdrawals (sink w) < 2 ^ 32 ->
  let n := 2 ^ 240 + sink_input (sink w) * 2 ^ 32 + withdrawals (sink w) in
  let m := mkMessage (encodeVersionedNonce (msgNonce (ram (ledger w))) MESSAGE_VERSION) sender target value gas message in
  returns (sendCrossDomainMessage cd sender target message gas value) w (fun _ w' =>
    emissions (sink w') = emissions (sink w) ++ sent_outputs cd m n
    /\ drive (ledger w') = drive (set_journal (journal (ledger w')) (ledger w)) /\ facades (ledger w') = facades (ledger w)
    /\ ram (ledger w') = put_msgNonce (msgNonce (ram (ledger w)) + 1) (ram (ledger w))).
Proof.
  intros Hidx Hord n m. unfold sendCrossDomainMessage. apply returns_bind. apply returns_zoom. unfold nextMessageNonce.
  apply returns_bind, returns_gets. apply returns_bind, returns_modify. apply returns_bind, returns_modify.
  apply returns_ret. set (w1 := set_ledger _ w). apply returns_bind.
  eapply returns_mono; [by apply (out_withdrawal_spec w1)|]. intros [] w2 (Hl & _ & He).
  apply returns_bind, returns_modify, returns_modify. cbn [set_sink sink emissions ledger withdrawals sink_input].
  rewrite He, Hl. split_and!; try done. unfold sent_outputs. by rewrite <- !app_assoc.
Qed.

(** The ledger with [v] of token [id] burned from [s], and the message counter
    one further. *)
Definition token_burned l img (id : Z) (s : Address) (v : Z) l' img' : Prop :=
  ledger_wf l' img' /\ same_cache l l'
  /\ (forall id' a', 0 <= id' < zlen (tokens_ (drive l)) ->
        lbalance l img' id' a' = lbalance l img id' a' - if decide ((id', a') = (id, s)) then v else 0)
  /\ (forall id', totalSupply id' l' = totalSupply id' l - if decide (id' = id) then v else 0)
  /\ (forall a', account_view l img' a' = account_view l img a')
  /\ msgNonce (ram l') = msgNonce (ram l) + 1.

Lemma debited_burned l img id s v l1 img1 l' : token_set l img id s (lbalance l img id s - v)
    (put_total id (totalSupply id l - v) (ram l)) l1 img1 ->
  drive l' = drive (set_journal (journal l') l1) -> facades l' = facades l1 ->
  ram l' = put_msgNonce (msgNonce (ram l1) + 1) (ram l1) -> token_burned l img id s v l' img1.
Proof.
  intros (Hwf1 & (Hc & Ht & Ho) & Hf & Hr & Hat & Hoth & Hacc) Hd Hf' Hr'.
  assert (Hsc : same_cache l l') by (unfold same_cache; rewrite Hd; by split_and!).
  split_and!; [|done| | |done|by rewrite Hr', Hr].
  - destruct Hwf1 as [[Hh H1 H2 H3 H4 H5 H6 H7 H8 H9] Hfac]. split; [rewrite Hd; by constructor|]. rewrite Hf', Hfac, Hd. done.
  - intros id' a' Hid'. case_decide as He; [injection He as -> ->; by rewrite Hat|]. rewrite Hoth by done. lia.
  - intros id'. unfold totalSupply in *. rewrite Hr', Hr. simpl. destruct (decide (id' = id)) as [->|Hne].
    + rewrite lookup_insert_eq. simpl. lia.
    + rewrite lookup_insert_ne by congruence. lia.
Qed.

(** The pair the bridge accepts: a façade the ledger routes, of that L1 token. *)
Definition known_pair l (localToken remoteToken : Address) : Prop :=
  exists f, tokenByL2Address localToken l = Some f /\ rf_l1Token f = remoteToken.

Lemma bridge_withdrawal_spec ctx cd w img localToken remoteToken to v gas extra : ledger_wf (ledger w) img ->
  profile (cfg (drive (ledger w))) <> ProfileSingleAsset -> valid_address (tx_sender ctx) -> 0 < v ->
  0 <= sink_input (sink w) < 2 ^ 208 -> 0 <= withdrawals (sink w) < 2 ^ 32 ->
  let n := 2 ^ 240 + sink_input (sink w) * 2 ^ 32 + withdrawals (sink w) in
  let m := release cd remoteToken localToken (tx_sender ctx) to v gas extra (msgNonce (ram (ledger w))) in
  returns (l2bridge_initiate ctx cd localToken remoteToken to v gas extra) w (fun o w' => match o with
    | OAccept => exists id, token_is (ledger w) id remoteToken /\ localToken = l2TokenAddress remoteToken
        /\ v <= lbalance (ledger w) img id (tx_sender ctx)
        /\ (exists img', token_burned (ledger w) img id (tx_sender ctx) v (ledger w') img')
        /\ emissions (sink w') = emissions (sink w) ++ [log_notice localToken (transferLog (tx_sender ctx) ZERO_ADDRESS v);
             log_notice L2_BRIDGE_ADDRESS
               (erc20BridgeLog ERC20_BRIDGE_INITIATED_TOPIC localToken remoteToken (tx_sender ctx) to v extra)]
           ++ sent_outputs cd m n
    | ORevert data => sink w' = sink w /\ unmoved (ledger w) img (ledger w')
        /\ ((data = errorRevert "wrong token pair" /\ ~ known_pair (ledger w) localToken remoteToken)
            \/ (data = errorRevert "amount exceeds balance"
                /\ exists id, token_is (ledger w) id remoteToken /\ lbalance (ledger w) img id (tx_sender ctx) < v))
    | _ => False end).
Proof.
  intros Hwf Hp Hs Hv Hidx Hord n m. unfold l2bridge_initiate. apply returns_bind, returns_gets.
  destruct (tokenByL2Address localToken (ledger w)) as [f|] eqn:Hf; [|split_and!; [done|by apply unmoved_refl|]].
  2: { left. split; [done|]. intros (f & Hn & _). by rewrite Hf in Hn. }
  destruct (tokenByL2Address_sound _ _ _ _ Hwf Hf) as (t & Hid & Ht & Hfe & Hloc).
  destruct (bytesEqual (rf_l1Token f) remoteToken) eqn:Hl; cbn [negb].
  2:{ split_and!; [done|by apply unmoved_refl|]. left. split; [done|]. intros (f' & Hn & Hr). rewrite Hf in Hn. injection Hn as <-.
      rewrite Hr, bytesEqual_refl in Hl. discriminate. }
  apply bytesEqual_eq in Hl. assert (Hta : tok_address t = remoteToken) by (rewrite <- Hl, Hfe; done).
  apply returns_bind, returns_try.
  pose proof (debitToken_outcomes (ledger w) img (tx_sender ctx) (rf_id f) t v Hwf Hs Hp ltac:(lia) Ht Hv) as Hd.
  unfold wp in Hd. apply wp_bind. unfold wp, on_ledger, zoom.
  destruct (debitToken _ _ _ (ledger w)) as [[[]|e|] l1]; cbn [fst snd] in Hd |- *; [| |done].
  - destruct Hd as [Hle (img1 & Hset)].
    cbn [fst snd negb mret M_ret]. apply returns_bind, returns_modify, returns_bind, returns_modify. apply returns_bind.
    eapply returns_mono; [by apply send_spec|]. cbn [set_sink set_ledger sink emissions withdrawals sink_input ledger].
    intros [] w' (He & Hdr & Hfc & Hr). apply returns_ret. exists (rf_id f).
    assert (Hn : msgNonce (ram l1) = msgNonce (ram (ledger w))) by (destruct Hset as (_ & _ & _ & -> & _); done).
    split_and!; [split; [lia|by exists t]|by rewrite <- Hta|lia|exists img1; by eapply debited_burned|].
    rewrite He, Hn, <- !app_assoc. done.
  - destruct Hd as (Hlt & -> & Hu). apply returns_ret. cbn [negb]. apply returns_ret.
    split_and!; [done|exact Hu|]. right. split; [done|]. exists (rf_id f). split; [split; [lia|by exists t]|lia].
Qed.
End TokenBridge.
