(* ===== verification/Registration.v ===== *)
(** * Boot-time registration

    [Router.register] and [Application.contract] (app/src/router.ts,
    app/src/application.ts): a contract can be routed at a free address outside
    the reserved ones, and shadows nothing; a router whose contracts behave
    behaves. *)

From Stdlib Require Import ZArith Lia.
From S2P Require Import Prelude Bytes Store DriveConfig DriveHeader RobinHood DriveTable Drive DriveTokens.
From S2P Require Import DriveFormat Evm Ledger Journal DriveJournal LedgerJournal LedgerSpec LedgerInv Handlers Router HandlersJournal.
From S2P Require Import HandlersInv RouterSpec.

Section Registration.
Context {S App : Type} {HS : Store S} {HR : StoreReads S} {HW : StoreWrites S} {HG : StoreGuards S}
  {HK : Keccak} {HKL : KeccakLaws} {HV : Viem} {HC : Calldata} {HCL : CalldataLaws}.
Implicit Types r : Router S App.

Definition reserved (a : Address) : bool := inSystemNamespace a || existsb (bytesEqual a) RESERVED_PREDEPLOYS.

Lemma contract_val (spec : ContractSpec S App) r r' : contract spec r = Val r' <->
  reserved (spec_address spec) = false /\ manifest_get (manifest r) (spec_address spec) = None
  /\ r' = mkRouter (manifest r ++ [(spec_address spec, RApp (contractHandler spec))]) (rcfg r).
Proof.
  unfold contract, register. fold (reserved (spec_address spec)). destruct (reserved _); [naive_solver|].
  destruct (manifest_get _ _); naive_solver.
Qed.

Lemma manifest_get_app (m1 m2 : list (Address * Routed S App)) a :
  manifest_get (m1 ++ m2) a = match manifest_get m1 a with Some h => Some h | None => manifest_get m2 a end.
Proof. induction m1 as [|[k h] m1 IH]; simpl; [done|]. by destruct (bytesEqual k a). Qed.

(** The address routes to the contract; every other one routes as before. *)
Lemma contract_routes (spec : ContractSpec S App) r r' : contract spec r = Val r' -> forall a block dep l,
  resolve r' a block dep l =
    if decide (a = spec_address spec) then Some (RApp (contractHandler spec)) else resolve r a block dep l.
Proof.
  intros (_ & Hnone & ->)%contract_val a block dep l. unfold resolve. simpl. rewrite manifest_get_app. simpl.
  case_decide as Ha.
  - subst a. by rewrite Hnone, bytesEqual_refl.
  - destruct (manifest_get (manifest r) a); [done|]. by rewrite bytesEqual_ne by congruence.
Qed.

Lemma contract_views_harmless (spec : ContractSpec S App) r r' : contract spec r = Val r' -> views_harmless r ->
  callbacks_harmless spec -> views_harmless r'.
Proof.
  intros (_ & _ & ->)%contract_val Hr Hcb a h v Hin Hv. simpl in Hin. apply elem_of_app in Hin as [Hin|Hin]; [by eapply Hr|].
  apply list_elem_of_singleton in Hin. injection Hin as -> ->. injection Hv as <-. intros call.
  by apply contract_view_harmless.
Qed.

Lemma contract_sound (spec : ContractSpec S App) r r' : contract spec r = Val r' -> router_sound r ->
  (forall c len, geometry len c -> callbacks_track c len spec) -> callbacks_keep spec -> router_sound r'.
Proof.
  intros Hc [Ht Hk] Hct Hck. unfold contract in Hc. destruct (_ || _); [done|]. split.
  - intros c len Hg. eapply register_tracks; [by apply Ht| |done]. apply contractHandler_tracks. by apply Hct.
  - eapply register_keeps; [done| |done]. intros adv [= <-] ctx Hctx. by apply contract_keeps.
Qed.

Lemma newRouter_sound rc : router_sound (newRouter (S := S) (App := App) rc) /\ views_harmless (newRouter (S := S) (App := App) rc).
Proof.
  split; [split; [intros; apply newRouter_tracks|apply newRouter_keeps]|].
  intros a h v Hin. exfalso. unfold newRouter, builtin_manifest in Hin. simpl in Hin.
  apply list_elem_of_In in Hin. simpl in Hin. naive_solver.
Qed.
End Registration.
