(* ===== verification/Chain.v ===== *)
(** * A chain of inputs

    The application's life as a step relation: each step is an input or a
    query. What holds of one step (RouterSpec) holds of every run: the ledger
    is always at rest between inputs, a relayed message stays relayed, and the
    message counter never goes back. *)

From Stdlib Require Import ZArith Lia.
From stdpp Require Import relations.
From S2P Require Import Prelude Bytes Store DriveConfig DriveHeader RobinHood DriveTable Drive DriveTokens.
From S2P Require Import DriveFormat Evm Ledger Journal DriveJournal LedgerJournal LedgerSpec LedgerInv Handlers Router HandlersJournal.
From S2P Require Import HandlersInv RouterSpec.

Section Chain.
Context {S App : Type} {HS : Store S} {HR : StoreReads S} {HW : StoreWrites S} {HG : StoreGuards S}
  {HK : Keccak} {HKL : KeccakLaws} {HV : Viem} {HI : InputLaws} {HC : Calldata} {HCL : CalldataLaws}.
Abbreviation W := (World S App).
Context (r : Router S App).

(** One request of the rollup loop ([Application.run]): an input, answered or
    thrown out of, or a query. *)
Inductive chain_step : W -> W -> Prop :=
  | step_input block raw w : chain_step w (advance_input r block raw w).2
  | step_query lastBlock payload w : chain_step w (inspect r lastBlock payload w).2.

Definition resting (w : W) : Prop := exists img, at_rest w img.

Context (Hr : router_sound r) (Hv : views_harmless r).

Lemma step_resting w w' : chain_step w w' -> resting w ->
  resting w' /\ ram_le (ram (ledger w)) (ram (ledger w')).
Proof.
  intros [block raw w0|lb payload w0] [img Hrest].
  - pose proof (advance_input_spec r block raw w0 img Hr Hrest) as Hs. unfold wp in Hs.
    destruct (advance_input r block raw w0) as [[res|e|] w1]; simpl in *; [| |done].
    + destruct Hs as (Hrest' & Hle & _). by split.
    + destruct Hs as [Hs _]. split; [exists img; by eapply rest_restored|]. apply ram_le_equiv, Hs.
  - pose proof (inspect_spec r lb payload w0 img Hr Hv (proj1 Hrest)) as Hs.
    apply returns_elim in Hs as (res & w1 & -> & Hs). simpl.
    split; [exists img; by eapply rest_restored|]. apply ram_le_equiv, Hs.
Qed.

Lemma run_resting w w' : rtc chain_step w w' -> resting w ->
  resting w' /\ ram_le (ram (ledger w)) (ram (ledger w')).
Proof.
  induction 1 as [w|w1 w2 w3 Hstep _ IH]; intros Hrest; [done|].
  destruct (step_resting _ _ Hstep Hrest) as [Hrest2 Hle]. destruct (IH Hrest2) as [Hrest3 Hle']. split; [done|by etrans].
Qed.
End Chain.
