(* ===== verification/Solvency.v ===== *)
(** * Nobody creates ether

    The ether of the ledger is the sum of its accounts' balances. Every built-in
    handler only moves or burns it: what is credited has been debited by the
    same operation, on every path, the throwing ones included. The one place
    ether comes into being is the mint of a deposit (advanceDeposit of
    app/src/router.ts), so over any run the ledger holds at most what it started
    with and what the deposits minted. *)

From Stdlib Require Import ZArith Lia.
From S2P Require Import Prelude Sums Bytes Store DriveConfig DriveHeader RobinHood DriveTable Drive DriveTokens.
From S2P Require Import DriveFormat Evm Ledger Journal DriveJournal LedgerJournal LedgerSpec LedgerInv Handlers Router HandlersJournal.
From S2P Require Import HandlersInv RouterSpec Chain.

(** What the code relies on of viem's decoders: an unsigned value is not
    negative. *)
Class CalldataAmounts {HC : Calldata} : Prop := {
  setFee_amount : forall d f, decodeConfig d = Val (setFee_call f) -> 0 <= f;
  relayMessage_amount : forall d m, decodeMessenger d = Val (relayMessage m) -> 0 <= m_value m;
  finalizeBridgeETH_amount : forall d from to v x, decodeL2Bridge d = Val (finalizeBridgeETH from to v x) -> 0 <= v
}.

Create HintDb spend.

Section Solvency.
Context {S : Type} {HS : Store S} {HR : StoreReads S} {HW : StoreWrites S} {HK : Keccak} {HKL : KeccakLaws}.
Implicit Types l : Ledger S.
Implicit Types img : bytes.

(** The invariant, a fee that does not pay its payer, and at most [E] in all. *)
Definition ether l img : Z := ether_total (cfg (drive l)) img.
Definition holding (E : Z) l : Prop := exists img, ledger_inv l img /\ 0 <= fee (ram l) /\ ether l img <= E.

Lemma holding_mono E E' l : E <= E' -> holding E l -> holding E' l.
Proof. intros Hle (img & Hi & Hf & He). exists img. split_and!; [done|done|lia]. Qed.

(** [grants d e m]: [m] ends, and the ether grew by [d] at most if it returned,
    by [e] if it threw. *)
Definition after {X A} {HX : HasLedger S X} (D E : Z) (r : outcome A * X) : Prop :=
  match r.1 with
  | Val _ => holding D (the_ledger r.2)
  | Exn _ => holding E (the_ledger r.2)
  | Diverge => False
  end.
Definition grants {X A} {HX : HasLedger S X} (d e : Z) (m : M X A) : Prop :=
  forall E x, holding E (the_ledger x) -> after (E + d) (E + e) (m x).

(** ** Rules *)
Section Rules.
Context {X : Type} {HX : HasLedger S X}.

Lemma after_mono {A} D D' E E' (r : outcome A * X) : D <= D' -> E <= E' -> after D E r -> after D' E' r.
Proof. intros HD HE H. unfold after in *. destruct (r.1); [exact (holding_mono _ _ _ HD H)|exact (holding_mono _ _ _ HE H)|done]. Qed.
Lemma after_same {A} E (x : X) (r : outcome A * X) : holding E (the_ledger x) -> r.1 <> Diverge ->
  the_ledger r.2 = the_ledger x -> after E E r.
Proof. intros Hh Hd Hl. unfold after. rewrite Hl. by destruct (r.1). Qed.

Lemma grants_weaken {A} d e d' e' (m : M X A) : grants d e m -> d <= d' -> e <= e' -> grants d' e' m.
Proof. intros Hm ?? E x Hh. eapply after_mono; [| |by apply Hm]; lia. Qed.
Lemma grants_same {A} (m : M X A) : (forall x, (m x).1 <> Diverge /\ the_ledger (m x).2 = the_ledger x) -> grants 0 0 m.
Proof. intros Hm E x Hh. destruct (Hm x) as [Hd Hl]. rewrite Z.add_0_r. by eapply after_same. Qed.
Lemma grants_ret {A} (a : A) : grants 0 0 (mret a : M X A).
Proof. by apply grants_same. Qed.
Lemma grants_throw {A} e : grants 0 0 (throw e : M X A).
Proof. by apply grants_same. Qed.
Lemma grants_gets {A} (f : X -> A) : grants 0 0 (gets f).
Proof. by apply grants_same. Qed.
Lemma grants_lift {A} (o : outcome A) : o <> Diverge -> grants 0 0 (liftO o : M X A).
Proof. intros Ho. by apply grants_same. Qed.
Lemma grants_modify (f : X -> X) : (forall x, the_ledger (f x) = the_ledger x) -> grants 0 0 (modify f).
Proof. intros Hf. apply grants_same. intros x. split; [done|apply Hf]. Qed.

(** What the first step gave up, the second may give back. *)
Lemma grants_bind {A B} d1 e1 d2 e2 e (m : M X A) (f : A -> M X B) : grants d1 e1 m -> (forall a, grants d2 e2 (f a)) ->
  e1 <= e -> d1 + e2 <= e -> grants (d1 + d2) e (m ≫= f).
Proof.
  intros Hm Hf He1 He2 E x Hh. specialize (Hm E x Hh). unfold mbind, M_bind, after in *.
  destruct (m x) as [[a|err|] x1]; simpl in *; [|eapply holding_mono; [|exact Hm]; lia|done].
  eapply (after_mono (E + d1 + d2)); [| |by apply Hf]; lia.
Qed.
Lemma spends_bind {A B} (m : M X A) (f : A -> M X B) : grants 0 0 m -> (forall a, grants 0 0 (f a)) -> grants 0 0 (m ≫= f).
Proof. intros Hm Hf. by apply (grants_bind 0 0 0 0). Qed.
Lemma spends_try {A} (m : M X A) (h : exn -> M X A) : grants 0 0 m -> (forall e, grants 0 0 (h e)) -> grants 0 0 (try_catch m h).
Proof.
  intros Hm Hh E x Hx. specialize (Hm E x Hx). unfold try_catch, after in *.
  destruct (m x) as [[a|err|] x1]; simpl in *; [done| |done]. rewrite Z.add_0_r in Hm. by apply Hh.
Qed.
(** A case on what was read, knowing what it was. *)
Lemma spends_gets_eq {A B} (f : X -> A) (k : A -> M X B) :
  (forall E x, holding E (the_ledger x) -> after E E (k (f x) x)) -> grants 0 0 (x ← gets f; k x).
Proof. intros Hk E x Hh. rewrite Z.add_0_r. by apply Hk. Qed.
Lemma spends_after {A} E (x : X) (m : M X A) : grants 0 0 m -> holding E (the_ledger x) -> after E E (m x).
Proof. intros Hm Hx. specialize (Hm E x Hx). by rewrite Z.add_0_r in Hm. Qed.
End Rules.

(** ** The drive's operations *)
Lemma ether_same l img l' img' : cfg (drive l') = cfg (drive l) ->
  (forall a, account_of (cfg (drive l)) img' a = account_of (cfg (drive l)) img a) -> ether l' img' = ether l img.
Proof.
  intros Hc Ha. unfold ether, ether_total. rewrite Hc. apply sum_over_same; [apply ether_supported..|].
  intros b. unfold ether_of. by rewrite Ha.
Qed.

(** A computation on the drive that throws without writing. *)
Lemma raise_after {A} (m : M (Drive (JStore S)) A) l img e E : ledger_inv l img -> 0 <= fee (ram l) -> ether l img <= E ->
  raises m (drive l) e (fun d' => d' = drive l \/ leaves (drive l) img d') -> forall D, after D E (with_drive m l).
Proof.
  intros Hi Hf He Hr D. unfold raises, wp in Hr. unfold after, with_drive, zoom.
  destruct (m (drive l)) as [o d']. simpl in *. destruct Hr as [-> Hd]. exists img. destruct Hd as [->|Hd].
  - replace (set_drive (drive l) l) with l by (by destruct l). by split_and!.
  - split_and!; [by apply inv_leaves|done|]. destruct Hd as (s & -> & _). exact He.
Qed.

(** What remains after the address check an operation [m] starts with. *)
Lemma grants_checked {A} d e (m : M (Drive (JStore S)) A) f a : m = (x ← nonzero_address (AddrBytes a); f x) -> 0 <= e ->
  (zlen a = 20 -> isZero a = false -> grants d e (with_drive m)) -> grants d e (with_drive m).
Proof.
  intros Hm He Hok E l Hh. destruct (decide (zlen a = 20 /\ isZero a = false)) as [[H1 H2]|Hn]; [exact (Hok H1 H2 E l Hh)|].
  destruct Hh as (img & Hi & Hf & Hle). destruct (nonzero_refused f (drive l) a Hn) as [x Hx]. rewrite <- Hm in Hx.
  eapply (after_mono (E + d) _ E); [lia|lia|]. eapply raise_after; [done..|]. eapply raises_mono; [exact Hx|]. auto.
Qed.

(** An account read: what is read is there, and nothing moves. *)
Lemma account_refused l a : ~ (zlen a = 20 /\ isZero a = false) -> exists e, raises (account a) l e (fun l' => l' = l).
Proof.
  intros Hn. assert (Hg : exists f, getAccount (S := JStore S) (AddrBytes a) = (x ← nonzero_address (AddrBytes a); f x)) by (eexists; reflexivity).
  destruct Hg as [f Hg]. destruct (nonzero_refused f (drive l) a Hn) as [e He]. rewrite <- Hg in He. exists e.
  unfold account. apply raises_first. unfold raises, wp, with_drive, zoom in He |- *.
  destruct (getAccount _ (drive l)) as [o d']. simpl in *. destruct He as [-> ->]. by destruct l.
Qed.
Lemma account_after {B} a (k : Z * Z -> M (Ledger S) B) E D E' l :
  holding E l -> E <= E' ->
  (forall l1 img, zlen a = 20 -> isZero a = false -> ledger_inv l1 img -> 0 <= fee (ram l1) -> ether l1 img <= E ->
     after D E' (k (account_view l1 img a) l1)) ->
  after D E' ((r ← account a; k r) l).
Proof.
  intros Hh Hle Hk. destruct (decide (zlen a = 20 /\ isZero a = false)) as [[Hl Hz]|Hn].
  - destruct Hh as (img & Hi & Hf & He).
    pose proof (account_quiet l img a (proj1 Hi) Hl Hz) as Hq. apply returns_elim in Hq as (r & l1 & Hrun & -> & Hre & Hod).
    rewrite (bind_val _ _ _ _ _ Hrun). rewrite <- (only_drive_view l l1 img a Hod). apply Hk; try done.
    + by eapply inv_restored.
    + destruct Hod as (_ & _ & ->). done.
    + unfold ether. destruct Hod as ((-> & _) & _). done.
  - destruct (account_refused l a Hn) as [e He]. unfold raises, wp in He.
    destruct (account a l) as [o l1] eqn:Hrun. simpl in He. destruct He as [-> ->].
    rewrite (bind_exn _ _ _ _ _ Hrun). unfold after. simpl. by eapply holding_mono.
Qed.

(** The write all account operations end with. *)
Lemma put_account_after l img a n b E : Forall is_byte a -> zlen a = 20 -> isZero a = false ->
  ledger_inv l img -> 0 <= fee (ram l) -> ether l img <= E ->
  after (E - (account_view l img a).2 + b) E (with_drive (setAccount (AddrBytes a) n b) l).
Proof.
  intros Hb Hl Hz Hi Hf He. pose proof (toAddress_bytes a Hl) as Ha. pose proof (proj1 (proj1 Hi)) as Hwf.
  destruct (decide (fits_width (balance_width (cfg (drive l))) b /\ (compact (cfg (drive l)) = true -> n <= 0xffffffff))) as [[Hw Hn]|Hno].
  2: { eapply raise_after; [done..|]. eapply raises_mono; [by apply (setAccount_overflow _ _ a)|]. auto. }
  destruct (decide (is_Some (account_of (cfg (drive l)) img a) \/ count_at OFF_LIVE_COUNT img < loadLimit (cfg (drive l)))) as [Hr|Hr].
  - pose proof (setAccount_spec (drive l) img _ a n b Hwf Ha Hz Hb Hw Hn Hr) as Hs.
    apply returns_elim in Hs as ([] & d' & Hrun & img' & Hrest & Hacc & Hoth & Htok).
    unfold after, with_drive, zoom. rewrite Hrun. simpl.
    destruct (wf_set_drive l img d' img' (proj1 Hi) Hrest) as [Hwf' Hod].
    exists img'. destruct Hi as (_ & Hsup & Hx). split; [split; [exact Hwf'|split; [by eapply supply_only_drive|exact Hx]]|split; [exact Hf|]].
    assert (Hset : account_set l img a (n mod nonce_modulus (cfg (drive l)), b) (set_drive d' l) img') by (by split_and!).
    unfold the_ledger, Ledger_has, ether. destruct Hod as ((-> & _) & _). rewrite (ether_total_set _ _ _ _ _ _ Hset). simpl. unfold ether in He. lia.
  - apply Decidable.not_or in Hr as [Hnone Hfull]. eapply raise_after; [done..|].
    eapply raises_mono; [apply (setAccount_full _ img _ a); try done; [|lia]|auto]. by apply eq_None_not_Some.
Qed.

Lemma creditEther_grants a v : Forall is_byte a -> 0 <= v -> grants v 0 (creditEther a v).
Proof.
  intros Hb Hv E l Hh. unfold creditEther. destruct (v =? 0).
  - eapply (after_mono E _ E); [lia|lia|]. by apply (after_same E l).
  - apply (account_after a _ E); [done|lia|]. intros l1 img Hl Hz Hi Hf He.
    eapply after_mono; [| |exact (put_account_after l1 img a _ _ E Hb Hl Hz Hi Hf He)]; lia.
Qed.
Lemma debitEther_grants a v : Forall is_byte a -> 0 <= v -> grants (- v) 0 (debitEther a v).
Proof.
  intros Hb Hv E l Hh. unfold debitEther. destruct (Z.eqb_spec v 0) as [->|Hnz].
  - eapply (after_mono E _ E); [lia|lia|]. by apply (after_same E l).
  - apply (account_after a _ E); [done|lia|]. intros l1 img Hl Hz Hi Hf He. destruct (_ <? _).
    + unfold after. simpl. rewrite Z.add_0_r. by exists img.
    + eapply after_mono; [| |exact (put_account_after l1 img a _ _ E Hb Hl Hz Hi Hf He)]; lia.
Qed.
Lemma bumpNonceAndCharge_grants a f : Forall is_byte a -> 0 <= f -> grants 0 0 (bumpNonceAndCharge a f).
Proof.
  intros Hb Hf0 E l Hh. unfold bumpNonceAndCharge.
  apply (account_after a _ E); [done|lia|]. intros l1 img Hl Hz Hi Hf He. destruct (_ <? _).
  - unfold after. simpl. rewrite Z.add_0_r. by exists img.
  - eapply after_mono; [| |exact (put_account_after l1 img a _ _ E Hb Hl Hz Hi Hf He)]; lia.
Qed.

(** ** The operations that do not touch accounts *)

(** What an operation that keeps the invariant does to the ether, when it
    leaves the accounts and the fee alone. *)
Lemma holding_same E l img l' img' : ether l img <= E -> ledger_inv l' img' -> 0 <= fee (ram l') ->
  cfg (drive l') = cfg (drive l) -> (forall a, account_of (cfg (drive l)) img' a = account_of (cfg (drive l)) img a) ->
  holding E l'.
Proof. intros He Hi Hf Hc Ha. exists img'. split_and!; [done|done|]. by rewrite (ether_same l img). Qed.

(** By the views: the accounts are sums of what is seen of them. *)
Lemma ether_view l img l' img' : cfg (drive l') = cfg (drive l) ->
  (forall a, account_view l img' a = account_view l img a) -> ether l' img' = ether l img.
Proof.
  intros Hc Ha. unfold ether, ether_total. rewrite Hc. apply sum_over_same; [apply ether_supported..|].
  intros b. unfold ether_of. specialize (Ha b). unfold account_view in Ha. by rewrite Ha.
Qed.

Lemma tokenBalance_after {A} a id (f : Z -> M (Ledger S) A) E l : holding E l ->
  (forall l1 img, ledger_inv l1 img -> 0 <= fee (ram l1) -> ether l1 img <= E -> token_access (drive l1) a id ->
   after E E (f (token_balance (cfg (drive l1)) (tokens_ (drive l1)) img id a) l1)) ->
  after E E ((b ← tokenBalance a id; f b) l).
Proof.
  intros Hh Hf. pose proof Hh as (img & Hi & Hfee & He). pose proof Hi as (Hwf & _). unfold tokenBalance.
  destruct (decide (token_access (drive l) a id)) as [Hacc|Hno].
  - pose proof Hacc as (Hl & Hz & Hid & Hp).
    pose proof (getTokenBalance_spec (drive l) img _ a id (proj1 Hwf) (toAddress_bytes a Hl) Hz Hid Hp) as Hg.
    apply returns_elim in Hg as (v & d' & Hg & -> & Hd). unfold mbind, M_bind, with_drive, zoom. rewrite Hg.
    pose proof (inv_leaves l img d' Hi Hd) as Hi'. destruct (wf_leaves _ _ _ (proj1 Hwf) Hd) as (_ & Hc & Ht).
    pose proof (Hf (set_drive d' l) img Hi') as Hk. unfold ether, token_access in Hk. simpl in Hk. rewrite Hc, Ht in Hk. by apply Hk.
  - destruct (balance_refused _ _ _ Hno) as [e Hx]. unfold raises, wp in Hx.
    unfold mbind, M_bind, with_drive, zoom. destruct (getTokenBalance _ _ (drive l)) as [o d']. simpl in Hx.
    destruct Hx as [-> ->]. unfold after. simpl. by replace (set_drive (drive l) l) with l by (by destruct l).
Qed.
Lemma tokenBalance_spends a id : grants 0 0 (tokenBalance a id : M (Ledger S) Z).
Proof.
  intros E l Hh. rewrite Z.add_0_r.
  pose proof (tokenBalance_after a id mret E l Hh) as Hk. unfold after, mbind, M_bind, mret, M_ret in *. simpl in Hk.
  specialize (Hk ltac:(intros l1 img ? ? ? ?; by exists img)). by destruct (tokenBalance a id l) as [[]].
Qed.

Lemma put_token_after l img a id delta E : ledger_inv l img -> 0 <= fee (ram l) -> ether l img <= E ->
  token_access (drive l) a id -> Forall is_byte a ->
  after E E ((with_drive (setTokenBalance (AddrBytes a) id
          (token_balance (cfg (drive l)) (tokens_ (drive l)) img id a + delta));; addTotal id delta) l).
Proof.
  intros Hi Hf He (Hl & Hz & Hid & Hp) Hb. pose proof Hi as (Hwf & Hs & Hx). pose proof (toAddress_bytes a Hl) as Ha.
  destruct (token_known l id Hid) as [t Ht]. set (v := _ + delta).
  assert (Hrefuse : forall e, raises (setTokenBalance (AddrBytes a) id v) (drive l) e
      (fun d' => d' = drive l \/ leaves (drive l) img d') ->
    after E E ((with_drive (setTokenBalance (AddrBytes a) id v);; addTotal id delta) l)).
  { intros e Hr. pose proof (raise_after _ l img e E Hi Hf He Hr E) as Hk. unfold raises, wp in Hr. revert Hk.
    unfold after, mbind, M_bind, with_drive, zoom. destruct (setTokenBalance _ _ _ (drive l)) as [o d']. simpl in Hr.
    by destruct Hr as [-> _]. }
  destruct (decide (fits_width (tok_width t) v)) as [Hv|Hv].
  2: { eapply Hrefuse, raises_mono; [apply (setTokenBalance_overflow _ img _ a id t); try done; [apply Hwf|lia]|auto]. }
  destruct (room_or_full (drive l) img id a v (proj1 Hwf) Hid Hp Hl) as [Hroom|[Hnz Hfull]].
  2: { eapply Hrefuse, raises_mono; [apply (setTokenBalance_full _ img _ a id t); try done; [apply Hwf|lia]|auto]. }
  pose proof (put_token_spec l img a id t v delta Hwf) as Hput.
  apply returns_elim in Hput as ([] & l' & Hrun & img' & Hset); try done; [|lia].
  rewrite Hrun. change (holding E l'). pose proof Hset as (Hwf' & (Hc & _) & _ & Hr & _ & _ & Hview). exists img'.
  split; [|split; [by rewrite Hr|by rewrite (ether_view l img)]].
  split; [exact Hwf'|split; [by eapply supply_set|]]. apply (exclusive_same l); [by rewrite Hr..|done].
Qed.
Lemma creditToken_spends a id v : Forall is_byte a -> grants 0 0 (creditToken a id v : M (Ledger S) unit).
Proof.
  intros Hb E l Hh. rewrite Z.add_0_r. unfold creditToken. destruct (_ =? _); [by apply (after_same E l)|].
  apply tokenBalance_after; [done|]. intros. by apply put_token_after.
Qed.
Lemma debitToken_spends a id v : Forall is_byte a -> grants 0 0 (debitToken a id v : M (Ledger S) unit).
Proof.
  intros Hb E l Hh. rewrite Z.add_0_r. unfold debitToken. destruct (_ =? _); [by apply (after_same E l)|].
  apply tokenBalance_after; [done|]. intros l1 img Hi Hf He Hacc. destruct (_ <? _).
  - unfold after. simpl. by exists img.
  - rewrite <- Z.add_opp_r. by apply put_token_after.
Qed.

Lemma registerToken_spends a md : grants 0 0 (ledger_registerToken a md : M (Ledger S) _).
Proof.
  intros E l Hh. rewrite Z.add_0_r. pose proof Hh as (img & Hi & Hf & He). pose proof Hi as (Hwf & Hs & Hx).
  assert (Hrefuse : forall e, raises (registerToken (AddrBytes a) 32) (drive l) e (fun d' => d' = drive l) ->
    after E E (ledger_registerToken a md l)).
  { intros e Hr. unfold raises, wp in Hr. unfold after, ledger_registerToken, mbind, M_bind, with_drive, zoom.
    destruct (registerToken _ _ (drive l)) as [o d']. simpl in Hr. destruct Hr as [-> ->]. simpl.
    by replace (set_drive (drive l) l) with l by (by destruct l). }
  destruct (address_cases a) as [[e Hr]|[Ha Hl]].
  { apply (Hrefuse e). unfold registerToken. by apply raises_first, raises_lift. }
  destruct (registration_error (cfg (drive l)) (tokens_ (drive l)) a 32) as [e|] eqn:Herr.
  - apply (Hrefuse e). by apply (registerToken_refused _ _ a).
  - pose proof (ledger_registerToken_spec l img a md Hwf Hl Herr) as Hreg.
    apply returns_elim in Hreg as (r & l' & Hrun & _ & img' & Hreg). rewrite Hrun. change (holding E l').
    pose proof Hreg as (Hwf' & Hc & _ & _ & Hr & Hacc & _).
    eapply (holding_same E l img l' img'); [done| |by rewrite Hr; destruct md|done|done].
    split; [exact Hwf'|split; [by eapply supply_registered|]]. apply (exclusive_same l); [by rewrite Hr; destruct md..|done].
Qed.
Lemma tokenByL1Address_spends a : grants 0 0 (tokenByL1Address a : M (Ledger S) _).
Proof.
  apply grants_same. intros l. unfold tokenByL1Address, tokenByAddress, mbind, M_bind, with_drive, zoom, liftO.
  destruct (toAddress _) as [b|e|] eqn:Hb; (split; [|by destruct l]); try done.
  unfold toAddress in Hb. simpl in Hb. by destruct (zlen a =? 20).
Qed.

(** ** RAM state *)
Lemma ram_after {A} (m : M (Ledger S) A) l a es r E : holding E l ->
  m l = (Val a, set_ram r (set_journal es l)) -> totals r = totals (ram l) ->
  (exclusive l -> exclusive (set_ram r l)) -> (0 <= fee (ram l) -> 0 <= fee r) -> after E E (m l).
Proof.
  intros (img & Hi & Hf & He) -> Hr Hx Hfee. change (holding E (set_ram r (set_journal es l))). exists img. split; [|split; [by apply Hfee|exact He]].
  apply (inv_transport l); try done; [apply Hi| |apply Hx, Hi]. intros id. unfold totalSupply. simpl. by rewrite Hr.
Qed.
Ltac ram_spends := intros E l Hh; rewrite Z.add_0_r; eapply ram_after; [exact Hh|reflexivity|reflexivity|intros Hx; exact Hx|done].

Lemma setMetadata_spends id m : grants 0 0 (setMetadata id m : M (Ledger S) unit).
Proof. ram_spends. Qed.
Lemma setFee_spends f : 0 <= f -> grants 0 0 (setFee f : M (Ledger S) unit).
Proof. intros Hf. ram_spends. Qed.
Lemma nextMessageNonce_spends : grants 0 0 (nextMessageNonce : M (Ledger S) Z).
Proof. ram_spends. Qed.
Lemma setMessageStatus_spends h s : grants 0 0 (setMessageStatus h s : M (Ledger S) unit).
Proof. ram_spends. Qed.
Lemma commit_spends : grants 0 0 (commit : M (Ledger S) unit).
Proof. intros E l Hh. rewrite Z.add_0_r. by eapply (ram_after _ _ _ _ (ram l)). Qed.
(** The two registrations, under the check their callers make. *)
Lemma registerPortal_after a k l E : holding E l -> k <> PORTAL_ERC20 \/ crossDomain l = None -> after E E (registerPortal a k l).
Proof.
  intros Hh Hk. eapply ram_after; [exact Hh|reflexivity|reflexivity| |done]. intros Hx.
  destruct Hk as [Hk|Hc]; [|by left]. destruct Hx as [Hc|Hno]; [by left|right].
  rewrite hasErc20Portal_false in *. intros b. simpl. destruct (decide (b = a)) as [->|Hne].
  - rewrite lookup_partial_alter_eq. congruence.
  - by rewrite lookup_partial_alter_ne.
Qed.
Lemma registerCrossDomain_after cd l E : holding E l -> hasErc20Portal l = false -> after E E (registerCrossDomain cd l).
Proof. intros Hh Hno. eapply ram_after; [exact Hh|reflexivity|reflexivity|by right|done]. Qed.

(** Rolled back to a ledger, it holds what that one held. *)
Lemma holding_restored E l img l' : ledger_inv l img -> 0 <= fee (ram l) -> ether l img <= E -> restored l img l' -> holding E l'.
Proof.
  intros Hi Hf He Hr. pose proof Hr as (_ & (Hc & _) & _ & [_ _ _ Hfee _ _ _] & _). exists img.
  split; [by eapply inv_restored|]. split; [by rewrite Hfee|]. unfold ether. by rewrite Hc.
Qed.
End Solvency.
#[export] Hint Resolve creditToken_spends debitToken_spends registerToken_spends tokenByL1Address_spends tokenBalance_spends
  setMetadata_spends nextMessageNonce_spends setMessageStatus_spends commit_spends : spend.
