(* ===== verification/SolvencySpec.v ===== *)
(** * No handler creates ether

    Each built-in handler, the router's dispatch, its four outcomes, deposits
    and signed transactions, and the runs of inputs and queries, against the
    ether of the ledger ([Solvency]); and the routers an application makes by
    declaring contracts. *)

From Stdlib Require Import ZArith Lia.
From S2P Require Import Prelude Sums Bytes Store DriveConfig DriveHeader RobinHood DriveTable Drive DriveTokens.
From S2P Require Import DriveFormat Evm Ledger Journal DriveJournal LedgerJournal LedgerSpec LedgerInv Handlers Router HandlersJournal.
From S2P Require Import HandlersInv RouterSpec Registration Chain Solvency.

Section Handlers.
Context {S App : Type} {HS : Store S} {HR : StoreReads S} {HW : StoreWrites S} {HG : StoreGuards S}
  {HK : Keccak} {HKL : KeccakLaws} {HV : Viem} {HC : Calldata} {HCL : CalldataLaws} {HCA : CalldataAmounts}.
Abbreviation W := (World S App).
Abbreviation GW d e m := (grants (S := S) d e (m : M W _)).

Lemma on_ledger_grants {A} d e (m : M (Ledger S) A) : grants d e m -> GW d e (on_ledger m).
Proof.
  intros Hm E w Hh. specialize (Hm E (ledger w) Hh). unfold after, on_ledger, zoom in *.
  by destruct (m (ledger w)) as [[a|x|] l'].
Qed.
Lemma on_ledger_after {A} D E (m : M (Ledger S) A) (w : W) : after D E (m (ledger w)) -> after D E (on_ledger m w).
Proof. unfold after, on_ledger, zoom. by destruct (m (ledger w)) as [[a|x|] l']. Qed.
Lemma emit_spends e : GW 0 0 (emit e).
Proof. by apply grants_modify. Qed.
Lemma out_withdrawal_spends s t v g d : GW 0 0 (out_withdrawal s t v g d).
Proof.
  unfold out_withdrawal. apply spends_bind; [apply grants_gets|]. intros idx.
  apply spends_bind; [apply grants_gets|]. intros ord. apply spends_bind; [by apply grants_modify|]. intros _.
  apply spends_bind; [|intros; apply spends_bind; intros; apply emit_spends].
  apply grants_lift. unfold versionedWithdrawalNonce. by repeat case_match.
Qed.

(** What is debited pays for what is credited next. *)
Lemma transfer_spends {A} a b v (k : M W A) : Forall is_byte a -> Forall is_byte b -> 0 <= v -> GW 0 0 k ->
  GW 0 0 (on_ledger (debitEther a v);; on_ledger (creditEther b v);; k).
Proof.
  intros Ha Hb Hv Hk. replace 0 with (- v + v) at 1 by lia.
  apply (grants_bind (- v) 0 v v 0); [by apply on_ledger_grants, debitEther_grants| |lia|lia].
  intros _. replace v with (v + 0) at 1 by lia.
  apply (grants_bind v 0 0 0 v); [by apply on_ledger_grants, creditEther_grants|done|lia|lia].
Qed.
Lemma burn_spends {A} a v (k : M W A) : Forall is_byte a -> 0 <= v -> GW 0 0 k -> GW 0 0 (on_ledger (debitEther a v);; k).
Proof.
  intros Ha Hv Hk. apply (grants_weaken (- v + 0) 0); [|lia..].
  apply (grants_bind (- v) 0 0 0 0); [by apply on_ledger_grants, debitEther_grants|done|lia|lia].
Qed.

Ltac sstep :=
  match goal with
  | |- grants _ _ (revert _) => apply grants_ret
  | |- grants _ _ accept => apply grants_ret
  | |- grants _ _ (mret _) => apply grants_ret
  | |- grants _ _ (throw _) => apply grants_throw
  | |- grants _ _ (asks _) => apply grants_gets
  | |- grants _ _ (gets _) => apply grants_gets
  | |- grants _ _ (out_log _ _) => apply emit_spends
  | |- grants _ _ (emit _) => apply emit_spends
  | |- grants _ _ (out_voucher _ _ _) => apply emit_spends
  | |- grants _ _ (out_withdrawal _ _ _ _ _) => apply out_withdrawal_spends
  | |- grants _ _ (modify _) => by apply grants_modify
  | |- grants _ _ (on_ledger (debitEther _ _);; on_ledger (creditEther _ _);; _) => apply transfer_spends
  | |- grants _ _ (on_ledger (debitEther _ _);; _) => apply burn_spends
  | |- grants _ _ (on_ledger _) => apply on_ledger_grants; eauto 6 with spend keep
  | |- grants _ _ (try_catch _ _) => apply spends_try; [|intros ?]
  | |- grants _ _ (_ ≫= _) => apply spends_bind; [|intros ?]
  | |- grants _ _ (if ?b then _ else _) => destruct b
  | |- grants _ _ (match ?x with _ => _ end) => destruct x eqn:?
  | |- grants _ _ (let '(_, _) := ?x in _) => destruct x eqn:?
  end.
Ltac strack := repeat sstep.
#[local] Hint Resolve ok_sender ok_to ok_data is_address_bytes addressAt_bytes : keep.

(** A transaction whose value is unsigned. *)
Definition tx_fair (ctx : TxContext) : Prop := tx_ok ctx /\ 0 <= tx_value ctx.
Lemma fair_to ctx : tx_fair ctx -> Forall is_byte (tx_to ctx).
Proof. intros [[] _]. done. Qed.
Lemma fair_sender ctx : tx_fair ctx -> Forall is_byte (tx_sender ctx).
Proof. intros [[] _]. done. Qed.
Lemma fair_data ctx : tx_fair ctx -> Forall is_byte (tx_data ctx).
Proof. intros [[] _]. done. Qed.
Lemma fair_value ctx : tx_fair ctx -> 0 <= tx_value ctx.
Proof. by intros []. Qed.
#[local] Hint Resolve fair_to fair_sender fair_data fair_value : keep.
Lemma uint256At_nonneg data off : Forall is_byte data -> 0 <= uint256At data off.
Proof. intros Hd. apply readBE_bound. unfold slice. by apply Forall_take, Forall_drop. Qed.
#[local] Hint Resolve uint256At_nonneg : keep.

Lemma passer_spends ctx : tx_fair ctx -> GW 0 0 (passer_advance ctx).
Proof. intros Hctx. unfold passer_advance. strack; eauto with keep. Qed.
Lemma token_or_register_spends a : grants 0 0 (token_or_register a : M (Ledger S) Z).
Proof. unfold token_or_register. strack; eauto with spend. Qed.
#[local] Hint Resolve token_or_register_spends : spend.
Lemma portal_spends ctx : tx_fair ctx -> GW 0 0 (portal_advance ctx).
Proof. intros Hctx. unfold portal_advance, catch_insufficient. strack; eauto with keep. Qed.
Lemma bridge_spends ctx : tx_fair ctx -> GW 0 0 (bridge_advance ctx).
Proof. intros Hctx. unfold bridge_advance. strack; eauto with keep. Qed.
Lemma erc20_spends ctx : tx_fair ctx -> GW 0 0 (erc20_advance ctx).
Proof.
  intros Hctx. unfold erc20_advance. strack.
  apply creditToken_spends. eapply is_address_bytes, transfer_address, decoded. eassumption.
Qed.
Lemma l1block_spends ctx : GW 0 0 (l1block_advance ctx).
Proof. unfold l1block_advance. strack. Qed.
Lemma sendCrossDomainMessage_spends cd s t m g v : GW 0 0 (sendCrossDomainMessage cd s t m g v).
Proof. unfold sendCrossDomainMessage. strack. Qed.
Lemma l2bridge_spends ctx : tx_fair ctx -> GW 0 0 (l2bridge_advance ctx).
Proof. intros Hctx. unfold l2bridge_advance, l2bridge_initiate. strack; try apply sendCrossDomainMessage_spends. Qed.

(** After an operation whose check was done. *)
Lemma after_bind {A B} E (m : M W A) (f : A -> M W B) w : after E E (m w) -> (forall a, GW 0 0 (f a)) -> after E E ((m ≫= f) w).
Proof.
  intros Hm Hf. unfold mbind, M_bind, after in *. destruct (m w) as [[a|x|] w1]; simpl in *; [|done..].
  by apply (spends_after E w1).
Qed.

Lemma config_spends o a ctx : GW 0 0 (config_advance o a ctx).
Proof.
  unfold config_advance. destruct (negb _); [strack|].
  destruct (tryDecodeCalldata _ _) as [[f|kind portal|lm lb|t wd n sy d|t n sy d| |]|] eqn:Hdec. 4-8: strack.
  - apply decoded, setFee_amount in Hdec. strack. by apply setFee_spends.
  - destruct (_ && _); [strack|]. apply spends_gets_eq. intros E w Hh.
    destruct (_ && _) eqn:Hb; [by apply (after_same E w)|]. apply after_bind; [|intros; strack].
    apply on_ledger_after, registerPortal_after; [done|]. apply andb_false_iff in Hb as [Hb|Hb].
    + left. by apply Z.eqb_neq.
    + right. apply bool_decide_eq_false in Hb. by apply eq_None_not_Some.
  - apply spends_gets_eq. intros E w Hh.
    destruct (hasErc20Portal (ledger w)) eqn:Hb; [by apply (after_same E w)|]. apply after_bind; [|intros; strack].
    by apply on_ledger_after, registerCrossDomain_after.
Qed.

Lemma messenger_bytes : Forall is_byte L2_MESSENGER_ADDRESS.
Proof. apply is_address_bytes, address_of_ok. lia. Qed.
#[local] Hint Resolve messenger_bytes : keep.
Lemma finalize_spends m cd : GW 0 0 (finalizeFromMessenger m cd).
Proof.
  unfold finalizeFromMessenger. strack; eauto with keep.
  - apply creditToken_spends. eapply is_address_bytes, finalizeBridgeERC20_address, decoded. eassumption.
  - eapply is_address_bytes, finalizeBridgeETH_address, decoded. eassumption.
  - eapply finalizeBridgeETH_amount, decoded. eassumption.
Qed.
Lemma dispatch_spends m cd : is_address (m_target m) -> 0 <= m_value m -> GW 0 0 (dispatch m cd).
Proof.
  intros Hm Hv. unfold dispatch. destruct (bytesEqual _ _); [apply finalize_spends|]. destruct (_ <? _); [strack|].
  replace 0 with (- m_value m + m_value m) at 1 by lia.
  apply (grants_bind (- m_value m) 0 (m_value m) 0 0); [apply on_ledger_grants, debitEther_grants; eauto with keep| |lia|lia].
  intros _. apply on_ledger_grants, creditEther_grants; [apply Hm|done].
Qed.
Lemma relay_attempt_spends cd m hash : is_address (m_target m) -> 0 <= m_value m -> GW 0 0 (relay_attempt cd m hash).
Proof. intros Hm Hv. unfold relay_attempt. sstep; [by apply dispatch_spends|]. strack. Qed.

(** What follows a rollback runs on a world whose ledger is the one marked. *)
Lemma undo_run {A} (k : M W A) mk l0 img w1 :
  returns (rollbackTo mk;; afterRollback) (ledger w1) (fun _ l' => restored l0 img l') ->
  exists w2, (on_ledger (rollbackTo mk);; on_ledger afterRollback;; k) w1 = k w2 /\ restored l0 img (ledger w2) /\ sink w2 = sink w1.
Proof.
  intros ([] & l2 & Hrun & Hre)%returns_elim. revert Hrun. unfold on_ledger, zoom, mbind, M_bind.
  destruct (rollbackTo mk (ledger w1)) as [[[]|?|] l']; [|done..]. intros Hrun. cbn. rewrite Hrun. by eexists.
Qed.

(** A failed relay is undone to its mark: it may have debited, it is as if it
    had not. *)
Lemma relay_spends cd m hash : is_address (m_target m) -> 0 <= m_value m -> GW 0 0 (relay cd m hash).
Proof.
  intros Hm Hv E w Hh. rewrite Z.add_0_r. unfold relay. rewrite mark_run. apply after_bind; [|intros; strack].
  pose proof (relay_attempt_spends cd m hash Hm Hv E w Hh) as Ha. rewrite Z.add_0_r in Ha.
  destruct Hh as (img & Hi & Hf & He). pose proof Hi as [[Hwf ?] ?].
  destruct (relay_attempt_tracks (cfg (drive (ledger w))) (zlen img) (dw_geometry _ _ Hwf) cd m hash w img)
    as (img1 & Hc1 & Hh1 & Hl1 & He1 & _); [done|apply Hwf|done|].
  unfold try_catch, after in Ha |- *. destruct (relay_attempt cd m hash w) as [[[]|x|] w1]; [exact Ha| |exact Ha].
  pose proof (rollback_extends any_entry (ledger w) img (ledger w1) img1 ltac:(by split) Hc1 Hh1 Hl1 He1) as Hr.
  destruct (undo_run (relay_failed hash) _ _ _ w1 Hr) as (w2 & -> & Hre & _).
  assert (Hfail : GW 0 0 (relay_failed hash)) by (unfold relay_failed; strack).
  apply (spends_after E w2 _ Hfail). by eapply (holding_restored E (ledger w) img).
Qed.
Lemma messenger_spends ctx : GW 0 0 (messenger_advance ctx).
Proof.
  unfold messenger_advance. sstep; [sstep|]. sstep; [|sstep].
  destruct (tryDecodeCalldata _ _) as [[m| | |]|] eqn:Hdec. 2-5: sstep.
  sstep; [sstep|]. destruct (relay_refused _ _ _ _); [sstep|].
  apply relay_spends; [by eapply relayMessage_address, decoded|by eapply relayMessage_amount, decoded].
Qed.

(** ** Application contracts and dispatch *)
Definition callbacks_spend (spec : ContractSpec S App) : Prop :=
  forall name cb, spec_transactions spec name = Some cb -> forall args ctx, tx_fair ctx -> GW 0 0 (cb args ctx).
Definition handler_spends (h : Handler S App) : Prop :=
  forall adv, advance h = Some adv -> forall ctx, tx_fair ctx -> GW 0 0 (adv ctx).
Definition router_spends (r : Router S App) : Prop :=
  forall a h, (a, RApp h) ∈ manifest r -> handler_spends h.

Lemma contract_spends spec : callbacks_spend spec -> handler_spends (contractHandler spec).
Proof.
  intros Hcb adv [= <-] ctx Hctx. unfold contract_advance. destruct (tryDecodeCalldata _ _) as [[name args]|]; [|strack].
  destruct (is_readonly _); [strack|]. destruct (spec_transactions spec name) as [cb|] eqn:Hs; strack. by eapply Hcb.
Qed.
Lemma newRouter_spends rc : router_spends (newRouter rc).
Proof.
  intros a h Hin. exfalso. unfold newRouter, builtin_manifest in Hin. simpl in Hin.
  apply list_elem_of_In in Hin. simpl in Hin. by repeat destruct Hin as [Hin|Hin].
Qed.
Lemma register_spends a h r r' : router_spends r -> handler_spends h -> register a h r = Val r' -> router_spends r'.
Proof.
  intros Hr Hh. unfold register. destruct (manifest_get _ _); [done|]. intros [= <-] b h' Hin. simpl in Hin.
  apply elem_of_app in Hin as [Hin|Hin]; [by eapply Hr|]. apply list_elem_of_singleton in Hin. by injection Hin as -> ->.
Qed.
Lemma routed_spends r to block dep l h adv ctx : router_spends r -> tx_fair ctx -> resolve r to block dep l = Some h ->
  routed_advance r h = Some adv -> GW 0 0 (adv ctx).
Proof.
  intros Hr Hctx Hres Hadv. destruct h; simpl in Hadv; try (injection Hadv as <-); try done;
    eauto using bridge_spends, config_spends, l1block_spends, messenger_spends, l2bridge_spends, passer_spends,
      portal_spends, erc20_spends.
  unfold resolve in Hres. destruct (manifest_get _ _) as [h'|] eqn:Hm.
  - injection Hres as ->. by eapply (Hr to h); [apply manifest_get_In| |].
  - by repeat case_match.
Qed.
Lemma run_handler_spends r ctx dep : router_spends r -> tx_fair ctx -> GW 0 0 (run_handler r ctx dep).
Proof.
  intros Hr Hctx. unfold run_handler. apply transfer_spends; eauto with keep. apply spends_gets_eq. intros E w Hh.
  destruct (resolve r _ _ _ (ledger w)) as [h|] eqn:Hres; [|by apply (after_same E w)].
  destruct (_ && _); [by apply (after_same E w)|].
  destruct (routed_advance r h) as [adv|] eqn:Hadv; [|by apply (after_same E w)].
  apply (spends_after E w); [|done]. by eapply routed_spends.
Qed.
End Handlers.

(** ** The router *)
Section Router.
Context {S App : Type} {HS : Store S} {HR : StoreReads S} {HW : StoreWrites S} {HG : StoreGuards S}
  {HK : Keccak} {HKL : KeccakLaws} {HV : Viem} {HI : InputLaws} {HC : Calldata} {HCL : CalldataLaws} {HCA : CalldataAmounts}.
Abbreviation W := (World S App).
Implicit Types w : W.

(** The ledger at rest an input starts from, holding [E] at most. *)
Definition start (E : Z) w0 img0 : Prop := at_rest w0 img0 /\ 0 <= fee (ram (ledger w0)) /\ ether (ledger w0) img0 <= E.
Definition fair_charge (ch : option (Address * Z)) : Prop := forall a f, ch = Some (a, f) -> Forall is_byte a /\ 0 <= f.

Lemma start_restored E w0 img0 w : start E w0 img0 -> restored (ledger w0) img0 (ledger w) -> holding E (ledger w).
Proof. intros ([Hi _] & Hf & He) Hre. by eapply (holding_restored E (ledger w0)). Qed.
Lemma start_holding E w0 img0 : start E w0 img0 -> holding E (ledger w0).
Proof. intros ([Hi _] & Hf & He). by exists img0. Qed.

Lemma rollbackAll_holds {A} E (a : A) w0 img0 w : start E w0 img0 -> reach w0 img0 w -> after E E ((rollbackAll;; mret a) w).
Proof.
  intros Hst Hr. pose proof (rollbackAll_spec w0 img0 w (proj1 Hst) Hr) as Hb.
  apply returns_elim in Hb as ([] & w' & Hrun & Hre). rewrite (bind_val _ _ _ _ _ Hrun).
  change (holding E (ledger w')). by eapply start_restored.
Qed.

Lemma settle_holds E w0 img0 w ch ok : start E w0 img0 -> reach w0 img0 w -> holding E (ledger w) -> fair_charge ch ->
  after E E (settle ch ok w).
Proof.
  intros Hst Hr Hh Hch. unfold settle. apply after_bind.
  - destruct ch as [[a f]|]; [|by apply (after_same E w)]. destruct (Hch a f eq_refl) as [Hb Hf]. unfold charge, try_catch.
    destruct (reach_run (on_ledger (bumpNonceAndCharge a f) : M W unit) w0 img0 w (proj1 (proj1 Hst)) Hr) as [_ Hr1].
    { by apply on_ledger_keeps, bumpNonceAndCharge_keeps. }
    { intros. by apply on_ledger_tracks, bumpNonceAndCharge_tracks. }
    pose proof (spends_after E w _ (on_ledger_grants 0 0 _ (bumpNonceAndCharge_grants a f Hb Hf)) Hh) as Ha.
    unfold mbind, M_bind. destruct (on_ledger (bumpNonceAndCharge a f) w) as [[[]|e|] w1]; [exact Ha| |exact Ha].
    by eapply (rollbackAll_holds E _ w0 img0).
  - intros [res|]; [apply grants_ret|]. apply spends_bind; [apply on_ledger_grants, commit_spends|]. intros _.
    apply spends_bind; [apply grants_gets|]. intros s. apply grants_ret.
Qed.

Lemma settle_none ok : grants (S := S) 0 0 (settle None ok : M W _).
Proof.
  unfold settle. apply spends_bind; [apply grants_ret|]. intros [res|]; [apply grants_ret|].
  apply spends_bind; [apply on_ledger_grants, commit_spends|]. intros _. apply spends_bind; [apply grants_gets|]. intros s. apply grants_ret.
Qed.

(** From the mark [w] on, after [w0]: the two differ only for a deposit, which
    nobody is charged for. *)
Definition marked (E : Z) w imgw : Prop := ledger_inv (ledger w) imgw /\ 0 <= fee (ram (ledger w)) /\ ether (ledger w) imgw <= E.
Definition same_mark (ch : option (Address * Z)) w0 (img0 : bytes) w (imgw : bytes) : Prop := ch = None \/ ledger w = ledger w0 /\ imgw = img0.

Lemma finish_holds E w0 img0 w imgw w1 ch o : start E w0 img0 -> marked E w imgw -> reach w0 img0 w1 -> reach w imgw w1 ->
  holding E (ledger w1) -> fair_charge ch -> same_mark ch w0 img0 w imgw ->
  after E E (finish (zlen (journal (ledger w))) ch o w1).
Proof.
  intros Hst (Hi & Hf & He) Hr0 Hrw Hh Hch Hcase. destruct o as [|data|data|reason]; cbn [finish].
  - by eapply settle_holds.
  - assert (Hundo : returns (rollbackTo (zlen (journal (ledger w)));; afterRollback) (ledger w1) (fun _ l' => restored (ledger w) imgw l')).
    { destruct Hrw as (_ & _ & Hc & img & Hh1 & Hz & Hx). by eapply rollback_extends; [apply Hi|..]. }
    set (k := settle ch _). destruct (undo_run k _ _ _ w1 Hundo) as (w2 & -> & Hre & _).
    assert (Hw2 : holding E (ledger w2)) by (by eapply holding_restored). destruct Hcase as [->|[Heq ->]].
    + apply (spends_after E w2); [apply settle_none|done].
    + rewrite Heq in Hre. eapply settle_holds; [done|apply reach_restored; [apply Hst|exact Hre]|done..].
  - by eapply settle_holds.
  - by eapply rollbackAll_holds.
Qed.

Lemma execute_holds E r ctx w0 img0 w imgw ch : router_sound r -> router_spends r -> tx_fair ctx -> start E w0 img0 ->
  marked E w imgw -> reach w0 img0 w -> fair_charge ch -> same_mark ch w0 img0 w imgw ->
  after E E (execute r ctx (zlen (journal (ledger w))) ch w).
Proof.
  intros Hr Hsp Hctx Hst Hm Hreach Hch Hcase. unfold execute. rewrite (bind_val _ _ w tt (set_sink (mkSink [] 0 (inputIndex (tx_block ctx))) w)) by done.
  set (w' := set_sink _ w). set (dep := if tx_isDeposit ctx then _ else _).
  pose proof (reach_refl w imgw w' (proj1 Hm) eq_refl) as Hw'.
  destruct (run_handler_sound r ctx dep w0 img0 w' Hr (proj1 Hctx) (proj1 (proj1 Hst)) (reach_sink _ _ _ _ Hreach)) as [Hd Hr0].
  destruct (run_handler_sound r ctx dep w imgw w' Hr (proj1 Hctx) (proj1 Hm) Hw') as [_ Hrw].
  assert (Hh : holding E (ledger w')) by (destruct Hm as (?&?&?); by exists imgw).
  pose proof (spends_after E w' _ (run_handler_spends r ctx dep Hsp Hctx) Hh) as Ha.
  unfold mbind at 1, M_bind, try_catch. unfold after in Ha at 1. destruct (run_handler r ctx dep w') as [[o|e|] w1]; [..|done].
  - by eapply (finish_holds E w0 img0 w imgw).
  - cbn [fst snd mret M_ret]. by eapply (finish_holds E w0 img0 w imgw).
Qed.

(** ** Inputs *)
Lemma advanceDeposit_holds E r block from to mint value data w img : router_sound r -> router_spends r -> start E w img ->
  Forall is_byte from -> (forall a, to = Some a -> Forall is_byte a) -> Forall is_byte data -> 0 <= mint -> 0 <= value ->
  after (E + mint) (E + mint) (advanceDeposit r block from to mint value data w).
Proof.
  intros Hr Hsp Hst Hf Ht Hd Hmint Hv. pose proof (mint_reach from mint w img (proj1 (proj1 Hst)) Hf) as [Hnd Hreach].
  pose proof (on_ledger_grants mint 0 _ (creditEther_grants from mint Hf Hmint) E w (start_holding _ _ _ Hst)) as Hc.
  assert (Hst' : start (E + mint) w img) by (destruct Hst as (?&?&?); split_and!; [done..|lia]).
  assert (Hrefuse : forall A (a : A) w1, reach w img w1 -> after (E + mint) (E + mint) ((rollbackAll;; mret a) w1)).
  { intros A a w1 Hr1. by eapply rollbackAll_holds. }
  destruct to as [to|]; cbn [advanceDeposit].
  - set (h := fun _ : exn => rollbackAll;; mret (Some (reject "mint refused (drive full)"))).
    destruct (on_ledger (creditEther from mint) w) as [[[]|e|] w1] eqn:Hcr; cbn [fst snd] in *; [| |done].
    + assert (Htry : try_catch (on_ledger (creditEther from mint);; mret None) h w = (Val None, w1)) by (unfold try_catch; by rewrite (bind_val _ _ _ _ _ Hcr)).
      rewrite (bind_val _ _ _ _ _ Htry). cbn iota. rewrite mark_run.
      destruct Hc as (img1 & Hi1 & Hf1 & He1). change (the_ledger w1) with (ledger w1) in *.
      eapply (execute_holds (E + mint) r _ w img w1 img1); try done; [|by left].
      split; [|exact Hv]. constructor; simpl; auto.
    + pose proof (rollbackAll_spec w img w1 (proj1 Hst) Hreach) as Hb. apply returns_elim in Hb as ([] & w2 & Hrun & Hre).
      assert (Htry : try_catch (on_ledger (creditEther from mint);; mret None) h w = (Val (Some (reject "mint refused (drive full)")), w2)).
      { unfold try_catch. rewrite (bind_exn _ _ _ _ _ Hcr). unfold h. by rewrite (bind_val _ _ _ _ _ Hrun). }
      rewrite (bind_val _ _ _ _ _ Htry). change (holding (E + mint) (ledger w2)). by eapply start_restored.
  - unfold try_catch. unfold mbind at 1, M_bind.
    destruct (on_ledger (creditEther from mint) w) as [[[]|e|] w1]; cbn [fst snd] in *; [| |done].
    + pose proof (spends_after (E + mint) (ledger w1) _ commit_spends Hc) as Hcommit.
      change (holding (E + mint) (set_journal [] (ledger w1))). exact Hcommit.
    + by apply Hrefuse.
Qed.

Lemma start_after E w img w1 : start E w img -> restored (ledger w) img (ledger w1) -> start E w1 img.
Proof.
  intros (Hrest & Hf & He) Hre. split; [by eapply rest_restored|].
  pose proof Hre as (_ & (Hc & _) & _ & [_ _ _ Hfee _ _ _] & _). rewrite Hfee. unfold ether in *. by rewrite Hc.
Qed.
Lemma after_lift {A B} E (o : outcome A) (k : A -> M W B) w : holding E (ledger w) -> o <> Diverge ->
  (forall a, o = Val a -> after E E (k a w)) -> after E E ((a ← liftO o; k a) w).
Proof. intros Hh Ho Hk. unfold mbind, M_bind, liftO. destruct o as [a|e|]; [by apply Hk|exact Hh|done]. Qed.
Lemma recoverSender_ends s raw : recoverSender s raw <> Diverge.
Proof.
  unfold recoverSender. destruct s; cbn [BigInt_of_hex mbind outcome_bind]; [done|]. destruct (_ <? _); [done|].
  destruct (recoverTransactionAddress raw) eqn:Hrec; [done..|]. by destruct (recovery_ends raw).
Qed.
Lemma recovered_sender s raw a : recoverSender s raw = Val (Some a) -> is_address a.
Proof.
  unfold recoverSender. destruct s; cbn [BigInt_of_hex mbind outcome_bind]; [done|]. destruct (_ <? _); [done|].
  destruct (recoverTransactionAddress raw) eqn:Hrec; [|done..]. intros [= <-]. by eapply recovered_address.
Qed.

Lemma advanceSigned_holds E r block chain nonce to value data s raw w img : router_sound r -> router_spends r -> start E w img ->
  (forall a, to = Some a -> Forall is_byte a) -> Forall is_byte data -> 0 <= value ->
  after E E (advanceSigned r block chain nonce to value data s raw w).
Proof.
  intros Hr Hsp Hst Ht Hd Hv. pose proof (start_holding _ _ _ Hst) as Hh.
  destruct to as [to|]; cbn [advanceSigned]; [|exact Hh].
  destruct (match chain with Some _ => _ | None => _ end); [exact Hh|].
  apply after_lift; [exact Hh|apply recoverSender_ends|]. intros [sender|] Hrec; [|exact Hh].
  apply recovered_sender in Hrec as [Hl Hb].
  destruct (isZero sender) eqn:Hz.
  { destruct (account_zero (ledger w) sender Hl Hz) as [Hrun Hsame]. unfold mbind, M_bind, on_ledger, zoom.
    destruct (account sender (ledger w)) as [o l']. simpl in Hrun, Hsame. subst. exact Hh. }
  pose proof (account_quiet (ledger w) img sender (proj1 (proj1 (proj1 Hst))) Hl Hz) as Hacc.
  apply returns_elim in Hacc as (acc & l1 & Hrun & _ & Hres & _). rewrite (bind_val _ _ w acc (set_ledger l1 w)).
  2: { unfold on_ledger, zoom. by rewrite Hrun. }
  set (w1 := set_ledger l1 w). assert (Hst1 : start E w1 img) by (by apply (start_after E w img)).
  pose proof (start_holding _ _ _ Hst1) as Hh1. destruct (negb _); [exact Hh1|].
  rewrite (bind_val _ _ w1 (fee (ram l1)) w1) by done. destruct (_ <? _); [exact Hh1|]. rewrite mark_run.
  destruct Hst1 as (Hrest1 & Hf1 & He1).
  eapply (execute_holds E r _ w1 img w1 img); try done.
  - split; [constructor; simpl; auto|exact Hv].
  - split; [apply Hrest1|by split].
  - apply reach_refl; [apply Hrest1|done].
  - intros a f [= <- <-]. by split.
  - right. by split.
Qed.

(** What an input mints: the amount of a deposit. *)
Definition mint_of raw : Z := match parseInput raw with PDeposit _ _ mint _ _ => mint | _ => 0 end.

Lemma advance_input_holds E r block raw w img : router_sound r -> router_spends r -> start E w img ->
  0 <= mint_of raw /\ after (E + mint_of raw) (E + mint_of raw) (advance_input r block raw w).
Proof.
  intros Hr Hsp Hst. pose proof (start_holding _ _ _ Hst) as Hh. unfold mint_of, advance_input, parseInput.
  assert (Hsame : forall res, 0 <= 0 /\ after (E + 0) (E + 0) ((mret res : M W AdvanceResult) w)).
  { intros res. rewrite Z.add_0_r. split; [lia|exact Hh]. }
  destruct (parseTransaction raw) as [tx|e|] eqn:Hp; [|apply Hsame..].
  pose proof (parsed_data raw tx Hp) as Hd. apply parsed_transaction in Hp as [Hfrom Hto _ Hval Hmint].
  assert (Ht : forall a, ptx_to tx = Some a -> Forall is_byte a) by (intros a Ha; by apply Hto).
  assert (Hv : 0 <= default 0 (ptx_value tx)) by (destruct (ptx_value tx) as [v|]; [by apply Hval|done]).
  assert (Hm : 0 <= default 0 (ptx_mint tx)) by (destruct (ptx_mint tx) as [v|]; [by apply Hmint|done]).
  destruct (bool_decide (ptx_type tx = Some "deposit")).
  - destruct (ptx_from tx) as [from|]; [|apply Hsame]. split; [exact Hm|].
    apply (advanceDeposit_holds E r _ _ _ _ _ _ w img); try done. by apply Hfrom.
  - destruct (admitted_type _) as [t|]; [|apply Hsame]. destruct (ptx_r tx), (ptx_s tx); try apply Hsame.
    destruct (negb _); [apply Hsame|]. rewrite Z.add_0_r. split; [lia|]. by apply (advanceSigned_holds E r _ _ _ _ _ _ _ _ w img).
Qed.
End Router.

(** ** Runs *)

(** What the rollup loop serves. *)
Inductive Request := Advance (block : BlockContext) (raw : bytes) | Inspection (lastBlock : option BlockContext) (payload : bytes).
Definition serve {S App} {HS : Store S} {HK : Keccak} {HV : Viem} {HC : Calldata} (r : Router S App) (w : World S App)
    (q : Request) : World S App :=
  match q with
  | Advance block raw => (advance_input r block raw w).2
  | Inspection lastBlock payload => (inspect r lastBlock payload w).2
  end.
Definition minted_by {HV : Viem} (q : Request) : Z :=
  match q with Advance _ raw => mint_of raw | Inspection _ _ => 0 end.
Definition minted_over {HV : Viem} (qs : list Request) : Z := foldr (fun q => Z.add (minted_by q)) 0 qs.

Section Runs.
Context {S App : Type} {HS : Store S} {HR : StoreReads S} {HW : StoreWrites S} {HG : StoreGuards S}
  {HK : Keccak} {HKL : KeccakLaws} {HV : Viem} {HI : InputLaws} {HC : Calldata} {HCL : CalldataLaws} {HCA : CalldataAmounts}.
Context (r : Router S App) (Hr : router_sound r) (Hsp : router_spends r) (Hv : views_harmless r).
Implicit Types w : World S App.

Lemma serve_start E w img q : start E w img -> exists img', start (E + minted_by q) (serve r w q) img'.
Proof.
  intros Hst. destruct q as [block raw|lb payload]; cbn [serve minted_by].
  - destruct (step_resting r Hr Hv w _ (step_input r block raw w)) as [[img1 [_ Hj]] _]; [exists img; apply Hst|].
    destruct (advance_input_holds E r block raw w img Hr Hsp Hst) as [_ Ha]. unfold after in Ha.
    destruct (advance_input r block raw w) as [[res|e|] w']; cbn [fst snd] in *; [| |done];
      destruct Ha as (img' & Hi & Hf & He); exists img'; by split_and!.
  - pose proof (inspect_spec r lb payload w img Hr Hv (proj1 (proj1 Hst))) as Hs.
    apply returns_elim in Hs as (res & w' & -> & Hs). exists img. rewrite Z.add_0_r. by eapply start_after.
Qed.

Lemma served_start qs E w img : start E w img -> exists img', start (E + minted_over qs) (foldl (serve r) w qs) img'.
Proof.
  revert E w img. induction qs as [|q qs IH]; intros E w img Hst; cbn [foldl].
  - exists img. by rewrite Z.add_0_r.
  - destruct (serve_start E w img q Hst) as [img1 Hst1]. destruct (IH _ _ _ Hst1) as [img2 Hst2]. exists img2.
    change (minted_over (q :: qs)) with (minted_by q + minted_over qs).
    by replace (E + (minted_by q + minted_over qs)) with (E + minted_by q + minted_over qs) by lia.
Qed.
End Runs.

(** ** Applications *)
Section Declared.
Context {S App : Type} {HS : Store S} {HR : StoreReads S} {HW : StoreWrites S} {HG : StoreGuards S}
  {HK : Keccak} {HKL : KeccakLaws} {HV : Viem} {HC : Calldata} {HCL : CalldataLaws} {HCA : CalldataAmounts}.

(** What is asked of a contract's callbacks: they write through the ledger,
    keep its invariant, credit no more than they debit, and views only read. *)
Record behaves (spec : ContractSpec S App) : Prop := mkBehaves {
  behaves_tracks : forall c len, geometry len c -> callbacks_track c len spec;
  behaves_keeps : callbacks_keep spec;
  behaves_harmless : callbacks_harmless spec;
  behaves_spends : callbacks_spend spec
}.

(** A new router and the contracts declared on it. *)
Inductive hosts (rc : RouterConfig) : Router S App -> Prop :=
  | hosts_none : hosts rc (newRouter rc)
  | hosts_contract r spec r' : hosts rc r -> behaves spec -> contract spec r = Val r' -> hosts rc r'.

Lemma hosts_router rc r : hosts rc r -> router_sound r /\ views_harmless r /\ router_spends r.
Proof.
  induction 1 as [|r spec r' _ (Hr & Hv & Hs) [Ht Hk Hh Hsp] Hc].
  - destruct (newRouter_sound (S := S) (App := App) rc). split_and!; [done..|apply newRouter_spends].
  - split_and!; [by eapply contract_sound|by eapply contract_views_harmless|].
    unfold contract in Hc. destruct (_ || _); [done|]. eapply register_spends; [done| |done]. by apply contract_spends.
Qed.
End Declared.
