(* ===== verification/ApplicationSpec.v ===== *)
(** * The application, specified

    What boot leaves in the ABI drive, what declaring a contract does to the
    router and the drive, what the rollup device is handed for a request as a
    function of what the router makes of it, and the demo's counter. *)

From Stdlib Require Import ZArith Lia.
From S2P Require Import Prelude Bytes Text Store DriveConfig DriveHeader RobinHood DriveTable Drive DriveTokens.
From S2P Require Import DriveFormat Evm Ledger Journal DriveJournal LedgerJournal LedgerOps LedgerSpec LedgerInv Boot Handlers Router HandlersJournal.
From S2P Require Import HandlersInv RouterSpec Effects Registration Chain AbiDrive AbiDriveSpec Application.

(** [JSON.stringify] escapes lone surrogates and starts an array with a bracket. *)
Definition json_text (t : text) : Prop := Forall scalar t /\ head t <> Some BOM.
Class BuiltinAbisLaws `{HB : BuiltinAbis} : Prop := {
  builtin_texts : Forall (fun b => json_text b.2) BUILTINS
}.

(** The entries of system built-ins. *)
Definition system_entry (b : Address * text) : AbiEntry := mkEntry b.1 KIND_SYSTEM b.2.
Definition builtin_entries `{HB : BuiltinAbis} : list AbiEntry := map system_entry BUILTINS.

Lemma system_ok a t : is_address a -> json_text t -> entry_ok (system_entry (a, t)).
Proof. intros Ha [Ht Hb]. by constructor. Qed.

Lemma builtin_addresses `{HB : BuiltinAbis} : Forall (fun b => is_address b.1) BUILTINS /\ NoDup (map fst BUILTINS).
Proof.
  split.
  - unfold BUILTINS. repeat (apply Forall_cons; split; [apply address_of_ok; lia|]). apply Forall_nil_2.
  - apply (bool_decide_unpack _). vm_compute. exact I.
Qed.

Section Recording.
Context {T : Type} {HT : Store T} {HTR : StoreReads T} {HTW : StoreWrites T} {HTG : StoreGuards T}.
Implicit Types d : AbiDrive T.

Lemma same_geometry_refl d : same_geometry d d.
Proof. done. Qed.
Lemma same_geometry_trans d1 d2 d3 : same_geometry d1 d2 -> same_geometry d2 d3 -> same_geometry d1 d3.
Proof. unfold same_geometry. intros (-> & -> & ->) (-> & -> & ->). done. Qed.

(** A registration that is new and fits. *)
Lemma register_new d img es e : abi_wf d img es -> entry_ok e -> e_address e ∉ e_address <$> es ->
  zlen es < ab_capacity d -> zlen (heap es) + zlen (blob e) <= ab_heapLength d ->
  returns (abi_register (e_address e) (e_kind e) (e_abi e)) d (fun _ d' =>
    (exists img', abi_wf d' img' (es ++ [e])) /\ same_geometry d d').
Proof.
  intros Hwf He Hnew Hcap Hfit. pose proof (register_spec d img es e Hwf He) as Hs. unfold returns, wp in *.
  destruct (abi_register _ _ _ d) as [[u|x|] d']; simpl in *; [| |done].
  - destruct Hs as [[Hin _]|(_ & ? & ?)]; [|done]. destruct Hnew. by apply list_elem_of_fmap_2.
  - destruct Hs as [[(_ & e' & Hin & Ha & _)|(_ & [(_ & ?)|(_ & ? & ?)])] _]; [|lia..].
    destruct Hnew. rewrite <- Ha. by apply list_elem_of_fmap_2.
Qed.
(** A registration repeated. *)
Lemma register_known d img es e : abi_wf d img es -> e ∈ es ->
  returns (abi_register (e_address e) (e_kind e) (e_abi e)) d (fun _ d' => still d img d').
Proof.
  intros Hwf Hin. pose proof (proj1 (Forall_forall _ _) (aw_ok _ _ _ Hwf) e Hin) as He.
  pose proof (register_spec d img es e Hwf He) as Hs. unfold returns, wp in *.
  destruct (abi_register _ _ _ d) as [[u|x|] d']; simpl in *; [| |done].
  - destruct Hs as [[_ ?]|(Hnew & _)]; [done|]. destruct Hnew. by apply list_elem_of_fmap_2.
  - exfalso. destruct Hs as [[(_ & e' & Hin' & Ha & Hne)|(Hnew & _)] _].
    + apply Hne. apply list_elem_of_lookup in Hin as [i Hi]. apply list_elem_of_lookup in Hin' as [j Hj].
      assert (i = j) as ->; [|congruence].
      eapply (NoDup_lookup (e_address <$> es)); [apply Hwf|by rewrite list_lookup_fmap, Hi|].
      rewrite list_lookup_fmap, Hj. simpl. by rewrite Ha.
    + destruct Hnew. by apply list_elem_of_fmap_2.
Qed.

Lemma record_fresh l : forall d img es, abi_wf d img es -> Forall entry_ok (map system_entry l) ->
  NoDup (map fst l) -> (forall a, a ∈ map fst l -> a ∉ e_address <$> es) ->
  zlen es + zlen l <= ab_capacity d ->
  zlen (heap es) + zlen (heap (map system_entry l)) <= ab_heapLength d ->
  returns (record_all l) d (fun _ d' =>
    (exists img', abi_wf d' img' (es ++ map system_entry l)) /\ same_geometry d d').
Proof.
  induction l as [|[a t] l IH]; intros d img es Hwf Hok Hnd Hnew Hcap Hheap; cbn [map record_all].
  - rewrite app_nil_r. apply returns_ret. split; [by exists img|done].
  - cbn [map fst] in *. apply Forall_cons in Hok as [He Hok]. apply NoDup_cons in Hnd as [Ha Hnd].
    set (e := system_entry (a, t)) in *. change (zlen ((a, t) :: l)) with (zlen ([(a, t)] ++ l)) in Hcap.
    rewrite zlen_app in Hcap. change (zlen [(a, t)]) with 1 in Hcap.
    change (heap (e :: map system_entry l)) with (blob e ++ heap (map system_entry l)) in Hheap. rewrite zlen_app in Hheap.
    pose proof (zlen_nonneg l). pose proof (zlen_nonneg (heap (map system_entry l))).
    apply returns_bind. eapply returns_mono; [apply (register_new d img es e); try done; try lia|].
    { apply Hnew. apply list_elem_of_here. }
    intros [] d1 [[img1 Hwf1] (Hg1 & Hg2 & Hg3)]. eapply returns_mono; [apply (IH d1 img1 (es ++ [e])); try done|].
    + intros b Hb. rewrite fmap_app. intros [Hin|Hin]%elem_of_app.
      * by apply (Hnew b); [apply list_elem_of_further|].
      * apply list_elem_of_singleton in Hin. by subst b.
    + rewrite zlen_app, Hg1. change (zlen [e]) with 1. lia.
    + rewrite heap_app, heap_single, zlen_app, Hg3. lia.
    + intros [] d2 [[img2 Hwf2] Hg]. split; [exists img2; by rewrite <- app_assoc in Hwf2|].
      by eapply same_geometry_trans.
Qed.

Lemma record_again l : forall d img es, abi_wf d img es -> (forall b, b ∈ l -> system_entry b ∈ es) ->
  returns (record_all l) d (fun _ d' => still d img d').
Proof.
  induction l as [|[a t] l IH]; intros d img es Hwf Hin; cbn [record_all].
  - apply returns_ret, still_refl, Hwf.
  - apply returns_bind. eapply returns_mono; [apply (register_known d img es (system_entry (a, t))); [done|]|].
    { apply Hin, list_elem_of_here. }
    intros [] d1 Hd1. eapply returns_mono; [eapply IH; [by eapply still_wf|]|].
    + intros b Hb. by apply Hin, list_elem_of_further.
    + intros [] d2 Hd2. by eapply still_trans.
Qed.

Lemma with_abi_returns d (m : M (AbiDrive T) unit) Q : returns m d (fun _ d' => Q d' (ab_store d')) ->
  returns (with_abi d m) (ab_store d) Q.
Proof.
  unfold returns, wp, with_abi. replace (set_store (ab_store d) d) with d by (by destruct d).
  by destruct (m d) as [[[]|?|] d'].
Qed.
End Recording.

Section ApplicationSpec.
Context {S T App : Type} {HS : Store S} {HR : StoreReads S} {HW : StoreWrites S} {HG : StoreGuards S}
  {HT : Store T} {HTR : StoreReads T} {HTW : StoreWrites T} {HTG : StoreGuards T}
  {HK : Keccak} {HKL : KeccakLaws} {HV : Viem} {HI : InputLaws} {HC : Calldata} {HCL : CalldataLaws}
  {HB : BuiltinAbis} {HBL : BuiltinAbisLaws}.
Implicit Types a : Application S T App.
Implicit Types g : Guest S App.

(** ** Boot *)
Lemma builtins_ok : Forall entry_ok builtin_entries.
Proof.
  unfold builtin_entries. apply Forall_map. pose proof builtin_texts as Ht. destruct builtin_addresses as [Ha _].
  rewrite Forall_forall in Ha, Ht |- *. intros [b t] Hin. apply system_ok; [by apply (Ha (b, t))|by apply (Ht (b, t))].
Qed.

(** The built-ins fit an ABI drive of this geometry. *)
Definition builtins_fit (cfg : AbiDriveConfig) : Prop :=
  7 <= ac_capacity cfg /\ zlen (heap builtin_entries) <= ac_driveLength cfg - ac_heapOffset cfg.

(** What an application has just after boot. *)
Definition booted (l : Ledger S) rc img a (s' : T) : Prop :=
  ap_ledger a = l /\ ap_router a = newRouter rc /\ s' = ab_store (ap_abiDrive a) /\ holds s' img.

Lemma assemble_blank (s : T) img l rc cfg : holds s img -> is_magic (slice 0 8 img) = false -> abi_geometry cfg ->
  ac_driveLength cfg <= zlen img -> ac_driveLength cfg < 2 ^ 32 -> builtins_fit cfg ->
  returns (assemble l rc cfg) s (fun a s' => exists img', booted l rc img' a s' /\ abi_wf (ap_abiDrive a) img' builtin_entries
    /\ ab_capacity (ap_abiDrive a) = ac_capacity cfg /\ ab_heapLength (ap_abiDrive a) = ac_driveLength cfg - ac_heapOffset cfg).
Proof.
  intros Hh Hm Hg Hlen Hu [Hcap Hheap]. unfold assemble. apply returns_bind.
  eapply returns_mono; [eapply openOrFormat_format; try done; lia|]. intros d s1 (-> & [img1 Hwf] & Hc & Hhl).
  apply returns_bind, with_abi_returns. destruct builtin_addresses as [_ Hnd].
  eapply returns_mono; [apply (record_fresh BUILTINS d img1 []); try done|].
  - apply builtins_ok.
  - intros a _ Hin. by apply not_elem_of_nil in Hin.
  - rewrite Hc. change (7 <= ac_capacity cfg). done.
  - rewrite Hhl. change (zlen (heap []) + zlen (heap (map system_entry BUILTINS))) with (zlen (heap builtin_entries)). done.
  - intros [] d' [[img' Hwf'] (Hg1 & _ & Hg3)]. apply returns_ret. exists img'.
    split; [split_and!; try done; apply Hwf'|]. split; [exact Hwf'|]. cbn [ap_abiDrive]. by rewrite Hg1, Hg3.
Qed.

Lemma assemble_again (d : AbiDrive T) img es l rc cfg : abi_wf d img es -> (forall e, e ∈ builtin_entries -> e ∈ es) ->
  returns (assemble l rc cfg) (ab_store d) (fun a s' => booted l rc img a s' /\ still d img (ap_abiDrive a)).
Proof.
  intros Hwf Hin. unfold assemble. apply returns_bind. eapply returns_mono; [by eapply openOrFormat_open|].
  intros d1 s1 [-> Hd1]. apply returns_bind, with_abi_returns.
  eapply returns_mono; [eapply record_again; [by eapply still_wf|]|].
  - intros b Hb. apply Hin. unfold builtin_entries. by apply list_elem_of_fmap_2.
  - intros [] d2 Hd2. apply returns_ret. pose proof (still_trans _ _ _ _ _ Hd1 Hd2) as Hd. split; [|done].
    split_and!; try done. destruct Hd as (s2 & -> & Hs2). exact Hs2.
Qed.

(** [boot] is the ledger's boot on one device and [assemble] on the other. *)
Lemma boot_returns (s : S) (t : T) rc cfg (P : Ledger S -> S -> Prop) (Q : Application S T App -> S * T -> Prop) :
  returns create s P ->
  (forall l s', P l s' -> returns (assemble l rc cfg) t (fun a t' => Q a (s', t'))) ->
  returns (boot rc cfg) (s, t) Q.
Proof.
  intros Hc Ha. apply returns_bind, returns_zoom. eapply returns_mono; [exact Hc|]. intros l s' HP. apply returns_zoom.
  eapply returns_mono; [by apply Ha|done].
Qed.

(** The drive behind a ledger, on its device. *)
Lemma unjournaled_wf l img : ledger_wf (S := S) l img ->
  drive_wf (mkDrive (inner (store (drive l))) (cfg (drive l)) (tokens_ (drive l)) (colOff (drive l))) img.
Proof. intros [[] _]. by constructor. Qed.

(** ** Contracts *)
Definition contract_entry (spec : ContractSpec S App) : AbiEntry := mkEntry (spec_address spec) KIND_APP (spec_abi spec).

(** How declaring a contract ends: routed and recorded; refused by the router
    with nothing changed; or routed, with the ABI drive refusing and unchanged. *)
Definition declared spec a img es (o : outcome unit) a' : Prop :=
  ap_ledger a' = ap_ledger a /\
  match o with
  | Val _ => contract spec (ap_router a) = Val (ap_router a')
      /\ exists img', abi_wf (ap_abiDrive a') img' (if decide (contract_entry spec ∈ es) then es else es ++ [contract_entry spec])
  | Exn x => contract spec (ap_router a) = Exn x /\ a' = a
      \/ contract spec (ap_router a) = Val (ap_router a')
         /\ abi_refused (ap_abiDrive a) es (contract_entry spec) x /\ still (ap_abiDrive a) img (ap_abiDrive a')
  | Diverge => False
  end.

Lemma contract_declared spec a img es : abi_wf (ap_abiDrive a) img es -> is_address (spec_address spec) ->
  json_text (spec_abi spec) -> wp (Application_contract spec) a (declared spec a img es).
Proof.
  intros Hwf Ha [Ht Hb]. unfold Application_contract. apply wp_bind. cbn. unfold wp at 1. simpl.
  apply wp_bind. unfold wp at 1, liftO. simpl.
  destruct (contract spec (ap_router a)) as [r'|x|] eqn:Hc; simpl.
  - apply wp_bind. unfold wp at 1, modify. simpl. set (a1 := set_router r' a).
    assert (He : entry_ok (contract_entry spec)) by (constructor; done).
    pose proof (register_spec (ap_abiDrive a1) img es (contract_entry spec) Hwf He) as Hs.
    unfold wp in Hs |- *. unfold on_abiDrive, zoom.
    change (abi_register (spec_address spec) KIND_APP (spec_abi spec)) with
      (abi_register (S := T) (e_address (contract_entry spec)) (e_kind (contract_entry spec)) (e_abi (contract_entry spec))).
    destruct (abi_register _ _ _ (ap_abiDrive a1)) as [[u|x|] d']; simpl in Hs |- *; (split; [done|]); [| |done].
    + split; [done|]. destruct Hs as [[Hin Hd]|(Hnew & [img' Hwf'] & _)].
      * rewrite decide_True by done. exists img. by eapply still_wf.
      * rewrite decide_False; [by exists img'|]. intros Hin. destruct Hnew.
        by apply (list_elem_of_fmap_2 e_address es (contract_entry spec)).
    + right. by destruct Hs.
  - split; [done|]. left. by split.
  - exfalso. revert Hc. unfold contract, register. by repeat case_match.
Qed.

(** ** The rollup loop *)

(** What the device is handed of a result of the router: all the outputs of an
    accepted input, in order; the byte [0x02] for one rejected with a reason. *)
Definition handed (res : AdvanceResult) : list Emission :=
  if res_accept res then res_emissions res
  else match res_reason res with
       | Some reason => if bool_decide (reason = "") then [] else [Report [0x02]]
       | None => []
       end.
(** The guest after a request the router answered with [w1]: its world is [w1],
    of which at most the store of the ledger has changed, byte for byte the
    same. *)
Definition settled_at (w1 : World S App) (w' : World S App) : Prop :=
  w' = set_ledger (ledger w') w1 /\ exists img, at_rest w1 img /\ restored (ledger w1) img (ledger w').

(** An input, against what the router makes of it: the verdict and the outputs
    are the router's, and so are the ledger and the application's variables. A
    rejected input and one thrown out of leave the ledger as it was. *)
Definition delivered (r : Router S App) req g img (o : outcome bool) g' : Prop :=
  g_lastBlock g' = Some (blockContext req) /\
  let p := advance_input r (blockContext req) (req_payload req) (g_world g) in
  match p.1 with
  | Val res => o = Val (res_accept res) /\ g_device g' = g_device g ++ handed res /\ settled_at p.2 (g_world g')
      /\ (res_accept res = false -> restored (ledger (g_world g)) img (ledger (g_world g')))
      /\ (res_outcome res = Krevert -> Forall (fun e => is_report e = true) (handed res))
  | Exn x => o = Exn x /\ g_device g' = g_device g /\ restored (ledger (g_world g)) img (ledger (g_world g'))
      /\ escapes r (req_payload req) x
  | Diverge => False
  end.
(** A query, against what the router makes of it. *)
Definition query_delivered (r : Router S App) payload g img (o : outcome bool) g' : Prop :=
  g_lastBlock g' = g_lastBlock g /\ restored (ledger (g_world g)) img (ledger (g_world g')) /\
  exists res w1, inspect r (g_lastBlock g) payload (g_world g) = (Val res, w1)
    /\ o = Val (ins_accept res) /\ g_device g' = g_device g ++ (Report <$> ins_reports res) /\ settled_at w1 (g_world g').

Lemma settled_at_refl (w : World S App) img : at_rest w img -> settled_at w w.
Proof. intros Hrest. split; [by destruct w|]. exists img. split; [done|apply restored_refl, Hrest]. Qed.

Lemma advance_delivers (r : Router S App) req g img : router_sound r -> at_rest (g_world g) img ->
  wp (run_advance r req) g (delivered r req g img).
Proof.
  intros Hr Hrest. pose proof (advance_input_spec r (blockContext req) (req_payload req) (g_world g) img Hr Hrest) as Hs.
  unfold delivered, run_advance, on_world. unfold wp, mbind, M_bind, modify, zoom in *. cbn [g_world fst snd] in *.
  destruct (advance_input r _ _ (g_world g)) as [[res|x|] w']; cbn [fst snd survived] in Hs |- *; [|by destruct Hs|done].
  destruct Hs as ([img' Hrest'] & _ & Href & Hrev).
  assert (Hreports : res_outcome res = Krevert -> Forall (fun e => is_report e = true) (handed res)).
  { intros Hk. unfold handed. destruct (res_accept res) eqn:Hacc; [by apply Hrev|].
    destruct (Href eq_refl) as [_ [reason ->]]. done. }
  assert (Hset : settled_at w' w') by by eapply settled_at_refl.
  unfold handed in *. destruct (res_accept res) eqn:Hacc.
  - split_and!; done.
  - destruct (Href eq_refl) as [Hres [reason ->]]. cbn [res_reason reject] in *.
    destruct (bool_decide (reason = "")); (split_and!; [done|done| |done..]); cbn [fst snd g_device]; [by rewrite app_nil_r|done].
Qed.

Lemma inspect_delivers (r : Router S App) payload g img : router_sound r -> views_harmless r -> at_rest (g_world g) img ->
  wp (run_inspect r payload) g (query_delivered r payload g img).
Proof.
  intros Hr Hv Hrest. pose proof (inspect_spec r (g_lastBlock g) payload (g_world g) img Hr Hv (proj1 Hrest)) as Hs.
  apply returns_elim in Hs as (res & w1 & Hrun & Hres). unfold query_delivered, run_inspect, on_world.
  unfold wp, mbind, M_bind, gets, modify, zoom. cbn [fst snd]. rewrite Hrun. cbn [fst snd g_lastBlock g_world g_device].
  split_and!; [done|exact Hres|]. exists res, w1. split_and!; [done..|]. eapply settled_at_refl, rest_restored; [exact Hrest|exact Hres].
Qed.
End ApplicationSpec.

(** ** The counter *)
Section DemoSpec.
Context {S : Type} {HS : Store S} {HR : StoreReads S} {HW : StoreWrites S} {HG : StoreGuards S}
  {HK : Keccak} {HKL : KeccakLaws} {HV : Viem} {HI : InputLaws} {HC : Calldata} {HCL : CalldataLaws}.
Context (decode : bytes -> outcome (string * list AbiValue)) (abi : text).
Abbreviation W := (World S Z).
Abbreviation demo := (counter (S := S) decode abi).

Lemma demo_tracks c len : geometry len c -> callbacks_track c len demo.
Proof. intros Hg name cb. simpl. case_match; [|done]. intros [= <-] args ctx. by apply tracks_modify. Qed.
Lemma demo_keeps : callbacks_keep demo.
Proof. intros name cb. simpl. case_match; [|done]. intros [= <-] args ctx _. by apply keeps_modify. Qed.
Lemma demo_harmless : callbacks_harmless demo.
Proof. intros name cb. simpl. case_match; [|done]. intros [= <-] args call w img [Hwf _]. split; [done|by apply restored_refl]. Qed.

(** The demo's router: the built-ins and the counter. *)
Lemma demo_routes rc : exists r, contract demo (newRouter rc) = Val r /\ router_sound r /\ views_harmless r
  /\ rcfg r = rc /\ forall block dep l, resolve r COUNTER_ADDRESS block dep l = Some (RApp (contractHandler demo)).
Proof.
  assert (Hc : exists r, contract demo (newRouter rc) = Val r) by (eexists; reflexivity).
  destruct Hc as [r Hc]. exists r. destruct (newRouter_sound (S := S) (App := Z) rc) as [Hs Hv]. split_and!; [done|..].
  - eapply contract_sound; [done|done|apply demo_tracks|apply demo_keeps].
  - eapply contract_views_harmless; [done|done|apply demo_harmless].
  - apply contract_val in Hc as (_ & _ & ->). done.
  - intros block dep l. rewrite (contract_routes _ _ _ Hc). by rewrite decide_True.
Qed.

Lemma settle_app ch ok (w : W) : app (settle ch ok w).2 = app w.
Proof.
  unfold settle, charge. destruct ch as [[a f]|]; [|done]. unfold mbind, M_bind, try_catch, on_ledger, zoom.
  destruct (bumpNonceAndCharge a f (ledger w)) as [[[]|?|] l1]; simpl; [done| |done].
  unfold rollbackAll, mbind, M_bind, on_ledger, zoom. simpl.
  destruct (rollbackAll_journal l1) as [[[]|?|] l2]; simpl; [|done..]. by destruct (afterRollback l2) as [[[]|?|] l3].
Qed.

Definition routes_counter (r : Router S Z) : Prop :=
  forall block dep l, resolve r COUNTER_ADDRESS block dep l = Some (RApp (contractHandler demo)).

Lemma on_ledger_noop {B} (m : M (Ledger S) unit) (k : M W B) (w : W) : m (ledger w) = (Val tt, ledger w) ->
  (on_ledger m;; k) w = k w.
Proof. intros Hm. unfold mbind, M_bind, on_ledger, zoom. rewrite Hm. by destruct w. Qed.

Lemma run_increment r block from data args dep (w : W) : routes_counter r ->
  decode data = Val ("increment", args) ->
  run_handler r (mkTx block from COUNTER_ADDRESS 0 data false 0) dep w = (Val OAccept, set_app (app w + 1) w).
Proof.
  intros Hr Hd. unfold run_handler. cbn [tx_sender tx_to tx_value tx_block].
  rewrite !on_ledger_noop by done. unfold mbind, M_bind, asks, gets. rewrite Hr. cbn.
  unfold contract_advance. cbn [spec_decode counter tx_data]. unfold tryDecodeCalldata. by rewrite Hd.
Qed.

Lemma signed_increment r block chain data args s raw sender (w : W) img : routes_counter r ->
  ledger_wf (ledger w) img -> chain_ok r chain -> recoverSender s raw = Val (Some sender) ->
  decode data = Val ("increment", args) ->
  let l := ledger w in let f := fee (ram l) in
  valid_address sender -> 0 <= f <= (account_view l img sender).2 ->
  (account_view l img sender).1 + 1 < nonce_modulus (cfg (drive l)) -> has_room l img sender ->
  returns (advanceSigned r block chain (account_view l img sender).1 (Some COUNTER_ADDRESS) 0 data s raw) w
    (fun res w' => res = mkResult true [] Kaccept None /\ app w' = app w + 1
    /\ journal (ledger w') = [] /\ exists img', accounts_become l img (charged l img sender f) (ledger w') img').
Proof.
  intros Hr Hwf Hc Hrec Hd l f Hs Hf Hn Hroom. eapply admitted_executes; [done..|fold l; fold f; lia|].
  intros l1 Hres Hod. pose proof Hod as ((Hc1 & _) & _).
  assert (Hview : forall a, account_view l1 img a = account_view l img a) by (intros; by apply only_drive_view).
  unfold execute. cbn [tx_isDeposit]. apply returns_bind, returns_modify. apply returns_bind, returns_try.
  unfold wp. erewrite run_increment by done. cbn [fst snd finish].
  set (w1 := set_app _ _). pose proof (settle_charged w1 img sender f
    (fun s => mkResult true (emissions s) Kaccept None) (proj1 Hres) Hs) as Hsc.
  change (ledger w1) with l1 in Hsc. rewrite Hview, Hc1 in Hsc. specialize (Hsc Hf Hn).
  assert (Hroom1 : has_room l1 img sender) by (unfold has_room in *; by rewrite Hc1). specialize (Hsc Hroom1).
  pose proof (settle_app (Some (sender, f)) (fun s => mkResult true (emissions s) Kaccept None) w1) as Happ.
  apply returns_elim in Hsc as (res & w' & Hrun & -> & Hj & img' & Hb). rewrite Hrun in Happ.
  eapply returns_intro; [exact Hrun|]. split_and!; [done|exact Happ|done|]. exists img'.
  eapply become_ext; [|by eapply become_restored]. intros a. by apply charged_view.
Qed.

(** A query of the count, and a simulated increment: the ledger is as it was,
    the variable is not. *)
Lemma count_query r block c args (w : W) : routes_counter r -> dc_simulate c = false -> dc_to c = COUNTER_ADDRESS ->
  decode (dc_data c) = Val ("count", args) -> decodeEvmCall block = Some c ->
  forall lastBlock, exists w', inspect r lastBlock block w
    = (Val (mkInspect true [tagged TAG_RETURN (encodeFunctionResult "count" [VUint (app w)])]), w').
Proof.
  intros Hr Hsim Hto Hd Hc lastBlock. unfold inspect. rewrite Hc, Hsim. unfold inspect_view. rewrite Hto.
  unfold mbind, M_bind, asks, gets. rewrite Hr. cbn. unfold contract_view, tryDecodeCalldata. cbn. rewrite Hd. cbn. eauto.
Qed.

Lemma simulated_increment r payload c args lastBlock (w : W) : routes_counter r -> decodeEvmCall payload = Some c ->
  dc_simulate c = true -> dc_to c = COUNTER_ADDRESS -> dc_value c = 0 -> decode (dc_data c) = Val ("increment", args) ->
  app (inspect r lastBlock payload w).2 = app w + 1.
Proof.
  intros Hr Hc Hsim Hto Hv Hd. unfold inspect. rewrite Hc, Hsim. unfold inspect_simulate. rewrite Hto, Hv.
  unfold mbind, M_bind. cbn [on_ledger zoom mark gets newSink modify]. unfold try_catch.
  erewrite run_increment by done. set (w1 := set_app _ _). assert (Happ : app w1 = app w + 1) by done.
  unfold on_ledger, zoom. destruct (rollbackTo _ (ledger w1)) as [[[]|?|] l2]; simpl; [|done..].
  by destruct (afterRollback l2) as [[[]|?|] l3].
Qed.
End DemoSpec.
