(* ===== verification/Sync.v ===== *)
(** * Flushing before a yield

    [sync] of app/src/ledger.ts and abi-drive/js/src/index.ts; [openDevice] and
    the boot from device files; and [Application.run] of app/src/application.ts:
    the flush it starts with and the two callbacks it hands the rollup loop,
    each of which flushes the ledger before it returns. What the loop yields
    with is in the machine, and whoever opens the machine's bytes finds the
    guest's drives. *)

From Stdlib Require Import ZArith Lia.
From stdpp Require Import relations.
From S2P Require Import Prelude Bytes Text Store Device DriveConfig DriveHeader RobinHood DriveTable Drive DriveTokens.
From S2P Require Import DriveFormat Evm Ledger Journal DriveJournal LedgerJournal LedgerSpec LedgerInv Boot Handlers Router HandlersJournal.
From S2P Require Import HandlersInv RouterSpec Chain AbiDrive AbiDriveSpec Application ApplicationSpec.

(** ** Flushing the drives

    A drive whose store is not a [FileStore] has nothing to flush. *)
Definition ledger_sync {S} {HB : Backing S} : M (Ledger S) unit := with_drive (on_store (on_inner sync_if_file)).
Definition abi_sync {T} {HB : Backing T} : M (AbiDrive T) unit := on_disk sync_if_file.
Definition size {T} : M (AbiDrive T) Z := gets ab_count.

(** ** Booting from the machine's devices

    The variables of the environment are a function of their names. Each device
    has a cache of its own: the two paths are of two devices. *)
Record ApplicationOptions : Type := mkOptions {
  opt_router : RouterConfig; opt_accountsDevice : option string; opt_abiDevice : option string;
  opt_abiDriveConfig : option AbiDriveConfig
}.
Definition either (a : option string) (b : string) : string := default b a.
Definition accounts_device (env : string -> option string) (opts : ApplicationOptions) : string :=
  either (opt_accountsDevice opts) (either (env "ACCOUNTS_DRIVE") "/dev/pmem1").
Definition abi_device (env : string -> option string) (opts : ApplicationOptions) : string :=
  either (opt_abiDevice opts) (either (env "ABI_DRIVE") "/dev/pmem2").

Section OnDevices.
Context {App : Type} {HK : Keccak} {HA : BuiltinAbis}.
Context (env : string -> option string) (ds : Devices).

Definition openDevice (path : string) : outcome (Ledger Device.t) :=
  s ← FileStore_open ds path; (create s).1.
Definition boot_devices (opts : ApplicationOptions) : outcome (Application Device.t Device.t App) :=
  l ← openDevice (accounts_device env opts);
  t ← FileStore_open ds (abi_device env opts);
  (assemble l (opt_router opts) (default DEVNET_ABI_DRIVE_CONFIG (opt_abiDriveConfig opts)) t).1.

(** A device that is not there ends the boot: the accounts drive's before
    anything, the ABI drive's after the ledger's boot. *)
Lemma boot_without_accounts (opts : ApplicationOptions) : dev_files ds !! accounts_device env opts = None ->
  boot_devices opts = Exn (no_such_file (accounts_device env opts)).
Proof. intros Hn. unfold boot_devices, openDevice, FileStore_open. by rewrite Hn. Qed.
Lemma boot_without_abi (opts : ApplicationOptions) l : openDevice (accounts_device env opts) = Val l ->
  dev_files ds !! abi_device env opts = None -> boot_devices opts = Exn (no_such_file (abi_device env opts)).
Proof. intros Hl Hn. unfold boot_devices. rewrite Hl. simpl. unfold FileStore_open. by rewrite Hn. Qed.

(** With both there, it is [boot] on the two devices opened. *)
Lemma boot_devices_opened (opts : ApplicationOptions) s t : FileStore_open ds (accounts_device env opts) = Val s ->
  FileStore_open ds (abi_device env opts) = Val t ->
  boot_devices opts = (boot (opt_router opts) (default DEVNET_ABI_DRIVE_CONFIG (opt_abiDriveConfig opts)) (s, t)).1.
Proof.
  intros Hs Ht. unfold boot_devices, openDevice, boot. rewrite Hs. cbn [mbind outcome_bind].
  unfold mbind at 3, M_bind. unfold zoom at 1. cbn [fst]. destruct (create s) as [[l|x|] s']; [|done..].
  cbn [fst]. rewrite Ht. unfold zoom. cbn. by repeat case_match; simplify_eq/=.
Qed.
End OnDevices.

(** [Ledger.inMemory]: the ledger of a blank store of the devnet's geometry,
    empty. *)
Definition ledger_inMemory {HK : Keccak} : outcome (Ledger MemStore.t) :=
  (create (MemStore.mk (zeros (default 0 (c_driveLength DEVNET_DRIVE_CONFIG))))).1.
Lemma ledger_inMemory_empty {HK : Keccak} {HKL : KeccakLaws} : exists l img, ledger_inMemory = Val l
  /\ ledger_inv l img /\ journal l = [] /\ tokens_ (drive l) = [] /\ forall a, account_view l img a = (0, 0).
Proof.
  assert (Hb : holds (MemStore.mk (zeros (driveLength devnet_config))) (zeros (driveLength devnet_config))).
  { split; [reflexivity|]. rewrite zlen_zeros; cbn [driveLength devnet_config]; unfold MAX_SAFE_INTEGER; lia. }
  pose proof (create_blank _ Hb) as Hc. apply returns_elim in Hc as (l & s & Hrun & _ & Hj & _ & Ht & img & Hi & Ha & _).
  exists l, img. unfold ledger_inMemory.
  assert (Hl : default 0 (c_driveLength DEVNET_DRIVE_CONFIG) = driveLength devnet_config) by reflexivity.
  rewrite Hl, Hrun. split; [reflexivity|]. split; [exact Hi|]. split; [exact Hj|]. split; [exact Ht|].
  intros a. unfold account_view. by rewrite Ha.
Qed.

(** ** The rollup loop *)
Section Run.
Context {S T App : Type} {HS : Store S} {HT : Store T} {HBS : Backing S} {HBT : Backing T}
  {HK : Keccak} {HV : Viem} {HC : Calldata}.
Abbreviation A := (Application S T App).

(** What the ABI drive records. *)
Definition contracts : M A (list AbiEntry) := on_abiDrive abi_entries.

Definition set_ap_ledger (l : Ledger S) (a : A) : A := mkApplication l (ap_router a) (ap_abiDrive a).
(** [run], up to the loop. *)
Definition run_start : M A unit := on_abiDrive abi_sync;; zoom ap_ledger set_ap_ledger ledger_sync.
(** The callbacks [run] hands the rollup library, which finishes the request
    as soon as they return. *)
Definition advance_callback (r : Router S App) (req : AdvanceRequest) : M (Guest S App) bool :=
  accept ← run_advance r req;
  on_world (on_ledger ledger_sync);;
  mret accept.
Definition inspect_callback (r : Router S App) (payload : bytes) : M (Guest S App) bool :=
  accept ← run_inspect r payload;
  on_world (on_ledger ledger_sync);;
  mret accept.

(** One turn of the loop that ends in a yield. Where the host then puts the
    machine back as it was before the request (an input rejected, a query
    answered on a fork), the guest is where the turn began. *)
Inductive turn (r : Router S App) (g : Guest S App) : Guest S App -> Prop :=
  | turn_advance req accept g' : advance_callback r req g = (Val accept, g') -> turn r g g'
  | turn_inspect payload accept g' : inspect_callback r payload g = (Val accept, g') -> turn r g g'.

(** The guest the loop starts with: [started] is the application's own state. *)
Definition guest_of (a : A) (started : App) : Guest S App :=
  mkGuest (mkWorld (ap_ledger a) (mkSink [] 0 0) None started) None [].
End Run.

(** * What is in the machine at a yield *)
Section SyncSpec.
Context {S T App : Type} {HS : Store S} {HR : StoreReads S} {HW : StoreWrites S} {HG : StoreGuards S}
  {HBS : Backing S} {HFS : Flushes S}
  {HT : Store T} {HTR : StoreReads T} {HTW : StoreWrites T} {HTG : StoreGuards T} {HBT : Backing T} {HFT : Flushes T}
  {HK : Keccak} {HKL : KeccakLaws} {HV : Viem} {HI : InputLaws} {HC : Calldata} {HCL : CalldataLaws}.
Implicit Types l : Ledger S.
Implicit Types g : Guest S App.
Implicit Types a : Application S T App.

(** The bytes of the ledger's drive, and of the ABI drive, in the machine. *)
Definition ledger_machine l : bytes := in_machine (inner (store (drive l))).
Definition abi_machine (d : AbiDrive T) : bytes := in_machine (ab_store d).

(** The ledger is at rest and its bytes are in the machine. *)
Definition current (w : World S App) img : Prop := at_rest w img /\ ledger_machine (ledger w) = img.
Definition flushed (w : World S App) : Prop := exists img, current w img.

Lemma ledger_sync_spec l img : ledger_wf l img ->
  returns ledger_sync l (fun _ l' => restored l img l' /\ ledger_machine l' = img).
Proof.
  intros [Hwf Hfac]. unfold ledger_sync, with_drive, on_store, on_inner. apply returns_zoom, returns_zoom, returns_zoom.
  pose proof Hwf as [Hh H1 H2 H3 H4 H5 H6 H7 H8 H9].
  eapply returns_mono; [apply flush_spec; exact Hh|]. intros [] s' [Hs' Hm]. split; [|exact Hm].
  split_and!; done || by constructor.
Qed.

(** A store holds one image: what a flush puts in the machine. *)
Lemma ledger_image_unique l img1 img2 : ledger_wf l img1 -> ledger_wf l img2 -> img1 = img2.
Proof.
  intros H1 H2. pose proof (ledger_sync_spec l img1 H1) as Hs1. pose proof (ledger_sync_spec l img2 H2) as Hs2.
  apply returns_elim in Hs1 as (u & l1 & Hrun & _ & <-). apply returns_elim in Hs2 as (u2 & l2 & Hrun2 & _ & <-).
  rewrite Hrun in Hrun2. by injection Hrun2 as _ ->.
Qed.

Lemma abi_sync_spec (d : AbiDrive T) img es : abi_wf d img es ->
  returns abi_sync d (fun _ d' => still d img d' /\ abi_machine d' = img).
Proof.
  intros Hwf. apply returns_zoom. eapply returns_mono; [apply flush_spec, Hwf|].
  intros [] s' [Hs' Hm]. split; [by exists s'|exact Hm].
Qed.

(** A callback's last two lines. *)
Lemma flush_returns (b : bool) g img (Q : bool -> Guest S App -> Prop) : ledger_wf (ledger (g_world g)) img ->
  (forall g', g_world g' = set_ledger (ledger (g_world g')) (g_world g) ->
     restored (ledger (g_world g)) img (ledger (g_world g')) -> ledger_machine (ledger (g_world g')) = img ->
     g_lastBlock g' = g_lastBlock g -> g_device g' = g_device g -> Q b g') ->
  returns (on_world (on_ledger ledger_sync);; mret b) g Q.
Proof.
  intros Hwf HQ. apply returns_bind, returns_zoom, returns_zoom. eapply returns_mono; [by apply ledger_sync_spec|].
  intros [] l' [Hr Hm]. apply returns_ret. by apply HQ.
Qed.

Lemma settled_flushed (w1 w2 w3 : World S App) img : settled_at w1 w2 -> ledger_wf (ledger w2) img ->
  w3 = set_ledger (ledger w3) w2 -> restored (ledger w2) img (ledger w3) -> settled_at w1 w3.
Proof.
  intros (H2 & img1 & Hr1 & Hre1) Hwf H3 Hre. split; [rewrite H3, H2; by destruct w1|].
  assert (img1 = img) as ->.
  { destruct Hre1 as [Hwf1 _]. by apply (ledger_image_unique (ledger w2)). }
  exists img. split; [done|by eapply restored_trans].
Qed.

(** What a turn delivers, the flush included. *)
Lemma advance_flushes (r : Router S App) req g img : router_sound r -> at_rest (g_world g) img ->
  wp (advance_callback r req) g (fun o g' => delivered r req g img o g'
    /\ match o with Val _ => flushed (g_world g') | _ => True end).
Proof.
  intros Hr Hrest. apply wp_bind. eapply wp_mono; [|by apply advance_delivers].
  intros o g1 [Hl Hd]. destruct (advance_input r (blockContext req) (req_payload req) (g_world g)) as [[res|x|] w1] eqn:Hrun;
    cbn [fst snd] in Hd; [| |done].
  2: { destruct Hd as (-> & Hd & Hre & He). split; [|done]. split; [done|]. rewrite Hrun. by split_and!. }
  destruct Hd as (-> & Hdev & Hset & Hrej & Hrev). pose proof Hset as (_ & img1 & Hr1 & Hre1).
  pose proof (rest_restored _ _ _ Hr1 Hre1) as H1. eapply wp_returns; [apply (flush_returns (res_accept res) g1 img1
    (fun b g' => b = res_accept res /\ delivered r req g img (Val b) g' /\ flushed (g_world g')))|by intros b g' (-> & ? & ?)].
  { apply H1. }
  intros g' Hw Hre Hm Hlb Hdv. pose proof (rest_restored _ _ _ H1 Hre) as H2. split; [done|]. split; [|by exists img1].
  split; [congruence|]. rewrite Hrun. cbn [fst snd]. split_and!; [done|congruence|eapply settled_flushed; [done|apply H1|done..]| |done].
  intros Hf. specialize (Hrej Hf). assert (img1 = img) as ->; [|by eapply restored_trans].
  apply (ledger_image_unique (ledger (g_world g1))); [apply H1|apply Hrej].
Qed.

Lemma inspect_flushes (r : Router S App) payload g img : router_sound r -> views_harmless r -> at_rest (g_world g) img ->
  wp (inspect_callback r payload) g (fun o g' => query_delivered r payload g img o g' /\ flushed (g_world g')).
Proof.
  intros Hr Hv Hrest. apply wp_bind. eapply wp_mono; [|by apply inspect_delivers].
  intros o g1 (Hlb & Hre & res & w1 & Hrun & -> & Hdev & Hset). pose proof (rest_restored _ _ _ Hrest Hre) as H1.
  eapply wp_returns; [apply (flush_returns (ins_accept res) g1 img
    (fun b g' => b = ins_accept res /\ query_delivered r payload g img (Val b) g' /\ flushed (g_world g')))|by intros b g' (-> & ? & ?)].
  { apply Hre. }
  intros g' Hw Hre' Hm Hl' Hd'. pose proof (restored_trans _ _ _ _ Hre Hre') as Hre2. pose proof (rest_restored _ _ _ Hrest Hre2) as H2.
  split; [done|]. split; [|by exists img]. split_and!; [congruence|done|]. exists res, w1.
  split_and!; [done|done|congruence|eapply settled_flushed; [done|apply H1|done..]].
Qed.

(** Every yield of the loop, from the first: what is in the machine is the
    drive of a ledger at rest. *)
Lemma turn_flushed (r : Router S App) g g' : router_sound r -> views_harmless r -> turn r g g' ->
  flushed (g_world g) -> flushed (g_world g').
Proof.
  intros Hr Hv [req accept g1 Hrun|payload accept g1 Hrun] (img & Hrest & _).
  - pose proof (advance_flushes r req g img Hr Hrest) as Hw. unfold wp in Hw. rewrite Hrun in Hw. apply Hw.
  - pose proof (inspect_flushes r payload g img Hr Hv Hrest) as Hw. unfold wp in Hw. rewrite Hrun in Hw. apply Hw.
Qed.
Lemma turns_flushed (r : Router S App) g g' : router_sound r -> views_harmless r -> rtc (turn r) g g' ->
  flushed (g_world g) -> flushed (g_world g').
Proof. intros Hr Hv Hrun. induction Hrun as [|g1 g2 g3 Ht _ IH]; [done|]. intros Hf. apply IH. by eapply turn_flushed. Qed.

(** [run]'s first two lines put both drives in the machine and change neither. *)
Lemma run_start_spec a img aimg es : ledger_inv (ap_ledger a) img -> journal (ap_ledger a) = [] ->
  abi_wf (ap_abiDrive a) aimg es ->
  returns run_start a (fun _ a' => ap_router a' = ap_router a /\ restored (ap_ledger a) img (ap_ledger a')
    /\ (forall started, current (g_world (guest_of a' started)) img)
    /\ abi_wf (ap_abiDrive a') aimg es /\ abi_machine (ap_abiDrive a') = aimg).
Proof.
  intros Hi Hj Hwf. apply returns_bind, returns_zoom. eapply returns_mono; [by eapply abi_sync_spec|].
  intros [] d' [Hst Hm]. apply returns_zoom. eapply returns_mono; [apply ledger_sync_spec, Hi|].
  intros [] l' [Hre Hml]. split_and!; [done|exact Hre| |by eapply still_wf|done]. intros started. split; [|done].
  split; [by eapply inv_restored|]. simpl. destruct Hre as (_ & _ & _ & _ & ->). exact Hj.
Qed.

(** ** Reading the machine

    [R] is any store over the bytes in the machine: a [MachineStore] of the
    host, or the device opened by the next boot. *)
Context {R : Type} {HSR : Store R} {HRR : StoreReads R}.

Lemma machine_opens (w : World S App) img (s : R) : current w img -> holds s (ledger_machine (ledger w)) ->
  returns open s (fun d _ => drive_wf d img /\ cfg d = cfg (drive (ledger w)) /\ tokens_ d = tokens_ (drive (ledger w))).
Proof.
  intros [[[[[Hh H1 H2 H3 H4 H5 H6 H7 H8 H9] _] _] _] Hm] Hs. rewrite Hm in Hs.
  eapply returns_mono.
  - apply (open_spec (mkDrive s (cfg (drive (ledger w))) (tokens_ (drive (ledger w))) (colOff (drive (ledger w)))) img).
    by constructor.
  - by intros d s' (_ & ? & ? & _ & ?).
Qed.

(** Its accounts are the guest's. *)
Definition account_pair (r : option Account) : Z * Z :=
  match r with Some b => (acc_nonce b, acc_balance b) | None => (0, 0) end.
Lemma machine_accounts (w : World S App) img (s : R) : current w img -> holds s (ledger_machine (ledger w)) ->
  returns open s (fun d _ => tokens_ d = tokens_ (drive (ledger w)) /\ forall x, valid_address x ->
    returns (getAccount (AddrBytes x)) d (fun r _ => account_pair r = account_view (ledger w) img x)).
Proof.
  intros Hc Hs. eapply returns_mono; [by eapply machine_opens|]. intros d s1 (Hwf & Hcfg & Htok). split; [done|].
  intros x Hx. eapply returns_mono; [apply (getAccount_spec d img (AddrBytes x) x Hwf); [by apply toAddress_valid|apply Hx]|].
  intros r d' [-> _]. unfold account_view. rewrite Hcfg. by destruct (account_of _ _ _) as [[]|].
Qed.

(** So are the ABI drive's entries. *)
Definition abi_on (s : R) (d : AbiDrive T) : AbiDrive R :=
  mkAbiDrive s (ab_capacity d) (ab_count d) (ab_indexOffset d) (ab_heapOffset d) (ab_heapLength d) (ab_heapUsed d).
Lemma machine_contracts (d : AbiDrive T) img es (s : R) : abi_wf d img es -> holds s img ->
  returns abi_open s (fun d2 _ => returns abi_entries d2 (fun r _ => r = es)).
Proof.
  intros Hwf Hs. assert (Hwf' : abi_wf (abi_on s d) img es) by (destruct Hwf; by constructor).
  eapply returns_mono; [by apply (abi_open_spec (abi_on s d) img es)|]. intros d2 s2 [_ Hst].
  eapply returns_mono; [eapply entries_spec; by eapply still_wf|]. by intros r d3 [-> _].
Qed.
End SyncSpec.
