(* ===== verification/Divergences.v ===== *)
(** * Where the code and its documentation part

    Facts of the model that a comment or a document of the repository does not
    lead one to expect, each with the behaviour of the code. *)

From Stdlib Require Import ZArith Lia.
From S2P Require Import Prelude Bytes Text Store DriveConfig DriveHeader RobinHood DriveTable Drive DriveTokens.
From S2P Require Import DriveFormat Evm Ledger Journal DriveJournal LedgerJournal LedgerOps LedgerSpec LedgerInv Handlers Router HandlersJournal.
From S2P Require Import HandlersInv RouterSpec Effects Application.

(** [validateConfig] accepts a negative registry capacity, which its message
    excludes. *)
Lemma negative_registry_accepted : exists c, validateConfig c = Val tt /\ registryCapacity c < 0.
Proof.
  exists (mkNormalized 16384 16 14 (zeros 32) ProfileSparse 64 4096 0x100 (-1) 8192 16 14 64).
  split; [vm_compute; reflexivity|reflexivity].
Qed.

(** The standard record's nonce is stored modulo 2^64, without the overflow
    error of the compact record. *)
Lemma standard_nonce_wraps c addr nonce balance : compact c = false ->
  encodeAccount c addr (nonce + 2 ^ 64) balance = encodeAccount c addr nonce balance.
Proof.
  intros Hc. unfold encodeAccount. rewrite Hc. destruct (setBytes (zeros 64) addr 0) as [rec|e|]; [|done..].
  cbn [mbind outcome_bind]. unfold setLE64.
  enough (forall n v, le_encode n (v + 256 ^ Z.of_nat n) = le_encode n v) as Hle
    by (change (2 ^ 64) with (256 ^ Z.of_nat 8); by rewrite Hle).
  induction n as [|n IH]; intros v; [done|]. cbn [le_encode]. rewrite Nat2Z.inj_succ, Z.pow_succ_r by lia. f_equal.
  - rewrite Z.mul_comm. apply Z_mod_plus_full.
  - rewrite Z.mul_comm, Z.div_add by lia. apply IH.
Qed.

Section Divergences.
Context {S App : Type} {HS : Store S} {HR : StoreReads S} {HW : StoreWrites S} {HG : StoreGuards S}
  {HK : Keccak} {HKL : KeccakLaws} {HV : Viem} {HI : InputLaws} {HC : Calldata} {HCL : CalldataLaws}.
Implicit Types w : World S App.

(** A signed transaction whose [s] is the empty byte string is not rejected:
    the conversion throws out of [recoverSender] and of [advance]. *)
Lemma empty_s_escapes (r : Router S App) block raw t chain nonce to value data w : chain_ok r chain ->
  parseInput raw = PSigned t chain nonce (Some to) value data [] raw ->
  advance_input r block raw w = (Exn (JsError "Cannot convert 0x to a BigInt"), w).
Proof.
  intros Hc Hp. unfold advance_input. rewrite Hp. unfold advanceSigned. by rewrite (chain_test r chain Hc).
Qed.

(** Anyone's transaction sets the L1 attributes: the handler reads the calldata
    and nothing else of the transaction. *)
Lemma attributes_unauthenticated ctx ctx' w : tx_data ctx = tx_data ctx' ->
  l1block_advance ctx w = l1block_advance ctx' w.
Proof. intros Hd. unfold l1block_advance. by rewrite Hd. Qed.

(** An accepted transaction whose handler leaves the sender unable to pay the
    fee is rejected after all: its sender pays nothing and its nonce stands. *)
Lemma drained_sender_rejects (r : Router S App) ctx f w img e w1 l1 : router_sound r -> tx_ok ctx -> at_rest w img ->
  tx_isDeposit ctx = false ->
  run_handler r ctx None (set_sink (mkSink [] 0 (inputIndex (tx_block ctx))) w) = (Val OAccept, w1) ->
  bumpNonceAndCharge (tx_sender ctx) f (ledger w1) = (Exn e, l1) ->
  returns (execute r ctx (zlen (journal (ledger w))) (Some (tx_sender ctx, f))) w (fun res w' =>
    res = reject (describe e) /\ restored (ledger w) img (ledger w')).
Proof.
  intros Hr Hctx Hrest Hdep Hrun Hbump. unfold execute. rewrite Hdep. apply returns_bind, returns_modify.
  set (w0 := set_sink _ w) in *. pose proof (reach_refl w img w0 (proj1 Hrest) eq_refl) as Hw0.
  destruct (run_handler_sound r ctx None w img w0 Hr Hctx (proj1 Hrest) Hw0) as [_ Hreach]. rewrite Hrun in Hreach.
  destruct (reach_run (on_ledger (bumpNonceAndCharge (tx_sender ctx) f) : M (World S App) unit) w img w1 (proj1 Hrest) Hreach)
    as [_ Hr1].
  { apply on_ledger_keeps, bumpNonceAndCharge_keeps, ok_sender, Hctx. }
  { intros. by apply on_ledger_tracks, bumpNonceAndCharge_tracks. }
  apply returns_bind, returns_try. unfold wp. rewrite Hrun. cbn [fst snd finish]. unfold settle, charge.
  apply returns_bind, returns_try, wp_bind. unfold wp. unfold on_ledger, zoom in Hr1 |- *. rewrite Hbump in Hr1 |- *.
  cbn [fst snd] in *. apply returns_bind. eapply returns_mono; [by apply (rollbackAll_spec w img)|].
  intros [] w' Hw'. by apply returns_ret.
Qed.
End Divergences.
