(* ===== verification/Fixture.v ===== *)
(** * Concrete instances

    Small executable stand-ins for the code the model is parametrised by: a
    hash with keccak's output shape, an ABI codec that inverts, a transaction
    parser and calldata decoders of a toy wire format; and a drive of a few
    slots. The theorems' hypotheses are satisfied by them, and the definitions
    evaluate on them. *)

From Stdlib Require Import ZArith Lia Ascii.
From S2P Require Import Prelude Sums Bytes Store DriveConfig DriveHeader RobinHood DriveTable Drive DriveTokens.
From S2P Require Import DriveFormat Evm Ledger Journal DriveJournal LedgerJournal LedgerSpec LedgerInv Boot Handlers Router HandlersJournal.
From S2P Require Import HandlersInv RouterSpec Effects BridgeSpec.

Module Toy.
#[export] Instance is_byte_dec b : Decision (is_byte b).
Proof. unfold is_byte. apply _. Defined.
#[export] Instance is_address_dec a : Decision (is_address a).
Proof. unfold is_address. apply _. Defined.

(** ** A hash *)
Definition mix (x : bytes) : Z := foldl (fun h b => (h * 257 + b + 1) mod 2 ^ 256) 7 x.
Definition hash (x : bytes) : bytes := putBE_loop 32 (mix x) [].
#[export] Instance toy_keccak : Keccak := hash.

Lemma mix_nonneg x : 0 <= mix x.
Proof.
  unfold mix. assert (H : forall l h, 0 <= h -> 0 <= foldl (fun h b => (h * 257 + b + 1) mod 2 ^ 256) h l).
  { induction l as [|b l IH]; intros h Hh; simpl; [done|]. apply IH. apply Z.mod_pos_bound. lia. }
  apply H. lia.
Qed.

#[export] Instance toy_keccak_laws : KeccakLaws.
Proof.
  split; intros x; unfold keccak_256, toy_keccak, hash.
  - unfold zlen. rewrite length_putBE_loop. done.
  - apply putBE_loop_spec; [apply mix_nonneg|constructor].
Qed.

(** ** An ABI codec *)
Fixpoint enc (v : AbiValue) : list Z :=
  match v with
  | VUint n => [n]
  | VAddress b | VBytes b => zlen b :: b
  | VString s => zlen (string_bytes s) :: string_bytes s
  | VBool b => [if b then 1 else 0]
  | VArray l => zlen l :: (fix go (l : list AbiValue) : list Z := match l with [] => [] | v :: l => enc v ++ go l end) l
  end.
Definition encs (vs : list AbiValue) : list Z := concat (map enc vs).

Definition take_bytes (ok : bytes -> bool) (h : list Z) : option (bytes * list Z) :=
  match h with
  | n :: r => let b := slice 0 n r in if ok b then Some (b, drop (Z.to_nat n) r) else None
  | [] => None
  end.
Arguments take_bytes : simpl never.
#[local] Arguments string_bytes : simpl never.
#[local] Arguments zlen : simpl never.
Definition chars (b : bytes) : string := String.string_of_list_ascii (map (fun c => ascii_of_N (Z.to_N c)) b).
Fixpoint dec_n {A} (f : list Z -> option (A * list Z)) (n : nat) (h : list Z) : option (list A * list Z) :=
  match n with
  | O => Some ([], h)
  | S n => match f h with
           | Some (v, h) => match dec_n f n h with Some (vs, h) => Some (v :: vs, h) | None => None end
           | None => None
           end
  end.
Fixpoint dec (t : AbiType) (h : list Z) : option (AbiValue * list Z) :=
  match t with
  | TUint bits => match h with
                  | n :: r => if bool_decide (0 <= n < 2 ^ bits) then Some (VUint n, r) else None
                  | [] => None
                  end
  | TAddress => prod_map VAddress id <$> take_bytes (fun b => bool_decide (is_address b)) h
  | TBytes => prod_map VBytes id <$> take_bytes (fun b => bool_decide (Forall is_byte b)) h
  | TBytes32 => prod_map VBytes id <$> take_bytes (fun b => bool_decide (zlen b = 32 /\ Forall is_byte b)) h
  | TString => prod_map (VString ∘ chars) id <$> take_bytes (fun _ => true) h
  | TBool => match h with n :: r => Some (VBool (n =? 1), r) | [] => None end
  | TArray t => match h with
                | n :: r => prod_map VArray id <$> dec_n (dec t) (Z.to_nat n) r
                | [] => None
                end
  end.
Fixpoint decs (ts : list AbiType) (h : list Z) : option (list AbiValue) :=
  match ts with
  | [] => Some []
  | t :: ts => match dec t h with
               | Some (v, h) => match decs ts h with Some vs => Some (v :: vs) | None => None end
               | None => None
               end
  end.

Lemma take_bytes_app ok b r : ok b = true -> take_bytes ok (zlen b :: b ++ r) = Some (b, r).
Proof.
  intros Hok. unfold take_bytes. rewrite slice_app_l by (pose proof (zlen_nonneg b); lia). rewrite slice_full, Hok.
  f_equal. f_equal. unfold zlen. rewrite Nat2Z.id. apply drop_app_length.
Qed.

Lemma chars_string s : chars (string_bytes s) = s.
Proof.
  unfold chars, string_bytes. rewrite map_map. rewrite <- (String.string_of_list_ascii_of_string s) at 2. f_equal.
  induction (String.list_ascii_of_string s) as [|c l IH]; simpl; [done|]. rewrite IH. f_equal.
  rewrite N2Z.id. apply ascii_N_embedding.
Qed.

Lemma dec_enc t v r : has_type v t -> dec t (enc v ++ r) = Some (v, r).
Proof.
  revert v r. induction t as [bits| | | | | |t IH]; intros [n|a|b|s|b|l] r Ht; try done; simpl in Ht |- *.
  - by rewrite bool_decide_eq_true_2.
  - by rewrite take_bytes_app by (by apply bool_decide_eq_true_2).
  - by rewrite take_bytes_app by (by apply bool_decide_eq_true_2).
  - by rewrite take_bytes_app by (by apply bool_decide_eq_true_2).
  - rewrite slice_app_l by (pose proof (zlen_nonneg (string_bytes s)); lia). rewrite slice_full, chars_string.
    unfold zlen. by rewrite Nat2Z.id, drop_app_length.
  - by destruct b.
  - assert (Hl : dec_n (dec t) (length l) ((fix go (l : list AbiValue) := match l with [] => [] | v :: l => enc v ++ go l end) l ++ r) = Some (l, r)).
    { induction l as [|v l IHl]; simpl; [done|]. destruct Ht as [Hv Hl]. rewrite <- app_assoc, IH by done. by rewrite IHl. }
    unfold zlen. rewrite Nat2Z.id. by rewrite Hl.
Qed.

Lemma decs_encs ts vs : Forall2 has_type vs ts -> decs ts (encs vs) = Some vs.
Proof.
  induction 1 as [|v t vs ts Hv _ IH]; [done|]. unfold encs in *. simpl. rewrite dec_enc by done. by rewrite IH.
Qed.

Lemma take_bytes_ok ok h b r : take_bytes ok h = Some (b, r) -> ok b = true.
Proof. unfold take_bytes. destruct h as [|n h]; [done|]. destruct (ok _) eqn:Hok; [|done]. by intros [= <- _]. Qed.

Lemma dec_typed t h v r : dec t h = Some (v, r) -> has_type v t.
Proof.
  revert h v r. induction t as [bits| | | | | |t IH]; intros h v r; simpl.
  - destruct h as [|n h]; [done|]. case_bool_decide; [|done]. by intros [= <- _].
  - destruct (take_bytes _ h) as [[b r']|] eqn:Hb; [|done]. intros [= <- _].
    apply take_bytes_ok in Hb. by apply bool_decide_eq_true in Hb.
  - destruct (take_bytes _ h) as [[b r']|] eqn:Hb; [|done]. intros [= <- _].
    apply take_bytes_ok in Hb. by apply bool_decide_eq_true in Hb.
  - destruct (take_bytes _ h) as [[b r']|] eqn:Hb; [|done]. intros [= <- _].
    apply take_bytes_ok in Hb. by apply bool_decide_eq_true in Hb.
  - destruct (take_bytes _ h) as [[b r']|] eqn:Hb; [|done]. by intros [= <- _].
  - destruct h as [|n h]; [done|]. by intros [= <- _].
  - destruct h as [|n h]; [done|]. destruct (dec_n _ _ h) as [[l r']|] eqn:Hl; [|done]. intros [= <- _]. simpl.
    revert h l r' Hl. induction (Z.to_nat n) as [|k IHk]; intros h l r'; simpl; [by intros [= <- _]|].
    destruct (dec t h) as [[x h1]|] eqn:Hx; [|done]. destruct (dec_n _ k h1) as [[xs h2]|] eqn:Hxs; [|done].
    intros [= <- _]. split; [by eapply IH|by eapply IHk].
Qed.

Lemma decs_typed ts h vs : decs ts h = Some vs -> Forall2 has_type vs ts.
Proof.
  revert h vs. induction ts as [|t ts IH]; intros h vs; simpl; [by intros [= <-]|].
  destruct (dec t h) as [[v h1]|] eqn:Hv; [|done]. destruct (decs ts h1) as [vs'|] eqn:Hvs; [|done].
  intros [= <-]. constructor; [by eapply dec_typed|by eapply IH].
Qed.

(** ** viem *)
Definition ALICE : Address := address_of 0xa11ce.
Definition BOB : Address := address_of 0xb0b.
Definition L1_TOKEN : Address := address_of 0x7070.

(** [2; nonce; value]: a signed transfer to BOB. [0x7e; ..data]: a deposit to
    BOB of 30, minting 100. *)
Definition parse (raw : bytes) : outcome AnyParsedTx :=
  match raw with
  | [2; nonce; value] => Val (mkParsedTx (Some "eip1559") None (Some BOB) None (Some (Z.abs value)) None (Some 901)
                                (Some nonce) (Some [1]) (Some [1]))
  | 0x7e :: data => if bool_decide (Forall is_byte data)
                    then Val (mkParsedTx (Some "deposit") (Some ALICE) (Some BOB) (Some 100) (Some 30) (Some data) None
                                None None None)
                    else Exn (JsError "not bytes")
  | _ => Exn (JsError "not a transaction")
  end.
Definition selector (sig : string) : bytes := putBE_loop 4 (mix (string_bytes sig)) [].
#[export] Instance toy_viem : Viem := {|
  parseTransaction := parse;
  recoverTransactionAddress := fun _ => Val ALICE;
  toFunctionSelector := selector;
  encodeAbiParameters := fun _ vs => encs vs;
  decodeAbiParameters := fun ts h => match decs ts h with Some vs => Val vs | None => Exn (JsError "bad data") end;
  encodeErrorResult := fun msg => 8 :: string_bytes msg |}.

#[export] Instance toy_viem_laws : ViemLaws.
Proof.
  split.
  - intros ts vs Ht. simpl. by rewrite decs_encs.
  - intros sig. simpl. unfold selector, zlen. by rewrite length_putBE_loop.
Qed.

#[export] Instance toy_input_laws : InputLaws.
Proof.
  split.
  - intros raw tx. simpl. unfold parse. repeat case_match; try done; intros [= <-];
      constructor; simpl; intros ? [= <-]; try (by apply address_of_ok); try lia.
    by eapply bool_decide_eq_true_1.
  - intros raw a [= <-]. by apply address_of_ok.
  - done.
  - intros ts h vs. simpl. destruct (decs ts h) as [vs'|] eqn:Hd; [|done]. intros [= <-]. by eapply decs_typed.
Qed.

(** ** Calldata *)
Definition note : CrossDomainMessage := mkMessage (Z.shiftl 1 240) BOB ALICE 25 0 [].
Definition bad {A} : outcome A := Exn (JsError "unknown function").
#[export] Instance toy_calldata : Calldata := {|
  decodePasser := fun d => match d with [0xc2; g] => Val (initiateWithdrawal BOB g [7]) | _ => bad end; decodeBridge := fun _ => bad;
  decodeErc20 := fun d => match d with
    | 0xa9 :: v :: to => if bool_decide (is_address to) then Val (transfer to v) else bad
    | _ => bad end;
  decodeRegistry := fun _ => bad;
  decodeConfig := fun d => match d with
    | [1; f] => Val (setFee_call (Z.abs f)) | [2; k] => Val (registerPortal_call k BOB)
    | [3] => Val (registerMessenger_call BOB BOB) | _ => bad end;
  decodeMessenger := fun d => match d with [0xd7] => Val (relayMessage note) | _ => bad end;
  decodeL2Bridge := fun d => match d with
    | [0xe1] => Val (finalizeBridgeERC20 (l2TokenAddress L1_TOKEN) L1_TOKEN BOB ALICE 9 [])
    | _ => bad end;
  decodeL1Block := fun d => match d with [1] => Val b_number | _ => bad end;
  encodeFunctionData := fun f vs => string_bytes f ++ encs vs;
  encodeFunctionResult := fun f vs => string_bytes f ++ encs vs |}.

#[export] Instance toy_calldata_laws : CalldataLaws.
Proof.
  split; intros d; simpl; try done.
  - intros to v. repeat case_match; try done. intros [= <- _]. by eapply bool_decide_eq_true_1.
  - intros m. repeat case_match; try done. intros [= <-]. by split; apply address_of_ok.
  - intros lt rt from to v x. repeat case_match; try done. intros [= _ <- _ <- _ _]. by split; apply address_of_ok.
  - intros from to v x. by repeat case_match.
Qed.

(** ** A drive of sixteen slots *)
Definition config : Config := {|
  c_driveLength := Some 16384; c_capacity := Some 16; c_loadLimit := None; c_seed := None;
  c_profile := Some ProfileSparse; c_slotSize := None; c_tableOffset := None;
  c_registryOffset := Some 0x100; c_registryCapacity := Some 8;
  c_sparseOffset := Some 8192; c_sparseCapacity := Some 16;
  c_sparseLoadLimit := None; c_sparseSlotSize := None |}.
Definition small : NormalizedConfig :=
  mkNormalized 16384 16 14 (zeros 32) ProfileSparse 64 4096 0x100 8 8192 16 14 64.
Lemma small_normalized : normalizeConfig config = Val small.
Proof. vm_compute. reflexivity. Qed.
Lemma small_valid : validateConfig small = Val tt.
Proof. vm_compute. reflexivity. Qed.
Lemma small_storable : u53 (registryCapacity small) /\ slotSize small < 2 ^ 32 /\ driveLength small <= MAX_SAFE_INTEGER.
Proof. unfold u53, MAX_SAFE_INTEGER. cbn [registryCapacity slotSize driveLength small]. lia. Qed.

Definition blank : bytes := formatted_image small.
Definition empty_ledger : Ledger MemStore.t :=
  mkLedger (mkDrive (mkJStore (MemStore.mk blank) []) (header_config small) [] []) ∅ empty_ram.

Lemma small_geometry : geometry (driveLength small) small.
Proof. apply validateConfig_geometry; [cbn; lia|apply small_valid]. Qed.

Lemma blank_length : zlen blank <= MAX_SAFE_INTEGER.
Proof.
  destruct (formatted_header small) as (Hz & _); [reflexivity|vm_compute; congruence|].
  unfold blank. rewrite Hz. apply small_storable.
Qed.

Lemma blank_held : holds (StoreReads := JStore_reads) (mkJStore (MemStore.mk blank) []) (formatted_image small).
Proof. split; [reflexivity|apply blank_length]. Qed.

Lemma blank_wf : drive_wf (drive empty_ledger) blank
  /\ table_map (accountsTable (header_config small)) blank = ∅
  /\ table_map (sparseTable (header_config small)) blank = ∅.
Proof.
  destruct small_storable as (Hu & Hs & Hl). pose proof small_geometry as Hg.
  assert (Hz : zlen (seed small) = 32) by reflexivity.
  pose proof (formatted_wf (S := JStore MemStore.t) small (mkJStore (MemStore.mk blank) []) blank_held Hz Hl Hg
    (geometry_storable _ _ Hg Hl Hz Hu Hs)) as (Hwf & Ha & Hsp).
  split; [exact Hwf|]. split; [exact Ha|]. apply Hsp. reflexivity.
Qed.
#[global] Opaque blank.

Lemma empty_inv : ledger_inv empty_ledger blank.
Proof.
  destruct blank_wf as (Hwf & _). split; [by split|]. split; [|by left]. intros id. case_decide as Hid; [|done].
  unfold zlen in Hid. simpl in Hid. lia.
Qed.

Lemma valid_ALICE : valid_address ALICE.
Proof. destruct (address_of_spec 0xa11ce ltac:(lia)) as (? & ? & _). by split_and!. Qed.
Lemma valid_BOB : valid_address BOB.
Proof. destruct (address_of_spec 0xb0b ltac:(lia)) as (? & ? & _). by split_and!. Qed.

(** ALICE holds 1000. *)
Definition funded : Ledger MemStore.t := set_journal [] (creditEther ALICE 1000 empty_ledger).2.

Lemma empty_view a : account_view empty_ledger blank a = (0, 0).
Proof. destruct blank_wf as (_ & Ha & _). unfold account_view, account_of. simpl. by rewrite Ha. Qed.

Lemma empty_room a : has_room empty_ledger blank a.
Proof.
  right. rewrite (live_count empty_ledger blank (proj1 empty_inv)).
  destruct blank_wf as (_ & Ha & _). simpl in *. rewrite Ha. vm_compute. done.
Qed.

Lemma empty_account a : account_of (cfg (drive empty_ledger)) blank a = None.
Proof. destruct blank_wf as (_ & Ha & _). unfold account_of. simpl. by rewrite Ha. Qed.

Lemma fits_small n : 0 <= n < 2 ^ 256 -> fits_width (balance_width (header_config small)) n.
Proof. done. Qed.

(** The state [funded] is in, before its journal is committed. *)
Lemma credited : exists l img, creditEther ALICE 1000 empty_ledger = (Val tt, l)
  /\ account_set empty_ledger blank ALICE (0, 1000) l img.
Proof.
  pose proof (credit_spec empty_ledger blank ALICE 1000 (proj1 empty_inv) valid_ALICE ltac:(done)) as Hc.
  rewrite empty_view in Hc. specialize (Hc (fits_small (0 + 1000) ltac:(lia)) (empty_room ALICE)).
  apply returns_elim in Hc as ([] & l1 & Hrun & img & Hset). exists l1, img. split; [exact Hrun|exact Hset].
Qed.

Lemma credited_live l img : account_set empty_ledger blank ALICE (0, 1000) l img -> count_at OFF_LIVE_COUNT img = 1.
Proof.
  intros (Hwf & ((Hc & _) & _) & Ha & Hoth & _). rewrite (live_count l img Hwf), Hc, <- size_dom.
  replace (dom _) with ({[ALICE]} : gset Address); [by rewrite size_singleton|].
  apply set_eq. intros x. rewrite elem_of_singleton, <- account_dom. destruct (decide (x = ALICE)) as [->|Hne].
  - rewrite Ha. split; [by eexists|done].
  - rewrite Hoth, empty_account by done. split; [done|intros []%is_Some_None].
Qed.

Lemma funded_spec : exists img, ledger_inv funded img /\ journal funded = []
  /\ account_view funded img ALICE = (0, 1000) /\ (forall a, a <> ALICE -> account_view funded img a = (0, 0))
  /\ (forall a, has_room funded img a) /\ ram funded = empty_ram /\ cfg (drive funded) = header_config small
  /\ tokens_ (drive funded) = [] /\ facades funded = ∅.
Proof.
  destruct credited as (l & img & Hrun & Hset). pose proof (credited_live _ _ Hset) as Hlive.
  pose proof (become_inv _ _ _ _ _ empty_inv (account_set_become _ _ _ _ _ _ Hset)) as Hi.
  unfold funded. rewrite Hrun. clear Hrun. destruct Hset as (_ & ((Hc & Ht & _) & Hf & Hr) & Ha & Hoth & _).
  exists img. unfold account_view, has_room. cbn [set_journal snd drive set_drive with_store cfg tokens_ facades ram journal entries store].
  rewrite Hc. split; [apply (inv_transport l); try done; apply Hi|]. split; [done|].
  split; [by rewrite Ha|]. split; [intros a Hne; by rewrite Hoth, empty_account|].
  split; [|done]. intros a. right. rewrite Hlive. done.
Qed.

#[global] Opaque funded.

(** ** A token *)
Lemma no_holdings (l : Ledger MemStore.t) img : ledger_wf l img -> profile (cfg (drive l)) = ProfileSparse ->
  (forall id a, 0 <= id < zlen (tokens_ (drive l)) -> zlen a = 20 -> token_balance (cfg (drive l)) (tokens_ (drive l)) img id a = 0) ->
  count_at OFF_SPARSE_LIVE_COUNT img = 0.
Proof.
  intros [Hwf _] Hp Hz. pose proof Hwf as [_ _ _ _ _ Hsp Hsb _ _ _].
  pose proof (inv_map_size _ _ _ (Hsp Hp)) as Hcnt. simpl t_countOff in Hcnt. rewrite <- Hcnt.
  replace (table_map _ img) with (∅ : gmap bytes bytes); [done|]. symmetry. apply map_eq. intros k.
  rewrite lookup_empty. destruct (table_map _ img !! k) as [s|] eqn:Hs; [|done].
  destruct (Hsb Hp k s Hs) as (_ & Hpos & id & a & t & Hid & Ha & -> & _). specialize (Hz id a Hid Ha).
  unfold token_balance in Hz. rewrite Hp, Hs in Hz. simpl in Hz. lia.
Qed.

Lemma registrable : registration_error (header_config small) [] L1_TOKEN 32 = None.
Proof. vm_compute. reflexivity. Qed.

Definition listed : Ledger MemStore.t := (ledger_registerToken L1_TOKEN None funded).2.
(** ALICE holds 500 of token 0. *)
Definition stocked : Ledger MemStore.t := set_journal [] (creditToken ALICE 0 500 listed).2.

Lemma listed_spec : exists img, ledger_inv listed img /\ cfg (drive listed) = header_config small
  /\ tokens_ (drive listed) = [mkToken L1_TOKEN 32] /\ facades listed = {[l2TokenAddress L1_TOKEN := 0]}
  /\ ram listed = empty_ram
  /\ (forall a, zlen a = 20 -> token_balance (cfg (drive listed)) (tokens_ (drive listed)) img 0 a = 0).
Proof.
  destruct funded_spec as (img & Hi & _ & _ & _ & _ & Hr & Hc & Ht & _). pose proof Hi as (Hwf & Hs & Hx).
  pose proof (ledger_registerToken_spec funded img L1_TOKEN None Hwf eq_refl) as Hreg.
  rewrite Hc, Ht in Hreg. specialize (Hreg registrable).
  apply returns_elim in Hreg as (r & l1 & Hrun & _ & img1 & Hreg). unfold listed. rewrite Hrun. clear Hrun.
  exists img1. pose proof (supply_registered _ _ _ _ _ _ Hreg Hs) as Hs1.
  destruct Hreg as (Hwf1 & Hc1 & Ht1 & _ & Hr1 & _ & _ & Hnew). rewrite Ht in Ht1, Hnew. rewrite Hc in Hc1.
  cbn [snd]. pose proof Hwf1 as [_ Hf1]. rewrite Ht1 in Hf1.
  split; [split; [exact Hwf1|split; [exact Hs1|]]; apply (exclusive_same funded); [rewrite Hr1; reflexivity..|exact Hx]|].
  split; [exact Hc1|]. split; [exact Ht1|].
  split; [rewrite Hf1; cbn [app facades_from tok_address]; apply insert_empty|].
  split; [congruence|exact Hnew].
Qed.

#[global] Opaque listed.

Lemma small_tokens : profile (header_config small) <> ProfileSingleAsset.
Proof. discriminate. Qed.
Lemma nonzero_500 : 500 <> 0.
Proof. discriminate. Qed.
Lemma fits_500 : fits_width (tok_width (mkToken L1_TOKEN 32)) (0 + 500).
Proof. split; vm_compute; congruence. Qed.

Lemma stock_spec (l : Ledger MemStore.t) img : ledger_inv l img -> cfg (drive l) = header_config small ->
  tokens_ (drive l) = [mkToken L1_TOKEN 32] ->
  (forall a, zlen a = 20 -> token_balance (cfg (drive l)) (tokens_ (drive l)) img 0 a = 0) ->
  exists l' img', creditToken ALICE 0 500 l = (Val tt, l') /\ ledger_inv l' img' /\ same_cache l l'
    /\ facades l' = facades l /\ token_balance (cfg (drive l)) (tokens_ (drive l)) img' 0 ALICE = 500.
Proof.
  intros Hi Hc Ht Hz. pose proof Hi as (Hwf & Hs & Hx).
  pose proof (creditToken_spec l img ALICE 0 (mkToken L1_TOKEN 32) 500 Hwf valid_ALICE) as Hcr.
  rewrite Hz in Hcr by (by apply valid_ALICE). rewrite Hc, Ht in *.
  specialize (Hcr small_tokens (Z.le_refl 0) eq_refl nonzero_500 fits_500).
  assert (Hroom : token_room (drive l) img 0 ALICE (0 + 500)).
  { right. rewrite Hc. simpl. right. rewrite (no_holdings l img Hwf); [done|by rewrite Hc|].
    rewrite Hc, Ht. intros id a Hid Ha. assert (id = 0) as -> by (unfold zlen in Hid; simpl in Hid; lia). by apply Hz. }
  specialize (Hcr Hroom). apply returns_elim in Hcr as ([] & l1 & Hrun & img1 & Hset). exists l1, img1.
  assert (Hsup : supply_exact l1 img1).
  { apply (supply_set l img 0 ALICE 500); rewrite ?Hc, ?Ht; [unfold zlen; simpl; lia| |done].
    rewrite Hz by (by apply valid_ALICE). exact Hset. }
  destruct Hset as (Hwf1 & Hsc & Hf1 & Hr1 & Hb & _). rewrite Hc, Ht in Hb.
  split; [exact Hrun|]. split; [split; [exact Hwf1|split; [exact Hsup|]]|by split_and!].
  apply (exclusive_same l); [rewrite Hr1; reflexivity..|exact Hx].
Qed.

Lemma stocked_spec : exists img, ledger_inv stocked img /\ journal stocked = []
  /\ cfg (drive stocked) = header_config small /\ tokens_ (drive stocked) = [mkToken L1_TOKEN 32]
  /\ facades stocked = {[l2TokenAddress L1_TOKEN := 0]}
  /\ token_balance (cfg (drive stocked)) (tokens_ (drive stocked)) img 0 ALICE = 500.
Proof.
  destruct listed_spec as (img & Hi & Hc & Ht & Hf & Hr & Hz).
  destruct (stock_spec listed img Hi Hc Ht Hz) as (l & img' & Hrun & Hi' & Hsc & Hf' & Hb).
  rewrite Hc, Ht in Hb. rewrite Hf in Hf'. destruct Hsc as (Hc' & Ht' & _). rewrite Hc in Hc'. rewrite Ht in Ht'.
  unfold stocked. rewrite Hrun. clear Hrun. cbn [snd]. exists img'.
  split; [apply (inv_transport l); [exact Hi'|apply Hi'|by split_and!|done|done|apply Hi']|]. split; [done|].
  cbn [set_journal drive set_drive with_store cfg tokens_ facades]. rewrite Hc', Ht'.
  split; [reflexivity|]. split; [reflexivity|]. split; [exact Hf'|exact Hb].
Qed.

#[global] Opaque stocked.

Lemma token_listed (l : Ledger MemStore.t) : tokens_ (drive l) = [mkToken L1_TOKEN 32] ->
  facades l = {[l2TokenAddress L1_TOKEN := 0]} ->
  tokenByL2Address (l2TokenAddress L1_TOKEN) l = Some (mkFacade 0 L1_TOKEN 32).
Proof. intros Ht Hf. unfold tokenByL2Address. rewrite Hf, lookup_singleton_eq, Ht. reflexivity. Qed.

(** ** Devices to boot from *)
Lemma blank_device : holds (MemStore.mk (zeros (driveLength devnet_config))) (zeros (driveLength devnet_config)).
Proof. split; [reflexivity|]. rewrite zlen_zeros; cbn [driveLength devnet_config]; unfold MAX_SAFE_INTEGER; lia. Qed.
Lemma small_device : holds (MemStore.mk (zeros 16384)) (zeros 16384).
Proof. split; [reflexivity|]. rewrite zlen_zeros; unfold MAX_SAFE_INTEGER; lia. Qed.
Definition blank_drive : Drive MemStore.t := mkDrive (MemStore.mk blank) (header_config small) [] [].
Lemma blank_on_device : holds (MemStore.mk blank) blank.
Proof. split; [reflexivity|apply blank_length]. Qed.
Lemma blank_drive_wf : drive_wf blank_drive blank.
Proof. destruct blank_wf as ([_ H1 H2 H3 H4 H5 H6 H7 H8 H9] & _). constructor; [exact blank_on_device|assumption..]. Qed.

(** ** A chain *)
Definition rc : RouterConfig := mkRouterConfig 901 BOB.
Definition router : Router MemStore.t unit := newRouter rc.
Definition block : BlockContext := mkBlock 901 ZERO_ADDRESS 1 0 0 7.
Definition world (l : Ledger MemStore.t) : World MemStore.t unit := mkWorld l (mkSink [] 0 7) None tt.

Lemma router_ok : router_sound router.
Proof. split; [intros; apply newRouter_tracks|apply newRouter_keeps]. Qed.

(** Nothing is routed at BOB while there is no portal and no token. *)
Lemma resolve_free (l : Ledger MemStore.t) : ram l = empty_ram -> facades l = ∅ -> resolve router BOB (Some block) None l = None.
Proof.
  intros Hr Hf. unfold resolve. replace (manifest_get _ _) with (@None (Routed MemStore.t unit)) by reflexivity.
  unfold tokenByL2Address. rewrite Hf. reflexivity.
Qed.

Lemma funded_rest : exists img, at_rest (world funded) img.
Proof. destruct funded_spec as (img & Hi & Hj & _). by exists img. Qed.

(** The messenger is registered and [note] was relayed. *)
Definition paired : CrossDomainConfig := mkCrossDomain BOB (applyL1ToL2Alias BOB) ALICE.
Definition relayed_ledger : Ledger MemStore.t :=
  set_ram (put_message (hashCrossDomainMessageV1 note) (Some successful) (put_crossDomain (Some paired) empty_ram)) funded.

(** The RAM state beside the totals and the portals is free. *)
Lemma rest_ram (l : Ledger MemStore.t) img r : at_rest (world l) img -> totals r = totals (ram l) ->
  hasErc20Portal (set_ram r l) = false -> at_rest (world (set_ram r l)) img.
Proof.
  intros [Hi Hj] Ht Hp. split; [|exact Hj]. apply (inv_transport l); try done; [apply Hi| |by right].
  intros id. unfold totalSupply. simpl. by rewrite Ht.
Qed.
Lemma relayed_rest : exists img, at_rest (world relayed_ledger) img.
Proof.
  destruct funded_spec as (img & Hi & Hj & _ & _ & _ & Hr & _). exists img. unfold relayed_ledger.
  apply rest_ram; [exact (conj Hi Hj)|rewrite Hr; reflexivity|reflexivity].
Qed.

Lemma relayed_status : messageStatus (hashCrossDomainMessageV1 note) relayed_ledger = Some successful.
Proof. unfold messageStatus, relayed_ledger, set_ram, put_message. cbn [ram messages]. apply lookup_partial_alter_eq. Qed.

#[global] Opaque relayed_ledger.

(** ALICE is the ERC-20 portal. *)
Definition portal_ledger : Ledger MemStore.t := set_ram (put_portal ALICE (Some PORTAL_ERC20) empty_ram) funded.
Lemma portal_registered : portalKind ALICE portal_ledger = Some PORTAL_ERC20.
Proof. apply lookup_partial_alter_eq. Qed.
Lemma ram_free (l : Ledger MemStore.t) img r : ledger_wf l img -> profile (cfg (drive l)) <> ProfileSingleAsset ->
  ledger_wf (set_ram r l) img /\ profile (cfg (drive (set_ram r l))) <> ProfileSingleAsset.
Proof. done. Qed.
Lemma portal_spec : exists img, ledger_wf portal_ledger img /\ profile (cfg (drive portal_ledger)) <> ProfileSingleAsset.
Proof.
  destruct funded_spec as (img & (Hwf & _) & _ & _ & _ & _ & _ & Hc & _). exists img. apply ram_free; [exact Hwf|].
  rewrite Hc. exact small_tokens.
Qed.
#[global] Opaque portal_ledger.

Lemma valid_passer : valid_address MESSAGE_PASSER_ADDRESS.
Proof. split_and!; [reflexivity|by apply (bool_decide_eq_true_1 (Forall is_byte MESSAGE_PASSER_ADDRESS)); vm_compute|reflexivity]. Qed.
(** The message passer holds 40. *)
Lemma passer_funded : exists (l : Ledger MemStore.t) img, ledger_wf l img
  /\ account_view l img MESSAGE_PASSER_ADDRESS = (0, 40).
Proof.
  destruct funded_spec as (img & (Hwf & _) & _ & _ & Hoth & Hroom & _ & Hc & _).
  pose proof (credit_spec funded img MESSAGE_PASSER_ADDRESS 40 Hwf valid_passer ltac:(done)) as Hcr.
  rewrite Hoth in Hcr by discriminate. rewrite Hc in Hcr. specialize (Hcr (fits_small (0 + 40) ltac:(lia)) (Hroom _)).
  apply returns_elim in Hcr as ([] & l1 & _ & img1 & Hwf1 & ((Hc1 & _) & _) & Ha & _). exists l1, img1.
  split; [exact Hwf1|]. unfold account_view. rewrite Hc1, Ha. reflexivity.
Qed.
End Toy.
