(* ===== verification/DriveProperties.v ===== *)
(** * The properties of the accounts drive

    What the drive library promises its callers, over any store that reads and
    writes exactly: every operation on every outcome, the tables as finite
    maps, the header and the registry across a reopening, and the exactness of
    the stores themselves. Instances on the drive of [Fixture]. *)

From Stdlib Require Import ZArith Lia.
From S2P Require Import Prelude Sums Bytes Store DriveConfig DriveHeader RobinHood DriveTable Drive DriveTokens.
From S2P Require Import DriveFormat DriveRuns Evm Ledger Journal DriveJournal LedgerJournal LedgerSpec LedgerInv Boot Handlers Router HandlersJournal.
From S2P Require Import HandlersInv RouterSpec Effects BridgeSpec Fixture.

(** ** Tables *)
Section TableProperties.
Context {S : Type} {HS : Store S} {HR : StoreReads S} {HW : StoreWrites S} {HK : Keccak} {HKL : KeccakLaws}.

(** C17: on any drive at rest a table is the finite map from keys to records
    its bytes stand for. [#lookup] returns the record of the key or nothing;
    [#insert] of a new key below the load limit terminates and adds it,
    [#remove] of a found slot terminates and deletes it; each leaves a table at
    rest and touches no byte outside the table's slots and its counter. *)
Theorem table_refines_map (t : Table) (d : Drive S) img : holds (store d) img -> table_inv (seed (cfg d)) t img ->
  (forall key, returns (lookup t key) d (fun r d' => snd <$> r = table_map t img !! key /\ leaves d img d'))
  /\ (forall rec, zlen rec = t_slotSize t -> slot_live t rec = true -> table_map t img !! t_keyOf t rec = None ->
       count_at (t_countOff t) img < t_limit t ->
       returns (insert t rec) d (fun _ d' => table_becomes t d img (<[t_keyOf t rec := rec]> (table_map t img)) d'))
  /\ (forall key, is_Some (table_map t img !! key) ->
       returns (r ← lookup t key; match r with Some (i, _) => remove t i | None => mret tt end) d
         (fun _ d' => table_becomes t d img (delete key (table_map t img)) d')).
Proof.
  intros Hh Hinv. split_and!.
  - intros key. eapply returns_mono; [by apply lookup_inv|]. intros [[i s]|] d' [Hf Hl]; split; try done; simpl.
    by destruct Hf as (_ & _ & _ & _ & ->).
  - intros rec ? ? ? ?. by apply insert_inv.
  - intros key [s Hs]. apply returns_bind. eapply returns_mono; [by apply lookup_inv|].
    intros [[i s']|] d' [Hf (st & -> & Hst)]; [|unfold found_spec in Hf; congruence].
    destruct Hf as (Hi & Hat & Hlive & <- & _).
    eapply returns_mono; [apply (remove_inv t (with_store st d) img Hst Hinv i s'); done|].
    intros [] d1 (img' & (st1 & -> & Hst1) & Hrest). exists img'. split; [by exists st1|done].
Qed.

(** C18: the early exit of the Robin Hood probe is sound: [#lookup] returns the
    slot, and its index, that a scan of every slot of the table would. *)
Theorem probe_agrees_with_scan (t : Table) (d : Drive S) img key : holds (store d) img -> table_inv (seed (cfg d)) t img ->
  returns (lookup t key) d (fun r d' => leaves d img d'
    /\ r = prod_map Z.of_nat id <$> list_find (fun s => slot_live t s = true /\ t_keyOf t s = key) (slots t img)).
Proof.
  intros Hh Hinv. pose proof (ti_wf _ _ _ Hinv) as [Hlen _ Hnd _]. eapply returns_mono; [by apply lookup_inv|].
  intros [[i s]|] d' [Hf Hl]; split; try done; symmetry.
  - destruct Hf as (Hi & Hat & Hlive & Hk & _).
    replace (list_find _ _) with (Some (Z.to_nat i, s)); [simpl; by rewrite Z2Nat.id by lia|]. symmetry. apply list_find_Some.
    rewrite (slot_at_lookup (zeros (t_slotSize t))), Hat by lia. split_and!; try done.
    intros j y Hy Hj [Hly Hky]. assert (Z.of_nat j = i); [|lia].
    pose proof (lookup_lt_Some _ _ _ Hy) as Hjl. unfold zlen in *.
    assert (Hat' : t_at t (slots t img) (Z.of_nat j) = y) by (unfold slot_at; by rewrite Nat2Z.id, Hy).
    apply (nodup_unique (zeros (t_slotSize t)) (slot_live t) (t_keyOf t) (slots t img)); unfold zlen; rewrite ?Hat, ?Hat'; try done; try lia.
    congruence.
  - apply fmap_None, list_find_None, Forall_forall. intros s Hs [Hlive Hk]. unfold found_spec, table_map in Hf.
    assert (Hin : contents (slot_live t) (t_keyOf t) (slots t img) !! key = Some s); [|congruence].
    apply contents_Some; done.
Qed.
End TableProperties.

(** ** Accounts, tokens, headers *)
Section DriveProperties.
Context {S : Type} {HS : Store S} {HR : StoreReads S} {HW : StoreWrites S} {HK : Keccak} {HKL : KeccakLaws}.
Implicit Types d : Drive S.

(** C19: [setAccount] on every outcome. It stores the pair (the nonce modulo
    the record's nonce width), and changes no other account and no token
    balance; or it throws "overflow" because the record cannot hold the pair,
    or "tableFull" because the account is new and the table at its load limit,
    and the drive is as before. *)
Theorem account_write_outcomes d img addr a nonce balance : drive_wf d img -> toAddress addr = Val a ->
  isZero a = false -> Forall is_byte a ->
  wp (setAccount addr nonce balance) d (fun o d' => match o with
    | Val _ => record_holds (cfg d) nonce balance /\ account_room (cfg d) img a
        /\ account_written d img a (Some (nonce mod nonce_modulus (cfg d), balance)) d'
    | Exn e => leaves d img d' /\ (e = overflow_error /\ ~ record_holds (cfg d) nonce balance
        \/ e = err_tableFull /\ record_holds (cfg d) nonce balance /\ ~ account_room (cfg d) img a)
    | Diverge => False end).
Proof. apply setAccount_outcomes. Qed.

(** What [setAccount] stored is what [getAccount] reads: the round trip
    through the drive's bytes, for a nonce within the record's width. *)
Theorem account_round_trip d img addr a nonce balance : drive_wf d img -> toAddress addr = Val a ->
  isZero a = false -> Forall is_byte a -> fits_width (balance_width (cfg d)) balance ->
  0 <= nonce < nonce_modulus (cfg d) -> account_room (cfg d) img a ->
  returns (setAccount addr nonce balance;; getAccount addr) d (fun r _ => r = Some (mkAccount a nonce balance)).
Proof.
  intros Hwf Ha Hz Hb Hf Hn Hroom. apply returns_bind.
  eapply returns_mono; [apply setAccount_spec; try done; unfold nonce_modulus in Hn; intros Hc; rewrite Hc in Hn; lia|].
  intros [] d' (img' & (Hwf' & Hc' & _) & Hget & _).
  eapply returns_mono; [by apply getAccount_spec|]. intros r d'' [-> _]. rewrite Hc', Hget. simpl. by rewrite Z.mod_small.
Qed.

(** C21: [deleteAccount] on every outcome: no record, [false]; a record with a
    used nonce and no [force], "nonceProtected"; otherwise the record is gone
    and every other account and, outside the wide profile, every token balance
    is as before. *)
Theorem account_deletion_outcomes d img addr a force : drive_wf d img -> toAddress addr = Val a -> isZero a = false ->
  wp (deleteAccount addr force) d (fun o d' => match o with
    | Val b => (b = true /\ (exists nb, account_of (cfg d) img a = Some nb /\ (force = true \/ nb.1 = 0)) /\ account_removed d img a d')
        \/ (b = false /\ account_of (cfg d) img a = None /\ leaves d img d')
    | Exn e => e = err_nonceProtected /\ force = false
        /\ (exists nb, account_of (cfg d) img a = Some nb /\ nb.1 <> 0) /\ leaves d img d'
    | Diverge => False end).
Proof. apply deleteAccount_outcomes. Qed.

(** C22: [setTokenBalance] of a registered token, on every outcome: the holding
    has the value, every other holding and every account is as before; or
    "overflow", the value exceeds the token's declared width; or "tableFull",
    the holding is new and the table at its load limit; a throw leaves the
    drive as it was. *)
Theorem token_write_outcomes d img addr a id t v : drive_wf d img -> profile (cfg d) <> ProfileSingleAsset ->
  toAddress addr = Val a -> isZero a = false -> Forall is_byte a -> 0 <= id -> tokens_ d !! Z.to_nat id = Some t ->
  wp (setTokenBalance addr id v) d (fun o d' => match o with
    | Val _ => fits_width (tok_width t) v /\ token_room d img id a v /\ token_written d img id a v d'
    | Exn e => leaves d img d' /\ (e = overflow_error /\ ~ fits_width (tok_width t) v
        \/ e = err_tableFull /\ fits_width (tok_width t) v /\ ~ token_room d img id a v)
    | Diverge => False end).
Proof. apply setTokenBalance_outcomes. Qed.

(** C23: [registerToken] succeeds exactly when no check refuses it, and then
    appends the token under the next id: every account and balance is as
    before and the new token's balances are zero. A refusal is the first check
    that fails, in the code's order, and changes nothing. *)
Theorem registration_decided d img addr a w : drive_wf d img -> toAddress addr = Val a ->
  wp (registerToken addr w) d (fun o d' => match o with
    | Val id => registration_error (cfg d) (tokens_ d) a w = None /\ id = zlen (tokens_ d) /\ token_registered d img a w d'
    | Exn e => registration_error (cfg d) (tokens_ d) a w = Some e /\ d' = d
    | Diverge => False end).
Proof. apply registerToken_outcomes. Qed.

(** C24: a drive at rest survives a reopening: [open] on its bytes yields the
    same geometry, registry and column offsets, and writes nothing. *)
Theorem reopening_is_faithful d img : drive_wf d img ->
  returns open (store d) (fun d' s' => s' = store d' /\ cfg d' = cfg d
    /\ tokens_ d' = tokens_ d /\ colOff d' = colOff d /\ drive_wf d' img).
Proof. apply open_spec. Qed.

(** C25: [format] on a blank device: a configuration that validates yields an
    empty drive of that geometry, one that does not throws before any write.
    The three bounds are the ones the validation leaves to its caller. *)
Theorem format_outcomes config c (s : S) : normalizeConfig config = Val c ->
  u53 (registryCapacity c) -> slotSize c < 2 ^ 32 -> driveLength c <= MAX_SAFE_INTEGER ->
  holds s (zeros (driveLength c)) ->
  wp (format config) s (fun o s' => match o with
    | Val d => validateConfig c = Val tt /\ s' = store d /\ empty_drive c d (formatted_image c)
    | Exn e => validateConfig c = Exn e /\ s' = s
    | Diverge => False end).
Proof.
  intros Hc Hu Hs Hl Hh. destruct (validateConfig c) as [[]|e|] eqn:Hv.
  - eapply wp_returns; [by eapply format_spec|]. by intros d s' [-> He].
  - eapply wp_raises; [by eapply format_invalid|]. by intros s' ->.
  - by destruct (validateConfig_settles c).
Qed.

(** C26: any run of writes to a drive at rest - accounts set and deleted, tokens
    registered, balances set - whatever each of them returns or throws. Each
    ends, and afterwards every read answers with the last value a write that
    went through gave it (the nonce modulo its field), nothing wrapped or cut
    off and nothing of a write that threw: [getAccount] with the pair of the
    account, within the record's widths, and [getTokenBalance] with the
    holding, within the width the token declares. *)
Theorem writes_read_back ops d img : drive_wf d img ->
  Forall (fun op => forall a, toAddress (op_address op) = Val a -> Forall is_byte a) ops ->
  let run := run_drive ops d in let r := foldl (record_op (cfg d)) (recorded d img) run.1 in
  Forall (fun p => p.2 <> Diverge) run.1
  /\ (forall addr a, toAddress addr = Val a -> isZero a = false -> returns (getAccount addr) run.2 (fun b _ =>
       default (0, 0) ((fun x => (acc_nonce x, acc_balance x)) <$> b) = r_account r a
       /\ 0 <= (r_account r a).1 < nonce_modulus (cfg d) /\ fits_width (balance_width (cfg d)) (r_account r a).2))
  /\ (forall addr a id t, toAddress addr = Val a -> isZero a = false -> 0 <= id -> r_tokens r !! Z.to_nat id = Some t ->
       profile (cfg d) <> ProfileSingleAsset ->
       returns (getTokenBalance addr id) run.2 (fun v _ => v = r_balance r id a /\ fits_width (tok_width t) v)).
Proof.
  intros Hwf Hb run r. destruct (run_recorded ops d img _ _ (stands_recorded d img Hwf) Hb) as [Hend (img' & Hs)].
  split; [exact Hend|]. by apply (stands_reads _ img').
Qed.
End DriveProperties.

(** A validated configuration lays its regions out inside the drive, the
    header, the accounts table, the registry and the sparse table pairwise
    disjoint, with the load limits below the capacities. *)
Theorem validated_layout c : 0 <= registryCapacity c -> validateConfig c = Val tt -> geometry (driveLength c) c.
Proof. apply validateConfig_geometry. Qed.

(** [putBE] is exact: it writes the value big-endian in exactly [n] bytes,
    which [readBE] reads back, or throws "overflow" because the value does not
    fit. *)
Theorem putBE_exact n v : 0 <= n -> match putBE n v with
  | Val b => fits_width n v /\ zlen b = n /\ Forall is_byte b /\ readBE b = v
  | Exn e => ~ fits_width n v /\ e = overflow_error
  | Diverge => False end.
Proof.
  intros Hn. destruct (decide (fits_width n v)) as [Hf|Hf].
  - destruct (putBE_fits n v Hn Hf) as (b & -> & ?). done.
  - by rewrite putBE_overflow.
Qed.

(** C30: a [FileStore] is exact however short the transfers the operating
    system makes: its read loop terminates with the bytes asked for, or throws
    at the end of the file, and its write loop terminates having written
    exactly the bytes given. *)
Theorem file_store_exact (h : FileStore.handle) off : 0 <= off ->
  (forall len, 0 < len -> wp (FileStore.readAt off len) h (fun o h' => FileStore.content h' = FileStore.content h
     /\ match o with
        | Val b => off + len <= zlen (FileStore.content h) /\ b = slice off len (FileStore.content h)
        | Exn _ => zlen (FileStore.content h) < off + len
        | Diverge => False end))
  /\ (forall bs, off + zlen bs <= zlen (FileStore.content h) ->
       returns (FileStore.writeAt off bs) h (fun _ h' => FileStore.content h' = patch off bs (FileStore.content h))).
Proof.
  intros Ho. assert (Hh : holds h (FileStore.content h)) by done. split.
  - intros len Hl. destruct (Z.le_gt_cases (off + len) (zlen (FileStore.content h))) as [Hin|Hout].
    + eapply wp_returns; [apply (readAt_spec h (FileStore.content h) off len Hh); unfold fits; lia|]. by intros b h' [-> Hb].
    + destruct (readAt_guard h (FileStore.content h) off len Hh) as [e He]; [done|lia|unfold fits; lia|].
      eapply wp_raises; [exact He|]. done.
  - intros bs Hf. apply (writeAt_spec h (FileStore.content h) off bs Hh). unfold fits. pose proof (zlen_nonneg bs). lia.
Qed.

(** ** Instances *)
Import Toy.

(** The accounts table of a freshly formatted drive of sixteen slots. *)
Abbreviation blank_table := (accountsTable (header_config small)).
Lemma sixteen_table_inv : table_inv (seed (cfg blank_drive)) blank_table blank.
Proof. exact (dw_accounts _ _ blank_drive_wf). Qed.
Lemma blank_absent k : table_map blank_table blank !! k = None.
Proof. destruct blank_wf as (_ & Ha & _). by rewrite Ha. Qed.
Lemma blank_count : count_at OFF_LIVE_COUNT blank = 0.
Proof. rewrite (live_count empty_ledger blank (proj1 empty_inv)). destruct blank_wf as (_ & Ha & _). simpl in *. by rewrite Ha. Qed.
Lemma blank_account a : account_of (cfg blank_drive) blank a = None.
Proof. exact (empty_account a). Qed.
Lemma blank_room a : account_room (cfg blank_drive) blank a.
Proof. right. rewrite blank_count. reflexivity. Qed.
Lemma ALICE_nonzero : isZero ALICE = false.
Proof. reflexivity. Qed.
Definition ALICE_record : bytes := ALICE ++ zeros 44.

Lemma table_refines_map_witness : returns (insert blank_table ALICE_record) blank_drive (fun _ d' =>
  table_becomes blank_table blank_drive blank (<[t_keyOf blank_table ALICE_record := ALICE_record]> (table_map blank_table blank)) d').
Proof.
  refine (proj1 (proj2 (table_refines_map blank_table blank_drive blank blank_on_device sixteen_table_inv)) ALICE_record _ _ _ _).
  - reflexivity.
  - reflexivity.
  - apply blank_absent.
  - change (count_at OFF_LIVE_COUNT blank < 14). rewrite blank_count. reflexivity.
Defined.

Lemma probe_agrees_with_scan_witness : returns (lookup blank_table ALICE) blank_drive (fun r d' => leaves blank_drive blank d'
  /\ r = prod_map Z.of_nat id <$> list_find (fun s => slot_live blank_table s = true /\ t_keyOf blank_table s = ALICE) (slots blank_table blank)).
Proof. exact (probe_agrees_with_scan blank_table blank_drive blank ALICE blank_on_device sixteen_table_inv). Defined.

Lemma account_write_outcomes_witness : wp (setAccount (AddrBytes ALICE) 3 77) blank_drive (fun o d' => match o with
  | Val _ => record_holds (cfg blank_drive) 3 77 /\ account_room (cfg blank_drive) blank ALICE
      /\ account_written blank_drive blank ALICE (Some (3 mod nonce_modulus (cfg blank_drive), 77)) d'
  | Exn e => leaves blank_drive blank d' /\ (e = overflow_error /\ ~ record_holds (cfg blank_drive) 3 77
      \/ e = err_tableFull /\ record_holds (cfg blank_drive) 3 77 /\ ~ account_room (cfg blank_drive) blank ALICE)
  | Diverge => False end).
Proof.
  exact (account_write_outcomes blank_drive blank (AddrBytes ALICE) ALICE 3 77 blank_drive_wf eq_refl ALICE_nonzero
    (proj1 (proj2 valid_ALICE))).
Defined.

Lemma account_round_trip_witness :
  returns (setAccount (AddrBytes ALICE) 3 77;; getAccount (AddrBytes ALICE)) blank_drive (fun r _ => r = Some (mkAccount ALICE 3 77)).
Proof.
  refine (account_round_trip blank_drive blank (AddrBytes ALICE) ALICE 3 77 blank_drive_wf eq_refl ALICE_nonzero
    (proj1 (proj2 valid_ALICE)) _ _ (blank_room ALICE)).
  - apply fits_small. lia.
  - split; [discriminate|reflexivity].
Defined.

Lemma account_deletion_outcomes_witness : wp (deleteAccount (AddrBytes ALICE) false) blank_drive (fun o d' => match o with
  | Val b => (b = true /\ (exists nb, account_of (cfg blank_drive) blank ALICE = Some nb /\ (false = true \/ nb.1 = 0))
               /\ account_removed blank_drive blank ALICE d')
      \/ (b = false /\ account_of (cfg blank_drive) blank ALICE = None /\ leaves blank_drive blank d')
  | Exn e => e = err_nonceProtected /\ false = false
      /\ (exists nb, account_of (cfg blank_drive) blank ALICE = Some nb /\ nb.1 <> 0) /\ leaves blank_drive blank d'
  | Diverge => False end).
Proof. exact (account_deletion_outcomes blank_drive blank (AddrBytes ALICE) ALICE false blank_drive_wf eq_refl ALICE_nonzero). Defined.

(** On the drive of [stocked], which lists one token. *)
Lemma token_write_outcomes_witness : exists img, drive_wf (drive stocked) img
  /\ wp (setTokenBalance (AddrBytes BOB) 0 9) (drive stocked) (fun o d' => match o with
    | Val _ => fits_width 32 9 /\ token_room (drive stocked) img 0 BOB 9 /\ token_written (drive stocked) img 0 BOB 9 d'
    | Exn e => leaves (drive stocked) img d' /\ (e = overflow_error /\ ~ fits_width 32 9
        \/ e = err_tableFull /\ fits_width 32 9 /\ ~ token_room (drive stocked) img 0 BOB 9)
    | Diverge => False end).
Proof.
  destruct stocked_spec as (img & ((Hwf & _) & _) & _ & Hc & Ht & _). exists img. split; [exact Hwf|].
  refine (token_write_outcomes (drive stocked) img (AddrBytes BOB) BOB 0 (mkToken L1_TOKEN 32) 9 Hwf _ eq_refl eq_refl
    (proj1 (proj2 valid_BOB)) _ _).
  - rewrite Hc. exact small_tokens.
  - lia.
  - rewrite Ht. reflexivity.
Defined.

Lemma registration_decided_witness : wp (registerToken (AddrBytes L1_TOKEN) 32) blank_drive (fun o d' => match o with
  | Val id => registration_error (cfg blank_drive) (tokens_ blank_drive) L1_TOKEN 32 = None /\ id = zlen (tokens_ blank_drive)
      /\ token_registered blank_drive blank L1_TOKEN 32 d'
  | Exn e => registration_error (cfg blank_drive) (tokens_ blank_drive) L1_TOKEN 32 = Some e /\ d' = blank_drive
  | Diverge => False end).
Proof. exact (registration_decided blank_drive blank (AddrBytes L1_TOKEN) L1_TOKEN 32 blank_drive_wf eq_refl). Defined.

Lemma reopening_is_faithful_witness : returns open (store blank_drive) (fun d' s' => s' = store d' /\ cfg d' = cfg blank_drive
  /\ tokens_ d' = tokens_ blank_drive /\ colOff d' = colOff blank_drive /\ drive_wf d' blank).
Proof. exact (reopening_is_faithful blank_drive blank blank_drive_wf). Defined.

Lemma format_outcomes_witness : wp (format config) (MemStore.mk (zeros 16384)) (fun o s' => match o with
  | Val d => validateConfig small = Val tt /\ s' = store d /\ empty_drive small d (formatted_image small)
  | Exn e => validateConfig small = Exn e /\ s' = MemStore.mk (zeros 16384)
  | Diverge => False end).
Proof.
  destruct small_storable as (Hu & Hs & Hl).
  exact (format_outcomes config small (MemStore.mk (zeros 16384)) small_normalized Hu Hs Hl small_device).
Defined.

(** A token of eight bytes; a balance past them, one that fits; BOB's account,
    and its refused deletion. *)
Definition toy_writes : list DriveOp :=
  [OpRegister (AddrBytes L1_TOKEN) 8; OpSetBalance (AddrBytes ALICE) 0 (2 ^ 64); OpSetBalance (AddrBytes ALICE) 0 7;
   OpSetAccount (AddrBytes BOB) 3 77; OpDeleteAccount (AddrBytes BOB) false].
Lemma toy_writes_outcomes : (run_drive toy_writes blank_drive).1.*2
  = [Val true; Exn overflow_error; Val true; Val true; Exn err_nonceProtected].
Proof. vm_compute. reflexivity. Qed.
Lemma run_drive_ops {T} {HT : Store T} ops (d : Drive T) : (run_drive ops d).1.*1 = ops.
Proof. revert d. induction ops as [|op ops IH]; intros d; [done|]. simpl. by rewrite IH. Qed.
Lemma toy_writes_run : (run_drive toy_writes blank_drive).1
  = zip toy_writes [Val true; Exn overflow_error; Val true; Val true; Exn err_nonceProtected].
Proof.
  rewrite <- toy_writes_outcomes. rewrite <- (run_drive_ops toy_writes blank_drive) at 2.
  induction (run_drive toy_writes blank_drive).1 as [|[x y] l IH]; [done|]. simpl. by rewrite IH at 1.
Qed.
Lemma writes_read_back_witness : let d' := (run_drive toy_writes blank_drive).2 in
  returns (getAccount (AddrBytes BOB)) d' (fun b _ => default (0, 0) ((fun x => (acc_nonce x, acc_balance x)) <$> b) = (3, 77))
  /\ returns (getTokenBalance (AddrBytes ALICE) 0) d' (fun v _ => v = 7).
Proof.
  assert (Hb : Forall (fun op => forall a, toAddress (op_address op) = Val a -> Forall is_byte a) toy_writes).
  { repeat (apply Forall_cons; split; [intros a [= <-]; apply valid_ALICE || apply valid_BOB || apply (address_of_ok 0x7070 ltac:(lia))|]).
    apply Forall_nil_2. }
  destruct (writes_read_back toy_writes blank_drive blank blank_drive_wf Hb) as (_ & Ha & Ht). rewrite toy_writes_run in Ha, Ht.
  split.
  - eapply returns_mono; [exact (Ha (AddrBytes BOB) BOB eq_refl eq_refl)|]. intros b d' [-> _]. reflexivity.
  - eapply returns_mono; [apply (Ht (AddrBytes ALICE) ALICE 0 (mkToken L1_TOKEN 8)); try reflexivity; discriminate|].
    intros v d' [-> _]. reflexivity.
Defined.

Lemma validated_layout_witness : geometry 16384 small.
Proof. exact (validated_layout small ltac:(cbn; lia) small_valid). Defined.

Lemma putBE_exact_witness : putBE 2 513 = Val [2; 1] /\ readBE [2; 1] = 513 /\ putBE 1 256 = Exn overflow_error.
Proof.
  pose proof (putBE_exact 2 513 ltac:(lia)) as H. pose proof (putBE_exact 1 256 ltac:(lia)) as H'.
  split; [reflexivity|]. split; [exact (proj2 (proj2 (proj2 H)))|reflexivity].
Defined.

(** A device that transfers one byte a time. *)
Lemma file_store_exact_witness : returns (FileStore.writeAt 1 [8; 9]) (FileStore.mk [1; 2; 3; 4] (fun _ => 1) 0) (fun _ h' =>
  FileStore.content h' = patch 1 [8; 9] [1; 2; 3; 4]).
Proof.
  refine (proj2 (file_store_exact (FileStore.mk [1; 2; 3; 4] (fun _ => 1) 0) 1 ltac:(lia)) [8; 9] _).
  vm_compute. discriminate.
Defined.
