(* ===== verification/EvmProperties.v ===== *)
(** * The properties of the wire formats

    The withdrawal, relay-message and query encodings, the withdrawal nonces,
    the address alias and the comparison of address literals of evm-compat,
    given that viem's ABI codec inverts on well-typed values. *)

From Stdlib Require Import ZArith Lia Ascii.
From S2P Require Import Prelude Bytes Store DriveConfig DriveTable Drive DriveFormat Evm Ledger Handlers Router Fixture.

Section EvmProperties.
Context {HK : Keccak} {HV : Viem} {HVL : ViemLaws}.

(** C31: a withdrawal and a cross-domain message are recovered from what is
    emitted for them, the withdrawal also from under its notice framing; so
    two that differ are encoded differently. *)
Theorem message_round_trips n s t v g data : message_typed n s t v g data ->
  let w := mkWithdrawal n s t v g data in let m := mkMessage n s t v g data in
  decodeWithdrawal (encodeWithdrawal w) = Some w
  /\ (Forall is_byte (encodeWithdrawal w) ->
      decodeWithdrawalOutput (NOTICE_SELECTOR ++ encodeAbiParameters [TBytes] [VBytes (encodeWithdrawal w)]) = Some w)
  /\ decodeRelayMessage (encodeRelayMessage m) = Some m
  /\ (forall n' s' t' v' g' data', message_typed n' s' t' v' g' data' ->
      encodeRelayMessage (mkMessage n' s' t' v' g' data') = encodeRelayMessage m -> mkMessage n' s' t' v' g' data' = m).
Proof.
  intros Ht w m. assert (Hw : decodeWithdrawal (encodeWithdrawal w) = Some w) by (by apply decodeWithdrawal_encode).
  assert (Hm : decodeRelayMessage (encodeRelayMessage m) = Some m) by (by apply decodeRelayMessage_encode).
  split_and!; [done| |done|].
  2: { intros n' s' t' v' g' data' Ht' He. rewrite <- He, decodeRelayMessage_encode in Hm by done. congruence. }
  intros Hb. unfold decodeWithdrawalOutput.
  rewrite has_prefix_app, drop_app_length, abi_roundtrip; [done|]. by repeat constructor.
Qed.

(** A query decodes to the call it encodes, view or simulation, provided
    the two selectors differ. *)
Theorem query_round_trip c : EVM_CALL_SELECTOR <> EVM_SIMULATE_SELECTOR ->
  Forall2 has_type [VUint (dc_chainId c); VAddress (dc_from c); VAddress (dc_to c); VUint (dc_value c);
                    VBytes (dc_data c)] CALL_PARAMS ->
  decodeEvmCall (encodeEvmCall c) = Some c.
Proof. apply decodeEvmCall_encode. Qed.
End EvmProperties.

(** C33: a withdrawal's nonce is OP's version 1 over a counter that no other
    withdrawal of the chain has: it determines the input and the ordinal, and
    an ordinal that would collide is refused. *)
Theorem withdrawal_nonces_unique i o : 0 <= i < 2 ^ 208 -> 0 <= o ->
  match versionedWithdrawalNonce i o with
  | Val n => o < 2 ^ 32 /\ decodeVersionedNonce n = (i * 2 ^ 32 + o, 1)
      /\ (forall i' o', 0 <= i' < 2 ^ 208 -> 0 <= o' -> versionedWithdrawalNonce i' o' = Val n -> i' = i /\ o' = o)
  | Exn _ => 2 ^ 32 <= o
  | Diverge => False end.
Proof.
  intros Hi Ho. destruct (Z.lt_ge_cases o (2 ^ 32)) as [Hlt|Hge].
  - rewrite withdrawal_nonce_value by lia. split_and!; [done| |].
    + rewrite <- (versioned_roundtrip (i * 2 ^ 32 + o) 1) by lia. f_equal. unfold encodeVersionedNonce.
      rewrite lor_shift_add by lia. lia.
    + intros i' o' Hi' Ho' He. apply (withdrawal_nonce_inj i' o' i o _ Hi' Hi Ho' Ho He).
      rewrite withdrawal_nonce_value by lia. done.
  - unfold versionedWithdrawalNonce. change (Z.shiftl 1 32) with (2 ^ 32). by rewrite (proj2 (Z.leb_le _ _)).
Qed.

(** The L1-to-L2 alias adds the offset modulo 2^160, is a twenty-byte
    address again, and never maps two L1 addresses to one. *)
Theorem alias_is_injective a b : is_address a -> is_address b ->
  readBE (applyL1ToL2Alias a) = (readBE a + ALIAS_OFFSET) mod 2 ^ 160 /\ is_address (applyL1ToL2Alias a)
  /\ (applyL1ToL2Alias a = applyL1ToL2Alias b -> a = b).
Proof.
  intros [Hza Ha] [Hzb Hb]. destruct (applyL1ToL2Alias_value a Ha Hza) as (Hv & ? & ?).
  split_and!; [done|by split|by apply applyL1ToL2Alias_inj].
Qed.

(** Address literals compare as the bytes they spell, whatever their
    casing: so do the map keys made of them. *)
Theorem address_comparison s t a b : spells s a -> spells t b ->
  sameAddress s t = bool_decide (a = b) /\ (addrKey s = addrKey t <-> a = b).
Proof. intros Hs Ht. split; [by apply sameAddress_spells|by apply addrKey_spells]. Qed.

(** ** Instances *)
Import Toy.

Lemma message_round_trips_witness : decodeWithdrawal (encodeWithdrawal (mkWithdrawal 5 ALICE BOB 30 100000 [1; 2]))
  = Some (mkWithdrawal 5 ALICE BOB 30 100000 [1; 2]).
Proof.
  refine (proj1 (message_round_trips 5 ALICE BOB 30 100000 [1; 2] _)). split; [lia|].
  split; [exact (address_of_ok 0xa11ce ltac:(lia))|]. split; [exact (address_of_ok 0xb0b ltac:(lia))|].
  split; [lia|]. split; [lia|]. repeat constructor; discriminate.
Defined.

Lemma query_round_trip_witness : decodeEvmCall (encodeEvmCall (mkDecoded true 901 ALICE BOB 30 [1]))
  = Some (mkDecoded true 901 ALICE BOB 30 [1]).
Proof.
  refine (query_round_trip (mkDecoded true 901 ALICE BOB 30 [1]) _ _); [vm_compute; discriminate|].
  repeat apply Forall2_cons_2; [cbn; lia|exact (address_of_ok 0xa11ce ltac:(lia))|exact (address_of_ok 0xb0b ltac:(lia))|cbn; lia| |apply Forall2_nil_2].
  repeat constructor; discriminate.
Defined.

Lemma withdrawal_nonces_unique_witness : versionedWithdrawalNonce 7 2 = Val (2 ^ 240 + 7 * 2 ^ 32 + 2)
  /\ decodeVersionedNonce (2 ^ 240 + 7 * 2 ^ 32 + 2) = (7 * 2 ^ 32 + 2, 1).
Proof.
  split; [vm_compute; reflexivity|].
  exact (proj1 (proj2 (withdrawal_nonces_unique 7 2 ltac:(lia) ltac:(lia)))).
Defined.

Lemma alias_is_injective_witness : is_address (applyL1ToL2Alias ALICE) /\ applyL1ToL2Alias ALICE <> applyL1ToL2Alias BOB.
Proof.
  destruct (alias_is_injective ALICE BOB (address_of_ok 0xa11ce ltac:(lia)) (address_of_ok 0xb0b ltac:(lia))) as (_ & Ha & Hinj).
  split; [exact Ha|]. intros He. apply Hinj in He. discriminate He.
Defined.

Lemma address_comparison_witness : sameAddress "0xAbCd" "0xabcd" = true /\ addrKey "0xAbCd" = addrKey "0xabcd".
Proof.
  destruct (address_comparison "0xAbCd" "0xabcd" [0xab; 0xcd] [0xab; 0xcd]) as [Hs Hk].
  - exists ["A"; "b"; "C"; "d"]%char. split; reflexivity.
  - exists ["a"; "b"; "c"; "d"]%char. split; reflexivity.
  - split; [exact Hs|apply Hk; reflexivity].
Defined.
