(* ===== verification/AppProperties.v ===== *)
(** * The properties of the application

    The router, the ledger, the handlers and the boot path: what each promises,
    with an instance of every statement on the concrete chain of [Fixture]. *)

From Stdlib Require Import ZArith Lia.
From stdpp Require Import relations.
From S2P Require Import Prelude Sums Bytes Store DriveConfig DriveHeader RobinHood DriveTable Drive DriveTokens.
From S2P Require Import DriveFormat Evm Ledger Journal DriveJournal LedgerJournal LedgerOps LedgerSpec LedgerInv Boot Handlers Router HandlersJournal.
From S2P Require Import HandlersInv RouterSpec Effects BridgeSpec TokenBridge Registration Chain Fixture.

Section AppProperties.
Context {S App : Type} {HS : Store S} {HR : StoreReads S} {HW : StoreWrites S} {HG : StoreGuards S}
  {HK : Keccak} {HKL : KeccakLaws} {HV : Viem} {HI : InputLaws} {HC : Calldata} {HCL : CalldataLaws}.
Implicit Types w : World S App.


(** C2: a query, view or simulation, is answered and leaves the ledger exactly
    as it was. *)
Theorem queries_leave_no_trace (r : Router S App) lastBlock payload w img : router_sound r -> views_harmless r ->
  at_rest w img ->
  returns (inspect r lastBlock payload) w (fun _ w' => restored (ledger w) img (ledger w')).
Proof. intros Hr Hv [Hi _]. by apply inspect_spec. Qed.

(** C3: over any run of inputs and queries from a chain at rest, the chain is
    at rest after each of them, and a message relayed successfully is refused
    ever after without any change. *)
Theorem relayed_at_most_once (r : Router S App) w w' img m : router_sound r -> views_harmless r -> at_rest w img ->
  rtc (chain_step r) w w' -> messageStatus (hashCrossDomainMessageV1 m) (ledger w) = Some successful ->
  resting w' /\ forall ctx cd, crossDomain (ledger w') = Some cd -> decodeMessenger (tx_data ctx) = Val (relayMessage m) ->
    exists reason, messenger_advance ctx w' = (Val (ORevert (errorRevert reason)), w').
Proof.
  intros Hr Hv Hrest Hrun Hs. destruct (run_resting r Hr Hv w w' Hrun (ex_intro _ img Hrest)) as [Hrest' [Hm _]].
  split; [done|]. intros ctx cd Hcd Hd. eapply relayed_once; [done..|]. by apply Hm.
Qed.

(** C4: a signed transfer to an address nothing is routed at: the value moves,
    the fee is burned, the nonce steps once, no other account and no token
    balance changes, and the ether in circulation drops by the fee. *)
Theorem transfer_pays (r : Router S App) block chain data s raw sender to value w img : at_rest w img ->
  chain_ok r chain -> recoverSender s raw = Val (Some sender) ->
  let l := ledger w in let f := fee (ram l) in
  valid_address sender -> valid_address to -> resolve r to (Some block) None l = None ->
  0 <= value -> 0 <= f -> f + value <= (account_view l img sender).2 ->
  fits_width (balance_width (cfg (drive l))) ((account_view l img to).2 + value) ->
  (account_view l img sender).1 + 1 < nonce_modulus (cfg (drive l)) -> has_room l img sender -> has_room l img to ->
  returns (advanceSigned r block chain (account_view l img sender).1 (Some to) value data s raw) w
    (fun res w' => res = mkResult true [] Kaccept None
    /\ journal (ledger w') = [] /\ exists img', accounts_become l img (paid l img sender to value f) (ledger w') img'
    /\ ether_total (cfg (drive l)) img' = ether_total (cfg (drive l)) img - f).
Proof. intros [[Hwf _] _]. by apply signed_transfer. Qed.

(** C5: a signed transaction whose handler reverts or throws: everything it did
    is undone, the sender pays the fee and spends the nonce, and only reports
    are emitted, the last of them the revert data. *)
Theorem revert_keeps_only_the_charge (r : Router S App) ctx f w img data : router_sound r -> tx_ok ctx -> at_rest w img ->
  tx_isDeposit ctx = false ->
  let s := tx_sender ctx in let l := ledger w in let w0 := set_sink (mkSink [] 0 (inputIndex (tx_block ctx))) w in
  valid_address s -> 0 <= f <= (account_view l img s).2 ->
  (account_view l img s).1 + 1 < nonce_modulus (cfg (drive l)) -> has_room l img s ->
  revert_data (run_handler r ctx None w0).1 = Some data ->
  returns (execute r ctx (zlen (journal l)) (Some (s, f))) w (fun res w' =>
    res = mkResult true (reportsOnly (sink (run_handler r ctx None w0).2) ++ [Report (tagged TAG_REVERT data)]) Krevert None
    /\ only_charged w img s f w').
Proof. apply execute_reverts. Qed.

(** C6: a deposit whose handler reverts keeps its mint and nothing else. *)
Theorem mint_survives_revert (r : Router S App) block from to mint value data d w img : router_sound r -> at_rest w img ->
  let l := ledger w in let ctx := mkTx block from to value data true mint in
  let w1 := set_sink (mkSink [] 0 (inputIndex block)) (on_ledger (creditEther from mint) w).2 in
  tx_ok ctx -> valid_address from -> fits_width (balance_width (cfg (drive l))) ((account_view l img from).2 + mint) ->
  has_room l img from -> (run_handler r ctx (Some from) w1).1 = Val (ORevert d) ->
  returns (advanceDeposit r block from (Some to) mint value data) w (fun res w' =>
    res = mkResult true (reportsOnly (sink (run_handler r ctx (Some from) w1).2) ++ [Report (tagged TAG_REVERT d)]) Krevert None
    /\ journal (ledger w') = [] /\ ram (ledger w') ≡ ram l
    /\ exists img', ledger_wf (ledger w') img' /\ (forall a, account_view l img' a = minted l img from mint a)
      /\ (forall id a, token_balance (cfg (drive l)) (tokens_ (drive l)) img' id a
                       = token_balance (cfg (drive l)) (tokens_ (drive l)) img id a)).
Proof. apply deposit_reverts. Qed.

(** C7: a signed transaction whose nonce is not the account's, or whose sender
    cannot cover fee and value, is rejected and changes nothing. *)
Theorem inadmissible_rejected (r : Router S App) block chain nonce to value data s raw sender w img : at_rest w img ->
  chain_ok r chain -> recoverSender s raw = Val (Some sender) -> valid_address sender ->
  nonce <> (account_view (ledger w) img sender).1
  \/ (account_view (ledger w) img sender).2 < fee (ram (ledger w)) + value ->
  returns (advanceSigned r block chain nonce (Some to) value data s raw) w (refused w img).
Proof.
  intros [[Hwf _] _] Hc Hrec Hs Hbad.
  destruct (decide (nonce = (account_view (ledger w) img sender).1)) as [->|Hne]; [|by eapply nonce_rejected].
  destruct Hbad as [?|Hb]; [done|]. by eapply unaffordable_rejected.
Qed.

(** A message is accepted for relay exactly when it is a version 1 message
    that was not relayed, and it either comes from the registered L1 messenger
    for the first time carrying its value, or replays a failed message with no
    value. *)
Theorem relay_admission ctx cd m status : relay_refused ctx cd m status = None <->
  (decodeVersionedNonce (m_nonce m)).2 = MESSAGE_VERSION /\ status <> Some successful
  /\ (if decide (tx_isDeposit ctx = true /\ tx_sender ctx = l1MessengerAliased cd)
      then tx_value ctx = m_value m /\ status = None
      else tx_value ctx = 0 /\ status = Some failed).
Proof. apply relay_allowed. Qed.

(** C9: a relayed message whose dispatch throws: the input is accepted, the
    ledger is as before it but for the message's status, [failed], and the one
    output is the event that says so; and the message is not lost: from then on
    anyone can replay it, with no value. *)
Theorem failed_relay_replayable cd m hash w img e w1 : is_address (m_target m) -> ledger_inv (ledger w) img ->
  relay_attempt cd m hash w = (Exn e, w1) ->
  returns (relay cd m hash) w (fun o w' => o = OAccept
    /\ (exists l', restored (ledger w) img l' /\ ledger w' = (setMessageStatus hash failed l').2)
    /\ emissions (sink w') = emissions (sink w) ++ [relayed hash true]
    /\ forall ctx, (decodeVersionedNonce (m_nonce m)).2 = MESSAGE_VERSION -> tx_isDeposit ctx = false -> tx_value ctx = 0 ->
         relay_refused ctx cd m (messageStatus hash (ledger w')) = None).
Proof.
  intros Hm Hi Hrun. eapply returns_mono; [by eapply relay_fails|]. intros o w' (-> & l' & Hres & Hl & He).
  split_and!; [done|by exists l'|done|]. intros ctx Hver Hd Hv. apply relay_allowed. rewrite Hl, status_recorded.
  split_and!; [done..|]. rewrite decide_False; [done|]. rewrite Hd. by intros [? _].
Qed.

(** C10: the journal undoes any sequence of ledger operations, whatever their
    order, arguments and outcomes: rolled back to a mark taken before it, the
    drive is bit-for-bit what it was, the registry and façade caches are
    re-derived, and the RAM state reads as it did. *)
Theorem rollback_undoes_everything (ops : list LedgerOp) (l : Ledger S) img : ledger_wf l img ->
  returns (rollbackTo (zlen (journal l));; afterRollback) (run_ops ops l).2 (fun _ l' => restored l img l').
Proof.
  intros Hwf. eapply undone; [done|]. apply run_ops_tracks. destruct Hwf as [Hwf _]. apply Hwf.
Qed.

(** C11: the façade's [transfer], on every outcome, of any amount to any
    address. Accepted: the sender had the amount, and exactly the amount moved
    between the two balances, no supply and no account changed, and there is one
    Transfer event; a transfer of nothing changes nothing. Reverted: the sender
    was short, the ledger is as it was and nothing is emitted. Thrown out of,
    with nothing emitted: the sender has paid, and from there the recipient
    cannot be credited, because it is the zero address, or else its balance
    would pass the token's width, or else the drive has no room for a new
    balance, each with its own error; an amount that is accepted meets none of
    the three. *)
Theorem token_transfer_outcomes ctx w img f to v : ledger_wf (ledger w) img ->
  profile (cfg (drive (ledger w))) <> ProfileSingleAsset ->
  tokenByL2Address (tx_to ctx) (ledger w) = Some f -> decodeErc20 (tx_data ctx) = Val (transfer to v) ->
  valid_address (tx_sender ctx) -> is_address to -> 0 <= v ->
  wp (erc20_advance ctx) w (erc20_transferred ctx w img f to v).
Proof. apply erc20_transfer_spec. Qed.

(** C12: the message passer, on every outcome. A transaction without calldata
    asks to withdraw to its sender at the default gas limit, one that calls
    [initiateWithdrawal] to its target with its gas limit and data; the passer
    burns exactly the ether the withdrawal's notice announces, from its own
    balance and from the total, no other account changed, under the nonce made
    of the input's index and the ordinal in the input, version 1. Without the
    funds it throws, nothing changed and nothing emitted; any other calldata
    reverts with the world as it was. *)
Theorem withdrawal_burns_what_it_announces ctx w img : ledger_wf (ledger w) img ->
  valid_address (tx_to ctx) -> 0 <= tx_value ctx ->
  0 <= sink_input (sink w) < 2 ^ 208 -> 0 <= withdrawals (sink w) < 2 ^ 32 ->
  match asked_withdrawal ctx with
  | Some (target, gasLimit, data) => wp (passer_advance ctx) w (withdrawn ctx w img target gasLimit data)
  | None => passer_advance ctx w = (Val (ORevert (errorRevert "unknown function")), w)
  end.
Proof. apply passer_withdraws. Qed.

(** C13: an ERC-20 deposit mints exactly its amount to its beneficiary, of the
    token of its L1 address, registered first if it is new: every other balance,
    every other supply and every account is as it was, and the mint is
    announced. So for the registered portal's deposit, and for the one the
    L1 bridge sends through the messenger, whose sender, value and token pair
    are checked. Otherwise it throws for want of room, and says why. *)
Theorem erc20_deposits_mint w img : ledger_wf (ledger w) img -> profile (cfg (drive (ledger w))) <> ProfileSingleAsset ->
  (forall ctx kind, tx_isDeposit ctx = true -> portalKind (tx_sender ctx) (ledger w) = Some kind -> kind <> PORTAL_ETHER ->
     72 <= zlen (tx_data ctx) ->
     let a := addressAt (tx_data ctx) 0 in let b := addressAt (tx_data ctx) 20 in let v := uint256At (tx_data ctx) 40 in
     valid_address b -> v <> 0 ->
     wp (portal_advance ctx) w (fun o w' => match o with
       | Val OAccept => (exists id img', token_minted (ledger w) img a id b v (ledger w') img')
           /\ emissions (sink w') = emissions (sink w) ++ [log_notice (l2TokenAddress a) (transferLog ZERO_ADDRESS b v)]
       | Exn e => mint_refused (ledger w) a e
       | _ => False end))
  /\ (forall m cd localToken remoteToken from to v extra,
     decodeL2Bridge (m_message m) = Val (finalizeBridgeERC20 localToken remoteToken from to v extra) ->
     zlen remoteToken = 20 -> valid_address to -> v <> 0 ->
     wp (finalizeFromMessenger m cd) w (fun o w' => match o with
       | Val _ => m_sender m = l1Bridge cd /\ m_value m = 0 /\ localToken = l2TokenAddress remoteToken
           /\ (exists id img', token_minted (ledger w) img remoteToken id to v (ledger w') img')
           /\ emissions (sink w') = emissions (sink w) ++ [log_notice localToken (transferLog ZERO_ADDRESS to v);
                log_notice L2_BRIDGE_ADDRESS
                  (erc20BridgeLog ERC20_BRIDGE_FINALIZED_TOPIC localToken remoteToken from to v extra)]
       | Exn e => (m_sender m <> l1Bridge cd \/ m_value m <> 0 \/ localToken <> l2TokenAddress remoteToken) /\ w' = w
           \/ mint_refused (ledger w) remoteToken e
       | Diverge => False end)).
Proof.
  intros Hwf Hp. split.
  - intros ctx kind Hd Hk Hne Hz a b v Hb Hv. by eapply portal_deposit_spec.
  - intros m cd lt rt from to v extra Hdec Hr Hto Hv. by apply finalize_deposit_spec.
Qed.

(** A device that holds a drive boots to that drive: same geometry, same
    tokens, same bytes; the RAM state starts over. *)
Theorem formatted_device_boots (s : S) (d : Drive S) img : drive_wf d img -> holds s img ->
  returns create s (fun l s' => s' = inner (store (drive l)) /\ journal l = [] /\ ram l = empty_ram
    /\ cfg (drive l) = cfg d /\ tokens_ (drive l) = tokens_ d /\ ledger_wf l img).
Proof. apply create_formatted. Qed.

(** Registering a contract routes its address to it and shadows nothing;
    it is refused at a reserved address or one already routed; and the router
    stays sound if the contract's callbacks behave. *)
Theorem contract_registration (spec : ContractSpec S App) (r : Router S App) :
  (forall r', contract spec r = Val r' <->
     reserved (spec_address spec) = false /\ manifest_get (manifest r) (spec_address spec) = None
     /\ r' = mkRouter (manifest r ++ [(spec_address spec, RApp (contractHandler spec))]) (rcfg r))
  /\ (forall r' a block dep l, contract spec r = Val r' -> resolve r' a block dep l =
       if decide (a = spec_address spec) then Some (RApp (contractHandler spec)) else resolve r a block dep l)
  /\ (forall r', contract spec r = Val r' -> router_sound r -> views_harmless r ->
       (forall c len, geometry len c -> callbacks_track c len spec) -> callbacks_keep spec -> callbacks_harmless spec ->
       router_sound r' /\ views_harmless r').
Proof.
  split_and!.
  - intros r'. apply contract_val.
  - intros r' a block dep l Hc. by eapply contract_routes.
  - intros r' Hc Hr Hv Ht Hk Hh. split; [by eapply contract_sound|by eapply contract_views_harmless].
Qed.

(** A withdrawal through the standard bridge burns exactly what its message
    to L1 releases, from the caller and of the pair's token, and steps the
    message counter; a wrong pair or a short balance reverts with nothing
    emitted and the ledger as it was. *)
Theorem bridge_withdrawal_burns ctx cd w img localToken remoteToken to v gas extra : ledger_wf (ledger w) img ->
  profile (cfg (drive (ledger w))) <> ProfileSingleAsset -> valid_address (tx_sender ctx) -> 0 < v ->
  0 <= sink_input (sink w) < 2 ^ 208 -> 0 <= withdrawals (sink w) < 2 ^ 32 ->
  let n := 2 ^ 240 + sink_input (sink w) * 2 ^ 32 + withdrawals (sink w) in
  let m := release cd remoteToken localToken (tx_sender ctx) to v gas extra (msgNonce (ram (ledger w))) in
  returns (l2bridge_initiate ctx cd localToken remoteToken to v gas extra) w (fun o w' => match o with
    | OAccept => exists id, token_is (ledger w) id remoteToken /\ localToken = l2TokenAddress remoteToken
        /\ v <= token_balance (cfg (drive (ledger w))) (tokens_ (drive (ledger w))) img id (tx_sender ctx)
        /\ (exists img', token_burned (ledger w) img id (tx_sender ctx) v (ledger w') img')
        /\ emissions (sink w') = emissions (sink w) ++ [log_notice localToken (transferLog (tx_sender ctx) ZERO_ADDRESS v);
             log_notice L2_BRIDGE_ADDRESS
               (erc20BridgeLog ERC20_BRIDGE_INITIATED_TOPIC localToken remoteToken (tx_sender ctx) to v extra)]
           ++ sent_outputs cd m n
    | ORevert data => sink w' = sink w /\ unmoved (ledger w) img (ledger w')
        /\ ((data = errorRevert "wrong token pair" /\ ~ known_pair (ledger w) localToken remoteToken)
            \/ (data = errorRevert "amount exceeds balance" /\ exists id, token_is (ledger w) id remoteToken
                /\ token_balance (cfg (drive (ledger w))) (tokens_ (drive (ledger w))) img id (tx_sender ctx) < v))
    | _ => False end).
Proof. apply bridge_withdrawal_spec. Qed.

(** Registering a token: the next id, the derived façade address routed,
    the metadata recorded if given, every account and every balance unchanged,
    the new token's balances all zero. *)
Theorem token_registration (l : Ledger S) img a md : ledger_wf l img -> zlen a = 20 ->
  registration_error (cfg (drive l)) (tokens_ (drive l)) a 32 = None ->
  returns (ledger_registerToken a md) l (fun r l' => r = (zlen (tokens_ (drive l)), l2TokenAddress a)
    /\ exists img', ledger_registered l img a md l' img').
Proof. apply ledger_registerToken_spec. Qed.
End AppProperties.

(** ** Instances

    Each statement above on the concrete chain of [Fixture]. *)
Import Toy.


(** A simulated transfer of 30 from ALICE to BOB. *)
Definition simulated : bytes := encodeEvmCall (mkDecoded true 901 ALICE BOB 30 []).
Lemma queries_leave_no_trace_witness : exists img, at_rest (world funded) img
  /\ returns (inspect router None simulated) (world funded) (fun _ w' => restored (ledger (world funded)) img (ledger w')).
Proof.
  destruct funded_rest as [img Hrest]. exists img. split; [exact Hrest|].
  exact (queries_leave_no_trace router None simulated (world funded) img router_ok (proj2 (newRouter_sound rc)) Hrest).
Defined.

Lemma relayed_at_most_once_witness : resting (advance_input router block [2; 0; 30] (world relayed_ledger)).2
  /\ forall ctx cd, crossDomain (ledger (advance_input router block [2; 0; 30] (world relayed_ledger)).2) = Some cd ->
     decodeMessenger (tx_data ctx) = Val (relayMessage Toy.note) ->
     exists reason, messenger_advance ctx (advance_input router block [2; 0; 30] (world relayed_ledger)).2
       = (Val (ORevert (errorRevert reason)), (advance_input router block [2; 0; 30] (world relayed_ledger)).2).
Proof.
  destruct relayed_rest as [img Hrest].
  exact (relayed_at_most_once router (world relayed_ledger) _ img Toy.note router_ok
    (proj2 (newRouter_sound rc)) Hrest (rtc_once _ _ (step_input router block [2; 0; 30] _)) relayed_status).
Defined.

(** ALICE sends 30 to BOB, where nothing is routed. *)
Lemma transfer_pays_witness : exists img, at_rest (world funded) img
  /\ returns (advanceSigned router block (Some 901) 0 (Some BOB) 30 [] [1] [2; 0; 30]) (world funded)
       (fun res w' => res = mkResult true [] Kaccept None
       /\ journal (ledger w') = [] /\ exists img', accounts_become funded img (paid funded img ALICE BOB 30 0) (ledger w') img'
       /\ ether_total (cfg (drive funded)) img' = ether_total (cfg (drive funded)) img - 0).
Proof.
  destruct funded_spec as (img & Hi & Hj & Ha & Hoth & Hroom & Hr & Hc & Ht & Hf). exists img. split; [exact (conj Hi Hj)|].
  pose proof (transfer_pays router block (Some 901) [] [1] [2; 0; 30] ALICE BOB 30 (world funded) img (conj Hi Hj)) as H.
  cbn [world ledger] in H. rewrite Hr in H. unfold fee in H. cbn [empty_ram] in H.
  rewrite Ha, (Hoth BOB) in H by discriminate. cbn [fst snd] in H. apply H.
  - intros c [= <-]. reflexivity.
  - reflexivity.
  - exact valid_ALICE.
  - exact valid_BOB.
  - exact (resolve_free funded Hr Hf).
  - lia.
  - lia.
  - lia.
  - rewrite Hc. apply fits_small. lia.
  - rewrite Hc. vm_compute. reflexivity.
  - apply Hroom.
  - apply Hroom.
Defined.

(** ALICE, who is not the owner, calls the config contract. *)
Definition meddling (deposit : bool) : TxContext := mkTx block ALICE CONFIG_ADDRESS 0 [1; 5] deposit 0.
Lemma meddling_ok deposit : tx_ok (meddling deposit).
Proof. split; vm_compute; repeat constructor; discriminate. Qed.
Lemma meddling_reverts (w : World MemStore.t unit) dep deposit :
  (run_handler router (meddling deposit) dep w).1 = Val (ORevert (errorRevert "not the owner")).
Proof. reflexivity. Qed.

Lemma revert_keeps_only_the_charge_witness : exists img res, at_rest (world funded) img
  /\ returns (execute router (meddling false) (zlen (journal funded)) (Some (ALICE, 3))) (world funded)
       (fun res' w' => res' = res /\ only_charged (world funded) img ALICE 3 w').
Proof.
  destruct funded_spec as (img & Hi & Hj & Ha & _ & Hroom & _ & Hc & _). exists img. eexists. split; [exact (conj Hi Hj)|].
  apply (revert_keeps_only_the_charge router (meddling false) 3 (world funded) img (errorRevert "not the owner") router_ok
           (meddling_ok false) (conj Hi Hj) eq_refl valid_ALICE).
  - change (0 <= 3 <= (account_view funded img ALICE).2). rewrite Ha. cbn [snd]. lia.
  - change ((account_view funded img ALICE).1 + 1 < nonce_modulus (cfg (drive funded))). rewrite Ha, Hc. vm_compute. reflexivity.
  - apply Hroom.
  - exact (f_equal revert_data (meddling_reverts _ None false)).
Defined.

Lemma mint_survives_revert_witness : exists img res, at_rest (world funded) img
  /\ returns (advanceDeposit router block ALICE (Some CONFIG_ADDRESS) 100 0 [1; 5]) (world funded) (fun res' w' =>
    res' = res /\ journal (ledger w') = [] /\ ram (ledger w') ≡ ram funded
    /\ exists img', ledger_wf (ledger w') img' /\ (forall a, account_view funded img' a = minted funded img ALICE 100 a)
      /\ (forall id a, token_balance (cfg (drive funded)) (tokens_ (drive funded)) img' id a
                       = token_balance (cfg (drive funded)) (tokens_ (drive funded)) img id a)).
Proof.
  destruct funded_spec as (img & Hi & Hj & Ha & _ & Hroom & _ & Hc & _). exists img. eexists. split; [exact (conj Hi Hj)|].
  apply (mint_survives_revert router block ALICE CONFIG_ADDRESS 100 0 [1; 5] (errorRevert "not the owner") (world funded) img
           router_ok (conj Hi Hj)).
  - split; vm_compute; repeat constructor; discriminate.
  - exact valid_ALICE.
  - change (fits_width (balance_width (cfg (drive funded))) ((account_view funded img ALICE).2 + 100)).
    rewrite Ha, Hc. cbn [snd]. apply fits_small. lia.
  - apply Hroom.
  - exact (meddling_reverts _ (Some ALICE) true).
Defined.

(** Nonce 4 where the account's is 0. *)
Lemma inadmissible_rejected_witness : exists img, at_rest (world funded) img
  /\ returns (advanceSigned router block (Some 901) 4 (Some BOB) 30 [] [1] [2; 4; 30]) (world funded) (refused (world funded) img).
Proof.
  destruct funded_spec as (img & Hi & Hj & Ha & _). exists img. split; [exact (conj Hi Hj)|].
  apply (inadmissible_rejected router block (Some 901) 4 BOB 30 [] [1] [2; 4; 30] ALICE (world funded) img (conj Hi Hj)).
  - intros c [= <-]. reflexivity.
  - reflexivity.
  - exact valid_ALICE.
  - left. change (4 <> (account_view funded img ALICE).1). rewrite Ha. discriminate.
Defined.

(** A message with calldata for an address that is not the bridge. *)
Definition stray : CrossDomainMessage := mkMessage (Z.shiftl 1 240) BOB ALICE 0 0 [1].
Lemma stray_throws (w : World MemStore.t unit) h : relay_attempt paired stray h w = (Exn (JsError "unsupported relay target"), w).
Proof. reflexivity. Qed.
Lemma failed_relay_replayable_witness : exists img, ledger_inv (ledger (world funded)) img
  /\ returns (relay paired stray (hashCrossDomainMessageV1 stray)) (world funded) (fun o w' => o = OAccept
    /\ (exists l', restored (ledger (world funded)) img l'
        /\ ledger w' = (setMessageStatus (hashCrossDomainMessageV1 stray) failed l').2)
    /\ emissions (sink w') = emissions (sink (world funded)) ++ [relayed (hashCrossDomainMessageV1 stray) true]
    /\ forall ctx, (decodeVersionedNonce (m_nonce stray)).2 = MESSAGE_VERSION -> tx_isDeposit ctx = false -> tx_value ctx = 0 ->
         relay_refused ctx paired stray (messageStatus (hashCrossDomainMessageV1 stray) (ledger w')) = None).
Proof.
  destruct funded_rest as (img & Hi & _). exists img. split; [exact Hi|].
  exact (failed_relay_replayable paired stray _ (world funded) img _ _ (address_of_ok 0xa11ce ltac:(lia)) Hi (stray_throws _ _)).
Defined.

Lemma rollback_undoes_everything_witness : exists img, ledger_wf funded img
  /\ returns (rollbackTo (zlen (journal funded));; afterRollback)
       (run_ops [OpRegisterToken L1_TOKEN None; OpCreditToken BOB 0 7; OpDebitEther ALICE 400; OpSetFee 9] funded).2
       (fun _ l' => restored funded img l').
Proof.
  destruct funded_rest as (img & (Hwf & _) & _). exists img. split; [exact Hwf|].
  exact (rollback_undoes_everything [OpRegisterToken L1_TOKEN None; OpCreditToken BOB 0 7; OpDebitEther ALICE 400; OpSetFee 9]
           funded img Hwf).
Defined.

(** ALICE, who holds 500, sends BOB 5 of the token, and then 501. *)
Definition sending_of (v : Z) : TxContext := mkTx block ALICE (l2TokenAddress L1_TOKEN) 0 (0xa9 :: v :: BOB) false 0.
Abbreviation sending := (sending_of 5).
Lemma token_transfer_outcomes_witness : exists img, ledger_wf stocked img
  /\ wp (erc20_advance sending) (world stocked) (erc20_transferred sending (world stocked) img (mkFacade 0 L1_TOKEN 32) BOB 5)
  /\ returns (erc20_advance (sending_of 501)) (world stocked) (fun o w' =>
       o = ORevert (errorRevert "ERC20: transfer amount exceeds balance")
       /\ unmoved stocked img (ledger w') /\ sink w' = sink (world stocked)).
Proof.
  destruct stocked_spec as (img & (Hwf & _) & _ & Hc & Ht & Hf & Hb). exists img. split; [exact Hwf|].
  assert (H : forall v, 0 <= v -> wp (erc20_advance (sending_of v)) (world stocked)
    (erc20_transferred (sending_of v) (world stocked) img (mkFacade 0 L1_TOKEN 32) BOB v)).
  { intros v Hv. apply (token_transfer_outcomes (sending_of v) (world stocked) img (mkFacade 0 L1_TOKEN 32) BOB v Hwf).
    - change (profile (cfg (drive stocked)) <> ProfileSingleAsset). rewrite Hc. exact small_tokens.
    - change (tokenByL2Address (l2TokenAddress L1_TOKEN) stocked = Some (mkFacade 0 L1_TOKEN 32)).
      exact (token_listed stocked Ht Hf).
    - reflexivity.
    - exact valid_ALICE.
    - exact (address_of_ok 0xb0b ltac:(lia)).
    - exact Hv. }
  split; [exact (H 5 ltac:(lia))|]. eapply wp_mono; [|exact (H 501 ltac:(lia))].
  intros [[| | |]|e|] w' Hs; cbn in Hs; try exact (False_ind _ Hs).
  - destruct Hs as [Hle _]. change (501 <= token_balance (cfg (drive stocked)) (tokens_ (drive stocked)) img 0 ALICE) in Hle. lia.
  - destruct Hs as (_ & -> & Hu & Hk). split; [reflexivity|]. split; [exact Hu|exact Hk].
  - destruct Hs as [[_ Hle] _]. change (501 <= token_balance (cfg (drive stocked)) (tokens_ (drive stocked)) img 0 ALICE) in Hle. lia.
Defined.

(** The passer, which holds 40, is called with those 40: without calldata, with
    [initiateWithdrawal] to BOB, and with calldata it does not know. *)
Definition leaving (d : bytes) : TxContext := mkTx block ALICE MESSAGE_PASSER_ADDRESS 40 d false 0.
Lemma withdrawal_burns_what_it_announces_witness : exists (l : Ledger MemStore.t) img, ledger_wf l img
  /\ account_view l img MESSAGE_PASSER_ADDRESS = (0, 40)
  /\ (forall d target gasLimit data,
       (d, target, gasLimit, data) ∈ [([], ALICE, WITHDRAWAL_DEFAULT_GAS_LIMIT, []); ([0xc2; 21], BOB, 21, [7])] ->
       returns (passer_advance (leaving d)) (world l) (fun o w' => o = OAccept
       /\ emissions (sink w') = [] ++ withdrawal_outputs (mkWithdrawal (2 ^ 240 + 7 * 2 ^ 32 + 0) ALICE target 40 gasLimit data)
       /\ exists img', accounts_become l img (burned l img MESSAGE_PASSER_ADDRESS 40) (ledger w') img'
          /\ ether_total (cfg (drive l)) img' = ether_total (cfg (drive l)) img - 40))
  /\ passer_advance (leaving [9]) (world l) = (Val (ORevert (errorRevert "unknown function")), world l).
Proof.
  destruct passer_funded as (l & img & Hwf & Hv). exists l, img. split; [exact Hwf|]. split; [exact Hv|].
  assert (H : forall d, match asked_withdrawal (leaving d) with
    | Some (target, gasLimit, data) => wp (passer_advance (leaving d)) (world l) (withdrawn (leaving d) (world l) img target gasLimit data)
    | None => passer_advance (leaving d) (world l) = (Val (ORevert (errorRevert "unknown function")), world l)
    end).
  { intros d. apply (withdrawal_burns_what_it_announces (leaving d) (world l) img Hwf); [exact valid_passer|..].
    - cbn [leaving tx_value]. lia.
    - cbn [world sink sink_input]. lia.
    - cbn [world sink withdrawals]. lia. }
  split; [|exact (H [9])]. intros d target gasLimit data Hin.
  assert (Hd : asked_withdrawal (leaving d) = Some (target, gasLimit, data)).
  { apply elem_of_cons in Hin as [Hin|Hin]; [injection Hin; intros; subst; reflexivity|].
    apply list_elem_of_singleton in Hin. injection Hin; intros; subst; reflexivity. }
  specialize (H d). rewrite Hd in H. eapply wp_mono; [|exact H].
  intros [[| | |]|e|] w' Hs; cbn in Hs; try exact (False_ind _ Hs).
  - destruct Hs as (_ & _ & He & Hb). split; [reflexivity|]. split; [exact He|exact Hb].
  - destruct Hs as [Hlt _]. change ((account_view l img MESSAGE_PASSER_ADDRESS).2 < 40) in Hlt. rewrite Hv in Hlt. cbn in Hlt. lia.
Defined.

(** ALICE, the portal, deposits 300 of a new token for BOB. *)
Definition deposit_data : bytes := L1_TOKEN ++ BOB ++ zeros 30 ++ [1; 44].
Definition depositing : TxContext := mkTx block ALICE ZERO_ADDRESS 0 deposit_data true 0.
Lemma erc20_deposits_mint_witness : exists img, ledger_wf portal_ledger img
  /\ wp (portal_advance depositing) (world portal_ledger) (fun o w' => match o with
    | Val OAccept => (exists id img', token_minted portal_ledger img L1_TOKEN id BOB 300 (ledger w') img')
        /\ emissions (sink w') = [log_notice (l2TokenAddress L1_TOKEN) (transferLog ZERO_ADDRESS BOB 300)]
    | Exn e => mint_refused portal_ledger L1_TOKEN e
    | _ => False end).
Proof.
  destruct portal_spec as (img & Hwf & Hp). exists img. split; [exact Hwf|].
  refine (proj1 (erc20_deposits_mint (world portal_ledger) img Hwf Hp) depositing PORTAL_ERC20 eq_refl portal_registered _ _ valid_BOB _).
  - discriminate.
  - vm_compute. discriminate.
  - vm_compute. discriminate.
Defined.

Lemma formatted_device_boots_witness : returns create (MemStore.mk blank) (fun l s' => s' = inner (store (drive l))
  /\ journal l = [] /\ ram l = empty_ram /\ cfg (drive l) = header_config small /\ tokens_ (drive l) = [] /\ ledger_wf l blank).
Proof. exact (formatted_device_boots (MemStore.mk blank) blank_drive blank blank_drive_wf blank_on_device). Defined.

(** ALICE, who holds 500 of the token, withdraws 5 to BOB. *)
Lemma bridge_withdrawal_burns_witness : exists img, ledger_wf stocked img
  /\ returns (l2bridge_initiate sending paired (l2TokenAddress L1_TOKEN) L1_TOKEN BOB 5 200000 []) (world stocked) (fun o w' =>
    match o with
    | OAccept => exists id, token_is stocked id L1_TOKEN /\ exists img', token_burned stocked img id ALICE 5 (ledger w') img'
    | ORevert data => sink w' = mkSink [] 0 7
    | _ => False end).
Proof.
  destruct stocked_spec as (img & (Hwf & _) & _ & Hc & _). exists img. split; [exact Hwf|].
  assert (Hp : profile (cfg (drive (ledger (world stocked)))) <> ProfileSingleAsset).
  { change (profile (cfg (drive stocked)) <> ProfileSingleAsset). rewrite Hc. exact small_tokens. }
  refine (returns_mono _ _ _ _ (bridge_withdrawal_burns sending paired (world stocked) img (l2TokenAddress L1_TOKEN) L1_TOKEN
    BOB 5 200000 [] Hwf Hp valid_ALICE _ _ _) _).
  - lia.
  - cbn [world sink sink_input]. lia.
  - cbn [world sink withdrawals]. lia.
  - intros [|data|data|reason] w' H.
    + destruct H as (id & Hid & _ & _ & Hb & _). exists id. split; [exact Hid|exact Hb].
    + exact (proj1 H).
    + exact H.
    + exact H.
Defined.

Lemma token_registration_witness : exists img, ledger_wf funded img
  /\ returns (ledger_registerToken L1_TOKEN None) funded (fun r l' => r = (zlen (tokens_ (drive funded)), l2TokenAddress L1_TOKEN)
    /\ exists img', ledger_registered funded img L1_TOKEN None l' img').
Proof.
  destruct funded_spec as (img & (Hwf & _) & _ & _ & _ & _ & _ & Hc & Ht & _). exists img. split; [exact Hwf|].
  apply (token_registration funded img L1_TOKEN None Hwf eq_refl). rewrite Hc, Ht. exact registrable.
Defined.
