(* ===== verification/GuestProperties.v ===== *)
(** * The properties of the guest around the router

    The ABI drive, boot, the declaration of contracts, the rollup loop and what
    it yields with, the ether over a run, and the demo's counter, each with an
    instance on concrete devices. *)

From Stdlib Require Import ZArith Lia.
From stdpp Require Import relations.
From S2P Require Import Prelude Bytes Text Store Device DriveConfig DriveHeader RobinHood DriveTable Drive DriveTokens.
From S2P Require Import DriveFormat Evm Ledger Journal DriveJournal LedgerJournal LedgerOps LedgerSpec LedgerInv Boot Handlers Router HandlersJournal.
From S2P Require Import HandlersInv RouterSpec Effects Registration Chain Solvency SolvencySpec AbiDrive AbiDriveSpec Application ApplicationSpec Sync Fixture.

Section GuestProperties.
Context {S T App : Type} {HS : Store S} {HR : StoreReads S} {HW : StoreWrites S} {HG : StoreGuards S}
  {HT : Store T} {HTR : StoreReads T} {HTW : StoreWrites T} {HTG : StoreGuards T}
  {HK : Keccak} {HKL : KeccakLaws} {HV : Viem} {HI : InputLaws} {HC : Calldata} {HCL : CalldataLaws} {HCA : CalldataAmounts}
  {HB : BuiltinAbis} {HBL : BuiltinAbisLaws}
  {HBS : Backing S} {HFS : Flushes S} {HBT : Backing T} {HFT : Flushes T}.

(** C36: the ABI drive is an append-only list of entries with distinct
    addresses, over its bytes: [entries] returns the list, [abiOf] the ABI
    recorded for an address, and [register] appends a new entry, ignores one it
    has, and refuses, changing nothing, a different entry for a known address,
    one too many, or a blob the heap has no room for. *)
Theorem abi_drive_refines_list (d : AbiDrive T) img es e : abi_wf d img es -> entry_ok e ->
  returns abi_entries d (fun r d' => r = es /\ still d img d')
  /\ (forall a, returns (abiOf a) d (fun r d' => r = e_abi <$> entry_for es a /\ still d img d'))
  /\ wp (abi_register (e_address e) (e_kind e) (e_abi e)) d (fun o d' => match o with
    | Val _ => e ∈ es /\ still d img d'
        \/ e_address e ∉ e_address <$> es /\ (exists img', abi_wf d' img' (es ++ [e])) /\ same_geometry d d'
    | Exn x => abi_refused d es e x /\ still d img d'
    | Diverge => False end).
Proof.
  intros Hwf He. split_and!; [by apply entries_spec| |by apply register_spec].
  intros a. unfold abiOf. apply returns_bind. eapply returns_mono; [by apply entryOf_spec|].
  intros r d' [-> Hd]. by apply returns_ret.
Qed.

(** C37: boot on a device that holds nothing and one that holds no ABI drive
    yields an empty ledger at rest, the built-in routes, and an ABI drive that
    records the seven built-ins in order; boot again on those devices, whatever
    configuration it is given, changes no byte of either and yields the same
    drives. *)
Theorem boot_is_idempotent (s : S) (t : T) img rc acfg : holds s (zeros (driveLength devnet_config)) ->
  holds t img -> is_magic (slice 0 8 img) = false ->
  abi_geometry acfg -> ac_driveLength acfg <= zlen img -> ac_driveLength acfg < 2 ^ 32 -> builtins_fit acfg ->
  returns (boot (App := App) rc acfg) (s, t) (fun a p => ap_router a = newRouter rc /\ journal (ap_ledger a) = []
    /\ ram (ap_ledger a) = empty_ram /\ tokens_ (drive (ap_ledger a)) = []
    /\ exists limg aimg, ledger_inv (ap_ledger a) limg /\ (forall x, account_of (cfg (drive (ap_ledger a))) limg x = None)
    /\ abi_wf (ap_abiDrive a) aimg builtin_entries
    /\ forall rc2 acfg2, returns (boot (App := App) rc2 acfg2) p (fun a2 p2 =>
         holds p2.1 limg /\ holds p2.2 aimg /\ ledger_wf (ap_ledger a2) limg
         /\ cfg (drive (ap_ledger a2)) = cfg (drive (ap_ledger a)) /\ abi_wf (ap_abiDrive a2) aimg builtin_entries)).
Proof.
  intros Hs Ht Hm Hg Hlen Hu Hfit. eapply boot_returns; [by apply create_blank|].
  intros l s' (-> & Hj & Hram & Htok & limg & Hi & Hacc & _). eapply returns_mono; [by eapply assemble_blank|].
  intros a t' (aimg & (<- & Hr & -> & _) & Hwf & _). split_and!; [done..|]. exists limg, aimg. split_and!; [done..|].
  intros rc2 acfg2. eapply boot_returns.
  { eapply create_formatted; [apply unjournaled_wf, Hi|]. destruct Hi as [[[Hh] _] _]. exact Hh. }
  intros l2 s2 (-> & _ & _ & Hc & _ & Hwf2). eapply returns_mono; [by apply (assemble_again _ aimg builtin_entries)|].
  intros a2 t2 [(<- & _ & -> & Hh2) Hst]. split_and!; [|done..|by eapply still_wf].
  destruct Hwf2 as [[Hh] _]. exact Hh.
Qed.

(** C38: declaring a contract, on every outcome: it is routed and its ABI
    recorded; or the router refuses and nothing changed; or the ABI drive
    refuses, unchanged, and the contract is routed all the same. *)
Theorem contract_declaration_outcomes (spec : ContractSpec S App) (a : Application S T App) img es :
  abi_wf (ap_abiDrive a) img es -> is_address (spec_address spec) -> json_text (spec_abi spec) ->
  wp (Application_contract spec) a (declared spec a img es).
Proof. apply contract_declared. Qed.

(** C39: one turn of the rollup loop, against what the router makes of the
    request. An accepted input hands all its outputs to the device, in order,
    after what it already had, reports only if it reverted; a rejected one
    hands it the byte 0x02 if it has a reason (a byte, not the reason, which
    goes to the console) and restores the ledger; a query hands it exactly the
    reports of its answer and restores the ledger. The verdict returned is the
    router's, the ledger and the application's variables are as the router left
    them, and whatever the verdict, when the turn yields the ledger's bytes are
    in the machine. An input the router throws out of hands nothing over. *)
Theorem requests_delivered (r : Router S App) req payload (g : Guest S App) img : router_sound r -> views_harmless r ->
  at_rest (g_world g) img ->
  wp (advance_callback r req) g (fun o g' => delivered r req g img o g'
       /\ match o with Val _ => flushed (g_world g') | _ => True end)
  /\ wp (inspect_callback r payload) g (fun o g' => query_delivered r payload g img o g' /\ flushed (g_world g')).
Proof. intros Hr Hv Hrest. split; [by apply advance_flushes|by apply inspect_flushes]. Qed.

(** C28: at every yield of the rollup loop, from its first request on, whoever
    opens the bytes in the machine (the host over the machine's memory, or the
    next boot over the device) finds the guest's drives: the accounts, nonces
    and tokens of a ledger at rest, and the contracts the application declared
    before it started the loop. *)
Theorem yields_are_readable {R} `{HRS : Store R} `{HRR : !StoreReads R}
    (r : Router S App) (a : Application S T App) img aimg es (started : App) :
  router_sound r -> views_harmless r -> ledger_inv (ap_ledger a) img -> journal (ap_ledger a) = [] ->
  abi_wf (ap_abiDrive a) aimg es ->
  returns run_start a (fun _ a' => forall g, rtc (turn r) (guest_of a' started) g ->
    exists img', at_rest (g_world g) img'
      /\ (forall s : R, holds s (ledger_machine (ledger (g_world g))) -> returns open s (fun d _ =>
            tokens_ d = tokens_ (drive (ledger (g_world g))) /\ forall x, valid_address x ->
            returns (getAccount (AddrBytes x)) d (fun b _ => account_pair b = account_view (ledger (g_world g)) img' x)))
      /\ (forall s : R, holds s (abi_machine (ap_abiDrive a')) ->
            returns abi_open s (fun d _ => returns abi_entries d (fun l _ => l = es)))).
Proof.
  intros Hr Hv Hi Hj Hwf. eapply returns_mono; [by apply (run_start_spec a img aimg es)|].
  intros u a' (_ & _ & Hc & Hwf' & Hm) g Hrun.
  destruct (turns_flushed r _ _ Hr Hv Hrun (ex_intro _ img (Hc started))) as [img' Hc'].
  exists img'. split; [apply Hc'|]. split; intros s Hs; [exact (machine_accounts (g_world g) img' s Hc' Hs)|].
  rewrite Hm in Hs. exact (machine_contracts (ap_abiDrive a') aimg es s Hwf' Hs).
Qed.

(** C40: the demo. Its router is sound with the counter routed; a signed
    [increment] adds one to the count, costs the sender the fee and a nonce and
    changes no other account; a query returns the count; and a simulated
    [increment] adds one to it too: the variable is not part of what a
    simulation rolls back. *)
Theorem demo_counter decode abi rc : exists r, contract (counter (S := S) decode abi) (newRouter rc) = Val r
  /\ router_sound r /\ views_harmless r
  /\ (forall block chain data args s raw sender (w : World S Z) img, at_rest w img -> chain_ok r chain ->
       recoverSender s raw = Val (Some sender) -> decode data = Val ("increment", args) -> valid_address sender ->
       0 <= fee (ram (ledger w)) <= (account_view (ledger w) img sender).2 ->
       (account_view (ledger w) img sender).1 + 1 < nonce_modulus (cfg (drive (ledger w))) ->
       has_room (ledger w) img sender ->
       returns (advanceSigned r block chain (account_view (ledger w) img sender).1 (Some COUNTER_ADDRESS) 0 data s raw) w
         (fun res w' => res = mkResult true [] Kaccept None /\ app w' = app w + 1 /\ journal (ledger w') = []
          /\ exists img', accounts_become (ledger w) img
               (charged (ledger w) img sender (fee (ram (ledger w)))) (ledger w') img'))
  /\ (forall payload c args lastBlock (w : World S Z), decodeEvmCall payload = Some c -> dc_to c = COUNTER_ADDRESS ->
       (dc_simulate c = false -> decode (dc_data c) = Val ("count", args) -> exists w', inspect r lastBlock payload w
          = (Val (mkInspect true [tagged TAG_RETURN (encodeFunctionResult "count" [VUint (app w)])]), w'))
       /\ (dc_simulate c = true -> dc_value c = 0 -> decode (dc_data c) = Val ("increment", args) ->
          app (inspect r lastBlock payload w).2 = app w + 1)).
Proof.
  destruct (demo_routes (S := S) decode abi rc) as (r & Hc & Hs & Hv & _ & Hr). exists r. split_and!; [done..| |].
  - intros block chain data args s raw sender w img [[Hwf _] _] Hch Hrec Hd Hval Hf Hn Hroom.
    by eapply signed_increment.
  - intros payload c args lb w Hp Hto. split; [by intros; eapply count_query|by intros; eapply simulated_increment].
Qed.

(** C8: nobody creates ether. Whatever contracts an application declared,
    provided their callbacks credit no more than they debit, and whatever
    inputs and queries arrive: the ledger is at rest after the run, and holds
    at most the ether it started with and what the deposits among the inputs
    minted. Transfers, fees, withdrawals, portal deposits, relayed messages,
    reverts, rejections and exceptions only move it or burn it. *)
Theorem ether_only_from_deposits (rc : RouterConfig) (r : Router S App) (qs : list Request) (w : World S App) img :
  hosts rc r -> at_rest w img -> 0 <= fee (ram (ledger w)) ->
  let w' := foldl (serve r) w qs in exists img', at_rest w' img' /\ 0 <= fee (ram (ledger w'))
    /\ ether_total (cfg (drive (ledger w'))) img' <= ether_total (cfg (drive (ledger w))) img + minted_over qs.
Proof.
  intros (Hr & Hv & Hs)%hosts_router Hrest Hf w'. apply (served_start r Hr Hs Hv qs (ether (ledger w) img) w img).
  by split_and!.
Qed.
End GuestProperties.

(** ** Instances

    Seven short ABIs, a blank device of 16 KiB, and the counter under a decoder
    of one-byte selectors. *)
Import Toy.

Definition toy_abi : text := ascii_text "[]".
#[local] Instance toy_abis : BuiltinAbis := {|
  registryAbi := toy_abi; bridgeAbi := toy_abi; configAbi := toy_abi; l1BlockAbi := toy_abi;
  l2CrossDomainMessengerAbi := toy_abi; l2StandardBridgeAbi := toy_abi; messagePasserAbi := toy_abi |}.
Lemma toy_json : json_text toy_abi.
Proof. split; [|discriminate]. repeat constructor; unfold scalar; vm_compute; intuition discriminate. Qed.
#[local] Instance toy_abis_laws : BuiltinAbisLaws.
Proof. constructor. repeat (apply Forall_cons; split; [exact toy_json|]). apply Forall_nil_2. Qed.

Definition toy_abi_config : AbiDriveConfig := mkAbiConfig 4096 16 1024.
Lemma toy_fit : abi_geometry toy_abi_config /\ builtins_fit toy_abi_config.
Proof. unfold abi_geometry, builtins_fit. split; split; vm_compute; intuition discriminate. Qed.
Lemma toy_unmarked : is_magic (slice 0 8 (zeros 16384)) = false.
Proof. vm_compute. reflexivity. Qed.
Lemma toy_length : zlen (zeros 16384) = 16384.
Proof. rewrite zlen_zeros; lia. Qed.

Definition toy_selector (d : bytes) : outcome (string * list AbiValue) :=
  match d with [1] => Val ("increment", []) | [2] => Val ("count", []) | _ => Exn (JsError "unknown function") end.
Definition toy_counter : ContractSpec MemStore.t Z := counter toy_selector toy_abi.

Lemma toy_booted : exists (a : Application MemStore.t MemStore.t Z) img, abi_wf (ap_abiDrive a) img builtin_entries.
Proof.
  destruct toy_fit as [Hg Hf].
  pose proof (assemble_blank (App := Z) (MemStore.mk (zeros 16384)) (zeros 16384) funded rc toy_abi_config small_device toy_unmarked
    Hg ltac:(rewrite toy_length; cbn [ac_driveLength toy_abi_config]; lia) ltac:(cbn [ac_driveLength toy_abi_config]; lia) Hf) as Hb.
  apply returns_elim in Hb as (a & s' & _ & img' & _ & Hwf & _). exists a, img'. exact Hwf.
Qed.

Lemma boot_is_idempotent_witness : exists a : Application MemStore.t MemStore.t Z,
  ap_router a = newRouter rc /\ exists img, abi_wf (ap_abiDrive a) img builtin_entries.
Proof.
  destruct toy_fit as [Hg Hf].
  pose proof (boot_is_idempotent (App := Z) (MemStore.mk (zeros (driveLength devnet_config))) (MemStore.mk (zeros 16384)) (zeros 16384)
    rc toy_abi_config blank_device small_device toy_unmarked Hg
    ltac:(rewrite toy_length; cbn [ac_driveLength toy_abi_config]; lia) ltac:(cbn [ac_driveLength toy_abi_config]; lia) Hf) as Hb.
  apply returns_elim in Hb as (a & p & _ & Hr & _ & _ & _ & limg & aimg & _ & _ & Hwf & _).
  exists a. split; [exact Hr|]. exists aimg. exact Hwf.
Defined.

(** ALICE's ABI, new to the booted drive. *)
Definition toy_entry : AbiEntry := mkEntry ALICE KIND_APP toy_abi.
Lemma toy_entry_ok : entry_ok toy_entry.
Proof. destruct toy_json. constructor; [exact (address_of_ok 0xa11ce ltac:(lia))|split; reflexivity || discriminate|assumption..]. Qed.
Lemma abi_drive_refines_list_witness : exists (d : AbiDrive MemStore.t) img, abi_wf d img builtin_entries
  /\ returns abi_entries d (fun r d' => r = builtin_entries /\ still d img d')
  /\ wp (abi_register ALICE KIND_APP toy_abi) d (fun o d' => match o with
    | Val _ => toy_entry ∈ builtin_entries /\ still d img d'
        \/ ALICE ∉ e_address <$> builtin_entries /\ (exists img', abi_wf d' img' (builtin_entries ++ [toy_entry])) /\ same_geometry d d'
    | Exn x => abi_refused d builtin_entries toy_entry x /\ still d img d'
    | Diverge => False end).
Proof.
  destruct toy_booted as (a & img & Hwf). exists (ap_abiDrive a), img. split; [exact Hwf|].
  destruct (abi_drive_refines_list (ap_abiDrive a) img builtin_entries toy_entry Hwf toy_entry_ok) as (He & _ & Hr).
  split; [exact He|exact Hr].
Defined.

Lemma contract_declaration_outcomes_witness : exists (a : Application MemStore.t MemStore.t Z) img,
  wp (Application_contract toy_counter) a (declared toy_counter a img builtin_entries).
Proof.
  destruct toy_booted as (a & img & Hwf). exists a, img.
  exact (contract_declaration_outcomes toy_counter a img builtin_entries Hwf
    (address_of_ok 0xc0de000000000000000000000000000000000001 ltac:(lia)) toy_json).
Defined.

(** An application's own input, and a query that is none. *)
Definition toy_request : AdvanceRequest := mkRequest 901 ZERO_ADDRESS 1 0 0 7 [9].
Definition toy_guest : Guest MemStore.t unit := mkGuest (world funded) None [Notice [5]].
Lemma requests_delivered_witness : exists img, at_rest (world funded) img
  /\ wp (advance_callback router toy_request) toy_guest (fun o g' => o = Val true
       /\ g_device g' = [Notice [5]; Report (tagged TAG_APP [9])] /\ flushed (g_world g'))
  /\ wp (inspect_callback router [9]) toy_guest (fun o g' => o = Val false
       /\ g_device g' = [Notice [5]; Report (tagged TAG_REVERT (errorRevert "not an EvmCall query"))] /\ flushed (g_world g')).
Proof.
  destruct funded_rest as [img Hrest]. exists img. split; [exact Hrest|].
  destruct (requests_delivered router toy_request [9] toy_guest img router_ok (proj2 (newRouter_sound rc)) Hrest) as [Ha Hq].
  split.
  - eapply wp_mono; [|exact Ha]. intros o g' [[_ Hd] Hf]. cbv beta zeta in Hd.
    change (advance_input router (blockContext toy_request) (req_payload toy_request) (g_world toy_guest)) with
      (Val (mkResult true [Report (tagged TAG_APP [9])] Kopaque None), world funded) in Hd.
    cbn [fst] in Hd. destruct Hd as (-> & Hd & _). split; [reflexivity|]. split; [exact Hd|exact Hf].
  - eapply wp_mono; [|exact Hq]. intros o g' [(_ & _ & res & w1 & Hrun & -> & Hd & _) Hf].
    change (inspect router (g_lastBlock toy_guest) [9] (g_world toy_guest)) with
      (Val (mkInspect false [tagged TAG_REVERT (errorRevert "not an EvmCall query")]), world funded) in Hrun.
    injection Hrun as <- _. split; [reflexivity|]. split; [exact Hd|exact Hf].
Defined.

(** A machine with two blank devices, whose kernel moves 512 bytes at a time and
    writes nothing back before it is asked to. *)
Definition toy_env (name : string) : option string := if bool_decide (name = "ABI_DRIVE") then Some "/dev/pmem7" else None.
Definition toy_devices : Devices := mkDevices
  (<["/dev/pmem1" := zeros (driveLength devnet_config)]> {["/dev/pmem7" := zeros 16384]}) (fun _ => 512) (fun _ m _ => m).
Definition toy_options : ApplicationOptions := mkOptions rc None None (Some toy_abi_config).
Definition memory (base : Z) (img : bytes) : MachineStore.t :=
  MachineStore.mk (fun address len => Val (slice (address - base) len img)) base.
Lemma memory_parked base img : parked (memory base img) img.
Proof. intros off len _. simpl. by replace (base + off - base) with off by lia. Qed.

Lemma booted_on_devices : exists (a : Application Device.t Device.t Z) img aimg,
  boot_devices toy_env toy_devices toy_options = Val a /\ ledger_inv (ap_ledger a) img /\ journal (ap_ledger a) = []
  /\ abi_wf (ap_abiDrive a) aimg builtin_entries.
Proof.
  destruct (open_device toy_devices "/dev/pmem1" (zeros (driveLength devnet_config)) eq_refl) as (s & Hs & Hhs & _).
  destruct (open_device toy_devices "/dev/pmem7" (zeros 16384) eq_refl) as (t & Ht & Hht & _). destruct toy_fit as [Hg Hf].
  pose proof (boot_is_idempotent (App := Z) s t (zeros 16384) rc toy_abi_config Hhs Hht toy_unmarked Hg
    ltac:(rewrite toy_length; cbn [ac_driveLength toy_abi_config]; lia) ltac:(cbn [ac_driveLength toy_abi_config]; lia) Hf) as Hb.
  apply returns_elim in Hb as (a & p & Hrun & _ & Hj & _ & _ & limg & aimg & Hi & _ & Hwf & _).
  exists a, limg, aimg. split_and!; [|exact Hi|exact Hj|exact Hwf].
  rewrite (boot_devices_opened toy_env toy_devices toy_options s t Hs Ht).
  change (default DEVNET_ABI_DRIVE_CONFIG (opt_abiDriveConfig toy_options)) with toy_abi_config.
  change (opt_router toy_options) with rc. by rewrite Hrun.
Qed.

Lemma yields_are_readable_witness : exists (a : Application Device.t Device.t Z) img,
  boot_devices toy_env toy_devices toy_options = Val a /\ ledger_inv (ap_ledger a) img
  /\ returns run_start a (fun _ a' => forall g, rtc (turn (newRouter rc)) (guest_of a' 0) g ->
       exists img', at_rest (g_world g) img'
         /\ returns abi_open (memory 0x80000000 (abi_machine (ap_abiDrive a'))) (fun d _ =>
              returns abi_entries d (fun l _ => l = builtin_entries))).
Proof.
  destruct booted_on_devices as (a & img & aimg & Hb & Hi & Hj & Hwf). exists a, img. split; [exact Hb|]. split; [exact Hi|].
  destruct (newRouter_sound (S := Device.t) (App := Z) rc) as [Hr Hv].
  eapply returns_mono; [exact (yields_are_readable (R := MachineStore.t) (newRouter rc) a img aimg builtin_entries 0 Hr Hv Hi Hj Hwf)|].
  intros [] a' Hy g Hrun. destruct (Hy g Hrun) as (img' & Hrest & _ & Habi). exists img'. split; [exact Hrest|].
  apply Habi. apply memory_parked.
Defined.

(** The count is 41, and ALICE increments it. *)
Lemma demo_counter_witness : exists r img, contract toy_counter (newRouter rc) = Val r
  /\ returns (advanceSigned r block (Some 901) 0 (Some COUNTER_ADDRESS) 0 [1] [1] [2; 0; 30])
       (mkWorld funded (mkSink [] 0 7) None 41) (fun res w' => res = mkResult true [] Kaccept None /\ app w' = 42
       /\ exists img', accounts_become funded img (charged funded img ALICE 0) (ledger w') img').
Proof.
  destruct funded_spec as (img & Hi & Hj & Ha & _ & Hroom & Hr & Hc & _).
  destruct (demo_counter (S := MemStore.t) toy_selector toy_abi rc) as (r & Hreg & _ & _ & Hinc & _).
  exists r, img. split; [exact Hreg|].
  pose proof (Hinc block (Some 901) [1] [] [1] [2; 0; 30] ALICE (mkWorld funded (mkSink [] 0 7) None 41) img (conj Hi Hj)) as H.
  cbn [ledger] in H. rewrite Ha, Hr in H. unfold fee in H. cbn [empty_ram fst snd] in H.
  eapply returns_mono; [apply H|].
  - apply contract_val in Hreg as (_ & _ & ->). intros c [= <-]. reflexivity.
  - reflexivity.
  - reflexivity.
  - exact valid_ALICE.
  - lia.
  - rewrite Hc. vm_compute. reflexivity.
  - apply Hroom.
  - intros res w' (-> & Happ & _ & Hb). split; [reflexivity|]. split; [exact Happ|exact Hb].
Defined.

#[local] Instance toy_amounts : CalldataAmounts.
Proof.
  split; intros d; simpl.
  - intros f. repeat case_match; intros; simplify_eq; lia.
  - intros m. repeat case_match; try done. by intros [= <-].
  - intros from to v x. by repeat case_match.
Qed.

Lemma counter_behaves : behaves toy_counter.
Proof.
  split; [intros; by apply demo_tracks|apply demo_keeps|apply demo_harmless|].
  intros name cb. simpl. case_match; [|done]. intros [= <-] args ctx _. by apply grants_modify.
Qed.

(** A transfer of 30 from ALICE to BOB, a query, and a deposit of 100. *)
Definition toy_run : list Request :=
  [Advance block [2; 0; 30]; Inspection None []; Advance block [0x7e]].
Definition toy_start : World MemStore.t Z := mkWorld funded (mkSink [] 0 7) None 41.
Lemma toy_minted : minted_over toy_run = 100.
Proof. vm_compute. reflexivity. Qed.
Lemma ether_only_from_deposits_witness : exists r img, contract toy_counter (newRouter rc) = Val r /\
  let w' := foldl (serve r) toy_start toy_run in
  exists img', at_rest w' img' /\ 0 <= fee (ram (ledger w'))
    /\ ether_total (cfg (drive (ledger w'))) img' <= ether_total (cfg (drive (ledger toy_start))) img + 100.
Proof.
  destruct funded_spec as (img & Hi & Hj & _ & _ & _ & Hr & _).
  destruct (demo_counter (S := MemStore.t) toy_selector toy_abi rc) as (r & Hreg & _). exists r, img. split; [exact Hreg|].
  rewrite <- toy_minted. apply (ether_only_from_deposits rc r toy_run toy_start img).
  - exact (hosts_contract rc _ _ _ (hosts_none rc) counter_behaves Hreg).
  - exact (conj Hi Hj).
  - unfold toy_start. cbn [ledger]. rewrite Hr. exact (Z.le_refl 0).
Defined.
