(* ===== verification/JsText.v ===== *)
(** * JavaScript strings

    The string operations the host-side TypeScript (devnet, scripts) uses, on
    strings as lists of characters: [split], [join], [toLowerCase], [slice],
    [trimmed] whitespace, decimal printing. A character is a Unicode scalar
    value; where the code counts UTF-16 units ([length], [slice]) the string is
    first turned into them ([utf16]). Case mapping is the ASCII one: every use
    compares the result with, or requires it to be, ASCII hexadecimal, and no
    other character maps to a hexadecimal digit. *)

From Stdlib Require Import ZArith Lia DecimalN.
From S2P Require Import Prelude Bytes Text.

(** A string literal of the source, which may hold non-ASCII characters. *)
Definition js (s : string) : text := utf8_run utf8_start (ascii_text s).
Notation "§ s" := (js s) (at level 1, s at level 0, format "§ s").

Definition text_eq (a b : text) : bool := bool_decide (a = b).

(** ** Characters *)
Definition NL : Z := 10.
Definition between (lo hi c : Z) : bool := (lo <=? c) && (c <=? hi).
Definition is_digit (c : Z) : bool := between 48 57 c.
Definition is_lower_hex (c : Z) : bool := is_digit c || between 97 102 c.
Definition is_hex (c : Z) : bool := is_lower_hex c || between 65 70 c.
Definition is_alpha_ (c : Z) : bool := between 65 90 c || (c =? 95) || between 97 122 c.
Definition is_word (c : Z) : bool := is_alpha_ c || is_digit c.
Definition is_terminator (c : Z) : bool := (c =? 10) || (c =? 13) || (c =? 0x2028) || (c =? 0x2029).
(** WhiteSpace and LineTerminator of ECMAScript: what [\s] matches and what
    [Number] and [BigInt] trim. *)
Definition is_space (c : Z) : bool :=
  is_terminator c || (c =? 9) || (c =? 11) || (c =? 12) || (c =? 32) || (c =? 160) || (c =? 0x1680)
  || between 0x2000 0x200a c || (c =? 0x202f) || (c =? 0x205f) || (c =? 0x3000) || (c =? 0xfeff).

(** ** Operations *)
Definition lower_char (c : Z) : Z := if between 65 90 c then c + 32 else c.
Definition toLowerCase (t : text) : text := map lower_char t.

(** [t.split(c)] for a one-character separator: never empty. *)
Fixpoint split_on (c : Z) (t : text) : list text :=
  match t with
  | [] => [[]]
  | x :: t => if x =? c then [] :: split_on c t
              else match split_on c t with [] => [[x]] | l :: ls => (x :: l) :: ls end
  end.
Fixpoint join (sep : text) (ls : list text) : text :=
  match ls with [] => [] | [l] => l | l :: ls => l ++ sep ++ join sep ls end.
(** [t.split("\n")[0]] *)
Definition first_line (t : text) : text := default [] (head (split_on NL t)).

Fixpoint take_while (p : Z -> bool) (t : text) : text :=
  match t with c :: t => if p c then c :: take_while p t else [] | [] => [] end.
Fixpoint drop_while (p : Z -> bool) (t : text) : text :=
  match t with c :: r => if p c then drop_while p r else t | [] => [] end.
Definition trim (t : text) : text := reverse (drop_while is_space (reverse (drop_while is_space t))).
Definition startsWith (p t : text) : bool := text_eq (take (length p) t) p.
(** [t.padEnd(n)] *)
Definition padEnd (n : nat) (t : text) : text := t ++ replicate (n - length t) 32.

(** The UTF-16 code units of a string. *)
Definition utf16_char (c : Z) : list Z :=
  if c <? 0x10000 then [c] else [0xd800 + (c - 0x10000) / 1024; 0xdc00 + (c - 0x10000) mod 1024].
Definition utf16 (t : text) : list Z := concat (map utf16_char t).

(** ** Decimal numerals: [`${n}`] of a BigInt *)
Fixpoint text_of_uint (u : Decimal.uint) : text :=
  match u with
  | Decimal.Nil => []
  | Decimal.D0 u => 48 :: text_of_uint u | Decimal.D1 u => 49 :: text_of_uint u
  | Decimal.D2 u => 50 :: text_of_uint u | Decimal.D3 u => 51 :: text_of_uint u
  | Decimal.D4 u => 52 :: text_of_uint u | Decimal.D5 u => 53 :: text_of_uint u
  | Decimal.D6 u => 54 :: text_of_uint u | Decimal.D7 u => 55 :: text_of_uint u
  | Decimal.D8 u => 56 :: text_of_uint u | Decimal.D9 u => 57 :: text_of_uint u
  end.
Definition dec (z : Z) : text :=
  (if z <? 0 then [45] else []) ++ text_of_uint (N.to_uint (Z.abs_N z)).
(** The value of a string of decimal digits. *)
Definition digits_value (t : text) : Z := foldl (fun v c => 10 * v + (c - 48)) 0 t.

(** [0x] and two lower-case digits per byte: a [Hex] value as a string. *)
Definition hex_text (b : bytes) : text :=
  §"0x" ++ concat (map (fun x => map (fun v => if v <? 10 then v + 48 else v + 87) [x / 16; x mod 16]) b).

(** * Lemmas *)
Create HintDb jstext.

Lemma text_eq_spec a b : text_eq a b = true <-> a = b.
Proof. unfold text_eq. apply bool_decide_eq_true. Qed.
Lemma text_eq_refl a : text_eq a a = true.
Proof. by apply text_eq_spec. Qed.

Lemma toLowerCase_app a b : toLowerCase (a ++ b) = toLowerCase a ++ toLowerCase b.
Proof. apply map_app. Qed.
Lemma lower_char_idem c : lower_char (lower_char c) = lower_char c.
Proof.
  unfold lower_char, between. destruct (65 <=? c) eqn:H1, (c <=? 90) eqn:H2; simpl; try by rewrite ?H1, ?H2.
  destruct (65 <=? c + 32) eqn:H3, (c + 32 <=? 90) eqn:H4; simpl; try done. rewrite ?Z.leb_le in *. lia.
Qed.
Lemma toLowerCase_idem t : toLowerCase (toLowerCase t) = toLowerCase t.
Proof. unfold toLowerCase. rewrite map_map. apply map_ext. intros. apply lower_char_idem. Qed.

(** ** Splitting and joining *)
Lemma split_on_cons c t : exists l ls, split_on c t = l :: ls.
Proof. destruct t as [|x t]; simpl; [eauto|]. destruct (x =? c); [eauto|]. destruct (split_on c t); eauto. Qed.
Lemma split_on_word c t : Forall (fun x => x <> c) t -> split_on c t = [t].
Proof.
  induction 1 as [|x t Hx _ IH]; [done|]. simpl. rewrite IH. by rewrite (proj2 (Z.eqb_neq x c)).
Qed.
Lemma split_on_app c l t : Forall (fun x => x <> c) l -> split_on c (l ++ c :: t) = l :: split_on c t.
Proof.
  induction 1 as [|x l Hx _ IH]; simpl; [by rewrite Z.eqb_refl|]. rewrite IH. by rewrite (proj2 (Z.eqb_neq x c)).
Qed.
Lemma split_on_concat c t u : split_on c (t ++ c :: u) = split_on c t ++ split_on c u.
Proof.
  induction t as [|x t IH]; simpl; [by rewrite Z.eqb_refl|]. rewrite IH. destruct (x =? c); [done|].
  by destruct (split_on_cons c t) as (l & ls & ->).
Qed.
Lemma split_join c ls : ls <> [] -> Forall (Forall (fun x => x <> c)) ls -> split_on c (join [c] ls) = ls.
Proof.
  intros Hn Hall. induction Hall as [|l ls Hl Hls IH]; [done|]. destruct ls as [|l' ls].
  - simpl. by apply split_on_word.
  - change (split_on c (l ++ c :: join [c] (l' :: ls)) = l :: l' :: ls). rewrite split_on_app by done.
    by rewrite IH.
Qed.
Lemma join_cons sep l ls : ls <> [] -> join sep (l :: ls) = l ++ sep ++ join sep ls.
Proof. by destruct ls. Qed.

Lemma take_drop_while p t : take_while p t ++ drop_while p t = t.
Proof. induction t as [|c t IH]; [done|]. simpl. destruct (p c); simpl; by rewrite ?IH. Qed.
Lemma take_while_all p t : Forall (fun c => p c = true) (take_while p t).
Proof. induction t as [|c t IH]; simpl; [done|]. destruct (p c) eqn:H; by repeat constructor. Qed.
Lemma take_while_app p a t : Forall (fun c => p c = true) a -> take_while p (a ++ t) = a ++ take_while p t.
Proof. induction 1 as [|c a Hc _ IH]; simpl; [done|]. by rewrite Hc, IH. Qed.
Lemma drop_while_app p a t : Forall (fun c => p c = true) a -> drop_while p (a ++ t) = drop_while p t.
Proof. induction 1 as [|c a Hc _ IH]; simpl; [done|]. by rewrite Hc. Qed.

(** ** Decimal numerals *)
Lemma digits_app a b : digits_value (a ++ b) = foldl (fun v c => 10 * v + (c - 48)) (digits_value a) b.
Proof. apply foldl_app. Qed.
Lemma of_uint_acc_value u p :
  foldl (fun v c => 10 * v + (c - 48)) (Zpos p) (text_of_uint u) = Zpos (Pos.of_uint_acc u p).
Proof.
  revert p. induction u as [|u IH|u IH|u IH|u IH|u IH|u IH|u IH|u IH|u IH|u IH]; intros p; [done|..];
    cbn [text_of_uint foldl Pos.of_uint_acc]; rewrite <- IH; f_equal; lia.
Qed.
Lemma text_of_uint_value u : digits_value (text_of_uint u) = Z.of_N (N.of_uint u).
Proof.
  unfold digits_value. induction u as [|u IH|u IH|u IH|u IH|u IH|u IH|u IH|u IH|u IH|u IH]; [done|..];
    cbn [text_of_uint foldl]; try exact IH;
    match goal with |- context [foldl ?f ?a] => let z := eval vm_compute in a in change a with z end;
    rewrite of_uint_acc_value; done.
Qed.
Lemma dec_value z : 0 <= z -> digits_value (dec z) = z.
Proof.
  intros Hz. unfold dec. rewrite (proj2 (Z.ltb_ge z 0)) by done. simpl app. rewrite text_of_uint_value, Unsigned.of_to. lia.
Qed.
Lemma text_of_uint_digits u : Forall (fun c => is_digit c = true) (text_of_uint u).
Proof. induction u; simpl; by constructor. Qed.
Lemma dec_digits z : 0 <= z -> Forall (fun c => is_digit c = true) (dec z).
Proof. intros Hz. unfold dec. rewrite (proj2 (Z.ltb_ge z 0)) by done. apply text_of_uint_digits. Qed.
Lemma dec_nonempty z : dec z <> [].
Proof.
  unfold dec. destruct (z <? 0); [done|]. simpl. intros H.
  assert (Hu : N.to_uint (Z.abs_N z) = Decimal.Nil) by (by destruct (N.to_uint (Z.abs_N z))).
  pose proof (Unsigned.of_to (Z.abs_N z)) as Hz. rewrite Hu in Hz. simpl in Hz. rewrite <- Hz in Hu. done.
Qed.
Lemma dec_inj a b : 0 <= a -> 0 <= b -> dec a = dec b -> a = b.
Proof. intros Ha Hb H. by rewrite <- (dec_value a), <- (dec_value b), H. Qed.
Lemma join_app c l1 l2 : l1 <> [] -> l2 <> [] -> join [c] (l1 ++ l2) = join [c] l1 ++ c :: join [c] l2.
Proof.
  intros H1 H2. induction l1 as [|x l1 IH]; [done|]. destruct l1 as [|y l1]; [by apply (join_cons [c])|].
  specialize (IH ltac:(done)). cbn [app] in *. rewrite (join_cons [c] x (y :: l1 ++ l2)), IH, (join_cons [c] x (y :: l1)) by done.
  by rewrite <- !app_assoc.
Qed.
Lemma join_snoc c ls : ls <> [] -> join [c] ls ++ [c] = join [c] (ls ++ [[]]).
Proof.
  intros Hn. induction ls as [|l ls IH]; [done|]. destruct ls as [|l' ls]; [reflexivity|].
  specialize (IH ltac:(done)). change ((l ++ [c] ++ join [c] (l' :: ls)) ++ [c] = l ++ [c] ++ join [c] ((l' :: ls) ++ [[]])).
  by rewrite <- !app_assoc, IH.
Qed.
