(* ===== verification/Regex.v ===== *)
(** * Regular expressions

    ECMAScript's backtracking matcher for the patterns the host-side code uses:
    character classes with their greedy quantifiers, literals, groups, back
    references, anchors and word boundaries. A matcher takes a continuation and
    tries its alternatives in the language's order, so captures and greediness
    are the ones the runtime gives. *)

From Stdlib Require Import ZArith Lia.
From S2P Require Import Prelude Bytes Text JsText.

(** A position in the input: what lies before it (nearest first) and after. *)
Definition pos : Type := text * text.
Abbreviation caps := (gmap nat text).

Inductive regex : Type :=
  | RLit (t : text)                     (* the characters of t *)
  | RClass (p : Z -> bool)              (* one character of the class *)
  | RStar (p : Z -> bool)               (* p*, greedy *)
  | RPlus (p : Z -> bool)               (* p+, greedy *)
  | ROpt (p : Z -> bool)                (* p?, greedy *)
  | RRep (n : nat) (p : Z -> bool)      (* p{n} *)
  | RSeq (a b : regex)
  | RAlt (a b : regex)
  | RGroup (i : nat) (r : regex)        (* the i-th capture *)
  | RBack (i : nat)                     (* \i *)
  | RBol (multiline : bool)             (* ^ *)
  | REol                                (* $, without the m flag *)
  | RWordB.                             (* \b *)

Declare Scope regex_scope.
Delimit Scope regex_scope with re.
Infix "·" := RSeq (at level 40, left associativity) : regex_scope.

Definition orelse {A} (a : option A) (b : option A) : option A := match a with Some _ => a | None => b end.

Section Matcher.
Context {R : Type}.
Definition cont : Type := pos -> caps -> option R.

Fixpoint lit (t : text) (k : cont) (before after : text) (c : caps) : option R :=
  match t, after with
  | [], _ => k (before, after) c
  | x :: t, y :: after => if x =? y then lit t k (y :: before) after c else None
  | _, [] => None
  end.
Fixpoint star (p : Z -> bool) (k : cont) (before after : text) (c : caps) : option R :=
  match after with
  | x :: rest => if p x then orelse (star p k (x :: before) rest c) (k (before, after) c) else k (before, after) c
  | [] => k (before, after) c
  end.
Definition one (p : Z -> bool) (k : text -> text -> caps -> option R) (before after : text) (c : caps) : option R :=
  match after with x :: rest => if p x then k (x :: before) rest c else None | [] => None end.
Fixpoint rep (n : nat) (p : Z -> bool) (k : cont) (before after : text) (c : caps) : option R :=
  match n with O => k (before, after) c | S n => one p (rep n p k) before after c end.

Definition word_at (t : text) : bool := match t with c :: _ => is_word c | [] => false end.
(** What lies between two positions. *)
Definition captured (p p' : pos) : text := reverse (take (length p'.1 - length p.1) p'.1).

Fixpoint rx (r : regex) (k : cont) (p : pos) (c : caps) : option R :=
  match r with
  | RLit t => lit t k p.1 p.2 c
  | RClass q => one q (fun b a => k (b, a)) p.1 p.2 c
  | RStar q => star q k p.1 p.2 c
  | RPlus q => one q (star q k) p.1 p.2 c
  | ROpt q => orelse (one q (fun b a => k (b, a)) p.1 p.2 c) (k p c)
  | RRep n q => rep n q k p.1 p.2 c
  | RSeq a b => rx a (rx b k) p c
  | RAlt a b => orelse (rx a k p c) (rx b k p c)
  | RGroup i r => rx r (fun p' c' => k p' (<[i := captured p p']> c')) p c
  | RBack i => lit (default [] (c !! i)) k p.1 p.2 c
  | RBol m => match p.1 with
              | [] => k p c
              | x :: _ => if m && is_terminator x then k p c else None
              end
  | REol => match p.2 with [] => k p c | _ => None end
  | RWordB => if xorb (word_at p.1) (word_at p.2) then k p c else None
  end.
End Matcher.
Arguments cont : clear implicits.

(** ** Searching and replacing *)

(** The match at a position: where it ends and its captures. *)
Definition match_at (r : regex) (p : pos) : option (pos * caps) := rx r (fun p c => Some (p, c)) p ∅.
(** The first match from a position on: where it starts, where it ends. *)
Fixpoint search (r : regex) (before after : text) : option (pos * pos * caps) :=
  match match_at r (before, after) with
  | Some (p', c) => Some ((before, after), p', c)
  | None => match after with x :: rest => search r (x :: before) rest | [] => None end
  end.
(** [t.match(r)], [r.test(t)] *)
Definition re_match (r : regex) (t : text) : option (pos * pos * caps) := search r [] t.
Definition test (r : regex) (t : text) : bool := match re_match r t with Some _ => true | None => false end.

(** [t.matchAll(r)]: the matches from left to right; after an empty match the
    search goes on one character later. *)
Fixpoint all_from (fuel : nat) (r : regex) (before after : text) : list (pos * pos * caps) :=
  match fuel with
  | O => []
  | S fuel =>
      match search r before after with
      | None => []
      | Some ((s, (b, a)), c) =>
          (s, (b, a), c) ::
          (if bool_decide (s = (b, a))
           then match a with x :: rest => all_from fuel r (x :: b) rest | [] => [] end
           else all_from fuel r b a)
      end
  end.
Definition re_matchAll (r : regex) (t : text) : list (pos * pos * caps) := all_from (S (length t)) r [] t.

(** [GetSubstitution]: the replacement template, with [n] captures. *)
Definition digit_at (t : text) (i : nat) : option Z :=
  match t !! i with Some d => if is_digit d then Some (d - 48) else None | None => None end.
Fixpoint expand (fuel : nat) (n : nat) (s p' : pos) (c : caps) (t : text) : text :=
  match fuel, t with
  | S fuel, 36 :: t =>
      match t with
      | 36 :: t => 36 :: expand fuel n s p' c t
      | 38 :: t => captured s p' ++ expand fuel n s p' c t
      | 96 :: t => reverse s.1 ++ expand fuel n s p' c t
      | 39 :: t => p'.2 ++ expand fuel n s p' c t
      | _ =>
          let one := default 0 (digit_at t 0) in
          let two := match digit_at t 0, digit_at t 1 with Some a, Some b => 10 * a + b | _, _ => 0 end in
          if between 1 (Z.of_nat n) two then default [] (c !! Z.to_nat two) ++ expand fuel n s p' c (drop 2 t)
          else if between 1 (Z.of_nat n) one then default [] (c !! Z.to_nat one) ++ expand fuel n s p' c (drop 1 t)
          else 36 :: expand fuel n s p' c t
      end
  | S fuel, x :: t => x :: expand fuel n s p' c t
  | _, _ => []
  end.
(** The text between the start of [p] and the start of [q]. *)
Definition gap (p q : pos) : text := captured p q.
Fixpoint replace_from (n : nat) (tmpl : text) (ms : list (pos * pos * caps)) (from : pos) : text :=
  match ms with
  | [] => from.2
  | (s, e, c) :: ms => gap from s ++ expand (S (length tmpl)) n s e c tmpl ++ replace_from n tmpl ms e
  end.
(** [t.replace(r, tmpl)] with the g flag, for a pattern of [n] groups. *)
Definition replaceAll (r : regex) (n : nat) (tmpl t : text) : text :=
  replace_from n tmpl (re_matchAll r t) ([], t).

(** * Lemmas *)
Lemma orelse_none_r {A} (a : option A) : orelse a None = a.
Proof. by destruct a. Qed.

Section MatcherLemmas.
Context {R : Type}.
Implicit Types k : cont R.

Lemma lit_app t k before rest c : lit t k before (t ++ rest) c = k (reverse t ++ before, rest) c.
Proof.
  revert before. induction t as [|x t IH]; intros before; [done|]. simpl. rewrite Z.eqb_refl, IH.
  by rewrite reverse_cons, <- app_assoc.
Qed.
Lemma lit_spec t k before after c :
  lit t k before after c = if text_eq (take (length t) after) t then k (reverse t ++ before, drop (length t) after) c else None.
Proof.
  destruct (text_eq _ _) eqn:He.
  - apply text_eq_spec in He. rewrite <- (take_drop (length t) after) at 1. rewrite He. apply lit_app.
  - revert before after He. induction t as [|x t IH]; intros before after He; [done|].
    destruct after as [|y after]; [done|]. simpl in *. destruct (Z.eqb_spec x y) as [<-|]; [|done].
    apply IH. apply not_true_iff_false. intros Ht%text_eq_spec. apply not_true_iff_false in He. apply He.
    apply text_eq_spec. by rewrite Ht.
Qed.

Lemma rep_app n p k before l rest c : length l = n -> Forall (fun x => p x = true) l ->
  rep n p k before (l ++ rest) c = k (reverse l ++ before, rest) c.
Proof.
  intros <- Hl. revert before. induction Hl as [|x l Hx _ IH]; intros before; [done|]. simpl. rewrite Hx, IH.
  by rewrite reverse_cons, <- app_assoc.
Qed.
Lemma rep_spec n p k before after c :
  rep n p k before after c =
    if (n <=? length after)%nat && forallb p (take n after) then k (reverse (take n after) ++ before, drop n after) c else None.
Proof.
  destruct (_ && _) eqn:He.
  - apply andb_prop in He as [Hn%Nat.leb_le Hp]. rewrite <- (take_drop n after) at 1. apply rep_app.
    + rewrite length_take. lia.
    + apply Forall_forall. intros x Hx. rewrite forallb_forall in Hp. apply Hp. by apply list_elem_of_In.
  - revert before after He. induction n as [|n IH]; intros before after He; [done|].
    destruct after as [|x after]; [done|]. simpl in *. destruct (p x) eqn:Hx; [|done]. by apply IH.
Qed.

(** A greedy star whose continuation refuses every earlier stop takes the whole
    run of its class. *)
Lemma star_all p k before a rest c : Forall (fun x => p x = true) a -> match rest with x :: _ => p x = false | [] => True end ->
  (forall a1 a2, a = a1 ++ a2 -> a2 <> [] -> k (reverse a1 ++ before, a2 ++ rest) c = None) ->
  star p k before (a ++ rest) c = k (reverse a ++ before, rest) c.
Proof.
  intros Ha Hrest. revert before. induction Ha as [|x a Hx _ IH]; intros before Hk.
  - simpl. destruct rest as [|y rest]; simpl; [done|by rewrite Hrest].
  - simpl. rewrite Hx, IH.
    + pose proof (Hk [] (x :: a) eq_refl ltac:(done)) as H0. simpl in H0. rewrite H0. by rewrite orelse_none_r, reverse_cons, <- app_assoc.
    + intros a1 a2 -> Ha2. specialize (Hk (x :: a1) a2 eq_refl Ha2).
      by rewrite reverse_cons, <- app_assoc in Hk.
Qed.
(** A greedy star whose continuation accepts at the end of the run stops there. *)
Lemma star_longest p k before a rest c v : Forall (fun x => p x = true) a -> match rest with x :: _ => p x = false | [] => True end ->
  k (reverse a ++ before, rest) c = Some v -> star p k before (a ++ rest) c = Some v.
Proof.
  intros Ha Hrest. revert before. induction Ha as [|x a Hx _ IH]; intros before Hk; simpl.
  - destruct rest as [|y rest]; simpl; [done|by rewrite Hrest].
  - rewrite Hx. rewrite reverse_cons, <- app_assoc in Hk. by rewrite IH.
Qed.
(** A star before a continuation that succeeds only with one given rest: the
    star stops there, if it can reach it. *)
Lemma star_beyond p k before u c u0 : (length u < length u0)%nat -> (forall b u', u' <> u0 -> k (b, u') c = None) ->
  star p k before u c = None.
Proof.
  intros Hu Hk. revert before Hu. induction u as [|x u IH]; intros before Hu; simpl.
  - apply Hk. intros <-. simpl in Hu. lia.
  - assert (k (before, x :: u) c = None) as Hn by (apply Hk; intros <-; lia). rewrite Hn.
    destruct (p x); [|done]. rewrite IH by (simpl in Hu; lia). done.
Qed.
Lemma star_at p k before u0 c : (forall b u', u' <> u0 -> k (b, u') c = None) ->
  star p k before u0 c = k (before, u0) c.
Proof.
  intros Hk. destruct u0 as [|x u0]; [done|]. simpl. destruct (p x); [|done].
  rewrite (star_beyond _ _ _ _ _ (x :: u0)) by (done || (simpl; lia)). done.
Qed.
Lemma star_hit p k before d u0 c : Forall (fun x => p x = true) d -> (forall b u', u' <> u0 -> k (b, u') c = None) ->
  star p k before (d ++ u0) c = k (reverse d ++ before, u0) c.
Proof.
  intros Hd Hk. revert before. induction Hd as [|x d Hx _ IH]; intros before; [by apply star_at|].
  simpl. rewrite Hx, IH. rewrite (Hk before).
  - by rewrite orelse_none_r, reverse_cons, <- app_assoc.
  - intros H%(f_equal length). simpl in H. rewrite length_app in H. lia.
Qed.
Lemma star_miss p k before t u0 c : (forall d, t = d ++ u0 -> ~ Forall (fun x => p x = true) d) ->
  (forall b u', u' <> u0 -> k (b, u') c = None) -> star p k before t c = None.
Proof.
  intros Ht Hk. revert before Ht. induction t as [|x t IH]; intros before Ht.
  - simpl. apply Hk. intros <-. by apply (Ht []).
  - assert (k (before, x :: t) c = None) as Hn by (apply Hk; intros <-; by apply (Ht [])).
    simpl. rewrite Hn. destruct (p x) eqn:Hx; [|done]. rewrite IH; [done|].
    intros d -> Hd. apply (Ht (x :: d)); [done|]. by constructor.
Qed.
End MatcherLemmas.

(** A pattern anchored at the start of the input is tried there alone. *)
Lemma search_anchored r x before after :
  (forall x b a, match_at r (x :: b, a) = None) -> search r (x :: before) after = None.
Proof.
  intros Hr. revert x before. induction after as [|y after IH]; intros x before; simpl; rewrite Hr; [done|apply IH].
Qed.
Lemma re_match_anchored r t : (forall x b a, match_at r (x :: b, a) = None) ->
  re_match r t = match match_at r ([], t) with Some (p', c) => Some (([], t), p', c) | None => None end.
Proof.
  intros Hr. unfold re_match. destruct t as [|x t]; simpl; [by destruct (match_at r _) as [[? ?]|]|].
  destruct (match_at r ([], x :: t)) as [[p' c]|]; [done|]. by apply search_anchored.
Qed.

Lemma captured_app before l rest rest' : captured (before, rest) (reverse l ++ before, rest') = l.
Proof.
  unfold captured. simpl. rewrite length_app, length_reverse.
  replace (length l + length before - length before)%nat with (length (reverse l)) by (rewrite length_reverse; lia).
  rewrite take_app_length. apply reverse_involutive.
Qed.
Lemma captured_refl p : captured p p = [].
Proof. unfold captured. by rewrite Nat.sub_diag. Qed.
Lemma captured_one b x a : captured (b, x :: a) (x :: b, a) = [x].
Proof. apply (captured_app b [x]). Qed.
