(* ===== verification/Numbers.v ===== *)
(** * JavaScript numbers and their spellings

    [Number] and [BigInt] of a string, [String] of a number, division and
    [toFixed], as ECMAScript defines them on IEEE doubles: a finite number is
    [m * 2^e] with [m] below 2^53, results are rounded to nearest, ties to
    even. *)

From Stdlib Require Import ZArith Lia.
From S2P Require Import Prelude Bytes Text JsText.

Inductive num : Type :=
  | NaN
  | Infinity (neg : bool)
  | Finite (neg : bool) (m e : Z).

#[export] Instance num_eq_dec : EqDecision num.
Proof. solve_decision. Defined.

(** ** Rounding

    [n / d / 2^e] as a fraction of integers. *)
Definition scale2 (n d e : Z) : Z * Z := if 0 <=? e then (n, d * 2 ^ e) else (n * 2 ^ (- e), d).
(** The double nearest to [n / d], for positive [n] and [d]. *)
Definition round_ratio (neg : bool) (n d : Z) : num :=
  let l := Z.log2 n - Z.log2 d in
  let '(a, b) := scale2 n d l in
  let e := Z.max ((if b <=? a then l else l - 1) - 52) (-1074) in
  let '(a, b) := scale2 n d e in
  let q := a / b in
  let r := a mod b in
  let q' := if (2 * r <? b) || ((2 * r =? b) && Z.even q) then q else q + 1 in
  let '(m, e) := if q' =? 2 ^ 53 then (2 ^ 52, e + 1) else (q', e) in
  if 971 <? e then Infinity neg else if m =? 0 then Finite neg 0 0 else Finite neg m e.
(** The double nearest to [m * 10^e]; exponents far outside the range of
    doubles are settled without computing the power. *)
Definition round_decimal (neg : bool) (m e : Z) : num :=
  let size := e + Z.log2 m / 3 + 1 in
  if m =? 0 then Finite neg 0 0
  else if 310 <? e then Infinity neg
  else if size <? -330 then Finite neg 0 0
  else if 0 <=? e then round_ratio neg (m * 10 ^ e) 1 else round_ratio neg m (10 ^ (- e)).

(** [Number(b)] of a BigInt, and [x / d] for a positive integer [d] a double
    holds exactly. *)
Definition Number_of_Z (z : Z) : num :=
  if z =? 0 then Finite false 0 0 else round_ratio (z <? 0) (Z.abs z) 1.
Definition num_div (x : num) (d : Z) : num :=
  match x with
  | Finite neg m e => if m =? 0 then x else if 0 <=? e then round_ratio neg (m * 2 ^ e) d else round_ratio neg m (d * 2 ^ (- e))
  | _ => x
  end.

(** ** [Number(s)] and [BigInt(s)] *)
Definition radix_digit (base c : Z) : option Z :=
  let v := if is_digit c then c - 48 else if between 97 122 c then c - 87 else if between 65 90 c then c - 55 else 99 in
  if v <? base then Some v else None.
Fixpoint radix_value (base : Z) (acc : Z) (t : text) : option Z :=
  match t with
  | [] => Some acc
  | c :: t => match radix_digit base c with Some v => radix_value base (base * acc + v) t | None => None end
  end.
(** [0x..], [0o..] and [0b..]; the inner option is a malformed one. *)
Definition radix_literal (t : text) : option (option Z) :=
  let body base r := match r with [] => None | _ => radix_value base 0 r end in
  match t with
  | 48 :: (120 | 88) :: r => Some (body 16 r)
  | 48 :: (111 | 79) :: r => Some (body 8 r)
  | 48 :: (98 | 66) :: r => Some (body 2 r)
  | _ => None
  end.
Definition sign_of (t : text) : bool * text :=
  match t with 45 :: r => (true, r) | 43 :: r => (false, r) | _ => (false, t) end.
Definition all_digits (t : text) : bool := match t with [] => false | _ => forallb is_digit t end.
(** An unsigned decimal literal, as mantissa and power of ten. *)
Definition decimal_literal (t : text) : option (Z * Z) :=
  let int := take_while is_digit t in
  let r := drop_while is_digit t in
  let '(frac, r) := match r with 46 :: r => (take_while is_digit r, drop_while is_digit r) | _ => ([], r) end in
  match int ++ frac with
  | [] => None
  | ds =>
      match r with
      | [] => Some (digits_value ds, - zlen frac)
      | (101 | 69) :: r =>
          let '(neg, r) := sign_of r in
          if all_digits r then Some (digits_value ds, (if neg then - digits_value r else digits_value r) - zlen frac) else None
      | _ => None
      end
  end.
Definition Number (s : text) : num :=
  let t := trim s in
  match t with
  | [] => Finite false 0 0
  | _ =>
      match radix_literal t with
      | Some (Some z) => Number_of_Z z
      | Some None => NaN
      | None =>
          let '(neg, r) := sign_of t in
          if text_eq r (§"Infinity") then Infinity neg
          else match decimal_literal r with Some (m, e) => round_decimal neg m e | None => NaN end
      end
  end.
(** [None] is the [SyntaxError]. *)
Definition BigInt (s : text) : option Z :=
  let t := trim s in
  match t with
  | [] => Some 0
  | _ =>
      match radix_literal t with
      | Some z => z
      | None =>
          let '(neg, r) := sign_of t in
          if all_digits r then Some (if neg then - digits_value r else digits_value r) else None
      end
  end.

(** ** [String(x)] *)

(** [v / 10^j] as a fraction, for [v = m * 2^e]. *)
Definition over10 (m e j : Z) : Z * Z :=
  let '(a, b) := if 0 <=? e then (m * 2 ^ e, 1) else (m, 2 ^ (- e)) in
  if 0 <=? j then (a, b * 10 ^ j) else (a * 10 ^ (- j), b).
(** The number of digits before the decimal point: the least [n] (from [n] on)
    with [v < 10^n]; from one below [log10 v], as [String_of_num] calls it, it is
    at most three steps away. *)
Fixpoint magnitude (fuel : nat) (m e n : Z) : Z :=
  match fuel with
  | O => n
  | S fuel => let '(a, b) := over10 m e n in if a <? b then n else magnitude fuel m e (n + 1)
  end.
(** The shortest digits that read back as the number: with [k] digits or more. *)
Fixpoint shortest (fuel : nat) (m e n k : Z) : Z * Z :=
  let '(a, b) := over10 m e (n - k) in
  let lo := a / b in
  let r := a mod b in
  match fuel with
  | O => (lo, k)
  | S fuel =>
      let back s := bool_decide (round_decimal false s (n - k) = Finite false m e) in
      match back lo, back (lo + 1) with
      | true, true => (if (2 * r <? b) || ((2 * r =? b) && Z.even lo) then lo else lo + 1, k)
      | true, false => (lo, k)
      | false, true => (lo + 1, k)
      | false, false => shortest fuel m e n (k + 1)
      end
  end.
Definition zeros_text (n : Z) : text := replicate (Z.to_nat n) 48.
(** The layout of Number::toString for digits [ds], [n] of them before the
    point. *)
Definition layout (ds : text) (n : Z) : text :=
  let k := zlen ds in
  if (k <=? n) && (n <=? 21) then ds ++ zeros_text (n - k)
  else if (0 <? n) && (n <=? 21) then take (Z.to_nat n) ds ++ §"." ++ drop (Z.to_nat n) ds
  else if (-6 <? n) && (n <=? 0) then §"0." ++ zeros_text (- n) ++ ds
  else
    let ex := (if 0 <=? n - 1 then §"+" else §"-") ++ dec (Z.abs (n - 1)) in
    match ds with
    | [d] => d :: §"e" ++ ex
    | d :: ds => d :: §"." ++ ds ++ §"e" ++ ex
    | [] => []
    end.
Definition String_of_num (x : num) : text :=
  match x with
  | NaN => §"NaN"
  | Infinity neg => (if neg then §"-" else []) ++ §"Infinity"
  | Finite neg m e =>
      if m =? 0 then §"0"
      else
        let n := magnitude 5 m e ((Z.log2 m + e) * 30103 / 100000 - 1) in
        let '(s, k) := shortest 16 m e n 1 in
        let '(s, n) := if s =? 10 ^ k then (1, n + 1) else (s, n) in
        (if neg then §"-" else []) ++ layout (dec s) n
  end.

(** [x.toFixed(f)]: of two nearest, the larger. *)
Definition toFixed (f : Z) (x : num) : text :=
  match x with
  | Finite neg m e =>
      let '(a, b) := over10 m e (- f) in
      let n := (2 * a + b) / (2 * b) in
      if 10 ^ (21 + f) * b <=? a then String_of_num x
      else
        let ds := dec n in
        let ds := zeros_text (f + 1 - zlen ds) ++ ds in
        (if neg && negb (m =? 0) then §"-" else [])
        ++ take (length ds - Z.to_nat f)%nat ds ++ (if f =? 0 then [] else §"." ++ drop (length ds - Z.to_nat f)%nat ds)
  | _ => String_of_num x
  end.

(** * Lemmas *)
Lemma drop_while_digits t : Forall (fun c => is_digit c = true) t -> drop_while is_space t = t.
Proof.
  destruct 1 as [|c r Hc _]; [done|]. simpl.
  assert (is_space c = false) as ->; [|done]. unfold is_digit, between in Hc. apply andb_prop in Hc as [H1%Z.leb_le H2%Z.leb_le].
  unfold is_space, is_terminator, between. repeat (rewrite (proj2 (Z.eqb_neq c _)) by lia).
  by rewrite (proj2 (Z.leb_gt 0x2000 c)) by lia.
Qed.
Lemma trim_digits t : Forall (fun c => is_digit c = true) t -> trim t = t.
Proof.
  intros Ht. unfold trim. rewrite (drop_while_digits t) by done. rewrite drop_while_digits by by apply Forall_reverse.
  apply reverse_involutive.
Qed.

(** [BigInt(`${n}`)] is [n]. *)
Lemma BigInt_digits t : t <> [] -> Forall (fun c => is_digit c = true) t -> BigInt t = Some (digits_value t).
Proof.
  intros Hn Ht. unfold BigInt. rewrite trim_digits by done. destruct t as [|c r]; [done|].
  assert (Hd : forall x, x ∈ c :: r -> 48 <= x <= 57).
  { rewrite Forall_forall in Ht. intros x Hx. apply Ht in Hx. unfold is_digit, between in Hx.
    apply andb_prop in Hx as [H1%Z.leb_le H2%Z.leb_le]. lia. }
  assert (radix_literal (c :: r) = None) as ->.
  { pose proof (Hd c ltac:(left)). destruct r as [|d r]; [|pose proof (Hd d ltac:(right; left))];
    unfold radix_literal; repeat (case_match; simplify_eq; try done; try lia). }
  assert (sign_of (c :: r) = (false, c :: r)) as ->.
  { pose proof (Hd c ltac:(left)). unfold sign_of. repeat (case_match; simplify_eq; try done; try lia). }
  assert (all_digits (c :: r) = true) as ->; [|done].
  unfold all_digits. apply forallb_forall. intros x Hx. rewrite Forall_forall in Ht. apply Ht. by apply list_elem_of_In.
Qed.
Lemma BigInt_dec z : 0 <= z -> BigInt (dec z) = Some z.
Proof. intros Hz. rewrite BigInt_digits, dec_value; auto using dec_nonempty, dec_digits. Qed.
