(* ===== verification/Demo.v ===== *)
(** * The demo, as the process of a machine

    demo/src/index.ts whole: the genesis parameters from the environment, the
    application booted from the machine's devices, the counter declared, the
    drives flushed before the loop; and how app/src/contract.ts looks a
    function's mutability up in an ABI. *)

From Stdlib Require Import ZArith Lia.
From S2P Require Import Prelude Bytes Text Store Device DriveConfig DriveHeader RobinHood DriveTable Drive DriveTokens.
From S2P Require Import DriveFormat Evm Ledger Journal DriveJournal LedgerJournal LedgerSpec LedgerInv Boot Handlers Router HandlersJournal.
From S2P Require Import HandlersInv RouterSpec Registration AbiDrive AbiDriveSpec Application ApplicationSpec Sync JsText Numbers.

(** ** An ABI's functions *)
Inductive AbiItem : Type :=
  | AbiFunction (name : string) (stateMutability : Mutability)
  | AbiOther (type : string).
(** The first function of the name decides. *)
Fixpoint mutabilityOf (abi : list AbiItem) (functionName : string) : option Mutability :=
  match abi with
  | [] => None
  | AbiFunction name m :: abi => if bool_decide (name = functionName) then Some m else mutabilityOf abi functionName
  | AbiOther _ :: abi => mutabilityOf abi functionName
  end.
(** What [parseAbi] makes of the counter's two signatures. *)
Definition counterAbi : list AbiItem := [AbiFunction "increment" Nonpayable; AbiFunction "count" View].
Lemma counter_mutability_of name : counter_mutability name = mutabilityOf counterAbi name.
Proof. unfold counter_mutability, counterAbi, mutabilityOf. by repeat case_bool_decide; simplify_eq. Qed.

(** ** The process *)
Section Main.
Context {HK : Keccak} {HV : Viem} {HC : Calldata} {HB : BuiltinAbis}.
(** The environment, the devices, viem's [getAddress], and what viem makes of
    the counter's ABI. *)
Context (env : string -> option string) (ds : Devices) (getAddress : string -> outcome Address)
  (decode : bytes -> outcome (string * list AbiValue)) (abi : text).

Definition DEFAULT_OWNER : string := "0x90F79bf6EB2c4f870365E785982E1f101E93b906".
Definition not_an_integer : exn := JsError "SyntaxError: cannot convert to a BigInt".
Definition CHAIN_ID : outcome Z :=
  match BigInt (ascii_text (either (env "CHAIN_ID") "901")) with Some id => Val id | None => Exn not_an_integer end.
Definition OWNER : outcome Address := getAddress (either (env "OWNER") DEFAULT_OWNER).

(** [main], up to the loop: the application the loop runs over. *)
Definition demo_main (id : Z) (owner : Address) : outcome (Application Device.t Device.t Z) :=
  app ← boot_devices env ds (mkOptions (mkRouterConfig id owner) None None None);
  match (Application_contract (counter decode abi);; run_start) app with
  | (Val _, app') => Val app'
  | (Exn e, _) => Exn e
  | (Diverge, _) => Diverge
  end.
(** The process: in the rollup loop, or ended. A parameter that does not parse
    ends the module; an error of [main] is caught, said, and exits with 1. *)
Inductive demo_end : Type := Looping (app : Application Device.t Device.t Z) | Uncaught (e : exn) | Exit (code : Z) | Stuck.
Definition demo : demo_end :=
  match (id ← CHAIN_ID; owner ← OWNER; Val (id, owner)) with
  | Val (id, owner) =>
      match demo_main id owner with Val app => Looping app | Exn _ => Exit 1 | Diverge => Stuck end
  | Exn e => Uncaught e
  | Diverge => Stuck
  end.

(** ** What it starts from *)
Context {HKL : KeccakLaws} {HI : InputLaws} {HCL : CalldataLaws} {HBL : BuiltinAbisLaws}.

Definition counter_entry : AbiEntry := mkEntry COUNTER_ADDRESS KIND_APP abi.

(** The counter's address is its own. *)
Lemma counter_address_new : COUNTER_ADDRESS ∉ e_address <$> builtin_entries.
Proof. apply (bool_decide_unpack _). vm_compute. exact I. Qed.

Lemma declare_counter (a : Application Device.t Device.t Z) aimg : ap_router a = newRouter (rcfg (ap_router a)) ->
  abi_wf (ap_abiDrive a) aimg builtin_entries -> json_text abi -> 8 <= ab_capacity (ap_abiDrive a) ->
  zlen (heap builtin_entries) + zlen (blob counter_entry) <= ab_heapLength (ap_abiDrive a) ->
  returns (Application_contract (counter decode abi)) a (fun _ a' => ap_ledger a' = ap_ledger a
    /\ contract (counter decode abi) (newRouter (rcfg (ap_router a))) = Val (ap_router a')
    /\ exists aimg', abi_wf (ap_abiDrive a') aimg' (builtin_entries ++ [counter_entry])).
Proof.
  intros Hrt Hwf [Ht Hb] Hcap Hheap. destruct (demo_routes (S := Device.t) decode abi (rcfg (ap_router a))) as (r & Hc & _).
  unfold Application_contract. apply returns_bind, returns_gets, returns_bind. eapply returns_lift; [rewrite Hrt; exact Hc|].
  apply returns_bind, returns_modify. apply returns_zoom.
  assert (He : entry_ok counter_entry) by (constructor; [apply address_of_ok; lia|done..]).
  eapply returns_mono; [apply (register_new (ap_abiDrive a) aimg builtin_entries counter_entry Hwf He counter_address_new); [|exact Hheap]|].
  - change (zlen builtin_entries) with 7. lia.
  - intros [] d' [Hex _]. by split_and!.
Qed.

(** On a blank accounts device, and an ABI device that holds no drive and has
    room, the demo reaches the loop: the counter routed and recorded after the
    built-ins, the ledger empty and at rest, both drives in the machine. *)
Lemma demo_reaches_loop id owner img :
  dev_files ds !! either (env "ACCOUNTS_DRIVE") "/dev/pmem1" = Some (zeros (driveLength devnet_config)) ->
  dev_files ds !! either (env "ABI_DRIVE") "/dev/pmem2" = Some img ->
  is_magic (slice 0 8 img) = false -> 262144 <= zlen img -> json_text abi ->
  zlen (heap builtin_entries) + zlen (blob counter_entry) <= 258048 ->
  exists app limg aimg, demo_main id owner = Val app
    /\ contract (counter decode abi) (newRouter (mkRouterConfig id owner)) = Val (ap_router app)
    /\ (forall started, current (g_world (guest_of app started)) limg)
    /\ (forall x, account_view (ap_ledger app) limg x = (0, 0))
    /\ abi_wf (ap_abiDrive app) aimg (builtin_entries ++ [counter_entry]) /\ abi_machine (ap_abiDrive app) = aimg.
Proof.
  intros Hl Ha Hm Hlen Hjson Hheap. pose proof (zlen_nonneg (blob counter_entry)).
  destruct (open_device ds _ _ Hl) as (s & Hs & Hhs & _). destruct (open_device ds _ _ Ha) as (t & Ht & Hht & _).
  set (opts := mkOptions (mkRouterConfig id owner) None None None).
  assert (Hboot : returns (boot (App := Z) (opt_router opts) DEVNET_ABI_DRIVE_CONFIG) (s, t) (fun a _ =>
    ap_router a = newRouter (mkRouterConfig id owner) /\ journal (ap_ledger a) = []
    /\ (exists limg, ledger_inv (ap_ledger a) limg /\ forall x, account_of (cfg (drive (ap_ledger a))) limg x = None)
    /\ (exists aimg, abi_wf (ap_abiDrive a) aimg builtin_entries)
    /\ ab_capacity (ap_abiDrive a) = 64 /\ ab_heapLength (ap_abiDrive a) = 258048)).
  { eapply boot_returns; [by apply create_blank|]. intros l s' (-> & Hj & _ & _ & limg & Hi & Hacc & _).
    eapply returns_mono; [apply (assemble_blank t img l (opt_router opts) DEVNET_ABI_DRIVE_CONFIG Hht Hm)|].
    all: cbv [abi_geometry builtins_fit ac_capacity ac_driveLength ac_heapOffset DEVNET_ABI_DRIVE_CONFIG HEADER_LENGTH ENTRY_LENGTH]; try lia.
    - intros a t' (aimg & (<- & Hr & _) & Hwf & Hc & Hh). split_and!; [done..|by exists limg|by exists aimg|done|done]. }
  apply returns_elim in Hboot as (a0 & p & Hrun & Hr & Hj & (limg & Hi & Hacc) & (aimg & Hwf) & Hcap & Hhl).
  assert (Hmain : returns (Application_contract (counter decode abi);; run_start) a0 (fun _ app =>
    contract (counter decode abi) (newRouter (mkRouterConfig id owner)) = Val (ap_router app)
    /\ (forall started, current (g_world (guest_of app started)) limg)
    /\ (forall x, account_view (ap_ledger app) limg x = (0, 0))
    /\ exists aimg', abi_wf (ap_abiDrive app) aimg' (builtin_entries ++ [counter_entry]) /\ abi_machine (ap_abiDrive app) = aimg')).
  { apply returns_bind. eapply returns_mono; [apply (declare_counter a0 aimg); try done; rewrite ?Hr, ?Hcap, ?Hhl; try done; lia|].
    intros [] a1 (Hl1 & Hc1 & aimg1 & Hwf1). rewrite Hr in Hc1. rewrite <- Hl1 in Hi, Hj, Hacc.
    eapply returns_mono; [by apply (run_start_spec a1 limg aimg1 (builtin_entries ++ [counter_entry]))|].
    intros [] a2 (Hr2 & Hre & Hcur & Hwf2 & Hm2). split_and!; [rewrite Hr2; exact Hc1|exact Hcur| |by exists aimg1].
    intros x. unfold account_view. destruct Hre as (_ & (-> & _) & _). by rewrite Hacc. }
  apply returns_elim in Hmain as ([] & app & Hrun2 & Hc & Hcur & Hv & aimg2 & Hwf2 & Hm2).
  exists app, limg, aimg2. split_and!; try done. unfold demo_main.
  rewrite (boot_devices_opened env ds opts s t Hs Ht). change (default DEVNET_ABI_DRIVE_CONFIG (opt_abiDriveConfig opts)) with DEVNET_ABI_DRIVE_CONFIG.
  rewrite Hrun. cbn [fst mbind outcome_bind]. by rewrite Hrun2.
Qed.

(** A device that is not there, or a chain identifier that is not an integer,
    ends the process. *)
Lemma demo_without_device id owner : CHAIN_ID = Val id -> OWNER = Val owner ->
  dev_files ds !! either (env "ACCOUNTS_DRIVE") "/dev/pmem1" = None -> demo = Exit 1.
Proof.
  intros Hi Ho Hn. unfold demo. rewrite Hi, Ho. cbn [mbind outcome_bind]. unfold demo_main.
  by rewrite (boot_without_accounts env ds (mkOptions (mkRouterConfig id owner) None None None) Hn).
Qed.
End Main.

(** An overload is decided by the first function of its name: with a view before
    it, the transaction of the same name is refused whatever its own
    mutability. *)
Lemma overload_refused {S App} `{HS : Store S} `{HK : Keccak} `{HV : Viem} `{HC : Calldata} (spec : ContractSpec S App)
    (rest : list AbiItem) name args ctx (w : World S App) :
  spec_mutability spec = mutabilityOf (AbiFunction name View :: rest) -> spec_decode spec (tx_data ctx) = Val (name, args) ->
  contract_advance spec ctx w = (Val (ORevert (errorRevert (name +:+ " is not a transaction"))), w).
Proof.
  intros Hm Hd. unfold contract_advance, tryDecodeCalldata. rewrite Hd, Hm. unfold mutabilityOf.
  by rewrite bool_decide_eq_true_2.
Qed.
