(* ===== verification/Multicall3.v ===== *)
(** * Multicall3

    devnet/lib/multicall3.ts: the address and the runtime bytecode the
    deployment places on the devnet's L1. *)

From S2P Require Import Prelude Bytes Text JsText.

Definition MULTICALL3_ADDRESS : text := §"0xca11bde05977b3631167028862be2a173976ca11".
Definition CODE_BODY : text := concat (map js [
  "6080604052600436106100f35760003560e01c80634d2301cc1161008a578063a8b0574e11610059578063a8b0574e";
  "1461025a578063bce38bd714610275578063c3077fa914610288578063ee82ac5e1461029b57600080fd5b80634d2301";
  "cc146101ec57806372425d9d1461022157806382ad56cb1461023457806386d516e81461024757600080fd5b80633408";
  "e470116100c65780633408e47014610191578063399542e9146101a45780633e64a696146101c657806342cbb15c1461";
  "01d957600080fd5b80630f28c97d146100f8578063174dea711461011a578063252dba421461013a57806327e86d6e14";
  "61015b575b600080fd5b34801561010457600080fd5b50425b6040519081526020015b60405180910390f35b61012d61";
  "0128366004610a85565b6102ba565b6040516101119190610bbe565b61014d610148366004610a85565b6104ef565b60";
  "4051610111929190610bd8565b34801561016757600080fd5b50437fffffffffffffffffffffffffffffffffffffffff";
  "ffffffffffffffffffffffff0140610107565b34801561019d57600080fd5b5046610107565b6101b76101b236600461";
  "0c60565b610690565b60405161011193929190610cba565b3480156101d257600080fd5b5048610107565b3480156101";
  "e557600080fd5b5043610107565b3480156101f857600080fd5b50610107610207366004610ce2565b73ffffffffffff";
  "ffffffffffffffffffffffffffff163190565b34801561022d57600080fd5b5044610107565b61012d61024236600461";
  "0a85565b6106ab565b34801561025357600080fd5b5045610107565b34801561026657600080fd5b5060405141815260";
  "2001610111565b61012d610283366004610c60565b61085a565b6101b7610296366004610a85565b610a1a565b348015";
  "6102a757600080fd5b506101076102b6366004610d18565b4090565b60606000828067ffffffffffffffff8111156102";
  "d8576102d8610d31565b60405190808252806020026020018201604052801561031e57816020015b6040805180820190";
  "915260008152606060208201528152602001906001900390816102f65790505b5092503660005b828110156104775760";
  "0085828151811061034157610341610d60565b6020026020010151905087878381811061035d5761035d610d60565b90";
  "5060200281019061036f9190610d8f565b6040810135958601959093506103886020850185610ce2565b73ffffffffff";
  "ffffffffffffffffffffffffffffff16816103ac6060870187610dcd565b6040516103ba929190610e32565b60006040";
  "518083038185875af1925050503d80600081146103f7576040519150601f19603f3d011682016040523d82523d600060";
  "2084013e6103fc565b606091505b50602080850191909152901515808452908501351761046d577f08c379a000000000";
  "000000000000000000000000000000000000000000000000600052602060045260176024527f4d756c746963616c6c33";
  "3a2063616c6c206661696c656400000000000000000060445260846000fd5b5050600101610325565b508234146104e6";
  "576040517f08c379a000000000000000000000000000000000000000000000000000000000815260206004820152601a";
  "60248201527f4d756c746963616c6c333a2076616c7565206d69736d6174636800000000000060448201526064015b60";
  "405180910390fd5b50505092915050565b436060828067ffffffffffffffff81111561050c5761050c610d31565b6040";
  "5190808252806020026020018201604052801561053f57816020015b606081526020019060019003908161052a579050";
  "5b5091503660005b8281101561068657600087878381811061056257610562610d60565b905060200281019061057491";
  "90610e42565b92506105836020840184610ce2565b73ffffffffffffffffffffffffffffffffffffffff166105a66020";
  "850185610dcd565b6040516105b4929190610e32565b6000604051808303816000865af19150503d80600081146105f1";
  "576040519150601f19603f3d011682016040523d82523d6000602084013e6105f6565b606091505b5086848151811061";
  "060957610609610d60565b602090810291909101015290508061067d576040517f08c379a00000000000000000000000";
  "0000000000000000000000000000000000815260206004820152601760248201527f4d756c746963616c6c333a206361";
  "6c6c206661696c656400000000000000000060448201526064016104dd565b50600101610546565b5050509250929050";
  "565b43804060606106a086868661085a565b905093509350939050565b6060818067ffffffffffffffff8111156106c7";
  "576106c7610d31565b60405190808252806020026020018201604052801561070d57816020015b604080518082019091";
  "5260008152606060208201528152602001906001900390816106e55790505b5091503660005b828110156104e6576000";
  "84828151811061073057610730610d60565b6020026020010151905086868381811061074c5761074c610d60565b9050";
  "60200281019061075e9190610e76565b925061076d6020840184610ce2565b73ffffffffffffffffffffffffffffffff";
  "ffffffff166107906040850185610dcd565b60405161079e929190610e32565b6000604051808303816000865af19150";
  "503d80600081146107db576040519150601f19603f3d011682016040523d82523d6000602084013e6107e0565b606091";
  "505b506020808401919091529015158083529084013517610851577f08c379a000000000000000000000000000000000";
  "000000000000000000000000600052602060045260176024527f4d756c746963616c6c333a2063616c6c206661696c65";
  "6400000000000000000060445260646000fd5b50600101610714565b6060818067ffffffffffffffff81111561087657";
  "610876610d31565b6040519080825280602002602001820160405280156108bc57816020015b60408051808201909152";
  "60008152606060208201528152602001906001900390816108945790505b5091503660005b82811015610a1057600084";
  "82815181106108df576108df610d60565b602002602001015190508686838181106108fb576108fb610d60565b905060";
  "200281019061090d9190610e42565b925061091c6020840184610ce2565b73ffffffffffffffffffffffffffffffffff";
  "ffffff1661093f6020850185610dcd565b60405161094d929190610e32565b6000604051808303816000865af1915050";
  "3d806000811461098a576040519150601f19603f3d011682016040523d82523d6000602084013e61098f565b60609150";
  "5b506020830152151581528715610a07578051610a07576040517f08c379a00000000000000000000000000000000000";
  "0000000000000000000000815260206004820152601760248201527f4d756c746963616c6c333a2063616c6c20666169";
  "6c656400000000000000000060448201526064016104dd565b506001016108c3565b5050509392505050565b60008060";
  "60610a2b60018686610690565b919790965090945092505050565b60008083601f840112610a4b57600080fd5b508135";
  "67ffffffffffffffff811115610a6357600080fd5b6020830191508360208260051b8501011115610a7e57600080fd5b";
  "9250929050565b60008060208385031215610a9857600080fd5b823567ffffffffffffffff811115610aaf57600080fd";
  "5b610abb85828601610a39565b90969095509350505050565b6000815180845260005b81811015610aed576020818501";
  "81015186830182015201610ad1565b81811115610aff576000602083870101525b50601f017fffffffffffffffffffff";
  "ffffffffffffffffffffffffffffffffffffffffffe0169290920160200192915050565b600082825180855260208086";
  "019550808260051b84010181860160005b84811015610bb1578583037fffffffffffffffffffffffffffffffffffffff";
  "ffffffffffffffffffffffffe001895281518051151584528401516040858501819052610b9d81860183610ac7565b9a";
  "86019a9450505090830190600101610b4f565b5090979650505050505050565b602081526000610bd16020830184610b";
  "32565b9392505050565b600060408201848352602060408185015281855180845260608601915060608160051b870101";
  "935082870160005b82811015610c52577fffffffffffffffffffffffffffffffffffffffffffffffffffffffffffffff";
  "a0888703018452610c40868351610ac7565b95509284019290840190600101610c06565b509398975050505050505050";
  "565b600080600060408486031215610c7557600080fd5b83358015158114610c8557600080fd5b9250602084013567ff";
  "ffffffffffffff811115610ca157600080fd5b610cad86828701610a39565b9497909650939450505050565b83815282";
  "6020820152606060408201526000610cd96060830184610b32565b95945050505050565b600060208284031215610cf4";
  "57600080fd5b813573ffffffffffffffffffffffffffffffffffffffff81168114610bd157600080fd5b600060208284";
  "031215610d2a57600080fd5b5035919050565b7f4e487b71000000000000000000000000000000000000000000000000";
  "00000000600052604160045260246000fd5b7f4e487b7100000000000000000000000000000000000000000000000000";
  "000000600052603260045260246000fd5b600082357fffffffffffffffffffffffffffffffffffffffffffffffffffff";
  "ffffffffff81833603018112610dc357600080fd5b9190910192915050565b60008083357fffffffffffffffffffffff";
  "ffffffffffffffffffffffffffffffffffffffffe1843603018112610e0257600080fd5b83018035915067ffffffffff";
  "ffffff821115610e1d57600080fd5b602001915036819003821315610a7e57600080fd5b818382376000910190815291";
  "9050565b600082357fffffffffffffffffffffffffffffffffffffffffffffffffffffffffffffffc183360301811261";
  "0dc357600080fd5b600082357fffffffffffffffffffffffffffffffffffffffffffffffffffffffffffffffa1833603";
  "018112610dc357600080fdfea2646970667358221220bb2b5c71a328032f97c676ae39a1ec2148d3e5d6f73d95e9b179";
  "10152d61f16264736f6c634300080c0033"]).
Definition MULTICALL3_CODE : text := §"0x" ++ CODE_BODY.
