(* ===== verification/Process.v ===== *)
(** * Processes

    What a script of the devnet or of scripts/ is made of: a process with an
    environment, files, two output streams and a history of what it has asked
    of the world outside (RPC endpoints through viem, child processes, the
    network). The answers are parameters, functions of the history, so the
    world may change between two questions; devnet/lib/proc.ts is written over
    them. *)

From Stdlib Require Import ZArith Lia.
From S2P Require Import Prelude Bytes Text JsText Numbers.

(** ** Values the endpoints answer with *)
Record JsErr : Type := mkErr { e_name : text; e_message : text; e_shortMessage : option text }.
Definition plain_error (m : text) : JsErr := mkErr (§"Error") m None.

Record Tx : Type := mkTx { tx_hash : text; tx_to : option text; tx_value : Z }.
Record Block : Type := mkBlock {
  b_hash : text; b_number : Z; b_timestamp : Z; b_transactions : list Tx;
  b_stateRoot : text; b_withdrawalsRoot : option text }.
Record Receipt : Type := mkReceipt { r_status : text; r_transactionHash : text; r_blockNumber : Z }.
(** cartesi_getTransactionEmissions and cartesi_getOutputProof
    (devnet/lib/cartesi.ts); payloads as the bytes they spell, quantities as
    numbers. *)
Record TransactionEmissions : Type := mkEmissions {
  accepted : bool; cycles : Z; outputs : list (Z * bytes); reports : list bytes }.
Record OutputProof : Type := mkOutputProof {
  op_output : text; outputHashesSiblings : list text; outputsMerkleRoot : text;
  op_withdrawalsRoot : text; outputsRootProof : list text }.
Record AbiItem : Type := mkAbiItem {
  ai_type : text; ai_name : text; ai_inputs : list (text * text); ai_outputs : list text; ai_stateMutability : text }.
Record ContractEntry : Type := mkContractEntry {
  ce_address : text; ce_kind : text; ce_abi : option (list AbiItem); ce_l1Token : option text }.
Record ContractsList : Type := mkContractsList { cl_blockHash : text; cl_blockNumber : Z; cl_contracts : list ContractEntry }.
(** What waitToProve finds: the game's metadata word, the proposed output, the
    withdrawal. *)
Record ToProve : Type := mkToProve {
  tp_metadata : text; tp_outputIndex : Z; tp_l2BlockNumber : Z; tp_withdrawalHash : text }.

(** What viem knows of a chain (defineChain): identifier, name, endpoint, the
    currency's name, symbol and decimals, the chain it settles on, and the
    addresses of its contracts, on that chain where they name one. *)
Record Chain : Type := mkChain {
  ch_id : num; ch_name : text; ch_rpc : text; ch_currency : text * text * Z; ch_sourceId : option num;
  ch_contracts : list (text * option num * text) }.

(** An argument of a contract call or an RPC method. *)
#[warnings="-register-all"]
Inductive Arg : Type := ANum (z : Z) | AStr (t : text) | ABool (b : bool) | AList (l : list Arg).

(** The questions, indexed by the type of their answers. *)
Inductive Call : Type -> Type :=
  | GetChainId : Call Z
  | GetBlockNumber : Call Z
  | GetBlock (n : Z) : Call Block
  | GetCode (address : text) : Call (option text)
  | GetBalance (address : text) : Call Z
  | ReadContract (address fn : text) (args : list Arg) : Call Z
  | ReadGameAtIndex (factory : text) (i : Z) : Call (Z * Z * text)
  | WaitForReceipt (hash : text) (timeout : option Z) : Call Receipt
  | RpcRequest (method : text) (params : list Arg) : Call unit
  | SendTransaction (to : text) (data : option text) (value : option Z) : Call text
  | WriteContract (address fn : text) (args : list Arg) : Call text
  | GetTransactionEmissions (hash : text) : Call TransactionEmissions
  | GetOutputProof (index blockNumber : Z) : Call OutputProof
  | GetContracts (blockNumber : option Z) : Call ContractsList
  | WaitToProve (receipt : Receipt) (targetChain : Chain) : Call ToProve
  | BuildProveWithdrawal (p : ToProve) : Call text
  | ProveWithdrawal (args : text) : Call text
  | FinalizeWithdrawal (p : ToProve) (targetChain : Chain) : Call text
  | BuildInitiateWithdrawal (to : text) (value : Z) : Call text
  | InitiateWithdrawal (args : text) : Call text
  | DepositTransaction (to : text) (value mint gas : Z) (targetChain : Chain) : Call text
  | Fetch (body : text) : Call unit.

(** What a process did, in order: a question to an endpoint (by its URL, and
    by the key of the wallet that signs), or a child process. *)
Inductive Event : Type :=
  | Asked {A : Type} (url : text) (key : option text) (c : Call A)
  | Spawned (cmd : list text) (cwd : option text) (env : gmap text text).

(** ** Files *)
Inductive entry : Type := File (contents : text) | Dir.
Abbreviation files := (gmap text entry).

(** ** The world outside *)
Class Host : Type := {
  answer : forall {A : Type}, list Event -> text -> option text -> Call A -> JsErr + A;
  (** A child's exit code, standard output and error, and the files it leaves;
      an error when it cannot be started. *)
  child : list Event -> list text -> option text -> gmap text text -> files -> JsErr + (Z * text * text * files);
  (** The error a write ends with, and what it leaves of the file if it got to
      open it: nothing where the directory is missing or closed to writing, a
      part of the text where the disk is full. *)
  write_fault : list Event -> files -> text -> text -> option (JsErr * option text);
  which : text -> bool;
  randomBytes : list Event -> Z -> bytes;
  (** viem: privateKeyToAccount(key).address, getAddress, getL2TransactionHashes,
      toFunctionSelector, encodeFunctionData, isHex, formatEther, decodeErrorResult (the error's
      name and its arguments, as strings). *)
  accountOf : text -> text;
  getAddress : text -> JsErr + text;
  l2HashesOf : Receipt -> list text;
  selectorOf : text -> text;
  encodeFunctionData : text -> list Arg -> JsErr + text;
  isHex : text -> bool;
  formatEther : Z -> text;
  decodeErrorResult : bytes -> JsErr + (text * option (list text)) }.

(** ** The process *)
Record World : Type := mkWorld {
  fs : files;
  environ : gmap text text;         (* process.env *)
  stdout : list text;               (* the lines written, in order *)
  stderr : list text;
  history : list Event }.

Inductive result (A : Type) : Type :=
  | Done (a : A)
  | Thrown (e : JsErr)
  | Exited (code : Z)               (* process.exit *)
  | Running.                        (* a [for (;;)] loop, still going *)
Arguments Done {A} a.
Arguments Thrown {A} e.
Arguments Exited {A} code.
Arguments Running {A}.

Definition Proc (A : Type) : Type := World -> result A * World.
#[export] Instance Proc_ret : MRet Proc := fun A a w => (Done a, w).
#[export] Instance Proc_bind : MBind Proc := fun A B f m w =>
  match m w with
  | (Done a, w') => f a w'
  | (Thrown e, w') => (Thrown e, w')
  | (Exited c, w') => (Exited c, w')
  | (Running, w') => (Running, w')
  end.

Definition throwing {A} (e : JsErr) : Proc A := fun w => (Thrown e, w).
Definition exit_ {A} (code : Z) : Proc A := fun w => (Exited code, w).
Definition reading {A} (f : World -> A) : Proc A := fun w => (Done (f w), w).
Definition running {A} : Proc A := fun w => (Running, w).
(** [try { m } catch (e) { h(e) }]; [process.exit] is not caught. *)
Definition attempt {A} (m : Proc A) (h : JsErr -> Proc A) : Proc A := fun w =>
  match m w with (Thrown e, w') => h e w' | r => r end.
Definition guard_ (b : bool) (m : Proc unit) : Proc unit := if b then m else mret tt.
Fixpoint each {A} (f : A -> Proc unit) (l : list A) : Proc unit :=
  match l with [] => mret tt | x :: l => _ ← f x; each f l end.

Definition set_fs (f : files) (w : World) : World := mkWorld f (environ w) (stdout w) (stderr w) (history w).
Definition console_log (t : text) : Proc unit := fun w =>
  (Done tt, mkWorld (fs w) (environ w) (stdout w ++ [t]) (stderr w) (history w)).
Definition console_error (t : text) : Proc unit := fun w =>
  (Done tt, mkWorld (fs w) (environ w) (stdout w) (stderr w ++ [t]) (history w)).
Definition setenv (k v : text) (w : World) : World :=
  mkWorld (fs w) (<[k := v]> (environ w)) (stdout w) (stderr w) (history w).

(** ** node:fs *)
Definition existsSync (path : text) : Proc bool := reading (fun w => bool_decide (is_Some (fs w !! path))).
Definition fs_error (what call path : text) : JsErr := plain_error (what ++ §", " ++ call ++ §" '" ++ path ++ §"'").
Definition ENOENT : text := §"ENOENT: no such file or directory".
Definition EISDIR : text := §"EISDIR: illegal operation on a directory".
Definition readFileSync (path : text) : Proc text := fun w =>
  match fs w !! path with
  | Some (File t) => (Done t, w)
  | Some Dir => (Thrown (fs_error EISDIR (§"read") path), w)
  | None => (Thrown (fs_error ENOENT (§"open") path), w)
  end.
Definition unlinkSync (path : text) : Proc unit := fun w =>
  match fs w !! path with
  | Some (File _) => (Done tt, set_fs (delete path (fs w)) w)
  | Some Dir => (Thrown (fs_error EISDIR (§"unlink") path), w)
  | None => (Thrown (fs_error ENOENT (§"unlink") path), w)
  end.
(** [rmSync(dir, { recursive: true, force: true })] and
    [mkdirSync(dir, { recursive: true })]. *)
Definition under (dir path : text) : bool := text_eq path dir || startsWith (dir ++ §"/") path.
Definition rmSync (dir : text) : Proc unit := fun w =>
  (Done tt, set_fs (filter (fun '(p, _) => under dir p = false) (fs w)) w).
Definition mkdirSync (dir : text) : Proc unit := fun w =>
  match fs w !! dir with
  | Some (File _) => (Thrown (fs_error (§"EEXIST: file already exists") (§"mkdir") dir), w)
  | _ => (Done tt, set_fs (<[dir := Dir]> (fs w)) w)
  end.

(** ** Asking *)
Section Host.
Context `{Host}.

Definition remember (e : Event) (w : World) : World :=
  mkWorld (fs w) (environ w) (stdout w) (stderr w) (history w ++ [e]).
Definition ask {A} (url : text) (key : option text) (c : Call A) : Proc A := fun w =>
  match answer (history w) url key c with
  | inr a => (Done a, remember (Asked url key c) w)
  | inl e => (Thrown e, remember (Asked url key c) w)
  end.

(** node:fs; a write that fails is not in the history. *)
Definition writeFileSync (path t : text) : Proc unit := fun w =>
  match fs w !! path with
  | Some Dir => (Thrown (fs_error EISDIR (§"open") path), w)
  | _ => match write_fault (history w) (fs w) path t with
         | None => (Done tt, set_fs (<[path := File t]> (fs w)) w)
         | Some (e, None) => (Thrown e, w)
         | Some (e, Some part) => (Thrown e, set_fs (<[path := File part]> (fs w)) w)
         end
  end.

(** What a pure call of the library returned, or its exception. *)
Definition settle {A} (r : JsErr + A) : Proc A := match r with inr a => mret a | inl e => throwing e end.

(** ** devnet/lib/proc.ts *)
Definition say (message : text) : Proc unit := console_error (§"==> " ++ message).
Definition die {A} (message : text) : Proc A := _ ← console_error (§"!!! " ++ message); exit_ 1.

(** What an uncaught error becomes in a step that imports proc.ts. *)
Definition reportAndExit {A} (e : JsErr) : Proc A := fun w =>
  match environ w !! (§"DEVNET_DEBUG") with
  | Some (_ :: _) => (_ ← console_error (e_message e); exit_ 1) w
  | _ => (_ ← console_error (§"!!! " ++ default (first_line (e_message e)) (e_shortMessage e));
          _ ← console_error (§"    (DEVNET_DEBUG=1 for the full error)"); exit_ 1) w
  end.
(** A step as a process: it ends on its own, exits, or dies of an uncaught
    error. *)
Definition main (m : Proc unit) : Proc unit := attempt m reportAndExit.

Record RunOptions : Type := mkRunOptions { o_cwd : option text; o_env : gmap text text; o_capture : bool }.
Definition run_in (cwd : text) : RunOptions := mkRunOptions (Some cwd) ∅ false.
Record RunResult : Type := mkRunResult { code : Z; out : text }.

(** The child inherits the environment with the options' variables on top; its
    output goes through to this process's unless it is collected. *)
Definition run (cmd : list text) (options : RunOptions) : Proc RunResult := fun w =>
  let env := o_env options ∪ environ w in
  let w' := remember (Spawned cmd (o_cwd options) env) w in
  match child (history w) cmd (o_cwd options) env (fs w) with
  | inl e => (Thrown e, w')
  | inr (c, out, err, fs') =>
      let w'' := mkWorld fs' (environ w') (stdout w' ++ (if o_capture options then [] else [out])) (stderr w' ++ [err]) (history w') in
      (Done (mkRunResult c (if o_capture options then out else [])), w'')
  end.
Definition exec {A} (cmd : list text) (options : RunOptions) : Proc A :=
  r ← run cmd options; exit_ (code r).
Definition must (cmd : list text) (options : RunOptions) : Proc RunResult :=
  r ← run cmd options;
  if negb (code r =? 0) then die (default (§"undefined") (head cmd) ++ §" exited " ++ dec (code r)) else mret r.
Definition forget (path : text) : Proc unit := attempt (unlinkSync path) (fun _ => mret tt).
End Host.

(** * Reasoning about processes *)
Create HintDb proc discriminated.
#[export] Hint Constants Opaque : proc.

Lemma pbind_done {A B} (m : Proc A) (f : A -> Proc B) w a w' : m w = (Done a, w') -> (m ≫= f) w = f a w'.
Proof. unfold mbind, Proc_bind. by intros ->. Qed.
Lemma pbind_thrown {A B} (m : Proc A) (f : A -> Proc B) w e w' : m w = (Thrown e, w') -> (m ≫= f) w = (Thrown e, w').
Proof. unfold mbind, Proc_bind. by intros ->. Qed.
Lemma pbind_inv {A B} (m : Proc A) (f : A -> Proc B) w r w' : (m ≫= f) w = (r, w') ->
  (exists a w1, m w = (Done a, w1) /\ f a w1 = (r, w'))
  \/ (exists e, m w = (Thrown e, w') /\ r = Thrown e)
  \/ (exists c, m w = (Exited c, w') /\ r = Exited c)
  \/ (m w = (Running, w') /\ r = Running).
Proof. unfold mbind, Proc_bind. destruct (m w) as [[a|e|c|] w1]; naive_solver. Qed.
Lemma pbind_done_inv {A B} (m : Proc A) (f : A -> Proc B) w b w' : (m ≫= f) w = (Done b, w') ->
  exists a w1, m w = (Done a, w1) /\ f a w1 = (Done b, w').
Proof. intros [?|[(?&_&?)|[(?&_&?)|[_ ?]]]]%pbind_inv; [done|discriminate..]. Qed.

(** A computation that leaves the world as it was. *)
Definition quiet {A} (m : Proc A) : Prop := forall w, (m w).2 = w.
Lemma quiet_ret {A} (a : A) : quiet (mret a).
Proof. done. Qed.
Lemma quiet_reading {A} (f : World -> A) : quiet (reading f).
Proof. done. Qed.
Lemma quiet_throwing {A} e : quiet (throwing (A := A) e).
Proof. done. Qed.
Lemma quiet_bind {A B} (m : Proc A) (f : A -> Proc B) : quiet m -> (forall a, quiet (f a)) -> quiet (m ≫= f).
Proof.
  unfold quiet, mbind, Proc_bind. intros Hm Hf w. specialize (Hm w). destruct (m w) as [[a|e|c|] w']; simpl in *; subst; done.
Qed.
Lemma quiet_read path : quiet (readFileSync path).
Proof. intros w. unfold readFileSync. by destruct (fs w !! path) as [[t|]|]. Qed.
Lemma quiet_exists path : quiet (existsSync path).
Proof. done. Qed.
Lemma quiet_done {A} (m : Proc A) w a w' : quiet m -> m w = (Done a, w') -> w' = w.
Proof. intros Hm Hw. specialize (Hm w). by rewrite Hw in Hm. Qed.
#[export] Hint Resolve quiet_ret quiet_reading quiet_throwing quiet_read quiet_exists : proc.
(** A composition of quiet computations, with its branches. *)
Ltac quiet_step :=
  cbv zeta;
  match goal with
  | |- quiet (mbind _ _) => apply quiet_bind; [|intros ?]
  | |- quiet (if ?b then _ else _) => destruct b
  | |- quiet (match ?x with _ => _ end) => destruct x
  | |- quiet _ => solve [auto 2 with proc nocore]
  end.
Ltac quiet_tac := repeat quiet_step.

Lemma forget_spec path w : forget path w = (Done tt, set_fs (match fs w !! path with Some (File _) => delete path (fs w) | _ => fs w end) w).
Proof. unfold forget, attempt, unlinkSync. destruct (fs w !! path) as [[t|]|]; by destruct w. Qed.
(** A write is done, or throws and at most that file is another. *)
Lemma writeFileSync_spec `{Host} path t w :
  (writeFileSync path t w = (Done tt, set_fs (<[path := File t]> (fs w)) w) /\ fs w !! path <> Some Dir)
  \/ exists e w', writeFileSync path t w = (Thrown e, w') /\ environ w' = environ w /\ history w' = history w
       /\ forall other, other <> path -> fs w' !! other = fs w !! other.
Proof.
  unfold writeFileSync. destruct (fs w !! path) as [[t'|]|] eqn:Hf; [|right; by eexists _, w|].
  all: destruct (write_fault (history w) (fs w) path t) as [[e [part|]]|]; [right|right; by eexists _, w|by left].
  all: eexists _, _; split_and!; try reflexivity; intros other Ho; simpl; by rewrite lookup_insert_ne.
Qed.
Lemma writeFileSync_done `{Host} path t w u w' : writeFileSync path t w = (Done u, w') ->
  fs w !! path <> Some Dir /\ w' = set_fs (<[path := File t]> (fs w)) w.
Proof. destruct (writeFileSync_spec path t w) as [[-> ?]|(e & w1 & -> & _)]; by intros [= <-]. Qed.
(** Writing to the streams leaves files, environment and history alone. *)
Lemma say_spec m w : exists err, say m w = (Done tt, mkWorld (fs w) (environ w) (stdout w) err (history w)).
Proof. by eexists. Qed.
Lemma die_spec {A} m w : exists err, die m w = ((Exited 1 : result A), mkWorld (fs w) (environ w) (stdout w) err (history w)).
Proof. by eexists. Qed.
Lemma ask_cases `{Host} {A} url key (c : Call A) w r w' : ask url key c w = (r, w') ->
  w' = remember (Asked url key c) w /\
  ((exists a, answer (history w) url key c = inr a /\ r = Done a) \/ (exists e, answer (history w) url key c = inl e /\ r = Thrown e)).
Proof. unfold ask. destruct (answer _ _ _ _) as [e|a]; intros [=]; subst; naive_solver. Qed.
Lemma must_done `{Host} cmd o w r w' : must cmd o w = (Done r, w') -> exists out err fs',
  child (history w) cmd (o_cwd o) (o_env o ∪ environ w) (fs w) = inr (0, out, err, fs')
  /\ fs w' = fs' /\ environ w' = environ w /\ history w' = history w ++ [Spawned cmd (o_cwd o) (o_env o ∪ environ w)].
Proof.
  unfold must. intros (x & w1 & Hr & Hm)%pbind_done_inv. unfold run in Hr. destruct (child _ _ _ _ _) as [e|[[[c out] err] fs']] eqn:Hc; [done|].
  injection Hr as <- <-. simpl in Hm. destruct (Z.eqb_spec c 0) as [->|]; [|done]. injection Hm as <- <-. eauto 10.
Qed.

(** A computation that leaves files and environment as they were: it asks, and
    it writes to the streams. *)
Definition keeps {A} (m : Proc A) : Prop := forall w, fs (m w).2 = fs w /\ environ (m w).2 = environ w.
Lemma quiet_keeps {A} (m : Proc A) : quiet m -> keeps m.
Proof. intros Hq w. by rewrite Hq. Qed.
Lemma keeps_bind_proc {A B} (m : Proc A) (f : A -> Proc B) : keeps m -> (forall a, keeps (f a)) -> keeps (m ≫= f).
Proof.
  unfold keeps, mbind, Proc_bind. intros Hm Hf w. specialize (Hm w). destruct (m w) as [[a|e|c|] w']; simpl in *; try done.
  destruct Hm as [<- <-]. apply Hf.
Qed.
Lemma keeps_attempt {A} (m : Proc A) (h : JsErr -> Proc A) : keeps m -> (forall e, keeps (h e)) -> keeps (attempt m h).
Proof.
  unfold keeps, attempt. intros Hm Hh w. specialize (Hm w). destruct (m w) as [[a|e|c|] w']; simpl in *; try done.
  destruct Hm as [<- <-]. apply Hh.
Qed.
Lemma keeps_ask `{Host} {A} url key (c : Call A) : keeps (ask url key c).
Proof. intros w. unfold ask. by destruct (answer _ _ _ _). Qed.
Lemma keeps_exit {A} c : keeps (exit_ (A := A) c).
Proof. done. Qed.
Lemma keeps_error t : keeps (console_error t).
Proof. done. Qed.
Lemma keeps_log t : keeps (console_log t).
Proof. done. Qed.
Lemma keeps_say t : keeps (say t).
Proof. done. Qed.
Lemma keeps_die {A} t : keeps (die (A := A) t).
Proof. done. Qed.
#[export] Hint Resolve keeps_ask keeps_exit keeps_error keeps_log keeps_say keeps_die : proc.
Ltac keeps_step :=
  cbv zeta;
  match goal with
  | |- keeps (mbind _ _) => apply keeps_bind_proc; [|intros ?]
  | |- keeps (attempt _ _) => apply keeps_attempt; [|intros ?]
  | |- keeps (if ?b then _ else _) => destruct b
  | |- keeps (match ?x with _ => _ end) => destruct x
  | |- keeps _ => solve [auto 2 with proc nocore|apply quiet_keeps; auto 2 with proc nocore]
  end.
Ltac keeps_tac := repeat keeps_step.
Lemma keeps_elim {A} (m : Proc A) w r w' : keeps m -> m w = (r, w') -> fs w' = fs w /\ environ w' = environ w.
Proof. intros Hm Hw. specialize (Hm w). by rewrite Hw in Hm. Qed.
