(* ===== verification/Signals.v ===== *)
(** * Signals forwarded to a child

    The other half of [run] in devnet/lib/proc.ts: while a child runs, the
    signals that stop a container reach it; when it has ended, however it
    ended, the process's listeners are the ones it had. [Process] has what the
    child does to the files and the streams. *)

From Stdlib Require Import ZArith Lia.
From S2P Require Import Prelude.

Definition FORWARDED : list string := ["SIGINT"; "SIGTERM"; "SIGHUP"].

(** ** Listeners

    A closure by what it is: [run]'s handler of a signal for its child, or one
    that something else installed. *)
Inductive Listener : Type := Forward (child : nat) (signal : string) | Other (n : nat).
#[export] Instance Listener_eq_dec : EqDecision Listener.
Proof. solve_decision. Defined.

(** What is registered on [process], oldest first; the children still alive;
    the signals they were sent, and those other listeners saw. *)
Record Supervisor : Type := mkSupervisor {
  listeners : list (string * Listener); living : list nat; sent : list (nat * string); seen : list (nat * string)
}.
Definition set_listeners (l : list (string * Listener)) (s : Supervisor) : Supervisor :=
  mkSupervisor l (living s) (sent s) (seen s).

(** [process.on] appends, [process.off] removes the most recent registration. *)
Definition on (signal : string) (h : Listener) : M Supervisor unit :=
  modify (fun s => set_listeners (listeners s ++ [(signal, h)]) s).
Fixpoint remove_first (x : string * Listener) (l : list (string * Listener)) : list (string * Listener) :=
  match l with [] => [] | y :: l => if bool_decide (y = x) then l else y :: remove_first x l end.
Definition off (signal : string) (h : Listener) : M Supervisor unit :=
  modify (fun s => set_listeners (reverse (remove_first (signal, h) (reverse (listeners s)))) s).

(** [child.kill(signal)], which throws when the child is gone, and [forward],
    which does not. *)
Definition kill (child : nat) (signal : string) : M Supervisor unit := fun s =>
  if bool_decide (child ∈ living s) then (Val tt, mkSupervisor (listeners s) (living s) (sent s ++ [(child, signal)]) (seen s))
  else (Exn (JsError "kill ESRCH"), s).
Definition forward (child : nat) (signal : string) : M Supervisor unit := try_catch (kill child signal) (fun _ => mret tt).
Definition invoke (signal : string) (h : Listener) : M Supervisor unit :=
  match h with
  | Forward child signal => forward child signal
  | Other n => modify (fun s => mkSupervisor (listeners s) (living s) (sent s) (seen s ++ [(n, signal)]))
  end.
Fixpoint invoke_all (signal : string) (l : list (string * Listener)) : M Supervisor unit :=
  match l with
  | [] => mret tt
  | (name, h) :: l => (if bool_decide (name = signal) then invoke signal h else mret tt);; invoke_all signal l
  end.
(** A signal arrives: the listeners registered at that moment are called, in
    order. *)
Definition deliver (signal : string) : M Supervisor unit := l ← gets listeners; invoke_all signal l.
(** The child ends. *)
Definition ended (child : nat) : M Supervisor unit :=
  modify (fun s => mkSupervisor (listeners s) (filter (fun c => c <> child) (living s)) (sent s) (seen s)).

(** ** [run], around the wait for the child *)
Fixpoint register_all (child : nat) (signals : list string) : M Supervisor unit :=
  match signals with [] => mret tt | signal :: signals => on signal (Forward child signal);; register_all child signals end.
Fixpoint unregister_all (child : nat) (signals : list string) : M Supervisor unit :=
  match signals with [] => mret tt | signal :: signals => off signal (Forward child signal);; unregister_all child signals end.
(** [try { m } finally { f }], for an [f] that returns. *)
Definition finally {A} (m : M Supervisor A) (f : M Supervisor unit) : M Supervisor A := fun s =>
  let '(o, s') := m s in (o, (f s').2).
Definition forwarding {A} (child : nat) (wait : M Supervisor A) : M Supervisor A :=
  register_all child FORWARDED;; finally wait (unregister_all child FORWARDED).

(** While the child runs signals arrive; then it ends, and a signal may still
    arrive before the wait resumes; the wait returns the exit code, or throws. *)
Fixpoint deliver_all (signals : list string) : M Supervisor unit :=
  match signals with [] => mret tt | signal :: signals => deliver signal;; deliver_all signals end.
Definition waiting (child : nat) (before after : list string) (code : outcome Z) : M Supervisor Z :=
  deliver_all before;; ended child;; deliver_all after;; liftO code.

(** * What it does *)

Definition forwards (child : nat) : list (string * Listener) := map (fun signal => (signal, Forward child signal)) FORWARDED.
Definition foreign (s : Supervisor) : Prop := Forall (fun x => exists n, x.2 = Other n) (listeners s).

Lemma register_all_run child signals s : register_all child signals s
  = (Val tt, set_listeners (listeners s ++ map (fun signal => (signal, Forward child signal)) signals) s).
Proof.
  revert s. induction signals as [|x l IH]; intros s; simpl.
  - rewrite app_nil_r. by destruct s.
  - rewrite (bind_val _ _ _ _ _ (eq_refl : on x _ s = (Val tt, _))), IH. unfold set_listeners. simpl. by rewrite <- app_assoc.
Qed.

(** An [off] of a handler registered once, wherever it is, takes it away. *)
Lemma remove_first_app x l r : x ∉ l -> remove_first x (l ++ x :: r) = l ++ r.
Proof.
  induction l as [|y l IH]; intros Hn; cbn [app remove_first]; [by rewrite bool_decide_eq_true_2|].
  apply not_elem_of_cons in Hn as [Hy Hn]. rewrite bool_decide_eq_false_2 by congruence. by rewrite IH.
Qed.
Lemma off_run signal h s l1 l2 : listeners s = l1 ++ (signal, h) :: l2 -> (signal, h) ∉ l2 ->
  off signal h s = (Val tt, set_listeners (l1 ++ l2) s).
Proof.
  intros Hl Hn. unfold off, modify. rewrite Hl, reverse_app, reverse_cons, <- app_assoc. cbn [app].
  rewrite remove_first_app by (by rewrite elem_of_reverse). by rewrite reverse_app, !reverse_involutive.
Qed.
Lemma FORWARDED_distinct : NoDup FORWARDED.
Proof. apply (bool_decide_unpack _). reflexivity. Qed.
Lemma unregister_run child l signals : NoDup signals -> forall s,
  listeners s = l ++ map (fun signal => (signal, Forward child signal)) signals ->
  unregister_all child signals s = (Val tt, set_listeners l s).
Proof.
  induction 1 as [|x signals Hx _ IH]; intros s Hl; cbn [unregister_all map] in *.
  - rewrite app_nil_r in Hl. subst l. by destruct s.
  - erewrite bind_val; [|eapply off_run; [exact Hl|]]; [by rewrite (IH (set_listeners _ s) eq_refl)|].
    rewrite list_elem_of_fmap. intros (y & [= <-] & Hy). done.
Qed.

(** A signal for which only foreign listeners are registered is sent to no
    child; one of [FORWARDED] reaches the child, if it lives, exactly once. *)
Definition forwarded (signals : list string) : list string := filter (fun x => x ∈ FORWARDED) signals.
Lemma invoke_foreign signal l s : Forall (fun x => exists n, x.2 = Other n) l ->
  exists ns, invoke_all signal l s = (Val tt, mkSupervisor (listeners s) (living s) (sent s) (seen s ++ ns)).
Proof.
  revert s. induction l as [|[name h] l IH]; intros s Hf; cbn [invoke_all].
  - exists []. rewrite app_nil_r. by destruct s.
  - apply Forall_cons in Hf as [[n Hn] Hf]. simpl in Hn. subst h. case_bool_decide.
    + destruct (IH (mkSupervisor (listeners s) (living s) (sent s) (seen s ++ [(n, signal)])) Hf) as [ns Hns].
      exists ((n, signal) :: ns). cbn in *. unfold mbind, M_bind. simpl. rewrite Hns. by rewrite <- app_assoc.
    + destruct (IH s Hf) as [ns Hns]. exists ns. unfold mbind, M_bind. simpl. exact Hns.
Qed.
Lemma invoke_all_app signal l1 l2 s s1 : invoke_all signal l1 s = (Val tt, s1) ->
  invoke_all signal (l1 ++ l2) s = invoke_all signal l2 s1.
Proof.
  revert s. induction l1 as [|[name h] l IH]; intros s H; cbn [invoke_all app] in *; [by injection H as <-|].
  unfold mbind, M_bind in *. destruct ((if bool_decide (name = signal) then invoke signal h else mret tt) s) as [[[]|e|] s2]; [by apply IH|done..].
Qed.

(** What a delivery sends to the child. *)
Definition reaches (child : nat) (s : Supervisor) (signals : list string) : list (nat * string) :=
  if bool_decide (child ∈ living s) then map (fun x => (child, x)) (forwarded signals) else [].
Lemma forwards_run child signal s : invoke_all signal (forwards child) s
  = (Val tt, mkSupervisor (listeners s) (living s) (sent s ++ reaches child s [signal]) (seen s)).
Proof.
  assert (Hq : forall (m : M Supervisor unit), (mret tt;; m) s = m s) by done.
  unfold reaches, forwarded, forwards, FORWARDED. cbn [map invoke_all]. rewrite filter_cons, filter_nil.
  destruct (decide (signal ∈ _)) as [Hin|Hout].
  - repeat (apply elem_of_cons in Hin as [->|Hin]); [..|by apply not_elem_of_nil in Hin];
      destruct s; cbn [invoke]; unfold mbind, M_bind, forward, try_catch, kill; cbn;
      repeat (case_bool_decide; try congruence; cbn); by rewrite ?app_nil_r.
  - repeat (apply not_elem_of_cons in Hout as [? Hout]). rewrite !bool_decide_eq_false_2 by congruence. rewrite !Hq.
    destruct s. cbn. by case_bool_decide; rewrite app_nil_r.
Qed.

(** Signals delivered while [run] waits. *)
Definition waits (child : nat) (l : list (string * Listener)) (s : Supervisor) : Prop :=
  listeners s = l ++ forwards child /\ Forall (fun x => exists n, x.2 = Other n) l.
Lemma deliver_run child l signal s : waits child l s -> exists ns, deliver signal s
  = (Val tt, mkSupervisor (listeners s) (living s) (sent s ++ reaches child s [signal]) (seen s ++ ns)).
Proof.
  intros [Hl Hf]. destruct (invoke_foreign signal l s Hf) as [ns Hns]. exists ns.
  unfold deliver. erewrite bind_val by done. rewrite Hl at 1. rewrite (invoke_all_app _ _ _ _ _ Hns). apply forwards_run.
Qed.
Lemma deliver_all_run child l signals : forall s, waits child l s -> exists ns, deliver_all signals s
  = (Val tt, mkSupervisor (listeners s) (living s) (sent s ++ reaches child s signals) (seen s ++ ns)).
Proof.
  induction signals as [|x signals IH]; intros s Hw; cbn [deliver_all].
  - exists []. unfold reaches, forwarded. rewrite filter_nil. destruct s. cbn. rewrite !app_nil_r. case_bool_decide; by rewrite app_nil_r.
  - destruct (deliver_run child l x s Hw) as [ns Hns]. rewrite (bind_val _ _ _ _ _ Hns).
    destruct (IH (mkSupervisor (listeners s) (living s) (sent s ++ reaches child s [x]) (seen s ++ ns)) Hw) as [ns' Hns'].
    exists (ns ++ ns'). rewrite Hns'. cbn [listeners living sent seen]. rewrite <- !app_assoc. do 3 f_equal. unfold reaches, forwarded. cbn [living].
    case_bool_decide; [|done]. change (x :: signals) with ([x] ++ signals). by rewrite filter_app, map_app.
Qed.

(** [run] and the signals. Over a process whose listeners are others', whatever
    arrives while the child lives and after, and however the wait ends: every
    forwarded signal that arrived while it lived reached the child, once each
    and in order, and no other did; and the process is left with the listeners
    it had. *)
Lemma forwarding_run child before after code s : Forall (fun x => exists n, x.2 = Other n) (listeners s) -> child ∈ living s ->
  exists ns, forwarding child (waiting child before after code) s
    = (code, mkSupervisor (listeners s) (filter (fun c => c <> child) (living s))
               (sent s ++ map (fun x => (child, x)) (forwarded before)) (seen s ++ ns)).
Proof.
  intros Hf Hc. unfold forwarding. rewrite (bind_val _ _ _ _ _ (register_all_run child FORWARDED s)).
  set (s1 := set_listeners _ s). assert (Hw : waits child (listeners s) s1) by done.
  destruct (deliver_all_run child (listeners s) before s1 Hw) as [ns1 H1]. set (s2 := mkSupervisor _ _ _ _) in H1.
  set (s3 := mkSupervisor (listeners s2) (filter (fun c => c <> child) (living s2)) (sent s2) (seen s2)).
  assert (Hw3 : waits child (listeners s) s3) by done.
  destruct (deliver_all_run child (listeners s) after s3 Hw3) as [ns2 H2]. exists (ns1 ++ ns2).
  unfold finally, waiting. rewrite (bind_val _ _ _ _ _ H1), (bind_val _ _ _ _ _ (eq_refl : ended child s2 = (Val tt, s3))).
  rewrite (bind_val _ _ _ _ _ H2). unfold liftO. erewrite unregister_run; [|exact FORWARDED_distinct|exact (proj1 Hw3)].
  cbn. unfold reaches at 2. rewrite bool_decide_eq_false_2; [|by intros [? _]%list_elem_of_filter].
  unfold reaches. rewrite bool_decide_eq_true_2 by done. by rewrite app_nil_r, <- app_assoc.
Qed.
