(* ===== verification/Requests.v ===== *)
(** * The requests of the cartesi_ namespace

    [cartesiActions] of devnet/lib/cartesi.ts: the method and the parameters
    each action sends. [Process] has the answers, as constructors of [Call]. *)

From Stdlib Require Import ZArith Lia.
From S2P Require Import Prelude Text JsText Process.

(** The actions, with the arguments they take ([getContracts]'s block number is
    optional). *)
Inductive CartesiAction : Type :=
  | getTransactionEmissions (hash : text)
  | getOutputProof (index blockNumber : Z)
  | getContracts (blockNumber : option Z).

#[export] Instance JsResult_ret : MRet (sum JsErr) := fun A a => inr a.
#[export] Instance JsResult_bind : MBind (sum JsErr) := fun A B f m => match m with inl e => inl e | inr a => f a end.

Section Requests.
(** viem's [numberToHex], which refuses a negative number. *)
Context (numberToHex : Z -> JsErr + text).

Definition action_request (a : CartesiAction) : JsErr + (text * list text) :=
  match a with
  | getTransactionEmissions hash => inr (§"cartesi_getTransactionEmissions", [hash])
  | getOutputProof index blockNumber =>
      i ← numberToHex index; b ← numberToHex blockNumber; inr (§"cartesi_getOutputProof", [i; b])
  | getContracts (Some blockNumber) => b ← numberToHex blockNumber; inr (§"cartesi_getContracts", [b])
  | getContracts None => inr (§"cartesi_getContracts", [])
  end.

(** The question of [Process] an action asks. *)
Definition action_call (a : CartesiAction) : { A : Type & Call A } :=
  match a with
  | getTransactionEmissions hash => existT _ (GetTransactionEmissions hash)
  | getOutputProof index blockNumber => existT _ (GetOutputProof index blockNumber)
  | getContracts blockNumber => existT _ (GetContracts blockNumber)
  end.

(** Two actions that send the same request are the same action, when the
    quantities are spelled apart: the node can tell what was asked. *)
Lemma action_request_inj a1 a2 q : (forall m n t, numberToHex m = inr t -> numberToHex n = inr t -> m = n) ->
  action_request a1 = inr q -> action_request a2 = inr q -> a1 = a2.
Proof.
  intros Hinj. unfold action_request, mbind, JsResult_bind.
  destruct a1 as [h1|i1 b1|[b1|]], a2 as [h2|i2 b2|[b2|]]; intros H1 H2;
    repeat case_match; simplify_eq; try done; repeat f_equal; by eapply Hinj.
Qed.

(** An action is refused before anything is sent only for its quantities. *)
Lemma action_request_sent a : (forall n, 0 <= n -> exists t, numberToHex n = inr t) ->
  match a with getTransactionEmissions _ => True | getOutputProof i b => 0 <= i /\ 0 <= b
             | getContracts b => match b with Some b => 0 <= b | None => True end end ->
  exists q, action_request a = inr q.
Proof.
  intros Hok. unfold action_request, mbind, JsResult_bind. destruct a as [h|i b|[b|]]; [by eexists| | |by eexists].
  - intros [Hi Hb]. destruct (Hok i Hi) as [ti ->], (Hok b Hb) as [tb ->]. by eexists.
  - intros Hb. destruct (Hok b Hb) as [tb ->]. by eexists.
Qed.
End Requests.
