(* ===== verification/Env.v ===== *)
(** * The devnet's configuration

    devnet/lib/env.ts: the [KEY=value] files, the layering of deployment files,
    environment and defaults, the values the module computes when it is
    imported, and those it computes on every call ([chainParams],
    [addresses]). *)

From Stdlib Require Import ZArith Lia.
From S2P Require Import Prelude Bytes Text JsText Regex Numbers Process.

(** ** node:path, on an absolute normalized directory and plain names *)
Definition path_join (dir name : text) : text := if text_eq dir (§"/") then dir ++ name else dir ++ §"/" ++ name.
Definition dirname (path : text) : text :=
  match reverse (drop 1 (drop_while (fun c => negb (c =? 47)) (reverse path))) with [] => §"/" | d => d end.

(** [process.env.NAME ?? fallback] *)
Definition env_or (w : World) (name fallback : text) : text := default fallback (environ w !! name).

Record Paths : Type := mkPaths {
  p_devnet : text; p_repo : text; p_opCartesiBin : text; p_jwtSecret : text; p_rollupConfig : text;
  p_l1ChainConfig : text; p_l1Addresses : text; p_chainGenesis : text; p_outputsAddresses : text;
  p_tokenEnv : text; p_deployWorkdir : text; p_chainFlags : text }.

(** [paths], for the module file env.ts was loaded from. *)
Definition paths_of (moduleFile : text) (w : World) : Paths :=
  let devnet := dirname (dirname moduleFile) in
  let repo := dirname devnet in
  {| p_devnet := devnet;
     p_repo := repo;
     p_opCartesiBin := path_join (path_join repo (§"bin")) (§"op-cartesi");
     p_jwtSecret := env_or w (§"JWT_SECRET_FILE") (path_join devnet (§"jwt.hex"));
     p_rollupConfig := env_or w (§"ROLLUP_CONFIG_FILE") (path_join devnet (§"rollup.json"));
     p_l1ChainConfig := env_or w (§"L1_CHAIN_CONFIG") (path_join devnet (§"l1-chain-config.json"));
     p_l1Addresses := path_join devnet (§"l1-addresses.env");
     p_chainGenesis := path_join devnet (§"chain-genesis.env");
     p_outputsAddresses := env_or w (§"OUTPUTS_ENV_FILE") (path_join devnet (§"outputs-addresses.env"));
     p_tokenEnv := env_or w (§"TOKEN_ENV_FILE") (path_join devnet (§"token.env"));
     p_deployWorkdir := env_or w (§"DEPLOY_WORKDIR") (path_join devnet (§"deployment"));
     p_chainFlags := env_or w (§"CHAIN_FLAGS_FILE") (path_join devnet (§"chain-flags")) |}.

(** ** Files of variables *)
Abbreviation vars := (gmap text text).

(** The pattern of a line: a name, an equals sign, a value that may stand
    between double quotes (group 2 and its back reference), to the end of the
    line. *)
Definition line_re : regex :=
  (RBol false · RGroup 1 (RClass is_alpha_ · RStar is_word) · RLit (§"=") · RGroup 2 (ROpt (fun c => c =? 34))
   · RGroup 3 (RStar (fun c => negb (is_terminator c))) · RBack 2 · REol)%re.
(** One line's assignment; assigning a string to [__proto__] leaves an object
    as it is. *)
Definition env_line (line : text) : option (text * text) :=
  match re_match line_re line with
  | Some (_, _, c) => Some (default [] (c !! 1%nat), default [] (c !! 3%nat))
  | None => None
  end.
Definition assign (v : vars) (line : text) : vars :=
  match env_line line with
  | Some (k, x) => if text_eq k (§"__proto__") then v else <[k := x]> v
  | None => v
  end.
Definition env_vars (contents : text) : vars := foldl assign ∅ (split_on NL contents).
Definition readEnvFile (path : text) : Proc vars :=
  there ← existsSync path;
  if negb there then mret ∅ else t ← readFileSync path; mret (env_vars t).

(** The loop that loads the repository's [.env] below the environment. *)
Definition load_dotenv (v : vars) (w : World) : World :=
  mkWorld (fs w) (environ w ∪ v) (stdout w) (stderr w) (history w).

Definition deploymentVars (P : Paths) : Proc vars :=
  a ← readEnvFile (p_l1Addresses P); b ← readEnvFile (p_chainGenesis P);
  c ← readEnvFile (p_outputsAddresses P); d ← readEnvFile (p_tokenEnv P);
  mret (d ∪ (c ∪ (b ∪ a))).

Definition pick (files : vars) (w : World) (name : text) : option text :=
  match files !! name with Some v => Some v | None => environ w !! name end.
Definition value (files : vars) (w : World) (name fallback : text) : text := default fallback (pick files w name).

Definition env_num (w : World) (name : text) (fallback : Z) : num :=
  match environ w !! name with
  | None | Some [] => Number_of_Z fallback
  | Some v => Number v
  end.

(** ** Guards *)
(** [/^0x[0-9a-f]{40}$/] and [/^0x[0-9a-f]{64}$/] *)
Definition hex_re (digit : Z -> bool) (n : nat) : regex := (RBol false · RLit (§"0x") · RRep n digit · REol)%re.
Definition isAddress (v : text) : bool := test (hex_re is_lower_hex 40) v.
Definition isHash (v : text) : bool := test (hex_re is_lower_hex 64) v.

Definition not_address (name v : text) : JsErr := plain_error (name ++ §" is not a 20-byte hex address: " ++ v).
Definition not_hash (name v : text) : JsErr := plain_error (name ++ §" is not a 32-byte hex hash: " ++ v).
(** [addr], [hash] and [opt]: the checked readers of [chainParams] and
    [addresses] (and [addressEnv], [optionalAddress] over the variables read at
    import). *)
Definition addr (files : vars) (name fallback : text) : Proc text := fun w =>
  let v := toLowerCase (value files w name fallback) in
  if isAddress v then (Done v, w) else (Thrown (not_address name v), w).
Definition hash (files : vars) (name fallback : text) : Proc text := fun w =>
  let v := toLowerCase (value files w name fallback) in
  if isHash v then (Done v, w) else (Thrown (not_hash name v), w).
Definition opt (files : vars) (name : text) : Proc (option text) := reading (fun w =>
  match pick files w name with
  | Some v => let v := toLowerCase v in if isAddress v then Some v else None
  | None => None
  end).

(** ** Defaults *)
Definition ANVIL_0_KEY : text := §"0xac0974bec39a17e36ba4a6b4d238ff944bacb478cbed5efcae784d7bf4f2ff80".
Definition ANVIL_1_KEY : text := §"0x59c6995e998f97a5a0044966f0945389dc9e86dae88c7a8412f4603b6b78690d".
Definition ANVIL_2_KEY : text := §"0x5de4111afa1a4b94908f83103eb1f1706367c2e68ca870fc3fb9a804cdab365a".
Definition ANVIL_3_KEY : text := §"0x7c852118294e51e653712a81e05800f419141751be58f605c371e15141b007a6".
Definition ANVIL_0 : text := §"0xf39Fd6e51aad88F6F4ce6aB8827279cffFb92266".
Definition ANVIL_2 : text := §"0x3C44CdDdB6a900fa2b585dd299e03d12FA4293BC".
Definition ANVIL_3 : text := §"0x90F79bf6EB2c4f870365E785982E1f101E93b906".
Definition SEQUENCER_ADDRESS_DEFAULT : text := §"0x15d34AAf54267DB7D7c367839AAf71A00a2C6A65".
Definition httpAddrDefault : text := §"127.0.0.1:8545".

(** ** What the module computes at import *)
Record Config : Type := mkConfig {
  c_l1ChainId : num; c_l2ChainId : num; c_l1Rpc : text; c_l2Rpc : text;
  c_depositorKey : text; c_senderKey : text; c_callerKey : text; c_depositGasLimit : Z;
  c_depositContract : text; c_disputeGameFactory : option text; c_outputsValidator : option text;
  c_outputExecutor : option text; c_l1StandardBridge : option text; c_l1CrossDomainMessenger : option text;
  c_testToken : option text; c_tokenEnvFile : text }.
Record Stack : Type := mkStack {
  s_l1Port : num; s_engineAddr : text; s_httpAddr : text; s_snapshotDir : text; s_dataDir : text }.
Record EnvModule : Type := mkEnvModule { m_paths : Paths; m_config : Config; m_stack : Stack }.

Definition bigint_of (t : text) : Proc Z :=
  match BigInt t with
  | Some z => mret z
  | None => throwing (mkErr (§"SyntaxError") (§"Failed to parse String to BigInt") None)
  end.

Definition make_config (P : Paths) (files : vars) (l1Port : num) : Proc Config :=
  w ← reading id;
  let env := value files w in
  depositGasLimit ← bigint_of (env (§"DEPOSIT_GAS_LIMIT") (§"1000000"));
  depositContract ← addr files (§"DEPOSIT_CONTRACT_ADDRESS") (§"0x6900000000000000000000000000000000000001");
  disputeGameFactory ← opt files (§"DISPUTE_GAME_FACTORY_ADDRESS");
  outputsValidator ← opt files (§"OUTPUTS_VALIDATOR_ADDRESS");
  outputExecutor ← opt files (§"OUTPUT_EXECUTOR_ADDRESS");
  l1StandardBridge ← opt files (§"L1_STANDARD_BRIDGE_ADDRESS");
  l1CrossDomainMessenger ← opt files (§"L1_CROSS_DOMAIN_MESSENGER_ADDRESS");
  testToken ← opt files (§"TEST_TOKEN_ADDRESS");
  mret {| c_l1ChainId := Number (env (§"L1_CHAIN_ID") (§"900"));
          c_l2ChainId := Number (env (§"L2_CHAIN_ID") (§"901"));
          c_l1Rpc := env (§"L1_RPC") (§"http://127.0.0.1:" ++ String_of_num l1Port);
          c_l2Rpc := env (§"L2_RPC") (§"http://" ++ env (§"HTTP_ADDR") httpAddrDefault);
          c_depositorKey := env (§"DEPOSITOR_KEY") ANVIL_1_KEY;
          c_senderKey := env (§"SENDER_KEY") ANVIL_3_KEY;
          c_callerKey := env (§"CALLER_KEY") ANVIL_3_KEY;
          c_depositGasLimit := depositGasLimit;
          c_depositContract := depositContract;
          c_disputeGameFactory := disputeGameFactory;
          c_outputsValidator := outputsValidator;
          c_outputExecutor := outputExecutor;
          c_l1StandardBridge := l1StandardBridge;
          c_l1CrossDomainMessenger := l1CrossDomainMessenger;
          c_testToken := testToken;
          c_tokenEnvFile := p_tokenEnv P |}.
Definition make_stack (P : Paths) (files : vars) (l1Port : num) (w : World) : Stack :=
  {| s_l1Port := l1Port;
     s_engineAddr := value files w (§"ENGINE_ADDR") (§"127.0.0.1:8551");
     s_httpAddr := value files w (§"HTTP_ADDR") httpAddrDefault;
     s_snapshotDir := env_or w (§"SNAPSHOT_DIR") (path_join (path_join (p_repo P) (§".cartesi")) (§"image"));
     s_dataDir := env_or w (§"DATA_DIR") [] |}.

(** Importing env.ts: the paths, then [.env], then the values. *)
Definition import_env (moduleFile : text) : Proc EnvModule :=
  P ← reading (paths_of moduleFile);
  dotenv ← readEnvFile (path_join (p_repo P) (§".env"));
  _ ← (fun w => (Done tt, load_dotenv dotenv w));
  files ← deploymentVars P;
  l1Port ← reading (fun w => env_num w (§"L1_PORT") 8600);
  config ← make_config P files l1Port;
  stack ← reading (make_stack P files l1Port);
  mret (mkEnvModule P config stack).

(** ** Consensus-relevant parameters, read on every call *)
Record ChainParams : Type := mkChainParams {
  l1ChainId : num; l2ChainId : num; blockTime : num; gasLimit : text; maxCyclesPerInput : text;
  checkpointInterval : text; genesisTimestamp : text; l1GenesisHash : text; l1GenesisNumber : text;
  batcherAddress : text; batchInboxAddress : text; depositContractAddress : text;
  l1SystemConfigAddress : text; baseFeeScalar : text; blobBaseFeeScalar : text;
  eip1559Denominator : text; eip1559Elasticity : text }.

Definition chainParams (P : Paths) : Proc ChainParams :=
  files ← deploymentVars P;
  w ← reading id;
  let value := value files w in
  l1GenesisHash ← hash files (§"L1_GENESIS_HASH") (§"0x" ++ zeros_text 64);
  batcherAddress ← addr files (§"BATCHER_ADDRESS") ANVIL_0;
  batchInboxAddress ← addr files (§"BATCH_INBOX_ADDRESS") (§"0xff00000000000000000000000000000000000901");
  depositContractAddress ← addr files (§"DEPOSIT_CONTRACT_ADDRESS") (§"0x6900000000000000000000000000000000000001");
  l1SystemConfigAddress ← addr files (§"L1_SYSTEM_CONFIG_ADDRESS") (§"0x6900000000000000000000000000000000000002");
  mret {| l1ChainId := Number (value (§"L1_CHAIN_ID") (§"900"));
          l2ChainId := Number (value (§"L2_CHAIN_ID") (§"901"));
          blockTime := Number (value (§"BLOCK_TIME") (§"2"));
          gasLimit := value (§"GAS_LIMIT") (§"30000000");
          maxCyclesPerInput := value (§"MAX_CYCLES_PER_INPUT") (§"1000000000");
          checkpointInterval := value (§"CHECKPOINT_INTERVAL") (§"25");
          genesisTimestamp := value (§"GENESIS_TIMESTAMP") (§"0");
          l1GenesisHash := l1GenesisHash;
          l1GenesisNumber := value (§"L1_GENESIS_NUMBER") (§"0");
          batcherAddress := batcherAddress;
          batchInboxAddress := batchInboxAddress;
          depositContractAddress := depositContractAddress;
          l1SystemConfigAddress := l1SystemConfigAddress;
          baseFeeScalar := value (§"BASE_FEE_SCALAR") (§"1368");
          blobBaseFeeScalar := value (§"BLOB_BASE_FEE_SCALAR") (§"810949");
          eip1559Denominator := value (§"EIP1559_DENOMINATOR") (§"50");
          eip1559Elasticity := value (§"EIP1559_ELASTICITY") (§"6") |}.

Record Addresses : Type := mkAddresses {
  batcherKey : text; proposerKey : text; proposerAddress : text; sequencerAddress : text;
  deployerKey : text; deployerAddress : text; guestOwner : text; guestConfigAddress : text;
  disputeGameFactory : option text; disputeGameType : text; outputsValidator : option text;
  outputExecutor : option text; l1StandardBridge : option text; l1CrossDomainMessenger : option text }.

Definition addresses (P : Paths) : Proc Addresses :=
  files ← deploymentVars P;
  w ← reading id;
  let value := value files w in
  proposerAddress ← addr files (§"PROPOSER_ADDRESS") ANVIL_2;
  sequencerAddress ← addr files (§"SEQUENCER_ADDRESS") SEQUENCER_ADDRESS_DEFAULT;
  deployerAddress ← addr files (§"DEPLOYER_ADDRESS") ANVIL_3;
  guestOwner ← addr files (§"GUEST_OWNER") ANVIL_3;
  guestConfigAddress ← addr files (§"GUEST_CONFIG_ADDRESS") (§"0xc751000000000000000000000000000000000002");
  disputeGameFactory ← opt files (§"DISPUTE_GAME_FACTORY_ADDRESS");
  outputsValidator ← opt files (§"OUTPUTS_VALIDATOR_ADDRESS");
  outputExecutor ← opt files (§"OUTPUT_EXECUTOR_ADDRESS");
  l1StandardBridge ← opt files (§"L1_STANDARD_BRIDGE_ADDRESS");
  l1CrossDomainMessenger ← opt files (§"L1_CROSS_DOMAIN_MESSENGER_ADDRESS");
  mret {| batcherKey := value (§"BATCHER_KEY") ANVIL_0_KEY;
          proposerKey := value (§"PROPOSER_KEY") ANVIL_2_KEY;
          proposerAddress := proposerAddress;
          sequencerAddress := sequencerAddress;
          deployerKey := value (§"DEPLOYER_KEY") ANVIL_3_KEY;
          deployerAddress := deployerAddress;
          guestOwner := guestOwner;
          guestConfigAddress := guestConfigAddress;
          disputeGameFactory := disputeGameFactory;
          disputeGameType := value (§"DISPUTE_GAME_TYPE") (§"1");
          outputsValidator := outputsValidator;
          outputExecutor := outputExecutor;
          l1StandardBridge := l1StandardBridge;
          l1CrossDomainMessenger := l1CrossDomainMessenger |}.

(** [usage] *)
Definition usage {A} (message : text) : Proc A := _ ← console_error (§"usage: " ++ message); exit_ 1.
