(* ===== verification/EnvSpec.v ===== *)
(** * What the configuration reads

    The pattern of a line as a plain parser, the guards as predicates, and the
    files a deployment writes read back. *)

From Stdlib Require Import ZArith Lia.
From S2P Require Import Prelude Bytes Text JsText Regex Numbers Process Env.

(** ** Lines

    The reference: a name, an equals sign, the rest of the line; the quotes
    around a value are dropped when there are two. *)
Definition dot (c : Z) : bool := negb (is_terminator c).
Definition unquote (v : text) : text :=
  match v with
  | 34 :: v' => match reverse v' with 34 :: b => reverse b | _ => v end
  | _ => v
  end.
Definition parse_line (t : text) : option (text * text) :=
  match t with
  | x :: r =>
      if is_alpha_ x then
        match drop_while is_word r with
        | 61 :: v => if forallb dot v then Some (x :: take_while is_word r, unquote v) else None
        | _ => None
        end
      else None
  | [] => None
  end.

Lemma forallb_Forall (p : Z -> bool) t : forallb p t = true <-> Forall (fun c => p c = true) t.
Proof. rewrite forallb_forall, Forall_forall. by setoid_rewrite list_elem_of_In. Qed.

Section Line.
Context (k : pos -> caps -> option (pos * caps)).

(** The tail after the value, for a given opening quote. *)
Definition closing : pos -> caps -> option (pos * caps) := rx (RBack 2) (rx REol k).
Lemma closing_other c u b q : c !! 2%nat = Some q -> u <> q -> closing (b, u) c = None.
Proof.
  intros Hq Hu. unfold closing. simpl. rewrite Hq. simpl. rewrite lit_spec. destruct (text_eq _ _) eqn:He; [|done].
  apply text_eq_spec in He. simpl. destruct (drop (length q) u) as [|y d] eqn:Hd; [|done]. exfalso. apply Hu.
  rewrite <- (take_drop (length q) u), Hd, He. by rewrite app_nil_r.
Qed.
Lemma closing_same c b q : c !! 2%nat = Some q -> closing (b, q) c = k (reverse q ++ b, []) c.
Proof.
  intros Hq. unfold closing. simpl. rewrite Hq. simpl. rewrite <- (app_nil_r q) at 2. by rewrite lit_app.
Qed.

(** The value, by what follows the equals sign. *)
Lemma closing_group c u b b0 u0 q : c !! 2%nat = Some q -> u <> q ->
  closing (b, u) (<[3%nat := captured (b0, u0) (b, u)]> c) = None.
Proof. intros Hq Hu. apply (closing_other _ _ _ q); [|done]. by rewrite lookup_insert_ne. Qed.
Lemma value_found c b d q : c !! 2%nat = Some q -> Forall (fun x => dot x = true) d ->
  rx (RGroup 3 (RStar (fun c => negb (is_terminator c)))) closing (b, d ++ q) c
  = k (reverse q ++ reverse d ++ b, []) (<[3%nat := d]> c).
Proof.
  intros Hq Hd. cbn [rx fst snd]. rewrite star_hit; [|exact Hd|intros; by apply closing_group with q].
  rewrite captured_app, closing_same with (q := q) by (by rewrite lookup_insert_ne). done.
Qed.
Lemma value_missed c b u q : c !! 2%nat = Some q -> (forall d, u = d ++ q -> ~ Forall (fun x => dot x = true) d) ->
  rx (RGroup 3 (RStar (fun c => negb (is_terminator c)))) closing (b, u) c = None.
Proof.
  intros Hq Hd. cbn [rx fst snd]. apply star_miss with q; [exact Hd|]. intros; by apply closing_group with q.
Qed.
End Line.

(** The whole pattern, from the start of a line. *)
Lemma line_re_at t : match_at line_re ([], t) =
  rx (RGroup 1 (RClass is_alpha_ · RStar is_word)%re)
     (rx (RLit (§"=")) (rx (RGroup 2 (ROpt (fun c => c =? 34)))
       (rx (RGroup 3 (RStar (fun c => negb (is_terminator c)))) (closing (fun p c => Some (p, c)))))) ([], t) ∅.
Proof. done. Qed.
Lemma line_re_anchored x b a : match_at line_re (x :: b, a) = None.
Proof. done. Qed.

(** Past the equals sign: the value as it stands, and a value whose quote opens
    and closes. *)
Section Value.
Let stop : pos -> caps -> option (pos * caps) := closing (fun p c => Some (p, c)).
Let group3 : regex := RGroup 3 (RStar (fun c => negb (is_terminator c))).
Implicit Types c : caps.

Lemma value_plain b v c : c !! 2%nat = Some [] ->
  rx group3 stop (b, v) c = if forallb dot v then Some ((reverse v ++ b, []), <[3%nat := v]> c) else None.
Proof.
  intros Hc. destruct (forallb dot v) eqn:Hv.
  - apply forallb_Forall in Hv. pose proof (value_found (fun p c => Some (p, c)) c b v [] Hc Hv) as Hf.
    rewrite app_nil_r in Hf. exact Hf.
  - apply value_missed with []; [done|]. intros d -> Hd%forallb_Forall. rewrite app_nil_r in Hv. congruence.
Qed.
Lemma value_quoted b v c : c !! 2%nat = Some [34] ->
  rx group3 stop (b, v) c =
    match reverse v with
    | 34 :: w => if forallb dot v then Some ((reverse v ++ b, []), <[3%nat := reverse w]> c) else None
    | _ => None
    end.
Proof.
  intros Hc. destruct (reverse v) as [|q w] eqn:Hr.
  { apply value_missed with [34]; [done|]. intros d -> _. by rewrite reverse_snoc in Hr. }
  assert (v = reverse w ++ [q]) as -> by (by rewrite <- (reverse_involutive v), Hr, reverse_cons).
  destruct (decide (q = 34)) as [->|Hq].
  - rewrite forallb_app. simpl (forallb dot [34]). rewrite andb_true_r. destruct (forallb dot (reverse w)) eqn:Hw.
    + apply forallb_Forall in Hw. etransitivity; [by apply (value_found _ c b _ [34])|]. by rewrite reverse_involutive.
    + apply value_missed with [34]; [done|]. intros d [<- _]%app_inj_tail Hd%forallb_Forall. congruence.
  - assert (rx group3 stop (b, reverse w ++ [q]) c = None) as ->.
    { apply value_missed with [34]; [done|]. intros d [_ ->]%app_inj_tail. done. }
    repeat case_match; congruence.
Qed.
End Value.

Lemma after_eq b v (c : caps) : exists q, rx (RGroup 2 (ROpt (fun c => c =? 34)))
    (rx (RGroup 3 (RStar (fun c => negb (is_terminator c)))) (closing (fun p c => Some (p, c)))) (b, v) c
  = if forallb dot v then Some ((reverse v ++ b, []), <[3%nat := unquote v]> (<[2%nat := q]> c)) else None.
Proof.
  set (next := rx (RGroup 3 _) _).
  assert (Hp : forall v, next (b, v) (<[2%nat := []]> c) = if forallb dot v then Some ((reverse v ++ b, []), <[3%nat := v]> (<[2%nat := []]> c)) else None).
  { intros v'. apply value_plain. by rewrite lookup_insert_eq. }
  change (exists q, orelse (one (fun c => c =? 34) (fun b' a c' => next (b', a) (<[2%nat := captured (b, v) (b', a)]> c')) b v c)
    (next (b, v) (<[2%nat := captured (b, v) (b, v)]> c)) = if forallb dot v then Some ((reverse v ++ b, []), <[3%nat := unquote v]> (<[2%nat := q]> c)) else None).
  rewrite captured_refl, Hp. destruct v as [|x v]; [by exists []|].
  cbn [one]. destruct (Z.eqb_spec x 34) as [->|Hx].
  2:{ exists []. simpl orelse. unfold unquote. by replace (match x with 34 => _ | _ => _ end) with (x :: v) by (repeat case_match; done). }
  rewrite captured_one. subst next. rewrite value_quoted by (by rewrite lookup_insert_eq).
  unfold unquote. destruct (reverse v) as [|y w] eqn:Hr; [by exists []|].
  destruct (decide (y = 34)) as [->|Hy].
  - exists [34]. cbn [forallb]. change (dot 34) with true. simpl (true && _). destruct (forallb dot v); [|done].
    simpl. by rewrite reverse_cons, Hr, <- app_assoc.
  - exists []. replace (match y with 34 => _ | _ => _ end) with (@None (pos * caps)) by (repeat case_match; congruence).
    replace (match y with 34 => _ | _ => _ end) with (34 :: v) by (repeat case_match; congruence). done.
Qed.

(** The pattern of env.ts reads what the reference reads. *)
Lemma env_line_parse t : env_line t = parse_line t.
Proof.
  unfold env_line. rewrite re_match_anchored by apply line_re_anchored. rewrite line_re_at.
  set (next := rx (RGroup 2 _) _). destruct t as [|x r]; [done|]. cbn [rx one fst snd parse_line]. destruct (is_alpha_ x); [|done].
  rewrite <- (take_drop_while is_word r) at 1. rewrite star_all.
  - change (reverse (take_while is_word r) ++ [x]) with (reverse (take_while is_word r) ++ reverse [x] ++ []).
    rewrite app_assoc, <- reverse_app, captured_app. cbn [app].
    destruct (drop_while is_word r) as [|y v]; [done|]. change (§"=") with [61]. cbn [lit fst snd].
    destruct (Z.eqb_spec 61 y) as [<-|Hy].
    + match goal with |- context [next (?b, v) ?c] => destruct (after_eq b v c) as [q Hq]; fold next in Hq; rewrite Hq end.
      destruct (forallb dot v); [|done]. rewrite lookup_insert_eq, !lookup_insert_ne, lookup_insert_eq by done. done.
    + repeat case_match; congruence.
  - apply take_while_all.
  - clear. induction r as [|c r IH]; simpl; [done|]. destruct (is_word c) eqn:Hc; done.
  - intros a1 a2 Ha Hn. destruct a2 as [|y a2]; [done|]. change (§"=") with [61]. cbn [lit app fst snd].
    destruct (Z.eqb_spec 61 y) as [<-|Hy]; [|done]. pose proof (take_while_all is_word r) as Hall. rewrite Ha in Hall.
    apply Forall_app in Hall as [_ Hall]. apply Forall_cons in Hall as [Hy _]. done.
Qed.

(** ** Files *)
Definition file_vars (w : World) (path : text) : vars :=
  match fs w !! path with Some (File t) => env_vars t | _ => ∅ end.
Definition layers (P : Paths) (w : World) : vars :=
  file_vars w (p_tokenEnv P) ∪ (file_vars w (p_outputsAddresses P) ∪ (file_vars w (p_chainGenesis P) ∪ file_vars w (p_l1Addresses P))).
(** None of the four files is a directory. *)
Definition settled (P : Paths) (w : World) : Prop :=
  Forall (fun path => fs w !! path <> Some Dir) [p_l1Addresses P; p_chainGenesis P; p_outputsAddresses P; p_tokenEnv P].

Lemma readEnvFile_file w path : fs w !! path <> Some Dir -> readEnvFile path w = (Done (file_vars w path), w).
Proof.
  intros Hd. unfold readEnvFile, existsSync, reading, readFileSync, file_vars, mbind, Proc_bind.
  destruct (fs w !! path) as [[t|]|] eqn:Hf; try done.
  rewrite bool_decide_true by done. simpl. unfold mbind, Proc_bind. by rewrite Hf.
Qed.
Lemma readEnvFile_dir w path : fs w !! path = Some Dir -> readEnvFile path w = (Thrown (fs_error EISDIR (§"read") path), w).
Proof.
  intros Hd. unfold readEnvFile. erewrite pbind_done by reflexivity. rewrite Hd. rewrite bool_decide_true by done. cbn [negb].
  apply pbind_thrown. unfold readFileSync. by rewrite Hd.
Qed.
Lemma readEnvFile_done w path v w' : readEnvFile path w = (Done v, w') -> fs w !! path <> Some Dir /\ w' = w /\ v = file_vars w path.
Proof.
  intros Hr. assert (Hd : fs w !! path <> Some Dir).
  { intros Hd. unfold readEnvFile, existsSync, reading, readFileSync, mbind, Proc_bind in Hr. rewrite Hd in Hr.
    rewrite bool_decide_true in Hr by done. simpl in Hr. unfold mbind, Proc_bind in Hr. rewrite Hd in Hr. done. }
  rewrite readEnvFile_file in Hr by done. by simplify_eq.
Qed.
Lemma quiet_readEnvFile path : quiet (readEnvFile path).
Proof. unfold readEnvFile. quiet_tac. Qed.
#[export] Hint Resolve quiet_readEnvFile : proc.

Lemma deploymentVars_settled P w : settled P w -> deploymentVars P w = (Done (layers P w), w).
Proof.
  unfold settled. rewrite !Forall_cons. intros (H1 & H2 & H3 & H4 & _). unfold deploymentVars.
  do 4 (erewrite pbind_done by (by apply readEnvFile_file)). done.
Qed.
Lemma deploymentVars_done P w v w' : deploymentVars P w = (Done v, w') -> settled P w /\ w' = w /\ v = layers P w.
Proof.
  unfold deploymentVars. intros Hw. repeat apply pbind_done_inv in Hw as (? & ? & (? & -> & ->)%readEnvFile_done & Hw).
  injection Hw as <- <-. unfold settled. by rewrite !Forall_cons.
Qed.
Lemma quiet_deploymentVars P : quiet (deploymentVars P).
Proof. unfold deploymentVars. quiet_tac. Qed.
#[export] Hint Resolve quiet_deploymentVars : proc.

(** ** Files a deployment writes *)
Definition valid_name (k : text) : Prop :=
  match k with x :: r => is_alpha_ x = true /\ Forall (fun c => is_word c = true) r | [] => False end.
(** A value of word characters: an address, a hash, a number. *)
Definition plain (v : text) : Prop := Forall (fun c => is_word c = true) v.

Lemma word_range c : is_word c = true -> 48 <= c <= 122.
Proof.
  unfold is_word, is_alpha_, is_digit, between. rewrite !orb_true_iff, !andb_true_iff, !Z.leb_le, Z.eqb_eq. lia.
Qed.
Lemma plain_dot v : plain v -> forallb dot v = true.
Proof.
  intros Hv. apply forallb_Forall. eapply Forall_impl; [exact Hv|]. intros c Hc%word_range.
  unfold dot, is_terminator. by rewrite !(proj2 (Z.eqb_neq c _)) by lia.
Qed.
Lemma plain_unquote v : plain v -> unquote v = v.
Proof.
  unfold unquote. destruct 1 as [|c r Hc%word_range _]; [done|]. repeat (case_match; try done). lia.
Qed.
Lemma plain_one_line v : plain v -> Forall (fun c => c <> NL) v.
Proof. intros Hv. eapply Forall_impl; [exact Hv|]. intros c Hc%word_range. unfold NL. lia. Qed.
Lemma plain_digits v : Forall (fun c => is_digit c = true) v -> plain v.
Proof. intros Hv. eapply Forall_impl; [exact Hv|]. intros c Hc. unfold is_word. by rewrite Hc, orb_true_r. Qed.

(** The same facts of a literal, by evaluation. *)
Definition name_ok (k : text) : bool :=
  match k with x :: r => is_alpha_ x && forallb is_word r | [] => false end && negb (text_eq k (§"__proto__")).
Lemma literal_one_line t : forallb (fun c => negb (c =? NL)) t = true -> Forall (fun c => c <> NL) t.
Proof.
  intros H%forallb_Forall. eapply Forall_impl; [exact H|]. intros c Hc. simpl in Hc. by apply negb_true_iff, Z.eqb_neq in Hc.
Qed.

Lemma parse_assignment k v : valid_name k -> forallb dot v = true -> parse_line (k ++ 61 :: v) = Some (k, unquote v).
Proof.
  destruct k as [|x r]; [done|]. intros [Hx Hr] Hv. simpl. rewrite Hx, drop_while_app, take_while_app by done.
  simpl. by rewrite Hv, app_nil_r.
Qed.
Lemma assign_pair m k v : name_ok k = true -> plain v -> assign m (k ++ 61 :: v) = <[k := v]> m.
Proof.
  unfold name_ok. intros [Hk Hp%negb_true_iff]%andb_prop Hv. assert (valid_name k).
  { destruct k as [|x r]; [done|]. apply andb_prop in Hk as [Hx Hr%forallb_Forall]. done. }
  unfold assign. rewrite env_line_parse, parse_assignment by auto using plain_dot. by rewrite Hp, plain_unquote.
Qed.
Lemma pair_one_line k v : name_ok k = true -> plain v -> Forall (fun c => c <> NL) (k ++ 61 :: v).
Proof.
  unfold name_ok. intros [Hk _]%andb_prop Hv. destruct k as [|x r]; [done|]. apply andb_prop in Hk as [Hx Hr%forallb_Forall].
  rewrite Forall_app, !Forall_cons. split_and!; [| |done|by apply plain_one_line]; [|by apply plain_one_line].
  assert (is_word x = true) as Hw%word_range by (unfold is_word; by rewrite Hx). unfold NL. lia.
Qed.
(** Comments and empty lines assign nothing. *)
Lemma assign_comment m l : head l = Some 35 -> assign m l = m.
Proof. intros Hl. destruct l as [|c l]; [done|]. injection Hl as ->. unfold assign. by rewrite env_line_parse. Qed.
Lemma assign_empty m : assign m [] = m.
Proof. unfold assign. by rewrite env_line_parse. Qed.
Lemma env_vars_lines ls : ls <> [] -> Forall (Forall (fun c => c <> NL)) ls -> env_vars (join [NL] ls) = foldl assign ∅ ls.
Proof. intros. unfold env_vars. by rewrite split_join. Qed.

(** ** Guards *)
Lemma hex_re_spec p n v : test (hex_re p n) v = true <-> exists d, v = §"0x" ++ d /\ length d = n /\ Forall (fun c => p c = true) d.
Proof.
  unfold test. rewrite re_match_anchored by done. unfold match_at, hex_re. cbn [rx fst snd].
  rewrite lit_spec. destruct (text_eq _ _) eqn:Hx.
  - apply text_eq_spec in Hx. assert (exists r, v = §"0x" ++ r) as [r ->].
    { exists (drop (length (§"0x")) v). by rewrite <- Hx at 1; rewrite take_drop. }
    rewrite drop_app_length. cbn [fst snd]. rewrite rep_spec. destruct (_ && _) eqn:Hr; cbn [fst snd].
    + apply andb_prop in Hr as [Hn%Nat.leb_le Hp%forallb_Forall]. destruct (drop n r) as [|y u] eqn:Hd.
      * split; [intros _|done]. exists r. apply (f_equal length) in Hd. rewrite length_drop in Hd. simpl in Hd.
        rewrite take_ge in Hp by lia. split_and!; [done|lia|done].
      * split; [done|]. intros (d & Hd'%app_inj_1 & Hl & _); [|done]. destruct Hd' as [_ ->]. rewrite drop_ge in Hd by lia. done.
    + split; [done|]. intros (d & Hd'%app_inj_1 & Hl & Ha); [|done]. destruct Hd' as [_ ->]. exfalso.
      rewrite (proj2 (Nat.leb_le n (length d))) in Hr by lia. rewrite take_ge in Hr by lia. apply forallb_Forall in Ha. simpl in Hr. congruence.
  - split; [done|]. intros (d & -> & _). rewrite take_app_length, text_eq_refl in Hx. done.
Qed.

(** A checked value is a hexadecimal string of its length. *)
Definition hex_string (n : nat) (v : text) : Prop := exists d, v = §"0x" ++ d /\ length d = n /\ Forall (fun c => is_lower_hex c = true) d.
Lemma addr_done files name fb w v w' : addr files name fb w = (Done v, w') ->
  w' = w /\ v = toLowerCase (value files w name fb) /\ hex_string 40 v.
Proof.
  unfold addr. destruct (isAddress _) eqn:Ha; [|done]. intros Heq. injection Heq as <- <-. split_and!; try done. by apply hex_re_spec.
Qed.
Lemma hash_done files name fb w v w' : hash files name fb w = (Done v, w') ->
  w' = w /\ v = toLowerCase (value files w name fb) /\ hex_string 64 v.
Proof.
  unfold hash. destruct (isHash _) eqn:Ha; [|done]. intros Heq. injection Heq as <- <-. split_and!; try done. by apply hex_re_spec.
Qed.
Lemma quiet_addr files name fb : quiet (addr files name fb).
Proof. intros w. unfold addr. by case_match. Qed.
Lemma quiet_hash files name fb : quiet (hash files name fb).
Proof. intros w. unfold hash. by case_match. Qed.
#[export] Hint Resolve quiet_addr quiet_hash : proc.

(** ** The consensus parameters *)
Opaque js.
Lemma quiet_chainParams P : quiet (chainParams P).
Proof. unfold chainParams. quiet_tac. Qed.
#[export] Hint Resolve quiet_chainParams : proc.

(** The parameters as a function of the layers. *)
Definition params_of (get : text -> text -> text) : ChainParams :=
  mkChainParams (Number (get (§"L1_CHAIN_ID") (§"900"))) (Number (get (§"L2_CHAIN_ID") (§"901")))
    (Number (get (§"BLOCK_TIME") (§"2"))) (get (§"GAS_LIMIT") (§"30000000"))
    (get (§"MAX_CYCLES_PER_INPUT") (§"1000000000")) (get (§"CHECKPOINT_INTERVAL") (§"25"))
    (get (§"GENESIS_TIMESTAMP") (§"0")) (toLowerCase (get (§"L1_GENESIS_HASH") (§"0x" ++ zeros_text 64)))
    (get (§"L1_GENESIS_NUMBER") (§"0")) (toLowerCase (get (§"BATCHER_ADDRESS") ANVIL_0))
    (toLowerCase (get (§"BATCH_INBOX_ADDRESS") (§"0xff00000000000000000000000000000000000901")))
    (toLowerCase (get (§"DEPOSIT_CONTRACT_ADDRESS") (§"0x6900000000000000000000000000000000000001")))
    (toLowerCase (get (§"L1_SYSTEM_CONFIG_ADDRESS") (§"0x6900000000000000000000000000000000000002")))
    (get (§"BASE_FEE_SCALAR") (§"1368")) (get (§"BLOB_BASE_FEE_SCALAR") (§"810949"))
    (get (§"EIP1559_DENOMINATOR") (§"50")) (get (§"EIP1559_ELASTICITY") (§"6")).

Lemma chainParams_done P w p w' : chainParams P w = (Done p, w') ->
  w' = w /\ settled P w /\ p = params_of (value (layers P w) w)
  /\ hex_string 64 (l1GenesisHash p)
  /\ Forall (hex_string 40) [batcherAddress p; batchInboxAddress p; depositContractAddress p; l1SystemConfigAddress p].
Proof.
  unfold chainParams. intros Hw. apply pbind_done_inv in Hw as (f & w1 & (Hs & -> & ->)%deploymentVars_done & Hw).
  apply pbind_done_inv in Hw as (w2 & w3 & Hid & Hw). injection Hid as <- <-.
  apply pbind_done_inv in Hw as (h & w2 & (-> & -> & Hh)%hash_done & Hw).
  do 4 apply pbind_done_inv in Hw as (? & ? & (-> & -> & ?)%addr_done & Hw).
  injection Hw as <- <-. cbn [l1GenesisHash batcherAddress batchInboxAddress depositContractAddress l1SystemConfigAddress].
  rewrite !Forall_cons. split_and!; first [assumption|reflexivity|constructor].
Qed.
(** They depend on the layers and the environment alone. *)
Lemma value_moved files w1 w2 : environ w2 = environ w1 -> value files w2 = value files w1.
Proof. intros He. unfold value, pick. by rewrite He. Qed.
Lemma addr_moved files name fb w1 w2 v w : environ w2 = environ w1 -> addr files name fb w1 = (Done v, w) -> addr files name fb w2 = (Done v, w2).
Proof.
  intros He. unfold addr. rewrite (value_moved files w1 w2 He). destruct (isAddress _); [|discriminate]. intros Hv. by injection Hv as <- <-.
Qed.
Lemma hash_moved files name fb w1 w2 v w : environ w2 = environ w1 -> hash files name fb w1 = (Done v, w) -> hash files name fb w2 = (Done v, w2).
Proof.
  intros He. unfold hash. rewrite (value_moved files w1 w2 He). destruct (isHash _); [|discriminate]. intros Hv. by injection Hv as <- <-.
Qed.
Lemma chainParams_same P w1 w2 p w : chainParams P w1 = (Done p, w) -> layers P w2 = layers P w1 -> settled P w2 -> environ w2 = environ w1 ->
  chainParams P w2 = (Done p, w2).
Proof.
  intros H1 Hl Hs He. unfold chainParams in *. apply pbind_done_inv in H1 as (f & w1' & (_ & -> & ->)%deploymentVars_done & H1).
  erewrite pbind_done by (by apply deploymentVars_settled). rewrite Hl.
  apply pbind_done_inv in H1 as (wa & wb & Hid & H1). injection Hid as <- <-. erewrite pbind_done by reflexivity.
  rewrite (value_moved _ w1 w2 He).
  apply pbind_done_inv in H1 as (h & w' & Hh & H1). pose proof (hash_done _ _ _ _ _ _ Hh) as [-> _].
  erewrite pbind_done by (eapply hash_moved; [exact He|exact Hh]).
  do 4 (apply pbind_done_inv in H1 as (? & w' & Ha & H1); pose proof (addr_done _ _ _ _ _ _ Ha) as [-> _];
        erewrite pbind_done by (eapply addr_moved; [exact He|exact Ha]); clear Ha).
  by injection H1 as <- <-.
Qed.

(** The four files decide the layers. *)
Lemma layers_ext P w1 w2 : Forall (fun path => fs w2 !! path = fs w1 !! path) [p_l1Addresses P; p_chainGenesis P; p_outputsAddresses P; p_tokenEnv P] ->
  layers P w2 = layers P w1 /\ (settled P w1 -> settled P w2).
Proof.
  rewrite !Forall_cons. intros (H1 & H2 & H3 & H4 & _). unfold layers, settled, file_vars. rewrite !Forall_cons, H1, H2, H3, H4. rewrite !Forall_nil. split; [reflexivity|tauto].
Qed.

(** ** The import *)

(** The first of several layers that has a value. *)
Definition layered (ls : list vars) (name : text) : option text :=
  foldr (fun m r => match m !! name with Some v => Some v | None => r end) None ls.
Lemma layered_union (a b : vars) ls name : layered ((a ∪ b) :: ls) name = layered (a :: b :: ls) name.
Proof. simpl. rewrite lookup_union. by destruct (a !! name), (b !! name). Qed.

Lemma quiet_bigint t : quiet (bigint_of t).
Proof. unfold bigint_of. quiet_tac. Qed.
Lemma quiet_optional files name : quiet (opt files name).
Proof. done. Qed.
#[local] Hint Resolve quiet_bigint quiet_optional : proc.
Lemma quiet_make_config P files port : quiet (make_config P files port).
Proof. unfold make_config. quiet_tac. Qed.

Lemma import_env_done file w M w' : import_env file w = (Done M, w') ->
  let dotenv := file_vars w (path_join (p_repo (m_paths M)) (§".env")) in
  m_paths M = paths_of file w /\ fs w' = fs w /\ environ w' = environ w ∪ dotenv
  /\ forall name, pick (layers (m_paths M) w') w' name =
       layered [file_vars w (p_tokenEnv (m_paths M)); file_vars w (p_outputsAddresses (m_paths M));
                file_vars w (p_chainGenesis (m_paths M)); file_vars w (p_l1Addresses (m_paths M)); environ w; dotenv] name.
Proof.
  unfold import_env. intros (P & w1 & [= <- <-] & Hw)%pbind_done_inv.
  apply pbind_done_inv in Hw as (d & w1 & (_ & -> & ->)%readEnvFile_done & Hw).
  apply pbind_done_inv in Hw as (? & w1 & Hl & Hw). injection Hl as _ <-.
  apply pbind_done_inv in Hw as (files & w1 & (_ & -> & ->)%deploymentVars_done & Hw).
  apply pbind_done_inv in Hw as (port & w1 & Hp & Hw). injection Hp as _ <-.
  apply pbind_done_inv in Hw as (c & w1 & Hc & Hw). pose proof (quiet_done _ _ _ _ (quiet_make_config _ _ _) Hc) as ->.
  apply pbind_done_inv in Hw as (st & w1 & Hs & Hw). injection Hs as _ <-. injection Hw as <- <-.
  cbn [m_paths]. cbv zeta. split; [reflexivity|]. split; [reflexivity|]. split; [reflexivity|]. intros name.
  unfold pick, layers. rewrite !lookup_union. cbn [environ load_dotenv]. rewrite lookup_union.
  change (file_vars (load_dotenv _ w)) with (file_vars w). cbn [layered foldr]. set (P := paths_of file w).
  destruct (file_vars w (p_tokenEnv P) !! name), (file_vars w (p_outputsAddresses P) !! name), (file_vars w (p_chainGenesis P) !! name),
    (file_vars w (p_l1Addresses P) !! name), (environ w !! name); try reflexivity. simpl union. by destruct (_ !! name).
Qed.
