(* ===== verification/Devnet.v ===== *)
(** * Bringing the devnet up

    The steps that anchor the rollup to L1 and start the engine:
    devnet/lib/genesis.ts, devnet/lib/opcartesi.ts, devnet/compose/live.ts,
    devnet/compose/genesis.ts, devnet/generate-config.ts,
    devnet/start-shim.ts, and the chains, clients and keys of
    devnet/lib/wallet.ts. *)

From Stdlib Require Import ZArith Lia.
From S2P Require Import Prelude Bytes Text JsText Regex Numbers Multicall3 Process Env.

(** JavaScript's truth of an optional string. *)
Definition truthy (o : option text) : bool := match o with Some (_ :: _) => true | _ => false end.
(** A literal with double quotes, written with single ones. *)
Definition quoted (s : string) : text := map (fun c => if c =? 39 then 34 else c) (js s).

(** ** devnet/lib/wallet.ts *)
Definition isPrivateKey (v : text) : bool := test (hex_re is_lower_hex 64) v.
Definition asKey (key : text) : Proc text :=
  let k := toLowerCase key in
  if negb (isPrivateKey k) then throwing (plain_error (§"not a 32-byte hex private key: " ++ key)) else mret k.

Section Devnet.
Context `{Host} (E : EnvModule).
Let P : Paths := m_paths E.
Let config : Config := m_config E.
Let stack : Stack := m_stack E.

Definition Ether : text * text * Z := (§"Ether", §"ETH", 18).
Definition l1Chain : Chain :=
  {| ch_id := c_l1ChainId config; ch_name := §"devnet-l1"; ch_rpc := c_l1Rpc config; ch_currency := Ether; ch_sourceId := None;
     ch_contracts := [(§"multicall3", None, MULTICALL3_ADDRESS)] |}.
Definition l2Chain : Chain :=
  {| ch_id := c_l2ChainId config; ch_name := §"op-cartesi-devnet"; ch_rpc := c_l2Rpc config; ch_currency := Ether;
     ch_sourceId := Some (c_l1ChainId config);
     ch_contracts := [(§"portal", Some (c_l1ChainId config), c_depositContract config);
       (§"disputeGameFactory", Some (c_l1ChainId config), default (§"0x" ++ zeros_text 40) (c_disputeGameFactory config))] |}.
(** A question over [l1Public()] and [l2Public(rpc)]; a wallet of [l1Wallet] or
    [l2Wallet] is its key, checked, and what it sends is signed with it. *)
Definition l1Public {A} (c : Call A) : Proc A := ask (c_l1Rpc config) None c.
Definition l2Public {A} (rpc : option text) (c : Call A) : Proc A := ask (default (c_l2Rpc config) rpc) None c.
Definition l1Wallet (key : text) : Proc text := asKey key.
Definition l2Wallet (key : text) : Proc text := asKey key.
Definition l1Send {A} (wallet : text) (c : Call A) : Proc A := ask (c_l1Rpc config) (Some wallet) c.
Definition l2Send {A} (wallet : text) (c : Call A) : Proc A := ask (c_l2Rpc config) (Some wallet) c.

(** ** devnet/lib/genesis.ts *)
Definition L1_GENESIS_HASH : text := §"L1_GENESIS_HASH".
Definition L1_GENESIS_NUMBER : text := §"L1_GENESIS_NUMBER".
Definition GENESIS_TIMESTAMP : text := §"GENESIS_TIMESTAMP".

Definition genesis_lines (anchor : Block) : list text :=
  [§"# Written by devnet/lib/genesis.ts. Read back by devnet/lib/env.ts.";
   §"# The L1 anchor of this rollup, and the L2 genesis timestamp derived";
   §"# from it. Both are consensus-relevant: op-node and the engine must";
   §"# agree on them or the engine serves a genesis op-node rejects.";
   §"L1_GENESIS_HASH=" ++ b_hash anchor;
   §"L1_GENESIS_NUMBER=" ++ dec (b_number anchor);
   §"GENESIS_TIMESTAMP=" ++ dec (b_timestamp anchor);
   []].
Definition anchorRollup : Proc unit :=
  deployed ← readEnvFile (p_l1Addresses P);
  match deployed !! L1_GENESIS_HASH, deployed !! L1_GENESIS_NUMBER with
  | Some recordedHash, Some recordedNumber =>
      n ← bigint_of recordedNumber;
      anchor ← l1Public (GetBlock n);
      if negb (text_eq (toLowerCase (b_hash anchor)) (toLowerCase recordedHash)) then
        die (§"L1 block " ++ recordedNumber ++ §" is " ++ b_hash anchor ++ §", but the deployment recorded "
             ++ recordedHash ++ §" — the L1 reorged; redeploy")
      else
        _ ← writeFileSync (p_chainGenesis P) (join [NL] (genesis_lines anchor));
        say (§"anchored at L1 block " ++ dec (b_number anchor) ++ §" (" ++ b_hash anchor ++ §"), genesis timestamp "
             ++ dec (b_timestamp anchor))
  | _, _ => die (§"no L1 deployment recorded in " ++ p_l1Addresses P ++ §" — deploy the contracts first")
  end.

(** ** devnet/compose/live.ts *)
Definition live_isAddress (v : text) : bool := test (hex_re is_hex 40) v.
Definition anchorStillOnL1 (recorded : vars) : Proc bool :=
  match recorded !! L1_GENESIS_HASH, recorded !! L1_GENESIS_NUMBER with
  | Some ((_ :: _) as hash), Some ((_ :: _) as number) =>
      attempt (n ← bigint_of number; block ← l1Public (GetBlock n); mret (text_eq (b_hash block) hash))
              (fun _ => mret false)
  | _, _ => mret false
  end.
Definition deploymentStillOnL1 (recorded : vars) : Proc bool :=
  match recorded !! (§"DEPOSIT_CONTRACT_ADDRESS") with
  | None => mret false
  | Some portal =>
      if negb (live_isAddress portal) then mret false
      else
        still ← anchorStillOnL1 recorded;
        if negb still then mret false
        else
          code ← l1Public (GetCode portal);
          mret (match code with Some c => negb (text_eq c (§"0x")) | None => false end)
  end.
Definition alreadyDone {A} (what : text) : Proc A := _ ← say (what ++ §" — nothing to do"); exit_ 0.

(** ** devnet/lib/opcartesi.ts *)
Record MachineOptions : Type := mkMachineOptions { remote : option text; snapshot : option text }.

Definition opCartesi : Proc (list text) :=
  w ← reading id;
  match environ w !! (§"OP_CARTESI_BIN") with
  | Some ((_ :: _) as bin) => mret [bin]
  | _ => there ← existsSync (p_opCartesiBin P);
         mret (if (there : bool) then [p_opCartesiBin P] else [§"go"; §"run"; §"./cmd/op-cartesi"])
  end.

(** [o ?? process.env[name] ?? ""] *)
Definition option_or_env (o : option text) (w : World) (name : text) : text :=
  match o with Some v => v | None => env_or w name [] end.
Definition flag (name v : text) : list text := match v with [] => [] | _ => [name; v] end.
(** The flags for parameters already read. *)
Definition consensus_flags (p : ChainParams) : list text :=
  [§"-chain-id"; String_of_num (l2ChainId p); §"-checkpoint-interval"; checkpointInterval p;
   §"-genesis.timestamp"; genesisTimestamp p; §"-gas-limit"; gasLimit p;
   §"-max-cycles-per-input"; maxCyclesPerInput p].
Definition chainFlags (machine : MachineOptions) : Proc (list text) :=
  p ← chainParams P;
  w ← reading id;
  let remote := option_or_env (remote machine) w (§"MACHINE_REMOTE") in
  let snapshot := option_or_env (snapshot machine) w (§"MACHINE_SNAPSHOT") in
  mret (consensus_flags p ++ flag (§"-machine.remote") remote ++ flag (§"-machine.snapshot") snapshot).

Definition ensureJwt : Proc unit :=
  there ← existsSync (p_jwtSecret P);
  if (there : bool) then mret tt
  else
    w ← reading id;
    let secret := randomBytes (history w) 32 in
    _ ← writeFileSync (p_jwtSecret P) (drop 2 (hex_text secret) ++ [NL]);
    say (§"wrote a new JWT secret to " ++ p_jwtSecret P).

Definition rollup_flags (p : ChainParams) : list text :=
  [§"-out"; p_rollupConfig P; §"-l1.chain-id"; String_of_num (l1ChainId p);
   §"-l1.genesis-hash"; l1GenesisHash p; §"-l1.genesis-number"; l1GenesisNumber p;
   §"-block-time"; String_of_num (blockTime p); §"-batcher-address"; batcherAddress p;
   §"-batch-inbox-address"; batchInboxAddress p; §"-deposit-contract-address"; depositContractAddress p;
   §"-l1-system-config-address"; l1SystemConfigAddress p; §"-base-fee-scalar"; baseFeeScalar p;
   §"-blob-base-fee-scalar"; blobBaseFeeScalar p].
Definition generateRollupConfig (machine : MachineOptions) : Proc unit :=
  p ← chainParams P;
  bin ← opCartesi;
  flags ← chainFlags machine;
  _ ← must (bin ++ [§"genesis"] ++ flags ++ rollup_flags p) (run_in (p_repo P));
  say (§"wrote " ++ p_rollupConfig P).

Record EngineOptions : Type := mkEngineOptions {
  e_machine : MachineOptions; engineAddr : text; httpAddr : text; dataDir : option text }.
Definition runEngine {A} (options : EngineOptions) : Proc A :=
  let dir := default (s_dataDir stack) (dataDir options) in
  bin ← opCartesi;
  flags ← chainFlags (e_machine options);
  exec (bin ++ [§"run"] ++ flags ++ flag (§"-datadir") dir
        ++ [§"-engine.addr"; engineAddr options; §"-http.addr"; httpAddr options;
            §"-engine.jwt-secret"; p_jwtSecret P]) (run_in (p_repo P)).

(** ** devnet/compose/genesis.ts *)
Definition shutdown_body : text := quoted "{'jsonrpc':'2.0','id':1,'method':'shutdown','params':[]}".

(** Whether this chain is the one the recorded deployment is on. *)
Definition already_anchored (deployed anchored : vars) : Proc bool :=
  rollup ← existsSync (p_rollupConfig P);
  flags ← existsSync (p_chainFlags P);
  if rollup && flags
     && match anchored !! L1_GENESIS_HASH with
        | Some h => bool_decide (deployed !! L1_GENESIS_HASH = Some h)
        | None => false
        end
  then anchorStillOnL1 anchored else mret false.
(** A new chain: what described the old one is forgotten, then the secret, the
    anchor and the rollup configuration are made. *)
Definition clear_chain : Proc unit := each forget [p_outputsAddresses P; p_tokenEnv P; p_rollupConfig P].
Definition build_chain (machine : MachineOptions) : Proc unit :=
  _ ← clear_chain; _ ← ensureJwt; _ ← anchorRollup; generateRollupConfig machine.
(** The flags the engines run with. *)
Definition record_flags : Proc unit :=
  flags ← chainFlags (mkMachineOptions (Some []) (Some []));
  _ ← writeFileSync (p_chainFlags P) (join (§" ") flags ++ [NL]);
  say (§"wrote " ++ p_chainFlags P ++ §" — the flags the engines must run with").
Definition shutdown_machine (url : text) : Proc unit :=
  attempt (_ ← ask url None (Fetch shutdown_body); say (§"shut down the machine server at " ++ url)) (fun _ => mret tt).

Definition compose_genesis : Proc unit :=
  w ← reading id;
  let url := default [] (environ w !! (§"MACHINE_REMOTE")) in
  if negb (truthy (environ w !! (§"MACHINE_REMOTE"))) then die (§"MACHINE_REMOTE is unset — this step needs a machine server of its own")
  else
    let snapshot := env_or w (§"MACHINE_SNAPSHOT") (§"/snapshot") in
    deployed ← readEnvFile (p_l1Addresses P);
    anchored ← readEnvFile (p_chainGenesis P);
    done ← already_anchored deployed anchored;
    if (done : bool) then
      alreadyDone (§"the rollup is already anchored at L1 block " ++ default (§"undefined") (anchored !! L1_GENESIS_NUMBER))
    else
      _ ← build_chain (mkMachineOptions (Some url) (Some snapshot));
      _ ← record_flags;
      shutdown_machine url.

(** ** devnet/generate-config.ts and devnet/start-shim.ts *)
Definition env_machine (w : World) : MachineOptions :=
  mkMachineOptions (environ w !! (§"MACHINE_REMOTE")) (Some (env_or w (§"MACHINE_SNAPSHOT") (s_snapshotDir stack))).
Definition generate_config : Proc unit := w ← reading id; generateRollupConfig (env_machine w).
Definition start_shim : Proc unit :=
  _ ← ensureJwt;
  w ← reading id;
  runEngine (mkEngineOptions (env_machine w) (s_engineAddr stack) (s_httpAddr stack) None).
End Devnet.
