(* ===== verification/DevnetSpec.v ===== *)
(** * What the bring-up steps do

    The anchor written and read back, the flags the rollup was generated with
    and the flags the engine is run with, and the second run of a step. *)

From Stdlib Require Import ZArith Lia.
From S2P Require Import Prelude Bytes Text JsText Regex Numbers Process Env EnvSpec Devnet.

(** ** chain-genesis.env *)
Definition genesis_vars (anchor : Block) : vars :=
  <[GENESIS_TIMESTAMP := dec (b_timestamp anchor)]> (<[L1_GENESIS_NUMBER := dec (b_number anchor)]> (<[L1_GENESIS_HASH := b_hash anchor]> ∅)).
(** What viem answers for a block: a hexadecimal hash, natural numbers. *)
Definition sane_block (b : Block) : Prop := plain (b_hash b) /\ 0 <= b_number b /\ 0 <= b_timestamp b.

Lemma genesis_lines_read b : sane_block b -> env_vars (join [NL] (genesis_lines b)) = genesis_vars b.
Proof.
  intros (Hh & Hn & Ht). assert (Hdn : plain (dec (b_number b))) by auto using plain_digits, dec_digits.
  assert (Hdt : plain (dec (b_timestamp b))) by auto using plain_digits, dec_digits.
  unfold genesis_lines.
  change (§"L1_GENESIS_HASH=" ++ b_hash b) with (L1_GENESIS_HASH ++ 61 :: b_hash b).
  change (§"L1_GENESIS_NUMBER=" ++ dec (b_number b)) with (L1_GENESIS_NUMBER ++ 61 :: dec (b_number b)).
  change (§"GENESIS_TIMESTAMP=" ++ dec (b_timestamp b)) with (GENESIS_TIMESTAMP ++ 61 :: dec (b_timestamp b)).
  rewrite env_vars_lines; [|done|].
  - cbn [foldl]. rewrite assign_empty. do 4 rewrite (assign_comment ∅) by reflexivity.
    rewrite (assign_pair _ GENESIS_TIMESTAMP), (assign_pair _ L1_GENESIS_NUMBER), (assign_pair _ L1_GENESIS_HASH) by done.
    done.
  - rewrite !Forall_cons. split_and!; first [by apply pair_one_line|by apply literal_one_line|constructor].
Qed.

(** ** Anchoring *)
Section Spec.
Context `{Host} (E : EnvModule).
Let P : Paths := m_paths E.
Let url : text := c_l1Rpc (m_config E).

(** What a successful anchoring did. *)
Definition anchored_at (w w' : World) (h : text) (anchor : Block) : Prop :=
  exists nt n, file_vars w (p_l1Addresses P) !! L1_GENESIS_HASH = Some h
    /\ file_vars w (p_l1Addresses P) !! L1_GENESIS_NUMBER = Some nt /\ BigInt nt = Some n
    /\ answer (history w) url None (GetBlock n) = inr anchor
    /\ toLowerCase (b_hash anchor) = toLowerCase h
    /\ fs w !! p_chainGenesis P <> Some Dir
    /\ fs w' = <[p_chainGenesis P := File (join [NL] (genesis_lines anchor))]> (fs w)
    /\ environ w' = environ w /\ history w' = history w ++ [Asked url None (GetBlock n)].

Lemma bigint_of_spec t w : bigint_of t w = (match BigInt t with Some z => Done z | None => Thrown (mkErr (§"SyntaxError") (§"Failed to parse String to BigInt") None) end, w).
Proof. unfold bigint_of. by destruct (BigInt t). Qed.

Lemma anchorRollup_done w u w' : anchorRollup E w = (Done u, w') -> exists h anchor, anchored_at w w' h anchor.
Proof.
  unfold anchorRollup. intros (d & w1 & (_ & -> & ->)%readEnvFile_done & Hw)%pbind_done_inv.
  destruct (file_vars w _ !! L1_GENESIS_HASH) as [h|] eqn:Hh; [|done].
  destruct (file_vars w _ !! L1_GENESIS_NUMBER) as [nt|] eqn:Hn; [|done].
  apply pbind_done_inv in Hw as (n & w1 & Hb & Hw). rewrite bigint_of_spec in Hb. destruct (BigInt nt) as [z|] eqn:Hz; [|done].
  injection Hb as <- <-. apply pbind_done_inv in Hw as (anchor & w1 & Ha & Hw). apply ask_cases in Ha as [-> Ha].
  destruct Ha as [(a & Ha & [= ->])|(e & _ & [=])]. destruct (text_eq _ _) eqn:He; [|done]. apply text_eq_spec in He.
  apply pbind_done_inv in Hw as (u1 & w2 & (Hd & ->)%writeFileSync_done & Hs). injection Hs as _ <-.
  exists h, a. exists nt, z. by split_and!.
Qed.

(** Otherwise every file but that one is as it was. *)
Lemma anchorRollup_failed w r w' : anchorRollup E w = (r, w') -> (forall u, r <> Done u) ->
  environ w' = environ w /\ forall path, path <> p_chainGenesis P -> fs w' !! path = fs w !! path.
Proof.
  unfold anchorRollup. intros Hw Hr.
  destruct (pbind_inv _ _ _ _ _ Hw) as [(d & w1 & (_ & -> & ->)%readEnvFile_done & Hw')|Hw']; clear Hw.
  2:{ pose proof (quiet_readEnvFile (p_l1Addresses (m_paths E)) w) as Hq.
    destruct Hw' as [(e & He & _)|[(c & He & _)|[He _]]]; rewrite He in Hq; simpl in Hq; by subst. }
  destruct (file_vars w _ !! L1_GENESIS_HASH) as [h|]; [|by injection Hw' as _ <-].
  destruct (file_vars w _ !! L1_GENESIS_NUMBER) as [nt|]; [|by injection Hw' as _ <-].
  unfold mbind, Proc_bind in Hw'. rewrite bigint_of_spec in Hw'. destruct (BigInt nt) as [z|]; [|by injection Hw' as _ <-].
  unfold l1Public, ask in Hw'. destruct (answer _ _ _ _) as [e|a]; [by injection Hw' as _ <-|].
  destruct (text_eq _ _); [|by injection Hw' as _ <-]. cbn [negb] in Hw'. fold P in Hw'.
  match type of Hw' with context [writeFileSync ?p ?t ?x] => destruct (writeFileSync_spec p t x) as [[Hs _]|(e & w2 & Hs & He & _ & Hf)] end;
    rewrite Hs in Hw'; injection Hw' as <- <-; [by destruct (Hr tt)|]. split; [exact He|]. intros path Hp. by apply Hf.
Qed.

(** ** The steps of a new chain *)
Definition forgot (path : text) (f : files) : files := match f !! path with Some (File _) => delete path f | _ => f end.
Definition cleared (f : files) : files := forgot (p_rollupConfig P) (forgot (p_tokenEnv P) (forgot (p_outputsAddresses P) f)).
Lemma lookup_forgot_ne path q f : q <> path -> forgot path f !! q = f !! q.
Proof. unfold forgot. destruct (f !! path) as [[t|]|]; intros; [by rewrite lookup_delete_ne|done|done]. Qed.
Lemma lookup_forgot path f : forgot path f !! path = None \/ forgot path f !! path = Some Dir.
Proof. unfold forgot. destruct (f !! path) as [[t|]|] eqn:Hf; [left; by rewrite lookup_delete_eq|by right|by left]. Qed.
Lemma clear_chain_spec w : clear_chain E w = (Done tt, set_fs (cleared (fs w)) w).
Proof. unfold clear_chain, each. do 3 erewrite pbind_done by apply forget_spec. done. Qed.

Lemma ensureJwt_done w u w' : ensureJwt E w = (Done u, w') -> environ w' = environ w /\ history w' = history w
  /\ forall path, path <> p_jwtSecret P -> fs w' !! path = fs w !! path.
Proof.
  unfold ensureJwt. fold P. intros (there & w1 & [= <- <-] & Hw)%pbind_done_inv. destruct (bool_decide _); [by injection Hw as _ <-|].
  apply pbind_done_inv in Hw as (w2 & w3 & [= <- <-] & Hw).
  apply pbind_done_inv in Hw as (u1 & w4 & (_ & ->)%writeFileSync_done & Hs). injection Hs as _ <-.
  split_and!; [done..|]. intros path Hp. simpl. by rewrite lookup_insert_ne.
Qed.

(** The command line of a rollup configuration generated from [p]. *)
Definition genesis_command (bin : list text) (p : ChainParams) (m : MachineOptions) (w : World) : list text :=
  bin ++ [§"genesis"] ++ (consensus_flags p ++ flag (§"-machine.remote") (option_or_env (remote m) w (§"MACHINE_REMOTE"))
                          ++ flag (§"-machine.snapshot") (option_or_env (snapshot m) w (§"MACHINE_SNAPSHOT")))
      ++ rollup_flags E p.

Lemma chainFlags_done m w fl w' : chainFlags E m w = (Done fl, w') -> exists p, chainParams P w = (Done p, w) /\ w' = w
  /\ fl = consensus_flags p ++ flag (§"-machine.remote") (option_or_env (remote m) w (§"MACHINE_REMOTE"))
                          ++ flag (§"-machine.snapshot") (option_or_env (snapshot m) w (§"MACHINE_SNAPSHOT")).
Proof.
  unfold chainFlags. intros (p & w1 & Hp & Hw)%pbind_done_inv. pose proof (chainParams_done _ _ _ _ Hp) as [-> _].
  apply pbind_done_inv in Hw as (w2 & w3 & [= <- <-] & Hw). injection Hw as <- <-. by exists p.
Qed.
Lemma quiet_opCartesi : quiet (opCartesi E).
Proof. unfold opCartesi. quiet_tac. Qed.

Lemma generateRollupConfig_done m w u w' : generateRollupConfig E m w = (Done u, w') -> exists p bin out err fs',
  chainParams P w = (Done p, w)
  /\ child (history w) (genesis_command bin p m w) (Some (p_repo P)) (∅ ∪ environ w) (fs w) = inr (0, out, err, fs')
  /\ fs w' = fs' /\ environ w' = environ w
  /\ history w' = history w ++ [Spawned (genesis_command bin p m w) (Some (p_repo P)) (∅ ∪ environ w)].
Proof.
  unfold generateRollupConfig. intros (p & w1 & Hp & Hw)%pbind_done_inv. pose proof (chainParams_done _ _ _ _ Hp) as [-> _].
  apply pbind_done_inv in Hw as (bin & w1 & Hb & Hw). pose proof (quiet_done _ _ _ _ quiet_opCartesi Hb) as ->.
  apply pbind_done_inv in Hw as (fl & w1 & (p' & Hp' & -> & ->)%chainFlags_done & Hw).
  assert (p' = p) as -> by (unfold P in *; congruence).
  apply pbind_done_inv in Hw as (r & w1 & (out & err & fs' & Hc & Hf & He & Hh)%must_done & Hs). injection Hs as _ <-.
  by exists p, bin, out, err, fs'.
Qed.

Lemma record_flags_done w u w' : record_flags E w = (Done u, w') -> exists p, chainParams P w = (Done p, w)
  /\ fs w' = <[p_chainFlags P := File (join (§" ") (consensus_flags p) ++ [NL])]> (fs w)
  /\ environ w' = environ w /\ history w' = history w.
Proof.
  unfold record_flags. intros (fl & w1 & (p & Hp & -> & ->)%chainFlags_done & Hw)%pbind_done_inv.
  apply pbind_done_inv in Hw as (u1 & w2 & (_ & ->)%writeFileSync_done & Hs). injection Hs as _ <-. by exists p.
Qed.

Lemma shutdown_machine_spec url' w : exists w', shutdown_machine url' w = (Done tt, w') /\ fs w' = fs w /\ environ w' = environ w
  /\ history w' = history w ++ [Asked url' None (Fetch shutdown_body)].
Proof.
  unfold shutdown_machine, attempt, mbind, Proc_bind, ask. destruct (answer _ _ _ _) as [e|a]; by eexists.
Qed.
End Spec.

(** ** The genesis step as a whole *)

(** What [op-cartesi genesis -out file] is documented to do: it writes that
    file and nothing else. *)
Class GenesisTool `{Host} (E : EnvModule) : Prop := {
  genesis_writes h cmd cwd env f out err f' :
    child h cmd cwd env f = inr (0, out, err, f') -> §"genesis" ∈ cmd ->
    (forall path, path <> p_rollupConfig (m_paths E) -> f' !! path = f !! path) /\ is_Some (f' !! p_rollupConfig (m_paths E)) }.

(** The files of the devnet are different files (the environment can name
    several of them). *)
Definition distinct_paths (P : Paths) : Prop :=
  NoDup [p_l1Addresses P; p_chainGenesis P; p_outputsAddresses P; p_tokenEnv P; p_rollupConfig P; p_chainFlags P; p_jwtSecret P].
Lemma distinct_facts P : distinct_paths P ->
  p_l1Addresses P <> p_chainGenesis P /\ p_l1Addresses P <> p_outputsAddresses P /\ p_l1Addresses P <> p_tokenEnv P
  /\ p_l1Addresses P <> p_rollupConfig P /\ p_l1Addresses P <> p_chainFlags P /\ p_l1Addresses P <> p_jwtSecret P
  /\ p_chainGenesis P <> p_outputsAddresses P /\ p_chainGenesis P <> p_tokenEnv P /\ p_chainGenesis P <> p_rollupConfig P
  /\ p_chainGenesis P <> p_chainFlags P /\ p_chainGenesis P <> p_jwtSecret P /\ p_outputsAddresses P <> p_tokenEnv P
  /\ p_outputsAddresses P <> p_rollupConfig P /\ p_outputsAddresses P <> p_chainFlags P /\ p_outputsAddresses P <> p_jwtSecret P
  /\ p_tokenEnv P <> p_rollupConfig P /\ p_tokenEnv P <> p_chainFlags P /\ p_tokenEnv P <> p_jwtSecret P
  /\ p_rollupConfig P <> p_chainFlags P /\ p_rollupConfig P <> p_jwtSecret P /\ p_chainFlags P <> p_jwtSecret P.
Proof. unfold distinct_paths. rewrite !NoDup_cons, !not_elem_of_cons. tauto. Qed.
Ltac distinct := first [assumption|apply not_eq_sym; assumption].
Ltac distinct_intro H := let F := fresh in pose proof (distinct_facts _ H) as F; repeat (let G := fresh in destruct F as [G F]).

Section Built.
Context `{Host} (E : EnvModule) `{!GenesisTool E}.
Let P : Paths := m_paths E.
Let url : text := c_l1Rpc (m_config E).

(** The anchor is what L1 answered, in this run, for the block of the recorded
    number. *)
Definition anchored_by (w w' : World) (anchor : Block) : Prop :=
  exists hist nt n, file_vars w (p_l1Addresses P) !! L1_GENESIS_NUMBER = Some nt /\ BigInt nt = Some n
    /\ answer hist url None (GetBlock n) = inr anchor /\ hist ++ [Asked url None (GetBlock n)] `prefix_of` history w'.

Record built (w w' : World) (h : text) (anchor : Block) (p : ChainParams) (bin : list text) (m : MachineOptions) : Prop := mkBuilt {
  built_recorded : file_vars w (p_l1Addresses P) !! L1_GENESIS_HASH = Some h;
  built_answer : anchored_by w w' anchor;
  built_hash : toLowerCase (b_hash anchor) = toLowerCase h;
  built_l1 : fs w' !! p_l1Addresses P = fs w !! p_l1Addresses P;
  built_genesis : fs w' !! p_chainGenesis P = Some (File (join [NL] (genesis_lines anchor)));
  built_cleared : file_vars w' (p_outputsAddresses P) = ∅ /\ file_vars w' (p_tokenEnv P) = ∅;
  built_flags : fs w' !! p_chainFlags P = Some (File (join (§" ") (consensus_flags p) ++ [NL]));
  built_rollup : is_Some (fs w' !! p_rollupConfig P);
  built_spawned : Spawned (genesis_command E bin p m w) (Some (p_repo P)) (∅ ∪ environ w) ∈ history w';
  built_params : chainParams P w' = (Done p, w');
  built_environ : environ w' = environ w }.

Lemma cleared_vars f w path : distinct_paths P -> path = p_outputsAddresses P \/ path = p_tokenEnv P ->
  fs w !! path = cleared E f !! path -> file_vars w path = ∅.
Proof.
  intros Hd Hp Hw. distinct_intro Hd. unfold file_vars. rewrite Hw. unfold cleared. fold P.
  destruct Hp as [-> | ->].
  - rewrite !lookup_forgot_ne by distinct. by destruct (lookup_forgot (p_outputsAddresses P) f) as [-> | ->].
  - rewrite lookup_forgot_ne by distinct. by destruct (lookup_forgot (p_tokenEnv P) (forgot (p_outputsAddresses P) f)) as [-> | ->].
Qed.

Lemma quiet_bigint_of t : quiet (bigint_of t).
Proof. unfold bigint_of. quiet_tac. Qed.
#[local] Hint Resolve quiet_bigint_of : proc.
Lemma keeps_anchorStillOnL1 r : keeps (anchorStillOnL1 E r).
Proof. unfold anchorStillOnL1, l1Public. keeps_tac. Qed.
#[local] Hint Resolve keeps_anchorStillOnL1 : proc.
Lemma keeps_already_anchored d a : keeps (already_anchored E d a).
Proof. unfold already_anchored. keeps_tac. Qed.

Lemma genesis_command_moved bin p m w1 w2 : environ w2 = environ w1 -> genesis_command E bin p m w2 = genesis_command E bin p m w1.
Proof. intros He. unfold genesis_command, option_or_env, env_or. by rewrite He. Qed.

Lemma genesis_in_command bin p m w : §"genesis" ∈ genesis_command E bin p m w.
Proof. unfold genesis_command. apply elem_of_app. right. left. Qed.

(** What building a new chain leaves, before the flags are recorded. *)
Record chain_built (w w' : World) (h : text) (anchor : Block) (p : ChainParams) (bin : list text) (m : MachineOptions) : Prop := mkChainBuilt {
  cb_recorded : file_vars w (p_l1Addresses P) !! L1_GENESIS_HASH = Some h;
  cb_answer : anchored_by w w' anchor;
  cb_hash : toLowerCase (b_hash anchor) = toLowerCase h;
  cb_genesis : fs w' !! p_chainGenesis P = Some (File (join [NL] (genesis_lines anchor)));
  cb_others : forall path, path <> p_rollupConfig P -> path <> p_chainGenesis P -> path <> p_jwtSecret P ->
    fs w' !! path = cleared E (fs w) !! path;
  cb_rollup : is_Some (fs w' !! p_rollupConfig P);
  cb_spawned : Spawned (genesis_command E bin p m w) (Some (p_repo P)) (∅ ∪ environ w) ∈ history w';
  cb_params : chainParams P w' = (Done p, w');
  cb_environ : environ w' = environ w }.

Lemma build_chain_done m w u w' : distinct_paths P -> build_chain E m w = (Done u, w') -> exists h anchor p bin, chain_built w w' h anchor p bin m.
Proof.
  intros Hd Hw. distinct_intro Hd. unfold build_chain in Hw. erewrite pbind_done in Hw by apply clear_chain_spec.
  apply pbind_done_inv in Hw as (u0 & w2 & (He2 & Hh2 & Hf2)%ensureJwt_done & Hw). fold P in Hf2. simpl in He2, Hh2, Hf2.
  apply pbind_done_inv in Hw as (u1 & w3 & (h & anchor & nt & n & Hh & Hn & Hbig & Ha & Heq & Hgd & Hf3 & He3 & Hh3)%anchorRollup_done & Hw).
  fold P in Hh, Hn, Hf3, Hgd. fold url in Ha, Hh3.
  apply generateRollupConfig_done in Hw as (p & bin & out & err & fs' & Hp & Hc & Hf4 & He4 & Hh4). fold P in Hp, Hc, Hh4.
  apply genesis_writes in Hc as [Hsame Hroll]; [|apply genesis_in_command]. fold P in Hsame, Hroll.
  assert (Hkeep : forall path, path <> p_rollupConfig P -> fs w' !! path = fs w3 !! path) by (intros; rewrite Hf4; auto).
  assert (Hl1 : fs w2 !! p_l1Addresses P = fs w !! p_l1Addresses P).
  { rewrite Hf2 by distinct. unfold cleared. fold P. by rewrite !lookup_forgot_ne by distinct. }
  exists h, anchor, p, bin. constructor.
  - unfold file_vars in *. by rewrite <- Hl1.
  - exists (history w2), nt, n. split_and!; [unfold file_vars in *; by rewrite <- Hl1|done..|].
    rewrite Hh4, Hh3. by eexists.
  - done.
  - rewrite Hkeep, Hf3 by distinct. apply lookup_insert_eq.
  - intros path Hp1 Hp2 Hp3. rewrite Hkeep, Hf3, lookup_insert_ne by done. by apply Hf2.
  - by rewrite Hf4.
  - rewrite Hh4, (genesis_command_moved _ _ _ w w3), He3, He2 by congruence. apply elem_of_app. right. by left.
  - destruct (layers_ext P w3 w') as [Hl Hs]; [rewrite !Forall_cons; split_and!; try done; apply Hkeep; distinct|].
    eapply chainParams_same; [exact Hp|exact Hl| |done]. apply Hs. by apply chainParams_done in Hp as (_ & ? & _).
  - congruence.
Qed.

Lemma compose_genesis_built w u w' : distinct_paths P -> compose_genesis E w = (Done u, w') -> exists h anchor p bin m, built w w' h anchor p bin m.
Proof.
  intros Hd. distinct_intro Hd. unfold compose_genesis. fold P. intros (w0 & w1 & [= <- <-] & Hw)%pbind_done_inv.
  destruct (negb _); [discriminate|].
  apply pbind_done_inv in Hw as (d & w1 & (_ & -> & ->)%readEnvFile_done & Hw).
  apply pbind_done_inv in Hw as (a & w1 & (_ & -> & ->)%readEnvFile_done & Hw).
  apply pbind_done_inv in Hw as (done & w1 & Ha & Hw). apply keeps_elim in Ha as (Hf1 & He1); [|apply keeps_already_anchored]. destruct done; [discriminate|].
  set (m := mkMachineOptions _ _) in Hw.
  apply pbind_done_inv in Hw as (u1 & w2 & (h & anchor & p & bin & Hb)%(build_chain_done m w1 _ _ Hd) & Hw).
  apply pbind_done_inv in Hw as (u2 & w3 & (p' & Hp' & Hf3 & He3 & Hh3)%record_flags_done & Hw). fold P in Hp', Hf3.
  assert (p' = p) as -> by (destruct Hb; congruence).
  match type of Hw with shutdown_machine ?x _ = _ => destruct (shutdown_machine_spec x w3) as (w4 & Hs & Hf4 & He4 & Hh4) end.
  rewrite Hs in Hw. injection Hw as _ <-.
  assert (Hlk : forall path, path <> p_chainFlags P -> fs w4 !! path = fs w2 !! path) by (intros; by rewrite Hf4, Hf3, lookup_insert_ne).
  destruct Hb as [Hb1 Hb2 Hb3 Hb4 Hb5 Hb6 Hb7 Hb8 Hb9]. exists h, anchor, p, bin, m. constructor.
  - unfold file_vars in *. by rewrite <- Hf1.
  - destruct Hb2 as (hist & nt & n & Hn & Hz & Ha2 & Hpre). exists hist, nt, n.
    split_and!; [unfold file_vars in *; by rewrite <- Hf1|done..|]. rewrite Hh4, Hh3. by apply prefix_app_r.
  - done.
  - rewrite Hlk, Hb5, <- Hf1 by distinct. unfold cleared. fold P. by rewrite !lookup_forgot_ne by distinct.
  - rewrite Hlk by distinct. done.
  - split; eapply cleared_vars; auto; rewrite Hlk by distinct; apply Hb5; distinct.
  - rewrite Hf4, Hf3. apply lookup_insert_eq.
  - by rewrite Hlk by distinct.
  - rewrite Hh4, Hh3. rewrite <- (genesis_command_moved bin p m w w1 He1), <- He1. apply elem_of_app. by left.
  - destruct (layers_ext P w2 w4) as [Hl Hs4]; [rewrite !Forall_cons; split_and!; try done; apply Hlk; distinct|].
    eapply chainParams_same; [exact Hb8|exact Hl| |congruence]. apply Hs4. by apply chainParams_done in Hb8 as (_ & ? & _).
  - congruence.
Qed.
End Built.

(** ** The flags across two containers

    devnet/compose/engine.sh expands the flags file unquoted: the shell splits
    it at blanks. *)
Definition is_ifs (c : Z) : bool := (c =? 32) || (c =? 9) || (c =? 10).
Fixpoint split_ifs (t : text) : list text :=
  match t with
  | [] => [[]]
  | x :: t => if is_ifs x then [] :: split_ifs t else match split_ifs t with [] => [[x]] | l :: ls => (x :: l) :: ls end
  end.
Definition shell_words (t : text) : list text := filter (fun l => l <> []) (split_ifs t).
(** A flag the shell leaves alone. *)
Definition shell_word (l : text) : Prop := l <> [] /\ Forall (fun c => is_ifs c = false) l.

Lemma split_ifs_app l c t : Forall (fun c => is_ifs c = false) l -> is_ifs c = true -> split_ifs (l ++ c :: t) = l :: split_ifs t.
Proof.
  intros Hl Hc. induction Hl as [|x l Hx _ IH]; simpl; [by rewrite Hc|]. by rewrite IH, Hx.
Qed.
#[export] Instance shell_word_dec l : Decision (shell_word l).
Proof. apply _. Defined.
(** Numbers are such, and so are the flags' names. *)
Definition unblank (t : text) : Prop := Forall (fun c => is_ifs c = false) t.
Lemma dec_unblank z : unblank (dec z).
Proof.
  unfold dec. apply Forall_app. split; [by destruct (z <? 0); repeat constructor|]. eapply Forall_impl; [apply text_of_uint_digits|].
  intros c Hc. unfold is_digit, between in Hc. apply andb_prop in Hc as [H1%Z.leb_le H2%Z.leb_le]. unfold is_ifs.
  by rewrite !(proj2 (Z.eqb_neq c _)) by lia.
Qed.
Lemma zeros_unblank n : unblank (zeros_text n).
Proof. apply Forall_replicate. reflexivity. Qed.
Lemma layout_word ds n : ds <> [] -> unblank ds -> shell_word (layout ds n).
Proof.
  intros Hn Hds. pose proof (zeros_unblank (n - zlen ds)) as Hz1. pose proof (zeros_unblank (- n)) as Hz2.
  pose proof (dec_unblank (Z.abs (n - 1))) as Hd. unfold layout.
  destruct (_ && _); [split; [by destruct ds|by apply Forall_app]|].
  destruct (_ && _); [split; [by destruct (take _ ds)|]|destruct (_ && _); [split; [done|]|]].
  - apply Forall_app. split; [by apply Forall_take|]. apply Forall_app. split; [by repeat constructor|by apply Forall_drop].
  - apply Forall_app. split; [by repeat constructor|by apply Forall_app].
  - assert (He : unblank (§"e" ++ (if 0 <=? n - 1 then §"+" else §"-") ++ dec (Z.abs (n - 1)))).
    { apply Forall_app. split; [by repeat constructor|]. apply Forall_app. split; [by case_match; repeat constructor|done]. }
    destruct ds as [|d ds]; [done|]. apply Forall_cons in Hds as [Hd0 Hds].
    destruct ds as [|d' ds]; (split; [done|]); (apply Forall_cons; split; [done|]); [done|].
    apply Forall_app. split; [by repeat constructor|]. by apply Forall_app.
Qed.
Lemma number_word x : shell_word (String_of_num x).
Proof.
  destruct x as [|neg|neg m e]; [by split; repeat constructor|by destruct neg; split; repeat constructor|].
  unfold String_of_num. destruct (m =? 0); [by split; repeat constructor|].
  destruct (shortest _ _ _ _ _) as [sv k]. destruct (if sv =? 10 ^ k then _ else _) as [s0 n0].
  destruct (layout_word (dec s0) n0 (dec_nonempty _) (dec_unblank _)) as [Hn Hw].
  split; [by destruct neg|]. apply Forall_app. split; [by destruct neg; repeat constructor|done].
Qed.
Lemma dec_word z : shell_word (dec z).
Proof. split; [apply dec_nonempty|apply dec_unblank]. Qed.

Lemma shell_words_join ls : Forall shell_word ls -> shell_words (join (§" ") ls ++ [NL]) = ls.
Proof.
  unfold shell_words. change (§" ") with [32]. induction 1 as [|l ls [Hn Hl] Hls IH]; [done|]. destruct ls as [|l' ls].
  - simpl join. rewrite split_ifs_app by done. simpl. rewrite filter_cons_True, filter_cons_False by naive_solver. done.
  - rewrite join_cons by done. rewrite <- !app_assoc. simpl app. rewrite split_ifs_app by done.
    rewrite filter_cons_True by done. f_equal. exact IH.
Qed.

Section Rerun.
Context `{Host} (E : EnvModule) `{!GenesisTool E}.
Let P : Paths := m_paths E.
Let url : text := c_l1Rpc (m_config E).

(** The parameters a built chain has are its anchor's. *)
Lemma built_anchor w w' h anchor p bin m : built E w w' h anchor p bin m -> sane_block anchor ->
  l1GenesisHash p = toLowerCase h /\ l1GenesisNumber p = dec (b_number anchor) /\ genesisTimestamp p = dec (b_timestamp anchor).
Proof.
  intros [_ _ Hh _ Hg [Ho Ht] _ _ _ Hp _] Hs. apply chainParams_done in Hp as (_ & _ & -> & _).
  fold P in Hg, Ho, Ht. unfold params_of. cbn [l1GenesisHash l1GenesisNumber genesisTimestamp]. unfold value, pick, layers.
  assert (Hv : file_vars w' (p_chainGenesis P) = genesis_vars anchor) by (unfold file_vars; rewrite Hg; by apply genesis_lines_read).
  fold P. rewrite Ho, Ht, Hv, !(left_id_L ∅ (∪)). rewrite <- Hh.
  split_and!; unfold genesis_vars.
  - rewrite (lookup_union_Some_l _ _ _ (b_hash anchor)); [done|]. rewrite !lookup_insert_ne by done. apply lookup_insert_eq.
  - rewrite (lookup_union_Some_l _ _ _ (dec (b_number anchor))); [done|]. rewrite lookup_insert_ne by done. apply lookup_insert_eq.
  - rewrite (lookup_union_Some_l _ _ _ (dec (b_timestamp anchor))); [done|]. apply lookup_insert_eq.
Qed.

(** A step whose output is still true is not repeated. *)
Record standing (w : World) (anchor b : Block) : Prop := mkStanding {
  st_remote : truthy (environ w !! (§"MACHINE_REMOTE")) = true;
  st_rollup : is_Some (fs w !! p_rollupConfig P);
  st_flags : is_Some (fs w !! p_chainFlags P);
  st_genesis : fs w !! p_chainGenesis P = Some (File (join [NL] (genesis_lines anchor)));
  st_l1 : fs w !! p_l1Addresses P <> Some Dir;
  st_recorded : file_vars w (p_l1Addresses P) !! L1_GENESIS_HASH = Some (b_hash anchor);
  st_answer : answer (history w) url None (GetBlock (b_number anchor)) = inr b;
  st_same : b_hash b = b_hash anchor }.

Lemma compose_genesis_rerun w anchor b : standing w anchor b -> sane_block anchor -> b_hash anchor <> [] ->
  exists w', compose_genesis E w = (Exited 0, w') /\ fs w' = fs w /\ environ w' = environ w
    /\ history w' = history w ++ [Asked url None (GetBlock (b_number anchor))].
Proof.
  intros [Hr Hro Hfl Hg Hl1 Hrec Ha Hsame] Hs Hne. unfold compose_genesis. fold P.
  assert (Hv : file_vars w (p_chainGenesis P) = genesis_vars anchor) by (unfold file_vars; rewrite Hg; by apply genesis_lines_read).
  assert (Hh : genesis_vars anchor !! L1_GENESIS_HASH = Some (b_hash anchor)).
  { unfold genesis_vars. rewrite !lookup_insert_ne by done. apply lookup_insert_eq. }
  assert (Hn : genesis_vars anchor !! L1_GENESIS_NUMBER = Some (dec (b_number anchor))).
  { unfold genesis_vars. rewrite lookup_insert_ne by done. apply lookup_insert_eq. }
  erewrite pbind_done by reflexivity. change (id w) with w. cbv beta zeta. rewrite Hr. cbn [negb].
  erewrite pbind_done by (by apply readEnvFile_file). erewrite pbind_done by (apply readEnvFile_file; fold P; by rewrite Hg).
  rewrite Hv. assert (Hd : already_anchored E (file_vars w (p_l1Addresses P)) (genesis_vars anchor) w
    = (Done true, remember (Asked url None (GetBlock (b_number anchor))) w)).
  { unfold already_anchored. fold P. erewrite pbind_done by reflexivity. erewrite pbind_done by reflexivity.
    rewrite !bool_decide_true by done. rewrite Hh, Hrec, bool_decide_true by done. cbn [andb].
    unfold anchorStillOnL1. rewrite Hh, Hn. destruct (b_hash anchor) as [|x r] eqn:Hb; [done|].
    destruct (dec (b_number anchor)) as [|y t] eqn:Hdec; [by apply dec_nonempty in Hdec|]. rewrite <- Hdec, <- Hb.
    unfold attempt, mbind, Proc_bind. rewrite bigint_of_spec, BigInt_dec by apply Hs.
    unfold l1Public, ask. fold url. rewrite Ha. simpl. by rewrite Hsame, Hb, text_eq_refl. }
  erewrite pbind_done by exact Hd. eexists. split; [reflexivity|]. done.
Qed.
End Rerun.
