(* ===== verification/Scripts.v ===== *)
(** * The command-line scripts

    scripts/: sending L2 transactions, executing vouchers, proving and
    finalizing withdrawals, deposits. A polling loop runs for as many rounds as
    the fuel it is given. *)

From Stdlib Require Import ZArith Lia.
From S2P Require Import Prelude Bytes DriveTable Evm.
From S2P Require Import Text JsText Regex Numbers Process Env Devnet.

(** The bytes a [0x] string spells; its address, for the calls that encode it. *)
Definition hex_value (c : Z) : Z := if is_digit c then c - 48 else if between 97 102 c then c - 87 else c - 55.
Fixpoint hex_pairs (t : text) : bytes :=
  match t with a :: b :: t => 16 * hex_value a + hex_value b :: hex_pairs t | _ => [] end.
Definition hex_bytes (t : text) : bytes := hex_pairs (drop 2 t).
(** The first capture of the first match. *)
Definition capture (r : regex) (i : nat) (t : text) : option text :=
  match re_match r t with Some (_, _, c) => c !! i | None => None end.

Section Scripts.
Context `{Host} `{Keccak} (E : EnvModule).
Let config : Config := m_config E.

(** The façade of an L1 token, as a call's argument. *)
Definition facade (token : text) : text := hex_text (l2TokenAddress (hex_bytes token)).

(** ** scripts/lib/l2.ts *)
Definition sendL2Tx (to : text) (data : option text) (value : option Z) (key : option text) : Proc text :=
  wallet ← l2Wallet (default (c_senderKey config) key);
  l2Send E wallet (SendTransaction to data value).
Definition l2Sender (key : option text) : Proc text :=
  wallet ← l2Wallet (default (c_senderKey config) key); mret (accountOf wallet).
Definition no_receipt (hash : text) (timeout : Z) (sender : text) : JsErr :=
  plain_error (§"no receipt for " ++ hash ++ §" after " ++ String_of_num (num_div (Number_of_Z timeout) 1000)
    ++ §"s — the guest most likely " ++ §"rejected the transaction (rejected inputs are dropped without a receipt). "
    ++ §"Common causes: the sender's L2 balance does not cover value plus fee, or "
    ++ §"a nonce mismatch. Check with: bun scripts/balance.ts " ++ sender).
Definition waitL2Receipt (hash : text) (timeout : Z) : Proc Receipt :=
  attempt (l2Public E None (WaitForReceipt hash (Some timeout)))
    (fun e => if text_eq (e_name e) (§"WaitForTransactionReceiptTimeoutError")
              then sender ← l2Sender None; throwing (no_receipt hash timeout sender)
              else throwing e).

(** ** scripts/lib/voucher.ts and portal.ts: waiting for an L1 transaction *)
Definition waitL1 (tx : Proc text) : Proc unit :=
  hash ← tx;
  receipt ← l1Public E (WaitForReceipt hash None);
  if negb (text_eq (r_status receipt) (§"success")) then
    throwing (plain_error (§"L1 transaction " ++ r_transactionHash receipt ++ §" reverted"))
  else mret tt.

(** ** scripts/lib/voucher.ts *)

(** The games from [n - 1] down, until one whose L2 block is at or past
    [outBlock]: its index, its proxy and its block. *)
Fixpoint scan_games (factory : text) (outBlock : Z) (n : nat) : Proc (option (Z * text * Z)) :=
  match n with
  | O => mret None
  | S n =>
      game ← l1Public E (ReadGameAtIndex factory (Z.of_nat n));
      block ← l1Public E (ReadContract game.2 (§"l2BlockNumber") []);
      if outBlock <=? block then mret (Some (Z.of_nat n, game.2, block)) else scan_games factory outBlock n
  end.
Fixpoint find_game (rounds : nat) (factory : text) (outBlock : Z) : Proc (Z * text * Z) :=
  match rounds with
  | O => running
  | S rounds =>
      count ← l1Public E (ReadContract factory (§"gameCount") []);
      found ← scan_games factory outBlock (Z.to_nat count);
      match found with Some g => mret g | None => find_game rounds factory outBlock end
  end.

Definition zero_hash : text := §"0x" ++ zeros_text 64.
Definition accept_args (gameIndex : Z) (block : Block) (withdrawalsRoot : text) (proof : OutputProof) : list Arg :=
  [ANum gameIndex; AList [AStr zero_hash; AStr (b_stateRoot block); AStr withdrawalsRoot; AStr (b_hash block)];
   AList (map AStr (outputsRootProof proof))].
Definition execute_args (index : Z) (proof : OutputProof) : list Arg :=
  [AStr (op_output proof); AList [ANum index; AList (map AStr (outputHashesSiblings proof))]].

Definition executeVoucher (rounds : nat) (txHash : text) : Proc Z :=
  match c_disputeGameFactory config, c_outputsValidator config, c_outputExecutor config with
  | Some ((_ :: _) as factory), Some ((_ :: _) as validator), Some ((_ :: _) as executor) =>
      caller ← l1Wallet (c_callerKey config);
      receipt ← l2Public E None (WaitForReceipt txHash None);
      emissions ← l2Public E None (GetTransactionEmissions txHash);
      match outputs emissions with
      | [] => throwing (plain_error (§"the transaction emitted no provable output"))
      | (index, _) :: _ =>
          let outBlock := r_blockNumber receipt in
          _ ← console_error (§"  voucher is output " ++ dec index ++ §", in L2 block " ++ dec outBlock);
          _ ← console_error (§"  waiting for a proposal covering L2 block " ++ dec outBlock);
          g ← find_game rounds factory outBlock;
          let '(gameIndex, _, proposedBlock) := g in
          _ ← console_error (§"  game " ++ dec gameIndex ++ §" proposes L2 block " ++ dec proposedBlock);
          proof ← l2Public E None (GetOutputProof index proposedBlock);
          block ← l2Public E None (GetBlock proposedBlock);
          match b_withdrawalsRoot block with
          | Some ((_ :: _) as withdrawalsRoot) =>
              _ ← waitL1 (l1Send E caller (WriteContract validator (§"accept") (accept_args gameIndex block withdrawalsRoot proof)));
              _ ← console_error (§"  accepted outputs root " ++ outputsMerkleRoot proof ++ §" from game " ++ dec gameIndex);
              _ ← waitL1 (l1Send E caller (WriteContract executor (§"executeOutput") (execute_args index proof)));
              _ ← console_error (§"  executed output " ++ dec index);
              mret index
          | _ => throwing (plain_error (§"L2 block " ++ dec proposedBlock ++ §" has no withdrawalsRoot"))
          end
      end
  | _, _, _ => throwing (plain_error (§"run ./devnet/deploy-l1.ts and ./devnet/deploy-outputs.ts first"))
  end.

(** ** scripts/lib/portal.ts *)
Definition portalErrors : list text := map (fun name => §"OptimismPortal_" ++ name)
  [§"InvalidRootClaim"; §"ProofNotOldEnough"; §"Unproven"; §"InvalidProofTimestamp"; §"ImproperDisputeGame";
   §"InvalidDisputeGame"; §"AlreadyFinalized"; §"InvalidMerkleProof"; §"InvalidOutputRootProof"; §"BadTarget";
   §"CallPaused"; §"GasEstimation"].
(** By selector; of two entries with one key, a [Map] keeps the later. *)
Definition portalErrorNames : vars :=
  foldl (fun m name => <[toLowerCase (selectorOf (name ++ §"()")) := name]> m) ∅ portalErrors.
(** [/0x[0-9a-fA-F]{8}/] *)
Definition selector_re : regex := (RLit (§"0x") · RRep 8 is_hex)%re.
Definition first_selector (m : text) : option text :=
  match re_match selector_re m with Some (s, e, _) => Some (captured s e) | None => None end.
Definition explainPortalRevert {A} (e : JsErr) : Proc A :=
  match first_selector (e_message e) ≫= (fun sel => portalErrorNames !! toLowerCase sel) with
  | Some name => throwing (mkErr (e_name e) (name ++ §" — " ++ e_message e) (e_shortMessage e))
  | None => throwing e
  end.

Definition skipTime (seconds : Z) (what : text) : Proc unit :=
  _ ← console_error (§"  advancing anvil time by " ++ dec seconds ++ §"s (" ++ what ++ §")");
  _ ← l1Public E (RpcRequest (§"evm_increaseTime") [ANum (Number_of_bigint seconds)]);
  l1Public E (RpcRequest (§"evm_mine") []).

(** After the proof: the delays, and the game resolved by hand. *)
Definition outlive_delays (caller portal gameProxy : text) : Proc unit :=
  maturity ← l1Public E (ReadContract portal (§"proofMaturityDelaySeconds") []);
  clock ← l1Public E (ReadContract gameProxy (§"maxClockDuration") []);
  _ ← skipTime ((if clock <? maturity then maturity else clock) + 60)
       (§"proof maturity " ++ dec maturity ++ §"s, game clock " ++ dec clock ++ §"s");
  status ← l1Public E (ReadContract gameProxy (§"status") []);
  _ ← guard_ (status =? 0) (
    _ ← console_error (§"  resolving the dispute game");
    _ ← waitL1 (l1Send E caller (WriteContract gameProxy (§"resolveClaim") [ANum 0; ANum 0]));
    waitL1 (l1Send E caller (WriteContract gameProxy (§"resolve") [])));
  finality ← l1Public E (ReadContract portal (§"disputeGameFinalityDelaySeconds") []);
  skipTime (finality + 60) (§"dispute game finality delay " ++ dec finality ++ §"s").

Definition proveAndFinalizeWithdrawal (receipt : Receipt) : Proc unit :=
  match c_disputeGameFactory config with
  | Some (_ :: _) =>
      caller ← l1Wallet (c_callerKey config);
      let portal := c_depositContract config in
      _ ← console_error (§"  waiting for a proposal covering L2 block " ++ dec (r_blockNumber receipt));
      found ← l1Public E (WaitToProve receipt (l2Chain E));
      _ ← console_error (§"  withdrawal " ++ tp_withdrawalHash found);
      _ ← console_error (§"  game " ++ dec (tp_outputIndex found) ++ §" proposes L2 block " ++ dec (tp_l2BlockNumber found));
      proveArgs ← l2Public E None (BuildProveWithdrawal found);
      _ ← waitL1 (attempt (l1Send E caller (ProveWithdrawal proveArgs)) explainPortalRevert);
      _ ← console_error (§"  proven against OptimismPortal at " ++ portal);
      gameProxy ← settle (getAddress (§"0x" ++ drop 26 (tp_metadata found)));
      _ ← outlive_delays caller portal gameProxy;
      _ ← waitL1 (attempt (l1Send E caller (FinalizeWithdrawal found (l2Chain E))) explainPortalRevert);
      console_error (§"  finalized through OptimismPortal")
  | _ => throwing (plain_error (§"run the devnet with contracts deployed first"))
  end.

(** ** The scripts themselves

    [argv] is [process.argv.slice(2)]; an absent or empty argument is falsy. *)
Definition given (argv : list text) (i : nat) : option text :=
  match argv !! i with Some ((_ :: _) as t) => Some t | _ => None end.
Definition checked_address (t : text) : Proc text := settle (getAddress t).
Definition argument_or (argv : list text) (i : nat) (fallback : text) : text := default fallback (argv !! i).
Definition ONE_ETHER : text := §"1000000000000000000".

(** scripts/execute-voucher.ts *)
Definition isTxHash (v : text) : bool := test ((RBol false · RAlt (RLit (§"0x")) (RLit (§"0X")) · RRep 64 is_hex · REol)%re) v.
Definition execute_voucher (rounds : nat) (argv : list text) : Proc unit :=
  match given argv 0 with
  | Some txArg => if negb (isTxHash txArg) then usage (§"execute-voucher.ts <L2 tx hash>")
                  else index ← executeVoucher rounds txArg; console_log (dec index)
  | None => usage (§"execute-voucher.ts <L2 tx hash>")
  end.

(** scripts/send-l2-tx.ts *)
Definition send_l2_tx (argv : list text) : Proc unit :=
  match given argv 0 with
  | None => usage (§"send-l2-tx.ts <to> [calldata] [value-wei]")
  | Some toArg =>
      to ← checked_address toArg;
      let data := given argv 1 in
      _ ← guard_ (match data with Some d => negb (isHex d) | None => false end) (usage (§"calldata must be 0x-prefixed hex"));
      value ← match argv !! 2%nat with Some v => z ← bigint_of v; mret (Some z) | None => mret None end;
      hash ← sendL2Tx to data value None;
      console_log hash
  end.

(** scripts/balance.ts *)
Definition balance (argv : list text) : Proc unit :=
  match given argv 0 with
  | None => usage (§"balance.ts <address> [l1-token]")
  | Some whoArg =>
      who ← checked_address whoArg;
      match given argv 1 with
      | None => b ← l2Public E None (GetBalance who); console_log (dec b)
      | Some tokenArg =>
          token ← checked_address tokenArg;
          b ← l2Public E None (ReadContract (facade token) (§"balanceOf") [AStr who]); console_log (dec b)
      end
  end.

(** scripts/contracts.ts *)
Definition abi_input (i : text * text) : text := i.1 ++ match i.2 with [] => [] | n => §" " ++ n end.
Definition abi_line (fn : AbiItem) : text :=
  §"    function " ++ ai_name fn ++ §"(" ++ join (§", ") (map abi_input (ai_inputs fn)) ++ §")"
  ++ (if text_eq (ai_stateMutability fn) (§"nonpayable") then [] else §" " ++ ai_stateMutability fn)
  ++ match join (§", ") (ai_outputs fn) with [] => [] | rets => §" returns (" ++ rets ++ §")" end.
Definition print_contract (c : ContractEntry) : Proc unit :=
  _ ← console_log (NL :: §"  " ++ ce_address c ++ §"  (" ++ ce_kind c ++ §")");
  match text_eq (ce_kind c) (§"token"), ce_l1Token c with
  | true, Some ((_ :: _) as token) => console_log (§"    façade of L1 token " ++ token ++ §" — standard ERC-20 surface")
  | _, _ => each (fun item => if text_eq (ai_type item) (§"function") then console_log (abi_line item) else mret tt)
                 (default [] (ce_abi c))
  end.
Definition contracts (argv : list text) : Proc unit :=
  _ ← guard_ (match argv !! 0%nat with Some a => text_eq a (§"-h") || text_eq a (§"--help") | None => false end) (usage (§"contracts.ts"));
  l ← l2Public E None (GetContracts None);
  _ ← console_log (§"contracts as of block " ++ String_of_num (Number_of_Z (cl_blockNumber l)) ++ §":");
  each print_contract (cl_contracts l).

(** scripts/deposit.ts *)
Definition follow_deposit (receipt : Receipt) : Proc unit :=
  match l2HashesOf receipt with
  | ((_ :: _) as l2Hash) :: _ =>
      _ ← console_error (§"  L2 deposit tx " ++ l2Hash ++ §"; waiting for derivation");
      attempt (l2Receipt ← l2Public E None (WaitForReceipt l2Hash (Some 120000));
               console_log (§"L2 tx " ++ l2Hash ++ §" in block " ++ dec (r_blockNumber l2Receipt) ++ §" status " ++ r_status l2Receipt))
              (fun _ => console_error (§"  not derived within 120s — the deposit stands, check the L2 hash later"))
  | _ => _ ← console_error (§"no TransactionDeposited log in the receipt"); exit_ 1
  end.
Definition deposit (argv : list text) : Proc unit :=
  match given argv 0 with
  | None => usage (§"deposit.ts <recipient address> [wei]")
  | Some toArg =>
      to ← checked_address toArg;
      amount ← bigint_of (argument_or argv 1 ONE_ETHER);
      wallet ← l1Wallet (c_depositorKey config);
      code ← l1Public E (GetCode (c_depositContract config));
      if match code with Some c => text_eq c (§"0x") | None => true end then
        _ ← console_error (§"no portal at " ++ c_depositContract config ++ §" — the L1 contracts have not been deployed; "
              ++ §"bring the devnet up with `docker compose up`"); exit_ 1
      else
        _ ← console_error (§"depositing " ++ dec amount ++ §" wei to " ++ to ++ §" via OptimismPortal at " ++ c_depositContract config);
        hash ← l1Send E wallet (DepositTransaction to amount amount (c_depositGasLimit config) (l2Chain E));
        receipt ← l1Public E (WaitForReceipt hash None);
        _ ← console_log (§"L1 tx " ++ hash ++ §" in block " ++ dec (r_blockNumber receipt) ++ §" status " ++ r_status receipt);
        follow_deposit receipt
  end.

(** scripts/withdraw.ts *)
Definition withdraw (argv : list text) : Proc unit :=
  match given argv 0, given argv 1 with
  | Some toArg, Some amountArg =>
      to ← checked_address toArg;
      amount ← bigint_of amountArg;
      wallet ← l2Wallet (c_senderKey config);
      sender ← l2Sender None;
      senderBalance ← l2Public E None (GetBalance sender);
      if senderBalance <? amount then
        _ ← console_error (§"sender " ++ sender ++ §" holds " ++ dec senderBalance ++ §" wei on L2, less than the " ++ dec amount
              ++ §" to withdraw — " ++ §"deposit first: bun scripts/deposit.ts " ++ sender ++ §" " ++ dec amount); exit_ 1
      else
        _ ← console_error (§"initiating a withdrawal of " ++ dec amount ++ §" wei to " ++ to ++ §" (sender " ++ sender ++ §")");
        args ← l1Public E (BuildInitiateWithdrawal to amount);
        txHash ← l2Send E wallet (InitiateWithdrawal args);
        _ ← console_error (§"  L2 tx " ++ txHash);
        receipt ← waitL2Receipt txHash 60000;
        before ← l1Public E (GetBalance to);
        _ ← proveAndFinalizeWithdrawal receipt;
        after ← l1Public E (GetBalance to);
        _ ← console_error [];
        _ ← console_error (§"withdrawal finalized through OptimismPortal");
        _ ← console_error (§"  recipient " ++ to);
        console_error (§"  balance   " ++ dec before ++ §" -> " ++ dec after)
  | _, _ => usage (§"withdraw.ts <recipient> <wei>")
  end.

(** scripts/withdraw-erc20.ts *)
Definition withdraw_erc20 (argv : list text) : Proc unit :=
  match given argv 0, given argv 1 with
  | Some toArg, Some amountArg =>
      to ← checked_address toArg;
      amount ← bigint_of amountArg;
      token ← match given argv 2 with Some t => a ← checked_address t; mret (Some a) | None => mret (c_testToken config) end;
      match token with
      | Some ((_ :: _) as token) =>
          sender ← l2Sender None;
          _ ← console_error (§"asking the guest to bridge " ++ dec amount ++ §" of " ++ token ++ §" to " ++ to ++ §" (sender " ++ sender ++ §")");
          data ← settle (encodeFunctionData (§"bridgeERC20To") [AStr (facade token); AStr token; AStr to; ANum amount; ANum 400000; AStr (§"0x")]);
          txHash ← sendL2Tx (hex_text L2_BRIDGE_ADDRESS) (Some data) None None;
          _ ← console_error (§"  L2 tx " ++ txHash);
          receipt ← waitL2Receipt txHash 60000;
          before ← l1Public E (ReadContract token (§"balanceOf") [AStr to]);
          _ ← proveAndFinalizeWithdrawal receipt;
          after ← l1Public E (ReadContract token (§"balanceOf") [AStr to]);
          _ ← console_error [];
          _ ← console_error (§"withdrawal finalized through L1StandardBridge");
          _ ← console_error (§"  recipient " ++ to);
          console_error (§"  balance   " ++ dec before ++ §" -> " ++ dec after)
      | _ => _ ← console_error (§"no token given and no TEST_TOKEN_ADDRESS; run bun scripts/deposit-erc20.ts first"); exit_ 1
      end
  | _, _ => usage (§"withdraw-erc20.ts <recipient> <amount> [l1-token]")
  end.

(** scripts/deposit-erc20.ts *)
Definition deployed (address : text) : Proc bool :=
  code ← l1Public E (GetCode address); mret (match code with Some _ => true | None => false end).
(** [/TEST_TOKEN_ADDRESS=(0x[0-9a-fA-F]{40})/] *)
Definition token_re : regex := (RLit (§"TEST_TOKEN_ADDRESS=") · RGroup 1 (RLit (§"0x") · RRep 40 is_hex))%re.
Definition forge_command : list text :=
  [§"forge"; §"script"; §"script/DeployTestToken.s.sol:DeployTestToken"; §"--rpc-url"; c_l1Rpc config;
   §"--private-key"; c_depositorKey config; §"--broadcast"].
(** [spawnSync] with both outputs collected; nothing when it could not start. *)
Definition spawnSync (cmd : list text) (cwd : text) : Proc text := fun w =>
  let w' := remember (Spawned cmd (Some cwd) (environ w)) w in
  match child (history w) cmd (Some cwd) (environ w) (fs w) with
  | inl _ => (Done [], w')
  | inr (_, out, err, fs') => (Done (out ++ err), set_fs fs' w')
  end.
Definition last_lines (t : text) : text := let ls := split_on NL t in join [NL] (drop (length ls - 20) ls).
Definition fail_with (lines : list text) : Proc unit := _ ← each console_error lines; exit_ 1.
Definition deploy_test_token (depositor : text) : Proc text :=
  t ← spawnSync forge_command (path_join (p_repo (m_paths E)) (§"contracts"));
  match capture token_re 1 t with
  | None => _ ← fail_with [last_lines t]; mret []
  | Some found =>
      token ← checked_address found;
      there ← deployed token;
      _ ← guard_ (negb there) (fail_with [§"forge reported " ++ token ++ §" but the L1 has no code there:"; last_lines t]);
      _ ← writeFileSync (c_tokenEnvFile config) (§"# Written by scripts/deposit-erc20.ts." ++ [NL] ++ §"TEST_TOKEN_ADDRESS=" ++ token ++ [NL]);
      _ ← console_error (§"  token " ++ token ++ §", supply held by " ++ depositor);
      mret token
  end.
Definition choose_token (tokenArg : option text) (depositor : text) : Proc text :=
  match tokenArg with
  | Some t =>
      token ← checked_address t;
      there ← deployed token;
      _ ← guard_ (negb there) (fail_with [§"no contract code at " ++ token ++ §" on L1 — is the token deployed there?"]);
      mret token
  | None =>
      match c_testToken config with
      | Some ((_ :: _) as token) =>
          there ← deployed token;
          if (there : bool) then mret token
          else _ ← console_error (§"token.env's " ++ token ++ §" has no code on this L1 — deploying a fresh test token");
               deploy_test_token depositor
      | _ => _ ← console_error (§"deploying a test token"); deploy_test_token depositor
      end
  end.
(** Approve, deposit, and what the bridge holds. *)
Definition deposit_tokens (wallet depositor bridge token : text) (amount : Z) : Proc unit :=
  _ ← console_error (§"depositing " ++ dec amount ++ §" of " ++ token ++ §" through L1StandardBridge at " ++ bridge);
  approval ← l1Send E wallet (WriteContract token (§"approve") [AStr bridge; ANum amount]);
  approvalReceipt ← l1Public E (WaitForReceipt approval None);
  _ ← guard_ (negb (text_eq (r_status approvalReceipt) (§"success"))) (fail_with [§"approve reverted in " ++ approval]);
  deposit ← l1Send E wallet (WriteContract bridge (§"depositERC20")
    [AStr token; AStr (facade token); ANum amount; ANum 400000; AStr (§"0x")]);
  depositReceipt ← l1Public E (WaitForReceipt deposit None);
  _ ← guard_ (negb (text_eq (r_status depositReceipt) (§"success")))
    (fail_with [§"depositERC20 reverted in " ++ deposit ++ §" — does " ++ depositor ++ §" hold " ++ dec amount ++ §" of " ++ token ++ §"?"]);
  escrowed ← l1Public E (ReadContract token (§"balanceOf") [AStr bridge]);
  each console_error [§"  escrowed in L1StandardBridge: " ++ dec escrowed; [];
    §"the guest credits " ++ depositor ++ §" once the chain derives the deposit; check with:";
    §"  bun scripts/balance.ts " ++ depositor ++ §" " ++ token].
Definition deposit_erc20 (argv : list text) : Proc unit :=
  _ ← guard_ (match argv !! 0%nat with Some a => text_eq a (§"-h") || text_eq a (§"--help") | None => false end)
        (usage (§"deposit-erc20.ts [amount] [token]"));
  amount ← bigint_of (argument_or argv 0 ONE_ETHER);
  match c_l1StandardBridge config with
  | Some ((_ :: _) as bridge) =>
      wallet ← l1Wallet (c_depositorKey config);
      let depositor := accountOf wallet in
      there ← deployed bridge;
      _ ← guard_ (negb there) (fail_with [§"L1StandardBridge (" ++ bridge ++ §") has no code on this L1 — rerun ./devnet/deploy-l1.ts"]);
      token ← choose_token (given argv 1) depositor;
      deposit_tokens wallet depositor bridge token amount
  | _ => fail_with [§"run ./devnet/deploy-l1.ts first"]
  end.
End Scripts.
