(* ===== verification/ScriptsSpec.v ===== *)
(** * What the scripts send

    How the game a voucher is executed against is looked for, as relations
    between histories, and the order of a withdrawal's second half. *)

From Stdlib Require Import ZArith Lia.
From S2P Require Import Prelude Bytes DriveTable Evm.
From S2P Require Import Text JsText Regex Numbers Process Env Devnet Scripts.

Lemma ask_done `{Host} {A} url key (c : Call A) w a w' : ask url key c w = (Done a, w') ->
  answer (history w) url key c = inr a /\ w' = remember (Asked url key c) w.
Proof. intros [-> [(a' & Ha & [= ->])|(e & _ & [=])]]%ask_cases. done. Qed.
Lemma console_error_done t w u w' : console_error t w = (Done u, w') -> history w' = history w.
Proof. by intros [= _ <-]. Qed.

Section Spec.
Context `{Host} `{Keccak} (E : EnvModule).
Let config : Config := m_config E.
Let url : text := c_l1Rpc config.

(** A message sent and mined. *)
Lemma waitL1_done (k : option text) (c : Call text) w u w' : waitL1 E (ask url k c) w = (Done u, w') -> exists hash receipt,
  history w' = history w ++ [Asked url k c; Asked url None (WaitForReceipt hash None)]
  /\ answer (history w) url k c = inr hash
  /\ answer (history w ++ [Asked url k c]) url None (WaitForReceipt hash None) = inr receipt /\ r_status receipt = §"success".
Proof.
  unfold waitL1. intros (hash & w1 & (Ha & ->)%ask_done & Hw)%pbind_done_inv.
  apply pbind_done_inv in Hw as (receipt & w2 & (Hr & ->)%ask_done & Hw).
  destruct (text_eq _ _) eqn:He; [|discriminate]. apply text_eq_spec in He. injection Hw as _ <-.
  exists hash, receipt. split_and!; try done. simpl. by rewrite <- app_assoc.
Qed.
Lemma waitL1_explained (k : option text) (c : Call text) w u w' :
  waitL1 E (attempt (ask url k c) explainPortalRevert) w = (Done u, w') -> exists hash,
  history w' = history w ++ [Asked url k c; Asked url None (WaitForReceipt hash None)].
Proof.
  unfold waitL1. intros (hash & w1 & Hat & Hw)%pbind_done_inv. unfold attempt in Hat.
  destruct (ask url k c w) as [[a|e|x|] w2] eqn:Ha; try discriminate.
  - injection Hat as <- <-. apply ask_done in Ha as [_ ->]. apply pbind_done_inv in Hw as (receipt & w3 & (_ & ->)%ask_done & Hw).
    destruct (text_eq _ _); [|discriminate]. injection Hw as _ <-. exists a. simpl. by rewrite <- app_assoc.
  - unfold explainPortalRevert in Hat. by destruct (_ ≫= _).
Qed.

(** ** Vouchers *)

(** What is asked of one game: its proxy, and the proxy's L2 block. *)
Definition look (factory : text) (i : Z) (proxy : text) : list Event :=
  [Asked url None (ReadGameAtIndex factory i); Asked url None (ReadContract proxy (§"l2BlockNumber") [])].
Definition looked (factory : text) (h : list Event) (i : Z) (proxy : text) (block : Z) : Prop :=
  (exists x y, answer h url None (ReadGameAtIndex factory i) = inr (x, y, proxy))
  /\ answer (h ++ [Asked url None (ReadGameAtIndex factory i)]) url None (ReadContract proxy (§"l2BlockNumber") []) = inr block.

(** Looking at the games from [i] down, all of them below [out], from the
    history [h] to [h'], where [j] is the next. *)
Inductive passed_over (factory : text) (out : Z) : list Event -> Z -> list Event -> Z -> Prop :=
  | passed_none h i : passed_over factory out h i h i
  | passed_one h i proxy block h' j : looked factory h i proxy block -> block < out ->
      passed_over factory out (h ++ look factory i proxy) (i - 1) h' j -> passed_over factory out h i h' j.
(** One reading of the factory from [h]: the games it then counts, from the
    newest down, are below [out] as far as [j]. *)
Definition counted (factory : text) (out : Z) (h h' : list Event) (j : Z) : Prop := exists count,
  answer h url None (ReadContract factory (§"gameCount") []) = inr count
  /\ passed_over factory out (h ++ [Asked url None (ReadContract factory (§"gameCount") [])]) (count - 1) h' j.
(** Readings of the factory in none of which a game covers [out]. *)
Inductive waited (factory : text) (out : Z) : list Event -> list Event -> Prop :=
  | waited_none h : waited factory out h h
  | waited_round h h1 h' j : counted factory out h h1 j -> j < 0 -> waited factory out h1 h' -> waited factory out h h'.
(** Of the games the factory counts when asked at [h], [g] is the newest whose
    block is at or past [out]; the history is then [h']. *)
Definition newest_game (factory : text) (out : Z) (h : list Event) (g : Z) (proxy : text) (block : Z) (h' : list Event) : Prop :=
  exists h1, counted factory out h h1 g /\ 0 <= g /\ looked factory h1 g proxy block /\ out <= block /\ h' = h1 ++ look factory g proxy.

Lemma passed_over_down factory out h i h' j : passed_over factory out h i h' j -> j <= i.
Proof. induction 1; lia. Qed.
Lemma scan_games_done factory out n w r w' : scan_games E factory out n w = (Done r, w') ->
  match r with
  | Some (g, proxy, block) => exists h1, passed_over factory out (history w) (Z.of_nat n - 1) h1 g /\ 0 <= g
      /\ looked factory h1 g proxy block /\ out <= block /\ history w' = h1 ++ look factory g proxy
  | None => passed_over factory out (history w) (Z.of_nat n - 1) (history w') (-1)
  end.
Proof.
  revert w. induction n as [|n IH]; intros w; simpl scan_games; intros Hw; [injection Hw as <- <-; constructor|].
  apply pbind_done_inv in Hw as ([[x y] proxy] & w1 & (Hg & ->)%ask_done & Hw).
  apply pbind_done_inv in Hw as (block & w2 & (Hb & ->)%ask_done & Hw). cbn [snd] in *.
  assert (Hread : looked factory (history w) (Z.of_nat n) proxy block) by (split; eauto).
  replace (Z.of_nat (S n) - 1) with (Z.of_nat n) by lia.
  destruct (Z.leb_spec out block) as [Hle|Hlt].
  - injection Hw as <- <-. exists (history w). split; [constructor|]. split; [lia|]. split; [exact Hread|]. split; [exact Hle|].
    cbn [history remember]. by rewrite <- app_assoc.
  - apply IH in Hw. cbn [history remember] in Hw. rewrite <- app_assoc in Hw. destruct r as [[[g p] b]|].
    + destruct Hw as (h1 & Hp & Hrest). exists h1. split; [|exact Hrest]. exact (passed_one _ _ _ _ _ _ _ _ Hread Hlt Hp).
    + exact (passed_one _ _ _ _ _ _ _ _ Hread Hlt Hw).
Qed.
Lemma find_game_done rounds factory out w g proxy block w' : find_game E rounds factory out w = (Done (g, proxy, block), w') ->
  exists h, waited factory out (history w) h /\ newest_game factory out h g proxy block (history w').
Proof.
  revert w. induction rounds as [|rounds IH]; intros w; simpl; intros Hw; [discriminate|].
  apply pbind_done_inv in Hw as (count & w1 & (Hc & ->)%ask_done & Hw).
  apply pbind_done_inv in Hw as (found & w2 & Hs%scan_games_done & Hw). cbn [history remember] in Hs.
  destruct found as [[[g' p'] b']|].
  - injection Hw as -> -> -> ->. exists (history w). split; [constructor|]. destruct Hs as (h1 & Hp & Hg & Hrest). exists h1.
    destruct (decide (0 <= count)); [|apply passed_over_down in Hp; lia].
    rewrite Z2Nat.id in Hp by lia. split; [by exists count|by split].
  - apply IH in Hw as (h & Hwait & Hn). exists h. split; [|exact Hn].
    destruct (decide (0 <= count)) as [Hpos|Hneg].
    + rewrite Z2Nat.id in Hs by lia. apply (waited_round _ _ _ (history w2) _ (-1)); [by exists count|lia|exact Hwait].
    + replace (Z.to_nat count) with 0%nat in Hs by lia. simpl in Hs.
      assert (Hq : history w ++ [Asked url None (ReadContract factory (§"gameCount") [])] = history w2)
        by (inversion Hs as [|? ? ? ? ? ? _ _ Hp]; [done|apply passed_over_down in Hp; lia]).
      apply (waited_round _ _ _ (history w2) _ (count - 1)); [|lia|exact Hwait]. exists count. split; [exact Hc|]. rewrite Hq. constructor.
Qed.

(** A message sent over [k] at [h] and mined successfully, which ends at [h']. *)
Definition mined (k : option text) (c : Call text) (h h' : list Event) : Prop := exists hash receipt,
  answer h url k c = inr hash /\ answer (h ++ [Asked url k c]) url None (WaitForReceipt hash None) = inr receipt
  /\ r_status receipt = §"success" /\ h' = h ++ [Asked url k c; Asked url None (WaitForReceipt hash None)].
Lemma waitL1_mined k c w u w' : waitL1 E (ask url k c) w = (Done u, w') -> mined k c (history w) (history w').
Proof. intros (hash & receipt & Hh & Ha & Hr & Hs)%waitL1_done. by exists hash, receipt. Qed.

(** The run of a voucher's execution over the history, from [h] to [h']: its
    receipt and its outputs, the wait for a game, the proof and the block of
    that game, its claim opened, the output executed. *)
Definition voucher_run (factory validator executor caller tx : text) (index g : Z) (h h' : list Event) : Prop :=
  let l2 := c_l2Rpc config in
  exists receipt em data rest proxy blk proof block root h1 h2 h3,
    answer h l2 None (WaitForReceipt tx None) = inr receipt
    /\ answer (h ++ [Asked l2 None (WaitForReceipt tx None)]) l2 None (GetTransactionEmissions tx) = inr em
    /\ outputs em = (index, data) :: rest
    /\ waited factory (r_blockNumber receipt) (h ++ [Asked l2 None (WaitForReceipt tx None); Asked l2 None (GetTransactionEmissions tx)]) h1
    /\ newest_game factory (r_blockNumber receipt) h1 g proxy blk h2
    /\ answer h2 l2 None (GetOutputProof index blk) = inr proof
    /\ answer (h2 ++ [Asked l2 None (GetOutputProof index blk)]) l2 None (GetBlock blk) = inr block
    /\ b_withdrawalsRoot block = Some root
    /\ mined (Some caller) (WriteContract validator (§"accept") (accept_args g block root proof))
         (h2 ++ [Asked l2 None (GetOutputProof index blk); Asked l2 None (GetBlock blk)]) h3
    /\ mined (Some caller) (WriteContract executor (§"executeOutput") (execute_args index proof)) h3 h'.

Opaque js.
Lemma executeVoucher_done rounds tx w index w' : executeVoucher E rounds tx w = (Done index, w') ->
  exists factory validator executor caller g,
    c_disputeGameFactory config = Some factory /\ c_outputsValidator config = Some validator /\ c_outputExecutor config = Some executor
    /\ l1Wallet (c_callerKey config) w = (Done caller, w)
    /\ voucher_run factory validator executor caller tx index g (history w) (history w').
Proof.
  unfold executeVoucher. fold config.
  destruct (c_disputeGameFactory config) as [[|f0 f]|]; try discriminate. destruct (c_outputsValidator config) as [[|v0 v]|]; try discriminate.
  destruct (c_outputExecutor config) as [[|e0 e]|]; try discriminate. intros Hw.
  apply pbind_done_inv in Hw as (caller & w1 & Hk & Hw).
  assert (w1 = w) as -> by (unfold l1Wallet, asKey in Hk; destruct (negb _); [discriminate|]; by injection Hk).
  apply pbind_done_inv in Hw as (receipt & w2 & (Hr & ->)%ask_done & Hw).
  apply pbind_done_inv in Hw as (em & w3 & (He & ->)%ask_done & Hw). destruct (outputs em) as [|[i data] rest] eqn:Ho; [discriminate|].
  cbv zeta in Hw. apply pbind_done_inv in Hw as (? & w3 & H3%console_error_done & Hw). apply pbind_done_inv in Hw as (? & w4 & H4%console_error_done & Hw).
  apply pbind_done_inv in Hw as ([[g proxy] blk] & w5 & (h1 & Hwait & Hg)%find_game_done & Hw).
  rewrite H4, H3 in Hwait. cbn [history remember] in Hwait, He. rewrite <- app_assoc in Hwait.
  apply pbind_done_inv in Hw as (? & w6 & H6%console_error_done & Hw). apply pbind_done_inv in Hw as (proof & w7 & (Hp & ->)%ask_done & Hw).
  apply pbind_done_inv in Hw as (block & w7 & (Hb & ->)%ask_done & Hw). cbn [history remember] in Hb.
  destruct (b_withdrawalsRoot block) as [[|r0 r]|] eqn:Hroot; try discriminate.
  apply pbind_done_inv in Hw as (? & w8 & H8%waitL1_mined & Hw). apply pbind_done_inv in Hw as (? & w9 & H9%console_error_done & Hw).
  apply pbind_done_inv in Hw as (? & w10 & H10%waitL1_mined & Hw). apply pbind_done_inv in Hw as (? & w11 & H11%console_error_done & Hw).
  injection Hw as -> ->. cbn [history remember] in H8. rewrite H6, <- app_assoc in H8. rewrite H6 in Hp, Hb. rewrite H9 in H10. rewrite <- H11 in H10.
  exists (f0 :: f), (v0 :: v), (e0 :: e), caller, g. split_and!; [reflexivity..|exact Hk|].
  exists receipt, em, data, rest, proxy, blk, proof, block, (r0 :: r), h1, (history w5), (history w8).
  split_and!; [exact Hr|exact He|exact Ho|exact Hwait|exact Hg|exact Hp|exact Hb|exact Hroot|exact H8|exact H10].
Qed.

(** ** Withdrawals *)
Definition outlive_events (caller portal game : text) (maturity clock status finality : Z) (h1 h2 : text) : list Event :=
  [Asked url None (ReadContract portal (§"proofMaturityDelaySeconds") []); Asked url None (ReadContract game (§"maxClockDuration") []);
   Asked url None (RpcRequest (§"evm_increaseTime") [ANum (Number_of_bigint (Z.max maturity clock + 60))]); Asked url None (RpcRequest (§"evm_mine") []);
   Asked url None (ReadContract game (§"status") [])]
  ++ (if status =? 0 then
        [Asked url (Some caller) (WriteContract game (§"resolveClaim") [ANum 0; ANum 0]); Asked url None (WaitForReceipt h1 None);
         Asked url (Some caller) (WriteContract game (§"resolve") []); Asked url None (WaitForReceipt h2 None)] else [])
  ++ [Asked url None (ReadContract portal (§"disputeGameFinalityDelaySeconds") []);
      Asked url None (RpcRequest (§"evm_increaseTime") [ANum (Number_of_bigint (finality + 60))]); Asked url None (RpcRequest (§"evm_mine") [])].
Definition delays_read (portal game : text) (maturity clock status finality : Z) : Prop :=
  (exists h, answer h url None (ReadContract portal (§"proofMaturityDelaySeconds") []) = inr maturity)
  /\ (exists h, answer h url None (ReadContract game (§"maxClockDuration") []) = inr clock)
  /\ (exists h, answer h url None (ReadContract game (§"status") []) = inr status)
  /\ (exists h, answer h url None (ReadContract portal (§"disputeGameFinalityDelaySeconds") []) = inr finality).

Lemma skipTime_done seconds what w u w' : skipTime E seconds what w = (Done u, w') ->
  history w' = history w ++ [Asked url None (RpcRequest (§"evm_increaseTime") [ANum (Number_of_bigint seconds)]); Asked url None (RpcRequest (§"evm_mine") [])].
Proof.
  unfold skipTime. intros (? & w1 & H1%console_error_done & Hw)%pbind_done_inv.
  apply pbind_done_inv in Hw as (? & w2 & (_ & ->)%ask_done & Hw). apply ask_done in Hw as [_ ->]. cbn [history remember]. by rewrite H1, <- app_assoc.
Qed.
Lemma outlive_delays_done caller portal game w u w' : outlive_delays E caller portal game w = (Done u, w') ->
  exists maturity clock status finality h1 h2, delays_read portal game maturity clock status finality
    /\ history w' = history w ++ outlive_events caller portal game maturity clock status finality h1 h2.
Proof.
  unfold outlive_delays. intros (maturity & w1 & (Hm & ->)%ask_done & Hw)%pbind_done_inv.
  apply pbind_done_inv in Hw as (clock & w1 & (Hc & ->)%ask_done & Hw). apply pbind_done_inv in Hw as (? & w1 & H1%skipTime_done & Hw).
  apply pbind_done_inv in Hw as (status & w2 & (Hs & ->)%ask_done & Hw). apply pbind_done_inv in Hw as (? & w2 & Hg & Hw).
  apply pbind_done_inv in Hw as (finality & w3 & (Hf & ->)%ask_done & Hw). apply skipTime_done in Hw.
  assert (Hres : exists h1 h2, history w2 = history w1 ++ [Asked url None (ReadContract game (§"status") [])] ++ (if status =? 0 then
        [Asked url (Some caller) (WriteContract game (§"resolveClaim") [ANum 0; ANum 0]); Asked url None (WaitForReceipt h1 None);
         Asked url (Some caller) (WriteContract game (§"resolve") []); Asked url None (WaitForReceipt h2 None)] else [])).
  { unfold guard_ in Hg. destruct (status =? 0).
    - apply pbind_done_inv in Hg as (? & w4 & H4%console_error_done & Hg). apply pbind_done_inv in Hg as (? & w5 & (h1 & ? & H5 & _)%waitL1_done & Hg).
      apply waitL1_done in Hg as (h2 & ? & H6 & _). exists h1, h2. rewrite H6, H5, H4. cbn [history remember]. by rewrite <- !app_assoc.
    - injection Hg as _ <-. exists [], []. done. }
  destruct Hres as (h1 & h2 & H2). exists maturity, clock, status, finality, h1, h2. split; [exact (conj (ex_intro _ _ Hm) (conj (ex_intro _ _ Hc) (conj (ex_intro _ _ Hs) (ex_intro _ _ Hf))))|].
  rewrite Hw. cbn [history remember]. rewrite H2, H1. cbn [history remember]. unfold outlive_events. rewrite <- !app_assoc.
  replace (if clock <? maturity then maturity else clock) with (Z.max maturity clock) by (destruct (Z.ltb_spec clock maturity); lia). done.
Qed.

Lemma proveAndFinalize_done receipt w u w' : proveAndFinalizeWithdrawal E receipt w = (Done u, w') ->
  exists caller found args game maturity clock status finality h1 h2 h3 h4,
    let portal := c_depositContract config in
    getAddress (§"0x" ++ drop 26 (tp_metadata found)) = inr game /\ delays_read portal game maturity clock status finality
    /\ history w' = history w ++ [Asked url None (WaitToProve receipt (l2Chain E)); Asked (c_l2Rpc config) None (BuildProveWithdrawal found);
                                  Asked url (Some caller) (ProveWithdrawal args); Asked url None (WaitForReceipt h1 None)]
         ++ outlive_events caller portal game maturity clock status finality h2 h3
         ++ [Asked url (Some caller) (FinalizeWithdrawal found (l2Chain E)); Asked url None (WaitForReceipt h4 None)].
Proof.
  unfold proveAndFinalizeWithdrawal. destruct (c_disputeGameFactory _) as [[|f0 f]|]; try discriminate. intros Hw.
  apply pbind_done_inv in Hw as (caller & w1 & Hk & Hw). assert (Hq : w1 = w) by (unfold l1Wallet, asKey in Hk; destruct (negb _); [discriminate|]; by injection Hk).
  subst w1. cbv zeta in Hw. apply pbind_done_inv in Hw as (? & w1 & H1%console_error_done & Hw).
  apply pbind_done_inv in Hw as (found & w2 & (_ & ->)%ask_done & Hw).
  apply pbind_done_inv in Hw as (? & w2 & H2%console_error_done & Hw). apply pbind_done_inv in Hw as (? & w3 & H3%console_error_done & Hw).
  apply pbind_done_inv in Hw as (args & w4 & (_ & ->)%ask_done & Hw). apply pbind_done_inv in Hw as (? & w5 & (h1 & H5)%waitL1_explained & Hw).
  apply pbind_done_inv in Hw as (? & w6 & H6%console_error_done & Hw). apply pbind_done_inv in Hw as (game & w7 & Hg & Hw).
  unfold settle in Hg. destruct (getAddress _) as [e|a] eqn:Ha; [discriminate|]. injection Hg as <- <-.
  apply pbind_done_inv in Hw as (? & w8 & (maturity & clock & status & finality & h2 & h3 & Hd & H8)%outlive_delays_done & Hw).
  apply pbind_done_inv in Hw as (? & w9 & (h4 & H9)%waitL1_explained & Hw). apply console_error_done in Hw.
  exists caller, found, args, a, maturity, clock, status, finality, h1, h2, h3, h4. cbv zeta. split_and!; [done|exact Hd|].
  rewrite Hw, H9, H8, H6, H5. cbn [history remember]. rewrite H3, H2. cbn [history remember]. rewrite H1, <- !app_assoc. done.
Qed.
End Spec.
