(* ===== verification/GuestLog.v ===== *)
(** * The guest log

    devnet/guest-log.ts: what the guest said about every transaction, printed
    as the chain grows, and followed back when a reorganization shortens it. *)

From Stdlib Require Import ZArith Lia.
From S2P Require Import Prelude Bytes DriveTable Evm.
From S2P Require Import Text JsText Regex Numbers Process Env Devnet.

(** ** Text *)
Definition MAX_REPORT_CHARS : nat := 400.
(** Over UTF-16 units: [length] counts them and [slice] may cut a pair. *)
Definition truncate (s : list Z) : list Z :=
  if (MAX_REPORT_CHARS <? length s)%nat
  then take MAX_REPORT_CHARS s ++ utf16 (§"… (" ++ dec (zlen s) ++ §" chars)") else s.

(** [new TextDecoder("utf-8", { fatal: true })]: [None] is its [TypeError]. *)
Fixpoint utf8_fatal (u : Utf8) (bs : bytes) : option text :=
  match bs with
  | [] => if u_needed u =? 0 then Some [] else None
  | b :: bs =>
      let bad := if u_needed u =? 0 then (match utf8_lead b with ([], _) => false | (_, _) => 0x7f <? b end)
                 else negb ((u_lower u <=? b) && (b <=? u_upper u)) in
      if bad then None
      else let (out, u') := utf8_step u b in
           match utf8_fatal u' bs with Some t => Some (out ++ t) | None => None end
  end.
Definition decode_fatal (bs : bytes) : option text :=
  utf8_fatal utf8_start (if bytesEqual (slice 0 3 bs) [0xef; 0xbb; 0xbf] then drop 3 bs else bs).

Definition isText (c : Z) : bool := (0x1f <? c) || ((0x09 <=? c) && (c <=? 0x0d)).
Fixpoint drop_trailing (p : Z -> bool) (t : text) : text :=
  match t with
  | [] => []
  | c :: t => match drop_trailing p t with [] => if p c then [] else [c] | r => c :: r end
  end.
(** [text.replace(/\n+$/, "").replace(/\n/g, "\n           ")] *)
Definition layout_text (t : text) : text :=
  concat (map (fun c => if c =? NL then NL :: replicate 11 32 else [c]) (drop_trailing (fun c => c =? NL) t)).
Definition readable (payload : bytes) : list Z :=
  match payload with
  | [] => utf16 (§"(empty)")
  | _ =>
      match decode_fatal payload with
      | None => truncate (utf16 (hex_text payload))
      | Some t => if forallb isText t then truncate (utf16 (layout_text t)) else truncate (utf16 (hex_text payload))
      end
  end.

Definition tag_label (tag : Z) : option text :=
  if tag =? TAG_APP then Some (§"report") else if tag =? TAG_RETURN then Some (§"return")
  else if tag =? TAG_REVERT then Some (§"revert") else None.

Definition shortHash (hash : text) : text := take 10 hash ++ §"…" ++ drop (length hash - 6) hash.
Definition formatCycles (cycles : Z) : text :=
  if 1000000000 <=? cycles then toFixed 2 (num_div (Number_of_Z cycles) 1000000000) ++ §"G"
  else if 1000000 <=? cycles then toFixed 1 (num_div (Number_of_Z cycles) 1000000) ++ §"M"
  else if 1000 <=? cycles then toFixed 1 (num_div (Number_of_Z cycles) 1000) ++ §"k"
  else dec cycles.

Section GuestLog.
Context `{Host} (E : EnvModule) (rpc : option text).

Definition formatReport (report : bytes) : list Z :=
  match report with
  | [] => utf16 (§"  (empty report)")
  | tag :: payload =>
      match tag_label tag with
      | None => utf16 (§"  report   ") ++ readable report
      | Some label =>
          let plain := utf16 (§"  " ++ padEnd 8 label ++ §" ") ++ readable payload in
          if (tag =? TAG_REVERT) && (4 <=? zlen payload) then
            match decodeErrorResult payload with
            | inr (name, args) => utf16 (§"  revert   " ++ name ++ §"(" ++ match args with Some a => join (§", ") a | None => [] end ++ §")")
            | inl _ => plain
            end
          else plain
      end
  end.

(** ** Blocks *)
Definition interesting (em : TransactionEmissions) : bool :=
  negb (accepted em) || match reports em with [] => false | _ => true end || match outputs em with [] => false | _ => true end.
Definition tx_lines (tx : Tx) (em : TransactionEmissions) : list (list Z) :=
  utf16 (§"  " ++ (if accepted em then §"accepted" else §"REJECTED") ++ §" " ++ shortHash (tx_hash tx) ++ §" to "
         ++ match tx_to tx with Some ((_ :: _) as to) => shortHash to | _ => §"(create)" end
         ++ (if 0 <? tx_value tx then §" value " ++ formatEther (tx_value tx) else [])
         ++ §" — " ++ formatCycles (cycles em) ++ §" cycles")
  :: map (fun o : Z * bytes => utf16 (§"  output" ++ [35] ++ dec o.1 ++ §" ") ++ readable o.2) (outputs em)
  ++ map formatReport (reports em).
Fixpoint block_lines (txs : list Tx) : Proc (Z * list (list Z)) :=
  match txs with
  | [] => mret (0, [])
  | tx :: txs =>
      em ← l2Public E rpc (GetTransactionEmissions (tx_hash tx));
      rest ← block_lines txs;
      mret (cycles em + rest.1, (if interesting em then tx_lines tx em else []) ++ rest.2)
  end.
(** [console.log] of a line, in UTF-16 units. *)
Definition printBlock (number : Z) : Proc unit :=
  block ← l2Public E rpc (GetBlock number);
  lines ← block_lines (b_transactions block);
  _ ← console_log (utf16 (§"block " ++ dec number ++ §" " ++ shortHash (b_hash block) ++ §" "
        ++ dec (Z.of_nat (length (b_transactions block))) ++ §" tx, " ++ formatCycles lines.1 ++ §" cycles"));
  each console_log lines.2.

(** ** The loop

    [next] is the block to print, [complained] whether the error was said. *)
Record Follow : Type := mkFollow { f_next : option Z; f_complained : bool }.

(** [for (; next <= head; next++) await printBlock(next)], [n] blocks of it: a
    block that fails leaves [next] at itself. *)
Fixpoint print_from (n : nat) (next : Z) : Proc (Z * option JsErr) :=
  match n with
  | O => mret (next, None)
  | S n => r ← attempt (_ ← printBlock next; mret None) (fun e => mret (Some e));
           match r with
           | None => print_from n (next + 1)
           | Some e => mret (next, Some e)
           end
  end.
Definition complain (s : Follow) (next : option Z) (e : JsErr) : Proc Follow :=
  _ ← guard_ (negb (f_complained s)) (console_error (§"waiting for the chain: " ++ first_line (e_message e)));
  mret (mkFollow next true).
(** One turn of the loop. *)
Definition follow_step (s : Follow) : Proc Follow :=
  r ← attempt (head ← l2Public E rpc GetBlockNumber; mret (inr head)) (fun e => mret (inl e));
  match r with
  | inl e => complain s (f_next s) e
  | inr head =>
      next ← match f_next s with
             | Some next => mret next
             | None => _ ← console_log (utf16 (§"following the guest from block " ++ dec head ++ §" on " ++ default (c_l2Rpc (m_config E)) rpc));
                       mret head
             end;
      let next := if head + 1 <? next then head + 1 else next in
      p ← print_from (Z.to_nat (head + 1 - next)) next;
      match p.2 with
      | None => mret (mkFollow (Some p.1) false)
      | Some e => complain s (Some p.1) e
      end
  end.
Fixpoint follow (turns : nat) (s : Follow) : Proc Follow :=
  match turns with O => mret s | S turns => s' ← follow_step s; follow turns s' end.
Definition guest_log (turns : nat) : Proc Follow := follow turns (mkFollow None false).

(** ** The process

    A turn ends in a pause: the configured one after a turn that went through,
    two seconds after one that did not ([complained] says which). *)
Definition POLL_MS : Proc num := reading (fun w => Number (default (§"500") (environ w !! (§"GUEST_LOG_POLL_MS")))).
Definition pause (poll : num) (s : Follow) : num := if f_complained s then Number_of_Z 2000 else poll.
Fixpoint follow_timed (poll : num) (turns : nat) (s : Follow) : Proc (Follow * list num) :=
  match turns with
  | O => mret (s, [])
  | S turns => s' ← follow_step s; r ← follow_timed poll turns s'; mret (r.1, pause poll s' :: r.2)
  end.
End GuestLog.
(** [process.argv]: the runtime, the script, the arguments. *)
Definition guest_log_process `{Host} (E : EnvModule) (argv : list text) (turns : nat) : Proc (Follow * list num) :=
  poll ← POLL_MS; follow_timed E (argv !! 2%nat) poll turns (mkFollow None false).
