(* ===== verification/GuestLogSpec.v ===== *)
(** * The guest log follows the chain

    Every turn of the loop ends, whatever the node answers, and prints the
    blocks it has not printed, each once and in order. *)

From Stdlib Require Import ZArith Lia.
From S2P Require Import Prelude Bytes Text JsText Numbers Process Env Devnet GuestLog.

(** The blocks asked for, in a stretch of history. *)
Definition block_asked (ev : Event) : option Z :=
  match ev with
  | @Asked A _ _ c => match c with GetBlock n => Some n | _ => None end
  | Spawned _ _ _ => None
  end.
Definition asked_blocks (h : list Event) : list Z := omap block_asked h.

Lemma asked_blocks_app h1 h2 : asked_blocks (h1 ++ h2) = asked_blocks h1 ++ asked_blocks h2.
Proof. apply omap_app. Qed.

(** [w'] is [w] after asking for the blocks [ns], without a word on the streams
    but what [out] says. *)
Definition went (w w' : World) (ns : list Z) (printed : list text) : Prop :=
  exists hs, history w' = history w ++ hs /\ asked_blocks hs = ns /\ stdout w' = stdout w ++ printed /\ stderr w' = stderr w.
Lemma went_refl w : went w w [] [].
Proof. exists []. by rewrite !app_nil_r. Qed.
Lemma went_trans w1 w2 w3 ns1 ns2 p1 p2 : went w1 w2 ns1 p1 -> went w2 w3 ns2 p2 -> went w1 w3 (ns1 ++ ns2) (p1 ++ p2).
Proof.
  intros (h1 & H1 & A1 & O1 & E1) (h2 & H2 & A2 & O2 & E2). exists (h1 ++ h2).
  rewrite H2, H1, asked_blocks_app, A1, A2, O2, O1, E2, E1, !app_assoc. done.
Qed.
Lemma went_log w t : went w (console_log t w).2 [] [t].
Proof. exists []. by rewrite app_nil_r. Qed.

Section Spec.
Context `{Host} (E : EnvModule) (rpc : option text).

Lemma ask_went {A} (c : Call A) w : exists w', went w w' (asked_blocks [Asked (default (c_l2Rpc (m_config E)) rpc) None c]) []
  /\ l2Public E rpc c w = match answer (history w) (default (c_l2Rpc (m_config E)) rpc) None c with inr a => (Done a, w') | inl e => (Thrown e, w') end.
Proof.
  unfold l2Public, ask. eexists (remember _ w). split; [|by destruct (answer _ _ _ _)].
  exists [Asked (default (c_l2Rpc (m_config E)) rpc) None c]. simpl. by rewrite app_nil_r.
Qed.

(** A computation that ends, asks for no block and prints nothing. *)
Definition silent {A} (m : Proc A) : Prop := forall w, exists w', went w w' [] [] /\ ((exists a, m w = (Done a, w')) \/ (exists e, m w = (Thrown e, w'))).
Lemma silent_bind {A B} (m : Proc A) (f : A -> Proc B) : silent m -> (forall a, silent (f a)) -> silent (m ≫= f).
Proof.
  intros Hm Hf w. destruct (Hm w) as (w1 & H1 & [[a Ha]|[e He]]); unfold mbind, Proc_bind.
  - rewrite Ha. destruct (Hf a w1) as (w2 & H2 & Hr). exists w2. split; [exact (went_trans _ _ _ _ _ _ _ H1 H2)|exact Hr].
  - rewrite He. exists w1. eauto.
Qed.
Lemma silent_ret {A} (a : A) : silent (mret a).
Proof. intros w. exists w. split; [apply went_refl|]. left. by exists a. Qed.
Lemma silent_block_lines txs : silent (block_lines E rpc txs).
Proof.
  induction txs as [|tx txs IH]; simpl; [apply silent_ret|]. apply silent_bind.
  - intros w. destruct (ask_went (GetTransactionEmissions (tx_hash tx)) w) as (w' & Hw & ->). exists w'. split; [exact Hw|].
    destruct (answer _ _ _ _); eauto.
  - intros em. apply silent_bind; [exact IH|]. intros rest. apply silent_ret.
Qed.
Lemma each_log_went lines w : exists w', each console_log lines w = (Done tt, w') /\ went w w' [] lines.
Proof.
  revert w. induction lines as [|l lines IH]; intros w; simpl; [exists w; split; [done|apply went_refl]|].
  destruct (IH (console_log l w).2) as (w' & Hw & Hg). exists w'. split; [exact Hw|].
  exact (went_trans _ _ _ _ _ _ _ (went_log w l) Hg).
Qed.

(** A block is asked for once, and printed whole or not at all. *)
Lemma printBlock_went n w : exists w', (exists ls, printBlock E rpc n w = (Done tt, w') /\ went w w' [n] ls /\ ls <> [])
  \/ (exists e, printBlock E rpc n w = (Thrown e, w') /\ went w w' [n] []).
Proof.
  unfold printBlock. destruct (ask_went (GetBlock n) w) as (w1 & H1 & Ha). destruct (answer _ _ _ _) as [e|b].
  { exists w1. right. exists e. split; [by apply pbind_thrown|exact H1]. }
  rewrite (pbind_done _ _ _ _ _ Ha). destruct (silent_block_lines (b_transactions b) w1) as (w2 & H2 & [[l Hl]|[e He]]).
  - rewrite (pbind_done _ _ _ _ _ Hl). erewrite pbind_done by reflexivity.
    match goal with |- context [each console_log _ ?x] => destruct (each_log_went l.2 x) as (w3 & -> & H3) end.
    exists w3. left. eexists. split; [reflexivity|]. split.
    + eapply (went_trans _ _ _ [n] [] [] _ (went_trans _ _ _ [n] [] [] [] H1 H2)). exact (went_trans _ _ _ [] [] _ _ (went_log w2 _) H3).
    + done.
  - rewrite (pbind_thrown _ _ _ _ _ He). exists w2. right. exists e. split; [done|]. exact (went_trans _ _ _ [n] [] [] [] H1 H2).
Qed.

(** The blocks from [next] on, until one fails. *)
Lemma print_from_went n next w : exists (k : nat) oe w' ls, print_from E rpc n next w = (Done (next + Z.of_nat k, oe), w')
  /\ (k <= n)%nat /\ (oe = None <-> k = n) /\ went w w' (seqZ next (Z.of_nat k + if oe then 1 else 0)) ls.
Proof.
  revert next w. induction n as [|n IH]; intros next w; simpl.
  { exists 0%nat, None, w, []. rewrite Z.add_0_r. split_and!; [reflexivity|lia|done|apply went_refl]. }
  unfold mbind at 1, Proc_bind at 1, attempt. unfold mbind at 1, Proc_bind at 1.
  destruct (printBlock_went next w) as (w1 & [(ls & -> & H1 & _)|(e & -> & H1)]).
  - destruct (IH (next + 1) w1) as (k & oe & w2 & ls2 & Hp & Hk & Ho & Hw). exists (S k), oe, w2, (ls ++ ls2). simpl. rewrite Hp.
    split_and!; [do 2 f_equal; f_equal; lia|lia|split; intros; [f_equal; tauto|apply Ho; lia]|].
    rewrite seqZ_cons by (destruct oe; lia). replace (Z.succ next) with (next + 1) by lia.
    replace (Z.pred (Z.of_nat (S k) + (if oe then 1 else 0))) with (Z.of_nat k + (if oe then 1 else 0)) by lia.
    exact (went_trans _ _ _ [next] _ _ _ H1 Hw).
  - exists 0%nat, (Some e), w1, []. simpl. rewrite Z.add_0_r. split_and!; [done|lia|done|exact H1].
Qed.

Lemma complain_done s next e w : exists w', complain s next e w = (Done (mkFollow next true), w') /\ history w' = history w
  /\ stdout w' = stdout w /\ (f_complained s = true -> stderr w' = stderr w).
Proof. unfold complain. destruct (f_complained s); simpl; eexists; by split_and!. Qed.

(** The first block a turn looks at, for a head: one past the head when the
    chain has become shorter, the head itself on the first turn. *)
Definition turn_start (next : option Z) (head : Z) : Z := match next with Some n => Z.min n (head + 1) | None => head end.

(** The announcement of the first turn. *)
Lemma start_went s head w : exists w' ls, went w w' [] ls /\
  match f_next s with
  | Some next => mret next
  | None => _ ← console_log (utf16 (§"following the guest from block " ++ dec head ++ §" on " ++ default (c_l2Rpc (m_config E)) rpc)); mret head
  end w = (Done (default head (f_next s)), w').
Proof.
  destruct (f_next s) as [n|].
  - exists w, []. split; [apply went_refl|reflexivity].
  - eexists _, _. split; [apply went_log|reflexivity].
Qed.

Lemma follow_step_turn s w : exists s' w' hs, follow_step E rpc s w = (Done s', w') /\ history w' = history w ++ hs
  /\ (f_complained s = true -> stderr w' = stderr w)
  /\ match answer (history w) (default (c_l2Rpc (m_config E)) rpc) None GetBlockNumber with
     | inl _ => f_next s' = f_next s /\ f_complained s' = true /\ asked_blocks hs = [] /\ stdout w' = stdout w
     | inr head => exists k, 0 <= k <= head + 1 - turn_start (f_next s) head /\ f_next s' = Some (turn_start (f_next s) head + k)
         /\ asked_blocks hs = seqZ (turn_start (f_next s) head) (if f_complained s' then k + 1 else k)
         /\ (f_complained s' = false <-> k = head + 1 - turn_start (f_next s) head)
     end.
Proof.
  unfold follow_step. destruct (ask_went GetBlockNumber w) as (w1 & H1 & Ha). destruct (answer _ _ _ _) as [e|head].
  - assert (Hat : attempt (head ← l2Public E rpc GetBlockNumber; mret (inr head)) (fun e => mret (inl e)) w = (Done (inl e), w1)).
    { unfold attempt. by rewrite (pbind_thrown _ _ _ _ _ Ha). }
    rewrite (pbind_done _ _ _ _ _ Hat). destruct (complain_done s (f_next s) e w1) as (w2 & -> & Hh & Ho & He).
    destruct H1 as (hs & Hh1 & Hb1 & Ho1 & He1). exists (mkFollow (f_next s) true), w2, hs. simpl in *.
    split_and!; try done; [congruence|intros; rewrite He by done; done|congruence..|by rewrite Ho, Ho1, app_nil_r].
  - assert (Hat : attempt (head ← l2Public E rpc GetBlockNumber; mret (inr head)) (fun e => mret (inl e)) w = (Done (inr head), w1)).
    { unfold attempt. by rewrite (pbind_done _ _ _ _ _ Ha). }
    rewrite (pbind_done _ _ _ _ _ Hat). destruct (start_went s head w1) as (w2 & ls & H2 & Hs). rewrite (pbind_done _ _ _ _ _ Hs).
    assert (Hstart : (if head + 1 <? default head (f_next s) then head + 1 else default head (f_next s)) = turn_start (f_next s) head).
    { unfold turn_start. destruct (f_next s) as [n|]; simpl; [destruct (Z.ltb_spec (head + 1) n); lia|]. by rewrite (proj2 (Z.ltb_ge _ _)) by lia. }
    rewrite Hstart. set (start := turn_start _ _) in *.
    assert (Hle : start <= head + 1) by (subst start; unfold turn_start; destruct (f_next s); lia).
    destruct (print_from_went (Z.to_nat (head + 1 - start)) start w2) as (k & oe & w3 & ls3 & Hp & Hk & Ho & H3).
    rewrite (pbind_done _ _ _ _ _ Hp). cbn [fst snd].
    pose proof (went_trans _ _ _ _ _ _ _ (went_trans _ _ _ _ _ _ _ H1 H2) H3) as (hs & Hh & Hb & _ & He). simpl in Hb.
    destruct oe as [e|].
    + destruct (complain_done s (Some (start + Z.of_nat k)) e w3) as (w4 & -> & Hh4 & _ & He4).
      exists (mkFollow (Some (start + Z.of_nat k)) true), w4, hs. split_and!; [done|congruence|intros; rewrite He4 by done; done|].
      exists (Z.of_nat k). simpl. split_and!; [lia|lia|done|done|]. split; [done|]. intros Hkk.
      assert (k = Z.to_nat (head + 1 - start)) as Heq by lia. apply Ho in Heq. done.
    + exists (mkFollow (Some (start + Z.of_nat k)) false), w3, hs. split_and!; [done|done|done|].
      assert (k = Z.to_nat (head + 1 - start)) as Heq by (by apply Ho).
      exists (Z.of_nat k). simpl. rewrite Z.add_0_r in Hb. split_and!; [lia|lia|done|done|]. split; [lia|done].
Qed.

(** The loop never ends of itself: whatever the node answers, any number of
    turns goes by, each ending in a pause. *)
Lemma follow_timed_runs poll turns : forall s w, exists s' w' ps, follow_timed E rpc poll turns s w = (Done (s', ps), w')
  /\ follow E rpc turns s w = (Done s', w') /\ length ps = turns /\ Forall (fun p => p = poll \/ p = Number_of_Z 2000) ps.
Proof.
  induction turns as [|turns IH]; intros s w; cbn [follow_timed follow]; [by exists s, w, []|].
  destruct (follow_step_turn s w) as (s1 & w1 & _ & Hs & _). destruct (IH s1 w1) as (s2 & w2 & ps & Ht & Hf & Hl & Hp).
  exists s2, w2, (pause poll s1 :: ps). rewrite !(pbind_done _ _ _ _ _ Hs), (pbind_done _ _ _ _ _ Ht). split_and!; [done|done|by simpl; rewrite Hl|].
  constructor; [|done]. unfold pause. destruct (f_complained s1); [by right|by left].
Qed.
End Spec.

(** The process, on any arguments. *)
Lemma guest_log_process_runs `{Host} (E : EnvModule) argv turns w : exists s w' ps,
  guest_log_process E argv turns w = (Done (s, ps), w') /\ length ps = turns.
Proof.
  unfold guest_log_process. rewrite (pbind_done _ _ _ _ _ (eq_refl : POLL_MS w = (Done _, w))).
  edestruct (follow_timed_runs E (argv !! 2%nat)) as (s & w' & ps & Hr & _ & Hl & _). exists s, w', ps. by split; [exact Hr|].
Qed.
