(* ===== verification/Json.v ===== *)
(** * JSON

    [JSON.parse] and the string conversions the deployment scripts apply to its
    results. *)

From Stdlib Require Import ZArith Lia.
From S2P Require Import Prelude Bytes Text JsText Numbers.

#[warnings="-register-all"]
Inductive json : Type :=
  | JNull
  | JBool (b : bool)
  | JNumber (x : num)
  | JString (t : text)
  | JArray (l : list json)
  | JObject (members : list (text * json)).

Definition json_space (c : Z) : bool := (c =? 32) || (c =? 9) || (c =? 10) || (c =? 13).
Definition skip (t : text) : text := drop_while json_space t.

(** The digits of a number: [-]?int frac? exp?; the literal and the rest. *)
Definition json_number (t : text) : option (num * text) :=
  let '(neg, r) := match t with 45 :: r => (true, r) | _ => (false, t) end in
  let int := take_while is_digit r in
  let r := drop_while is_digit r in
  let ok := match int with [] => false | [_] => true | 48 :: _ => false | _ => true end in
  let frac := match r with
              | 46 :: r' => match take_while is_digit r' with [] => None | f => Some (f, drop_while is_digit r') end
              | _ => Some ([], r)
              end in
  match ok, frac with
  | true, Some (f, r) =>
      let ex := match r with
                | (101 | 69) :: r' =>
                    let '(n, r') := sign_of r' in
                    match take_while is_digit r' with
                    | [] => None
                    | d => Some (if n then - digits_value d else digits_value d, drop_while is_digit r')
                    end
                | _ => Some (0, r)
                end in
      match ex with
      | Some (e, r) => Some (round_decimal neg (digits_value (int ++ f)) (e - zlen f), r)
      | None => None
      end
  | _, _ => None
  end.

Definition hex4 (t : text) : option (Z * text) :=
  let d := take 4 t in
  if (length d =? 4)%nat && forallb is_hex d
  then Some (default 0 (radix_value 16 0 d), drop 4 t) else None.
(** A string after its opening quote. Two escapes that form a surrogate pair
    are one character. *)
Fixpoint json_string (fuel : nat) (t : text) : option (text * text) :=
  match fuel with
  | O => None
  | S fuel =>
      let more c r := match json_string fuel r with Some (s, r) => Some (c :: s, r) | None => None end in
      match t with
      | [] => None
      | 34 :: r => Some ([], r)
      | 92 :: 117 :: r =>
          match hex4 r with
          | None => None
          | Some (u, r') =>
              match r' with
              | 92 :: 117 :: r'' =>
                  match hex4 r'' with
                  | Some (v, r3) =>
                      if between 0xd800 0xdbff u && between 0xdc00 0xdfff v
                      then more (0x10000 + (u - 0xd800) * 1024 + (v - 0xdc00)) r3 else more u r'
                  | None => more u r'
                  end
              | _ => more u r'
              end
          end
      | 92 :: c :: r =>
          if (c =? 34) || (c =? 92) || (c =? 47) then more c r
          else if c =? 98 then more 8 r else if c =? 102 then more 12 r else if c =? 110 then more 10 r
          else if c =? 114 then more 13 r else if c =? 116 then more 9 r else None
      | c :: r => if c <? 32 then None else more c r
      end
  end.

Section Parse.
Variable value : text -> option (json * text).
(** Elements after the first, and members, up to the closing bracket. *)
Fixpoint json_elements (fuel : nat) (t : text) : option (list json * text) :=
  match fuel with
  | O => None
  | S fuel =>
      match value t with
      | None => None
      | Some (v, r) =>
          match skip r with
          | 44 :: r => match json_elements fuel r with Some (vs, r) => Some (v :: vs, r) | None => None end
          | 93 :: r => Some ([v], r)
          | _ => None
          end
      end
  end.
Fixpoint json_members (fuel : nat) (t : text) : option (list (text * json) * text) :=
  match fuel with
  | O => None
  | S fuel =>
      match skip t with
      | 34 :: r =>
          match json_string (length r) r with
          | None => None
          | Some (k, r) =>
              match skip r with
              | 58 :: r =>
                  match value r with
                  | None => None
                  | Some (v, r) =>
                      match skip r with
                      | 44 :: r => match json_members fuel r with Some (ms, r) => Some ((k, v) :: ms, r) | None => None end
                      | 125 :: r => Some ([(k, v)], r)
                      | _ => None
                      end
                  end
              | _ => None
              end
          end
      | _ => None
      end
  end.
End Parse.

Fixpoint json_value (fuel : nat) (t : text) : option (json * text) :=
  match fuel with
  | O => None
  | S fuel =>
      match skip t with
      | 34 :: r => match json_string (length r) r with Some (s, r) => Some (JString s, r) | None => None end
      | 91 :: r => match skip r with
                   | 93 :: r => Some (JArray [], r)
                   | _ => match json_elements (json_value fuel) (length r) r with Some (l, r) => Some (JArray l, r) | None => None end
                   end
      | 123 :: r => match skip r with
                    | 125 :: r => Some (JObject [], r)
                    | _ => match json_members (json_value fuel) (length r) r with Some (l, r) => Some (JObject l, r) | None => None end
                    end
      | (116 :: 114 :: 117 :: 101 :: r) => Some (JBool true, r)
      | (102 :: 97 :: 108 :: 115 :: 101 :: r) => Some (JBool false, r)
      | (110 :: 117 :: 108 :: 108 :: r) => Some (JNull, r)
      | r => match json_number r with Some (x, r) => Some (JNumber x, r) | None => None end
      end
  end.
(** [JSON.parse]: [None] is its [SyntaxError]. A value nests at most as deep as
    the text is long. *)
Definition json_parse (t : text) : option json :=
  match json_value (S (length t)) t with
  | Some (v, r) => match skip r with [] => Some v | _ => None end
  | None => None
  end.

(** [v.name]: the last of two members of one name; [None] is [undefined]. *)
Definition member (v : json) (name : text) : option json :=
  match v with
  | JObject ms => (list_find (fun m : text * json => m.1 = name) (reverse ms)) ≫= (fun x => Some x.2.2)
  | _ => None
  end.
(** [`${v}`] *)
Fixpoint json_text (v : json) : text :=
  match v with
  | JNull => §"null"
  | JBool b => if b then §"true" else §"false"
  | JNumber x => String_of_num x
  | JString t => t
  | JArray l => join (§",") (map (fun v => match v with JNull => [] | _ => json_text v end) l)
  | JObject _ => §"[object Object]"
  end.
Definition member_text (o : option json) : text := match o with Some v => json_text v | None => §"undefined" end.
