(* ===== verification/Golden.v ===== *)
(** * The golden vector of the ABI drive

    abi-drive/js/golden.ts registers two contracts on a fresh drive and writes
    its bytes to abi-drive/go/testdata/golden-v1.bin, which the other readers
    are tested against. The model, run, gives the bytes of that file. *)

From Stdlib Require Import ZArith Lia.
From S2P Require Import Prelude Bytes Text Store Evm JsText Regex Numbers Json AbiDrive AbiDriveSpec.

(** ** [JSON.stringify], for values whose strings need no escape beyond these *)
Definition quote_char (c : Z) : text :=
  if (c =? 34) || (c =? 92) then [92; c] else [c].
Definition quote (t : text) : text := [34] ++ concat (map quote_char t) ++ [34].
Fixpoint stringify (v : json) : text :=
  match v with
  | JNull => §"null"
  | JBool b => if b then §"true" else §"false"
  | JNumber x => String_of_num x
  | JString t => quote t
  | JArray l => §"[" ++ join (§",") (map stringify l) ++ §"]"
  | JObject ms => §"{" ++ join (§",") (map (fun m => quote m.1 ++ §":" ++ stringify m.2) ms) ++ §"}"
  end.

(** ** The generator *)
Definition abi_function (name mutability : text) (inputs outputs : list (text * text)) : json :=
  let param '(n, ty) := JObject [(§"name", JString n); (§"type", JString ty)] in
  JObject [(§"type", JString (§"function")); (§"name", JString name); (§"stateMutability", JString mutability);
           (§"inputs", JArray (map param inputs)); (§"outputs", JArray (map param outputs))].
Definition golden_system : json := JArray [abi_function (§"withdrawEther") (§"payable") [(§"to", §"address")] []].
Definition golden_app : json :=
  JArray [abi_function (§"increment") (§"nonpayable") [] []; abi_function (§"count") (§"view") [] [([], §"uint256")]].
Definition golden_register (address : string) (kind : Z) (abi : json) : M (AbiDrive MemStore.t) unit :=
  a ← liftO (hexToBytes address); abi_register a kind (stringify abi).
(** The drive [golden.ts] builds; the bytes are its store's. *)
Definition golden : M (AbiDrive MemStore.t) unit :=
  golden_register "0xC751000000000000000000000000000000000001" KIND_SYSTEM golden_system;;
  golden_register "0xC0DE000000000000000000000000000000000001" KIND_APP golden_app.
Definition golden_run : outcome bytes :=
  match abi_format DEVNET_ABI_DRIVE_CONFIG (MemStore.mk (zeros 262144)) with
  | (Val d, s) => match golden (set_store s d) with
                  | (Val _, d) => Val (MemStore.image (ab_store d)) | (Exn e, _) => Exn e | (Diverge, _) => Diverge end
  | (Exn e, _) => Exn e
  | (Diverge, _) => Diverge
  end.

(** ** The file *)
Definition golden_index : string :=
  "6374736961626973010000004000000002000000400000000010000000f00300" +:+
  "5001000000000000000000000000000000000000000000000000000000000000" +:+
  "c7510000000000000000000000000000000000010000001000007f0000000000" +:+
  "c0de00000000000000000000000000000000000101007f100000d10000000000".
(** With single quotes for the double ones. *)
Definition golden_heap : string :=
  "[{'type':'function','name':'withdrawEther','stateMutability':'payable','inputs':[{'name':'to','type':'address'}],'outputs':[]}]" +:+
  "[{'type':'function','name':'increment','stateMutability':'nonpayable','inputs':[],'outputs':[]}," +:+
  "{'type':'function','name':'count','stateMutability':'view','inputs':[],'outputs':[{'name':'','type':'uint256'}]}]".
(** abi-drive/go/testdata/golden-v1.bin: 128 bytes, zeros up to 4096, 336 bytes
    of heap, zeros up to 262144. *)
Definition golden_file : bytes :=
  match hexToBytes golden_index with
  | Val h => patch 4096 (map (fun c => if c =? 39 then 34 else c) (string_bytes golden_heap)) (patch 0 h (zeros 262144))
  | _ => []
  end.

Definition golden_entries : outcome (list AbiEntry) :=
  match abi_open (MemStore.mk golden_file) with (Val d, _) => (abi_entries d).1 | (Exn e, _) => Exn e | (Diverge, _) => Diverge end.

(** The generator's bytes are the file's, and the file opens as the two
    contracts. *)
Lemma golden_check : match golden_run with Val b => bytesEqual b golden_file | _ => false end = true.
Proof. vm_compute. reflexivity. Qed.
Theorem golden_vector : golden_run = Val golden_file
  /\ golden_entries = Val [mkEntry (0xc7 :: 0x51 :: zeros 17 ++ [1]) KIND_SYSTEM (stringify golden_system);
                           mkEntry (0xc0 :: 0xde :: zeros 17 ++ [1]) KIND_APP (stringify golden_app)].
Proof.
  split; [|vm_compute; reflexivity]. pose proof golden_check as Hc. destruct golden_run as [b|e|]; try discriminate Hc.
  f_equal. by apply bytesEqual_eq.
Qed.
