(* ===== verification/Deploy.v ===== *)
(** * Deploying the L1 contracts

    devnet/deploy-l1.ts (the OP Stack suite, through op-deployer),
    devnet/deploy-outputs.ts (the contracts that execute outputs, through
    forge) and devnet/compose/l1-contracts.ts. *)

From Stdlib Require Import ZArith Lia.
From S2P Require Import Prelude Bytes Text JsText Regex Numbers Json Multicall3 Process Env Devnet.

Section Deploy.
Context `{Host} (E : EnvModule).
Let P : Paths := m_paths E.
Let config : Config := m_config E.

(** ** devnet/deploy-l1.ts *)
Definition deployer {A} (k : list text -> Proc A) : Proc A :=
  if negb (which (§"op-deployer")) then die (§"op-deployer is not on PATH — run this step with `docker compose run --rm l1-contracts`")
  else k [§"op-deployer"].

Definition spaces : regex := RStar is_space.
(** A key's assignment of the zero address, at the start of a line; the flag m
    is set. *)
Definition role_re (key : text) : regex :=
  (RGroup 1 (RBol true · spaces · RLit key · spaces · RLit (§"=") · spaces) · RLit [34] · RLit (§"0x") · RRep 40 (fun c => c =? 48) · RLit [34])%re.
(** A key's assignment of the number zero, as a word. *)
Definition zero_re (key : text) : regex :=
  (RGroup 1 (RWordB · RLit key · spaces · RLit (§"=") · spaces) · RLit (§"0") · RWordB)%re.
Definition gasLimit_re : regex :=
  (RGroup 1 (RBol true · spaces · RLit (§"gasLimit") · spaces · RLit (§"=") · spaces) · RPlus is_digit)%re.
Definition intent_roles (a : Addresses) (p : ChainParams) : list (text * text) :=
  [(§"SuperchainProxyAdminOwner", deployerAddress a); (§"SuperchainGuardian", deployerAddress a);
   (§"Challenger", deployerAddress a); (§"l1ProxyAdminOwner", deployerAddress a);
   (§"l2ProxyAdminOwner", deployerAddress a); (§"systemConfigOwner", deployerAddress a);
   (§"challenger", deployerAddress a); (§"unsafeBlockSigner", sequencerAddress a);
   (§"batcher", batcherAddress p); (§"proposer", proposerAddress a);
   (§"baseFeeVaultRecipient", deployerAddress a); (§"l1FeeVaultRecipient", deployerAddress a);
   (§"sequencerFeeVaultRecipient", deployerAddress a); (§"operatorFeeVaultRecipient", deployerAddress a)].
Definition fill_intent (a : Addresses) (p : ChainParams) (intent : text) : text :=
  let out := foldl (fun out '(key, value) => replaceAll (role_re key) 1 (§"$1" ++ [34] ++ value ++ [34]) out) intent (intent_roles a p) in
  let out := replaceAll (zero_re (§"eip1559DenominatorCanyon")) 1 (§"$1" ++ eip1559Denominator p) out in
  let out := replaceAll (zero_re (§"eip1559Denominator")) 1 (§"$1" ++ eip1559Denominator p) out in
  let out := replaceAll (zero_re (§"eip1559Elasticity")) 1 (§"$1" ++ eip1559Elasticity p) out in
  replaceAll gasLimit_re 1 (§"$1" ++ gasLimit p) out.
Definition fillIntent (intent : text) : Proc text := a ← addresses P; p ← chainParams P; mret (fill_intent a p intent).

(** The Ecotone encoding of SystemConfig.scalar: [(base, blob)]. *)
Definition decodeScalar (scalar : Z) : Proc (Z * Z) :=
  let version := Z.shiftr scalar 248 in
  if negb (version =? 1) then die (§"SystemConfig scalar is version " ++ dec version ++ §", not Ecotone (1)")
  else mret (Z.land scalar 0xffffffff, Z.land (Z.shiftr scalar 32) 0xffffffff).

(** [JSON.parse] and a property of its result; a property of [undefined] is a
    [TypeError]. *)
Definition parse_json (t : text) : Proc json :=
  match json_parse t with Some v => mret v | None => throwing (mkErr (§"SyntaxError") (§"JSON Parse error") None) end.
Definition property (o : option json) (name : text) : Proc (option json) :=
  match o with
  | None | Some JNull => throwing (mkErr (§"TypeError") (§"undefined is not an object") None)
  | Some v => mret (member v name)
  end.
Definition inspect (op : list text) (p : ChainParams) (what : text) : Proc json :=
  r ← must (op ++ [§"inspect"; what; §"--workdir"; p_deployWorkdir P; String_of_num (l2ChainId p)]) (mkRunOptions None ∅ true);
  parse_json (out r).

(** The addresses op-deployer reports, by variable. *)
Definition l1_fields : list (text * text) :=
  [(§"DEPOSIT_CONTRACT_ADDRESS", §"OptimismPortalProxy"); (§"L1_SYSTEM_CONFIG_ADDRESS", §"SystemConfigProxy")].
Definition l1_fields2 : list (text * text) :=
  [(§"DISPUTE_GAME_FACTORY_ADDRESS", §"DisputeGameFactoryProxy"); (§"L1_STANDARD_BRIDGE_ADDRESS", §"L1StandardBridgeProxy");
   (§"L1_CROSS_DOMAIN_MESSENGER_ADDRESS", §"L1CrossDomainMessengerProxy"); (§"ANCHOR_STATE_REGISTRY_ADDRESS", §"AnchorStateRegistryProxy")].
Definition assignment (k v : text) : text := k ++ §"=" ++ v.
Definition field_line (l1Out : json) (f : text * text) : Proc text :=
  v ← property (Some l1Out) f.2; mret (assignment f.1 (member_text v)).
Fixpoint field_lines (l1Out : json) (fs : list (text * text)) : Proc (list text) :=
  match fs with [] => mret [] | f :: fs => l ← field_line l1Out f; ls ← field_lines l1Out fs; mret (l :: ls) end.
Definition address_lines (l1Out rollupOut : json) : Proc (list text) :=
  first ← field_lines l1Out l1_fields;
  inbox ← property (Some rollupOut) (§"batch_inbox_address");
  second ← field_lines l1Out l1_fields2;
  genesis ← property (Some rollupOut) (§"genesis");
  l1 ← property genesis (§"l1");
  hash ← property l1 (§"hash");
  number ← property l1 (§"number");
  mret ([§"# Written by devnet/deploy-l1.ts. Read back by devnet/lib/env.ts.";
         §"# Addresses of the OP Stack contracts deployed on the devnet L1."]
        ++ first ++ [assignment (§"BATCH_INBOX_ADDRESS") (member_text inbox)] ++ second
        ++ [§"# The rollup starts after the block the contracts landed in, not";
            §"# at L1 genesis: before this block there is no SystemConfig to read.";
            assignment L1_GENESIS_HASH (member_text hash); assignment L1_GENESIS_NUMBER (member_text number)]).

(** Up to the deployed contracts. *)
Definition apply_intent (op : list text) (p : ChainParams) (a : Addresses) : Proc unit :=
  _ ← rmSync (p_deployWorkdir P);
  _ ← mkdirSync (p_deployWorkdir P);
  _ ← say (§"generating an op-deployer intent for L1 " ++ String_of_num (l1ChainId p) ++ §" / L2 " ++ String_of_num (l2ChainId p));
  _ ← must (op ++ [§"init"; §"--intent-type"; §"custom"; §"--l1-chain-id"; String_of_num (l1ChainId p); §"--l2-chain-ids";
                   String_of_num (l2ChainId p); §"--workdir"; p_deployWorkdir P]) (mkRunOptions None ∅ true);
  let intentPath := path_join (p_deployWorkdir P) (§"intent.toml") in
  template ← readFileSync intentPath;
  intent ← fillIntent template;
  _ ← writeFileSync intentPath intent;
  _ ← say (§"deploying the L1 contract suite (this takes a minute)");
  applied ← run (op ++ [§"apply"; §"--workdir"; p_deployWorkdir P; §"--l1-rpc-url"; c_l1Rpc config; §"--private-key"; deployerKey a])
              (mkRunOptions None ∅ false);
  if negb (code applied =? 0) then die (§"op-deployer apply exited " ++ dec (code applied)) else mret tt.
(** The lines of l1-addresses.env. *)
Definition deployed_lines (op : list text) (p : ChainParams) : Proc (list text) :=
  l1Out ← inspect op p (§"l1");
  rollupOut ← inspect op p (§"rollup");
  lines ← address_lines l1Out rollupOut;
  systemConfig ← property (Some l1Out) (§"SystemConfigProxy");
  scalar ← l1Public E (ReadContract (member_text systemConfig) (§"scalar") []);
  d ← decodeScalar scalar;
  _ ← say (§"SystemConfig scalars: base=" ++ dec d.1 ++ §" blob=" ++ dec d.2);
  mret (lines ++ [assignment (§"BASE_FEE_SCALAR") (dec d.1); assignment (§"BLOB_BASE_FEE_SCALAR") (dec d.2)]).
(** Everything before the addresses are written. *)
Definition deploy_suite : Proc (list text) :=
  p ← chainParams P;
  a ← addresses P;
  _ ← attempt (_ ← l1Public E GetChainId; mret tt) (fun _ => die (§"no L1 at " ++ c_l1Rpc config ++ §" — start one first"));
  _ ← say (§"placing Multicall3 at " ++ MULTICALL3_ADDRESS);
  _ ← l1Public E (RpcRequest (§"anvil_setCode") [AStr MULTICALL3_ADDRESS; AStr MULTICALL3_CODE]);
  deployer (fun op => _ ← apply_intent op p a; deployed_lines op p).
Definition deployL1 : Proc unit :=
  _ ← forget (p_l1Addresses P);
  lines ← deploy_suite;
  _ ← writeFileSync (p_l1Addresses P) (join [NL] lines ++ [NL]);
  _ ← console_log (§"L1 contracts deployed. Addresses in " ++ p_l1Addresses P ++ §":");
  each (fun line => if startsWith (§"#") line then mret tt else console_log (§"  " ++ line)) lines.

(** devnet/compose/l1-contracts.ts *)
Definition l1_contracts : Proc unit :=
  recorded ← readEnvFile (p_l1Addresses P);
  still ← deploymentStillOnL1 E recorded;
  if (still : bool) then
    alreadyDone (§"the L1 suite is already deployed (OptimismPortal " ++ default (§"undefined") (recorded !! (§"DEPOSIT_CONTRACT_ADDRESS"))
      ++ §", anchored at block " ++ default (§"undefined") (recorded !! L1_GENESIS_NUMBER) ++ §")")
  else deployL1.

(** ** devnet/deploy-outputs.ts *)

(** What the module reads of the environment when it is imported. *)
Record OutputsModule : Type := mkOutputsModule {
  maturityDelay : text; requireResolved : text; executorFunding : Z; registerGasLimit : Z }.
Definition import_outputs : Proc OutputsModule :=
  w ← reading id;
  funding ← bigint_of (env_or w (§"EXECUTOR_FUNDING") (§"10000000000000000000"));
  gas ← bigint_of (env_or w (§"REGISTER_GAS_LIMIT") (§"100000"));
  mret (mkOutputsModule (env_or w (§"OUTPUT_MATURITY_DELAY") (§"0")) (env_or w (§"OUTPUT_REQUIRE_RESOLVED") (§"false")) funding gas).

(** [/(OUTPUTS_VALIDATOR|OUTPUT_EXECUTOR)_ADDRESS=(0x[0-9a-fA-F]{40})/g] *)
Definition found_re : regex :=
  (RGroup 1 (RAlt (RLit (§"OUTPUTS_VALIDATOR")) (RLit (§"OUTPUT_EXECUTOR"))) · RLit (§"_ADDRESS=") · RGroup 2 (RLit (§"0x") · RRep 40 is_hex))%re.
Definition found_addresses (stdout : text) : list (text * text) :=
  map (fun m : pos * pos * caps => (default [] (m.2 !! 1%nat), default [] (m.2 !! 2%nat))) (re_matchAll found_re stdout).
(** The [Map] of the pairs: the last address of a name, names in the order they
    first appeared. *)
Definition last_of (name : text) (found : list (text * text)) : option text :=
  (list_find (fun m : text * text => m.1 = name) (reverse found)) ≫= (fun x => Some x.2.2).
Definition names_of (found : list (text * text)) : list text :=
  foldl (fun ns m => if bool_decide (m.1 ∈ ns) then ns else ns ++ [m.1]) [] found.

Definition outputs_command (a : Addresses) : list text :=
  [§"forge"; §"script"; §"script/DeployOutputs.s.sol:DeployOutputs"; §"--rpc-url"; c_l1Rpc config;
   §"--private-key"; deployerKey a; §"--broadcast"].
Definition outputs_env (O : OutputsModule) (factory optimismPortal : text) (a : Addresses) : vars :=
  <[§"DISPUTE_GAME_FACTORY_ADDRESS" := factory]> (<[§"DEPOSIT_CONTRACT_ADDRESS" := optimismPortal]>
  (<[§"DISPUTE_GAME_TYPE" := disputeGameType a]> (<[§"OUTPUT_MATURITY_DELAY" := maturityDelay O]>
  (<[§"OUTPUT_REQUIRE_RESOLVED" := requireResolved O]> ∅)))).
Definition outputs_lines (found : list (text * text)) : list text :=
  [§"# Written by devnet/deploy-outputs.ts. Read back by devnet/lib/env.ts."]
  ++ map (fun m : text * text => assignment (m.1 ++ §"_ADDRESS") m.2) found ++ [[]].

(** Telling the guest which contracts to trust: an owner call, carried by a
    deposit. *)
Definition register_messenger (O : OutputsModule) (wallet optimismPortal : text) (a : Addresses) : Proc unit :=
  signer ← asKey (deployerKey a);
  if negb (text_eq (toLowerCase (accountOf signer)) (toLowerCase (guestOwner a))) then
    die (§"the deploy key is not the guest's owner (" ++ guestOwner a ++ §"); the guest will ignore this registration")
  else
    match l1CrossDomainMessenger a, l1StandardBridge a with
    | Some ((_ :: _) as messenger), Some ((_ :: _) as bridge) =>
        data ← settle (encodeFunctionData (§"registerMessenger") [AStr messenger; AStr bridge]);
        hash ← l1Send E wallet (WriteContract optimismPortal (§"depositTransaction")
          [AStr (guestConfigAddress a); ANum 0; ANum (registerGasLimit O); ABool false; AStr data]);
        _ ← l1Public E (WaitForReceipt hash None); mret tt
    | _, _ => die (§"deploy-l1.ts did not record the messenger/bridge addresses; rerun it")
    end.
Definition deployOutputs (O : OutputsModule) : Proc unit :=
  a ← addresses P;
  p ← chainParams P;
  let optimismPortal := depositContractAddress p in
  match disputeGameFactory a with
  | Some ((_ :: _) as factory) =>
      if negb (which (§"forge")) then die (§"forge is not on PATH; install foundry (https://getfoundry.sh)")
      else
        let contracts := path_join (p_repo P) (§"contracts") in
        there ← existsSync (path_join contracts (§"dependencies"));
        _ ← (if (there : bool) then mret tt else _ ← must [§"forge"; §"soldeer"; §"install"] (run_in contracts); mret tt);
        r ← run (outputs_command a) (mkRunOptions (Some contracts) (outputs_env O factory optimismPortal a) true);
        _ ← console_log (out r);
        let found := found_addresses (out r) in
        match last_of (§"OUTPUT_EXECUTOR") found with
        | Some ((_ :: _) as executor) =>
            _ ← writeFileSync (p_outputsAddresses P) (join [NL] (outputs_lines found));
            wallet ← l1Wallet (deployerKey a);
            funding ← l1Send E wallet (SendTransaction executor None (Some (executorFunding O)));
            _ ← l1Public E (WaitForReceipt funding None);
            _ ← register_messenger O wallet optimismPortal a;
            _ ← say (§"wrote " ++ p_outputsAddresses P);
            _ ← each (fun name => console_log (§"  " ++ name ++ §"_ADDRESS=" ++ default [] (last_of name found))) (names_of found);
            console_log (§"  registered the standard messenger with the guest")
        | _ => die (§"the deploy script did not report the addresses; see its output above")
        end
  | _ => die (§"no DisputeGameFactory; bring the devnet up first (`docker compose up`)")
  end.
Definition deploy_outputs : Proc unit := O ← import_outputs; deployOutputs O.
End Deploy.
