(* ===== verification/DeploySpec.v ===== *)
(** * What a deployment leaves behind

    The record of a deployment that failed is absent, never stale; the record
    of one that succeeded has exactly the lines made of what op-deployer reported
    and what L1 answered, and reads back. *)

From Stdlib Require Import ZArith Lia.
From S2P Require Import Prelude Bytes Text JsText Regex Numbers Json Multicall3 Process Env EnvSpec Devnet DevnetSpec Deploy.

(** ** A file that stays absent *)
Section Absent.
Context `{Host} (path : text).

Definition absent {A} (m : Proc A) : Prop := forall w, fs w !! path = None -> fs (m w).2 !! path = None.
(** No child process writes the file. *)
Definition children_spare : Prop := forall h cmd cwd env f r out err f',
  child h cmd cwd env f = inr (r, out, err, f') -> f !! path = None -> f' !! path = None.

Lemma absent_keeps {A} (m : Proc A) : keeps m -> absent m.
Proof. intros Hk w Hw. by rewrite (proj1 (Hk w)). Qed.
Lemma absent_bind {A B} (m : Proc A) (f : A -> Proc B) : absent m -> (forall a, absent (f a)) -> absent (m ≫= f).
Proof.
  unfold absent, mbind, Proc_bind. intros Hm Hf w Hw. specialize (Hm w Hw). destruct (m w) as [[a|e|c|] w']; simpl in *; auto.
Qed.
Lemma absent_write other t : other <> path -> absent (writeFileSync other t).
Proof.
  intros Ho w Hw. destruct (writeFileSync_spec other t w) as [[-> _]|(e & w' & -> & _ & _ & Hf)]; simpl.
  - by rewrite lookup_insert_ne.
  - by rewrite Hf.
Qed.
Lemma absent_rm dir : absent (rmSync dir).
Proof. intros w Hw. simpl. rewrite map_lookup_filter, Hw. done. Qed.
Lemma absent_mkdir dir : dir <> path -> absent (mkdirSync dir).
Proof.
  intros Hd w Hw. unfold mkdirSync. destruct (fs w !! dir) as [[t'|]|]; simpl; rewrite ?lookup_insert_ne by done; done.
Qed.
Lemma absent_run cmd o : children_spare -> absent (run cmd o).
Proof.
  intros Hc w Hw. unfold run. destruct (child _ _ _ _ _) as [e|[[[r out] err] f']] eqn:He; simpl; [done|by eapply Hc].
Qed.
Lemma absent_must cmd o : children_spare -> absent (must cmd o).
Proof.
  intros Hc. apply absent_bind; [by apply absent_run|]. intros r. destruct (negb _); apply absent_keeps; [apply keeps_die|apply quiet_keeps, quiet_ret].
Qed.
End Absent.
#[export] Hint Resolve absent_rm absent_run absent_must : proc.
Ltac absent_step :=
  cbv zeta;
  match goal with
  | |- absent _ (mbind _ _) => apply absent_bind; [|intros ?]
  | |- absent _ (if ?b then _ else _) => destruct b
  | |- absent _ _ => first [solve [auto 2 with proc nocore]|apply absent_write; assumption|apply absent_mkdir; assumption
                           |apply absent_keeps; solve [keeps_tac]]
  end.
Ltac absent_tac := repeat absent_step.

(** ** devnet/deploy-l1.ts *)
Opaque js.
Section DeployL1.
Context `{Host} (E : EnvModule).
Let P : Paths := m_paths E.
Let path : text := p_l1Addresses P.
Context (Hspare : children_spare path) (Hdir : p_deployWorkdir P <> path)
  (Hintent : path_join (p_deployWorkdir P) (§"intent.toml") <> path).

Lemma quiet_opt files name : quiet (opt files name).
Proof. done. Qed.
#[local] Hint Resolve quiet_opt quiet_bigint_of : proc.
Lemma quiet_addresses Q : quiet (addresses Q).
Proof. unfold addresses. quiet_tac. Qed.
#[local] Hint Resolve quiet_addresses : proc.
Lemma quiet_property o name : quiet (property o name).
Proof. unfold property. quiet_tac. Qed.
#[local] Hint Resolve quiet_property : proc.
Lemma quiet_field_lines j l : quiet (field_lines j l).
Proof. induction l as [|f l IH]; simpl; [auto with proc|]. unfold field_line. quiet_tac; try exact IH. Qed.
#[local] Hint Resolve quiet_field_lines : proc.
Lemma quiet_address_lines a b : quiet (address_lines a b).
Proof. unfold address_lines. quiet_tac. Qed.
Lemma quiet_parse_json t : quiet (parse_json t).
Proof. unfold parse_json. quiet_tac. Qed.
Lemma keeps_decodeScalar s : keeps (decodeScalar s).
Proof. unfold decodeScalar. keeps_tac. Qed.
Lemma quiet_fillIntent t : quiet (fillIntent E t).
Proof. unfold fillIntent. quiet_tac. Qed.
#[local] Hint Resolve quiet_address_lines quiet_parse_json keeps_decodeScalar quiet_fillIntent : proc.

Lemma absent_deploy_suite : absent path (deploy_suite E).
Proof.
  unfold deploy_suite, deployer, apply_intent, deployed_lines, inspect, l1Public. fold P.
  absent_tac.
Qed.

(** The Ecotone scalar: a version byte, and two 32-bit fields at the end. *)
Lemma decodeScalar_spec s w r w' : decodeScalar s w = (r, w') ->
  (s / 2 ^ 248 = 1 /\ r = Done (s mod 2 ^ 32, (s / 2 ^ 32) mod 2 ^ 32) /\ w' = w) \/ (s / 2 ^ 248 <> 1 /\ r = Exited 1).
Proof.
  unfold decodeScalar. rewrite !Z.shiftr_div_pow2 by lia. change 0xffffffff with (Z.ones 32). rewrite !Z.land_ones by lia.
  destruct (Z.eqb_spec (s / 2 ^ 248) 1) as [He|He]; simpl; intros Hw; injection Hw as <- <-; [by left|by right].
Qed.

(** The record of a deployment: the addresses op-deployer reports, the block
    it says the contracts landed in, and the fee scalars, by variable. *)
Definition field (v : json) (name : text) : text := member_text (member v name).
Definition genesis_l1 (rollup : json) (name : text) : text :=
  member_text (g ← member rollup (§"genesis"); l ← member g (§"l1"); member l name).
Definition address_fields (l1 rollup : json) : list (text * text) :=
  [(§"DEPOSIT_CONTRACT_ADDRESS", field l1 (§"OptimismPortalProxy")); (§"L1_SYSTEM_CONFIG_ADDRESS", field l1 (§"SystemConfigProxy"));
   (§"BATCH_INBOX_ADDRESS", field rollup (§"batch_inbox_address"));
   (§"DISPUTE_GAME_FACTORY_ADDRESS", field l1 (§"DisputeGameFactoryProxy")); (§"L1_STANDARD_BRIDGE_ADDRESS", field l1 (§"L1StandardBridgeProxy"));
   (§"L1_CROSS_DOMAIN_MESSENGER_ADDRESS", field l1 (§"L1CrossDomainMessengerProxy"));
   (§"ANCHOR_STATE_REGISTRY_ADDRESS", field l1 (§"AnchorStateRegistryProxy"))].
Definition anchor_fields (rollup : json) (base blob : Z) : list (text * text) :=
  [(L1_GENESIS_HASH, genesis_l1 rollup (§"hash")); (L1_GENESIS_NUMBER, genesis_l1 rollup (§"number"));
   (§"BASE_FEE_SCALAR", dec base); (§"BLOB_BASE_FEE_SCALAR", dec blob)].
Definition record_fields (l1 rollup : json) (base blob : Z) : list (text * text) :=
  address_fields l1 rollup ++ anchor_fields rollup base blob.
Definition record_lines (l1 rollup : json) (base blob : Z) : list text :=
  [§"# Written by devnet/deploy-l1.ts. Read back by devnet/lib/env.ts.";
   §"# Addresses of the OP Stack contracts deployed on the devnet L1."]
  ++ ((fun f => assignment f.1 f.2) <$> address_fields l1 rollup)
  ++ [§"# The rollup starts after the block the contracts landed in, not";
      §"# at L1 genesis: before this block there is no SystemConfig to read."]
  ++ ((fun f => assignment f.1 f.2) <$> anchor_fields rollup base blob).

(** The end of a deployment that succeeded, from the configuration of [w0],
    with nothing between: op-deployer applies the intent, reports on it twice, and L1 gives the scalar of the
    SystemConfig reported; each answered after exactly what came before. *)
Definition apply_command (a : Addresses) : list text :=
  [§"op-deployer"; §"apply"; §"--workdir"; p_deployWorkdir P; §"--l1-rpc-url"; c_l1Rpc (m_config E); §"--private-key"; deployerKey a].
Definition inspect_command (p : ChainParams) (what : text) : list text :=
  [§"op-deployer"; §"inspect"; what; §"--workdir"; p_deployWorkdir P; String_of_num (l2ChainId p)].
Definition deployment (w0 : World) (h : list Event) (l1 rollup : json) (scalar : Z) : Prop :=
  exists p a env h0 f0 out1 err1 f1 l1t err2 f2 rt err3 f3,
  let applied := Spawned (apply_command a) None env in
  let inspected what := Spawned (inspect_command p what) None env in
  let asked := ReadContract (field l1 (§"SystemConfigProxy")) (§"scalar") [] in
  chainParams P w0 = (Done p, w0) /\ addresses P w0 = (Done a, w0)
  /\ child h0 (apply_command a) None env f0 = inr (0, out1, err1, f1)
  /\ child (h0 ++ [applied]) (inspect_command p (§"l1")) None env f1 = inr (0, l1t, err2, f2) /\ json_parse l1t = Some l1
  /\ child (h0 ++ [applied; inspected (§"l1")]) (inspect_command p (§"rollup")) None env f2 = inr (0, rt, err3, f3)
  /\ json_parse rt = Some rollup
  /\ answer (h0 ++ [applied; inspected (§"l1"); inspected (§"rollup")]) (c_l1Rpc (m_config E)) None asked = inr scalar
  /\ scalar / 2 ^ 248 = 1
  /\ h = h0 ++ [applied; inspected (§"l1"); inspected (§"rollup"); Asked (c_l1Rpc (m_config E)) None asked].

Lemma property_done o name w x w' : property o name w = (Done x, w') -> w' = w /\ exists v, o = Some v /\ x = member v name.
Proof. unfold property. destruct o as [[]|]; try discriminate; intros [= <- <-]; (split; [done|by eexists]). Qed.
Lemma field_lines_done l1 l w ls w' : field_lines l1 l w = (Done ls, w') ->
  w' = w /\ ls = (fun f => assignment f.1 (field l1 f.2)) <$> l.
Proof.
  revert ls w w'. induction l as [|f l IH]; intros ls w w'; cbn [field_lines]; [by intros [= <- <-]|].
  intros (x & w1 & (v & w2 & (-> & l1' & [= <-] & ->)%property_done & Hx)%pbind_done_inv & Hw)%pbind_done_inv.
  injection Hx as <- <-. apply pbind_done_inv in Hw as (xs & w1 & (-> & ->)%IH & Hw). by injection Hw as <- <-.
Qed.
Lemma address_lines_done l1 rollup w ls w' base blob : address_lines l1 rollup w = (Done ls, w') -> w' = w
  /\ ls ++ [assignment (§"BASE_FEE_SCALAR") (dec base); assignment (§"BLOB_BASE_FEE_SCALAR") (dec blob)] = record_lines l1 rollup base blob.
Proof.
  unfold address_lines. intros (x1 & w1 & [-> ->]%field_lines_done & Hw)%pbind_done_inv.
  apply pbind_done_inv in Hw as (inbox & w1 & (-> & ? & [= <-] & ->)%property_done & Hw).
  apply pbind_done_inv in Hw as (x2 & w1 & [-> ->]%field_lines_done & Hw).
  apply pbind_done_inv in Hw as (g & w1 & (-> & ? & [= <-] & ->)%property_done & Hw).
  apply pbind_done_inv in Hw as (l & w1 & (-> & g & Hg & ->)%property_done & Hw).
  apply pbind_done_inv in Hw as (hash & w1 & (-> & l & Hl & ->)%property_done & Hw).
  apply pbind_done_inv in Hw as (num & w1 & (-> & l' & Hl' & ->)%property_done & Hw).
  injection Hw as <- <-. split; [done|]. unfold record_lines, anchor_fields, genesis_l1.
  rewrite Hg. cbn [mbind option_bind]. rewrite Hl. rewrite Hl in Hl'. injection Hl' as <-. cbn [mbind option_bind]. reflexivity.
Qed.
Lemma inspect_done p what w j w' : inspect E [§"op-deployer"] p what w = (Done j, w') -> exists t err f',
  child (history w) (inspect_command p what) None (∅ ∪ environ w) (fs w) = inr (0, t, err, f') /\ json_parse t = Some j
  /\ fs w' = f' /\ environ w' = environ w /\ history w' = history w ++ [Spawned (inspect_command p what) None (∅ ∪ environ w)].
Proof.
  unfold inspect. intros (r & w1 & Hm & Hw)%pbind_done_inv. unfold must in Hm. apply pbind_done_inv in Hm as (x & w2 & Hr & Hm).
  unfold run in Hr. cbn [o_cwd o_env o_capture] in Hr. fold (inspect_command p what) in Hr.
  change ([§"op-deployer"] ++ [§"inspect"; what; §"--workdir"; p_deployWorkdir (m_paths E); String_of_num (l2ChainId p)])
    with (inspect_command p what) in Hr.
  destruct (child _ _ _ _ _) as [e|[[[c out] err] f']] eqn:Hc; [done|]. injection Hr as <- <-. cbn [code] in Hm.
  destruct (Z.eqb_spec c 0) as [->|]; [|done]. cbn [negb] in Hm. injection Hm as <- <-. cbn [Process.out] in Hw.
  unfold parse_json in Hw. destruct (json_parse out) as [v|] eqn:Hp; [|done]. injection Hw as <- <-.
  exists out, err, f'. by split_and!.
Qed.

Lemma deploy_suite_done w lines w' : deploy_suite E w = (Done lines, w') -> exists l1 rollup scalar,
  deployment w (history w') l1 rollup scalar /\ lines = record_lines l1 rollup (scalar mod 2 ^ 32) ((scalar / 2 ^ 32) mod 2 ^ 32).
Proof.
  unfold deploy_suite. fold P. intros (p & w1 & Hp & Hw)%pbind_done_inv. pose proof (chainParams_done _ _ _ _ Hp) as [-> _].
  apply pbind_done_inv in Hw as (a & w1 & Ha0 & Hw). pose proof (quiet_done _ _ _ _ (quiet_addresses P) Ha0) as ->.
  do 3 apply pbind_done_inv in Hw as (? & ? & _ & Hw).
  unfold deployer in Hw. destruct (negb _); [discriminate|]. apply pbind_done_inv in Hw as (? & w3 & Happ & Hw).
  unfold apply_intent in Happ. do 8 apply pbind_done_inv in Happ as (? & ? & _ & Happ).
  apply pbind_done_inv in Happ as (r & w4 & Hr & Happ). unfold run in Hr. cbn [o_cwd o_env o_capture] in Hr.
  match type of Hr with context [child (history ?x) _ _ _ _] => set (w0 := x) in * end.
  change (child (history w0) _ None (∅ ∪ environ w0) (fs w0)) with (child (history w0) (apply_command a) None (∅ ∪ environ w0) (fs w0)) in Hr.
  destruct (child _ _ _ _ _) as [e|[[[c out1] err1] f1]] eqn:Hc1; [done|]. injection Hr as <- <-. cbn [code] in Happ.
  destruct (Z.eqb_spec c 0) as [->|]; [|done]. injection Happ as _ <-.
  unfold deployed_lines in Hw. apply pbind_done_inv in Hw as (l1 & w5 & (l1t & err2 & f2 & Hc2 & Hj1 & Hf2 & He2 & Hh2)%inspect_done & Hw).
  apply pbind_done_inv in Hw as (rollup & w6 & (rt & err3 & f3 & Hc3 & Hj2 & Hf3 & He3 & Hh3)%inspect_done & Hw).
  apply pbind_done_inv in Hw as (ls & w7 & Hls & Hw).
  apply pbind_done_inv in Hw as (sc & w8 & (-> & ? & [= <-] & ->)%property_done & Hw).
  apply pbind_done_inv in Hw as (scalar & wa & Ha & Hw). apply pbind_done_inv in Hw as (d & wb & Hd & Hw).
  apply pbind_done_inv in Hw as (? & wc & Hsay & Hw). injection Hsay as _ <-. injection Hw as <- <-.
  apply ask_cases in Ha as [-> [(sv & Ha & [= ->])|(e & _ & [=])]].
  apply decodeScalar_spec in Hd as [(Hv & [= ->] & ->)|[_ [=]]].
  exists l1, rollup, sv. destruct (address_lines_done _ _ _ _ _ (sv mod 2 ^ 32) ((sv / 2 ^ 32) mod 2 ^ 32) Hls) as [-> Hlines].
  split; [|exact Hlines].
  cbn [history environ fs remember] in *. rewrite Hh2 in Hc3, Hh3. rewrite He2 in Hc3, Hh3. rewrite Hf2 in Hc3.
  rewrite Hh3 in Ha |- *. cbn [history environ fs remember] in *. rewrite <- !app_assoc in *. cbn [app] in *.
  exists p, a, (∅ ∪ environ w0), (history w0), (fs w0), out1, err1, f1, l1t, err2, f2, rt, err3, f3.
  split_and!; try done.
Qed.

Lemma log_lines_done lines w : exists w', each (fun line => if startsWith (§"#") line then mret tt else console_log (§"  " ++ line)) lines w = (Done tt, w')
  /\ fs w' = fs w /\ history w' = history w.
Proof.
  revert w. induction lines as [|l lines IH]; intros w; simpl; [by eexists|]. unfold mbind, Proc_bind.
  destruct (startsWith _ l); simpl; [apply IH|]. match goal with |- context [each _ lines ?x] => destruct (IH x) as (w' & Hw & Hf & Hh) end.
  by exists w'.
Qed.

(** The record after a run of the deployment, on every outcome: none; or the
    deployment went through and the record is whole; or it went through and the
    system cut the writing of the record short. *)
Definition no_record (w : World) : World := set_fs (match fs w !! path with Some (File _) => delete path (fs w) | _ => fs w end) w.
Lemma deployL1_record w r w' : fs w !! path <> Some Dir -> deployL1 E w = (r, w') ->
  (r <> Done tt /\ fs w' !! path = None)
  \/ exists l1 rollup scalar f,
       let t := join [NL] (record_lines l1 rollup (scalar mod 2 ^ 32) ((scalar / 2 ^ 32) mod 2 ^ 32)) ++ [NL] in
       deployment (no_record w) (history w') l1 rollup scalar
       /\ ((r = Done tt /\ fs w' !! path = Some (File t))
           \/ exists e part, r = Thrown e /\ write_fault (history w') f path t = Some (e, Some part) /\ fs w' !! path = Some (File part)).
Proof.
  intros Hd Hw. unfold deployL1 in Hw. fold P in Hw. fold path in Hw. erewrite pbind_done in Hw by apply forget_spec.
  fold (no_record w) in Hw. assert (H0 : fs (no_record w) !! path = None).
  { unfold no_record. cbn [fs set_fs]. destruct (fs w !! path) as [[t|]|] eqn:He; [apply lookup_delete_eq|done|done]. }
  pose proof (absent_deploy_suite (no_record w) H0) as Ha. unfold mbind in Hw at 1. unfold Proc_bind in Hw at 1.
  destruct (deploy_suite E (no_record w)) as [[lines|e|c|] w1] eqn:Hs; cbn [snd] in Ha; cbv beta iota in Hw;
    try (left; injection Hw as <- <-; by split).
  apply deploy_suite_done in Hs as (l1 & rollup & scalar & Hdep & ->).
  assert (Hlog : forall w2, (_ ← console_log (§"L1 contracts deployed. Addresses in " ++ path ++ §":");
      each (fun line => if startsWith (§"#") line then mret tt else console_log (§"  " ++ line))
        (record_lines l1 rollup (scalar mod 2 ^ 32) ((scalar / 2 ^ 32) mod 2 ^ 32))) w2 = (r, w') ->
    r = Done tt /\ fs w' = fs w2 /\ history w' = history w2).
  { intros w2 Hl. erewrite pbind_done in Hl by reflexivity.
    match type of Hl with each _ _ ?x = _ => destruct (log_lines_done (record_lines l1 rollup (scalar mod 2 ^ 32) ((scalar / 2 ^ 32) mod 2 ^ 32)) x) as (w3 & Hl' & Hf & Hh) end.
    rewrite Hl' in Hl. injection Hl as <- <-. split; [reflexivity|]. split; [exact Hf|exact Hh]. }
  unfold mbind in Hw at 1. unfold Proc_bind in Hw at 1. unfold writeFileSync in Hw. rewrite Ha in Hw.
  destruct (write_fault _ _ _ _) as [[e [part|]]|] eqn:Hfault; cbv beta iota in Hw.
  - right. injection Hw as <- <-. exists l1, rollup, scalar, (fs w1). cbv zeta. split; [exact Hdep|]. right. exists e, part. split; [reflexivity|]. split; [exact Hfault|apply lookup_insert_eq].
  - left. injection Hw as <- <-. split; [discriminate|exact Ha].
  - right. apply Hlog in Hw as (-> & Hf & Hh). exists l1, rollup, scalar, (fs w1). cbv zeta.
    split; [rewrite Hh; exact Hdep|]. left. split; [reflexivity|]. rewrite Hf. apply lookup_insert_eq.
Qed.
End DeployL1.

Transparent js.
(** The record reads back. The scalars do whatever op-deployer reported: they
    are the last lines, and digits. *)
Lemma assignment_pair m k v : name_ok k = true -> plain v -> assign m (assignment k v) = <[k := v]> m.
Proof. apply assign_pair. Qed.

Lemma record_scalars l1 rollup base blob : 0 <= base -> 0 <= blob ->
  let m := env_vars (join [NL] (record_lines l1 rollup base blob) ++ [NL]) in
  m !! (§"BASE_FEE_SCALAR") = Some (dec base) /\ m !! (§"BLOB_BASE_FEE_SCALAR") = Some (dec blob).
Proof.
  intros Hb Hc m. assert (Hdb : plain (dec base)) by auto using plain_digits, dec_digits.
  assert (Hdc : plain (dec blob)) by auto using plain_digits, dec_digits.
  set (tail := [assignment (§"BASE_FEE_SCALAR") (dec base); assignment (§"BLOB_BASE_FEE_SCALAR") (dec blob); []]).
  assert (Hm : exists pre, m = foldl assign (env_vars pre) tail).
  { assert (Hl : exists pre, pre <> [] /\ record_lines l1 rollup base blob = pre ++ take 2 tail).
    { exists (take 13 (record_lines l1 rollup base blob)). split; [done|].
      change (take 2 tail) with (drop 13 (record_lines l1 rollup base blob)). by rewrite take_drop. }
    destruct Hl as (pre & Hn & Hl). exists (join [NL] pre). subst m. rewrite Hl, join_app, <- app_assoc by done.
    cbn [app]. rewrite join_snoc by done. unfold env_vars. rewrite split_on_concat, foldl_app. f_equal.
    rewrite split_join; [done..|]. cbn [take tail app].
    repeat (apply Forall_cons; split; [by apply pair_one_line|]). by repeat constructor. }
  destruct Hm as [pre ->]. subst tail. cbn [foldl]. rewrite assign_empty, !assignment_pair by done.
  split; [rewrite lookup_insert_ne by done|]; apply lookup_insert_eq.
Qed.

(** So does every variable of one whose values are words. *)
Definition readable (f : text * text) : Prop := name_ok f.1 = true /\ plain f.2.
Lemma assign_others fs m k : k ∉ fs.*1 -> Forall readable fs ->
  foldl assign m ((fun f => assignment f.1 f.2) <$> fs) !! k = m !! k.
Proof.
  revert m. induction fs as [|[x y] fs IH]; intros m Hk Hl; [done|]. apply Forall_cons in Hl as [[Hx Hy] Hl].
  apply not_elem_of_cons in Hk as [Hne Hk]. cbn [fmap list_fmap foldl fst snd] in *. rewrite assignment_pair, IH by done.
  by rewrite lookup_insert_ne.
Qed.
Lemma assignments_read fs m k v : Forall readable fs -> NoDup fs.*1 -> (k, v) ∈ fs ->
  foldl assign m ((fun f => assignment f.1 f.2) <$> fs) !! k = Some v.
Proof.
  intros Hf. revert m. induction Hf as [|[x y] fs [Hx Hy] Hf IH]; intros m Hn Hin; [by apply elem_of_nil in Hin|].
  cbn [fmap list_fmap foldl fst snd] in *. apply NoDup_cons in Hn as [Hnot Hn]. rewrite assignment_pair by done.
  apply elem_of_cons in Hin as [[= -> ->]|Hin]; [|by apply IH]. rewrite assign_others by done. apply lookup_insert_eq.
Qed.
Lemma record_reads l1 rollup base blob : Forall (fun f => plain f.2) (record_fields l1 rollup base blob) ->
  forall k v, (k, v) ∈ record_fields l1 rollup base blob ->
  env_vars (join [NL] (record_lines l1 rollup base blob) ++ [NL]) !! k = Some v.
Proof.
  intros Hp k v Hin.
  assert (Hr : Forall readable (record_fields l1 rollup base blob)).
  { assert (Hn : Forall (fun f => name_ok f.1 = true) (record_fields l1 rollup base blob)).
    { unfold record_fields, address_fields, anchor_fields. by repeat constructor. }
    rewrite Forall_forall in Hp, Hn |- *. intros f Hf. split; auto. }
  assert (Hl : forall fs, Forall readable fs -> Forall (Forall (fun c => c <> NL)) ((fun f => assignment f.1 f.2) <$> fs)).
  { intros fs Hf. apply Forall_fmap. eapply Forall_impl; [exact Hf|]. intros [x y] [Hx Hy]. by apply pair_one_line. }
  pose proof Hr as [Ha Hb]%Forall_app. rewrite join_snoc by done. rewrite env_vars_lines; [|by destruct (record_lines l1 rollup base blob)|].
  2: { apply Forall_app. split; [|by repeat constructor]. unfold record_lines. rewrite !Forall_app.
       split_and!; [|by apply Hl| |by apply Hl].
       all: repeat (apply Forall_cons; split; [by apply literal_one_line|]); apply Forall_nil_2. }
  rewrite foldl_app. cbn [foldl]. rewrite assign_empty. unfold record_lines. rewrite !foldl_app. cbn [foldl].
  rewrite !assign_comment by done. rewrite <- foldl_app, <- fmap_app. apply assignments_read; [exact Hr| |exact Hin].
  apply (bool_decide_unpack _). vm_compute. exact I.
Qed.
