(* ===== verification/DevnetFixture.v ===== *)
(** * A concrete devnet

    A host whose L1 answers, whose programs succeed and whose op-cartesi writes
    its rollup configuration, on which the properties of the devnet and of the
    scripts are instantiated. *)

From Stdlib Require Import ZArith Lia.
From S2P Require Import Prelude Bytes DriveTable Evm Fixture.
From S2P Require Import Text JsText Regex Numbers Json Process Env EnvSpec Devnet DevnetSpec Deploy DeploySpec Scripts.

#[local] Existing Instance Toy.toy_keccak.
Definition MODULE : text := §"/repo/devnet/lib/env.ts".
Definition HASH : text := §"0x1b22d1b1d3cd4b6d5b2a3d3a5c6e8f9a0b1c2d3e4f5a6b7c8d9e0f1a2b3c4d5e".
Definition TOKEN : text := §"0x90f79bf6eb2c4f870365e785982e1f101e93b906".
Definition GAME : text := §"0x15d34aaf54267db7d7c367839aaf71a00a2c6a65".
Definition YOUNG : text := §"0x9965507d1a55bcc2695c58ba16fb37d819b0a4dc".
Definition toy_error : JsErr := plain_error (§"unanswered").

(** The L1's blocks: one every two seconds. *)
Definition toy_block (n : Z) : Block := mkBlock HASH n (1700000000 + 2 * n) [] HASH (Some HASH).
Definition toy_read (fn : text) : Z :=
  if text_eq fn (§"gameCount") then 3
  else if text_eq fn (§"l2BlockNumber") then 40
  else if text_eq fn (§"scalar") then 2 ^ 248 + 810949 * 2 ^ 32 + 1368
  else if text_eq fn (§"proofMaturityDelaySeconds") then 604800
  else if text_eq fn (§"maxClockDuration") then 302400
  else if text_eq fn (§"disputeGameFinalityDelaySeconds") then 302400 else 0.
Definition toy_answer {A : Type} (h : list Event) (url : text) (key : option text) (c : Call A) : JsErr + A :=
  match c in Call B return JsErr + B with
  | GetChainId => inr 900
  | GetBlockNumber => inr 3
  | GetBlock n => inr (toy_block (Z.abs n))
  | GetCode _ => inr (Some (§"0x60"))
  | ReadContract a fn _ => inr (if text_eq a YOUNG then 39 else toy_read fn)
  | ReadGameAtIndex _ i => inr (1, 1700000000, if i =? 2 then YOUNG else GAME)
  | WaitForReceipt hash _ => inr (mkReceipt (§"success") hash 40)
  | RpcRequest _ _ => inr tt
  | SendTransaction _ _ _ => inr HASH
  | WriteContract _ _ _ => inr HASH
  | GetTransactionEmissions _ => inr (mkEmissions true 5 [(7, [1; 2])] [])
  | GetOutputProof _ _ => inr (mkOutputProof (§"0x01") [HASH] HASH HASH [])
  | WaitToProve _ _ => inr (mkToProve (§"0x000000010000000065543210" ++ drop 2 GAME) 2 40 HASH)
  | BuildProveWithdrawal _ => inr (§"0x")
  | ProveWithdrawal _ => inr HASH
  | FinalizeWithdrawal _ _ => inr HASH
  | Fetch _ => inr tt
  | _ => inl toy_error
  end.

(** What op-deployer reports. *)
Definition toy_l1 : text := quoted "{'OptimismPortalProxy':'0x01','SystemConfigProxy':'0x02','DisputeGameFactoryProxy':'0x03','L1StandardBridgeProxy':'0x04','L1CrossDomainMessengerProxy':'0x05','AnchorStateRegistryProxy':'0x06'}".
Definition toy_rollup : text := quoted "{'batch_inbox_address':'0x07','genesis':{'l1':{'hash':'" ++ HASH ++ quoted "','number':12}}}".
Definition toy_child (h : list Event) (cmd : list text) (cwd : option text) (env : gmap text text) (f : files) : JsErr + (Z * text * text * files) :=
  if bool_decide (§"genesis" ∈ cmd) then inr (0, [], [], <[§"/repo/devnet/rollup.json" := File (§"{}")]> f)
  else if bool_decide (§"init" ∈ cmd) then inr (0, [], [], <[§"/repo/devnet/deployment/intent.toml" := File (§"gasLimit = 60000000")]> f)
  else if bool_decide (§"l1" ∈ cmd) then inr (0, toy_l1, [], f)
  else if bool_decide (§"rollup" ∈ cmd) then inr (0, toy_rollup, [], f)
  else if bool_decide (§"script/DeployOutputs.s.sol:DeployOutputs" ∈ cmd) then inr (0, §"OUTPUT_EXECUTOR_ADDRESS=" ++ TOKEN, [], f)
  else inr (0, [], [], f).
(** The calls the scripts encode: a tag byte, addresses, an amount. *)
Definition toy_encode (args : list Arg) : JsErr + text :=
  let packed (known : bool) (addresses : list text) (bs : bytes) :=
    if known && bool_decide (Forall is_byte bs) && forallb (fun a => zlen (hex_bytes a) =? 20) addresses then inr (hex_text bs) else inl toy_error in
  match args with
  | [AStr lt; AStr rt; AStr to; ANum v; ANum gas; AStr _] =>
      packed (gas =? 400000) [lt; rt; to] (0xb1 :: hex_bytes lt ++ hex_bytes rt ++ hex_bytes to ++ [v])
  | [AStr m; AStr b] => packed true [m; b] (0xb2 :: hex_bytes m ++ hex_bytes b)
  | _ => inl toy_error
  end.
#[export] Instance toy_host : Host := {
  answer := @toy_answer; child := toy_child; write_fault := fun _ _ _ _ => None; which := fun _ => true; randomBytes := fun _ n => zeros n;
  accountOf := fun _ => ANVIL_3; getAddress := fun t => inr t; l2HashesOf := fun _ => [];
  selectorOf := fun t => take 4 t; encodeFunctionData := fun _ => toy_encode; isHex := fun _ => true;
  formatEther := dec; decodeErrorResult := fun _ => inl toy_error }.

(** The repository before the genesis step: the deployment's record, and a
    [.env] of the user's. *)
Definition l1_record : text := join [NL] [§"# recorded"; §"L1_GENESIS_HASH=" ++ HASH; §"L1_GENESIS_NUMBER=12"; §"DEPOSIT_CONTRACT_ADDRESS=" ++ TOKEN;
  §"DISPUTE_GAME_FACTORY_ADDRESS=" ++ TOKEN; §"L1_CROSS_DOMAIN_MESSENGER_ADDRESS=" ++ TOKEN; §"L1_STANDARD_BRIDGE_ADDRESS=" ++ GAME; []].
Definition toy_files : files :=
  <[§"/repo/devnet/l1-addresses.env" := File l1_record]> (<[§"/repo/.env" := File (§"GAS_LIMIT=42" ++ [NL] ++ §"TOKEN_ENV_FILE=/elsewhere")]> ∅).
Definition toy_world : World := mkWorld toy_files (<[§"MACHINE_REMOTE" := §"http://machine"]> ∅) [] [] [].

Definition toy_paths : Paths := paths_of MODULE toy_world.
Definition toy_config : Config :=
  mkConfig (Number_of_Z 900) (Number_of_Z 901) (§"http://127.0.0.1:8600") (§"http://127.0.0.1:8545") ANVIL_1_KEY ANVIL_3_KEY ANVIL_3_KEY 1000000
    TOKEN (Some TOKEN) (Some TOKEN) (Some TOKEN) (Some TOKEN) (Some TOKEN) (Some TOKEN) (p_tokenEnv toy_paths).
Definition toyE : EnvModule := mkEnvModule toy_paths toy_config (mkStack (Number_of_Z 8600) (§"127.0.0.1:8551") (§"127.0.0.1:8545") (§"/snapshot") []).

#[export] Instance toy_tool : GenesisTool toyE.
Proof.
  constructor. intros h cmd cwd env f out err f' Hc Hin. unfold child, toy_host, toy_child in Hc. rewrite bool_decide_true in Hc by done.
  injection Hc as <- <- <-. assert (Hr : p_rollupConfig (m_paths toyE) = §"/repo/devnet/rollup.json") by (vm_compute; reflexivity). rewrite Hr.
  split; [intros path Hp; by rewrite lookup_insert_ne|]. rewrite lookup_insert_eq. by eexists.
Qed.
Lemma toy_distinct : distinct_paths toy_paths.
Proof. unfold distinct_paths. apply (bool_decide_unpack _). vm_compute. exact I. Qed.
Lemma toy_spare : children_spare (p_l1Addresses toy_paths).
Proof.
  intros h cmd cwd env f r out err f'. assert (Hp : p_l1Addresses toy_paths = §"/repo/devnet/l1-addresses.env") by (vm_compute; reflexivity). rewrite Hp.
  unfold child, toy_host, toy_child. intros Hc Hf.
  repeat (case_bool_decide; [injection Hc as _ _ _ <-; try (rewrite lookup_insert_ne by (intros Hx; vm_compute in Hx; discriminate Hx)); exact Hf|]).
  by injection Hc as _ _ _ <-.
Qed.
Lemma sane_toy n : sane_block (toy_block (Z.abs n)).
Proof.
  unfold sane_block. simpl. split; [|lia]. apply forallb_Forall. vm_compute. reflexivity.
Qed.

(** The runs the instances are taken from. *)
Lemma run_done {A} (m : Proc A) w (a : A) : (m w).1 = Done a -> m w = (Done a, (m w).2).
Proof. destruct (m w). by intros [= ->]. Qed.
Definition is_done {A} (r : result A) : bool := match r with Done _ => true | _ => false end.
Lemma some_run {A} (m : Proc A) w : is_done (m w).1 = true -> exists a w', m w = (Done a, w').
Proof. destruct (m w) as [[a|e|c|] w']; try discriminate. by exists a, w'. Qed.
Lemma toy_imported : exists M w', import_env MODULE toy_world = (Done M, w').
Proof. apply some_run. vm_compute. reflexivity. Qed.
Lemma toy_anchored : exists u w', compose_genesis toyE toy_world = (Done u, w').
Proof. apply some_run. vm_compute. reflexivity. Qed.
Lemma toy_deployed : exists u w', deployL1 toyE toy_world = (Done u, w').
Proof. apply some_run. vm_compute. reflexivity. Qed.
Lemma toy_finalized : exists u w', proveAndFinalizeWithdrawal toyE (mkReceipt (§"success") HASH 40) toy_world = (Done u, w').
Proof. apply some_run. vm_compute. reflexivity. Qed.
Definition WITHDRAWAL : list text := [TOKEN; §"5"; hex_text Toy.L1_TOKEN].
Lemma toy_withdrawn : exists u w', withdraw_erc20 toyE WITHDRAWAL toy_world = (Done u, w').
Proof. apply some_run. vm_compute. reflexivity. Qed.
Definition toy_outputs : OutputsModule := mkOutputsModule (§"0") (§"false") 1000 100000.
Lemma toy_registered : exists u w', deployOutputs toyE toy_outputs toy_world = (Done u, w').
Proof. apply some_run. vm_compute. reflexivity. Qed.
(** The flags of the toy chain, and what its L1 answers. *)
Lemma toy_blocks h n b : answer h (c_l1Rpc (m_config toyE)) None (GetBlock n) = inr b -> sane_block b.
Proof. intros Hb. change (inr (toy_block (Z.abs n)) = (inr b : JsErr + Block)) in Hb. injection Hb as <-. apply sane_toy. Qed.
(** The game claimed, of a voucher's execution. *)
Definition claimed (h : list Event) : option Z :=
  match reverse h with
  | _ :: _ :: _ :: Asked _ _ (WriteContract _ _ (ANum g :: _)) :: _ => Some g
  | _ => None
  end.
Lemma toy_executed : exists w', executeVoucher toyE 3 HASH toy_world = (Done 7, w') /\ claimed (history w') = Some 1.
Proof.
  destruct (executeVoucher toyE 3 HASH toy_world) as [r w'] eqn:Hw. exists w'.
  assert (Hi : (fun x : result Z * World => (x.1, claimed (history x.2))) (executeVoucher toyE 3 HASH toy_world) = (Done 7, Some 1)) by (vm_compute; reflexivity).
  rewrite Hw in Hi. injection Hi as -> Hc. split; [reflexivity|exact Hc].
Qed.
(** The repository once the step has built the chain. *)
Definition toy_standing : World := mkWorld
  (<[p_rollupConfig toy_paths := File []]> (<[p_chainFlags toy_paths := File (§"-gas-limit 1")]>
   (<[p_chainGenesis toy_paths := File (join [NL] (genesis_lines (toy_block 12)))]> toy_files))) (environ toy_world) [] [] [].
Lemma toy_stands : standing toyE toy_standing (toy_block 12) (toy_block 12).
Proof. constructor; try (vm_compute; reflexivity); try (eexists; vm_compute; reflexivity). intros Hx. vm_compute in Hx. discriminate Hx. Qed.
