(* ===== verification/Crossing.v ===== *)
(** * Between the scripts and the guest

    What a script encodes is what the guest's handlers decode: the call
    scripts/withdraw-erc20.ts sends to the standard bridge, and the registration
    devnet/deploy-outputs.ts carries to the config contract. viem's encoder, on
    the script's side, and its decoder, on the guest's, are parameters; what is
    asked of them is that the one inverts the other. *)

From Stdlib Require Import ZArith Lia.
From S2P Require Import Prelude Sums Bytes Store DriveConfig DriveHeader RobinHood DriveTable Drive DriveTokens.
From S2P Require Import DriveFormat Evm Ledger Journal DriveJournal LedgerJournal LedgerSpec LedgerInv Handlers Router.
From S2P Require Import HandlersJournal HandlersInv RouterSpec Effects BridgeSpec TokenBridge.
From S2P Require Import Text JsText Regex Numbers Process Env EnvSpec Devnet DevnetSpec Deploy DeploySpec Scripts ScriptsSpec.

(** ** Hexadecimal, back and forth *)
Lemma hex_digit_value v : 0 <= v < 16 -> hex_value (if v <? 10 then v + 48 else v + 87) = v.
Proof.
  intros Hv. unfold hex_value, is_digit, between. destruct (Z.ltb_spec v 10).
  - rewrite (proj2 (Z.leb_le 48 (v + 48))), (proj2 (Z.leb_le (v + 48) 57)) by lia. simpl. lia.
  - rewrite (proj2 (Z.leb_gt (v + 87) 57)) by lia. rewrite andb_false_r.
    rewrite (proj2 (Z.leb_le 97 (v + 87))), (proj2 (Z.leb_le (v + 87) 102)) by lia. simpl. lia.
Qed.
Lemma hex_bytes_text bs : Forall is_byte bs -> hex_bytes (hex_text bs) = bs.
Proof.
  intros Hbs. unfold hex_bytes, hex_text. change (drop 2 (§"0x" ++ ?t)) with t.
  induction Hbs as [|b bs Hb _ IH]; [done|]. cbn [map concat hex_pairs Datatypes.app] in IH |- *. unfold is_byte in Hb.
  rewrite IH, !hex_digit_value; [f_equal; pose proof (Z.div_mod b 16); lia|apply Z.mod_pos_bound; lia|split; [apply Z.div_pos; lia|apply Z.div_lt_upper_bound; lia]].
Qed.

(** ** The encoder and the decoders *)
Class ScriptCalldata `{Host} `{Calldata} : Prop := {
  bridgeERC20To_decoded localToken remoteToken to amount gas data :
    Process.encodeFunctionData (§"bridgeERC20To")
      [AStr localToken; AStr remoteToken; AStr to; ANum amount; ANum gas; AStr (§"0x")] = inr data ->
    decodeL2Bridge (hex_bytes data)
      = Val (bridgeERC20To (hex_bytes localToken) (hex_bytes remoteToken) (hex_bytes to) amount gas []);
  registerMessenger_decoded messenger bridge data :
    Process.encodeFunctionData (§"registerMessenger") [AStr messenger; AStr bridge] = inr data ->
    decodeConfig (hex_bytes data) = Val (registerMessenger_call (hex_bytes messenger) (hex_bytes bridge)) }.

Lemma settle_done {A} (r : JsErr + A) w a w' : settle r w = (Done a, w') -> r = inr a /\ w' = w.
Proof. destruct r; by intros [= -> ->]. Qed.

Section Sent.
Context `{Host} `{HK : Keccak} (E : EnvModule).
Let config : Config := m_config E.

Lemma asKey_done key w k w' : asKey key w = (Done k, w') -> w' = w /\ k = toLowerCase key.
Proof. unfold asKey. destruct (negb _); [discriminate|]. by intros [= <- <-]. Qed.
Lemma sendL2Tx_done to data value key w hash w' : sendL2Tx E to data value key w = (Done hash, w') ->
  history w' = history w ++ [Asked (c_l2Rpc config) (Some (toLowerCase (default (c_senderKey config) key))) (SendTransaction to data value)].
Proof.
  unfold sendL2Tx. intros (k & w1 & [-> ->]%asKey_done & [_ ->]%ask_done)%pbind_done_inv. done.
Qed.
Lemma l2Sender_done key w a w' : l2Sender E key w = (Done a, w') ->
  w' = w /\ a = accountOf (toLowerCase (default (c_senderKey config) key)).
Proof. unfold l2Sender. intros (k & w1 & [-> ->]%asKey_done & [= <- <-])%pbind_done_inv. done. Qed.
Lemma waitL2Receipt_done hash timeout w r w' : waitL2Receipt E hash timeout w = (Done r, w') ->
  history w' = history w ++ [Asked (c_l2Rpc config) None (WaitForReceipt hash (Some timeout))].
Proof.
  unfold waitL2Receipt, attempt. destruct (l2Public _ _ _ w) as [[a|e|c|] w1] eqn:Ha; try discriminate.
  - intros [= <- <-]. by apply ask_done in Ha as [_ ->].
  - destruct (text_eq _ _); [|discriminate]. intros (s & w2 & _ & Hw)%pbind_done_inv. discriminate.
Qed.

(** The call the script sends to the guest's standard bridge: the pair is the
    token and its façade. *)
Definition bridge_call (token to : text) (amount : Z) : list Arg :=
  [AStr (facade token); AStr token; AStr to; ANum amount; ANum 400000; AStr (§"0x")].

Opaque js.
Lemma withdraw_erc20_done argv w u w' : withdraw_erc20 E argv w = (Done u, w') ->
  exists toArg amountArg to amount token data hash rest,
    given argv 0 = Some toArg /\ getAddress toArg = inr to /\ given argv 1 = Some amountArg /\ BigInt amountArg = Some amount
    /\ match given argv 2 with Some t => getAddress t = inr token | None => c_testToken config = Some token end
    /\ Process.encodeFunctionData (§"bridgeERC20To") (bridge_call token to amount) = inr data
    /\ history w' = history w ++ [Asked (c_l2Rpc config) (Some (toLowerCase (c_senderKey config)))
                                    (SendTransaction (hex_text L2_BRIDGE_ADDRESS) (Some data) None);
                                  Asked (c_l2Rpc config) None (WaitForReceipt hash (Some 60000))] ++ rest.
Proof.
  unfold withdraw_erc20. destruct (given argv 0) as [toArg|]; [|discriminate]. destruct (given argv 1) as [amountArg|]; [|discriminate].
  intros (to & w1 & [Hto ->]%settle_done & Hw)%pbind_done_inv. apply pbind_done_inv in Hw as (amount & w1 & Ha & Hw).
  unfold bigint_of in Ha. destruct (BigInt amountArg) as [z|] eqn:Hz; [|discriminate]. injection Ha as -> <-.
  apply pbind_done_inv in Hw as (token & w1 & Ht & Hw).
  destruct token as [[|t0 t]|]; try discriminate. remember (t0 :: t) as token eqn:Htok.
  assert (Hq : w1 = w /\ match given argv 2 with Some t => getAddress t = inr token | None => c_testToken config = Some token end).
  { destruct (given argv 2) as [tokenArg|].
    - apply pbind_done_inv in Ht as (a & w2 & [Hta ->]%settle_done & Ht). injection Ht as <- <-. by split.
    - injection Ht as Ht <-. by split. }
  destruct Hq as [-> Htoken]. clear Ht.
  apply pbind_done_inv in Hw as (sender & w1 & [-> _]%l2Sender_done & Hw).
  apply pbind_done_inv in Hw as (? & w1 & H1%console_error_done & Hw).
  apply pbind_done_inv in Hw as (data & w2 & [Hd ->]%settle_done & Hw).
  apply pbind_done_inv in Hw as (hash & w2 & H2%sendL2Tx_done & Hw). apply pbind_done_inv in Hw as (? & w3 & H3%console_error_done & Hw).
  apply pbind_done_inv in Hw as (receipt & w4 & H4%waitL2Receipt_done & Hw).
  apply pbind_done_inv in Hw as (before & w5 & (_ & ->)%ask_done & Hw).
  apply pbind_done_inv in Hw as (? & w5 & Hp & Hw). apply proveAndFinalize_done in Hp as (? & ? & ? & ? & ? & ? & ? & ? & ? & ? & ? & ? & _ & _ & H5).
  apply pbind_done_inv in Hw as (after & w6 & (_ & ->)%ask_done & Hw).
  do 3 apply pbind_done_inv in Hw as (? & ? & ?%console_error_done & Hw). apply console_error_done in Hw.
  exists toArg, amountArg, to, amount, token, data, hash. eexists. do 4 (split; [done|]). split; [done|]. split; [exact Hd|].
  rewrite Hw. repeat match goal with Hh : history ?a = history _ |- context [history ?a] => rewrite Hh end.
  cbn [history remember]. rewrite H5. cbn [history remember]. rewrite H4, H3, H2, H1. cbn [default]. rewrite <- !app_assoc. reflexivity.
Qed.
End Sent.

(** ** The guest's side *)
Section Received.
Context {S App : Type} {HS : Store S} {HR : StoreReads S} {HW : StoreWrites S} {HG : StoreGuards S}
  {HK : Keccak} {HKL : KeccakLaws} {HV : Viem} {HI : InputLaws} {HC : Calldata} {HCL : CalldataLaws} `{Host} `{!ScriptCalldata}.
Implicit Types g : Handlers.World S App.

Lemma facade_bytes token : hex_bytes (facade token) = l2TokenAddress (hex_bytes token).
Proof. unfold facade. apply hex_bytes_text. unfold l2TokenAddress. apply Forall_drop, keccak_bytes. Qed.
Lemma bridge_address_bytes : hex_bytes (hex_text L2_BRIDGE_ADDRESS) = L2_BRIDGE_ADDRESS.
Proof. apply hex_bytes_text. unfold is_byte. apply (bool_decide_unpack _). vm_compute. exact I. Qed.

(** What a bridge call of [v] of the L1 token [T] from [s] to [t] does: accepted,
    it burns what its message to L1 releases; otherwise it
    reverts: nothing is emitted, the ledger is as it was, and it says why. *)
Definition bridged g img (cd : CrossDomainConfig) (T s t : Address) (v : Z) (o : AdvanceOutcome) g' : Prop :=
  let m := release cd T (l2TokenAddress T) s t v 400000 [] (msgNonce (ram (ledger g))) in
  let n := 2 ^ 240 + sink_input (sink g) * 2 ^ 32 + withdrawals (sink g) in
  match o with
  | OAccept => exists id, token_is (ledger g) id T
      /\ v <= token_balance (cfg (drive (ledger g))) (tokens_ (drive (ledger g))) img id s
      /\ (exists img', token_burned (ledger g) img id s v (ledger g') img')
      /\ emissions (sink g') = emissions (sink g) ++ [log_notice (l2TokenAddress T) (transferLog s ZERO_ADDRESS v);
           log_notice L2_BRIDGE_ADDRESS (erc20BridgeLog ERC20_BRIDGE_INITIATED_TOPIC (l2TokenAddress T) T s t v [])] ++ sent_outputs cd m n
  | ORevert data => sink g' = sink g /\ unmoved (ledger g) img (ledger g')
      /\ ((data = errorRevert "wrong token pair" /\ ~ known_pair (ledger g) (l2TokenAddress T) T)
          \/ (data = errorRevert "amount exceeds balance" /\ exists id, token_is (ledger g) id T
              /\ token_balance (cfg (drive (ledger g))) (tokens_ (drive (ledger g))) img id s < v))
  | _ => False
  end.

Lemma bridge_call_received ctx cd g img token to v data : ledger_wf (ledger g) img ->
  profile (cfg (drive (ledger g))) <> ProfileSingleAsset -> valid_address (tx_sender ctx) -> 0 < v ->
  0 <= sink_input (sink g) < 2 ^ 208 -> 0 <= withdrawals (sink g) < 2 ^ 32 -> crossDomain (ledger g) = Some cd ->
  Process.encodeFunctionData (§"bridgeERC20To") (bridge_call token to v) = inr data -> tx_data ctx = hex_bytes data ->
  returns (l2bridge_advance ctx) g (bridged g img cd (hex_bytes token) (tx_sender ctx) (hex_bytes to) v).
Proof.
  intros Hwf Hp Hs Hv Hi Ho Hcd Henc Hdata. unfold l2bridge_advance. apply returns_bind, returns_gets. rewrite Hcd, Hdata.
  unfold tryDecodeCalldata. rewrite (bridgeERC20To_decoded _ _ _ _ _ _ Henc), facade_bytes.
  eapply returns_mono; [by apply (bridge_withdrawal_spec ctx cd g img)|]. intros [|data'|data'|r] g' Hr; try exact Hr.
  destruct Hr as (id & Hid & _ & Hle & Hb & He). exists id. by split_and!.
Qed.

(** The registration, at a config contract owned by [owner]. *)
Lemma registration_received owner configAddress ctx g messenger bridge data : tx_sender ctx = owner ->
  Process.encodeFunctionData (§"registerMessenger") [AStr messenger; AStr bridge] = inr data -> tx_data ctx = hex_bytes data ->
  returns (config_advance owner configAddress ctx) g (fun o g' =>
    if hasErc20Portal (ledger g) then o = ORevert (errorRevert "an ERC-20 portal is registered; escrows are exclusive") /\ g' = g
    else o = OAccept /\ drive (ledger g') = drive (set_journal (journal (ledger g')) (ledger g))
      /\ crossDomain (ledger g') = Some (mkCrossDomain (hex_bytes messenger) (applyL1ToL2Alias (hex_bytes messenger)) (hex_bytes bridge))).
Proof.
  intros Hs Henc Hdata. unfold config_advance. rewrite Hs, bytesEqual_refl, Hdata. cbn [negb]. unfold tryDecodeCalldata.
  rewrite (registerMessenger_decoded _ _ _ Henc). apply returns_bind, returns_gets.
  destruct (hasErc20Portal (ledger g)) eqn:Hh; [by apply returns_ret|].
  split; [done|]. split; [reflexivity|reflexivity].
Qed.
End Received.

(** ** The deployment's side *)
Section Registered.
Context `{Host} (E : EnvModule).
Let url : text := c_l1Rpc (m_config E).

Lemma register_messenger_done O wallet portal a w u w' : register_messenger E O wallet portal a w = (Done u, w') ->
  exists messenger bridge data hash, l1CrossDomainMessenger a = Some messenger /\ l1StandardBridge a = Some bridge
    /\ toLowerCase (accountOf (toLowerCase (deployerKey a))) = toLowerCase (guestOwner a)
    /\ Process.encodeFunctionData (§"registerMessenger") [AStr messenger; AStr bridge] = inr data
    /\ history w' = history w ++ [Asked url (Some wallet) (WriteContract portal (§"depositTransaction")
           [AStr (guestConfigAddress a); ANum 0; ANum (registerGasLimit O); ABool false; AStr data]);
         Asked url None (WaitForReceipt hash None)].
Proof.
  unfold register_messenger. intros (signer & w1 & [-> ->]%asKey_done & Hw)%pbind_done_inv.
  destruct (text_eq (toLowerCase (accountOf _)) _) eqn:Ho; [|discriminate]. apply text_eq_spec in Ho. cbn [negb] in Hw.
  destruct (l1CrossDomainMessenger a) as [[|m0 m]|]; try discriminate. destruct (l1StandardBridge a) as [[|b0 b]|]; try discriminate.
  apply pbind_done_inv in Hw as (data & w1 & [Hd ->]%settle_done & Hw).
  apply pbind_done_inv in Hw as (hash & w1 & (_ & ->)%ask_done & Hw). apply pbind_done_inv in Hw as (r & w1 & (_ & ->)%ask_done & Hw).
  injection Hw as _ <-. exists (m0 :: m), (b0 :: b), data, hash. do 4 (split; [done|]). cbn [history remember]. by rewrite <- app_assoc.
Qed.

Lemma each_log_done (f : text -> text) l w u w' : each (fun x => console_log (f x)) l w = (Done u, w') -> history w' = history w.
Proof.
  revert w. induction l as [|x l IH]; intros w; cbn [each]; [by intros [= _ <-]|].
  intros (? & w1 & H1 & Hw)%pbind_done_inv. injection H1 as _ <-. by apply IH in Hw.
Qed.
Lemma deployOutputs_done O w u w' : deployOutputs E O w = (Done u, w') ->
  exists a p messenger bridge data hash hs, addresses (m_paths E) w = (Done a, w) /\ chainParams (m_paths E) w = (Done p, w)
    /\ l1CrossDomainMessenger a = Some messenger /\ l1StandardBridge a = Some bridge
    /\ toLowerCase (accountOf (toLowerCase (deployerKey a))) = toLowerCase (guestOwner a)
    /\ Process.encodeFunctionData (§"registerMessenger") [AStr messenger; AStr bridge] = inr data
    /\ history w' = hs ++ [Asked url (Some (toLowerCase (deployerKey a))) (WriteContract (depositContractAddress p) (§"depositTransaction")
           [AStr (guestConfigAddress a); ANum 0; ANum (registerGasLimit O); ABool false; AStr data]);
         Asked url None (WaitForReceipt hash None)].
Proof.
  unfold deployOutputs. intros (a & w1 & Ha & Hw)%pbind_done_inv.
  pose proof (quiet_done _ _ _ _ (quiet_addresses _) Ha) as ->.
  apply pbind_done_inv in Hw as (p & w1 & Hp & Hw). pose proof (quiet_done _ _ _ _ (quiet_chainParams _) Hp) as ->.
  destruct (disputeGameFactory a) as [[|f0 f]|]; try discriminate. destruct (negb _); [discriminate|].
  apply pbind_done_inv in Hw as (there & w1 & _ & Hw). apply pbind_done_inv in Hw as (? & w2 & _ & Hw).
  apply pbind_done_inv in Hw as (r & w3 & _ & Hw). apply pbind_done_inv in Hw as (? & w4 & _ & Hw). cbv zeta in Hw.
  destruct (last_of _ _) as [[|e0 e]|]; try discriminate. apply pbind_done_inv in Hw as (? & w5 & _ & Hw).
  apply pbind_done_inv in Hw as (wallet & w6 & [-> ->]%asKey_done & Hw). apply pbind_done_inv in Hw as (funding & w6 & _ & Hw).
  apply pbind_done_inv in Hw as (? & w7 & _ & Hw).
  apply pbind_done_inv in Hw as (? & w8 & (m & b & data & hash & Hm & Hb & Ho & Hd & H8)%register_messenger_done & Hw).
  apply pbind_done_inv in Hw as (? & w9 & H9%console_error_done & Hw). apply pbind_done_inv in Hw as (? & w10 & H10%each_log_done & Hw).
  injection Hw as _ <-. exists a, p, m, b, data, hash, (history w7). do 6 (split; [done|]).
  cbn [history]. by rewrite H10, H9, H8.
Qed.
End Registered.
