(* ===== verification/DevnetProperties.v ===== *)
(** * The properties of the devnet and of the scripts *)

From Stdlib Require Import ZArith Lia.
From S2P Require Import Prelude Bytes DriveTable Evm Fixture.
From S2P Require Import Text JsText Regex Numbers Json Process Env EnvSpec Devnet DevnetSpec Deploy DeploySpec.
From S2P Require Import Scripts ScriptsSpec GuestLog GuestLogSpec DevnetFixture.

(** ** Configuration *)

(** A line's effect, by the reference parser. *)
Definition set_line (m : vars) (line : text) : vars :=
  match parse_line line with
  | Some (k, v) => if text_eq k (§"__proto__") then m else <[k := v]> m
  | None => m
  end.

(** C29: an environment file is read as its lines say: a name, an equals sign
    and the rest of the line, whose two outer quotes are dropped; a later line
    wins; comments, other lines and lines with a carriage return assign nothing.
    An absent file is an empty one. The backtracking pattern of the source and
    the plain parser agree on every text. *)
Theorem env_files_read path w : readEnvFile path w = match fs w !! path with
  | Some (File t) => (Done (foldl set_line ∅ (split_on NL t)), w)
  | Some Dir => (Thrown (fs_error EISDIR (§"read") path), w)
  | None => (Done ∅, w) end.
Proof.
  assert (He : forall t, env_vars t = foldl set_line ∅ (split_on NL t)).
  { intros t. unfold env_vars. generalize (∅ : vars) as m. induction (split_on NL t) as [|l ls IH]; intros m; [done|].
    cbn [foldl]. rewrite IH. do 2 f_equal. unfold assign, set_line. by rewrite env_line_parse. }
  destruct (fs w !! path) as [[t|]|] eqn:Hf; [|by apply readEnvFile_dir|].
  - rewrite readEnvFile_file by (by rewrite Hf). unfold file_vars. by rewrite Hf, He.
  - rewrite readEnvFile_file by (by rewrite Hf). unfold file_vars. by rewrite Hf.
Qed.

(** importing the configuration takes the paths from the environment as it
    was, loads [.env] below it, and changes no file; a variable read afterwards is
    the token file's, or else the outputs file's, the genesis file's, the L1
    addresses', the environment's, [.env]'s, in this order. So a path named in
    [.env] moves no path: two worlds with the same environment have the same
    paths, whatever their [.env] says. *)
Theorem configuration_layers file w M w' : import_env file w = (Done M, w') ->
  let dotenv := file_vars w (path_join (p_repo (m_paths M)) (§".env")) in
  m_paths M = paths_of file w /\ fs w' = fs w /\ environ w' = environ w ∪ dotenv
  /\ (forall name, pick (layers (m_paths M) w') w' name =
       layered [file_vars w (p_tokenEnv (m_paths M)); file_vars w (p_outputsAddresses (m_paths M));
                file_vars w (p_chainGenesis (m_paths M)); file_vars w (p_l1Addresses (m_paths M)); environ w; dotenv] name)
  /\ (forall w2 M2 w2', environ w2 = environ w -> import_env file w2 = (Done M2, w2') -> m_paths M2 = m_paths M).
Proof.
  intros Hw. cbv zeta. destruct (import_env_done _ _ _ _ Hw) as (Hp & Hf & He & Hn). split; [exact Hp|]. split; [exact Hf|]. split; [exact He|].
  split; [exact Hn|]. intros w2 M2 w2' Henv Hw2. destruct (import_env_done _ _ _ _ Hw2) as (Hp2 & _).
  rewrite Hp2, Hp. unfold paths_of, env_or. by rewrite Henv.
Qed.
Lemma configuration_layers_witness : exists M w', import_env MODULE toy_world = (Done M, w')
  /\ p_tokenEnv (m_paths M) = §"/repo/devnet/token.env" /\ pick (layers (m_paths M) w') w' (§"GAS_LIMIT") = Some (§"42").
Proof.
  destruct toy_imported as (M & w' & Hw). exists M, w'. split; [exact Hw|].
  destruct (configuration_layers MODULE toy_world M w' Hw) as (Hp & _ & _ & Hn & _). split.
  - rewrite Hp. vm_compute. reflexivity.
  - rewrite Hn, Hp. vm_compute. reflexivity.
Defined.

(** ** A new chain *)
Section NewChain.
Context `{Host} (E : EnvModule) `{!GenesisTool E}.
Let P : Paths := m_paths E.
Let url : text := c_l1Rpc (m_config E).

(** C14: a genesis step that builds a chain anchors it to the block the
    deployment recorded, whatever files an older chain left: the anchor is what
    L1 answered, in this run, when asked for the block of the recorded number,
    and has the recorded hash; read back, the parameters are that hash and the
    number and timestamp of that block; the rollup configuration was generated
    with exactly these parameters; and the flags file holds the flags it was
    generated with, which the engine's shell splits into exactly these, provided
    the three of them that are texts of the configuration (the checkpoint
    interval, the gas limit, the cycle limit) hold no blank and are not empty. *)
Theorem engines_run_the_rollups_chain w w' u : distinct_paths P ->
  (forall h n b, answer h url None (GetBlock n) = inr b -> sane_block b) ->
  compose_genesis E w = (Done u, w') ->
  exists h nt n hist anchor p bin m t,
    file_vars w (p_l1Addresses P) !! L1_GENESIS_HASH = Some h
    /\ file_vars w (p_l1Addresses P) !! L1_GENESIS_NUMBER = Some nt /\ BigInt nt = Some n
    /\ answer hist url None (GetBlock n) = inr anchor /\ hist ++ [Asked url None (GetBlock n)] `prefix_of` history w'
    /\ toLowerCase (b_hash anchor) = toLowerCase h
    /\ chainParams P w' = (Done p, w')
    /\ l1GenesisHash p = toLowerCase h /\ l1GenesisNumber p = dec (b_number anchor) /\ genesisTimestamp p = dec (b_timestamp anchor)
    /\ Spawned (genesis_command E bin p m w) (Some (p_repo P)) (∅ ∪ environ w) ∈ history w'
    /\ fs w' !! p_chainFlags P = Some (File t)
    /\ (shell_word (checkpointInterval p) -> shell_word (gasLimit p) -> shell_word (maxCyclesPerInput p) ->
        shell_words t = consensus_flags p).
Proof.
  intros Hd Hsane Hw. destruct (compose_genesis_built E w u w' Hd Hw) as (h & anchor & p & bin & m & Hb).
  pose proof Hb as [Hr (hist & nt & n & Hnt & Hn & Ha & Hpre) Hh _ _ _ Hf _ Hs Hp _].
  destruct (built_anchor E _ _ _ _ _ _ _ Hb (Hsane _ _ _ Ha)) as (H1 & H2 & H3).
  exists h, nt, n, hist, anchor, p, bin, m. eexists. do 11 (split; [assumption|]). split; [exact Hf|].
  intros Hi Hg Hc. apply shell_words_join. unfold consensus_flags. rewrite H3.
  repeat (apply Forall_cons; split; [first [assumption|apply number_word|apply dec_word|split; [discriminate|by repeat constructor]]|]).
  apply Forall_nil_2.
Qed.

(** C15: a genesis step whose chain still stands does nothing: it asks L1 for
    the anchor once, exits with 0 and leaves every file, so it does not look at
    what the flags file holds; and the chain a step built stands, for a later run
    over the same files, as long as L1 answers the recorded hash for the anchor. *)
Theorem standing_chain_kept :
  (forall w anchor b, standing E w anchor b -> sane_block anchor -> b_hash anchor <> [] ->
     exists w', compose_genesis E w = (Exited 0, w') /\ fs w' = fs w /\ environ w' = environ w
       /\ history w' = history w ++ [Asked url None (GetBlock (b_number anchor))])
  /\ (forall w w' u, distinct_paths P -> compose_genesis E w = (Done u, w') ->
     exists h anchor, toLowerCase (b_hash anchor) = toLowerCase h /\ (exists hist n, answer hist url None (GetBlock n) = inr anchor)
       /\ forall w2 b, fs w2 = fs w' -> truthy (environ w2 !! (§"MACHINE_REMOTE")) = true -> h = b_hash anchor ->
          answer (history w2) url None (GetBlock (b_number anchor)) = inr b -> b_hash b = b_hash anchor -> standing E w2 anchor b).
Proof.
  split; [intros; by apply compose_genesis_rerun with b|]. intros w w' u Hd Hw.
  destruct (compose_genesis_built E w u w' Hd Hw) as (h & anchor & p & bin & m & [Hr Ha Hh Hl Hg _ Hf Hro _ Hp _]).
  exists h, anchor. split; [exact Hh|]. split; [destruct Ha as (hist & nt & n & _ & _ & Ha & _); by exists hist, n|]. intros w2 b Hfs Hm -> Hans Hsame.
  fold P in Hl, Hg, Hf, Hro. constructor; fold P.
  - exact Hm.
  - by rewrite Hfs.
  - rewrite Hfs, Hf. by eexists.
  - by rewrite Hfs.
  - rewrite Hfs. apply chainParams_done in Hp as (_ & Hs & _). unfold settled in Hs. rewrite !Forall_cons in Hs. apply Hs.
  - unfold file_vars in *. by rewrite Hfs, Hl.
  - exact Hans.
  - exact Hsame.
Qed.
End NewChain.

(** Its configured flags are single words. *)
Lemma toy_flag_texts w' p : (exists u, compose_genesis toyE toy_world = (Done u, w')) -> chainParams toy_paths w' = (Done p, w') ->
  shell_word (checkpointInterval p) /\ shell_word (gasLimit p) /\ shell_word (maxCyclesPerInput p).
Proof.
  intros [u Hw] Hp. assert (H : match (chainParams toy_paths (compose_genesis toyE toy_world).2).1 with
    | Done p => bool_decide (shell_word (checkpointInterval p) /\ shell_word (gasLimit p) /\ shell_word (maxCyclesPerInput p)) = true
    | _ => True end) by (vm_compute; reflexivity).
  rewrite Hw in H. cbn [snd] in H. rewrite Hp in H. by apply bool_decide_eq_true_1 in H.
Qed.
(** The toy chain: block 12, two seconds a block, and its flags. *)
Lemma engines_run_the_rollups_chain_witness : exists w' p t, chainParams toy_paths w' = (Done p, w')
  /\ l1GenesisHash p = HASH /\ l1GenesisNumber p = §"12" /\ genesisTimestamp p = §"1700000024"
  /\ fs w' !! p_chainFlags toy_paths = Some (File t) /\ shell_words t = consensus_flags p.
Proof.
  destruct toy_anchored as (u & w' & Hw).
  destruct (engines_run_the_rollups_chain toyE toy_world w' u toy_distinct toy_blocks Hw)
    as (h & nt & n & hist & anchor & p & _ & _ & t & Hr & Hnt & Hn & Ha & _ & _ & Hp & H1 & H2 & H3 & _ & Hf & Hs).
  exists w', p, t. split; [exact Hp|].
  assert (Hr' : file_vars toy_world (p_l1Addresses (m_paths toyE)) !! L1_GENESIS_HASH = Some HASH) by (vm_compute; reflexivity).
  rewrite Hr' in Hr. injection Hr as <-.
  assert (Hn' : file_vars toy_world (p_l1Addresses (m_paths toyE)) !! L1_GENESIS_NUMBER = Some (§"12")) by (vm_compute; reflexivity).
  rewrite Hn' in Hnt. injection Hnt as <-. vm_compute in Hn. injection Hn as <-.
  change (inr (toy_block 12) = (inr anchor : JsErr + Block)) in Ha. injection Ha as <-.
  rewrite H1, H2, H3. split; [vm_compute; reflexivity|]. split; [vm_compute; reflexivity|]. split; [vm_compute; reflexivity|].
  split; [exact Hf|]. destruct (toy_flag_texts w' p (ex_intro _ u Hw) Hp) as (Hi & Hg & Hc). exact (Hs Hi Hg Hc).
Defined.

Lemma standing_chain_kept_witness : exists w', compose_genesis toyE toy_standing = (Exited 0, w') /\ fs w' = fs toy_standing.
Proof.
  destruct (proj1 (standing_chain_kept toyE) toy_standing (toy_block 12) (toy_block 12) toy_stands (sane_toy 12)) as (w' & Hw & Hf & _).
  - intros Hx. vm_compute in Hx. discriminate Hx.
  - exists w'. split; [exact Hw|exact Hf].
Defined.

(** ** Deploying *)
Section Deployed.
Context `{Host} (E : EnvModule).
Let P : Paths := m_paths E.

(** C20: the record of a deployment, on every outcome. A deployment that does
    not succeed, whether it exits or throws, and wherever, leaves no record of
    addresses, not even the one it found (unless all went well up to the writing
    of the record and the system cuts that short: it throws, and what the system
    left of the file is there). One that succeeds ends with op-deployer applying
    the intent, reporting twice, and L1 giving a version 1 scalar of the reported
    SystemConfig, and leaves exactly the lines these make: the addresses, the
    inbox, the hash and number of the block, and the two 32-bit fields of the
    scalar. Both scalars read back, whatever was reported, and so does every
    other variable of a report whose values are words. *)
Theorem deployment_record w r w' : children_spare (p_l1Addresses P) -> p_deployWorkdir P <> p_l1Addresses P ->
  path_join (p_deployWorkdir P) (§"intent.toml") <> p_l1Addresses P -> fs w !! p_l1Addresses P <> Some Dir ->
  deployL1 E w = (r, w') ->
  (r <> Done tt /\ fs w' !! p_l1Addresses P = None)
  \/ exists l1 rollup scalar f,
       let base := scalar mod 2 ^ 32 in let blob := (scalar / 2 ^ 32) mod 2 ^ 32 in
       let t := join [NL] (record_lines l1 rollup base blob) ++ [NL] in
       deployment E (no_record E w) (history w') l1 rollup scalar
       /\ ((r = Done tt /\ fs w' !! p_l1Addresses P = Some (File t)
            /\ file_vars w' (p_l1Addresses P) !! (§"BASE_FEE_SCALAR") = Some (dec base)
            /\ file_vars w' (p_l1Addresses P) !! (§"BLOB_BASE_FEE_SCALAR") = Some (dec blob)
            /\ (Forall (fun x => plain x.2) (record_fields l1 rollup base blob) ->
                forall k v, (k, v) ∈ record_fields l1 rollup base blob -> file_vars w' (p_l1Addresses P) !! k = Some v))
           \/ exists e part, r = Thrown e /\ write_fault (history w') f (p_l1Addresses P) t = Some (e, Some part)
                /\ fs w' !! p_l1Addresses P = Some (File part)).
Proof.
  intros Hspare Hdir Hintent Hd Hw.
  destruct (deployL1_record E Hspare Hdir Hintent w r w' Hd Hw) as [Hno|(l1 & rollup & scalar & f & Hdep & Hend)]; [by left|right].
  exists l1, rollup, scalar, f. cbv zeta. split; [exact Hdep|]. destruct Hend as [[-> Hf]|Hcut]; [left|by right].
  fold P in Hf. split; [done|]. split; [exact Hf|]. unfold file_vars. rewrite Hf.
  destruct (record_scalars l1 rollup (scalar mod 2 ^ 32) ((scalar / 2 ^ 32) mod 2 ^ 32)) as [Hb Hc]; [apply Z.mod_pos_bound; lia..|].
  split; [exact Hb|]. split; [exact Hc|]. intros Hp k v Hin. by apply record_reads.
Qed.
End Deployed.

(** op-deployer's reports on the toy host: 14 texts, all words. *)
Lemma toy_inspected h p what cwd env f t err f' : String_of_num (l2ChainId p) = §"901" ->
  child h (inspect_command toyE p what) cwd env f = inr (0, t, err, f') ->
  (what = §"l1" -> t = toy_l1) /\ (what = §"rollup" -> t = toy_rollup).
Proof.
  unfold inspect_command. intros -> Hc. split; intros ->; vm_compute in Hc; injection Hc as <- _ _; vm_compute; reflexivity.
Qed.
Lemma toy_chain_id p w : chainParams toy_paths (no_record toyE toy_world) = (Done p, w) -> String_of_num (l2ChainId p) = §"901".
Proof.
  intros Hp. assert (H : match (chainParams toy_paths (no_record toyE toy_world)).1 with
    | Done p => String_of_num (l2ChainId p) = §"901" | _ => True end) by (vm_compute; reflexivity).
  by rewrite Hp in H.
Qed.
Lemma deployment_record_witness : exists w', deployL1 toyE toy_world = (Done tt, w')
  /\ file_vars w' (p_l1Addresses toy_paths) !! (§"DEPOSIT_CONTRACT_ADDRESS") = Some (§"0x01")
  /\ file_vars w' (p_l1Addresses toy_paths) !! L1_GENESIS_NUMBER = Some (§"12")
  /\ file_vars w' (p_l1Addresses toy_paths) !! (§"BASE_FEE_SCALAR") = Some (§"1368")
  /\ file_vars w' (p_l1Addresses toy_paths) !! (§"BLOB_BASE_FEE_SCALAR") = Some (§"810949").
Proof.
  destruct toy_deployed as ([] & w' & Hw). exists w'. split; [exact Hw|].
  destruct (deployment_record toyE toy_world (Done tt) w' toy_spare) as [[Hno _]|(l1 & rollup & scalar & f & Hdep & Hend)].
  - intros Hx. vm_compute in Hx. discriminate Hx.
  - intros Hx. vm_compute in Hx. discriminate Hx.
  - intros Hx. vm_compute in Hx. discriminate Hx.
  - exact Hw.
  - destruct (Hno eq_refl).
  - destruct Hend as [(_ & _ & Hb & Hc & Hread)|(e & part & He & _)]; [|discriminate He].
    destruct Hdep as (p & a & env & h0 & f0 & o1 & e1 & f1 & l1t & e2 & f2 & rt & e3 & f3 & Hp & _ & _ & H1 & Hj1 & H2 & Hj2 & Hs & _ & _).
    apply toy_chain_id in Hp. apply toy_inspected in H1 as [H1 _]; [|exact Hp]. apply toy_inspected in H2 as [_ H2]; [|exact Hp].
    rewrite (H1 eq_refl) in Hj1. rewrite (H2 eq_refl) in Hj2. vm_compute in Hj1, Hj2. injection Hj1 as <-. injection Hj2 as <-.
    cbv zeta in Hs. change (inr (toy_read (§"scalar")) = (inr scalar : JsErr + Z)) in Hs. injection Hs as <-.
    split; [|split; [|split; [refine (eq_trans Hb _)|refine (eq_trans Hc _)]; vm_compute; reflexivity]].
    + apply Hread; [apply (bool_decide_unpack _); vm_compute; exact I|]. apply (bool_decide_unpack _). vm_compute. exact I.
    + apply Hread; [apply (bool_decide_unpack _); vm_compute; exact I|]. apply (bool_decide_unpack _). vm_compute. exact I.
Defined.

(** ** Vouchers and withdrawals *)
Section Sent.
Context `{Host} `{Keccak} (E : EnvModule).
Let config : Config := m_config E.

(** C32: executing a voucher asks, in this order and with nothing between: for
    its receipt and its outputs, the first of which it executes; then for the
    factory's games, from the newest it counts down, until one whose block is at
    or past the receipt's, all over again while there is none; for the proof of
    the output against the block of that game, the newest of the last count that
    covers the receipt, and for that block; to open that game's claim with the
    roots of that very block; and, once that is mined successfully, to execute
    the output with that proof, which is mined successfully too. *)
Theorem voucher_executed_against_newest_game rounds tx w index w' : executeVoucher E rounds tx w = (Done index, w') ->
  exists factory validator executor caller g,
    c_disputeGameFactory config = Some factory /\ c_outputsValidator config = Some validator /\ c_outputExecutor config = Some executor
    /\ l1Wallet (c_callerKey config) w = (Done caller, w)
    /\ voucher_run E factory validator executor caller tx index g (history w) (history w').
Proof. apply executeVoucher_done. Qed.

(** C34: proving and finalizing a withdrawal asks, in this order and with
    nothing between: for a proposal, for the proof, to prove it; for the two
    delays, to advance past the longer by a minute; for the game's status, to
    resolve it if it is still open; for the finality delay, to advance past it;
    and to finalize. *)
Theorem withdrawal_finalized_in_order receipt w u w' : proveAndFinalizeWithdrawal E receipt w = (Done u, w') ->
  exists caller found args game maturity clock status finality h1 h2 h3 h4,
    let portal := c_depositContract config in let url := c_l1Rpc config in
    getAddress (§"0x" ++ drop 26 (tp_metadata found)) = inr game /\ delays_read E portal game maturity clock status finality
    /\ history w' = history w ++ [Asked url None (WaitToProve receipt (l2Chain E)); Asked (c_l2Rpc config) None (BuildProveWithdrawal found);
                                  Asked url (Some caller) (ProveWithdrawal args); Asked url None (WaitForReceipt h1 None)]
         ++ outlive_events E caller portal game maturity clock status finality h2 h3
         ++ [Asked url (Some caller) (FinalizeWithdrawal found (l2Chain E)); Asked url None (WaitForReceipt h4 None)].
Proof. apply proveAndFinalize_done. Qed.
End Sent.

Lemma voucher_run_claims E factory validator executor caller tx index g h h' :
  voucher_run E factory validator executor caller tx index g h h' -> claimed h' = Some g.
Proof.
  intros (receipt & em & data & rest & proxy & blk & proof & block & root & h1 & h2 & h3 & _ & _ & _ & _ & _ & _ & _ & _
    & (t1 & r1 & _ & _ & _ & ->) & (t2 & r2 & _ & _ & _ & ->)).
  unfold claimed. rewrite !reverse_app. reflexivity.
Qed.
(** Of three games, the newest is a block short: the voucher is executed against
    the second. *)
Lemma voucher_executed_against_newest_game_witness : exists w' factory validator executor caller,
  executeVoucher toyE 3 HASH toy_world = (Done 7, w')
  /\ voucher_run toyE factory validator executor caller HASH 7 1 (history toy_world) (history w').
Proof.
  destruct toy_executed as (w' & Hw & Hclaim).
  destruct (voucher_executed_against_newest_game toyE 3 HASH toy_world 7 w' Hw)
    as (factory & validator & executor & caller & g & Hf & Hv & He & Hc & Hrun).
  exists w', factory, validator, executor, caller. split; [exact Hw|].
  replace 1 with g; [exact Hrun|]. rewrite (voucher_run_claims _ _ _ _ _ _ _ _ _ _ Hrun) in Hclaim. by injection Hclaim.
Defined.
Lemma withdrawal_finalized_in_order_witness : exists game maturity clock status finality,
  delays_read toyE (c_depositContract toy_config) game maturity clock status finality.
Proof.
  destruct toy_finalized as (u & w' & Hw).
  destruct (withdrawal_finalized_in_order toyE (mkReceipt (§"success") HASH 40) toy_world u w' Hw)
    as (_ & _ & _ & game & maturity & clock & status & finality & _ & _ & _ & _ & _ & Hd & _).
  exists game, maturity, clock, status, finality. exact Hd.
Defined.

(** ** The guest log *)
Section Log.
Context `{Host} (E : EnvModule) (rpc : option text).

(** C35: a turn of the guest log's loop ends, whatever the node answers and
    wherever it fails. When the head cannot be read, nothing is printed and the
    next block stays; otherwise the blocks asked for are consecutive, from the
    next one (from the head on the first turn, from one past the head when the
    chain has become shorter) to the head; the next block is then the first not
    printed, and a failure asks for it again at the next turn. A failure is said
    once until a turn succeeds. *)
Theorem guest_log_turn s w : exists s' w' hs, follow_step E rpc s w = (Done s', w') /\ history w' = history w ++ hs
  /\ (f_complained s = true -> stderr w' = stderr w)
  /\ match answer (history w) (default (c_l2Rpc (m_config E)) rpc) None GetBlockNumber with
     | inl _ => f_next s' = f_next s /\ f_complained s' = true /\ asked_blocks hs = [] /\ stdout w' = stdout w
     | inr head => exists k, 0 <= k <= head + 1 - turn_start (f_next s) head /\ f_next s' = Some (turn_start (f_next s) head + k)
         /\ asked_blocks hs = seqZ (turn_start (f_next s) head) (if f_complained s' then k + 1 else k)
         /\ (f_complained s' = false <-> k = head + 1 - turn_start (f_next s) head)
     end.
Proof. apply follow_step_turn. Qed.
End Log.
