(* ===== verification/CrossingProperties.v ===== *)
(** * The properties of the scripts and the guest together

    What a script sends, followed to what the guest does with it. *)

From Stdlib Require Import ZArith Lia.
From S2P Require Import Prelude Sums Bytes Store DriveConfig DriveHeader RobinHood DriveTable Drive DriveTokens.
From S2P Require Import DriveFormat Evm Ledger Journal LedgerJournal LedgerSpec LedgerInv Handlers TokenBridge Fixture.
From S2P Require Import Text JsText Regex Numbers Process Env Devnet Deploy Scripts DevnetFixture Crossing.

Opaque js.
Section CrossingProperties.
Context {S App : Type} {HS : Store S} {HR : StoreReads S} {HW : StoreWrites S} {HG : StoreGuards S}
  {HK : Keccak} {HKL : KeccakLaws} {HV : Viem} {HI : InputLaws} {HC : Calldata} {HCL : CalldataLaws} `{Host} `{!ScriptCalldata}.
Context (E : EnvModule).
Let config : Config := m_config E.

(** C16: a finished run of withdraw-erc20.ts began by sending, under the
    sender's key, one call to the guest's standard bridge, and whatever the
    guest's state when it executes it, the call burns from the sender exactly the
    amount asked for of exactly the token asked for, and its message to L1
    releases that amount of that token to the recipient asked for; or it reverts
    with nothing changed, because the guest does not route that token's façade
    or the sender holds less. *)
Theorem withdrawal_script_burns argv w u w' : withdraw_erc20 E argv w = (Done u, w') ->
  exists toArg amountArg to amount token data hash rest,
    given argv 0 = Some toArg /\ getAddress toArg = inr to /\ given argv 1 = Some amountArg /\ BigInt amountArg = Some amount
    /\ match given argv 2 with Some t => getAddress t = inr token | None => c_testToken config = Some token end
    /\ history w' = history w ++ [Asked (c_l2Rpc config) (Some (toLowerCase (c_senderKey config)))
                                    (SendTransaction (hex_text L2_BRIDGE_ADDRESS) (Some data) None);
                                  Asked (c_l2Rpc config) None (WaitForReceipt hash (Some 60000))] ++ rest
    /\ hex_bytes (hex_text L2_BRIDGE_ADDRESS) = L2_BRIDGE_ADDRESS
    /\ forall ctx cd (g : Handlers.World S App) img, ledger_wf (ledger g) img ->
         profile (cfg (drive (ledger g))) <> ProfileSingleAsset -> valid_address (tx_sender ctx) -> 0 < amount ->
         0 <= sink_input (sink g) < 2 ^ 208 -> 0 <= withdrawals (sink g) < 2 ^ 32 -> crossDomain (ledger g) = Some cd ->
         tx_data ctx = hex_bytes data ->
         returns (l2bridge_advance ctx) g (bridged g img cd (hex_bytes token) (tx_sender ctx) (hex_bytes to) amount).
Proof.
  intros (toArg & amountArg & to & amount & token & data & hash & rest & H1 & H2 & H3 & H4 & H5 & He & Hh)%withdraw_erc20_done.
  exists toArg, amountArg, to, amount, token, data, hash, rest. do 6 (split; [done|]). split; [apply bridge_address_bytes|].
  intros. by eapply bridge_call_received.
Qed.

(** C27: a finished run of deploy-outputs.ts ended by sending, to the portal and
    under the deployer's key, the registration of the messenger and the bridge
    the L1 deployment recorded; delivered as a deposit from that account, the
    guest whose owner is the configured one accepts it and trusts exactly that
    pair from then on, unless an ERC-20 portal is registered: then it reverts and
    nothing changes. *)
Theorem messenger_registration_received O w u w' : deployOutputs E O w = (Done u, w') ->
  exists a p messenger bridge data hash hs, addresses (m_paths E) w = (Done a, w) /\ chainParams (m_paths E) w = (Done p, w)
    /\ l1CrossDomainMessenger a = Some messenger /\ l1StandardBridge a = Some bridge
    /\ history w' = hs ++ [Asked (c_l1Rpc config) (Some (toLowerCase (deployerKey a)))
           (WriteContract (depositContractAddress p) (§"depositTransaction")
             [AStr (guestConfigAddress a); ANum 0; ANum (registerGasLimit O); ABool false; AStr data]);
         Asked (c_l1Rpc config) None (WaitForReceipt hash None)]
    /\ forall configAddress ctx (g : Handlers.World S App),
         tx_sender ctx = hex_bytes (toLowerCase (accountOf (toLowerCase (deployerKey a)))) -> tx_data ctx = hex_bytes data ->
         returns (config_advance (hex_bytes (toLowerCase (guestOwner a))) configAddress ctx) g (fun o g' =>
           if hasErc20Portal (ledger g) then o = ORevert (errorRevert "an ERC-20 portal is registered; escrows are exclusive") /\ g' = g
           else o = OAccept /\ drive (ledger g') = drive (set_journal (journal (ledger g')) (ledger g))
             /\ crossDomain (ledger g') = Some (mkCrossDomain (hex_bytes messenger) (applyL1ToL2Alias (hex_bytes messenger)) (hex_bytes bridge))).
Proof.
  intros (a & p & m & b & data & hash & hs & Ha & Hp & Hm & Hb & Ho & Hd & Hh)%deployOutputs_done.
  exists a, p, m, b, data, hash, hs. do 5 (split; [done|]). intros configAddress ctx g Hs Hdata.
  apply registration_received with data; [by rewrite Hs, Ho|exact Hd|exact Hdata].
Qed.
End CrossingProperties.

(** ** Instances

    A decoder that inverts the encoder of [DevnetFixture], and the guest of
    [Fixture] that lists the token. *)
Import Toy.
Local Abbreviation decode_pack n f := (fun d : bytes => match d with
  | tag :: r => if (tag =? n) then f r else bad
  | [] => bad end).
#[local] Instance crossing_calldata : Calldata := {|
  decodePasser := decodePasser; decodeBridge := decodeBridge; decodeErc20 := decodeErc20; decodeRegistry := decodeRegistry;
  decodeMessenger := decodeMessenger; decodeL1Block := decodeL1Block;
  Handlers.encodeFunctionData := Handlers.encodeFunctionData; encodeFunctionResult := encodeFunctionResult;
  decodeConfig := decode_pack 0xb2 (fun r => Val (registerMessenger_call (take 20 r) (drop 20 r)));
  decodeL2Bridge := decode_pack 0xb1 (fun r => match drop 60 r with
    | [v] => Val (bridgeERC20To (take 20 r) (take 20 (drop 20 r)) (take 20 (drop 40 r)) v 400000 []) | _ => bad end) |}.
#[local] Instance crossing_laws : CalldataLaws.
Proof.
  split; intros d; simpl; try (by repeat case_match).
  - intros to v. repeat case_match; try done. intros [= <- _]. by eapply bool_decide_eq_true_1.
  - intros m. repeat case_match; try done. intros [= <-]. by split; apply address_of_ok.
Qed.

Lemma sized a : (zlen (hex_bytes a) =? 20) = true -> length (hex_bytes a) = 20%nat.
Proof. unfold zlen. intros ?%Z.eqb_eq. lia. Qed.
#[local] Instance crossing_script : ScriptCalldata.
Proof.
  split.
  - intros lt rt to amount gas data. cbn [Process.encodeFunctionData toy_host toy_encode forallb].
    destruct (_ && _) eqn:Hc; [|discriminate]. intros [= <-]. apply andb_true_iff in Hc as [[Hg Hb]%andb_true_iff Hs].
    apply Z.eqb_eq in Hg as ->. apply bool_decide_eq_true_1 in Hb. rewrite hex_bytes_text by exact Hb.
    apply andb_true_iff in Hs as [H1%sized [H2%sized [H3%sized _]%andb_true_iff]%andb_true_iff].
    cbn [decodeL2Bridge crossing_calldata]. rewrite Z.eqb_refl.
    rewrite (app_assoc (hex_bytes rt)), (app_assoc (hex_bytes lt)), drop_app_length' by (rewrite !length_app; lia).
    rewrite <- !app_assoc, take_app_length' by lia. rewrite drop_app_length' by lia. rewrite take_app_length' by lia.
    rewrite (app_assoc (hex_bytes lt)), drop_app_length', take_app_length' by (rewrite ?length_app; lia). done.
  - intros m b data. cbn [Process.encodeFunctionData toy_host toy_encode forallb].
    destruct (_ && _) eqn:Hc; [|discriminate]. intros [= <-]. apply andb_true_iff in Hc as [[_ Hb]%andb_true_iff Hs].
    apply bool_decide_eq_true_1 in Hb. rewrite hex_bytes_text by exact Hb. apply andb_true_iff in Hs as [H1%sized _].
    cbn [decodeConfig crossing_calldata]. rewrite Z.eqb_refl, take_app_length', drop_app_length' by lia. done.
Qed.

(** A guest with a messenger registered. *)
Definition bridging (l : Ledger MemStore.t) : Handlers.World MemStore.t unit := world (set_ram (put_crossDomain (Some paired) (ram l)) l).
Lemma bridging_ready l img : ledger_wf l img -> cfg (drive l) = header_config small ->
  ledger_wf (ledger (bridging l)) img /\ profile (cfg (drive (ledger (bridging l)))) <> ProfileSingleAsset
  /\ 0 <= sink_input (sink (bridging l)) < 2 ^ 208 /\ 0 <= withdrawals (sink (bridging l)) < 2 ^ 32
  /\ crossDomain (ledger (bridging l)) = Some paired.
Proof.
  intros Hwf Hc. split; [exact Hwf|]. split; [change (profile (cfg (drive l)) <> ProfileSingleAsset); rewrite Hc; exact small_tokens|].
  cbn [bridging world sink sink_input withdrawals]. split; [lia|]. split; [lia|reflexivity].
Qed.
Definition calling (data : bytes) : TxContext := Evm.mkTx block ALICE L2_BRIDGE_ADDRESS 0 data false 0.

Lemma withdrawal_arguments : given WITHDRAWAL 0 = Some TOKEN /\ given WITHDRAWAL 1 = Some (§"5") /\ BigInt (§"5") = Some 5
  /\ given WITHDRAWAL 2 = Some (hex_text L1_TOKEN).
Proof. split_and!; vm_compute; reflexivity. Qed.

Lemma withdrawal_script_burns_witness : exists data img,
  returns (l2bridge_advance (calling (hex_bytes data))) (bridging stocked) (bridged (bridging stocked) img paired L1_TOKEN ALICE (hex_bytes TOKEN) 5).
Proof.
  destruct toy_withdrawn as (u & w' & Hw). destruct stocked_spec as (img & (Hwf & _) & _ & Hc & _).
  destruct withdrawal_arguments as (A0 & A1 & A5 & A2).
  destruct (withdrawal_script_burns (S := MemStore.t) (App := unit) toyE WITHDRAWAL toy_world u w' Hw)
    as (toArg & amountArg & to & amount & token & data & hash & rest & H1 & H2 & H3 & H4 & H5 & _ & _ & Hg).
  rewrite A0 in H1. injection H1 as <-. rewrite A1 in H3. injection H3 as <-. rewrite A5 in H4. injection H4 as <-.
  rewrite A2 in H5. exists data, img.
  assert (Ht : to = TOKEN) by (change (inr TOKEN = (inr to : JsErr + text)) in H2; by injection H2).
  assert (Hk : token = hex_text L1_TOKEN) by (change (inr (hex_text L1_TOKEN) = (inr token : JsErr + text)) in H5; by injection H5).
  subst to token. rewrite <- (hex_bytes_text L1_TOKEN) by apply (address_of_ok 0x7070 ltac:(lia)).
  destruct (bridging_ready stocked img Hwf Hc) as (G1 & G2 & G3 & G4 & G5).
  exact (Hg (calling (hex_bytes data)) paired (bridging stocked) img G1 G2 valid_ALICE eq_refl G3 G4 G5 eq_refl).
Defined.

Lemma messenger_registration_received_witness : exists owner sender messenger bridge data,
  returns (config_advance owner CONFIG_ADDRESS (Evm.mkTx block sender CONFIG_ADDRESS 0 (hex_bytes data) true 0)) (world empty_ledger)
    (fun o g' => o = OAccept /\ crossDomain (ledger g')
      = Some (mkCrossDomain (hex_bytes messenger) (applyL1ToL2Alias (hex_bytes messenger)) (hex_bytes bridge))).
Proof.
  destruct toy_registered as (u & w' & Hw).
  destruct (messenger_registration_received (S := MemStore.t) (App := unit) toyE toy_outputs toy_world u w' Hw)
    as (a & p & m & b & data & hash & hs & Ha & _ & _ & _ & _ & Hg).
  do 2 eexists. exists m, b, data.
  refine (returns_mono _ _ _ _ (Hg CONFIG_ADDRESS (Evm.mkTx block _ CONFIG_ADDRESS 0 (hex_bytes data) true 0) (world empty_ledger) eq_refl eq_refl) _).
  intros o g' (Ho & _ & Hcd). exact (conj Ho Hcd).
Defined.
